(* ===== verification/_CoqProject ===== *)
-Q . S2P
Prelude.v
What.v
Extent.v
Dll.v
Buffer.v
BufferModel.v
BufferRefine.v
BufferWalk.v
BufferSpec.v
BufferProps.v
BufferType.v
Optional.v
Mpsc.v
Wakeup.v
QueueSpec.v
Tso.v
Aligned.v
Libevent.v
Handlers.v
HandlersSpec.v
HandlersProps.v
Fifo.v
EventLoop.v
EventLoopProps.v
Await.v
AwaitQueue.v
Stop.v
EventBase.v
EventBaseProps.v
Xplat.v
Watch.v
Stream.v
StreamSpec.v
StreamTurn.v
StreamIO.v
StreamProps.v
Unconnected.v
Listener.v
ListenerProps.v
Wire.v
Blocking.v
BlockingProps.v
Echo.v
EchoProps.v
EchoMain.v
Tests.v
