(* ===== verification/Prelude.v ===== *)
(** * What The Event?: a verification development

    A model of the C++ library "What The Event?" (files named below are under
    [src/src/] unless a path is given) and theorems about it.  The library is an
    event loop over libevent, with buffers, asynchronous streams, a connection
    listener and a queue that carries operations from other threads to the loop.

    ** How it is modelled

    Every operation is an executable function in the monad [M S] of this file: from
    a state [S] it returns ([Done]), leaves by an exception ([Throws]), runs into
    undefined behaviour or a failed assert ([Faults]), or does not return
    ([Diverges]).  [wp m s Q] says that [m] returns from [s] and that [Q] holds of
    the result, so it excludes the other three.  [size_t] is a [Z] in [0, 2^64), with
    the wrap-around [u64] written where the code computes; memory is finite maps
    from addresses, and a dangling access faults.  Whether asserts are compiled in is
    the parameter [NDEBUG].

    Loops run on fuel.  A walk over a buffer takes as many turns as it has extents
    (and the fuel is computed from the memory, so it is always enough, as
    [BufferProps.buffer_refines] says); the other loops take a number of turns, and
    each theorem says how many are enough.  Where the code really does not return
    (a FOREVER loop, [stop] on the loop's own thread) the theorem says so for every
    number of turns.

    Code that is not in the repository is a parameter: libevent (the class
    [Libevent]), the allocator ([Allocator]: the size from which [new] fails),
    system calls, and the callbacks of the user.  What is assumed of it is the laws
    of those classes, or hypotheses of the theorems, and every such theorem has a
    witness that discharges them for a concrete instance.

    ** The parts

    - Event masks ([wte/what.h]; [toFlags], [fromFlags] of
      [libevent_event_base.cc] and [libevent_event_handler.cc]): [What.v].
    - Buffers ([buffer.cc], [buffer-internal.h], [wte/buffer.h]).  [Extent.v]: one
      extent, and its bytes.  [Dll.v]: the circular doubly linked list the extents
      form, as pointers in a memory.  [Buffer.v]: the operations as the code has
      them, on that memory.  [BufferModel.v]: the same on a list of extents.
      [BufferRefine.v] and [BufferWalk.v]: the first implements the second, outcome
      by outcome.  [BufferSpec.v]: the second read as operations on byte strings.
      [BufferProps.v]: the theorems a client uses.  [BufferType.v]: what holds whatever
      a client calls, [read] against its reference definition, and [reserve] with a
      vector of extents.
    - [Optional] ([optional.h]): [Optional.v], with the lives of the values counted.
    - The queue [ConcurrentMPSCQueue] ([mpsc_queue.h]): [Mpsc.v], each atomic access a
      step, any number of producers and one consumer interleaved under sequential
      consistency, with an invariant by induction on the steps.  [Tso.v]: the same
      programs on a machine that keeps stores back in buffers (x86), by a simulation: the
      memory with the consumer's buffer drained and the stores of [push] taken as not
      yet made is a state of [Mpsc.v] that keeps its invariant.  [QueueSpec.v]: an
      abstract queue, as clients see it, which [Mpsc.v] implements.
    - The allocation of its nodes ([cache_aligned.h]): [Aligned.v], over the allocators of
      the system.  [Mpsc.v] takes from it that a node is new and that [freeAligned] gives
      it back.
    - Handlers, timeouts and their registration ([event_handler.cc], [timeout.cc],
      [libevent_event_handler.h], [.cc], and that part of
      [libevent_event_base.cc]): the interface to libevent in [Libevent.v], the code
      in [Handlers.v], its lemmas in [HandlersSpec.v], the theorems in
      [HandlersProps.v].
    - The event loop (the rest of [libevent_event_base.cc]): [EventLoop.v], over the
      interface to the queue [Fifo.v] that [Mpsc.v] implements; theorems in
      [EventLoopProps.v].  The constructor and destructor of an event base and its
      notification channel: [EventBase.v], over [Handlers.v]; [EventBaseProps.v].
      [Wakeup.v]: the calls of any number of threads against the loop, with its pass over
      the queue at the top of every turn, interleaved at every access to the queue of
      [Mpsc.v] and to the channel.  [Await.v]: the threads
      that wait in [runOnEventLoopAndWait], with their mutex, condition and stack frame,
      and [Stop.v]: those in [stop], each against the thread of the loop, interleaved at
      every access to what they share; the queue is a list there, and the loop is woken up
      when it is not empty, as [Wakeup.v] shows for the real one.  [AwaitQueue.v] puts
      [Await.v] and [Wakeup.v] together: waiting calls over the real queue and channel.
    - The wrappers of the system calls ([xplat-io.cc]): [Xplat.v].
    - Streams ([stream.cc]): [Stream.v], over the buffers of [BufferModel.v] and the
      interface to a handler [Watch.v] that [Handlers.v] implements; lemmas in
      [StreamSpec.v], [StreamTurn.v] (the loops of the two helpers, turn by turn) and
      [StreamIO.v], theorems in [StreamProps.v]; [Unconnected.v], over the handlers of
      [Handlers.v]: a stream that is written to before it is connected.
    - The connection listener ([libevent_connection_listener.cc], [.h]):
      [Listener.v], over the same interface; theorems in [ListenerProps.v].
    - Blocking streams ([blocking_stream.cc]): [Blocking.v] composes a stream with an
      event loop of its own; theorems in [BlockingProps.v].
    - The echo server ([src/example/echo-server.cc]): [Echo.v], a connection as a client of
      its stream, with callbacks that destroy it; theorems in [EchoProps.v], over every
      sequence of events.  [EchoMain.v]: [main], which puts the models of the event base,
      the handlers, the listener and the loop on one state.
    - [Wire.v]: a small concrete system for the witnesses of the last two.
    - The unit tests that need neither network nor threads ([src/test/]): [Tests.v], as
      programs on the model that are evaluated.

    ** What the theorems show

    - Buffers: what append, prepend, drain, read, peek, reserve and the moves between
      buffers do to the contents, on every branch and with allocation failure; the
      exact condition under which read and peek stay in the caller's array; that
      nothing is freed twice or leaked; the round trip of append and read; where
      reserved space breaks the contents.
    - Queue: no interleaving touches freed memory; values come out in the order they
      went in; no wake-up is lost; nothing is leaked.  What clients see of it is what
      they could see of an abstract queue, whose [pop] may find nothing while a call of
      [push] has not returned, and not of an atomic one.  With store buffers memory is safe
      and the order kept still, but a wake-up can be lost.  Nodes have cache lines of
      their own.
    - Handlers: an invariant ties what objects say to what libevent watches, every
      operation keeps it, and registration has the effect it should.
    - Loop: operations run once, in order; a loop ends when and only when it should;
      which calls never return.
    - Streams and listener: what is sent and what callbacks are told, in order and
      without loss where that is so, and exactly what happens where it is not (the
      third queued request, the short write in a buffer of several pieces, the refused
      connection, the write before there is one); what is watched; which sockets are closed.
    - Threads: every operation they queue is run, in order, within a bounded number of
      steps of the loop's thread, if no wake-up fails; if one does, none may be run until
      libevent returns for something else, and then all are.  A call that waits for its
      operation returns after it was run, and nothing touches its frame later, again if no
      wake-up fails: with a list for the queue, and with the real one, whose executions are
      those with the list.  Calls of [stop] return, after the end of the loop, if the base runs one loop; with more than one, three races.  The bounds
      are measures of the states: a weight for each thread's place and for each queued
      operation.
    - Event base: what its constructor takes, its destructor gives back.
    - Blocking streams: a write that returns has sent everything, a read that returns has
      the first bytes that arrived; when they return for certain (the turns are bounded by
      the bytes), when they never do, and what is left behind for the next call.
    - Echo server: whatever events happen, what is sent back, queued and still to arrive is
      what the peer sent, if no more is read at once than there is room for, and a part of
      it otherwise; a message comes back whole; how connections end.  Its [main] fails
      before it has said that it is ready, or listens on the port that it prints and never
      returns: a handler may end it.

    ** What is not modelled

    Memory orders weaker than those of x86, and store buffers but in [Tso.v].  In
    [EventLoop.v] a thread that waits is modelled as one that runs alone: it goes on only if
    what it waits for holds already; what other threads do for it is in [Await.v],
    [AwaitQueue.v] and [Stop.v].  The branch of [signalNotifyQueue] for
    eventfd does not compile (it calls [xwrite] with two arguments); the model has the
    other one.  Of the headers, the interfaces whose implementations are modelled.  The
    events that libevent hands to the loop of [EchoMain.v] are a parameter there: what a
    connection does with them is in [EchoProps.v], what the listener does in
    [ListenerProps.v].  A vector of extents that grows ([reserve] and [peek] of
    [buffer.cc]) is taken to get its memory.  The tests over sockets and threads; the build
    files. *)

From Stdlib Require Export ZArith Lia.
From Stdlib Require Export Strings.Byte.
From stdpp Require Export base tactics list gmap numbers strings.

#[global] Open Scope Z_scope.
#[global] Set Warnings "-clear-no-such-hyp".

Declare Scope wte_scope.
Delimit Scope wte_scope with wte.
#[global] Open Scope wte_scope.

(** ** Machine integers

    [size_t] is 64 bits wide on every supported platform ("64-bit platforms",
    README.md); a value of that type is a [Z] in [0, 2^64) and every arithmetic
    operator of the source is followed by the wrap-around [u64]. *)

Definition W64 : Z := 2 ^ 64.
Definition u64 (z : Z) : Z := z mod W64.
Definition SIZE_MAX : Z := W64 - 1.

Notation "a +₆₄ b" := (u64 (a + b)) (at level 50, left associativity) : wte_scope.
Notation "a -₆₄ b" := (u64 (a - b)) (at level 50, left associativity) : wte_scope.

(** A number that a [size_t] can hold. *)
Definition is_u64 (z : Z) : Prop := 0 ≤ z < W64.

(** The two's complement reading of a [w]-bit pattern. *)
Definition to_signed (w : Z) (z : Z) : Z :=
  let m := z mod 2 ^ w in if decide (m < 2 ^ (w - 1)) then m else m - 2 ^ w.
Definition int32 (z : Z) : Z := to_signed 32 z.

Lemma W64_pos : 0 < W64.
Proof. reflexivity. Qed.

Lemma u64_range z : is_u64 (u64 z).
Proof. apply Z.mod_pos_bound, W64_pos. Qed.

Lemma u64_small z : is_u64 z → u64 z = z.
Proof. intros H. by apply Z.mod_small. Qed.

Lemma u64_sub_small a b : 0 ≤ b ≤ a → a < W64 → a -₆₄ b = a - b.
Proof. intros ??. apply u64_small. unfold is_u64. lia. Qed.

Lemma u64_add_small a b : 0 ≤ a → 0 ≤ b → a + b < W64 → a +₆₄ b = a + b.
Proof. intros ???. apply u64_small. unfold is_u64. lia. Qed.

(** Subtracting a larger number wraps around. *)
Lemma u64_sub_wrap a b : 0 ≤ a < b → b ≤ W64 → a -₆₄ b = W64 - (b - a).
Proof.
  intros ??. unfold u64. symmetry. apply (Z.mod_unique_pos _ _ (-1)); lia.
Qed.

Lemma u64_add_l a b : u64 (u64 a + b) = u64 (a + b).
Proof. unfold u64. apply Zplus_mod_idemp_l. Qed.

Lemma u64_sub_l a b : u64 (u64 a - b) = u64 (a - b).
Proof. unfold u64. apply Zminus_mod_idemp_l. Qed.

Lemma to_signed_small w z : 0 < w → 0 ≤ z < 2 ^ (w - 1) → to_signed w z = z.
Proof.
  intros Hw Hz. unfold to_signed. replace (2 ^ w) with (2 * 2 ^ (w - 1)) by (rewrite <- Z.pow_succ_r by lia; f_equal; lia).
  rewrite Z.mod_small, decide_True by lia. done.
Qed.

Lemma int32_small z : - 2 ^ 31 ≤ z < 2 ^ 31 → int32 z = z.
Proof.
  intros H. unfold int32, to_signed.
  destruct (decide (0 ≤ z)).
  - rewrite (Z.mod_small z) by lia. rewrite decide_True by lia. done.
  - replace (z mod 2 ^ 32) with (z + 2 ^ 32).
    + rewrite decide_False by lia. lia.
    + apply (Z.mod_unique_pos _ _ (-1)); lia.
Qed.

(** [htons] and [ntohs], on a little-endian machine. *)
Definition htons (p : Z) : Z :=
  Z.lor (Z.shiftl (Z.land p 255) 8) (Z.land (Z.shiftr p 8) 255).
Definition ntohs (p : Z) : Z := htons p.

Lemma lor_add a b : 0 ≤ b < 256 → Z.lor (Z.shiftl a 8) b = a * 256 + b.
Proof.
  intros Hb. assert (E : Z.land (Z.shiftl a 8) b = 0).
  { apply Z.bits_inj'. intros n Hn. rewrite Z.land_spec, Z.bits_0.
    destruct (decide (n < 8)).
    - by rewrite Z.shiftl_spec_low by lia.
    - assert (Z.testbit b n = false) as ->; [|apply andb_false_r].
      apply Z.testbit_false; [lia|]. rewrite Z.div_small; [done|].
      assert (2 ^ 8 ≤ 2 ^ n) by (apply Z.pow_le_mono_r; lia). lia. }
  rewrite <- Z.lxor_lor, <- Z.add_nocarry_lxor by done. rewrite Z.shiftl_mul_pow2 by lia. lia.
Qed.
Lemma htons_eq p : htons p = p mod 256 * 256 + (p / 256) mod 256.
Proof.
  unfold htons. change 255 with (Z.ones 8). rewrite !Z.land_ones, Z.shiftr_div_pow2 by lia.
  change (2 ^ 8) with 256. apply lor_add. apply Z.mod_pos_bound. lia.
Qed.
Lemma ntohs_htons p : 0 ≤ p < 2 ^ 16 → ntohs (htons p) = p.
Proof.
  intros Hp. unfold ntohs. rewrite !htons_eq.
  pose proof (Z.mod_pos_bound p 256 eq_refl). pose proof (Z.mod_pos_bound (p/256) 256 eq_refl).
  rewrite !(Z.add_comm (p mod 256 * 256)), Z.mod_add, Z.div_add by lia.
  rewrite (Z.mod_small ((p / 256) mod 256)), (Z.div_small ((p / 256) mod 256)), Z.add_0_l by lia.
  assert (0 ≤ p / 256 < 256) by (split; [apply Z.div_pos|apply Z.div_lt_upper_bound]; lia).
  rewrite Z.mod_mod, (Z.mod_small (p / 256)) by lia.
  pose proof (Z.div_mod p 256). lia.
Qed.

(** The largest [int]. *)
Definition INT_MAX : Z := 2 ^ 31 - 1.

(** The length of a list, as the number the code computes with. *)
Abbreviation zlength l := (Z.of_nat (length l)).

(** ** Outcomes

    What a call of the library can do: return; leave by an exception; run into
    undefined behaviour or a failed assertion; or exhaust the fuel of a loop of
    the model (which the termination theorems show never to happen). *)

Inductive exn :=
| bad_alloc
| runtime_error (what : string)
| logic_error (what : string).

Inductive fault :=
| OutOfBounds        (** an access outside an array *)
| UseAfterFree       (** an access through a dangling pointer *)
| NullDeref          (** an access through a null pointer *)
| DoubleFree         (** a [delete] of memory that is not allocated *)
| AssertFailed       (** a failed [assert] *)
| BadCall.           (** a call that breaks the contract of a library *)

#[global] Instance exn_eq_dec : EqDecision exn.
Proof. solve_decision. Defined.
#[global] Instance fault_eq_dec : EqDecision fault.
Proof. solve_decision. Defined.

Inductive outcome (S A : Type) :=
| Done (a : A) (s : S)
| Throws (e : exn) (s : S)
| Faults (f : fault)
| Diverges.
Arguments Done {S A} a s.
Arguments Throws {S A} e s.
Arguments Faults {S A} f.
Arguments Diverges {S A}.

(** The program monad over a state [S]. *)
Definition M (S A : Type) : Type := S → outcome S A.

#[global] Instance M_ret {S} : MRet (M S) := λ A a s, Done a s.
#[global] Instance M_bind {S} : MBind (M S) := λ A B f m s,
  match m s with
  | Done a s' => f a s'
  | Throws e s' => Throws e s'
  | Faults x => Faults x
  | Diverges => Diverges
  end.

Section monad.
Context {St : Type}.

Definition get : M St St := λ s, Done s s.
Definition gets {A} (f : St → A) : M St A := λ s, Done (f s) s.
Definition put (s : St) : M St unit := λ _, Done tt s.
Definition modify (f : St → St) : M St unit := λ s, Done tt (f s).
Definition throw {A} (e : exn) : M St A := λ s, Throws e s.
Definition fail {A} (f : fault) : M St A := λ _, Faults f.
Definition diverge {A} : M St A := λ _, Diverges.
(** [when b m]: an [if] without an [else]. *)
Definition when (b : bool) (m : M St unit) : M St unit :=
  if b then m else mret tt.
(** Undefined behaviour [f] unless [b] holds. *)
Definition require (b : bool) (f : fault) : M St unit :=
  if b then mret tt else fail f.

(** A loop over its live locals: [inl] goes round again, [inr] leaves. *)
Fixpoint loop {X R} (fuel : nat) (body : X → M St (X + R)) (x : X) : M St R :=
  match fuel with
  | O => diverge
  | S fuel =>
      r ← body x;
      match r with
      | inl x' => loop fuel body x'
      | inr v => mret v
      end
  end.
End monad.

(** Run a computation on a part of the state. *)
Definition zoom {S T A} (getp : S → T) (setp : T → S → S) (m : M T A) : M S A :=
  λ s, match m (getp s) with
       | Done a t => Done a (setp t s)
       | Throws e t => Throws e (setp t s)
       | Faults f => Faults f
       | Diverges => Diverges
       end.

(** A system call, in a state that also has a log of what the client was told. *)
Definition sys {S L A} (f : S → A * S) (k : S * L) : A * (S * L) :=
  let '(a, s) := f k.1 in (a, (s, k.2)).

(** ** Weakest preconditions

    [wp m s Q]: run in [s], the computation [m] returns, and its result and
    final state satisfy [Q].  So a [wp] excludes faults, exceptions and
    divergence at once. *)

Definition wp {S A} (m : M S A) (s : S) (Q : A → S → Prop) : Prop :=
  match m s with Done a s' => Q a s' | _ => False end.

Section wp.
Context {St : Type}.
Implicit Types s : St.

Lemma wp_iff {A} (m : M St A) s Q :
  wp m s Q ↔ ∃ a s', m s = Done a s' ∧ Q a s'.
Proof.
  unfold wp. destruct (m s); naive_solver.
Qed.

Lemma wp_done {A} (m : M St A) s a s' (Q : A → St → Prop) :
  m s = Done a s' → Q a s' → wp m s Q.
Proof. unfold wp. by intros ->. Qed.

Lemma wp_mono {A} (m : M St A) s (P Q : A → St → Prop) :
  wp m s P → (∀ a s', P a s' → Q a s') → wp m s Q.
Proof. unfold wp. destruct (m s); naive_solver. Qed.

Lemma wp_and {A} (m : M St A) s (P Q : A → St → Prop) :
  wp m s P → wp m s Q → wp m s (λ a s', P a s' ∧ Q a s').
Proof. unfold wp. destruct (m s); naive_solver. Qed.

Lemma wp_ret {A} (a : A) s (Q : A → St → Prop) : Q a s → wp (mret a) s Q.
Proof. done. Qed.

Lemma wp_bind {A B} (m : M St A) (k : A → M St B) s Q :
  wp m s (λ a s', wp (k a) s' Q) → wp (m ≫= k) s Q.
Proof. unfold wp, mbind, M_bind. by destruct (m s). Qed.

Lemma wp_gets {A} (f : St → A) s (Q : A → St → Prop) : Q (f s) s → wp (gets f) s Q.
Proof. done. Qed.

Lemma wp_modify (f : St → St) s (Q : unit → St → Prop) : Q tt (f s) → wp (modify f) s Q.
Proof. done. Qed.

Lemma wp_require b f s (Q : unit → St → Prop) :
  b = true → Q tt s → wp (require b f) s Q.
Proof. by intros ->. Qed.

Lemma wp_when (b : bool) (m : M St unit) s (Q : unit → St → Prop) :
  (b = true → wp m s Q) → (b = false → Q tt s) → wp (when b m) s Q.
Proof. destruct b; naive_solver. Qed.

(** One turn of a loop. *)
Lemma wp_loop_S {X R} fuel (body : X → M St (X + R)) x s Q :
  wp (body x) s (λ r s', match r with
                         | inl x' => wp (loop fuel body x') s' Q
                         | inr v => Q v s'
                         end) →
  wp (loop (S fuel) body x) s Q.
Proof.
  intros H. cbn [loop]. apply wp_bind. eapply wp_mono; [exact H|].
  intros [x'|v] s' Hr; [exact Hr|by apply wp_ret].
Qed.

(** A loop with an invariant [I] and a variant [V] needs [V + 1] turns. *)
Lemma wp_loop {X R} (I : X → St → Prop) (V : X → St → nat) (Q : R → St → Prop)
    (body : X → M St (X + R)) fuel x s :
  (∀ x s, I x s →
     wp (body x) s (λ r s', match r with
                            | inl x' => I x' s' ∧ (V x' s' < V x s)%nat
                            | inr v => Q v s'
                            end)) →
  I x s → (V x s < fuel)%nat → wp (loop fuel body x) s Q.
Proof.
  intros Hbody. revert x s. induction fuel as [|fuel IH]; intros x s HI Hlt; [lia|].
  apply wp_loop_S. eapply wp_mono; [by apply Hbody|].
  intros [x'|v] s' Hr; [|done]. destruct Hr. apply IH; [done|lia].
Qed.
End wp.

(** Two computations that never fault and return the same are equal under [wp]. *)
Lemma wp_det {S A} (m : M S A) s a s' (Q : A → S → Prop) :
  wp m s Q → m s = Done a s' → Q a s'.
Proof. unfold wp. intros H E. by rewrite E in H. Qed.

(** ** Simulation

    [sim R o1 o2]: the outcomes [o1] (of a detailed model) and [o2] (of the
    model it implements) are the same, with related states: it returns iff the
    other returns, throws iff the other throws and faults iff it faults. *)

Definition sim {S T A B} (R : A → B → S → T → Prop) (E : S → T → Prop)
    (o1 : outcome S A) (o2 : outcome T B) : Prop :=
  match o1, o2 with
  | Done a s, Done b t => R a b s t
  | Throws e s, Throws e' t => e = e' ∧ E s t
  | Faults f, Faults f' => f = f'
  | Diverges, Diverges => True
  | _, _ => False
  end.

Lemma sim_mono {S T A B} (R R' : A → B → S → T → Prop) (E E' : S → T → Prop) o1 o2 :
  sim R E o1 o2 →
  (∀ a b s t, R a b s t → R' a b s t) → (∀ s t, E s t → E' s t) →
  sim R' E' o1 o2.
Proof. destruct o1, o2; simpl; naive_solver. Qed.

Lemma sim_bind {S T A B A' B'} (R : A → B → S → T → Prop)
    (R' : A' → B' → S → T → Prop) (E : S → T → Prop)
    (m : M S A) (n : M T B) (k : A → M S A') (l : B → M T B') s t :
  sim R E (m s) (n t) →
  (∀ a b s' t', R a b s' t' → sim R' E (k a s') (l b t')) →
  sim R' E ((m ≫= k) s) ((n ≫= l) t).
Proof.
  unfold mbind, M_bind. intros H Hk.
  destruct (m s), (n t); simpl in H |- *; naive_solver.
Qed.

(** Reassociating a sequence of steps. *)
Lemma bind_bind {S A B C} (m : M S A) (k : A → M S B) (l : B → M S C) s :
  ((m ≫= k) ≫= l) s = (m ≫= (λ x, k x ≫= l)) s.
Proof. unfold mbind, M_bind. by destruct (m s). Qed.

Lemma bind_done {S A B} (m : M S A) (k : A → M S B) s a s' :
  m s = Done a s' → (m ≫= k) s = k a s'.
Proof. unfold mbind, M_bind. by intros ->. Qed.

Lemma bind_throws {S A B} (m : M S A) (k : A → M S B) s e s' :
  m s = Throws e s' → (m ≫= k) s = Throws e s'.
Proof. unfold mbind, M_bind. by intros ->. Qed.

Lemma bind_faults {S A B} (m : M S A) (k : A → M S B) s f : m s = Faults f → (m ≫= k) s = Faults f.
Proof. unfold mbind, M_bind. by intros ->. Qed.

Lemma bind_diverges {S A B} (m : M S A) (k : A → M S B) s : m s = Diverges → (m ≫= k) s = Diverges.
Proof. unfold mbind, M_bind. by intros ->. Qed.

(** The outcome of a computation whose first step returns. *)
Lemma bind_via {S A B} (m : M S A) (k : A → M S B) s o :
  wp m s (λ a s', k a s' = o) → (m ≫= k) s = o.
Proof. unfold wp, mbind, M_bind. by destruct (m s). Qed.

(** The first turn of a loop. *)
Lemma loop_S {S X R} fuel (body : X → M S (X + R)) x :
  loop (Datatypes.S fuel) body x =
  (body x ≫= (λ r, match r with inl x' => loop fuel body x' | inr v => mret v end)).
Proof. done. Qed.

(** What the result of the specification satisfies, the other result does too. *)
Lemma sim_strengthen {S T A B} (R : A → B → S → T → Prop) (E : S → T → Prop)
    (P : B → T → Prop) o1 o2 :
  sim R E o1 o2 → (∀ b t, o2 = Done b t → P b t) →
  sim (λ a b s t, R a b s t ∧ P b t) E o1 o2.
Proof. destruct o1, o2; simpl; naive_solver. Qed.

(** A step of the detailed model alone. *)
Lemma sim_bind_l {S T A A' B'} (R' : A' → B' → S → T → Prop) (E : S → T → Prop)
    (m : M S A) (k : A → M S A') o s :
  wp m s (λ a s', sim R' E (k a s') o) → sim R' E ((m ≫= k) s) o.
Proof. unfold wp, mbind, M_bind. by destruct (m s). Qed.

Lemma sim_get_r {S T A B} (R : A → B → S → T → Prop) (E : S → T → Prop)
    (k : T → M T B) o t :
  sim R E o (k t t) → sim R E o ((get ≫= k) t).
Proof. done. Qed.

(** ** Lists and memory blocks *)

(** A memory cell: [None] is an indeterminate byte. *)
Abbreviation cell := (option byte).

(** The bytes of a string literal. *)
Definition bytes (s : string) : list byte := String.list_byte_of_string s.

Lemma omap_id_Some {A} (l : list A) : omap id (Some <$> l) = l.
Proof. induction l as [|x l IH]; [done|]. rewrite fmap_cons. simpl. by f_equal. Qed.

(** [memcpy(dst + off, src, length src)]; [None] when it leaves the block. *)
Definition blit {A} (dst : list A) (off : Z) (src : list A) : option (list A) :=
  if decide (0 ≤ off ∧ off + zlength src ≤ zlength dst)
  then Some (take (Z.to_nat off) dst ++ src
             ++ drop (Z.to_nat off + length src) dst)
  else None.

(** [n] cells of the block from [off] on; [None] when they leave the block. *)
Definition slice {A} (src : list A) (off n : Z) : option (list A) :=
  if decide (0 ≤ off ∧ 0 ≤ n ∧ off + n ≤ zlength src)
  then Some (take (Z.to_nat n) (drop (Z.to_nat off) src))
  else None.

Lemma blit_length {A} (dst src : list A) off dst' :
  blit dst off src = Some dst' → length dst' = length dst.
Proof.
  unfold blit. case_decide; [|done]. intros [= <-].
  rewrite !length_app, length_take, length_drop. lia.
Qed.

Lemma slice_length {A} (src : list A) off n l :
  slice src off n = Some l → zlength l = n.
Proof.
  unfold slice. case_decide; [|done]. intros [= <-].
  rewrite length_take, length_drop. lia.
Qed.

Lemma slice_ok {A} (src : list A) off n :
  0 ≤ off → 0 ≤ n → off + n ≤ zlength src →
  slice src off n = Some (take (Z.to_nat n) (drop (Z.to_nat off) src)).
Proof. intros. unfold slice. by rewrite decide_True. Qed.

Lemma blit_ok {A} (dst src : list A) off :
  0 ≤ off → off + zlength src ≤ zlength dst →
  blit dst off src =
    Some (take (Z.to_nat off) dst ++ src ++ drop (Z.to_nat off + length src) dst).
Proof. intros. unfold blit. by rewrite decide_True. Qed.

(** Filling a block of the right size from its start. *)
Lemma blit_all {A} (dst src : list A) :
  length dst = length src → blit dst 0 src = Some src.
Proof.
  intros Hl. rewrite blit_ok by lia. simpl. rewrite <- Hl, drop_ge, app_nil_r by lia.
  done.
Qed.

(** Lift an [option] into a computation that faults. *)
Definition of_option {S A} (o : option A) (f : fault) : M S A :=
  match o with Some a => mret a | None => fail f end.

Lemma wp_of_option {S A} (o : option A) f (s : S) a (Q : A → S → Prop) :
  o = Some a → Q a s → wp (of_option o f) s Q.
Proof. by intros ->. Qed.

(** ** Reachability: a step relation closed under reflexivity and transitivity,
    and invariants by rule induction. *)

Lemma rtc_invariant {A} (R : A → A → Prop) (P : A → Prop) x y :
  (∀ a b, P a → R a b → P b) → rtc R x y → P x → P y.
Proof. intros Hstep Hr. induction Hr; eauto. Qed.

(** Running a schedule of events, each of which is a step. *)
Section schedule.
Context {W A : Type} (exec : A → W → option W).
Fixpoint run_schedule (l : list A) (w : W) : option W :=
  match l with [] => Some w | a :: l => w' ← exec a w; run_schedule l w' end.

Lemma schedule_nsteps (R : W → W → Prop) (ok : A → bool) l w w' :
  (∀ a w w', ok a = true → exec a w = Some w' → R w w') → forallb ok l = true →
  run_schedule l w = Some w' → nsteps R (length l) w w'.
Proof.
  intros HR. revert w. induction l as [|a l IH]; simpl; intros w Hl E; [injection E as <-; constructor|].
  apply andb_true_iff in Hl as [Ha Hl]. destruct (exec a w) as [w1|] eqn:E1; [|done].
  apply nsteps_l with w1; [by eapply HR|by apply IH].
Qed.
Lemma schedule_rtc (R : W → W → Prop) l w w' : (∀ a w w', exec a w = Some w' → R w w') →
  run_schedule l w = Some w' → rtc R w w'.
Proof.
  intros HR E. apply (rtc_nsteps_2 (length l)), (schedule_nsteps R (λ _, true)); [eauto| |done].
  by apply forallb_forall.
Qed.
End schedule.

(** ** Sums over finite maps: measures of many threads *)

Definition msum {A} (f : A → nat) (m : gmap nat A) : nat := map_fold (λ _ x n, f x + n)%nat 0%nat m.

Lemma msum_insert {A} (f : A → nat) m i x : m !! i = None → msum f (<[i := x]> m) = (f x + msum f m)%nat.
Proof. intros Hi. unfold msum. rewrite map_fold_insert_L; [done|lia|done]. Qed.
Lemma msum_update {A} (f : A → nat) m i x y : m !! i = Some x →
  (msum f (<[i := y]> m) + f x = msum f m + f y)%nat.
Proof.
  intros Hi. rewrite <- (insert_delete_id m i x Hi), insert_insert_eq, !msum_insert by apply lookup_delete_eq. lia.
Qed.
Lemma msum_delete {A} (f : A → nat) m i x : m !! i = Some x → (msum f (delete i m) + f x = msum f m)%nat.
Proof.
  intros Hi. rewrite <- (insert_delete_id m i x Hi) at 2. rewrite msum_insert by apply lookup_delete_eq. lia.
Qed.
(** Changing every element. *)
Lemma msum_fmap_le {A B} (f : A → nat) (g : B → nat) (h : B → A) m :
  (∀ x, f (h x) ≤ g x)%nat → (msum f (h <$> m) ≤ msum g m)%nat.
Proof.
  intros Hle. induction m as [|i x m Hi IH] using map_ind; [by rewrite fmap_empty|].
  rewrite fmap_insert, !msum_insert by (rewrite ?lookup_fmap, ?Hi; done). specialize (Hle x). lia.
Qed.

(** ** Automation *)

Create HintDb wte discriminated.
#[export] Hint Resolve u64_range W64_pos : wte.

(** Take the next step of a [wp] goal. *)
Ltac wp_step :=
  lazymatch goal with
  | |- wp (mbind _ _) _ _ => apply wp_bind
  | |- wp (mret _) _ _ => apply wp_ret
  | |- wp (gets _) _ _ => apply wp_gets
  | |- wp (modify _) _ _ => apply wp_modify
  | |- wp (require _ _) _ _ => apply wp_require
  | |- wp (when _ _) _ _ => apply wp_when; intros
  end; cbv beta.
Ltac wp_steps := repeat wp_step.

(** Decide the boolean comparisons of [Z] a goal branches on. *)
Ltac zbool :=
  repeat match goal with
  | |- context [(?a =? ?b)%Z] => destruct (Z.eqb_spec a b)
  | |- context [(?a <? ?b)%Z] => destruct (Z.ltb_spec a b)
  | |- context [(?a <=? ?b)%Z] => destruct (Z.leb_spec a b)
  end.
