(* ===== verification/What.v ===== *)
(** * Event masks

    [src/wte/what.h] (the enumeration [What] and its helpers), and the
    translation to and from libevent's flag words: [toFlags] of
    [src/libevent_event_base.cc] and [fromFlags] of
    [src/libevent_event_handler.cc].

    The flag constants belong to libevent: they are the fields of the class
    [EventFlags], whose laws say what the code relies on (each flag is not
    empty, and the flags have no bit in common). *)

From S2P Require Import Prelude.

Inductive What := NONE | READ | WRITE | READ_WRITE.

#[export] Instance What_eq_dec : EqDecision What.
Proof. solve_decision. Defined.

(** @return whether the event indicates a read. *)
Definition isRead (what : What) : bool :=
  bool_decide (what = READ) || bool_decide (what = READ_WRITE).

(** @return whether the event indicates a write. *)
Definition isWrite (what : What) : bool :=
  bool_decide (what = WRITE) || bool_decide (what = READ_WRITE).

Definition ensureWrite (what : What) : What :=
  match what with
  | READ => READ_WRITE
  | _ => WRITE
  end.

Definition ensureRead (what : What) : What :=
  match what with
  | WRITE => READ_WRITE
  | _ => READ
  end.

Definition removeWrite (what : What) : What :=
  match what with
  | READ_WRITE | READ => READ
  | _ => NONE
  end.

(** ** libevent's flags *)

Class EventFlags := {
  EV_READ : Z;
  EV_WRITE : Z;
  EV_PERSIST : Z;
  EV_READ_int16 : 0 < EV_READ < 2 ^ 15;
  EV_WRITE_int16 : 0 < EV_WRITE < 2 ^ 15;
  EV_PERSIST_int16 : 0 < EV_PERSIST < 2 ^ 15;
  EV_READ_WRITE : Z.land EV_READ EV_WRITE = 0;
  EV_READ_PERSIST : Z.land EV_READ EV_PERSIST = 0;
  EV_WRITE_PERSIST : Z.land EV_WRITE EV_PERSIST = 0;
}.

(** The values libevent documents. *)
Definition libevent_flags : EventFlags.
Proof.
  refine {| EV_READ := 2; EV_WRITE := 4; EV_PERSIST := 16 |}; done.
Defined.

Section flags.
Context `{EventFlags}.

Definition toFlags (what : What) : Z :=
  match what with
  | NONE => 0
  | READ => EV_READ
  | WRITE => EV_WRITE
  | READ_WRITE => Z.lor EV_READ EV_WRITE
  end.

Definition ALL_BITS_SET (value bits : Z) : bool := bits =? Z.land value bits.

Definition fromFlags (flags : Z) : What :=
  if ALL_BITS_SET flags (Z.lor EV_READ EV_WRITE) then READ_WRITE
  else if ALL_BITS_SET flags EV_READ then READ
  else if ALL_BITS_SET flags EV_WRITE then WRITE
  else NONE.

(** *** Bit lemmas *)

Lemma ALL_BITS_SET_lor v a b :
  ALL_BITS_SET v (Z.lor a b) = ALL_BITS_SET v a && ALL_BITS_SET v b.
Proof.
  unfold ALL_BITS_SET. apply eq_true_iff_eq.
  rewrite andb_true_iff, !Z.eqb_eq. split.
  - intros E. split; apply Z.bits_inj'; intros n Hn;
      apply (f_equal (λ z, Z.testbit z n)) in E;
      rewrite Z.land_spec, !Z.lor_spec in E; rewrite Z.land_spec;
      destruct (Z.testbit v n), (Z.testbit a n), (Z.testbit b n); done.
  - intros [Ea Eb]. by rewrite Z.land_lor_distr_r, <- Ea, <- Eb.
Qed.

Lemma ALL_BITS_SET_disjoint v w b :
  Z.land w b = 0 → ALL_BITS_SET (Z.lor v w) b = ALL_BITS_SET v b.
Proof.
  intros E. unfold ALL_BITS_SET. by rewrite Z.land_lor_distr_l, E, Z.lor_0_r.
Qed.

Lemma ALL_BITS_SET_self v b : ALL_BITS_SET (Z.lor v b) b = true.
Proof.
  unfold ALL_BITS_SET. apply Z.eqb_eq. apply Z.bits_inj'. intros n Hn.
  rewrite Z.land_spec, Z.lor_spec. destruct (Z.testbit v n), (Z.testbit b n); done.
Qed.

Lemma ALL_BITS_SET_none v b : Z.land v b = 0 → 0 < b → ALL_BITS_SET v b = false.
Proof. intros E Hb. unfold ALL_BITS_SET. rewrite E. apply Z.eqb_neq. lia. Qed.

(** [fromFlags] reads the two bits independently. *)
Lemma fromFlags_bits flags :
  isRead (fromFlags flags) = ALL_BITS_SET flags EV_READ ∧
  isWrite (fromFlags flags) = ALL_BITS_SET flags EV_WRITE.
Proof.
  unfold fromFlags. rewrite ALL_BITS_SET_lor.
  by destruct (ALL_BITS_SET flags EV_READ), (ALL_BITS_SET flags EV_WRITE).
Qed.

Lemma toFlags_bits what :
  ALL_BITS_SET (toFlags what) EV_READ = isRead what ∧
  ALL_BITS_SET (toFlags what) EV_WRITE = isWrite what.
Proof.
  pose proof EV_READ_int16. pose proof EV_WRITE_int16. pose proof EV_READ_WRITE as D.
  assert (Z.land EV_WRITE EV_READ = 0) as D' by (by rewrite Z.land_comm).
  assert (∀ b, 0 < b → ALL_BITS_SET 0 b = false) as Z0
    by (intros; by apply ALL_BITS_SET_none).
  assert (∀ b, ALL_BITS_SET b b = true) as Zb
    by (intros b; by rewrite <- (Z.lor_0_l b) at 1; apply ALL_BITS_SET_self).
  destruct what; cbn [toFlags]; split;
    rewrite ?Z0, ?Zb by lia; rewrite ?ALL_BITS_SET_self; try done;
    try (apply ALL_BITS_SET_none; [done|lia]).
  by rewrite Z.lor_comm, ALL_BITS_SET_self.
Qed.

(** A mask is determined by its two bits. *)
Lemma What_ext a b : isRead a = isRead b → isWrite a = isWrite b → a = b.
Proof. by destruct a, b. Qed.

Lemma toFlags_persist_bits what :
  ALL_BITS_SET (Z.lor (toFlags what) EV_PERSIST) EV_READ = isRead what ∧
  ALL_BITS_SET (Z.lor (toFlags what) EV_PERSIST) EV_WRITE = isWrite what.
Proof.
  rewrite !ALL_BITS_SET_disjoint by
    (rewrite Z.land_comm; apply EV_READ_PERSIST || apply EV_WRITE_PERSIST).
  apply toFlags_bits.
Qed.

Lemma fromFlags_toFlags what : fromFlags (Z.lor (toFlags what) EV_PERSIST) = what.
Proof.
  destruct (fromFlags_bits (Z.lor (toFlags what) EV_PERSIST)) as [E1 E2].
  destruct (toFlags_persist_bits what) as [E3 E4].
  apply What_ext; congruence.
Qed.

Lemma toFlags_inj a b : toFlags a = toFlags b → a = b.
Proof.
  intros E. rewrite <- (fromFlags_toFlags a), <- (fromFlags_toFlags b). by rewrite E.
Qed.
End flags.

(** ** Properties *)

(** Registering a mask with libevent and reading it back gives the mask:
    [fromFlags] inverts [toFlags] even with [EV_PERSIST] set, so
    [LibeventEventHandler::watched] reports what [registerHandler] was given;
    and on any flag word [fromFlags] reports a read exactly when [EV_READ] is
    set and a write exactly when [EV_WRITE] is. *)
Theorem flags_roundtrip `{EventFlags} :
  (∀ what, fromFlags (Z.lor (toFlags what) EV_PERSIST) = what) ∧
  (∀ flags, isRead (fromFlags flags) = ALL_BITS_SET flags EV_READ ∧
            isWrite (fromFlags flags) = ALL_BITS_SET flags EV_WRITE).
Proof. split; [apply fromFlags_toFlags|apply fromFlags_bits]. Qed.

Lemma flags_roundtrip_witness :
  fromFlags (H := libevent_flags) (Z.lor 6 16) = READ_WRITE ∧
  isRead (fromFlags (H := libevent_flags) 2) = true.
Proof.
  destruct (@flags_roundtrip libevent_flags) as [H1 H2].
  split; [apply (H1 READ_WRITE)|apply (H2 2)].
Defined.

(** [ensureWrite] and [ensureRead] compute [what | WRITE] and
    [what | READ], as their comments say, on every mask except [READ_WRITE],
    from which they drop the other bit; [removeWrite] clears exactly the write
    bit. *)
Theorem ensure_bits `{EventFlags} what :
  (toFlags (ensureWrite what) = Z.lor (toFlags what) EV_WRITE ↔ what ≠ READ_WRITE) ∧
  (toFlags (ensureRead what) = Z.lor (toFlags what) EV_READ ↔ what ≠ READ_WRITE) ∧
  isWrite (removeWrite what) = false ∧ isRead (removeWrite what) = isRead what.
Proof.
  assert (toFlags READ_WRITE = Z.lor (toFlags READ_WRITE) EV_WRITE) as E1
    by (cbn; by rewrite <- Z.lor_assoc, Z.lor_diag).
  assert (toFlags READ_WRITE = Z.lor (toFlags READ_WRITE) EV_READ) as E2
    by (cbn; by rewrite (Z.lor_comm EV_READ), <- Z.lor_assoc, Z.lor_diag).
  split_and!.
  - destruct what; cbn [ensureWrite]; split; try done; intros E.
    + by rewrite Z.lor_diag.
    + rewrite <- E1 in E. by apply toFlags_inj in E.
  - destruct what; cbn [ensureRead]; split; try done; intros E.
    + by rewrite Z.lor_diag.
    + by apply Z.lor_comm.
    + rewrite <- E2 in E. by apply toFlags_inj in E.
  - by destruct what.
  - by destruct what.
Qed.

Lemma ensure_bits_witness : isRead (ensureWrite READ_WRITE) = false ∧
  toFlags (H := libevent_flags) (ensureWrite READ) = 6.
Proof.
  split; [done|].
  destruct (@ensure_bits libevent_flags READ) as [[_ E] _]. by apply E.
Defined.
