(* ===== verification/Extent.v ===== *)
(** * Extents

    [BufferImpl::InternalExtent] of [src/buffer-internal.h] and
    [src/buffer.cc]: a block of [extent_size] characters with a read and a
    write offset.  The links [prev] and [next] of the same struct are in
    [Dll.v], beside the list they form.

    The characters are cells, so that memory that [new char[]] returned and
    nobody wrote is visible as indeterminate; every [memcpy] is checked against
    the bounds of the blocks it touches. *)

From S2P Require Import Prelude.

Record InternalExtent := mkExtent {
  extent_size : Z;              (** [extent.size] *)
  extent_data : list cell;      (** the block [extent.data] points to *)
  read_offset : Z;
  write_offset : Z;
}.

Definition set_data (d : list cell) (e : InternalExtent) : InternalExtent :=
  mkExtent (extent_size e) d (read_offset e) (write_offset e).
Definition set_read_offset (o : Z) (e : InternalExtent) : InternalExtent :=
  mkExtent (extent_size e) (extent_data e) o (write_offset e).
Definition set_write_offset (o : Z) (e : InternalExtent) : InternalExtent :=
  mkExtent (extent_size e) (extent_data e) (read_offset e) o.

(** The largest block [new char[]] grants; larger requests throw. *)
Class Allocator := {
  max_new : Z;
  max_new_range : 0 ≤ max_new < 2 ^ 63;
}.

(** [new char[size]]: [size] indeterminate cells. *)
Definition new_chars `{Allocator} {St} (size : Z) : M St (list cell) :=
  if size <=? max_new then mret (replicate (Z.to_nat size) None)
  else throw bad_alloc.

(** [explicit InternalExtent(size_t size)]. *)
Definition InternalExtent_new `{Allocator} {St} (size : Z) : M St InternalExtent :=
  data ← new_chars size;
  mret (mkExtent size data 0 0).

(** [InternalExtent()], the list head. *)
Definition InternalExtent_head : InternalExtent := mkExtent 0 [] 0 0.

(** ** Accessors *)

Definition appendable (e : InternalExtent) : Z := extent_size e -₆₄ write_offset e.
Definition prependable (e : InternalExtent) : Z := read_offset e.
Definition readable (e : InternalExtent) : Z := extent_size e -₆₄ read_offset e.
Definition ext_empty (e : InternalExtent) : bool := appendable e =? 0.

(** ** Operations: they run on the extent itself *)

(** [memcpy(data + off, buf, n)] into the extent's block, [buf] being a block of
    the caller. *)
Definition ext_memcpy (off : Z) (buf : list cell) (n : Z) : M InternalExtent unit :=
  e ← get;
  src ← of_option (slice buf 0 n) OutOfBounds;
  d ← of_option (blit (extent_data e) off src) OutOfBounds;
  put (set_data d e).

Definition InternalExtent_append (buf : list cell) (size : Z) : M InternalExtent Z :=
  e ← get;
  let space := write_offset e -₆₄ extent_size e in
  if space =? 0 then mret 0
  else
    let nwrite := space `min` size in
    ext_memcpy (write_offset e) buf nwrite;;
    modify (λ e, set_write_offset (write_offset e +₆₄ nwrite) e);;
    mret nwrite.

Definition InternalExtent_prepend (buf : list cell) (size : Z) : M InternalExtent Z :=
  e ← get;
  let space := read_offset e in
  if space =? 0 then mret 0
  else
    let nwrite := space `min` size in
    ext_memcpy 0 buf nwrite;;
    modify (λ e, set_read_offset (read_offset e -₆₄ nwrite) e);;
    mret nwrite.

(** [copyout(out + pos, size)]: the destination is the caller's block [out] from
    [pos] on; the new contents of that block are returned with the count. *)
Definition InternalExtent_copyout (out : list cell) (pos size : Z) :
    M InternalExtent (Z * list cell) :=
  e ← get;
  let ret := size `min` (extent_size e -₆₄ read_offset e) in
  src ← of_option (slice (extent_data e) (read_offset e) ret) OutOfBounds;
  out' ← of_option (blit out pos src) OutOfBounds;
  mret (ret, out').

Definition InternalExtent_consume (size : Z) : M InternalExtent Z :=
  modify (λ e, set_read_offset (read_offset e +₆₄ size) e);;
  e ← get;
  mret (extent_size e -₆₄ read_offset e).

(** ** Typing: the fields of an extent hold [size_t] values *)

Record ext_typed (e : InternalExtent) : Prop := {
  typed_size : is_u64 (extent_size e);
  typed_read : is_u64 (read_offset e);
  typed_write : is_u64 (write_offset e);
}.

(** Every operation on extents keeps them typed. *)
Definition preserves_typed {A} (f : M InternalExtent A) : Prop :=
  ∀ e, ext_typed e →
    match f e with
    | Done _ e' | Throws _ e' => ext_typed e'
    | _ => True
    end.

Lemma preserves_bind {A B} (f : M InternalExtent A) (k : A → M InternalExtent B) :
  preserves_typed f → (∀ a, preserves_typed (k a)) → preserves_typed (f ≫= k).
Proof.
  intros Hf Hk e He. unfold mbind, M_bind. specialize (Hf e He).
  destruct (f e) as [a e'| | |]; try done. by apply Hk.
Qed.
Lemma preserves_ret {A} (a : A) : preserves_typed (mret a).
Proof. by intros e He. Qed.
Lemma preserves_gets {A} (f : InternalExtent → A) : preserves_typed (gets f).
Proof. by intros e He. Qed.
Lemma preserves_get : preserves_typed get.
Proof. by intros e He. Qed.
Lemma preserves_of_option {A} (o : option A) f : preserves_typed (of_option o f).
Proof. destruct o; intros e He; done. Qed.
Lemma preserves_put e : ext_typed e → preserves_typed (put e).
Proof. by intros He ? _. Qed.

#[export] Hint Resolve preserves_bind preserves_ret preserves_gets preserves_get
  preserves_of_option preserves_put : wte.

Lemma ext_memcpy_typed off buf n : preserves_typed (ext_memcpy off buf n).
Proof.
  intros e He. unfold ext_memcpy, mbind, M_bind, get.
  destruct (slice buf 0 n); [|done]. cbn [of_option mret M_ret].
  destruct (blit _ _ _); [|done]. split; apply He.
Qed.
Lemma set_read_offset_typed o : preserves_typed (modify (λ e, set_read_offset (u64 (o e)) e)).
Proof. intros e He. split; simpl; try apply He. apply u64_range. Qed.
Lemma set_write_offset_typed o : preserves_typed (modify (λ e, set_write_offset (u64 (o e)) e)).
Proof. intros e He. split; simpl; try apply He. apply u64_range. Qed.

#[export] Hint Resolve ext_memcpy_typed : wte.

Lemma append_typed buf n : preserves_typed (InternalExtent_append buf n).
Proof.
  unfold InternalExtent_append. apply preserves_bind; [auto with wte|]. intros e.
  case_match; auto 10 using set_write_offset_typed with wte.
Qed.
Lemma prepend_typed buf n : preserves_typed (InternalExtent_prepend buf n).
Proof.
  unfold InternalExtent_prepend. apply preserves_bind; [auto with wte|]. intros e.
  case_match; auto 10 using set_read_offset_typed with wte.
Qed.
Lemma copyout_typed out pos n : preserves_typed (InternalExtent_copyout out pos n).
Proof. unfold InternalExtent_copyout. auto 10 with wte. Qed.
Lemma consume_typed n : preserves_typed (InternalExtent_consume n).
Proof. unfold InternalExtent_consume. auto 10 using set_read_offset_typed with wte. Qed.

#[export] Hint Resolve append_typed prepend_typed copyout_typed consume_typed : wte.

(** ** Packed extents

    [packed e bs]: the extent is written to its end and its readable characters
    are the bytes [bs].  This is the shape of every extent that no [reserve]
    made. *)

Record packed (e : InternalExtent) (bs : list byte) : Prop := {
  packed_size : extent_size e = zlength (extent_data e);
  packed_u64 : is_u64 (extent_size e);
  packed_read : 0 ≤ read_offset e ≤ extent_size e;
  packed_write : write_offset e = extent_size e;
  packed_data : drop (Z.to_nat (read_offset e)) (extent_data e) = Some <$> bs;
}.

#[export] Hint Resolve packed_size packed_u64 packed_read packed_write packed_data : wte.

Section packed.
Context (e : InternalExtent) (bs : list byte) (P : packed e bs).

Lemma packed_length : zlength bs = extent_size e - read_offset e.
Proof.
  destruct P as [Hs Hu Hr Hw Hd].
  apply (f_equal length) in Hd. rewrite length_drop, length_fmap in Hd. lia.
Qed.

Lemma packed_readable : readable e = zlength bs.
Proof.
  pose proof packed_length as Hl. destruct P as [Hs Hu Hr Hw Hd].
  unfold is_u64 in Hu. unfold readable. rewrite u64_sub_small by lia. lia.
Qed.

Lemma packed_appendable : appendable e = 0.
Proof.
  destruct P as [Hs Hu Hr Hw Hd]. unfold appendable. by rewrite Hw, Z.sub_diag.
Qed.

Lemma packed_slice n :
  0 ≤ n ≤ zlength bs →
  slice (extent_data e) (read_offset e) n = Some (Some <$> take (Z.to_nat n) bs).
Proof.
  intros Hn. pose proof packed_length as Hl. destruct P as [Hs Hu Hr Hw Hd].
  rewrite slice_ok by lia. by rewrite Hd, fmap_take.
Qed.

(** Reading on by [n]. *)
Lemma packed_consume n :
  0 ≤ n ≤ zlength bs →
  read_offset e +₆₄ n = read_offset e + n ∧
  packed (set_read_offset (read_offset e +₆₄ n) e) (drop (Z.to_nat n) bs).
Proof.
  intros Hn. pose proof packed_length as Hl. destruct P as [Hs Hu Hr Hw Hd].
  unfold is_u64 in Hu.
  assert (read_offset e +₆₄ n = read_offset e + n) as -> by (apply u64_small; unfold is_u64; lia).
  split; [done|]. split; simpl; [done|done|lia|done|].
  rewrite Z2Nat.inj_add, <- drop_drop, Hd by lia. by rewrite fmap_drop.
Qed.
End packed.

(** ** The operations, branch by branch *)

(** Copying the whole of [src] where it fits. *)
Lemma ext_memcpy_ok e off (src : list cell) n :
  0 ≤ n ≤ zlength src → 0 ≤ off → off + n ≤ zlength (extent_data e) →
  ext_memcpy off src n e =
    Done tt (set_data (take (Z.to_nat off) (extent_data e) ++ take (Z.to_nat n) src
                       ++ drop (Z.to_nat (off + n)) (extent_data e)) e).
Proof.
  intros Hn Ho Hb. unfold ext_memcpy, mbind, M_bind, get.
  rewrite slice_ok by lia. cbn [of_option mret M_ret]. rewrite drop_0.
  rewrite blit_ok by (rewrite ?length_take; lia).
  cbn [of_option mret M_ret]. unfold put. do 4 f_equal.
  by rewrite length_take, Z2Nat.inj_add, Nat.min_l by lia.
Qed.

(** [append] in a block with room for the data and a wrapped [space]: all of it is
    written at the write offset.  Since [space] is [write_offset - extent.size]
    (mod 2^64), this is every extent that is not full and whose free part is
    smaller than [2^64 - size]. *)
Lemma InternalExtent_append_room e (bs : list cell) :
  let n := zlength bs in
  extent_size e = zlength (extent_data e) → is_u64 (extent_size e) →
  0 ≤ write_offset e < extent_size e → write_offset e + n ≤ extent_size e →
  n + extent_size e ≤ W64 →
  InternalExtent_append bs n e =
    Done n (set_write_offset (write_offset e + n)
      (set_data (take (Z.to_nat (write_offset e)) (extent_data e) ++ bs
                 ++ drop (Z.to_nat (write_offset e + n)) (extent_data e)) e)).
Proof.
  intros n Hs Hu Hw Hr Hn. unfold is_u64 in Hu.
  unfold InternalExtent_append, mbind, M_bind, get.
  rewrite u64_sub_wrap by lia.
  destruct (Z.eqb_spec (W64 - (extent_size e - write_offset e)) 0); [lia|].
  rewrite Z.min_r by lia. rewrite ext_memcpy_ok by lia.
  unfold modify. cbn [mret M_ret]. do 3 f_equal.
  - simpl. by rewrite u64_small by (unfold is_u64; lia).
  - by rewrite (take_ge bs) by lia.
Qed.

(** [append] past the end of the block leaves it: the write overruns the block. *)
Lemma InternalExtent_append_overrun e (bs : list cell) :
  let n := zlength bs in
  extent_size e = zlength (extent_data e) → is_u64 (extent_size e) →
  0 ≤ write_offset e < extent_size e → extent_size e < write_offset e + n →
  n + extent_size e ≤ W64 →
  InternalExtent_append bs n e = Faults OutOfBounds.
Proof.
  intros n Hs Hu Hw Hr Hn. unfold is_u64 in Hu.
  unfold InternalExtent_append, mbind, M_bind, get.
  rewrite u64_sub_wrap by lia.
  destruct (Z.eqb_spec (W64 - (extent_size e - write_offset e)) 0); [lia|].
  rewrite Z.min_r by lia. unfold ext_memcpy, mbind, M_bind, get.
  rewrite slice_ok by lia. cbn [of_option mret M_ret].
  unfold blit. rewrite decide_False; [done|]. rewrite length_take, length_drop. lia.
Qed.

Lemma InternalExtent_append_full e (bs : list cell) n :
  write_offset e = extent_size e → InternalExtent_append bs n e = Done 0 e.
Proof.
  intros E. unfold InternalExtent_append, mbind, M_bind, get. by rewrite E, Z.sub_diag.
Qed.

(** A fresh extent of exactly the size of the data: [append] fills it and leaves
    it packed. *)
Definition filled (bs : list byte) : InternalExtent :=
  mkExtent (zlength bs) (Some <$> bs) 0 (zlength bs).

Lemma filled_packed bs : zlength bs < W64 → packed (filled bs) bs.
Proof. intros H. split; simpl; rewrite ?length_fmap; try done; try lia. split; lia. Qed.

Lemma append_fresh `{Allocator} (bs : list byte) :
  zlength bs ≤ max_new →
  InternalExtent_append (Some <$> bs) (zlength bs)
    (mkExtent (zlength bs) (replicate (length bs) None) 0 0) =
  Done (zlength bs) (filled bs).
Proof.
  intros Hn. pose proof max_new_range. destruct (decide (length bs = 0%nat)) as [E|E].
  - apply nil_length_inv in E as ->. by apply InternalExtent_append_full.
  - rewrite <- (length_fmap Some bs) at 1 2.
    rewrite InternalExtent_append_room; simpl; rewrite ?length_replicate, ?length_fmap; unfold is_u64, W64; try lia.
    unfold filled, set_write_offset, set_data; simpl. do 3 f_equal.
    rewrite drop_ge by (rewrite length_replicate; lia). by rewrite app_nil_r.
Qed.

(** [prepend] into consumed space: what is written is the first [min] bytes of the
    data, at the START of the block, and the read offset moves back by as many. *)
Lemma InternalExtent_prepend_spec e (bs : list cell) :
  let n := zlength bs in
  let r := read_offset e in
  extent_size e = zlength (extent_data e) → is_u64 (extent_size e) →
  0 ≤ r ≤ extent_size e →
  InternalExtent_prepend bs n e =
    Done (r `min` n)
      (set_read_offset (r - r `min` n)
        (set_data (take (Z.to_nat r) bs ++ drop (Z.to_nat (r `min` n)) (extent_data e)) e)).
Proof.
  intros n r Hs Hu Hr. unfold is_u64 in Hu.
  unfold InternalExtent_prepend, mbind, M_bind, get. fold r.
  destruct (Z.eqb_spec r 0) as [E|E].
  - rewrite E, Z.min_l by lia. cbn [mret M_ret]. f_equal.
    destruct e; unfold set_read_offset, set_data; simpl in *. by f_equal.
  - rewrite ext_memcpy_ok by lia. unfold modify. cbn [mret M_ret]. f_equal.
    unfold set_read_offset, set_data; simpl. f_equal.
    + f_equal. destruct (decide (r ≤ n)).
      * by rewrite Z.min_l by lia.
      * rewrite Z.min_r by lia. rewrite (take_ge bs) by lia. by rewrite take_ge by lia.
    + fold r. apply u64_sub_small; lia.
Qed.

(** [copyout] of a packed extent. *)
Lemma copyout_packed e bs (out : list cell) pos size :
  packed e bs → 0 ≤ size → 0 ≤ pos →
  pos + size `min` zlength bs ≤ zlength out →
  InternalExtent_copyout out pos size e =
    Done (size `min` zlength bs,
          take (Z.to_nat pos) out ++ (Some <$> take (Z.to_nat size) bs)
          ++ drop (Z.to_nat (pos + size `min` zlength bs)) out) e.
Proof.
  intros P Hs Hp Ho. unfold InternalExtent_copyout, mbind, M_bind, get.
  fold (readable e). rewrite (packed_readable _ _ P).
  rewrite (packed_slice _ _ P) by lia. cbn [of_option mret M_ret].
  rewrite blit_ok by (rewrite ?length_fmap, ?length_take; lia).
  cbn [of_option mret M_ret]. do 3 f_equal.
  rewrite length_fmap, length_take. f_equal.
  - f_equal. destruct (decide (size ≤ zlength bs)).
    + by rewrite Z.min_l by lia.
    + rewrite Z.min_r by lia. rewrite !take_ge by lia. done.
  - f_equal. lia.
Qed.

Lemma copyout_packed_overrun e bs (out : list cell) pos size :
  packed e bs → 0 ≤ size → 0 ≤ pos →
  zlength out < pos + size `min` zlength bs →
  InternalExtent_copyout out pos size e = Faults OutOfBounds.
Proof.
  intros P Hs Hp Ho. unfold InternalExtent_copyout, mbind, M_bind, get.
  fold (readable e). rewrite (packed_readable _ _ P).
  rewrite (packed_slice _ _ P) by lia. cbn [of_option mret M_ret].
  unfold blit. rewrite decide_False; [done|]. rewrite length_fmap, length_take. lia.
Qed.

Lemma consume_spec e n :
  InternalExtent_consume n e =
    Done (extent_size e -₆₄ (read_offset e +₆₄ n)) (set_read_offset (read_offset e +₆₄ n) e).
Proof. done. Qed.
