(* ===== verification/Dll.v ===== *)
(** * The intrusive circular list of extents

    The memory a [BufferImpl] lives in, and the list primitives of
    [src/buffer.cc]: [listAppend], [listPrepend], the unlinking sequence that
    [drain] and [read] share, [new InternalExtent] and [delete].

    A memory maps addresses to nodes.  A node is the struct [InternalExtent]:
    its payload (Extent.v) and its two links.  The head of a buffer's list is
    the member [head_] of the [BufferImpl] at the same address, so that
    [&head_] and the buffer itself are one address; [sizes] holds the other
    member, [size_].  An access to an address with no node is a fault.

    [dll m h ls] says that the list headed at [h] consists of the nodes [ls],
    in this order, with all links in both directions right. *)

From S2P Require Import Prelude Extent.

Abbreviation ptr := N.
Definition nullptr : ptr := 0%N.

Record node := mkNode { payload : InternalExtent; prev : ptr; next : ptr }.

Record mem := mkMem {
  nodes : gmap ptr node;
  sizes : gmap ptr Z;      (** [BufferImpl::size_] *)
  brk : ptr;               (** the next address to hand out *)
}.

Definition set_nodes (f : gmap ptr node → gmap ptr node) (m : mem) : mem :=
  mkMem (f (nodes m)) (sizes m) (brk m).
Definition set_sizes (f : gmap ptr Z → gmap ptr Z) (m : mem) : mem :=
  mkMem (nodes m) (f (sizes m)) (brk m).

Definition with_payload (e : InternalExtent) (n : node) : node := mkNode e (prev n) (next n).
Definition with_prev (p : ptr) (n : node) : node := mkNode (payload n) p (next n).
Definition with_next (p : ptr) (n : node) : node := mkNode (payload n) (prev n) p.

(** ** Accesses *)

Definition bad_access (p : ptr) : fault :=
  if decide (p = nullptr) then NullDeref else UseAfterFree.

Definition load (p : ptr) : M mem node := λ m,
  match nodes m !! p with Some n => Done n m | None => Faults (bad_access p) end.
Definition store (f : node → node) (p : ptr) : M mem unit := λ m,
  match nodes m !! p with
  | Some n => Done tt (set_nodes <[p := f n]> m)
  | None => Faults (bad_access p)
  end.

Definition load_prev (p : ptr) : M mem ptr := n ← load p; mret (prev n).
Definition load_next (p : ptr) : M mem ptr := n ← load p; mret (next n).
Definition store_prev (p v : ptr) : M mem unit := store (with_prev v) p.
Definition store_next (p v : ptr) : M mem unit := store (with_next v) p.

(** A method call on the extent at [p]. *)
Definition on_extent {A} (p : ptr) (f : M InternalExtent A) : M mem A :=
  n ← load p;
  zoom (λ _, payload n) (λ e, set_nodes <[p := with_payload e n]>) f.

(** [new InternalExtent(size)]: when the block cannot be allocated, the exception
    leaves no trace (the node is released while the stack unwinds). *)
Definition new_extent `{Allocator} (size : Z) : M mem ptr :=
  e ← InternalExtent_new size;
  m ← get;
  let p := brk m in
  put (mkMem (<[p := mkNode e nullptr nullptr]> (nodes m)) (sizes m) (p + 1)%N);;
  mret p.

(** [delete cur]. *)
Definition delete_extent (p : ptr) : M mem unit := λ m,
  match nodes m !! p with
  | Some _ => Done tt (set_nodes (delete p) m)
  | None => Faults DoubleFree
  end.

(** ** List primitives *)

Definition listAppend (head head2 tail : ptr) : M mem unit :=
  p ← load_prev head;
  store_prev head2 p;;
  q ← load_prev head2;
  store_next q head2;;
  store_next tail head;;
  r ← load_next tail;
  store_prev r tail.

Definition listAppend1 (head node : ptr) : M mem unit := listAppend head node node.

Definition listPrepend (head head2 tail : ptr) : M mem unit :=
  n ← load_next head;
  store_next tail n;;
  r ← load_next tail;
  store_prev r tail;;
  store_prev head2 head;;
  q ← load_prev head2;
  store_next q head2.

Definition listPrepend1 (head node : ptr) : M mem unit := listPrepend head node node.

(** [cur->prev->next = cur->next; cur->next->prev = cur->prev;] *)
Definition unlink (cur : ptr) : M mem unit :=
  p ← load_prev cur;
  n ← load_next cur;
  store_next p n;;
  n' ← load_next cur;
  p' ← load_prev cur;
  store_prev n' p'.

(** ** Views of the memory *)

Definition nextof (m : mem) (p : ptr) : option ptr := next <$> nodes m !! p.
Definition prevof (m : mem) (p : ptr) : option ptr := prev <$> nodes m !! p.
Definition payloadof (m : mem) (p : ptr) : option InternalExtent := payload <$> nodes m !! p.

(** Every address handed out is below [brk], and [nullptr] never is. *)
Definition mem_ok (m : mem) : Prop :=
  (0 < brk m)%N ∧ nodes m !! nullptr = None ∧
  (∀ p, (brk m ≤ p)%N → nodes m !! p = None ∧ sizes m !! p = None).

Definition link (m : mem) (a b : ptr) : Prop :=
  nextof m a = Some b ∧ prevof m b = Some a.

(** The nodes of a list, each linked to the next one. *)
Fixpoint chain (m : mem) (ls : list ptr) : Prop :=
  match ls with
  | a :: (b :: _) as tl => link m a b ∧ chain m tl
  | _ => True
  end.

Definition dll (m : mem) (h : ptr) (ls : list ptr) : Prop :=
  NoDup (h :: ls) ∧ chain m (h :: ls ++ [h]).

(** ** Chains *)

Section chain.
Implicit Types m : mem.

Lemma chain_cons m a b ls : chain m (a :: b :: ls) ↔ link m a b ∧ chain m (b :: ls).
Proof. done. Qed.

Lemma chain_app m l1 x l2 :
  chain m (l1 ++ x :: l2) ↔ chain m (l1 ++ [x]) ∧ chain m (x :: l2).
Proof.
  induction l1 as [|a l1 IH]; [naive_solver|].
  destruct l1 as [|b l1]; [cbn; naive_solver|].
  cbn [app] in IH |- *. rewrite !chain_cons, IH. naive_solver.
Qed.

Lemma chain_snoc m l a b : chain m (l ++ [a; b]) ↔ chain m (l ++ [a]) ∧ link m a b.
Proof. rewrite chain_app. cbn. naive_solver. Qed.

(** A chain only depends on the [next] of all but its last node and on the
    [prev] of all but its first. *)
Lemma chain_frame m m' a ls b :
  (∀ p, p ∈ a :: ls → nextof m' p = nextof m p) →
  (∀ p, p ∈ ls ++ [b] → prevof m' p = prevof m p) →
  chain m (a :: ls ++ [b]) → chain m' (a :: ls ++ [b]).
Proof.
  revert a. induction ls as [|c ls IH]; intros a Hn Hp.
  - cbn. unfold link. rewrite Hn, Hp by set_solver. done.
  - cbn [app]. rewrite !chain_cons. intros [[L1 L2] C]. split.
    + unfold link. rewrite Hn, Hp by set_solver. done.
    + apply IH; [set_solver..|done].
Qed.

Lemma chain_frame_snoc m m' l b :
  (∀ p, p ∈ l → nextof m' p = nextof m p) →
  (∀ p, l ≠ [] → p ∈ tail l ++ [b] → prevof m' p = prevof m p) →
  chain m (l ++ [b]) → chain m' (l ++ [b]).
Proof. destruct l as [|a ls]; [done|]. intros ??. apply chain_frame; naive_solver. Qed.

Lemma chain_next m l1 a b l2 : chain m (l1 ++ a :: b :: l2) → link m a b.
Proof. rewrite chain_app, chain_cons. naive_solver. Qed.

Lemma link_nodes m a b : link m a b → is_Some (nodes m !! a) ∧ is_Some (nodes m !! b).
Proof.
  unfold link, nextof, prevof. intros [H1 H2].
  destruct (nodes m !! a), (nodes m !! b); naive_solver.
Qed.
End chain.

(** ** Effects of the primitives on the views *)

(** [m'] has the links [nx] and [pv], and is [m] in all other respects. *)
Record relinked (m m' : mem) (nx pv : ptr → option ptr) : Prop := {
  relinked_next p : nextof m' p = nx p;
  relinked_prev p : prevof m' p = pv p;
  relinked_payload p : payloadof m' p = payloadof m p;
  relinked_sizes : sizes m' = sizes m;
  relinked_brk : brk m' = brk m;
}.

Definition upd (f : ptr → option ptr) (p v : ptr) : ptr → option ptr :=
  λ q, if decide (q = p) then Some v else f q.

Section views.
Implicit Types m : mem.

Lemma nextof_Some m p : is_Some (nodes m !! p) ↔ is_Some (nextof m p).
Proof. unfold nextof. by rewrite fmap_is_Some. Qed.
Lemma prevof_Some m p : is_Some (nodes m !! p) ↔ is_Some (prevof m p).
Proof. unfold prevof. by rewrite fmap_is_Some. Qed.
Lemma payloadof_Some m p : is_Some (nodes m !! p) ↔ is_Some (payloadof m p).
Proof. unfold payloadof. by rewrite fmap_is_Some. Qed.

(** The views determine a node. *)
Lemma node_ext m m' p :
  nextof m' p = nextof m p → prevof m' p = prevof m p →
  payloadof m' p = payloadof m p → nodes m' !! p = nodes m !! p.
Proof.
  unfold nextof, prevof, payloadof.
  destruct (nodes m !! p) as [[]|], (nodes m' !! p) as [[]|]; naive_solver.
Qed.

Lemma relinked_refl m : relinked m m (nextof m) (prevof m).
Proof. by split. Qed.

(** Relinking allocates and frees nothing. *)
Lemma relinked_Some m m' nx pv p :
  relinked m m' nx pv → is_Some (nodes m' !! p) ↔ is_Some (nodes m !! p).
Proof. intros R. by rewrite !payloadof_Some, (relinked_payload _ _ _ _ R). Qed.

Lemma wp_load_next m0 m nx pv p v (Q : ptr → mem → Prop) :
  relinked m0 m nx pv → nx p = Some v → Q v m → wp (load_next p) m Q.
Proof.
  intros R E HQ. rewrite <- (relinked_next _ _ _ _ R) in E. revert E.
  unfold nextof, load_next, load. intros E. wp_steps.
  unfold wp. destruct (nodes m !! p); naive_solver.
Qed.
Lemma wp_load_prev m0 m nx pv p v (Q : ptr → mem → Prop) :
  relinked m0 m nx pv → pv p = Some v → Q v m → wp (load_prev p) m Q.
Proof.
  intros R E HQ. rewrite <- (relinked_prev _ _ _ _ R) in E. revert E.
  unfold prevof, load_prev, load. intros E. wp_steps.
  unfold wp. destruct (nodes m !! p); naive_solver.
Qed.

(** The views of the memory after a store at [p]. *)
Lemma views_insert m p n (f : node → node) q :
  nodes m !! p = Some n →
  let m' := set_nodes <[p := f n]> m in
  nextof m' q = (if decide (q = p) then Some (next (f n)) else nextof m q) ∧
  prevof m' q = (if decide (q = p) then Some (prev (f n)) else prevof m q) ∧
  payloadof m' q = (if decide (q = p) then Some (payload (f n)) else payloadof m q).
Proof.
  intros E m'. unfold m', nextof, prevof, payloadof, set_nodes; simpl.
  rewrite lookup_insert. repeat case_decide; naive_solver.
Qed.

Lemma wp_store_next m0 m nx pv p v :
  relinked m0 m nx pv → is_Some (nodes m0 !! p) →
  wp (store_next p v) m (λ _ m', relinked m0 m' (upd nx p v) pv).
Proof.
  intros R Hs. eapply relinked_Some in Hs as [n E]; [|exact R].
  destruct R as [Rn Rp Re Rs Rb]. unfold store_next, store, wp. rewrite E.
  pose proof (λ q, views_insert m p n (with_next v) q E) as V. simpl in V.
  split; [intros q; destruct (V q) as (Vn & Vp & Ve)..|done|done].
  - rewrite Vn. unfold upd. case_decide; [done|apply Rn].
  - rewrite Vp, <- Rp. case_decide; subst; [unfold prevof; by rewrite E|done].
  - rewrite Ve, <- Re. case_decide; subst; [unfold payloadof; by rewrite E|done].
Qed.
Lemma wp_store_prev m0 m nx pv p v :
  relinked m0 m nx pv → is_Some (nodes m0 !! p) →
  wp (store_prev p v) m (λ _ m', relinked m0 m' nx (upd pv p v)).
Proof.
  intros R Hs. eapply relinked_Some in Hs as [n E]; [|exact R].
  destruct R as [Rn Rp Re Rs Rb]. unfold store_prev, store, wp. rewrite E.
  pose proof (λ q, views_insert m p n (with_prev v) q E) as V. simpl in V.
  split; [intros q; destruct (V q) as (Vn & Vp & Ve)..|done|done].
  - rewrite Vn, <- Rn. case_decide; subst; [unfold nextof; by rewrite E|done].
  - rewrite Vp. unfold upd. case_decide; [done|apply Rp].
  - rewrite Ve, <- Re. case_decide; subst; [unfold payloadof; by rewrite E|done].
Qed.

Lemma upd_eq f p v : upd f p v p = Some v.
Proof. unfold upd. by rewrite decide_True. Qed.
Lemma upd_ne f p v q : q ≠ p → upd f p v q = f q.
Proof. intros. unfold upd. by rewrite decide_False. Qed.
End views.

(** The next access of a sequence of loads and stores; [R] says what the links
    are by now. *)
Ltac wp_ptr_load R :=
  wp_step; first [eapply wp_load_next|eapply wp_load_prev]; [exact R| |].
Ltac wp_ptr_store R :=
  try wp_step; eapply wp_mono;
    [first [eapply wp_store_next|eapply wp_store_prev]; [exact R|]
    |let R' := fresh in intros [] ? R'; clear R; rename R' into R].

Section primitives.
Implicit Types m : mem.

(** What the three sequences do to the links, wherever the pointers point. *)
Lemma listAppend_links m head head2 tail z :
  prevof m head = Some z → is_Some (nodes m !! z) →
  is_Some (nodes m !! head2) → is_Some (nodes m !! tail) →
  wp (listAppend head head2 tail) m (λ _ m', relinked m m'
    (upd (upd (nextof m) z head2) tail head)
    (upd (upd (prevof m) head2 z) head tail)).
Proof.
  intros Ez Hz H2 Ht. unfold listAppend. pose proof (relinked_refl m) as R.
  assert (is_Some (nodes m !! head)) by (apply prevof_Some; by rewrite Ez).
  wp_ptr_load R; [exact Ez|]. wp_ptr_store R; [done|].
  wp_ptr_load R; [apply upd_eq|]. wp_ptr_store R; [done|].
  wp_ptr_store R; [done|]. wp_ptr_load R; [apply upd_eq|].
  wp_ptr_store R; [done|]. done.
Qed.

Lemma listPrepend_links m head head2 tail a :
  nextof m head = Some a → is_Some (nodes m !! a) →
  is_Some (nodes m !! head2) → is_Some (nodes m !! tail) →
  wp (listPrepend head head2 tail) m (λ _ m', relinked m m'
    (upd (upd (nextof m) tail a) head head2)
    (upd (upd (prevof m) a tail) head2 head)).
Proof.
  intros Ea Ha H2 Ht. unfold listPrepend. pose proof (relinked_refl m) as R.
  assert (is_Some (nodes m !! head)) by (apply nextof_Some; by rewrite Ea).
  wp_ptr_load R; [exact Ea|]. wp_ptr_store R; [done|].
  wp_ptr_load R; [apply upd_eq|]. wp_ptr_store R; [done|].
  wp_ptr_store R; [done|]. wp_ptr_load R; [apply upd_eq|].
  wp_ptr_store R; [done|]. done.
Qed.

Lemma unlink_links m cur p n :
  prevof m cur = Some p → nextof m cur = Some n → p ≠ cur →
  is_Some (nodes m !! p) → is_Some (nodes m !! n) →
  wp (unlink cur) m (λ _ m', relinked m m'
    (upd (nextof m) p n) (upd (prevof m) n p)).
Proof.
  intros Ep En Hne Hp Hn. unfold unlink. pose proof (relinked_refl m) as R.
  wp_ptr_load R; [exact Ep|]. wp_ptr_load R; [exact En|]. wp_ptr_store R; [done|].
  wp_ptr_load R; [by rewrite upd_ne|]. wp_ptr_load R; [exact Ep|].
  wp_ptr_store R; [done|]. done.
Qed.

(** A node outside the stores keeps its contents. *)
Lemma relinked_node m m' nx pv p :
  relinked m m' nx pv → nx p = nextof m p → pv p = prevof m p →
  nodes m' !! p = nodes m !! p.
Proof.
  intros R En Ep. apply node_ext.
  - by rewrite (relinked_next _ _ _ _ R).
  - by rewrite (relinked_prev _ _ _ _ R).
  - by rewrite (relinked_payload _ _ _ _ R).
Qed.
End primitives.

(** ** The primitives on lists *)

Lemma NoDup_snoc {A} (l : list A) x : NoDup (l ++ [x]) ↔ (x ∉ l) ∧ NoDup l.
Proof.
  rewrite NoDup_app. pose proof (NoDup_singleton x). set_solver.
Qed.

(** [m'] differs from [m] only in the links of the nodes [X]. *)
Record spliced (m m' : mem) (X : list ptr) : Prop := {
  spliced_payload p : payloadof m' p = payloadof m p;
  spliced_sizes : sizes m' = sizes m;
  spliced_brk : brk m' = brk m;
  spliced_frame p : p ∉ X → nodes m' !! p = nodes m !! p;
}.

Lemma relinked_spliced m m' nx pv X :
  relinked m m' nx pv →
  (∀ p, p ∉ X → nx p = nextof m p ∧ pv p = prevof m p) →
  spliced m m' X.
Proof.
  intros R H. split; try apply R.
  intros p Hp. destruct (H p Hp). by eapply relinked_node.
Qed.

(** Two chains, joined by a link. *)
Lemma chain_concat m l1 l2 a b :
  last l1 = Some a → head l2 = Some b →
  chain m (l1 ++ l2) ↔ chain m l1 ∧ link m a b ∧ chain m l2.
Proof.
  intros Ha Hb. destruct l2 as [|b' l2]; [done|]. injection Hb as ->.
  apply last_Some in Ha as [l0 ->]. rewrite chain_app, <- app_assoc.
  cbn [app]. rewrite chain_snoc. tauto.
Qed.

(** A chain is kept by stores that only touch the [next] of its last node and the
    [prev] of its first one. *)
Lemma chain_kept m m' nx pv l a b :
  relinked m m' nx pv → NoDup l → head l = Some a → last l = Some b →
  (∀ p, p ∈ l → p ≠ b → nx p = nextof m p) →
  (∀ p, p ∈ l → p ≠ a → pv p = prevof m p) →
  chain m l → chain m' l.
Proof.
  intros R ND Ha Hb Hn Hp. apply last_Some in Hb as [l0 ->].
  apply NoDup_snoc in ND as [Nb ND]. apply chain_frame_snoc.
  - intros p Hl. rewrite (relinked_next _ _ _ _ R). apply Hn; [set_solver|by intros ->].
  - intros p Hl Hin. rewrite (relinked_prev _ _ _ _ R).
    destruct l0 as [|a' l0]; [done|]. injection Ha as ->.
    apply NoDup_cons in ND as [? ?]. apply Hp; set_solver.
Qed.

Lemma link_new m m' nx pv a b :
  relinked m m' nx pv → nx a = Some b → pv b = Some a → link m' a b.
Proof.
  intros R Ha Hb. split.
  - by rewrite (relinked_next _ _ _ _ R).
  - by rewrite (relinked_prev _ _ _ _ R).
Qed.

(** Elements of the two halves of a list without duplicates differ. *)
Lemma split_ne {A} (l1 l2 : list A) x y :
  (∀ z, z ∈ l1 → z ∉ l2) → x ∈ l1 → y ∈ l2 → x ≠ y.
Proof. intros H Hx Hy ->. by eapply H. Qed.

(** The last element of [h :: ls]. *)
Definition lastof (h : ptr) (ls : list ptr) : ptr := default h (last ls).
Definition firstof (h : ptr) (ls : list ptr) : ptr := default h (head ls).

Lemma lastof_snoc h ls : ∃ l0, h :: ls = l0 ++ [lastof h ls].
Proof.
  unfold lastof. destruct ls as [|z l _] using rev_ind; [by exists []|].
  rewrite last_snoc. by exists (h :: l).
Qed.

Lemma last_cons_lastof h ls : last (h :: ls) = Some (lastof h ls).
Proof. destruct (lastof_snoc h ls) as [l0 E]. by rewrite E at 1; rewrite last_snoc. Qed.

Lemma head_Some_elem_of {A} (l : list A) x : head l = Some x → x ∈ l.
Proof. destruct l; [done|]. intros [= ->]. set_solver. Qed.

Section dll.
Implicit Types m : mem.

Lemma dll_last m h ls : dll m h ls → prevof m h = Some (lastof h ls).
Proof.
  intros [_ C]. destruct (lastof_snoc h ls) as [l0 E].
  rewrite app_comm_cons, E, <- app_assoc in C. simpl in C.
  by apply chain_next in C as [_ ?].
Qed.

Lemma dll_first m h ls : dll m h ls → nextof m h = Some (firstof h ls).
Proof. intros [_ C]. destruct ls as [|x ls]; apply C. Qed.

Lemma chain_nodes m l p :
  chain m l → (2 ≤ length l)%nat → p ∈ l → is_Some (nodes m !! p).
Proof.
  induction l as [|a [|b l] IH]; simpl; [lia|lia|].
  intros [L C] _ Hp. apply link_nodes in L as [La Lb].
  apply elem_of_cons in Hp as [->|Hp]; [done|].
  destruct l; [by apply list_elem_of_singleton in Hp as ->|].
  apply IH; [done|simpl; lia|done].
Qed.

Lemma dll_nodes m h ls p : dll m h ls → p ∈ h :: ls → is_Some (nodes m !! p).
Proof.
  intros [_ C] Hp. eapply chain_nodes; [done| |].
  - rewrite app_comm_cons, length_app. simpl. lia.
  - rewrite app_comm_cons, elem_of_app. by left.
Qed.

Lemma lastof_elem h ls : lastof h ls ∈ h :: ls.
Proof. destruct (lastof_snoc h ls) as [l0 ->]. set_solver. Qed.

Lemma firstof_elem h ls : firstof h ls ∈ h :: ls.
Proof. destruct ls; set_solver. Qed.

(** An empty list has its head for both neighbours, and conversely. *)
Lemma dll_empty m h ls : dll m h ls → prevof m h = Some h ↔ ls = [].
Proof.
  intros D. rewrite (dll_last _ _ _ D). split; [|by intros ->].
  intros [= E]. destruct D as [ND _]. destruct ls as [|z l _] using rev_ind; [done|].
  unfold lastof in E. rewrite last_snoc in E. simpl in E. subst z.
  apply NoDup_cons in ND as [ND _]. set_solver.
Qed.

(** Pieces of a list without duplicates do not share nodes. *)
Lemma listAppend_dll m h ls1 ls2 h2 t :
  dll m h ls1 → NoDup (h :: ls1 ++ ls2) → chain m ls2 →
  head ls2 = Some h2 → last ls2 = Some t →
  (∀ p, p ∈ ls2 → is_Some (nodes m !! p)) →
  wp (listAppend h h2 t) m (λ _ m',
    dll m' h (ls1 ++ ls2) ∧ spliced m m' (h :: ls1 ++ ls2)).
Proof.
  intros D ND C2 Hh Ht N2. set (z := lastof h ls1).
  assert (z ∈ h :: ls1) as Hz by apply lastof_elem.
  assert (h2 ∈ ls2) as Hh2 by by apply head_Some_elem_of.
  assert (t ∈ ls2) as Ht2 by by apply last_Some_elem_of.
  rewrite app_comm_cons in ND. pose proof ND as (N1 & N12 & N3)%NoDup_app.
  assert (last (h :: ls1) = Some z) as Lz by apply last_cons_lastof.
  eapply wp_mono.
  { apply (listAppend_links _ _ _ _ z); [by apply dll_last|by eapply dll_nodes|by apply N2..]. }
  intros [] m' R. split; [split; [done|]|].
  - destruct D as [_ D]. rewrite app_comm_cons, (chain_concat _ _ _ z h) in D by done.
    destruct D as (C1 & _ & _).
    assert (chain m' (h :: ls1)) as C1'.
    { eapply (chain_kept _ _ _ _ _ h z); [exact R|done|done|done| |..|done].
      - intros p Hp Hne. rewrite !upd_ne; [done|done|]. by eapply split_ne.
      - intros p Hp Hne. rewrite !upd_ne; [done| |done]. by eapply split_ne. }
    assert (chain m' ls2) as C2'.
    { eapply (chain_kept _ _ _ _ _ h2 t); [exact R|done|done|done| |..|done].
      - intros p Hp Hne. rewrite !upd_ne; [done| |done]. apply not_eq_sym. by eapply split_ne.
      - intros p Hp Hne. rewrite !upd_ne; [done|done|]. apply not_eq_sym.
        eapply split_ne; [done|set_solver|done]. }
    replace (h :: (ls1 ++ ls2) ++ [h]) with ((h :: ls1) ++ ls2 ++ [h])
      by (simpl; by rewrite app_assoc).
    apply (chain_concat _ _ _ z h2); [done| |].
    { by rewrite head_app, Hh. }
    split_and!; [done| |].
    + eapply link_new; [exact R| |].
      * rewrite upd_ne; [apply upd_eq|]. by eapply split_ne.
      * rewrite upd_ne; [apply upd_eq|]. apply not_eq_sym.
        eapply split_ne; [done|set_solver|done].
    + apply (chain_concat _ _ _ t h); [done..|]. split_and!; [done| |done].
      eapply link_new; [exact R| |]; apply upd_eq.
  - eapply relinked_spliced; [exact R|]. intros p Hp.
    rewrite !upd_ne; [done|..]; intros ->; apply Hp; set_solver.
Qed.

Lemma listPrepend_dll m h ls1 ls2 h2 t :
  dll m h ls1 → NoDup (h :: ls1 ++ ls2) → chain m ls2 →
  head ls2 = Some h2 → last ls2 = Some t →
  (∀ p, p ∈ ls2 → is_Some (nodes m !! p)) →
  wp (listPrepend h h2 t) m (λ _ m',
    dll m' h (ls2 ++ ls1) ∧ spliced m m' (h :: ls1 ++ ls2)).
Proof.
  intros D ND C2 Hh Ht N2. set (a := firstof h ls1).
  assert (a ∈ h :: ls1) as Ha by apply firstof_elem.
  assert (h2 ∈ ls2) as Hh2 by by apply head_Some_elem_of.
  assert (t ∈ ls2) as Ht2 by by apply last_Some_elem_of.
  assert (NoDup (h :: ls2 ++ ls1)) as ND' by (by rewrite (Permutation_app_comm ls2)).
  rewrite app_comm_cons in ND. pose proof ND as (N1 & N12 & N3)%NoDup_app.
  assert (head (ls1 ++ [h]) = Some a) as La by by destruct ls1.
  eapply wp_mono.
  { apply (listPrepend_links _ _ _ _ a); [by apply dll_first|by eapply dll_nodes|by apply N2..]. }
  intros [] m' R. split; [split; [done|]|].
  - destruct D as [_ D]. change (h :: ls1 ++ [h]) with ([h] ++ ls1 ++ [h]) in D.
    rewrite (chain_concat _ _ _ h a) in D by done.
    destruct D as (_ & _ & C1).
    assert (∀ p, p ∈ ls1 ++ [h] ↔ p ∈ h :: ls1) as Hin by set_solver.
    assert (chain m' (ls1 ++ [h])) as C1'.
    { eapply (chain_kept _ _ _ _ _ a h); [exact R| |done|by rewrite last_snoc| |..|done].
      - by rewrite (Permutation_app_comm ls1).
      - intros p Hp%Hin Hne. rewrite !upd_ne; [done|by eapply split_ne|done].
      - intros p Hp%Hin Hne. rewrite !upd_ne; [done|done|by eapply split_ne]. }
    assert (chain m' ls2) as C2'.
    { eapply (chain_kept _ _ _ _ _ h2 t); [exact R|done|done|done| |..|done];
        intros p Hp Hne; rewrite !upd_ne; try done; apply not_eq_sym;
        (eapply split_ne; [done|set_solver|done]). }
    assert (h ≠ t) by (eapply split_ne; [done|set_solver|done]).
    assert (a ≠ h2) by by eapply split_ne.
    change (chain m' ([h] ++ (ls2 ++ ls1) ++ [h])).
    rewrite <- app_assoc. apply (chain_concat _ _ _ h h2); [done|by rewrite head_app, Hh|].
    split_and!; [done| |].
    + eapply link_new; [exact R| |]; apply upd_eq.
    + apply (chain_concat _ _ _ t a); [done..|]. split_and!; [done| |done].
      eapply link_new; [exact R| |]; by rewrite upd_ne, upd_eq.
  - eapply relinked_spliced; [exact R|]. intros p Hp.
    rewrite !upd_ne; [done|..]; intros ->; apply Hp; set_solver.
Qed.

(** A list depends on its own nodes only. *)
Lemma dll_frame m m' h ls :
  dll m h ls → (∀ p, p ∈ h :: ls → nodes m' !! p = nodes m !! p) → dll m' h ls.
Proof.
  intros [ND C] F. split; [done|].
  eapply chain_frame; [..|done]; intros p Hp; unfold nextof, prevof; rewrite F; set_solver.
Qed.

Lemma unlink_dll m h l1 cur l2 :
  dll m h (l1 ++ cur :: l2) →
  wp (unlink cur) m (λ _ m',
    dll m' h (l1 ++ l2) ∧ spliced m m' (h :: l1 ++ cur :: l2) ∧
    nextof m' cur = Some (firstof h l2)).
Proof.
  intros D. pose proof D as [ND C].
  set (p := lastof h l1). set (n := firstof h l2).
  assert (p ∈ h :: l1) as Hp by apply lastof_elem.
  assert (n ∈ h :: l2) as Hn by apply firstof_elem.
  assert (last (h :: l1) = Some p) as Lp by apply last_cons_lastof.
  assert (head (l2 ++ [h]) = Some n) as Ln by by destruct l2.
  replace (h :: (l1 ++ cur :: l2) ++ [h]) with ((h :: l1) ++ [cur] ++ (l2 ++ [h])) in C
    by (simpl; by rewrite <- app_assoc).
  rewrite (chain_concat _ _ _ p cur), (chain_concat _ _ _ cur n) in C by done.
  destruct C as (C1 & L1 & _ & L2 & C2).
  assert (NoDup (cur :: h :: l1 ++ l2)) as [Ncur NDl]%NoDup_cons.
  { rewrite <- (Permutation_middle l1), Permutation_swap in ND. done. }
  assert (NoDup (h :: l1) ∧ NoDup (l2 ++ [h]) ∧ ∀ q, q ∈ l1 → q ∉ l2) as (N1 & N2 & N12).
  { rewrite (Permutation_app_comm l2). cbn. rewrite app_comm_cons in NDl.
    apply NoDup_app in NDl as (? & ? & ?). split_and!; [done| |set_solver].
    apply NoDup_cons. set_solver. }
  eapply wp_mono.
  { apply (unlink_links _ _ p n); [apply L1|apply L2| | |].
    - intros <-. set_solver.
    - by apply link_nodes in L1 as [? _].
    - by apply link_nodes in L2 as [_ ?]. }
  intros [] m' R. split_and!; [split; [done|]| |].
  - replace (h :: (l1 ++ l2) ++ [h]) with ((h :: l1) ++ (l2 ++ [h])) by (simpl; by rewrite app_assoc).
    apply (chain_concat _ _ _ p n); [done..|]. split_and!.
    + eapply (chain_kept _ _ _ _ _ h p); [exact R|done|done|done| |..|done].
      * intros q Hq Hne. by rewrite upd_ne.
      * intros q Hq Hne. rewrite upd_ne; [done|]. intros ->. set_solver.
    + eapply link_new; [exact R| |]; apply upd_eq.
    + eapply (chain_kept _ _ _ _ _ n h); [exact R|done|done|by rewrite last_snoc| |..|done].
      * intros q Hq Hne. rewrite upd_ne; [done|]. intros ->. set_solver.
      * intros q Hq Hne. by rewrite upd_ne.
  - eapply relinked_spliced; [exact R|]. intros q Hq.
    rewrite !upd_ne; [done|..]; intros ->; apply Hq; set_solver.
  - rewrite (relinked_next _ _ _ _ R), upd_ne; [apply L2|]. intros ->. set_solver.
Qed.
End dll.
