(* ===== verification/Buffer.v ===== *)
(** * Buffers

    [BufferImpl] of [src/buffer-internal.h] and [src/buffer.cc], pointer by
    pointer: each operation walks and relinks the circular list of [Dll.v], with
    its loops, early exits and the order of its stores.  A [BufferImpl*] is the
    address of its [head_].

    Output parameters are results: [read] and [peek] return [*nread] with the
    new contents of the caller's array [buf]; the operations that fill a
    [std::vector<Extent>] return the vector.  A loop runs on fuel taken from the
    number of allocated nodes; [BufferRefine.v] shows that it never runs out. *)

From S2P Require Import Prelude Extent Dll.

(** A contiguous extent of data ([struct Extent]): its size and a pointer into a
    block, as the node that owns the block and the offset. *)
Record Extent := mkExt { ext_size : Z; ext_node : ptr; ext_off : Z }.

Definition load_size (b : ptr) : M mem Z := λ m,
  match sizes m !! b with Some s => Done s m | None => Faults (bad_access b) end.
Definition store_size (b : ptr) (s : Z) : M mem unit := λ m,
  match sizes m !! b with
  | Some _ => Done tt (set_sizes <[b := s]> m)
  | None => Faults (bad_access b)
  end.

(** [new BufferImpl()]. *)
Definition BufferImpl_new : M mem ptr :=
  m ← get;
  let p := brk m in
  put (mkMem (<[p := mkNode InternalExtent_head p p]> (nodes m))
             (<[p := 0]> (sizes m)) (p + 1)%N);;
  mret p.

Definition Buffer_mkBuffer : M mem ptr := BufferImpl_new.
Definition Buffer_create : M mem ptr := Buffer_mkBuffer.

Definition BufferImpl_empty (b : ptr) : M mem bool :=
  s ← load_size b; mret (s =? 0).
Definition BufferImpl_size (b : ptr) : M mem Z := load_size b.

Definition list_empty (b : ptr) : M mem bool :=
  p ← load_prev b; mret (bool_decide (p = b)).

Definition reset (b : ptr) : M mem unit :=
  store_prev b b;; store_next b b;; store_size b 0.

(** Enough turns for any walk over a list of allocated nodes. *)
Definition walk {X R} (body : X → M mem (X + R)) (x : X) : M mem R :=
  n ← gets (λ m, S (size (nodes m)));
  loop n body x.

(** ** [drain] *)

Definition drain_body (b : ptr) (remain : Z) : M mem (Z + Z) :=
  go ← (if 0 <? remain then e ← list_empty b; mret (negb e) else mret false);
  if (go : bool) then
    cur ← load_next b;
    r ← on_extent cur (gets readable);
    let consume := remain `min` r in
    node_remain ← on_extent cur (InternalExtent_consume consume);
    when (node_remain =? 0) (unlink cur;; delete_extent cur);;
    mret (inl (remain -₆₄ consume))
  else mret (inr remain).

Definition BufferImpl_drain (b : ptr) (count : Z) : M mem unit :=
  remain ← walk (drain_body b) count;
  s ← load_size b;
  store_size b (s -₆₄ (count -₆₄ remain)).

(** [~BufferImpl] as [delete buf] runs it: the list is drained and the object
    released. *)
Definition BufferImpl_delete (b : ptr) : M mem unit :=
  BufferImpl_drain b SIZE_MAX;;
  delete_extent b;;
  modify (set_sizes (delete b)).

Definition Buffer_release (b : ptr) : M mem unit := BufferImpl_delete b.
Definition Buffer_Deleter (b : ptr) : M mem unit := BufferImpl_delete b.

Section alloc.
Context `{Allocator}.

(** ** [append] *)

(** [if (!cur || cur->appendable() == 0) { cur = new ...; listAppend(...); }] *)
Definition append_target (b cur : ptr) (remain : Z) : M mem ptr :=
  full ← (if decide (cur = nullptr) then mret true
          else a ← on_extent cur (gets appendable); mret (a =? 0));
  if (full : bool) then
    cur ← new_extent remain; listAppend1 b cur;; mret cur
  else mret cur.

(** One turn of the [do] loop; [while (remain > size)]. *)
Definition append_body (b : ptr) (buf : list cell) (size : Z) (x : ptr * Z) :
    M mem (ptr * Z + unit) :=
  let '(cur, remain) := x in
  cur ← append_target b cur remain;
  n ← on_extent cur (InternalExtent_append buf remain);
  let remain := remain -₆₄ n in
  mret (if size <? remain then inl (cur, remain) else inr tt).

Definition BufferImpl_append (b : ptr) (buf : list cell) (size : Z) : M mem unit :=
  e ← list_empty b;
  cur ← (if (e : bool) then mret nullptr else load_prev b);
  walk (append_body b buf size) (cur, size);;
  s ← load_size b;
  store_size b (s +₆₄ size).

(** [append(std::string const&)]. *)
Definition BufferImpl_append_string (b : ptr) (buf : list byte) : M mem unit :=
  BufferImpl_append b (Some <$> buf) (zlength buf).

(** ** [prepend] *)

(** The branch that allocates. *)
Definition prepend_new (b : ptr) (buf : list cell) (remain : Z) : M mem (ptr * Z) :=
  cur ← new_extent remain;
  n ← on_extent cur (InternalExtent_append buf remain);
  listPrepend1 b cur;;
  mret (cur, remain -₆₄ n).

(** One turn of the [do] loop; [while (remain > 0)]. *)
Definition prepend_body (b : ptr) (buf : list cell) (x : ptr * Z) :
    M mem (ptr * Z + unit) :=
  let '(cur, remain) := x in
  none ← (if decide (cur = nullptr) then mret true
          else a ← on_extent cur (gets prependable); mret (a =? 0));
  '(cur, remain) ←
    (if (none : bool) then prepend_new b buf remain
     else
       n ← on_extent cur (InternalExtent_prepend buf remain);
       mret (cur, remain -₆₄ n));
  mret (if 0 <? remain then inl (cur, remain) else inr tt).

Definition BufferImpl_prepend (b : ptr) (buf : list cell) (size : Z) : M mem unit :=
  e ← list_empty b;
  cur ← (if (e : bool) then mret nullptr else load_next b);
  walk (prepend_body b buf) (cur, size);;
  s ← load_size b;
  store_size b (s +₆₄ size).

Definition BufferImpl_prepend_string (b : ptr) (buf : list byte) : M mem unit :=
  BufferImpl_prepend b (Some <$> buf) (zlength buf).

(** ** [reserve] *)

Definition BufferImpl_reserve (b : ptr) (size : Z) : M mem unit :=
  e ← list_empty b;
  required ← (if (e : bool) then mret size
              else p ← load_prev b;
                   a ← on_extent p (gets appendable);
                   mret (size -₆₄ a));
  when (0 <? required) (cur ← new_extent required; listAppend1 b cur).

Definition BufferImpl_reserve_extents (b : ptr) (size : Z) (extents : list Extent) :
    M mem (list Extent) :=
  e ← list_empty b;
  '(required, extents) ←
    (if (e : bool) then mret (size, extents)
     else p ← load_prev b;
          avail ← on_extent p (gets appendable);
          w ← on_extent p (gets write_offset);
          mret (if 0 <? avail then (size -₆₄ avail, extents ++ [mkExt avail p w])
                else (size, extents)));
  if 0 <? required then
    cur ← new_extent required;
    listAppend1 b cur;;
    mret (extents ++ [mkExt required cur 0])
  else mret extents.
End alloc.

(** ** Moving a whole buffer *)

Definition BufferImpl_append_buffer (b o : ptr) : M mem unit :=
  e ← list_empty o;
  if (e : bool) then mret tt
  else
    h2 ← load_next o;
    t ← load_prev o;
    listAppend b h2 t;;
    s ← load_size b;
    s' ← load_size o;
    store_size b (s +₆₄ s');;
    reset o.

Definition BufferImpl_prepend_buffer (b o : ptr) : M mem unit :=
  e ← list_empty o;
  if (e : bool) then mret tt
  else
    h2 ← load_next o;
    t ← load_prev o;
    listPrepend b h2 t;;
    s ← load_size b;
    s' ← load_size o;
    store_size b (s +₆₄ s');;
    reset o.

(** ** [read] and [peek] *)

(** The locals of the loop of [read]. *)
Record read_locals := mkRead {
  r_cur : ptr;            (** [cur] *)
  r_total : Z;            (** [total] *)
  r_pos : Z;              (** the offset of [buf] in the caller's array *)
  r_out : list cell;      (** the caller's array *)
}.

Definition read_body (b : ptr) (consume : bool) (size : Z) (x : read_locals) :
    M mem (read_locals + Z * list cell) :=
  let '(mkRead cur total pos out) := x in
  if bool_decide (cur ≠ b) && (total <? size) then
    '(tmpread, out) ← on_extent cur (InternalExtent_copyout out pos size);
    let total := total +₆₄ tmpread in
    let pos := pos + tmpread in
    if negb consume then
      n ← load_next cur;
      mret (inl (mkRead n total pos out))
    else
      s ← load_size b;
      store_size b (s -₆₄ tmpread);;
      remain ← on_extent cur (InternalExtent_consume tmpread);
      if remain =? 0 then
        unlink cur;;
        n ← load_next cur;
        delete_extent cur;;
        mret (inl (mkRead n total pos out))
      else mret (inr (total, out))
  else mret (inr (total, out)).

Definition BufferImpl_read_gen (b : ptr) (out : list cell) (size : Z) (consume : bool) :
    M mem (Z * list cell) :=
  cur ← load_next b;
  walk (read_body b consume size) (mkRead cur 0 0 out).

Definition BufferImpl_read (b : ptr) (out : list cell) (size : Z) : M mem (Z * list cell) :=
  BufferImpl_read_gen b out size true.

Definition BufferImpl_peek (b : ptr) (out : list cell) (size : Z) : M mem (Z * list cell) :=
  BufferImpl_read_gen b out size false.

Definition peek_extents_body (b : ptr) (size : Z) (x : ptr * Z * list Extent) :
    M mem (ptr * Z * list Extent + list Extent) :=
  let '(cur, total, extents) := x in
  if bool_decide (cur ≠ b) && (total <? size) then
    avail ← on_extent cur (gets readable);
    r ← on_extent cur (gets read_offset);
    let grant := avail `min` (size -₆₄ total) in
    let extents := if 0 <? avail then extents ++ [mkExt grant cur r] else extents in
    n ← load_next cur;
    mret (inl (n, total +₆₄ avail, extents))
  else mret (inr extents).

Definition BufferImpl_peek_extents (b : ptr) (size : Z) (extents : list Extent) :
    M mem (list Extent) :=
  cur ← load_next b;
  walk (peek_extents_body b size) (cur, 0, extents).
