(* ===== verification/BufferModel.v ===== *)
(** * Buffers as lists of extents

    The operations of [BufferImpl] over the list of its extents instead of the
    linked nodes: the model the clients of a buffer are verified against.
    [BufferRefine.v] proves that the pointer code of [Buffer.v] implements these
    functions, outcome by outcome; [BufferSpec.v] reads them as operations on a
    string of bytes. *)

From S2P Require Import Prelude Extent.

Record Buf := mkBuf { exts : list InternalExtent; bsize : Z }.

Definition set_exts (es : list InternalExtent) (b : Buf) : Buf := mkBuf es (bsize b).
Definition set_bsize (s : Z) (b : Buf) : Buf := mkBuf (exts b) s.

Definition empty_buf : Buf := mkBuf [] 0.
Definition buf_empty (b : Buf) : bool := bsize b =? 0.

(** A method call on the extent at position [i]. *)
Definition at_ext {A} (i : nat) (f : M InternalExtent A) : M Buf A := λ b,
  match exts b !! i with
  | Some e => zoom (λ _, e) (λ e', set_exts (<[i := e']> (exts b))) f b
  | None => Faults UseAfterFree
  end.

Definition push_back (e : InternalExtent) : M Buf unit :=
  modify (λ b, set_exts (exts b ++ [e]) b).
Definition push_front (e : InternalExtent) : M Buf unit :=
  modify (λ b, set_exts (e :: exts b) b).
Definition add_size (n : Z) : M Buf unit := modify (λ b, set_bsize (bsize b +₆₄ n) b).

(** [drain] on the extents: what is left of them and of the count. *)
Fixpoint drain_exts (remain : Z) (es : list InternalExtent) : list InternalExtent * Z :=
  match es with
  | [] => ([], remain)
  | e :: es' =>
      if 0 <? remain then
        let consume := remain `min` readable e in
        let e' := set_read_offset (read_offset e +₆₄ consume) e in
        if readable e' =? 0 then drain_exts (remain -₆₄ consume) es'
        else (e' :: es', remain -₆₄ consume)
      else (es, remain)
  end.

Definition buf_drain (count : Z) : M Buf unit :=
  modify (λ b,
    let '(es, remain) := drain_exts count (exts b) in
    mkBuf es (bsize b -₆₄ (count -₆₄ remain))).

Section alloc.
Context `{Allocator}.

(** [append]: into the last extent when it has room, else into a new one. *)
Definition buf_append (buf : list cell) (size : Z) : M Buf unit :=
  b ← get;
  (match last (exts b) with
   | Some e => when (appendable e =? 0) (e ← InternalExtent_new size; push_back e)
   | None => e ← InternalExtent_new size; push_back e
   end);;
  b ← get;
  at_ext (pred (length (exts b))) (InternalExtent_append buf size);;
  add_size size.

(** A new first extent that [append] filled. *)
Definition push_front_new (buf : list cell) (size : Z) : M Buf unit :=
  e ← InternalExtent_new size;
  push_front e;;
  at_ext 0 (InternalExtent_append buf size);;
  mret tt.

(** [prepend]: into the consumed space of the first extent, then (with the same
    data from its start again) into a new one. *)
Definition buf_prepend (buf : list cell) (size : Z) : M Buf unit :=
  b ← get;
  (match exts b with
   | e :: _ =>
       if prependable e =? 0 then push_front_new buf size
       else
         n ← at_ext 0 (InternalExtent_prepend buf size);
         when (0 <? size -₆₄ n) (push_front_new buf (size -₆₄ n))
   | [] => push_front_new buf size
   end);;
  add_size size.

Definition buf_reserve (size : Z) : M Buf unit :=
  b ← get;
  let required :=
    match last (exts b) with Some e => size -₆₄ appendable e | None => size end in
  when (0 <? required) (e ← InternalExtent_new required; push_back e).
End alloc.

Definition buf_append_buffer (o : Buf) (b : Buf) : Buf :=
  match exts o with
  | [] => b
  | _ => mkBuf (exts b ++ exts o) (bsize b +₆₄ bsize o)
  end.
Definition buf_prepend_buffer (o : Buf) (b : Buf) : Buf :=
  match exts o with
  | [] => b
  | _ => mkBuf (exts o ++ exts b) (bsize b +₆₄ bsize o)
  end.
(** What is left of the other buffer. *)
Definition buf_moved (o : Buf) : Buf := match exts o with [] => o | _ => empty_buf end.

(** [peek]: copy out of the extents in turn. *)
Fixpoint peek_exts (size : Z) (es : list InternalExtent) (total pos : Z) (out : list cell) :
    outcome unit (Z * list cell) :=
  match es with
  | [] => Done (total, out) tt
  | e :: es' =>
      if total <? size then
        match InternalExtent_copyout out pos size e with
        | Done (n, out') _ => peek_exts size es' (total +₆₄ n) (pos + n) out'
        | Throws x _ => Throws x tt
        | Faults f => Faults f
        | Diverges => Diverges
        end
      else Done (total, out) tt
  end.

Definition buf_peek (out : list cell) (size : Z) : M Buf (Z * list cell) := λ b,
  zoom (λ _, tt) (λ _ b, b) (λ _, peek_exts size (exts b) 0 0 out) b.

(** [read]: the same, consuming. *)
Fixpoint read_exts (size : Z) (es : list InternalExtent) (s total pos : Z) (out : list cell) :
    outcome Buf (Z * list cell) :=
  match es with
  | [] => Done (total, out) (mkBuf [] s)
  | e :: es' =>
      if total <? size then
        match InternalExtent_copyout out pos size e with
        | Done (n, out') e1 =>
            let e' := set_read_offset (read_offset e1 +₆₄ n) e1 in
            let s' := s -₆₄ n in
            if readable e' =? 0 then
              read_exts size es' s' (total +₆₄ n) (pos + n) out'
            else Done (total +₆₄ n, out') (mkBuf (e' :: es') s')
        | Throws x e1 => Throws x (mkBuf (e1 :: es') s)
        | Faults f => Faults f
        | Diverges => Diverges
        end
      else Done (total, out) (mkBuf es s)
  end.

Definition buf_read (out : list cell) (size : Z) : M Buf (Z * list cell) := λ b,
  read_exts size (exts b) (bsize b) 0 0 out.

(** [peek] with extents: (size, position of the extent, offset) triples. *)
Fixpoint peek_extents (size : Z) (es : list InternalExtent) (i : nat) (total : Z) :
    list (Z * nat * Z) :=
  match es with
  | [] => []
  | e :: es' =>
      if total <? size then
        let avail := readable e in
        (if 0 <? avail then [(avail `min` (size -₆₄ total), i, read_offset e)] else [])
        ++ peek_extents size es' (S i) (total +₆₄ avail)
      else []
  end.

Definition buf_peek_extents (size : Z) (b : Buf) : list (Z * nat * Z) :=
  peek_extents size (exts b) 0 0.

(** The characters an extent of that list points to. *)
Definition grant_cells (b : Buf) (g : Z * nat * Z) : list cell :=
  let '(n, i, off) := g in
  match exts b !! i with
  | Some e => default [] (slice (extent_data e) off n)
  | None => []
  end.
