(* ===== verification/BufferRefine.v ===== *)
(** * The pointer code implements the list model

    [rep m b ls L]: in the memory [m] the buffer at [b] has the nodes [ls], and
    they hold the extents of the list model [L].  For every operation of
    [Buffer.v] and the function of [BufferModel.v] it implements, the two have
    the same outcome from related states: the same result, the same exception or
    the same fault, with related states again ([sim]); the loops of the pointer
    code never run out of fuel; and the rest of the memory is untouched
    ([local_step]). *)

From S2P Require Import Prelude Extent Dll Buffer BufferModel.

Record rep (m : mem) (b : ptr) (ls : list ptr) (L : Buf) : Prop := {
  rep_dll : dll m b ls;
  rep_exts : Forall2 (λ p e, payloadof m p = Some e) ls (exts L);
  rep_size : sizes m !! b = Some (bsize L);
  rep_ok : mem_ok m;
  rep_typed : Forall ext_typed (exts L);
}.

(** What an operation on the buffer [b] with nodes [ls] may do to the memory: touch
    its own nodes, allocate new ones, and free those it drops from the list. *)
Record local_step (m : mem) (b : ptr) (ls : list ptr) (m' : mem) (ls' : list ptr) : Prop := {
  step_frame p : p ∉ b :: ls → (p < brk m)%N →
    nodes m' !! p = nodes m !! p ∧ sizes m' !! p = sizes m !! p;
  step_new p : p ∈ ls' → p ∈ ls ∨ (brk m ≤ p)%N;
  step_brk : (brk m ≤ brk m')%N;
  step_freed p : p ∈ ls → p ∉ ls' → nodes m' !! p = None;
}.

(** The relation between the outcomes of an operation and of its model. *)
Definition post {A} (m : mem) (b : ptr) (ls : list ptr) : A → A → mem → Buf → Prop :=
  λ a a' m' L', a = a' ∧ ∃ ls', rep m' b ls' L' ∧ local_step m b ls m' ls'.
Definition post_throw (m : mem) (b : ptr) (ls : list ptr) : mem → Buf → Prop :=
  λ m' L', ∃ ls', rep m' b ls' L' ∧ local_step m b ls m' ls'.

Abbreviation refines m b ls := (sim (post m b ls) (post_throw m b ls)).

(** ** Basic facts *)

Section rep.
Context (m : mem) (b : ptr) (ls : list ptr) (L : Buf) (R : rep m b ls L).

Lemma rep_lt p : p ∈ b :: ls → (p < brk m)%N.
Proof.
  intros Hp. destruct (rep_ok _ _ _ _ R) as (_ & _ & Hb).
  destruct (decide (brk m ≤ p)%N); [|lia].
  eapply dll_nodes in Hp as [? Hn]; [|apply R]. destruct (Hb p) as [E _]; [done|]. congruence.
Qed.

Lemma rep_not_null p : p ∈ b :: ls → p ≠ nullptr.
Proof.
  intros Hp ->. destruct (rep_ok _ _ _ _ R) as (_ & H0 & _).
  eapply dll_nodes in Hp as [? Hn]; [|apply R]. congruence.
Qed.

Lemma rep_length : length ls = length (exts L).
Proof. eapply Forall2_length, R. Qed.

Lemma rep_payload i p e :
  ls !! i = Some p → exts L !! i = Some e → payloadof m p = Some e.
Proof. intros. by eapply (Forall2_lookup_lr _ _ _ _ _ _ (rep_exts _ _ _ _ R)). Qed.

Lemma rep_nil : ls = [] ↔ exts L = [].
Proof. rewrite <- !length_zero_iff_nil. by rewrite rep_length. Qed.

Lemma local_refl : local_step m b ls m ls.
Proof. split; [done|auto|lia|done]. Qed.

Lemma wp_list_empty (Q : bool → mem → Prop) :
  Q (bool_decide (exts L = [])) m → wp (list_empty b) m Q.
Proof.
  intros HQ. unfold list_empty. wp_step.
  eapply wp_load_prev; [apply relinked_refl|by apply dll_last, R|]. wp_step.
  rewrite (bool_decide_ext _ (exts L = [])); [done|].
  rewrite <- rep_nil, <- (dll_empty _ _ _ (rep_dll _ _ _ _ R)).
  rewrite (dll_last _ _ _ (rep_dll _ _ _ _ R)). split; congruence.
Qed.

Lemma wp_load_size (Q : Z → mem → Prop) :
  Q (bsize L) m → wp (load_size b) m Q.
Proof. intros HQ. unfold load_size, wp. by rewrite (rep_size _ _ _ _ R). Qed.

Lemma wp_load_first (Q : ptr → mem → Prop) :
  Q (firstof b ls) m → wp (load_next b) m Q.
Proof.
  intros HQ. eapply wp_load_next; [apply relinked_refl|by apply dll_first, R|done].
Qed.
Lemma wp_load_last (Q : ptr → mem → Prop) :
  Q (lastof b ls) m → wp (load_prev b) m Q.
Proof.
  intros HQ. eapply wp_load_prev; [apply relinked_refl|by apply dll_last, R|done].
Qed.

(** Reading an accessor of an extent. *)
Lemma wp_on_extent_gets {A} i p e (f : InternalExtent → A) (Q : A → mem → Prop) :
  ls !! i = Some p → exts L !! i = Some e → Q (f e) m →
  wp (on_extent p (gets f)) m Q.
Proof.
  intros Hp He HQ. pose proof (rep_payload i p e Hp He) as E.
  unfold payloadof in E. unfold on_extent. wp_step. unfold wp, load.
  destruct (nodes m !! p) as [n|] eqn:En; simplify_eq/=.
  unfold zoom, gets. destruct n as [pl pv nx]; simpl in *.
  assert (set_nodes <[p:=with_payload pl (mkNode pl pv nx)]> m = m) as ->; [|done].
  unfold set_nodes, with_payload. destruct m; simpl in *. by rewrite insert_id.
Qed.
End rep.

Lemma local_trans m b ls L m' ls' m'' ls'' :
  rep m b ls L →
  local_step m b ls m' ls' → local_step m' b ls' m'' ls'' →
  local_step m b ls m'' ls''.
Proof.
  intros R S1 S2. pose proof (step_brk _ _ _ _ _ S1) as B1.
  pose proof (step_brk _ _ _ _ _ S2) as B2. split.
  - intros p Hp Hb. destruct (step_frame _ _ _ _ _ S1 p Hp Hb) as [<- <-].
    apply (step_frame _ _ _ _ _ S2); [|lia].
    intros [->|Hp']%elem_of_cons; [set_solver|].
    apply (step_new _ _ _ _ _ S1) in Hp' as [?|?]; [set_solver|lia].
  - intros p [Hp|Hp]%(step_new _ _ _ _ _ S2).
    + by apply (step_new _ _ _ _ _ S1).
    + right. lia.
  - lia.
  - intros p Hp Hn. destruct (decide (p ∈ ls')) as [Hp'|Hp'].
    + by apply (step_freed _ _ _ _ _ S2).
    + rewrite <- (step_freed _ _ _ _ _ S1 p Hp Hp').
      destruct (rep_dll _ _ _ _ R) as [[Hb _]%NoDup_cons _].
      apply (step_frame _ _ _ _ _ S2); [set_solver|].
      assert (p < brk m)%N by (eapply rep_lt; [done|set_solver]). lia.
Qed.

(** Sequencing: after a step from [ls] to [ls'], a refinement from [ls']. *)
Lemma refines_trans {A} m b ls L m' ls' (o : outcome mem A) o' :
  rep m b ls L → local_step m b ls m' ls' →
  refines m' b ls' o o' → refines m b ls o o'.
Proof.
  intros R S. intros H. eapply sim_mono; [exact H|..].
  - intros a a' m'' L'' (-> & ls'' & R'' & S''). split; [done|].
    exists ls''. split; [done|]. by eapply local_trans.
  - intros m'' L'' (ls'' & R'' & S''). exists ls''. split; [done|]. by eapply local_trans.
Qed.

Lemma refines_ret {A} m b ls L m' ls' (a : A) :
  rep m' b ls' L → local_step m b ls m' ls' →
  refines m b ls (Done a m') (Done a L).
Proof. intros. split; [done|]. eauto. Qed.

Lemma refines_bind {A B} m b ls L (c : M mem A) (c' : M Buf A) (k : A → M mem B)
    (k' : A → M Buf B) :
  rep m b ls L →
  refines m b ls (c m) (c' L) →
  (∀ a m' ls' L', rep m' b ls' L' → local_step m b ls m' ls' →
     refines m' b ls' (k a m') (k' a L')) →
  refines m b ls ((c ≫= k) m) ((c' ≫= k') L).
Proof.
  intros R H Hk. eapply sim_bind; [exact H|].
  intros a a' m' L' (-> & ls' & R' & S'). eapply refines_trans; eauto.
Qed.

(** The size field. *)
Lemma rep_store_size m b ls L s :
  rep m b ls L →
  wp (store_size b s) m (λ _ m',
    rep m' b ls (set_bsize s L) ∧ local_step m b ls m' ls ∧
    nodes m' = nodes m ∧ sizes m' = <[b := s]> (sizes m) ∧ brk m' = brk m).
Proof.
  intros R. unfold store_size, wp. rewrite (rep_size _ _ _ _ R). split_and!.
  - split; simpl.
    + eapply dll_frame; [apply R|done].
    + apply R.
    + apply lookup_insert_eq.
    + destruct (rep_ok _ _ _ _ R) as (? & ? & Hb). split_and!; [done..|].
      assert (b < brk m)%N as Hlt by (eapply rep_lt; [done|set_solver]).
      intros p Hp. simpl in *. destruct (Hb p Hp). split; [done|].
      rewrite lookup_insert_ne; [done|lia].
    + apply R.
  - split; simpl; [|auto|lia|done].
    intros p Hp _. split; [done|]. rewrite lookup_insert_ne; [done|set_solver].
  - done.
  - done.
  - done.
Qed.

(** ** Steps that several operations share *)

Lemma dll_links m m' h ls :
  dll m h ls → (∀ p, nextof m' p = nextof m p) → (∀ p, prevof m' p = prevof m p) →
  dll m' h ls.
Proof. intros [ND C] ??. split; [done|]. eapply chain_frame; [..|exact C]; auto. Qed.

(** A method call that changes the extent at position [i]. *)
Lemma rep_set_payload m b ls L i p n e' :
  rep m b ls L → ls !! i = Some p → nodes m !! p = Some n → ext_typed e' →
  let m' := set_nodes <[p := with_payload e' n]> m in
  rep m' b ls (set_exts (<[i := e']> (exts L)) L) ∧ local_step m b ls m' ls.
Proof.
  intros R Hp En Te m'. pose proof (rep_dll _ _ _ _ R) as [[_ ND]%NoDup_cons _].
  pose proof (λ q, views_insert m p n (with_payload e') q En) as V. simpl in V.
  assert (p ∈ ls) as Hin by by eapply list_elem_of_lookup_2.
  split; [split; simpl|split; simpl].
  - eapply dll_links; [apply R| |]; intros q; destruct (V q) as (Vn & Vp & _).
    + unfold m'. rewrite Vn. case_decide; subst; [unfold nextof; by rewrite En|done].
    + unfold m'. rewrite Vp. case_decide; subst; [unfold prevof; by rewrite En|done].
  - apply Forall2_same_length_lookup. split.
    { rewrite length_insert. by eapply rep_length. }
    intros j q e Hq He. destruct (V q) as (_ & _ & Ve). unfold m'. rewrite Ve.
    destruct (decide (j = i)) as [->|Hne].
    + simplify_eq. rewrite decide_True by done.
      rewrite list_lookup_insert_eq in He; [done|].
      rewrite <- (rep_length _ _ _ _ R). by eapply lookup_lt_Some.
    + rewrite list_lookup_insert_ne in He by done.
      rewrite decide_False; [by eapply rep_payload|].
      intros ->. by eapply Hne, NoDup_lookup.
  - apply R.
  - destruct (rep_ok _ _ _ _ R) as (? & ? & Hb). split_and!; [done|..].
    + simpl. rewrite lookup_insert_ne; [done|]. eapply rep_not_null; [done|set_solver].
    + intros q Hq. simpl in *. destruct (Hb q Hq). split; [|done].
      rewrite lookup_insert_ne; [done|].
      assert (p < brk m)%N by (eapply rep_lt; [done|set_solver]). lia.
  - apply Forall_insert; [apply R|done].
  - intros q Hq _. split; [|done]. apply lookup_insert_ne. set_solver.
  - auto.
  - lia.
  - done.
Qed.

Lemma refines_at_ext_same {A} m b ls L i p (f : M InternalExtent A) :
  rep m b ls L → ls !! i = Some p → preserves_typed f →
  sim (λ a a' m' L', a = a' ∧ rep m' b ls L' ∧ local_step m b ls m' ls)
    (post_throw m b ls) (on_extent p f m) (at_ext i f L).
Proof.
  intros R Hp Hf.
  destruct (lookup_lt_is_Some_2 (exts L) i) as [e He].
  { rewrite <- (rep_length _ _ _ _ R). by eapply lookup_lt_Some. }
  pose proof (rep_payload _ _ _ _ R _ _ _ Hp He) as Ep. unfold payloadof in Ep.
  destruct (nodes m !! p) as [n|] eqn:En; simplify_eq/=.
  unfold on_extent, mbind, M_bind, load, at_ext. rewrite En, He. unfold zoom. simpl.
  pose proof (Forall_lookup_1 _ _ _ _ (rep_typed _ _ _ _ R) He) as Te.
  specialize (Hf _ Te).
  destruct (f (payload n)) as [a e'|x e'|x|]; simpl; try done; split; try done.
  - by eapply rep_set_payload.
  - eexists. by eapply rep_set_payload.
Qed.

Lemma refines_at_ext {A} m b ls L i p (f : M InternalExtent A) :
  rep m b ls L → ls !! i = Some p → preserves_typed f →
  refines m b ls (on_extent p f m) (at_ext i f L).
Proof.
  intros R Hp Hf. eapply sim_mono; [by eapply refines_at_ext_same| |done].
  intros a a' m' L' (-> & ? & ?). split; eauto.
Qed.

(** A buffer is untouched by what happens elsewhere. *)
Lemma rep_frame m m' b ls L :
  rep m b ls L → mem_ok m' →
  (∀ p, p ∈ b :: ls → nodes m' !! p = nodes m !! p ∧ sizes m' !! p = sizes m !! p) →
  rep m' b ls L.
Proof.
  intros R Hok F. split; [| | |done|apply R].
  - eapply dll_frame; [apply R|]. apply F.
  - apply Forall2_same_length_lookup. split; [by eapply rep_length|].
    intros i p e Hp He. unfold payloadof. destruct (F p) as [-> _].
    { apply elem_of_cons. right. by eapply list_elem_of_lookup_2. }
    by eapply rep_payload.
  - destruct (F b) as [_ ->]; [set_solver|]. apply R.
Qed.

(** Relinking keeps the contents of all nodes. *)
Lemma spliced_ok m m' X : spliced m m' X → mem_ok m → mem_ok m'.
Proof.
  intros S (H0 & Hn & Hb).
  assert (∀ p, nodes m !! p = None → nodes m' !! p = None) as HN.
  { intros p. rewrite !eq_None_not_Some, !payloadof_Some. by rewrite (spliced_payload _ _ _ S). }
  split_and!; [by rewrite (spliced_brk _ _ _ S)|by apply HN|].
  intros p Hp. rewrite (spliced_brk _ _ _ S) in Hp. destruct (Hb p Hp).
  split; [by apply HN|by rewrite (spliced_sizes _ _ _ S)].
Qed.

Lemma rep_spliced m m' b ls L X :
  dll m' b ls → spliced m m' X → mem_ok m →
  Forall2 (λ p e, payloadof m p = Some e) ls (exts L) → sizes m !! b = Some (bsize L) →
  Forall ext_typed (exts L) →
  rep m' b ls L.
Proof.
  intros D S Hok F Hs T. split; [done| | |by eapply spliced_ok|done].
  - eapply Forall2_impl; [done|]. intros p e. by rewrite (spliced_payload _ _ _ S).
  - by rewrite (spliced_sizes _ _ _ S).
Qed.

Lemma local_spliced m b ls m' X :
  spliced m m' X → (∀ p, p ∈ X → p ∈ b :: ls) → local_step m b ls m' ls.
Proof.
  intros S HX. split; [|auto|by rewrite (spliced_brk _ _ _ S)|done].
  intros p Hp _. rewrite (spliced_sizes _ _ _ S). split; [|done].
  apply (spliced_frame _ _ _ S). naive_solver.
Qed.

(** *** New extents *)

Definition fresh_ext (size : Z) : InternalExtent :=
  mkExtent size (replicate (Z.to_nat size) None) 0 0.

Section alloc.
Context `{Allocator}.

Lemma InternalExtent_new_ok {St} size (s : St) :
  size ≤ max_new → InternalExtent_new size s = Done (fresh_ext size) s.
Proof.
  intros Hs. unfold InternalExtent_new, new_chars, mbind, M_bind.
  destruct (Z.leb_spec size max_new); [done|lia].
Qed.
Lemma InternalExtent_new_throws {St} size (s : St) :
  max_new < size → InternalExtent_new size s = Throws bad_alloc s.
Proof.
  intros Hs. unfold InternalExtent_new, new_chars, mbind, M_bind.
  destruct (Z.leb_spec size max_new); [lia|done].
Qed.
Lemma new_extent_throws size m :
  max_new < size → new_extent size m = Throws bad_alloc m.
Proof.
  intros Hs. unfold new_extent, mbind, M_bind. by rewrite InternalExtent_new_throws.
Qed.

(** [new InternalExtent] puts an unlinked node next to the buffer. *)
Lemma wp_new_extent m b ls L size :
  rep m b ls L → size ≤ max_new →
  wp (new_extent size) m (λ p m',
    rep m' b ls L ∧ local_step m b ls m' ls ∧ p = brk m ∧ (p ∉ b :: ls) ∧
    nodes m' !! p = Some (mkNode (fresh_ext size) nullptr nullptr) ∧
    p ≠ nullptr ∧ (p < brk m')%N).
Proof.
  intros R Hs. unfold new_extent. wp_step.
  eapply wp_done; [by apply InternalExtent_new_ok|]. wp_step.
  unfold wp, get. simpl.
  assert (∀ q, q ∈ b :: ls → (q < brk m)%N) as Hlt by (intros; by eapply rep_lt).
  pose proof (rep_ok _ _ _ _ R) as (H0 & Hnull & Hb).
  split_and!.
  - eapply rep_frame; [done| |].
    + split_and!; simpl; [lia|rewrite lookup_insert_ne by (unfold nullptr; lia); done|].
      intros q Hq. simpl in Hq. rewrite lookup_insert_ne by lia. apply Hb. lia.
    + intros q Hq%Hlt. simpl. by rewrite lookup_insert_ne by lia.
  - split; simpl; [|auto|lia|done].
    intros q Hq Hl. by rewrite lookup_insert_ne by lia.
  - done.
  - intros Hin%Hlt. lia.
  - simpl. apply lookup_insert_eq.
  - unfold nullptr. lia.
  - lia.
Qed.

Lemma fresh_typed size : 0 ≤ size ≤ max_new → ext_typed (fresh_ext size).
Proof.
  intros Hs. pose proof max_new_range.
  split; unfold is_u64, W64; simpl; lia.
Qed.

(** Linking in a node that was just allocated. *)
Lemma local_link m b ls m1 m2 p ls' X :
  local_step m b ls m1 ls → spliced m1 m2 X → (brk m ≤ p)%N →
  (∀ q, q ∈ X → q ∈ b :: ls ∨ q = p) → (∀ q, q ∈ ls' ↔ q ∈ ls ∨ q = p) →
  local_step m b ls m2 ls'.
Proof.
  intros S1 S2 Hp HX Hls. split.
  - intros q Hq Hl. rewrite (spliced_sizes _ _ _ S2), (spliced_frame _ _ _ S2).
    + by apply (step_frame _ _ _ _ _ S1).
    + intros [?| ->]%HX; [done|lia].
  - intros q [?| ->]%Hls; auto.
  - rewrite (spliced_brk _ _ _ S2). apply S1.
  - naive_solver.
Qed.

(** [cur = new InternalExtent(size); listAppend(&head_, cur);] *)
Lemma wp_push_back m b ls L size :
  rep m b ls L → 0 ≤ size ≤ max_new →
  wp (cur ← new_extent size; listAppend1 b cur;; mret cur) m (λ cur m',
    rep m' b (ls ++ [cur]) (set_exts (exts L ++ [fresh_ext size]) L) ∧
    local_step m b ls m' (ls ++ [cur])).
Proof.
  intros R Hs. wp_step. eapply wp_mono; [eapply wp_new_extent; [done|lia]|].
  intros p m1 (R1 & S1 & Ep & Hp & En & _ & _). wp_step.
  pose proof (rep_dll _ _ _ _ R1) as D1.
  eapply wp_mono.
  { apply (listAppend_dll _ _ ls [p]); [done| |done|done|done|].
    - rewrite app_comm_cons. apply NoDup_snoc. split; [done|apply D1].
    - intros q ->%list_elem_of_singleton. by rewrite En. }
  intros [] m2 [D2 S2]. wp_step. split.
  - eapply rep_spliced; [done..|apply R1| |apply R1|]; simpl.
    + apply Forall2_app; [apply R1|]. constructor; [|constructor].
      unfold payloadof. by rewrite En.
    + apply Forall_app. split; [apply R1|]. constructor; [|done]. by apply fresh_typed.
  - eapply (local_link _ _ _ m1 _ p); [exact S1|exact S2|subst p; reflexivity| |]; set_solver.
Qed.

(** [listPrepend(&head_, cur)] of a new node that holds [e]. *)
Lemma wp_link_front m b ls L m1 p e x y :
  rep m1 b ls L → local_step m b ls m1 ls → (brk m ≤ p)%N → p ∉ b :: ls →
  nodes m1 !! p = Some (mkNode e x y) → ext_typed e →
  wp (listPrepend1 b p) m1 (λ _ m',
    rep m' b (p :: ls) (set_exts (e :: exts L) L) ∧ local_step m b ls m' (p :: ls)).
Proof.
  intros R1 S1 Ep Hp En Te. pose proof (rep_dll _ _ _ _ R1) as D1.
  eapply wp_mono.
  { apply (listPrepend_dll _ _ ls [p]); [done| |done|done|done|].
    - rewrite app_comm_cons. apply NoDup_snoc. split; [done|apply D1].
    - intros q ->%list_elem_of_singleton. by rewrite En. }
  intros [] m2 [D2 S2]. split.
  - eapply rep_spliced; [done..|apply R1| |apply R1|]; simpl.
    + constructor; [|apply R1]. unfold payloadof. by rewrite En.
    + constructor; [done|apply R1].
  - eapply local_link; [done..| |]; set_solver.
Qed.

(** [append] on a new extent takes all of the data, or overruns the source. *)
Lemma append_fresh_inv (buf : list cell) size :
  0 ≤ size ≤ max_new →
  match InternalExtent_append buf size (fresh_ext size) with
  | Done n e => n = size ∧ ext_typed e
  | Faults _ => True
  | _ => False
  end.
Proof.
  intros Hs. pose proof max_new_range.
  pose proof (append_typed buf size _ (fresh_typed size Hs)) as T.
  enough (match InternalExtent_append buf size (fresh_ext size) with
          | Done n _ => n = size | Faults _ => True | _ => False end) as E
    by (destruct (InternalExtent_append _ _ _); done).
  clear T. destruct (decide (size = 0)) as [->|Hz]; [by rewrite InternalExtent_append_full|].
  unfold InternalExtent_append, mbind, M_bind, get. cbn [write_offset extent_size fresh_ext].
  rewrite u64_sub_wrap by (unfold W64; lia).
  destruct (Z.eqb_spec (W64 - (size - 0)) 0) as [E|_]; [unfold W64 in E; lia|].
  rewrite Z.min_r by (unfold W64; lia).
  unfold ext_memcpy, mbind, M_bind, get.
  destruct (slice buf 0 size) as [src|]; [|done]. cbn [of_option mret M_ret].
  by destruct (blit _ _ _).
Qed.
End alloc.

(** What a method returns, the list model returns. *)
Lemma at_ext_result {A} i (f : M InternalExtent A) L (P : A → InternalExtent → Prop) a L' :
  Forall ext_typed (exts L) →
  (∀ e a e', ext_typed e → f e = Done a e' → P a e') →
  at_ext i f L = Done a L' → ∃ e', exts L' !! i = Some e' ∧ P a e'.
Proof.
  intros T Hf. unfold at_ext. destruct (exts L !! i) as [e|] eqn:E; [|done].
  unfold zoom. destruct (f e) as [a' e'|e'| |] eqn:Ef; try done. intros [= <- <-].
  exists e'. split.
  - simpl. apply list_lookup_insert_eq. by eapply lookup_lt_Some.
  - eapply Hf; [|done]. by eapply Forall_lookup_1.
Qed.

Lemma append_count buf size e n e' :
  is_u64 size → InternalExtent_append buf size e = Done n e' → 0 ≤ n ≤ size.
Proof.
  intros [Hs _]. unfold InternalExtent_append, mbind, M_bind, get.
  destruct (u64_range (write_offset e - extent_size e)) as [H0 _].
  destruct (_ =? 0); [intros [= <- <-]; lia|].
  destruct (ext_memcpy _ _ _ _); try done. intros [= <- <-]. lia.
Qed.

Lemma prepend_count buf size e n e' :
  is_u64 size → ext_typed e → InternalExtent_prepend buf size e = Done n e' →
  0 ≤ n ≤ size ∧ (n < size → read_offset e' = 0).
Proof.
  intros [Hs _] [_ [Hr Hr'] _]. unfold InternalExtent_prepend, mbind, M_bind, get.
  destruct (Z.eqb_spec (read_offset e) 0) as [E|E]; [intros [= <- <-]; lia|].
  unfold ext_memcpy, mbind, M_bind, get.
  destruct (slice _ _ _); [|done]. cbn [of_option mret M_ret].
  destruct (blit _ _ _); [|done]. intros [= <- <-]. split; [lia|].
  intros Hlt. simpl. rewrite Z.min_l by lia. by rewrite Z.sub_diag.
Qed.

Lemma rep_last m b ls L p :
  rep m b ls L → last ls = Some p → ls !! pred (length (exts L)) = Some p.
Proof. intros R Hl. rewrite <- (rep_length _ _ _ _ R). by rewrite <- last_lookup. Qed.

Lemma rep_last_ext m b ls L :
  rep m b ls L → exts L ≠ [] →
  ∃ e, last (exts L) = Some e ∧ ls !! pred (length ls) = Some (lastof b ls) ∧
       exts L !! pred (length ls) = Some e ∧ last ls = Some (lastof b ls).
Proof.
  intros R Hne. destruct (last (exts L)) as [e|] eqn:El; [|by apply last_None in El].
  assert (ls ≠ []) as Hls by by rewrite (rep_nil _ _ _ _ R).
  assert (last ls = Some (lastof b ls)) as Hl.
  { unfold lastof. destruct (last ls) eqn:E; [done|by apply last_None in E]. }
  exists e. rewrite <- last_lookup, (rep_length _ _ _ _ R), <- last_lookup. done.
Qed.

(** Adding to the size at the end of an operation. *)
Lemma refines_add_size m b ls L n :
  rep m b ls L →
  refines m b ls ((s ← load_size b; store_size b (s +₆₄ n)) m) (add_size n L).
Proof.
  intros R. apply sim_bind_l. eapply wp_load_size; [done|].
  destruct (proj1 (wp_iff _ _ _) (rep_store_size _ _ _ _ (bsize L +₆₄ n) R))
    as ([] & m' & -> & R' & S' & _).
  by eapply refines_ret.
Qed.

(** ** [append] *)

Section append.
Context `{Allocator}.

(** The buffer and the pointer to its last node. *)
Definition post_last (m : mem) (b : ptr) (ls : list ptr) : ptr → unit → mem → Buf → Prop :=
  λ p _ m' L', ∃ ls', rep m' b ls' L' ∧ local_step m b ls m' ls' ∧ last ls' = Some p.

Lemma refine_new_back m b ls L size :
  rep m b ls L → is_u64 size →
  sim (post_last m b ls) (post_throw m b ls)
    ((cur ← new_extent size; listAppend1 b cur;; mret cur) m)
    ((e ← InternalExtent_new size; push_back e) L).
Proof.
  intros R [Hs _]. destruct (decide (size ≤ max_new)) as [Hle|Hgt].
  - rewrite (bind_done _ _ _ (fresh_ext size) L) by by apply InternalExtent_new_ok.
    destruct (proj1 (wp_iff _ _ _) (wp_push_back m b ls L size R (conj Hs Hle)))
      as (p & m1 & -> & R1 & S1).
    exists (ls ++ [p]). split_and!; [done..|]. apply last_snoc.
  - rewrite (bind_throws _ _ _ bad_alloc m), (bind_throws _ _ _ bad_alloc L);
      [|apply InternalExtent_new_throws; lia|apply new_extent_throws; lia].
    split; [done|]. exists ls. split; [done|]. apply local_refl.
Qed.

Lemma refine_append_target m b ls L remain :
  rep m b ls L → is_u64 remain →
  sim (post_last m b ls) (post_throw m b ls)
    (append_target b (if decide (exts L = []) then nullptr else lastof b ls) remain m)
    ((match last (exts L) with
      | Some e => when (appendable e =? 0) (e ← InternalExtent_new remain; push_back e)
      | None => e ← InternalExtent_new remain; push_back e
      end) L).
Proof.
  intros R Hrem. pose proof (refine_new_back m b ls L remain R Hrem) as Hnew.
  unfold append_target. destruct (decide (exts L = [])) as [Hnil|Hne].
  - rewrite Hnil. exact Hnew.
  - destruct (rep_last_ext _ _ _ _ R Hne) as (e & El & Hz & He & Hl). rewrite El.
    rewrite decide_False by (apply (rep_not_null _ _ _ _ R), lastof_elem).
    apply sim_bind_l. wp_step. eapply wp_on_extent_gets; [done..|]. wp_step.
    destruct (appendable e =? 0); [exact Hnew|].
    exists ls. split_and!; [done|apply local_refl|done].
Qed.

(** The pointer the loops start from: null for an empty list. *)
Lemma wp_start m b ls L (e : bool) (c : M mem ptr) p :
  rep m b ls L → e = bool_decide (exts L = []) →
  (∀ Q : ptr → mem → Prop, Q p m → wp c m Q) →
  wp (if e then mret nullptr else c) m
    (λ c m', c = (if decide (exts L = []) then nullptr else p) ∧ m' = m).
Proof.
  intros R -> Hc. case_bool_decide; [rewrite decide_True by done|rewrite decide_False by done].
  - by apply wp_ret.
  - by apply Hc.
Qed.

Theorem refine_append m b ls L buf size :
  rep m b ls L → is_u64 size →
  refines m b ls (BufferImpl_append b buf size m) (buf_append buf size L).
Proof.
  intros R Hs. unfold BufferImpl_append, buf_append. apply sim_get_r.
  apply sim_bind_l. eapply wp_list_empty; [done|]. apply sim_bind_l. eapply wp_mono.
  { eapply wp_start; [done..|]. intros. by eapply wp_load_last. }
  intros c ? [-> ->]. unfold walk. rewrite bind_bind.
  apply sim_bind_l. wp_step. rewrite loop_S. unfold append_body at 2. rewrite !bind_bind.
  eapply sim_bind; [by apply refine_append_target|].
  intros p [] m1 L1 (ls1 & R1 & S1 & Hp). eapply refines_trans; [done..|].
  apply sim_get_r. rewrite bind_bind. eapply sim_bind.
  { eapply sim_strengthen; [eapply refines_at_ext|]; [done|by eapply rep_last|auto with wte|].
    intros n L2. eapply (at_ext_result _ _ _ (λ n _, 0 ≤ n ≤ size)); [apply R1|].
    intros. by eapply append_count. }
  intros n n' m2 L2 [[-> (ls2 & R2 & S2)] (_ & _ & Hn)]. unfold is_u64 in Hs.
  rewrite u64_sub_small by lia. destruct (Z.ltb_spec size (size - n')); [lia|].
  eapply refines_trans; [done..|]. by apply refines_add_size.
Qed.
End append.

(** ** [prepend] *)

Section prepend.
Context `{Allocator}.

Lemma refine_prepend_new m b ls L buf remain :
  rep m b ls L → is_u64 remain →
  sim (λ x _ m' L', x.2 = 0 ∧ ∃ ls', rep m' b ls' L' ∧ local_step m b ls m' ls')
    (post_throw m b ls)
    (prepend_new b buf remain m) (push_front_new buf remain L).
Proof.
  intros R [Hs _]. unfold prepend_new, push_front_new.
  destruct (decide (remain ≤ max_new)) as [Hle|Hgt].
  2:{ rewrite (bind_throws _ _ _ bad_alloc m), (bind_throws _ _ _ bad_alloc L);
        [|apply InternalExtent_new_throws; lia|apply new_extent_throws; lia].
      split; [done|]. exists ls. split; [done|]. apply local_refl. }
  rewrite (bind_done _ _ _ (fresh_ext remain) L) by by apply InternalExtent_new_ok.
  apply sim_bind_l. eapply wp_mono; [by eapply wp_new_extent|].
  intros p m1 (R1 & S1 & Ep & Hp & En & Hnn & Hlt).
  pose proof (append_fresh_inv buf remain (conj Hs Hle)) as Ha.
  unfold on_extent. rewrite bind_bind. unfold load at 1, mbind at 1, M_bind at 1.
  rewrite En. unfold zoom at 1. cbn [payload].
  unfold push_front, modify, mbind at 3, M_bind at 3.
  unfold at_ext, set_exts at 1, mbind at 3, M_bind at 3. cbn [exts lookup list_lookup].
  unfold mbind at 1, M_bind at 1. unfold zoom at 1.
  destruct (InternalExtent_append buf remain (fresh_ext remain)) as [n e'|x e'|x|] eqn:Ea;
    simpl; rewrite Ea; try done.
  destruct Ha as [-> Te]. rewrite Z.sub_diag. apply sim_bind_l.
  set (m2 := set_nodes _ m1).
  assert (∀ q, q ≠ p → nodes m2 !! q = nodes m1 !! q) as F2.
  { intros q Hq. simpl. by apply lookup_insert_ne. }
  assert (mem_ok m2) as Ok2.
  { destruct (rep_ok _ _ _ _ R1) as (? & ? & Hb). split_and!; [done|by rewrite F2|].
    intros q Hq. simpl in Hq. rewrite F2 by lia. by apply Hb. }
  eapply wp_mono.
  { eapply (wp_link_front m b ls L m2 p e'); [| |lia|done|apply lookup_insert_eq|done].
    - eapply rep_frame; [done..|]. intros q Hq. split; [|done]. apply F2. by intros ->.
    - split; [|auto|apply S1|done]. intros q Hq Hl.
      rewrite F2 by lia. by apply (step_frame _ _ _ _ _ S1). }
  intros [] m3 [R3 S3]. simpl. split; [done|]. eauto.
Qed.

(** A turn of the loop that allocates is the last one. *)
Lemma refine_prepend_last m b ls L buf remain (K : ptr * Z → M mem unit) :
  rep m b ls L → is_u64 remain →
  refines m b ls
    (((x ← prepend_new b buf remain;
       let '(cur, remain) := x in
       mret (if 0 <? remain then inl (cur, remain) else inr tt)) ≫=
      λ r, match r with inl x' => K x' | inr v => mret v end) m)
    (push_front_new buf remain L).
Proof.
  intros R Hs. rewrite bind_bind.
  pose proof (refine_prepend_new m b ls L buf remain R Hs) as S.
  unfold mbind, M_bind.
  destruct (prepend_new b buf remain m) as [[c r] m'|x m'|x|],
           (push_front_new buf remain L) as [[] L'|x' L'|x'|]; simpl in *; try done.
  by destruct S as [-> S].
Qed.

Lemma rep_nodes m b ls L : rep m b ls L → (length ls < size (nodes m))%nat.
Proof.
  intros R. rewrite <- size_dom.
  unfold lt. change (S (length ls)) with (length (b :: ls)).
  rewrite <- (size_list_to_set (C := gset ptr) (b :: ls)) by apply (rep_dll _ _ _ _ R).
  apply subseteq_size. intros p Hp%elem_of_list_to_set.
  apply elem_of_dom. eapply dll_nodes; [apply R|done].
Qed.

Theorem refine_prepend m b ls L buf size :
  rep m b ls L → is_u64 size →
  refines m b ls (BufferImpl_prepend b buf size m) (buf_prepend buf size L).
Proof.
  intros R Hs. unfold BufferImpl_prepend, buf_prepend. apply sim_get_r.
  apply sim_bind_l. eapply wp_list_empty; [done|]. apply sim_bind_l. eapply wp_mono.
  { eapply wp_start; [done..|]. intros. by eapply wp_load_first. }
  intros c ? [-> ->]. unfold walk. rewrite bind_bind. apply sim_bind_l. wp_step.
  pose proof (rep_nodes _ _ _ _ R) as Hfuel.
  destruct (base.size (nodes m)) as [|fuel]; [lia|].
  eapply refines_bind; [done| |by intros; apply refines_add_size].
  rewrite loop_S. unfold prepend_body at 2. rewrite bind_bind.
  destruct (exts L) as [|e es] eqn:EL.
  { rewrite !decide_True by done. by apply refine_prepend_last. }
  pose proof (rep_length _ _ _ _ R) as Hlen. rewrite EL in Hlen.
  destruct ls as [|p ls]; [done|]. rewrite decide_False by done. cbn [firstof head default].
  rewrite decide_False by (apply (rep_not_null _ _ _ _ R); set_solver).
  apply sim_bind_l. wp_step. eapply (wp_on_extent_gets _ _ _ _ R 0); [done|by rewrite EL|].
  wp_step. destruct (prependable e =? 0); [by apply refine_prepend_last|].
  rewrite !bind_bind. eapply sim_bind.
  { eapply sim_strengthen; [eapply (refines_at_ext_same m b (p :: ls) L 0 p); auto with wte|].
    intros n L1. eapply at_ext_result; [apply R|]. intros e' n' e'' Te.
    by apply prepend_count. }
  intros n n' m1 L1 [(-> & R1 & S1) (e1 & E1 & Hn & Hr)].
  pose proof Hs as Hs'. unfold is_u64 in Hs'.
  rewrite u64_sub_small by lia. eapply refines_trans; [done..|].
  unfold mbind at 1, M_bind at 1. cbn [mret M_ret].
  destruct (Z.ltb_spec 0 (size - n')); [|by eapply refines_ret; [|apply local_refl]].
  apply sim_bind_l, wp_ret. cbv iota beta. rewrite loop_S. unfold prepend_body at 2. rewrite bind_bind.
  rewrite decide_False by (apply (rep_not_null _ _ _ _ R); set_solver).
  apply sim_bind_l. wp_step. eapply (wp_on_extent_gets _ _ _ _ R1 0); [done..|].
  wp_step. unfold prependable. rewrite Hr by lia.
  apply refine_prepend_last; [done|]. unfold is_u64. lia.
Qed.
End prepend.
