(* ===== verification/BufferWalk.v ===== *)
(** * The pointer code implements the list model: reserving, moving, walking

    The second half of the refinement of [BufferRefine.v]: [reserve], the
    operations that move a whole buffer, and the loops that walk the list
    ([drain], [read], [peek]), with the bound on the number of their turns. *)

From S2P Require Import Prelude Extent Dll Buffer BufferModel BufferRefine.

(** ** Steps of the walks *)

(** A method call, as a step of the pointer code. *)
Lemma wp_on_extent {A} m b ls L i p e (f : M InternalExtent A) a e' :
  rep m b ls L → ls !! i = Some p → exts L !! i = Some e → preserves_typed f →
  f e = Done a e' →
  wp (on_extent p f) m (λ r m', r = a ∧
    rep m' b ls (set_exts (<[i := e']> (exts L)) L) ∧ local_step m b ls m' ls).
Proof.
  intros R Hp He Hf Ef.
  pose proof (refines_at_ext_same _ _ _ _ _ _ f R Hp Hf) as S.
  unfold at_ext in S. rewrite He in S. unfold zoom in S. rewrite Ef in S.
  unfold wp. by destruct (on_extent p f m).
Qed.

(** Unlinking the first node. *)
Lemma wp_unlink_first m b p ls L :
  rep m b (p :: ls) L →
  wp (unlink p) m (λ _ m', dll m' b ls ∧ spliced m m' (b :: p :: ls) ∧
    nextof m' p = Some (firstof b ls)).
Proof. intros R. apply (unlink_dll m b [] p ls), R. Qed.

(** Releasing it. *)
Lemma wp_delete_first m m1 b p ls e es L :
  rep m b (p :: ls) L → exts L = e :: es →
  dll m1 b ls → spliced m m1 (b :: p :: ls) →
  wp (delete_extent p) m1 (λ _ m', rep m' b ls (set_exts es L) ∧
    local_step m b (p :: ls) m' ls).
Proof.
  intros R EL D S.
  pose proof (rep_dll _ _ _ _ R) as [[Hb [Hp ND]%NoDup_cons]%NoDup_cons _].
  assert (is_Some (nodes m1 !! p)) as [n En].
  { rewrite payloadof_Some, (spliced_payload _ _ _ S), <- payloadof_Some.
    eapply dll_nodes; [apply R|set_solver]. }
  pose proof (rep_exts _ _ _ _ R) as F. rewrite EL in F. apply Forall2_cons in F as [_ F].
  pose proof (rep_typed _ _ _ _ R) as T. rewrite EL in T. apply Forall_cons in T as [_ T].
  pose proof (spliced_ok _ _ _ S (rep_ok _ _ _ _ R)) as (Ok1 & Ok2 & Ok3).
  assert (rep m1 b ls (set_exts es L)) as R1.
  { eapply rep_spliced; [done..|apply R|done|apply R|done]. }
  unfold delete_extent, wp. rewrite En. split.
  - eapply rep_frame; [exact R1| |].
    + split_and!; [done| |].
      * simpl. rewrite lookup_delete_ne; [done|]. apply (rep_not_null _ _ _ _ R). set_solver.
      * intros q Hq. destruct (Ok3 q Hq). split; [|done]. apply lookup_delete_None. by right.
    + intros q Hq. simpl. rewrite lookup_delete_ne; [done|]. intros <-. set_solver.
  - split.
    + intros q Hq Hlt. simpl. rewrite lookup_delete_ne by set_solver.
      rewrite (spliced_sizes _ _ _ S), (spliced_frame _ _ _ S); done.
    + set_solver.
    + simpl. by rewrite (spliced_brk _ _ _ S).
    + intros q [->|Hq]%elem_of_cons Hn; [|done]. simpl. apply lookup_delete_eq.
Qed.

(** Consuming, in terms of what is readable. *)
Lemma readable_consume e c :
  readable (set_read_offset (read_offset e +₆₄ c) e) = readable e -₆₄ c.
Proof.
  unfold readable. simpl. rewrite u64_sub_l. unfold u64.
  rewrite Zminus_mod_idemp_r. f_equal. lia.
Qed.

Lemma consume_result e c :
  InternalExtent_consume c e =
    Done (readable (set_read_offset (read_offset e +₆₄ c) e))
         (set_read_offset (read_offset e +₆₄ c) e).
Proof. done. Qed.

(** ** [drain] *)

Lemma drain_exts_0 es : drain_exts 0 es = (es, 0).
Proof. by destruct es. Qed.

(** With nothing left to drain, the loop ends at its next test. *)
Lemma wp_drain_end b fuel m Q :
  (0 < fuel)%nat → Q 0 m → wp (loop fuel (drain_body b) 0) m Q.
Proof. destruct fuel; [lia|]. intros _ HQ. apply wp_loop_S. by wp_steps. Qed.

Lemma refine_drain_loop b fuel m ls L remain :
  rep m b ls L → is_u64 remain → (length ls < fuel)%nat →
  wp (loop fuel (drain_body b) remain) m (λ r m',
    r = (drain_exts remain (exts L)).2 ∧
    ∃ ls', rep m' b ls' (set_exts (drain_exts remain (exts L)).1 L) ∧
           local_step m b ls m' ls').
Proof.
  revert m ls L remain. induction fuel as [|fuel IH]; intros m ls L remain R Hr Hf; [lia|].
  apply wp_loop_S. unfold drain_body. wp_step.
  destruct (Z.ltb_spec 0 remain) as [Hpos|Hz].
  2:{ wp_steps. unfold is_u64 in Hr. replace remain with 0 by lia.
      rewrite drain_exts_0. split; [done|]. exists ls. split; [by destruct L|apply local_refl]. }
  wp_step. eapply wp_list_empty; [done|]. wp_step.
  destruct (exts L) as [|e es] eqn:EL.
  { rewrite bool_decide_true by done. wp_steps. split; [done|].
    exists ls. split; [by destruct L; simpl in *; subst|apply local_refl]. }
  rewrite bool_decide_false by done. simpl negb. cbv iota.
  pose proof (rep_length _ _ _ _ R) as Hlen. rewrite EL in Hlen.
  destruct ls as [|p ls]; [done|].
  wp_step. eapply wp_load_first; [done|]. cbn [firstof head default].
  wp_step. eapply (wp_on_extent_gets _ _ _ _ R 0); [done|by rewrite EL|].
  set (c := remain `min` readable e). set (e' := set_read_offset (read_offset e +₆₄ c) e).
  assert (is_u64 (readable e)) as He by apply u64_range. unfold is_u64 in Hr, He.
  wp_step. eapply wp_mono.
  { eapply (wp_on_extent _ _ _ _ 0 p e); [done|done|by rewrite EL|auto with wte|].
    apply consume_result. }
  intros r m1 (-> & R1 & S1). rewrite EL in R1. cbn [list_insert insert] in R1.
  cbn [drain_exts]. destruct (Z.ltb_spec 0 remain); [|lia]. fold c e'.
  assert (remain -₆₄ c = remain - c) as Ec by (apply u64_sub_small; lia).
  assert (readable e' = readable e - c) as Ee.
  { unfold e'. rewrite readable_consume. apply u64_sub_small; lia. }
  wp_step. destruct (Z.eqb_spec (readable e') 0) as [E0|E0].
  - unfold when. wp_step. eapply wp_mono; [by eapply wp_unlink_first|]. intros [] m2 (D2 & S2 & _).
    eapply wp_mono; [by eapply (wp_delete_first m1)|]. intros [] m3 [R3 S3].
    wp_step. eapply wp_mono.
    { apply (IH m3 ls _ (remain -₆₄ c) R3); [apply u64_range|simpl in Hf; lia]. }
    intros r m4 (-> & ls' & R4 & S4). split; [done|]. exists ls'. split; [done|].
    eapply local_trans; [done|exact S1|]. by eapply local_trans.
  - unfold when. do 2 wp_step. assert (remain -₆₄ c = 0) as E1 by lia. rewrite E1.
    apply wp_drain_end; [simpl in Hf; lia|]. split; [done|]. eauto.
Qed.

Theorem refine_drain m b ls L count :
  rep m b ls L → is_u64 count →
  refines m b ls (BufferImpl_drain b count m) (buf_drain count L).
Proof.
  intros R Hc. unfold BufferImpl_drain, buf_drain, walk. rewrite bind_bind.
  apply sim_bind_l. wp_step. apply sim_bind_l. eapply wp_mono.
  { apply (refine_drain_loop b _ m ls L count R Hc). pose proof (rep_nodes _ _ _ _ R). lia. }
  intros r m1 (-> & ls1 & R1 & S1). eapply refines_trans; [done..|].
  apply sim_bind_l. eapply wp_load_size; [done|].
  unfold modify. destruct (drain_exts count (exts L)) as [es remain]. cbn [fst snd] in *.
  destruct (proj1 (wp_iff _ _ _) (rep_store_size _ _ _ _ (bsize L -₆₄ (count -₆₄ remain)) R1))
    as ([] & m' & E & R' & S' & _).
  cbn [bsize set_exts]. rewrite E. by eapply refines_ret.
Qed.

(** ** [read] *)

(** [copyout] only reads the extent. *)
Lemma copyout_cases out pos size e :
  (∃ n out', InternalExtent_copyout out pos size e = Done (n, out') e) ∨
  (∃ f, InternalExtent_copyout out pos size e = Faults f).
Proof.
  unfold InternalExtent_copyout, mbind, M_bind, get.
  destruct (slice _ _ _); [|by right; eexists]. cbn [of_option mret M_ret].
  destruct (blit _ _ _); [left; by do 2 eexists|by right; eexists].
Qed.

(** A method that leaves its extent alone leaves the memory alone. *)
Lemma on_extent_same {A} m b ls L i p e (f : M InternalExtent A) a :
  rep m b ls L → ls !! i = Some p → exts L !! i = Some e →
  f e = Done a e → on_extent p f m = Done a m.
Proof.
  intros R Hp He Ef. pose proof (rep_payload _ _ _ _ R i p e Hp He) as E.
  unfold payloadof in E. unfold on_extent, mbind, M_bind, load.
  destruct (nodes m !! p) as [n|] eqn:En; simplify_eq/=.
  unfold zoom. rewrite Ef. f_equal. unfold set_nodes. destruct m, n; simpl in *.
  by rewrite insert_id.
Qed.

Lemma on_extent_faults {A} m b ls L i p e (f : M InternalExtent A) x :
  rep m b ls L → ls !! i = Some p → exts L !! i = Some e →
  f e = Faults x → on_extent p f m = Faults x.
Proof.
  intros R Hp He Ef. pose proof (rep_payload _ _ _ _ R i p e Hp He) as E.
  unfold payloadof in E. unfold on_extent, mbind, M_bind, load.
  destruct (nodes m !! p) as [n|] eqn:En; simplify_eq/=.
  unfold zoom. by rewrite Ef.
Qed.

(** The walk has come back to the head. *)
Lemma read_loop_end b consume size fuel m x :
  (0 < fuel)%nat → r_cur x = b ∨ size ≤ r_total x →
  loop fuel (read_body b consume size) x m = Done (r_total x, r_out x) m.
Proof.
  destruct fuel; [lia|]. intros _ Hx. rewrite loop_S. destruct x as [c t ps o]. simpl in *.
  unfold read_body. rewrite (proj2 (andb_false_iff _ _)); [done|].
  destruct Hx as [->|Hx]; [left; by apply bool_decide_false; auto|right; apply Z.ltb_ge; done].
Qed.

Lemma refine_read_loop b size fuel m ls L total pos out :
  rep m b ls L → (length ls < fuel)%nat →
  refines m b ls
    (loop fuel (read_body b true size) (mkRead (firstof b ls) total pos out) m)
    (read_exts size (exts L) (bsize L) total pos out).
Proof.
  revert m ls L total pos out.
  induction fuel as [|fuel IH]; intros m ls L total pos out R Hf; [lia|].
  pose proof (rep_length _ _ _ _ R) as Hlen.
  assert (refines m b ls (Done (total, out) m) (Done (total, out) L)) as Hend
    by (by eapply refines_ret; [|apply local_refl]).
  destruct L as [[|e es] s]; cbn [exts bsize] in *.
  { destruct ls; [|done]. rewrite read_loop_end by (simpl; auto with lia). exact Hend. }
  destruct ls as [|p ls]; [done|]. cbn [read_exts].
  destruct (Z.ltb_spec total size) as [Hlt|Hge].
  2:{ rewrite read_loop_end by (simpl; auto with lia). exact Hend. }
  pose proof (rep_dll _ _ _ _ R) as [[Hb _]%NoDup_cons _].
  rewrite loop_S. unfold read_body at 2. cbn [firstof head default].
  rewrite bool_decide_true by set_solver. rewrite (proj2 (Z.ltb_lt _ _)) by done.
  cbn [andb negb]. rewrite bind_bind.
  destruct (copyout_cases out pos size e) as [(n & out' & Ec)|(f & Ec)]; rewrite Ec.
  2:{ rewrite (bind_faults _ _ _ f); [done|]. by eapply (on_extent_faults _ _ _ _ 0). }
  rewrite (bind_done _ _ _ (n, out') m) by by eapply (on_extent_same _ _ _ _ 0).
  rewrite bind_bind. apply sim_bind_l. eapply wp_load_size; [done|].
  rewrite bind_bind. apply sim_bind_l. eapply wp_mono; [by eapply rep_store_size|].
  intros [] m1 (R1 & S1 & _). rewrite bind_bind. apply sim_bind_l. eapply wp_mono.
  { eapply (wp_on_extent _ _ _ _ 0 p e); [done..|auto with wte|apply consume_result]. }
  intros r m2 (-> & R2 & S2). cbn [exts set_exts set_bsize list_insert insert bsize] in *.
  set (e' := set_read_offset (read_offset e +₆₄ n) e) in *.
  assert (local_step m b (p :: ls) m2 (p :: ls)) as S12 by by eapply local_trans.
  destruct (readable e' =? 0).
  - rewrite bind_bind. apply sim_bind_l.
    eapply wp_mono; [by eapply wp_unlink_first|]. intros [] m3 (D3 & S3 & N3).
    rewrite bind_bind. apply sim_bind_l.
    eapply wp_load_next; [apply relinked_refl|done|].
    rewrite bind_bind. apply sim_bind_l.
    eapply wp_mono; [by eapply (wp_delete_first m2)|]. intros [] m4 [R4 S4].
    apply sim_bind_l, wp_ret. cbv iota beta.
    eapply refines_trans; [exact R| |apply (IH m4 ls (mkBuf es _) _ _ _ R4); simpl in Hf; lia].
    by eapply local_trans.
  - split; [done|]. eauto.
Qed.

Theorem refine_read m b ls L out size :
  rep m b ls L →
  refines m b ls (BufferImpl_read b out size m) (buf_read out size L).
Proof.
  intros R. unfold BufferImpl_read, BufferImpl_read_gen, walk.
  apply sim_bind_l. eapply wp_load_first; [done|]. apply sim_bind_l. wp_step.
  apply refine_read_loop; [done|]. pose proof (rep_nodes _ _ _ _ R). lia.
Qed.

(** ** [peek] *)

(** The successor of a node in the middle of the list. *)
Lemma dll_next m h l1 p l2 : dll m h (l1 ++ p :: l2) → nextof m p = Some (firstof h l2).
Proof.
  intros [_ C]. destruct l2 as [|q l2].
  - replace (h :: (l1 ++ [p]) ++ [h]) with ((h :: l1) ++ p :: h :: []) in C
      by (simpl; by rewrite <- app_assoc).
    by apply chain_next in C as [? _].
  - replace (h :: (l1 ++ p :: q :: l2) ++ [h]) with ((h :: l1) ++ p :: q :: (l2 ++ [h])) in C
      by (simpl; by rewrite <- app_assoc).
    by apply chain_next in C as [? _].
Qed.

Section peek.
Context (m : mem) (b : ptr) (ls : list ptr) (L : Buf) (R : rep m b ls L).

(** A position in the list: the nodes and the extents from it on. *)
Definition at_pos (l2 : list ptr) (es : list InternalExtent) (i : nat) : Prop :=
  ∃ l1 es1, ls = l1 ++ l2 ∧ exts L = es1 ++ es ∧ length l1 = i ∧ length es1 = i.

Lemma at_pos_start : at_pos ls (exts L) 0.
Proof. by exists [], []. Qed.

Lemma at_pos_nil l2 i : at_pos l2 [] i → l2 = [].
Proof.
  intros (l1 & es1 & E1 & E2 & H1 & H2). pose proof (rep_length _ _ _ _ R) as Hl.
  rewrite E1, E2, !length_app in Hl. simpl in Hl. apply nil_length_inv. lia.
Qed.

Lemma at_pos_cons l2 e es i :
  at_pos l2 (e :: es) i →
  ∃ p l2', l2 = p :: l2' ∧ at_pos l2' es (S i) ∧ ls !! i = Some p ∧
           exts L !! i = Some e ∧ p ≠ b ∧ nextof m p = Some (firstof b l2').
Proof.
  intros (l1 & es1 & E1 & E2 & H1 & H2). pose proof (rep_length _ _ _ _ R) as Hl.
  rewrite E1, E2, !length_app in Hl. destruct l2 as [|p l2]; [simpl in Hl; lia|].
  exists p, l2. split_and!; [done| | | | |].
  - exists (l1 ++ [p]), (es1 ++ [e]). rewrite <- !app_assoc, !length_app. simpl. split_and!; [done..|lia|lia].
  - rewrite E1, list_lookup_middle; done.
  - rewrite E2, list_lookup_middle; done.
  - pose proof (rep_dll _ _ _ _ R) as [[Hb _]%NoDup_cons _]. set_solver.
  - eapply dll_next. rewrite <- E1. apply R.
Qed.

Lemma refine_peek_loop size fuel l2 es i total pos out :
  at_pos l2 es i → (length l2 < fuel)%nat →
  refines m b ls
    (loop fuel (read_body b false size) (mkRead (firstof b l2) total pos out) m)
    (zoom (λ _, tt) (λ _ b, b) (λ _, peek_exts size es total pos out) L).
Proof.
  revert l2 es i total pos out.
  induction fuel as [|fuel IH]; intros l2 es i total pos out Hat Hf; [lia|].
  assert (refines m b ls (Done (total, out) m) (Done (total, out) L)) as Hend
    by (by eapply refines_ret; [|apply local_refl]).
  destruct es as [|e es].
  { apply at_pos_nil in Hat as ->. rewrite read_loop_end by (simpl; auto with lia). exact Hend. }
  destruct (at_pos_cons _ _ _ _ Hat) as (p & l2' & -> & Hat' & Hp & He & Hpb & Hn).
  unfold zoom. cbn [peek_exts].
  destruct (Z.ltb_spec total size) as [Hlt|Hge].
  2:{ rewrite read_loop_end by (simpl; auto with lia). exact Hend. }
  rewrite loop_S. unfold read_body at 2. cbn [firstof head default].
  rewrite bool_decide_true by done. rewrite (proj2 (Z.ltb_lt _ _)) by done.
  cbn [andb negb]. rewrite bind_bind.
  destruct (copyout_cases out pos size e) as [(n & out' & Ec)|(f & Ec)]; rewrite Ec.
  2:{ rewrite (bind_faults _ _ _ f); [done|]. by eapply on_extent_faults. }
  rewrite (bind_done _ _ _ (n, out') m) by by eapply on_extent_same.
  rewrite bind_bind. apply sim_bind_l.
  eapply wp_load_next; [apply relinked_refl|exact Hn|]. apply sim_bind_l, wp_ret.
  cbv iota beta. eapply IH; [done|]. simpl in Hf. lia.
Qed.

Theorem refine_peek out size :
  refines m b ls (BufferImpl_peek b out size m) (buf_peek out size L).
Proof.
  unfold BufferImpl_peek, BufferImpl_read_gen, walk.
  apply sim_bind_l. eapply wp_load_first; [done|]. apply sim_bind_l. wp_step.
  eapply refine_peek_loop; [apply at_pos_start|]. pose proof (rep_nodes _ _ _ _ R). lia.
Qed.
End peek.

(** ** [peek] with extents *)

(** An extent of the list model as a pointer into the nodes [ls]. *)
Definition as_ext (ls : list ptr) (g : Z * nat * Z) : Extent :=
  let '(n, i, off) := g in mkExt n (default nullptr (ls !! i)) off.

Section peek_extents.
Context (m : mem) (b : ptr) (ls : list ptr) (L : Buf) (R : rep m b ls L).

Lemma refine_peek_extents_loop size fuel l2 es i total acc :
  at_pos ls L l2 es i → (length l2 < fuel)%nat →
  loop fuel (peek_extents_body b size) (firstof b l2, total, acc) m =
  Done (acc ++ (as_ext ls <$> peek_extents size es i total)) m.
Proof.
  revert l2 es i total acc.
  induction fuel as [|fuel IH]; intros l2 es i total acc Hat Hf; [lia|].
  rewrite loop_S. unfold peek_extents_body at 2. destruct es as [|e es].
  { apply (at_pos_nil _ _ _ _ R) in Hat as ->. rewrite bool_decide_false by (by simpl; auto).
    simpl. by rewrite app_nil_r. }
  destruct (at_pos_cons _ _ _ _ R _ _ _ _ Hat) as (p & l2' & -> & Hat' & Hp & He & Hpb & Hn).
  cbn [firstof head default]. rewrite bool_decide_true by done. cbn [peek_extents andb].
  destruct (total <? size); [|by simpl; rewrite app_nil_r].
  rewrite bind_bind. rewrite (bind_done _ _ _ (readable e) m)
    by by eapply (on_extent_same _ _ _ _ i _ e (gets readable)).
  rewrite bind_bind. rewrite (bind_done _ _ _ (read_offset e) m)
    by by eapply (on_extent_same _ _ _ _ i _ e (gets read_offset)).
  rewrite bind_bind. rewrite (bind_done _ _ _ (firstof b l2') m).
  2:{ pose proof (wp_load_next m m _ _ p _ (λ v m', v = firstof b l2' ∧ m' = m)
        (relinked_refl m) Hn (conj eq_refl eq_refl)) as W.
      apply wp_iff in W as (? & ? & E & -> & ->). exact E. }
  unfold mbind at 1, M_bind at 1. cbn [mret M_ret].
  rewrite (IH _ _ (S i)) by (done || (simpl in Hf; lia)). f_equal.
  rewrite fmap_app, app_assoc. f_equal.
  destruct (0 <? readable e); simpl; [|by rewrite app_nil_r]. by rewrite Hp.
Qed.

Theorem refine_peek_extents size acc :
  BufferImpl_peek_extents b size acc m =
  Done (acc ++ (as_ext ls <$> buf_peek_extents size L)) m.
Proof.
  unfold BufferImpl_peek_extents, walk.
  erewrite bind_done.
  2:{ pose proof (wp_load_first m b ls L R (λ v m', v = firstof b ls ∧ m' = m)
        (conj eq_refl eq_refl)) as W.
      apply wp_iff in W as (? & ? & E & -> & ->). exact E. }
  erewrite bind_done by reflexivity.
  apply refine_peek_extents_loop; [apply at_pos_start|].
  pose proof (rep_nodes _ _ _ _ R). lia.
Qed.
End peek_extents.

(** ** [reserve] *)

Section reserve.
Context `{Allocator}.

Theorem refine_reserve m b ls L size :
  rep m b ls L → is_u64 size →
  refines m b ls (BufferImpl_reserve b size m) (buf_reserve size L).
Proof.
  intros R Hs. unfold BufferImpl_reserve, buf_reserve. apply sim_get_r.
  apply sim_bind_l. eapply wp_list_empty; [done|].
  set (req := match last (exts L) with Some e => size -₆₄ appendable e | None => size end).
  assert (is_u64 req) as Hreq by (unfold req; case_match; [apply u64_range|done]).
  apply sim_bind_l. eapply (wp_mono _ _ (λ r m', r = req ∧ m' = m)).
  { case_bool_decide as Hnil.
    - apply wp_ret. unfold req. by rewrite Hnil.
    - destruct (rep_last_ext _ _ _ _ R Hnil) as (e & El & Hz & He & _).
      unfold req. rewrite El. wp_step. eapply wp_load_last; [done|].
      wp_step. eapply wp_on_extent_gets; [done..|]. by wp_step. }
  intros r ? [-> ->]. destruct (0 <? req); simpl.
  - pose proof (refine_new_back m b ls L req R Hreq) as S.
    unfold mbind, M_bind in S |- *.
    destruct (new_extent req m) as [p m1|x m1|x|]; [|apply S|apply S|apply S].
    destruct (listAppend1 b p m1) as [[] m2|x m2|x|]; [|apply S|apply S|apply S].
    destruct (InternalExtent_new req L) as [e L1|x L1|x|]; try done.
    destruct (push_back e L1) as [[] L2|x L2|x|]; try done.
    destruct S as (ls' & ? & ? & ?). split; eauto.
  - by eapply refines_ret; [|apply local_refl].
Qed.
End reserve.

(** ** Moving a whole buffer *)

(** Two buffers with nothing in common. *)
Definition apart (b : ptr) (ls : list ptr) (o : ptr) (lo : list ptr) : Prop :=
  ∀ p, p ∈ b :: ls → p ∉ o :: lo.

(** [reset] makes the list of any object empty again, and touches nothing else. *)
Lemma wp_reset m o :
  is_Some (nodes m !! o) → is_Some (sizes m !! o) → mem_ok m →
  wp (reset o) m (λ _ m', rep m' o [] empty_buf ∧ brk m' = brk m ∧
    (∀ p, p ≠ o → nodes m' !! p = nodes m !! p ∧ sizes m' !! p = sizes m !! p)).
Proof.
  intros Hn [s Es] Hok. unfold reset. pose proof (relinked_refl m) as R.
  wp_ptr_store R; [done|]. wp_ptr_store R; [done|].
  match type of R with relinked _ ?m' _ _ => rename m' into m1 end.
  assert (spliced m m1 [o]) as S.
  { eapply relinked_spliced; [exact R|]. intros p Hp. rewrite !upd_ne; set_solver. }
  assert (dll m1 o []) as D.
  { split; [apply NoDup_singleton|]. split; [|done].
    eapply link_new; [exact R| |]; apply upd_eq. }
  assert (rep m1 o [] (mkBuf [] s)) as R0 by by eapply rep_spliced.
  eapply wp_mono; [by eapply rep_store_size|].
  intros [] m2 (R2 & _ & En & Ez & Eb). split_and!; [done| |].
  - by rewrite Eb, (spliced_brk _ _ _ S).
  - intros p Hp. rewrite En, Ez, lookup_insert_ne, (spliced_sizes _ _ _ S) by done.
    rewrite (spliced_frame _ _ _ S); [done|set_solver].
Qed.

Section move.
Context (m : mem) (b : ptr) (ls : list ptr) (L : Buf) (R : rep m b ls L).
Context (o : ptr) (lo : list ptr) (O : Buf) (RO : rep m o lo O).
Context (A : apart b ls o lo).

(** What moving [o] into [b] achieves, given the new order [ls'] and [L']. *)
Definition moved (m' : mem) (ls' : list ptr) (L' : Buf) : Prop :=
  rep m' b ls' L' ∧ rep m' o [] (buf_moved O) ∧ brk m' = brk m ∧
  (∀ p, p ∉ b :: ls → p ∉ o :: lo →
     nodes m' !! p = nodes m !! p ∧ sizes m' !! p = sizes m !! p).

(** The common tail: the sizes, and [o->reset()]. *)
Lemma wp_move_tail m1 ls' es :
  dll m1 b ls' → spliced m m1 (b :: ls ++ lo) →
  (∀ p, p ∈ ls' ↔ p ∈ ls ++ lo) →
  Forall2 (λ p e, payloadof m p = Some e) ls' es → Forall ext_typed es →
  exts O ≠ [] →
  wp (s ← load_size b; s' ← load_size o; store_size b (s +₆₄ s');; reset o) m1
    (λ _ m', moved m' ls' (mkBuf es (bsize L +₆₄ bsize O))).
Proof.
  intros D S Hls F T Hne.
  assert (b ≠ o) as Hbo by (intros ->; eapply (A o); set_solver).
  assert (rep m1 b ls' (mkBuf es (bsize L))) as R1.
  { eapply rep_spliced; [done|done|apply R|done|apply R|done]. }
  wp_step. eapply wp_load_size; [done|]. wp_step.
  apply (wp_done _ _ (bsize O) m1).
  { unfold load_size. by rewrite (spliced_sizes _ _ _ S), (rep_size _ _ _ _ RO). }
  wp_step. eapply wp_mono; [by eapply rep_store_size|].
  intros [] m2 (R2 & _ & En & Ez & Eb).
  assert (o ∉ b :: ls ++ lo) as Ho.
  { pose proof (rep_dll _ _ _ _ RO) as [[? _]%NoDup_cons _]. intros Hin.
    destruct (decide (o ∈ lo)); [done|]. eapply (A o); set_solver. }
  eapply wp_mono.
  { apply wp_reset.
    - rewrite En, (spliced_frame _ _ _ S) by done. eapply dll_nodes; [apply RO|set_solver].
    - rewrite Ez, lookup_insert_ne, (spliced_sizes _ _ _ S) by done.
      rewrite (rep_size _ _ _ _ RO). done.
    - apply R2. }
  intros [] m3 (R3 & Eb3 & F3). split_and!.
  - eapply rep_frame; [exact R2|apply R3|]. intros p Hp. apply F3. intros ->.
    apply Ho. rewrite elem_of_cons, Hls in Hp. set_solver.
  - unfold buf_moved. by destruct (exts O).
  - by rewrite Eb3, Eb, (spliced_brk _ _ _ S).
  - intros p Hp Hpo. destruct (F3 p) as [-> ->]; [set_solver|].
    rewrite En, Ez, lookup_insert_ne, (spliced_sizes _ _ _ S) by set_solver.
    rewrite (spliced_frame _ _ _ S); [done|]. set_solver.
Qed.

Lemma move_facts :
  exts O ≠ [] →
  NoDup (b :: ls ++ lo) ∧ chain m lo ∧ head lo = Some (firstof o lo) ∧
  last lo = Some (lastof o lo) ∧ (∀ p, p ∈ lo → is_Some (nodes m !! p)).
Proof.
  intros Hne. rewrite <- (rep_nil _ _ _ _ RO) in Hne.
  pose proof (rep_dll _ _ _ _ R) as [ND _].
  pose proof (rep_dll _ _ _ _ RO) as DO. pose proof DO as [[_ NDO]%NoDup_cons C].
  assert (last lo = Some (lastof o lo)) as Hl.
  { unfold lastof. destruct (last lo) eqn:E; [done|by apply last_None in E]. }
  assert (head lo = Some (firstof o lo)) as Hh.
  { unfold firstof. destruct (head lo) eqn:E; [done|by apply head_None in E]. }
  split_and!; [| | |done|].
  - rewrite app_comm_cons. apply NoDup_app. split_and!; [done| |done].
    intros p Hp Hpo. eapply (A p); set_solver.
  - change (o :: lo ++ [o]) with ([o] ++ (lo ++ [o])) in C.
    apply (chain_concat _ _ _ o (firstof o lo)) in C;
      [|done|by rewrite head_app, Hh].
    destruct C as (_ & _ & C). by apply (chain_concat _ _ _ (lastof o lo) o) in C as [? _].
  - done.
  - intros p Hp. eapply dll_nodes; [done|set_solver].
Qed.

Theorem refine_append_buffer :
  wp (BufferImpl_append_buffer b o) m (λ _ m',
    moved m' (ls ++ lo) (buf_append_buffer O L)).
Proof.
  unfold BufferImpl_append_buffer. wp_step. eapply wp_list_empty; [done|].
  unfold buf_append_buffer. destruct (decide (exts O = [])) as [Hnil|Hne].
  - rewrite bool_decide_true by done. wp_step. rewrite Hnil.
    pose proof Hnil as Hlo. rewrite <- (rep_nil _ _ _ _ RO) in Hlo.
    unfold moved, buf_moved. rewrite Hnil. revert RO. rewrite Hlo, app_nil_r. done.
  - rewrite bool_decide_false by done.
    destruct (move_facts Hne) as (ND & C & Hh & Hl & N).
    wp_step. eapply wp_load_first; [done|]. wp_step. eapply wp_load_last; [done|].
    wp_step. eapply wp_mono; [by eapply listAppend_dll; [apply R|..]|].
    intros [] m1 [D1 S1]. destruct (exts O) as [|e es] eqn:EO; [done|]. rewrite <- EO.
    apply wp_move_tail; [done|done|done| | |by rewrite EO].
    + apply Forall2_app; [apply R|apply RO].
    + apply Forall_app. split; [apply R|apply RO].
Qed.

Theorem refine_prepend_buffer :
  wp (BufferImpl_prepend_buffer b o) m (λ _ m',
    moved m' (lo ++ ls) (buf_prepend_buffer O L)).
Proof.
  unfold BufferImpl_prepend_buffer. wp_step. eapply wp_list_empty; [done|].
  unfold buf_prepend_buffer. destruct (decide (exts O = [])) as [Hnil|Hne].
  - rewrite bool_decide_true by done. wp_step. rewrite Hnil.
    pose proof Hnil as Hlo. rewrite <- (rep_nil _ _ _ _ RO) in Hlo.
    unfold moved, buf_moved. rewrite Hnil. revert RO. by rewrite Hlo.
  - rewrite bool_decide_false by done.
    destruct (move_facts Hne) as (ND & C & Hh & Hl & N).
    wp_step. eapply wp_load_first; [done|]. wp_step. eapply wp_load_last; [done|].
    wp_step. eapply wp_mono; [by eapply listPrepend_dll; [apply R|..]|].
    intros [] m1 [D1 S1]. destruct (exts O) as [|e es] eqn:EO; [done|]. rewrite <- EO.
    apply wp_move_tail; [done|done|set_solver| | |by rewrite EO].
    + apply Forall2_app; [apply RO|apply R].
    + apply Forall_app. split; [apply RO|apply R].
Qed.
End move.
