(* ===== verification/BufferSpec.v ===== *)
(** * Buffers as byte strings

    What the operations of a buffer mean to its client: the header
    [src/wte/buffer.h].  [contents L bss] says that the list model [L] holds the
    byte strings [bss], one per extent, with no reserved space; [holds] says the
    same of a buffer in memory.  The theorems give the effect of every operation
    on that string: exactly what the header promises for [append], [drain] and
    the moving operations, and, for [prepend], [read], [peek] and [reserve], the
    conditions under which the promise holds and what happens outside them. *)

From S2P Require Import Prelude Extent Dll Buffer BufferModel BufferRefine BufferWalk.

(** ** Pasting into an array *)

(** [out] with the cells of [s] from position [t] on. *)
Definition pasted {A} (out : list A) (t : nat) (s : list A) : list A :=
  take t out ++ s ++ drop (t + length s) out.

Lemma pasted_nil {A} (out : list A) t : pasted out t [] = out.
Proof. unfold pasted. simpl. by rewrite Nat.add_0_r, take_drop. Qed.

Lemma pasted_none {A B} (f : A → B) (out : list B) t : pasted out t (f <$> []) = out.
Proof. apply pasted_nil. Qed.

Lemma pasted_app {A} (out : list A) t s1 s2 :
  (t + length s1 ≤ length out)%nat →
  pasted (pasted out t s1) (t + length s1) s2 = pasted out t (s1 ++ s2).
Proof.
  intros Hl. unfold pasted. rewrite length_app.
  assert (length (take t out) = t) as Ht by (rewrite length_take; lia).
  rewrite (app_assoc (take t out) s1).
  rewrite take_app_length' by (rewrite length_app; lia).
  rewrite drop_app_ge by (rewrite length_app; lia).
  rewrite length_app, Ht, drop_drop, <- !app_assoc.
  do 3 f_equal. f_equal. lia.
Qed.

(** Pasting behind the first [n] cells. *)
Lemma pasted_drop {A} (out : list A) n s : take n out ++ pasted (drop n out) 0 s = pasted out n s.
Proof. unfold pasted. by rewrite drop_drop. Qed.

Lemma pasted_length {A} (out : list A) t s :
  (t + length s ≤ length out)%nat → length (pasted out t s) = length out.
Proof. intros. unfold pasted. rewrite !length_app, length_take, length_drop. lia. Qed.

(** [copyout] pastes a prefix of the extent. *)
Lemma copyout_pasted e bs (out : list cell) pos size :
  packed e bs → 0 ≤ size → 0 ≤ pos →
  pos + size `min` zlength bs ≤ zlength out →
  InternalExtent_copyout out pos size e =
    Done (size `min` zlength bs,
          pasted out (Z.to_nat pos) (Some <$> take (Z.to_nat size) bs)) e.
Proof.
  intros P Hs Hp Ho. erewrite copyout_packed by done. unfold pasted.
  rewrite length_fmap, length_take. do 4 f_equal. f_equal. lia.
Qed.

(** ** Byte strings in extents *)

Record contents (L : Buf) (bss : list (list byte)) : Prop := {
  c_packed : Forall2 packed (exts L) bss;
  c_size : bsize L = zlength (concat bss);
  c_bound : zlength (concat bss) < W64;
}.

Lemma contents_empty : contents empty_buf [].
Proof. split; [constructor|done|done]. Qed.

Lemma contents_read_bound L bss : contents L bss → is_u64 (bsize L).
Proof. intros [_ -> ?]. split; lia. Qed.

(** [drain] on the strings. *)
Fixpoint drain_chunks (n : Z) (bss : list (list byte)) : list (list byte) :=
  match bss with
  | [] => []
  | bs :: bss' =>
      if 0 <? n then
        if zlength bs <=? n then drain_chunks (n - zlength bs) bss'
        else drop (Z.to_nat n) bs :: bss'
      else bss
  end.

Lemma concat_drain_chunks n bss :
  0 ≤ n → concat (drain_chunks n bss) = drop (Z.to_nat n) (concat bss).
Proof.
  revert n. induction bss as [|bs bss IH]; intros n Hn; simpl; [by rewrite drop_nil|].
  zbool; simpl.
  - rewrite IH by lia. rewrite drop_app_ge by lia. f_equal. lia.
  - by rewrite drop_app_le by lia.
  - by replace n with 0 by lia.
Qed.

Lemma drain_chunks_all n bss : zlength (concat bss) < n → drain_chunks n bss = [].
Proof.
  revert n. induction bss as [|bs bss IH]; intros n Hn; [done|]. simpl in *.
  rewrite length_app in Hn. rewrite (proj2 (Z.ltb_lt _ _)), (proj2 (Z.leb_le _ _)) by lia.
  apply IH. lia.
Qed.

Lemma packed_min_consume e bs n :
  packed e bs → 0 ≤ n →
  let c := n `min` zlength bs in
  let e' := set_read_offset (read_offset e +₆₄ c) e in
  packed e' (drop (Z.to_nat n) bs) ∧ readable e' = zlength bs - c.
Proof.
  intros P Hn c e'. destruct (packed_consume e bs P c) as [_ P']; [lia|].
  assert (drop (Z.to_nat c) bs = drop (Z.to_nat n) bs) as E.
  { unfold c. destruct (decide (n ≤ zlength bs)); [by rewrite Z.min_l by lia|].
    rewrite !drop_ge; [done|lia|lia]. }
  rewrite E in P'. split; [done|]. unfold e'. rewrite (packed_readable _ _ P').
  rewrite length_drop. lia.
Qed.

Lemma drain_exts_packed es bss n :
  Forall2 packed es bss → is_u64 n →
  Forall2 packed (drain_exts n es).1 (drain_chunks n bss) ∧
  (drain_exts n es).2 = n - n `min` zlength (concat bss).
Proof.
  intros F. revert n. induction F as [|e bs es bss P F IH]; intros n Hn.
  { simpl. split; [constructor|unfold is_u64 in Hn; lia]. }
  unfold is_u64 in Hn. simpl. destruct (Z.ltb_spec 0 n) as [Hpos|Hz].
  2:{ simpl. split; [by constructor|]. lia. }
  rewrite (packed_readable _ _ P).
  destruct (packed_min_consume e bs n P) as [P' ->]; [lia|].
  rewrite u64_sub_small by lia. rewrite length_app.
  destruct (Z.eqb_spec (zlength bs - n `min` zlength bs) 0) as [Hd|Hd].
  - rewrite (proj2 (Z.leb_le _ _)) by lia. rewrite Z.min_r by lia.
    destruct (IH (n - zlength bs)) as [IH1 IH2]; [unfold is_u64; lia|].
    split; [done|]. rewrite IH2. lia.
  - rewrite (proj2 (Z.leb_gt _ _)) by lia. simpl. split; [by constructor|lia].
Qed.

Lemma buf_drain_ok L bss n :
  contents L bss → is_u64 n →
  ∃ L', buf_drain n L = Done tt L' ∧ contents L' (drain_chunks n bss).
Proof.
  intros [F Es Eb] Hn. destruct (drain_exts_packed _ _ n F Hn) as [F' Er].
  unfold buf_drain, modify. destruct (drain_exts n (exts L)) as [es r]. simpl in *. subst r.
  eexists. split; [done|]. unfold is_u64 in Hn. split; simpl; [done|..].
  - rewrite Es, concat_drain_chunks, length_drop by lia.
    rewrite (u64_sub_small n), u64_sub_small by lia. lia.
  - rewrite concat_drain_chunks, length_drop by lia. lia.
Qed.

(** Copying [size] bytes out of the extents asks each of them for [size] bytes;
    [copy_exact] says that the copies end exactly where they should. *)
Fixpoint copy_exact (size : Z) (bss : list (list byte)) (total : Z) : bool :=
  match bss with
  | [] => true
  | bs :: bss' =>
      if total <? size then
        let n := size `min` zlength bs in
        (total + n <=? size) && copy_exact size bss' (total + n)
      else true
  end.

(** It always holds when all of the contents is asked for. *)
Lemma copy_exact_all size bss total :
  0 ≤ total → total + zlength (concat bss) ≤ size → copy_exact size bss total = true.
Proof.
  revert total. induction bss as [|bs bss IH]; intros total Ht Hs; simpl in *; [done|].
  rewrite length_app in Hs. destruct (Z.ltb_spec total size); [|done].
  rewrite Z.min_r by lia.
  rewrite (proj2 (Z.leb_le _ _)) by lia. simpl. apply IH; lia.
Qed.

(** And when the first extent has all that is asked for. *)
Lemma copy_exact_first size bs bss :
  0 ≤ size ≤ zlength bs → copy_exact size (bs :: bss) 0 = true.
Proof.
  intros Hs. simpl. destruct (Z.ltb_spec 0 size); [|done]. rewrite Z.min_l by lia.
  rewrite (proj2 (Z.leb_le _ _)) by lia. simpl. destruct bss; [done|].
  simpl. by rewrite (proj2 (Z.ltb_ge _ _)) by lia.
Qed.

(** The bytes of one extent and of the rest, under exactness. *)
Lemma take_exact size total (bs rest : list byte) :
  0 ≤ total < size → total + size `min` zlength bs ≤ size →
  take (Z.to_nat (size - total)) (bs ++ rest) =
  take (Z.to_nat size) bs ++ take (Z.to_nat (size - (total + size `min` zlength bs))) rest.
Proof.
  intros Ht He. destruct (decide (zlength bs ≤ size)).
  - rewrite Z.min_r in * by lia. rewrite (take_ge bs) by lia.
    rewrite take_app_ge by lia. do 2 f_equal. lia.
  - rewrite Z.min_l in * by lia. assert (total = 0) as -> by lia.
    rewrite Z.sub_0_r, take_app_le by lia.
    replace (Z.to_nat (size - (0 + size))) with 0%nat by lia. by rewrite app_nil_r.
Qed.

Lemma peek_exts_packed size es bss total out :
  Forall2 packed es bss → is_u64 size → 0 ≤ total ≤ size → size ≤ zlength out →
  copy_exact size bss total = true →
  peek_exts size es total total out =
    Done (total + (size - total) `min` zlength (concat bss),
          pasted out (Z.to_nat total)
            (Some <$> take (Z.to_nat (size - total)) (concat bss))) tt.
Proof.
  intros F Hsz. unfold is_u64 in Hsz. revert total out.
  induction F as [|e bs es bss P F IH]; intros total out Ht Ho He.
  { simpl. rewrite take_nil, pasted_none. do 2 f_equal. lia. }
  simpl in He |- *. revert He. destruct (Z.ltb_spec total size) as [Hlt|Hge].
  2:{ intros _. replace (size - total) with 0 by lia. simpl. rewrite pasted_nil.
      do 2 f_equal. lia. }
  rewrite andb_true_iff, Z.leb_le. intros [He Hx].
  rewrite (copyout_pasted e bs) by (done || lia).
  assert (length (take (Z.to_nat size) bs) = Z.to_nat (size `min` zlength bs)) as Hn
    by (rewrite length_take; lia).
  rewrite (u64_add_small total) by lia.
  rewrite IH; [|lia|rewrite pasted_length by (rewrite length_fmap; lia); lia|done].
  rewrite length_app. f_equal. f_equal; [lia|].
  replace (Z.to_nat (total + size `min` zlength bs))
    with (Z.to_nat total + length (Some <$> take (Z.to_nat size) bs))%nat
    by (rewrite length_fmap; lia).
  rewrite pasted_app by (rewrite length_fmap; lia).
  by rewrite <- fmap_app, take_exact by lia.
Qed.

Lemma peek_exts_overrun size es bss total out :
  Forall2 packed es bss → is_u64 size → 0 ≤ total ≤ size → zlength out = size →
  copy_exact size bss total = false →
  peek_exts size es total total out = Faults OutOfBounds.
Proof.
  intros F Hsz. unfold is_u64 in Hsz. revert total out.
  induction F as [|e bs es bss P F IH]; intros total out Ht Ho He; [done|].
  simpl in He |- *. revert He. destruct (Z.ltb_spec total size) as [Hlt|Hge]; [|done].
  destruct (Z.leb_spec (total + size `min` zlength bs) size) as [Hle|Hgt]; simpl; intros He.
  - rewrite (copyout_pasted e bs) by (done || lia).
    rewrite (u64_add_small total) by lia. apply IH; [lia| |done].
    rewrite pasted_length; [done|]. rewrite length_fmap, length_take. lia.
  - by rewrite (copyout_packed_overrun e bs) by (done || lia).
Qed.

Lemma read_exts_packed size es bss s total out :
  Forall2 packed es bss → is_u64 size → 0 ≤ total ≤ size → size ≤ zlength out →
  zlength (concat bss) ≤ s < W64 → copy_exact size bss total = true →
  let k := (size - total) `min` zlength (concat bss) in
  ∃ es', Forall2 packed es' (drain_chunks (size - total) bss) ∧
    read_exts size es s total total out =
      Done (total + k,
            pasted out (Z.to_nat total)
              (Some <$> take (Z.to_nat (size - total)) (concat bss)))
           (mkBuf es' (s - k)).
Proof.
  intros F Hsz. unfold is_u64 in Hsz. revert s total out.
  induction F as [|e bs es bss P F IH]; intros s total out Ht Ho Hs He.
  { exists []. split; [constructor|]. simpl. rewrite take_nil, pasted_none. do 3 f_equal; lia. }
  simpl in He, Hs |- *. rewrite length_app in Hs |- *.
  revert He. destruct (Z.ltb_spec total size) as [Hlt|Hge].
  2:{ intros _. rewrite (proj2 (Z.ltb_ge _ _)) by lia. eexists. split; [by constructor|].
      replace (size - total) with 0 by lia. simpl. rewrite pasted_nil. do 3 f_equal; lia. }
  rewrite andb_true_iff, Z.leb_le. intros [He Hx].
  rewrite (copyout_pasted e bs) by (done || lia).
  destruct (packed_min_consume e bs size P) as [P' ->]; [lia|].
  assert (length (take (Z.to_nat size) bs) = Z.to_nat (size `min` zlength bs)) as Hn
    by (rewrite length_take; lia).
  rewrite (u64_add_small total), (u64_sub_small s) by lia.
  rewrite (proj2 (Z.ltb_lt _ _)) by lia.
  destruct (Z.eqb_spec (zlength bs - size `min` zlength bs) 0) as [Hd|Hd].
  - assert (size `min` zlength bs = zlength bs) as Hm by lia. rewrite ?Hm in *.
    destruct (IH (s - zlength bs) (total + zlength bs)
      (pasted out (Z.to_nat total) (Some <$> take (Z.to_nat size) bs))) as (es' & F' & ->);
      [lia|rewrite pasted_length by (rewrite length_fmap; lia); lia|lia|done|].
    exists es'. rewrite (proj2 (Z.leb_le _ _)) by lia.
    replace (size - total - zlength bs) with (size - (total + zlength bs)) by lia.
    split; [done|].
    replace (Z.to_nat (total + zlength bs))
      with (Z.to_nat total + length (Some <$> take (Z.to_nat size) bs))%nat
      by (rewrite length_fmap; lia).
    rewrite pasted_app by (rewrite length_fmap; lia).
    rewrite <- fmap_app, (take_exact size total bs), Hm by lia.
    do 2 f_equal; lia.
  - assert (size `min` zlength bs = size) as Hm by lia. rewrite ?Hm in *.
    assert (total = 0) as -> by lia.
    rewrite (proj2 (Z.leb_gt _ _)) by lia. rewrite Z.sub_0_r.
    eexists. split; [by constructor|]. rewrite (take_app_le bs) by lia.
    do 2 f_equal; lia.
Qed.

Lemma read_exts_overrun size es bss s total out :
  Forall2 packed es bss → is_u64 size → 0 ≤ total ≤ size → zlength out = size →
  copy_exact size bss total = false →
  read_exts size es s total total out = Faults OutOfBounds.
Proof.
  intros F Hsz. unfold is_u64 in Hsz. revert s total out.
  induction F as [|e bs es bss P F IH]; intros s total out Ht Ho He; [done|].
  simpl in He |- *. revert He. destruct (Z.ltb_spec total size) as [Hlt|Hge]; [|done].
  destruct (Z.leb_spec (total + size `min` zlength bs) size) as [Hle|Hgt]; simpl; intros He.
  - rewrite (copyout_pasted e bs) by (done || lia).
    destruct (packed_min_consume e bs size P) as [P' ->]; [lia|].
    rewrite (u64_add_small total) by lia.
    destruct (Z.eqb_spec (zlength bs - size `min` zlength bs) 0) as [Hd|Hd].
    + apply IH; [lia| |done].
      rewrite pasted_length; [done|]. rewrite length_fmap, length_take. lia.
    + exfalso. replace (total + size `min` zlength bs) with size in He by lia. destruct bss; [done|]. simpl in He.
      by rewrite Z.ltb_irrefl in He.
  - by rewrite (copyout_packed_overrun e bs) by (done || lia).
Qed.

Lemma buf_read_ok L bss (out : list cell) size :
  contents L bss → is_u64 size → size ≤ zlength out → copy_exact size bss 0 = true →
  ∃ L', buf_read out size L =
      Done (size `min` zlength (concat bss), pasted out 0 (Some <$> take (Z.to_nat size) (concat bss))) L' ∧
    contents L' (drain_chunks size bss).
Proof.
  intros [F Es Eb] Hsize Ho He. pose proof Hsize as Hs. unfold is_u64 in Hs.
  destruct (read_exts_packed size (exts L) bss (bsize L) 0 out F Hsize) as (es & F' & E);
    [lia|lia|lia|done|].
  unfold buf_read. rewrite E, !Z.sub_0_r, Z.add_0_l in *. eexists. split; [done|].
  split; simpl; [done|..]; rewrite concat_drain_chunks, length_drop by lia; lia.
Qed.

(** ** [peek] with extents *)

(** The granted extents, in order, hold the requested prefix. *)
Lemma peek_extents_packed L size es bss i total :
  Forall2 packed es bss → is_u64 size → 0 ≤ total →
  total + zlength (concat bss) < W64 →
  (∀ j e, es !! j = Some e → exts L !! (i + j)%nat = Some e) →
  mjoin (grant_cells L <$> peek_extents size es i total) =
    Some <$> take (Z.to_nat (size - total)) (concat bss).
Proof.
  intros F Hsz. unfold is_u64 in Hsz. revert i total.
  induction F as [|e bs es bss P F IH]; intros i total Ht Hb Hl; [simpl; by rewrite take_nil|].
  simpl in Hb |- *. rewrite length_app in Hb. destruct (Z.ltb_spec total size) as [Hlt|Hge].
  2:{ by replace (Z.to_nat (size - total)) with 0%nat by lia. }
  rewrite (packed_readable _ _ P), (u64_add_small total), (u64_sub_small size) by lia.
  rewrite fmap_app, join_app, IH; [|lia|lia|].
  2:{ intros j e' Hj. rewrite Nat.add_succ_comm. by apply Hl. }
  assert (take (Z.to_nat (size - total)) (bs ++ concat bss) =
    take (Z.to_nat (zlength bs `min` (size - total))) bs ++
    take (Z.to_nat (size - (total + zlength bs))) (concat bss)) as ->.
  { rewrite take_app. f_equal; [|f_equal; lia].
    destruct (decide (zlength bs ≤ size - total)); [|f_equal; lia].
    rewrite !take_ge; [done|lia|lia]. }
  rewrite fmap_app. f_equal.
  destruct (Z.ltb_spec 0 (zlength bs)).
  - simpl. assert (exts L !! i = Some e) as -> by (rewrite <- (Nat.add_0_r i); by apply Hl).
    rewrite (packed_slice _ _ P) by lia. simpl. by rewrite app_nil_r.
  - assert (length bs = 0%nat) as ->%nil_length_inv by lia. by rewrite take_nil.
Qed.

(** And none of them is empty. *)
(** Asked for everything, it grants the strings one by one. *)
Lemma peek_extents_all L es bss i total :
  Forall2 packed es bss → Forall (λ bs, bs ≠ []) bss → 0 ≤ total →
  total + zlength (concat bss) < W64 →
  (∀ j e, es !! j = Some e → exts L !! (i + j)%nat = Some e) →
  grant_cells L <$> peek_extents SIZE_MAX es i total = fmap Some <$> bss.
Proof.
  intros F. revert i total. induction F as [|e bs es bss P F IH]; intros i total Hn Ht Hb HL; [done|].
  inversion Hn as [|? ? Hbs Hbss]; subst. simpl in *. rewrite length_app in Hb.
  assert (0 < zlength bs) as Hpos by (destruct bs; simpl; [done|lia]).
  unfold SIZE_MAX at 1. destruct (Z.ltb_spec total (W64 - 1)); [|lia].
  rewrite (packed_readable _ _ P). destruct (Z.ltb_spec 0 (zlength bs)); [|lia].
  simpl. rewrite u64_sub_small by (unfold SIZE_MAX; lia). rewrite Z.min_l by (unfold SIZE_MAX; lia).
  specialize (HL 0%nat e eq_refl) as HL0. rewrite Nat.add_0_r in HL0. rewrite HL0.
  rewrite (packed_slice _ _ P) by lia. rewrite take_ge by lia. simpl. f_equal.
  apply IH; [done|rewrite u64_small by (unfold is_u64; lia); lia|
    rewrite u64_small by (unfold is_u64; lia); lia|].
  intros j e' Hj. specialize (HL (S j) e' Hj). by rewrite <- HL, Nat.add_succ_comm.
Qed.

Lemma buf_peek_all L bss :
  contents L bss → Forall (λ bs, bs ≠ []) bss →
  grant_cells L <$> buf_peek_extents SIZE_MAX L = fmap Some <$> bss.
Proof. intros [F _ Eb] Hn. by apply peek_extents_all. Qed.

Lemma peek_extents_pos size es i total :
  is_u64 size → is_u64 total →
  Forall (λ g, 0 < g.1.1) (peek_extents size es i total).
Proof.
  intros Hs. unfold is_u64 in *. revert i total.
  induction es as [|e es IH]; intros i total Ht; simpl; [done|].
  destruct (Z.ltb_spec total size) as [Hlt|]; [|done].
  apply Forall_app. split; [|by apply IH, u64_range].
  destruct (Z.ltb_spec 0 (readable e)); [|done].
  repeat constructor. simpl. rewrite u64_sub_small by lia. lia.
Qed.

(** ** What a new extent holds *)

(** [append] looks at the first [size] cells of its source only. *)
Lemma InternalExtent_append_take (buf : list cell) size e :
  0 ≤ size ≤ zlength buf →
  InternalExtent_append buf size e = InternalExtent_append (take (Z.to_nat size) buf) size e.
Proof.
  intros Hs. unfold InternalExtent_append, ext_memcpy, mbind, M_bind, get.
  case_match; [done|].
  pose proof (u64_range (write_offset e - extent_size e)) as [? _].
  rewrite !slice_ok by (rewrite ?length_take; lia). simpl.
  rewrite !drop_0, take_take. do 4 f_equal.
  rewrite Nat.min_l by lia. done.
Qed.

Section alloc.
Context `{Allocator}.

(** Filling a new extent with the first [k] bytes of the data. *)
Lemma append_fresh_take (t : list byte) k :
  0 ≤ k ≤ zlength t → k ≤ max_new →
  InternalExtent_append (Some <$> t) k
    (fresh_ext k) =
  Done k (filled (take (Z.to_nat k) t)).
Proof.
  intros Hk Hm. rewrite InternalExtent_append_take by (rewrite length_fmap; lia).
  rewrite <- fmap_take. unfold fresh_ext.
  assert (k = zlength (take (Z.to_nat k) t)) as E by (rewrite length_take; lia).
  rewrite E at 2 3 4 5. rewrite Nat2Z.id. rewrite append_fresh by lia. by rewrite <- E.
Qed.

(** ** [append] *)

Lemma buf_append_new L (t : list byte) :
  (∀ e, last (exts L) = Some e → appendable e = 0) →
  buf_append (Some <$> t) (zlength t) L =
    if zlength t <=? max_new
    then Done tt (mkBuf (exts L ++ [filled t]) (bsize L +₆₄ zlength t))
    else Throws bad_alloc L.
Proof.
  intros Hlast. unfold buf_append. rewrite (bind_done get _ L L L) by done.
  assert (∀ (k : unit → M Buf unit),
    ((match last (exts L) with
     | Some e => when (appendable e =? 0) (e ← InternalExtent_new (zlength t); push_back e)
     | None => e ← InternalExtent_new (zlength t); push_back e
     end) ≫= k) L = ((e ← InternalExtent_new (zlength t); push_back e) ≫= k) L) as ->.
  { intros k. destruct (last (exts L)) eqn:E; [|done]. by rewrite (Hlast _ eq_refl). }
  destruct (Z.leb_spec (zlength t) max_new) as [Hm|Hm].
  - erewrite bind_done; [|by erewrite bind_done by (by apply InternalExtent_new_ok)].
    unfold at_ext, zoom, mbind, M_bind, get. simpl. rewrite length_app. simpl.
    replace (pred (length (exts L) + 1)) with (length (exts L)) by lia.
    rewrite list_lookup_middle by done. unfold fresh_ext; rewrite Nat2Z.id, append_fresh by done. simpl.
    unfold set_exts, set_bsize; simpl. do 3 f_equal.
    rewrite insert_app_r_alt by lia. by rewrite Nat.sub_diag.
  - by rewrite (bind_throws _ _ _ bad_alloc L)
      by (by rewrite (bind_throws _ _ _ bad_alloc L) by by apply InternalExtent_new_throws).
Qed.

Lemma contents_last L bss e : contents L bss → last (exts L) = Some e → appendable e = 0.
Proof.
  intros [F _ _] He. apply last_Some in He as [es E]. rewrite E in F.
  apply Forall2_app_inv_l in F as (? & ? & _ & F & _). inversion F; subst.
  by eapply packed_appendable.
Qed.

Lemma contents_snoc L bss t :
  contents L bss → zlength (concat bss) + zlength t < W64 →
  contents (mkBuf (exts L ++ [filled t]) (bsize L +₆₄ zlength t)) (bss ++ [t]).
Proof.
  intros [F Es Eb] Hb. split; simpl.
  - apply Forall2_app; [done|]. repeat constructor; try apply filled_packed; lia.
  - rewrite concat_app, length_app, Es. simpl. rewrite app_nil_r. rewrite u64_add_small; lia.
  - rewrite concat_app, length_app. simpl. rewrite app_nil_r. lia.
Qed.

(** ** [prepend] *)

Lemma push_front_new_eq L (t : list byte) k :
  0 ≤ k ≤ zlength t →
  push_front_new (Some <$> t) k L =
    if k <=? max_new
    then Done tt (set_exts (filled (take (Z.to_nat k) t) :: exts L) L)
    else Throws bad_alloc L.
Proof.
  intros Hk. unfold push_front_new. destruct (Z.leb_spec k max_new) as [Hm|Hm].
  - erewrite bind_done by (by apply InternalExtent_new_ok).
    unfold push_front, at_ext, zoom, mbind, M_bind, modify, set_exts; simpl.
    by rewrite append_fresh_take.
  - by rewrite (bind_throws _ _ _ bad_alloc L) by by apply InternalExtent_new_throws.
Qed.

(** The cells in front of the read offset of the first extent: what was consumed
    of it. *)
Definition consumed (L : Buf) : list cell :=
  match exts L with
  | e :: _ => take (Z.to_nat (read_offset e)) (extent_data e)
  | [] => []
  end.

(** What a reader finds in front of the old contents after [prepend t], when
    [pre] was consumed of the first extent. *)
Definition front (t pre : list byte) : list (list byte) :=
  if decide (length t ≤ length pre)%nat
  then [drop (length pre - length t) (t ++ drop (length t) pre)]
  else [take (length t - length pre) t; take (length pre) t].

(** The strings after [prepend t]: a new extent, or the first one rewritten. *)
Definition prepend_chunks (t pre : list byte) (bss : list (list byte)) : list (list byte) :=
  match pre, front t pre, bss with
  | [], _, _ => t :: bss
  | _, [u], bs :: bss' => (u ++ bs) :: bss'
  | _, [u; v], bs :: bss' => u :: (v ++ bs) :: bss'
  | _, _, _ => t :: bss
  end.

Lemma prepend_chunks_concat t pre bss :
  (bss = [] → pre = []) → concat (prepend_chunks t pre bss) = concat (front t pre) ++ concat bss.
Proof.
  intros Hb. unfold prepend_chunks, front. destruct pre as [|c pre].
  - case_decide as Hd; simpl in *.
    + assert (t = []) as -> by (apply nil_length_inv; lia). done.
    + rewrite Nat.sub_0_r, firstn_all; simpl. by rewrite ?take_0, ?app_nil_r.
  - destruct bss as [|bs bss]; [naive_solver|].
    case_decide; simpl; by rewrite ?app_nil_r, <- !app_assoc.
Qed.

(** Where the front is right: nothing consumed, or as much as is prepended. *)
Lemma front_right t pre : pre = [] ∨ length pre = length t → concat (front t pre) = t.
Proof.
  unfold front. intros [->|E]; case_decide; simpl in *.
  - by assert (t = []) as -> by (apply nil_length_inv; lia).
  - rewrite Nat.sub_0_r, firstn_all; simpl. by rewrite ?take_0, ?app_nil_r.
  - rewrite E, Nat.sub_diag, (drop_ge pre) by lia. by rewrite !app_nil_r.
  - lia.
Qed.

Lemma front_length t pre : length (concat (front t pre)) = length t.
Proof.
  unfold front. case_decide; simpl; repeat rewrite ?length_app, ?length_drop, ?length_take;
    simpl; lia.
Qed.

Lemma buf_prepend_front L t :
  (∀ e es, exts L = e :: es → read_offset e = 0) →
  buf_prepend (Some <$> t) (zlength t) L =
    if zlength t <=? max_new
    then Done tt (mkBuf (filled t :: exts L) (bsize L +₆₄ zlength t))
    else Throws bad_alloc L.
Proof.
  intros H0. unfold buf_prepend. rewrite (bind_done get _ L L L) by done.
  assert (∀ A (k : unit → M Buf A) x y z,
    ((match exts L with
      | e :: _ => if prependable e =? 0 then x else y e
      | [] => z
      end) ≫= k) L = (match exts L with [] => z | _ => x end ≫= k) L) as ->.
  { intros. destruct (exts L) as [|e es] eqn:E; [done|].
    unfold prependable. by rewrite (H0 e es eq_refl). }
  assert (∀ A (k : unit → M Buf A) x,
    (match exts L with [] => x | _ => x end ≫= k) L = (x ≫= k) L) as ->.
  { intros. by destruct (exts L). }
  destruct (Z.leb_spec (zlength t) max_new) as [Hm|Hm].
  - erewrite bind_done; [|rewrite push_front_new_eq by lia; by rewrite (proj2 (Z.leb_le _ _))].
    rewrite Nat2Z.id, firstn_all. done.
  - erewrite bind_throws; [done|].
    rewrite push_front_new_eq by lia. by rewrite (proj2 (Z.leb_gt _ _)).
Qed.

(** Prepending [t] into the space of the consumed bytes [pre]. *)
Lemma prepend_packed e bs pre t :
  packed e bs → take (Z.to_nat (read_offset e)) (extent_data e) = Some <$> pre →
  ∃ e', packed e' (drop (length pre - length t) (take (length pre) t ++ drop (length t) pre) ++ bs) ∧
    InternalExtent_prepend (Some <$> t) (zlength t) e =
      Done (zlength pre `min` zlength t) e'.
Proof.
  intros P Hpre. destruct P as [Hs Hu Hr Hw Hd].
  assert (read_offset e = zlength pre) as Er.
  { apply (f_equal length) in Hpre. rewrite length_take, length_fmap in Hpre. lia. }
  assert (extent_data e = Some <$> (pre ++ bs)) as Ed.
  { rewrite fmap_app, <- Hpre, <- Hd. by rewrite take_drop. }
  pose proof (InternalExtent_prepend_spec e (Some <$> t) Hs Hu Hr) as E. cbv zeta in E.
  rewrite length_fmap, Er in E. eexists. split; [|exact E].
  unfold set_read_offset, set_data.
  split; simpl; rewrite ?Ed, ?Er, <- ?fmap_take, <- ?fmap_drop, <- ?fmap_app, <- ?fmap_drop; [|done|lia|done|].
  - rewrite Hs, Ed. rewrite !length_fmap, !length_app, length_take, length_drop, length_app. lia.
  - f_equal. rewrite Nat2Z.id.
    replace (Z.to_nat (zlength pre - zlength pre `min` zlength t))
      with (length pre - length t)%nat by lia.
    replace (Z.to_nat (zlength pre `min` zlength t)) with (length pre `min` length t)%nat by lia.
    destruct (decide (length t ≤ length pre)%nat).
    + rewrite Nat.min_r, (drop_app_le pre bs), app_assoc by lia.
      rewrite (drop_app_le _ bs); [done|]. rewrite length_app, length_take, length_drop. lia.
    + rewrite Nat.min_l, (drop_app_ge pre bs), Nat.sub_diag by lia.
      rewrite (drop_ge pre) by lia. rewrite app_nil_r.
      replace (length pre - length t)%nat with 0%nat by lia. done.
Qed.

Lemma buf_prepend_chunks L bss pre t :
  contents L bss → consumed L = Some <$> pre → zlength t ≤ max_new →
  zlength (concat bss) + zlength t < W64 →
  ∃ L', buf_prepend (Some <$> t) (zlength t) L = Done tt L' ∧
        contents L' (prepend_chunks t pre bss).
Proof.
  intros [F Es Eb] Hc Hm Hb. unfold consumed in Hc.
  destruct (decide (pre = [])) as [->|Hpre].
  { rewrite buf_prepend_front.
    - rewrite (proj2 (Z.leb_le _ _)) by lia. eexists. split; [done|].
      split; simpl; [constructor; [apply filled_packed; lia|done]|..].
      + rewrite length_app, Es, u64_add_small by lia. lia.
      + rewrite length_app. lia.
    - intros e es E. rewrite E in Hc, F. inversion F as [|? bs ? ? P]; subst.
      apply (f_equal length) in Hc. rewrite length_take in Hc. simpl in Hc.
      destruct P as [? ? ? ? Hd]. lia. }
  destruct (exts L) as [|e es] eqn:EL; [by destruct pre|].
  inversion F as [|? bs ? bss' P F']; subst. clear F.
  destruct (prepend_packed e bs pre t P Hc) as (e' & P' & E').
  assert (read_offset e = zlength pre) as Er.
  { apply (f_equal length) in Hc. rewrite length_take, length_fmap in Hc.
    destruct P. lia. }
  assert (zlength pre < W64) by (destruct P; unfold is_u64 in *; lia).
  assert (0 < length pre)%nat by (destruct pre; simpl; [done|lia]).
  unfold buf_prepend. rewrite (bind_done get _ L L L) by done. rewrite EL.
  unfold prependable. rewrite Er, (proj2 (Z.eqb_neq _ _)) by lia.
  rewrite bind_bind. erewrite bind_done.
  2:{ unfold at_ext, zoom. rewrite EL. simpl. by rewrite E'. }
  rewrite (u64_sub_small (zlength t)) by lia.
  simpl in Hb. rewrite length_app in Hb.
  unfold prepend_chunks, front. destruct pre as [|c pre0]; [done|]. set (pre := c :: pre0) in *.
  destruct (decide (length t ≤ length pre)%nat) as [Hle|Hgt].
  - rewrite (proj2 (Z.ltb_ge _ _)) by lia. eexists. split; [done|].
    rewrite take_ge in P' by lia.
    assert (length (drop (length pre - length t) (t ++ drop (length t) pre)) = length t) as Hf
      by (rewrite length_drop, length_app, length_drop; lia).
    split; simpl in *; [by constructor|..].
    + rewrite Es, !length_app, Hf, u64_add_small by lia. lia.
    + rewrite !length_app, Hf. lia.
  - rewrite (proj2 (Z.ltb_lt _ _)) by lia. unfold when.
    erewrite bind_done; [|rewrite push_front_new_eq by lia; by rewrite (proj2 (Z.leb_le _ _)) by lia].
    eexists. split; [done|].
    replace (length pre - length t)%nat with 0%nat in P' by lia.
    rewrite (drop_ge pre) in P' by lia. rewrite app_nil_r in P'.
    replace (Z.to_nat (zlength t - zlength pre `min` zlength t))
      with (length t - length pre)%nat by lia.
    split; simpl in *.
    + constructor; [|by constructor]. apply filled_packed. rewrite length_take. lia.
    + rewrite Es, !length_app, !length_take, u64_add_small by lia. lia.
    + rewrite !length_app, !length_take. lia.
Qed.

(** ** [reserve] *)

Lemma buf_reserve_new L n :
  (∀ e, last (exts L) = Some e → appendable e = 0) → is_u64 n →
  buf_reserve n L =
    if 0 <? n then
      if n <=? max_new then Done tt (set_exts (exts L ++ [fresh_ext n]) L)
      else Throws bad_alloc L
    else Done tt L.
Proof.
  intros Hlast Hn. unfold buf_reserve. rewrite (bind_done get _ L L L) by done. cbv zeta.
  assert (match last (exts L) with Some e => n -₆₄ appendable e | None => n end = n) as ->.
  { destruct (last (exts L)) eqn:E; [|done]. rewrite (Hlast _ eq_refl), Z.sub_0_r.
    by apply u64_small. }
  destruct (Z.ltb_spec 0 n) as [Hp|Hp]; [|done]. unfold when.
  destruct (Z.leb_spec n max_new) as [Hm|Hm].
  - by erewrite bind_done by (by apply InternalExtent_new_ok).
  - by rewrite (bind_throws _ _ _ bad_alloc L) by by apply InternalExtent_new_throws.
Qed.
End alloc.
