(* ===== verification/BufferProps.v ===== *)
(** * The buffer: its theorems

    The promises of [src/wte/buffer.h], proved of the pointer code of
    [Buffer.v]: each theorem composes the refinement of [BufferRefine.v] and
    [BufferWalk.v] (pointers to lists of extents) with the reading of
    [BufferSpec.v] (extents to bytes).  A [wp] conclusion includes that the
    operation terminates, throws nothing and touches no memory out of bounds. *)

From S2P Require Import Prelude Extent Dll Buffer BufferModel BufferRefine BufferWalk BufferSpec.

(** The buffer [b], with nodes [ls], holds the strings [bss] in its extents. *)
Definition holds (m : mem) (b : ptr) (ls : list ptr) (bss : list (list byte)) : Prop :=
  ∃ L, rep m b ls L ∧ contents L bss.

(** After an operation on [b]: what it holds now; the rest of memory is as it was. *)
Definition became (m : mem) (b : ptr) (ls : list ptr) (m' : mem) (bss' : list (list byte)) : Prop :=
  ∃ ls', holds m' b ls' bss' ∧ local_step m b ls m' ls'.

Lemma refines_wp {A} m b ls (c : M mem A) a L' :
  refines m b ls (c m) (Done a L') →
  wp c m (λ r m', r = a ∧ ∃ ls', rep m' b ls' L' ∧ local_step m b ls m' ls').
Proof. unfold wp. destruct (c m); simpl; try done. Qed.

Lemma refines_became {A} m b ls (c : M mem A) a L' bss' :
  refines m b ls (c m) (Done a L') → contents L' bss' →
  wp c m (λ r m', r = a ∧ became m b ls m' bss').
Proof.
  intros H C. eapply wp_mono; [by apply refines_wp|].
  intros r m' (-> & ls' & R & S). split; [done|]. exists ls'. split; [by exists L'|done].
Qed.

Lemma refines_throws {A} m b ls (c : M mem A) e L' :
  refines m b ls (c m) (Throws e L') →
  ∃ m', c m = Throws e m' ∧ ∃ ls', rep m' b ls' L' ∧ local_step m b ls m' ls'.
Proof. destruct (c m); simpl; naive_solver. Qed.

Lemma refines_faults {A} m b ls (c : M mem A) f :
  refines m b ls (c m) (Faults f : outcome Buf A) → c m = Faults f.
Proof. destruct (c m); simpl; naive_solver. Qed.

Lemma holds_size_bound m b ls bss : holds m b ls bss → is_u64 (zlength (concat bss)).
Proof. intros (L & _ & [_ _ ?]). split; lia. Qed.

(** ** Creation and destruction *)

Lemma mkBuffer_rep m :
  mem_ok m →
  wp Buffer_mkBuffer m (λ b m', rep m' b [] empty_buf ∧ b = brk m ∧
    (∀ p, p ≠ b → nodes m' !! p = nodes m !! p ∧ sizes m' !! p = sizes m !! p)).
Proof.
  intros (H0 & Hn & Hb). unfold Buffer_mkBuffer, BufferImpl_new, wp. simpl. split_and!.
  - split; simpl.
    + split; [apply NoDup_singleton|]. split; [|done]. split.
      * unfold nextof. cbn [nodes]. by rewrite lookup_insert_eq.
      * unfold prevof. cbn [nodes]. by rewrite lookup_insert_eq.
    + constructor.
    + apply lookup_insert_eq.
    + split_and!; simpl; [lia| |].
      * rewrite lookup_insert_ne; [done|]. unfold nullptr. lia.
      * intros p Hp. destruct (Hb p) as [? ?]; [lia|].
        rewrite !lookup_insert_ne by lia. done.
    + constructor.
  - done.
  - intros p Hp. by rewrite !lookup_insert_ne.
Qed.

Lemma mkBuffer_holds m :
  mem_ok m →
  wp Buffer_mkBuffer m (λ b m', holds m' b [] [] ∧ b = brk m ∧
    (∀ p, p ≠ b → nodes m' !! p = nodes m !! p ∧ sizes m' !! p = sizes m !! p)).
Proof.
  intros Hok. eapply wp_mono; [by apply mkBuffer_rep|]. intros b m' (R & E).
  split; [|done]. exists empty_buf. split; [done|apply contents_empty].
Qed.

(** The memory of a program before it allocates, and one with room for examples. *)
Definition mem0 : mem := mkMem ∅ ∅ 1.
Definition example_alloc : Allocator.
Proof. exists 1000. lia. Defined.

Lemma mem0_ok : mem_ok mem0.
Proof. by repeat split. Qed.

(** ** [append], [drain] *)

Section alloc.
Context `{Allocator}.

Lemma append_ok m b ls bss (t : list byte) :
  holds m b ls bss → zlength t ≤ max_new → zlength (concat bss) + zlength t < W64 →
  wp (BufferImpl_append_string b t) m (λ _ m', became m b ls m' (bss ++ [t])).
Proof.
  intros (L & R & C) Hm Hb.
  pose proof (refine_append m b ls L (Some <$> t) (zlength t) R) as S.
  rewrite buf_append_new in S by (intros; by eapply contents_last).
  rewrite (proj2 (Z.leb_le _ _)) in S by lia.
  eapply wp_mono; [eapply refines_became; [apply S; split; lia|by apply contents_snoc]|].
  by intros ? ? [_ ?].
Qed.

Lemma append_throws m b ls bss (t : list byte) :
  holds m b ls bss → max_new < zlength t → zlength t < W64 →
  ∃ m', BufferImpl_append_string b t m = Throws bad_alloc m' ∧ became m b ls m' bss.
Proof.
  intros (L & R & C) Hm Hb.
  pose proof (refine_append m b ls L (Some <$> t) (zlength t) R) as S.
  rewrite buf_append_new in S by (intros; by eapply contents_last).
  rewrite (proj2 (Z.leb_gt _ _)) in S by lia.
  destruct (refines_throws m b ls _ _ _ (S ltac:(split; lia))) as (m' & E & ls' & R' & S').
  exists m'. split; [done|]. exists ls'. split; [by exists L|done].
Qed.
End alloc.

Lemma drain_ok m b ls bss n :
  holds m b ls bss → is_u64 n →
  wp (BufferImpl_drain b n) m (λ _ m', became m b ls m' (drain_chunks n bss)).
Proof.
  intros (L & R & C) Hn. pose proof (refine_drain m b ls L n R Hn) as S.
  destruct (buf_drain_ok L bss n C Hn) as (L' & E & C'). rewrite E in S.
  eapply wp_mono; [eapply refines_became; [exact S|done]|by intros ? ? [_ ?]].
Qed.

(** ** The arrays of the client *)

Section copy.
Context (m : mem) (b : ptr) (ls : list ptr) (bss : list (list byte)) (H : holds m b ls bss).
Context (out : list cell) (size : Z) (Hsize : is_u64 size).

(** What the client's array holds after [size] bytes were asked for. *)
Definition got : list cell := pasted out 0 (Some <$> take (Z.to_nat size) (concat bss)).

Lemma read_ok :
  size ≤ zlength out → copy_exact size bss 0 = true →
  wp (BufferImpl_read b out size) m (λ r m',
    r = (size `min` zlength (concat bss), got) ∧
    became m b ls m' (drain_chunks size bss)).
Proof.
  intros Ho He. destruct H as (L & R & C).
  destruct (buf_read_ok L bss out size C Hsize Ho He) as (L' & E & C').
  pose proof (refine_read m b ls L out size R) as S. rewrite E in S.
  by eapply refines_became; [exact S|].
Qed.

Lemma read_overrun :
  zlength out = size → copy_exact size bss 0 = false →
  BufferImpl_read b out size m = Faults OutOfBounds.
Proof.
  intros Ho He. destruct H as (L & R & C). unfold is_u64 in Hsize.
  pose proof (refine_read m b ls L out size R) as S. unfold buf_read in S.
  rewrite (read_exts_overrun _ _ bss) in S by (done || lia || apply C).
  by eapply refines_faults.
Qed.

Lemma peek_ok :
  size ≤ zlength out → copy_exact size bss 0 = true →
  wp (BufferImpl_peek b out size) m (λ r m',
    r = (size `min` zlength (concat bss), got) ∧ became m b ls m' bss).
Proof.
  intros Ho He. destruct H as (L & R & C). unfold is_u64 in Hsize.
  pose proof (refine_peek m b ls L R out size) as S. unfold buf_peek, zoom in S.
  rewrite (peek_exts_packed size _ bss) in S by (done || lia || apply C).
  rewrite !Z.sub_0_r, Z.add_0_l in S. by eapply refines_became.
Qed.

Lemma peek_overrun :
  zlength out = size → copy_exact size bss 0 = false →
  BufferImpl_peek b out size m = Faults OutOfBounds.
Proof.
  intros Ho He. destruct H as (L & R & C). unfold is_u64 in Hsize.
  pose proof (refine_peek m b ls L R out size) as S. unfold buf_peek, zoom in S.
  rewrite (peek_exts_overrun _ _ bss) in S by (done || lia || apply C).
  by eapply refines_faults.
Qed.
End copy.

(** ** A buffer for the witnesses: "abc" and "de", in two extents *)

#[local] Existing Instance example_alloc.

Definition abc : list byte := bytes "abc".
Definition de : list byte := bytes "de".

Definition example_run : M mem ptr :=
  b ← Buffer_create;
  BufferImpl_append_string b abc;;
  BufferImpl_append_string b de;;
  mret b.
Definition after {A} (c : M mem A) (m : mem) : mem :=
  match c m with Done _ m' => m' | _ => m end.
Definition example_mem : mem := after example_run mem0.

Lemma wp_after {A} (c : M mem A) m Q : wp c m Q → ∃ a, Q a (after c m).
Proof. unfold wp, after. destruct (c m); naive_solver. Qed.

(** One step of an example: the outcome of the list model, computed. *)
Lemma refines_next {A} m b ls L (c : M mem A) (c' : M Buf A) a L' Q :
  (∀ ls, rep m b ls L → refines m b ls (c m) (c' L)) → rep m b ls L → c' L = Done a L' →
  (∀ r m' ls', rep m' b ls' L' → Q r m') → wp c m Q.
Proof.
  intros H R E HQ. specialize (H ls R). rewrite E in H.
  eapply wp_mono; [by apply refines_wp|]. intros r m' (_ & ls' & R' & _). eauto.
Qed.

Definition example_L : Buf := mkBuf [filled abc; filled de] 5.

Lemma example_rep : ∃ ls, rep example_mem 1 ls example_L.
Proof.
  assert (wp example_run mem0 (λ b m, b = 1%N ∧ ∃ ls, rep m b ls example_L)) as W.
  { unfold example_run. wp_step. eapply wp_mono; [by apply mkBuffer_rep, mem0_ok|].
    intros b m1 (R1 & -> & _). wp_step.
    eapply refines_next; [intros; by apply refine_append|exact R1|reflexivity|].
    intros _ m2 ls2 R2. wp_step.
    eapply refines_next; [intros; by apply refine_append|exact R2|reflexivity|].
    intros _ m3 ls3 R3. wp_step. eauto. }
  apply wp_after in W as (b & -> & ls & Hh). by exists ls.
Qed.

Lemma example_contents : contents example_L [abc; de].
Proof. split; [|done|done]. repeat constructor; vm_compute; discriminate || done. Qed.

Lemma example_holds : ∃ ls, holds example_mem 1 ls [abc; de].
Proof.
  destruct example_rep as [ls R]. exists ls, example_L. split; [done|apply example_contents].
Qed.

(** The same buffer after two bytes were drained from it: "c", "de". *)
Definition drained_mem : mem := after (BufferImpl_drain 1 2) example_mem.
Definition drained_L : Buf := mkBuf [set_read_offset 2 (filled abc); filled de] 3.

Lemma drained_rep : ∃ ls, rep drained_mem 1 ls drained_L.
Proof.
  destruct example_rep as [ls R].
  assert (wp (BufferImpl_drain 1 2) example_mem (λ _ m, ∃ ls, rep m 1 ls drained_L)) as W.
  { eapply refines_next; [intros; by apply refine_drain|exact R|reflexivity|]. eauto. }
  by apply wp_after in W as (_ & W).
Qed.

Lemma drained_contents : contents drained_L [bytes "c"; de].
Proof. split; [|done|done]. repeat constructor; vm_compute; discriminate || done. Qed.

(** ** What the buffer promises *)

(** C1: [append] adds the bytes of the client at the end of the contents, and
    nothing else of memory changes; when the allocator refuses, it throws
    [bad_alloc] and the contents are what they were. *)
Theorem append_appends `{Allocator} m b ls bss t :
  holds m b ls bss → zlength (concat bss) + zlength t < W64 →
  (zlength t ≤ max_new →
   wp (BufferImpl_append_string b t) m (λ _ m',
     ∃ bss', concat bss' = concat bss ++ t ∧ became m b ls m' bss')) ∧
  (max_new < zlength t →
   ∃ m', BufferImpl_append_string b t m = Throws bad_alloc m' ∧ became m b ls m' bss).
Proof.
  intros Hh Hb. split; intros Hm.
  - eapply wp_mono; [by apply append_ok|]. intros ? m' B. exists (bss ++ [t]). split; [|done].
    rewrite concat_app. simpl. by rewrite app_nil_r.
  - apply append_throws; [done..|]. lia.
Qed.

Lemma append_appends_witness :
  ∃ ls, wp (BufferImpl_append_string 1 de) example_mem (λ _ m',
    ∃ bss', concat bss' = bytes "abcdede" ∧ became example_mem 1 ls m' bss').
Proof.
  destruct example_holds as [ls Hh]. exists ls.
  destruct (append_appends example_mem 1%N ls [abc; de] de Hh eq_refl) as [A _].
  apply A. vm_compute. discriminate.
Defined.

(** C13: [drain] removes the first [n] bytes of the contents (all of them when there
    are fewer) and frees the extents it has emptied. *)
Theorem drain_drops m b ls bss n :
  holds m b ls bss → is_u64 n →
  wp (BufferImpl_drain b n) m (λ _ m', ∃ bss',
    concat bss' = drop (Z.to_nat n) (concat bss) ∧ became m b ls m' bss').
Proof.
  intros Hh Hn. eapply wp_mono; [by apply drain_ok|]. intros ? m' B.
  exists (drain_chunks n bss). split; [|done]. apply concat_drain_chunks, Hn.
Qed.

Lemma drain_drops_witness :
  ∃ ls, wp (BufferImpl_drain 1 4) example_mem (λ _ m',
    ∃ bss', concat bss' = bytes "e" ∧ became example_mem 1 ls m' bss').
Proof.
  destruct example_holds as [ls Hh]. exists ls.
  apply (drain_drops example_mem 1%N ls [abc; de] 4 Hh). by split.
Defined.

(** C2: [read] into an array of [size] bytes either delivers exactly the first
    [size] bytes of the contents, counts them and removes them, or writes past the
    end of the array; it is safe iff the copies end where they should, which is
    certain when the array has room for all of the contents. *)
Theorem read_reads m b ls bss out :
  holds m b ls bss → is_u64 (zlength out) →
  let size := zlength out in
  if copy_exact size bss 0 then
    wp (BufferImpl_read b out size) m (λ r m',
      r = (size `min` zlength (concat bss), got bss out size) ∧
      ∃ bss', concat bss' = drop (Z.to_nat size) (concat bss) ∧ became m b ls m' bss')
  else BufferImpl_read b out size m = Faults OutOfBounds ∧ size < zlength (concat bss).
Proof.
  intros Hh Hs size. destruct (copy_exact size bss 0) eqn:E.
  - eapply wp_mono; [by eapply read_ok|]. intros r m' [-> B]. split; [done|].
    exists (drain_chunks size bss). split; [|done]. apply concat_drain_chunks, Hs.
  - split; [by eapply read_overrun|]. destruct (decide (size < zlength (concat bss))); [done|].
    rewrite copy_exact_all in E by lia. done.
Qed.

(** Five bytes are read whole, four of the same buffer overrun the array. *)
Lemma read_reads_witness :
  ∃ ls,
    wp (BufferImpl_read 1 (replicate 5 None) 5) example_mem (λ r m',
      r = (5, Some <$> abc ++ de) ∧ ∃ bss', concat bss' = [] ∧ became example_mem 1 ls m' bss') ∧
    BufferImpl_read 1 (replicate 4 None) 4 example_mem = Faults OutOfBounds.
Proof.
  destruct example_holds as [ls Hh]. exists ls. split.
  - apply (read_reads example_mem 1%N ls [abc; de] (replicate 5 None) Hh). by split.
  - apply (read_reads example_mem 1%N ls [abc; de] (replicate 4 None) Hh). by split.
Defined.

(** [peek] copies the same bytes as [read] would, with the same count and under
    the same condition, and leaves the contents alone. *)
Theorem peek_peeks m b ls bss out :
  holds m b ls bss → is_u64 (zlength out) →
  let size := zlength out in
  if copy_exact size bss 0 then
    wp (BufferImpl_peek b out size) m (λ r m',
      r = (size `min` zlength (concat bss), got bss out size) ∧ became m b ls m' bss)
  else BufferImpl_peek b out size m = Faults OutOfBounds ∧ size < zlength (concat bss).
Proof.
  intros Hh Hs size. destruct (copy_exact size bss 0) eqn:E; [by eapply peek_ok|].
  split; [by eapply peek_overrun|]. destruct (decide (size < zlength (concat bss))); [done|].
  rewrite copy_exact_all in E by lia. done.
Qed.

Lemma peek_peeks_witness :
  ∃ ls, wp (BufferImpl_peek 1 (replicate 2 None) 2) example_mem (λ r m',
    r = (2, Some <$> bytes "ab") ∧ became example_mem 1 ls m' [abc; de]).
Proof.
  destruct example_holds as [ls Hh]. exists ls.
  apply (peek_peeks example_mem 1%N ls [abc; de] (replicate 2 None) Hh). by split.
Defined.

(** The characters an [Extent] that a client was given points to. *)
Definition extent_cells (m : mem) (x : Extent) : list cell :=
  match payloadof m (ext_node x) with
  | Some e => default [] (slice (extent_data e) (ext_off x) (ext_size x))
  | None => []
  end.

Lemma grant_extent_cells m b ls L g :
  rep m b ls L → extent_cells m (as_ext ls g) = grant_cells L g.
Proof.
  intros R. destruct g as [[n i] off]. unfold extent_cells, as_ext, grant_cells; simpl.
  destruct (exts L !! i) as [e|] eqn:E.
  - assert (is_Some (ls !! i)) as [p Hp].
    { apply lookup_lt_is_Some. rewrite (rep_length _ _ _ _ R). by eapply lookup_lt_Some. }
    rewrite Hp. simpl. by rewrite (rep_payload _ _ _ _ R i p e Hp E).
  - assert (ls !! i = None) as ->.
    { apply lookup_ge_None. rewrite (rep_length _ _ _ _ R). by apply lookup_ge_None. }
    simpl. destruct (rep_ok _ _ _ _ R) as (_ & Hn & _). unfold payloadof. by rewrite Hn.
Qed.

Lemma peek_extents_ok m b ls bss size acc :
  holds m b ls bss → is_u64 size →
  ∃ xs, BufferImpl_peek_extents b size acc m = Done (acc ++ xs) m ∧
    mjoin (extent_cells m <$> xs) = Some <$> take (Z.to_nat size) (concat bss) ∧
    Forall (λ x, 0 < ext_size x) xs.
Proof.
  intros (L & R & [F Es Eb]) Hs. eexists. split; [by apply refine_peek_extents|]. split.
  - rewrite <- list_fmap_compose.
    rewrite (list_fmap_ext _ (grant_cells L)) by (intros; by eapply grant_extent_cells).
    unfold buf_peek_extents. rewrite (peek_extents_packed L size (exts L) bss) by (done || lia).
    by rewrite Z.sub_0_r.
  - apply Forall_fmap. eapply Forall_impl; [apply peek_extents_pos; [done|]|].
    + by split.
    + by intros [[n i] off].
Qed.

(** [peek] with a vector of extents appends extents whose memory holds, in
    order, the first [size] bytes of the contents; none of them is empty; the
    buffer and its memory are untouched. *)
Theorem peek_extents_grants m b ls bss size acc :
  holds m b ls bss → is_u64 size →
  ∃ xs, BufferImpl_peek_extents b size acc m = Done (acc ++ xs) m ∧
    mjoin (extent_cells m <$> xs) = Some <$> take (Z.to_nat size) (concat bss) ∧
    Forall (λ x, 0 < ext_size x) xs.
Proof. apply peek_extents_ok. Qed.

Lemma peek_extents_grants_witness :
  ∃ xs, BufferImpl_peek_extents 1 4 [] example_mem = Done xs example_mem ∧
    mjoin (extent_cells example_mem <$> xs) = Some <$> bytes "abcd" ∧
    Forall (λ x, 0 < ext_size x) xs.
Proof.
  destruct example_holds as [ls Hh].
  apply (peek_extents_grants example_mem 1%N ls [abc; de] 4 [] Hh). by split.
Defined.

(** Appending in pieces. *)
Fixpoint append_all `{Allocator} (b : ptr) (ts : list (list byte)) : M mem unit :=
  match ts with
  | [] => mret tt
  | t :: ts => BufferImpl_append_string b t;; append_all b ts
  end.
Lemma append_all_ok `{Allocator} m b ls bss ts :
  holds m b ls bss → Forall (λ t, zlength t ≤ max_new) ts →
  zlength (concat bss) + zlength (concat ts) < W64 →
  wp (append_all b ts) m (λ _ m', ∃ ls', holds m' b ls' (bss ++ ts)).
Proof.
  intros Hh Hts Hb. revert m ls bss Hh Hb.
  induction Hts as [|t ts Ht Hts IH]; intros m ls bss Hh Hb; simpl.
  { wp_step. rewrite app_nil_r. eauto. }
  simpl in Hb. rewrite length_app in Hb. wp_step.
  eapply wp_mono; [apply append_ok; [done..|lia]|]. intros ? m' (ls' & Hh' & _).
  rewrite (cons_middle t), app_assoc. eapply IH; [done|].
  rewrite concat_app, length_app. simpl. rewrite app_nil_r. lia.
Qed.

(** C25: what was appended in any number of pieces is what [read] delivers: from an
    empty buffer, appending the pieces and reading as many bytes gives their
    concatenation and empties the buffer. *)
Theorem append_read_roundtrip `{Allocator} m b ts out :
  holds m b [] [] → Forall (λ t, zlength t ≤ max_new) ts →
  zlength out = zlength (concat ts) → zlength out < W64 →
  wp (append_all b ts;; BufferImpl_read b out (zlength out)) m (λ r m',
    r = (zlength out, Some <$> concat ts) ∧ ∃ ls', holds m' b ls' (drain_chunks (zlength out) ts) ∧
    concat (drain_chunks (zlength out) ts) = []).
Proof.
  intros Hh Hts Ho Hb. wp_step. eapply wp_mono.
  { apply (append_all_ok m b [] [] ts Hh Hts). simpl. lia. }
  intros ? m1 (ls1 & H1). simpl in H1.
  eapply wp_mono.
  { eapply (read_ok m1 b ls1 ts H1 out (zlength out)); [split; lia|lia|].
    apply copy_exact_all; lia. }
  intros r m2 (-> & ls2 & H2 & _). split.
  - f_equal; [lia|]. unfold got, pasted. rewrite Ho, Nat2Z.id, firstn_all. simpl.
    rewrite drop_ge by (rewrite length_fmap; lia). by rewrite app_nil_r.
  - exists ls2. split; [done|]. rewrite concat_drain_chunks by lia. apply drop_ge. lia.
Qed.

Lemma created_holds : holds (after Buffer_mkBuffer mem0) 1 [] [].
Proof.
  pose proof (mkBuffer_holds mem0 mem0_ok) as W. by apply wp_after in W as (? & Hh & -> & _).
Qed.

Lemma append_read_roundtrip_witness :
  wp (append_all 1 [abc; de; abc];; BufferImpl_read 1 (replicate 8 None) 8)
    (after Buffer_mkBuffer mem0) (λ r m',
    r = (8, Some <$> bytes "abcdeabc") ∧
    ∃ ls', holds m' 1 ls' [] ∧ concat (A := byte) [] = []).
Proof.
  apply (append_read_roundtrip (after Buffer_mkBuffer mem0) 1 [abc; de; abc]
    (replicate 8 None) created_holds); [|done|done].
  repeat constructor; vm_compute; discriminate.
Defined.

(** A buffer that what happens elsewhere leaves alone. *)
Lemma holds_frame m m' b ls bss :
  holds m b ls bss → mem_ok m' →
  (∀ p, p ∈ b :: ls → nodes m' !! p = nodes m !! p ∧ sizes m' !! p = sizes m !! p) →
  holds m' b ls bss.
Proof. intros (L & R & C) Hok F. exists L. split; [by eapply rep_frame|done]. Qed.

Lemma holds_ok m b ls bss : holds m b ls bss → mem_ok m.
Proof. intros (L & R & _). apply R. Qed.

Lemma holds_lt m b ls bss p : holds m b ls bss → p ∈ b :: ls → (p < brk m)%N.
Proof. intros (L & R & _). by eapply rep_lt. Qed.

(** A second buffer beside the example: "de". *)
Definition example_two : M mem ptr :=
  o ← Buffer_create; BufferImpl_append_string o de;; mret o.
Definition two_mem : mem := after example_two example_mem.
Definition second : ptr := brk example_mem.

Lemma two_hold :
  ∃ ls lo, holds two_mem 1 ls [abc; de] ∧ holds two_mem second lo [de] ∧ apart 1%N ls second lo.
Proof.
  destruct example_holds as [ls Hh].
  assert (wp example_two example_mem (λ o m, ∃ lo,
    holds m 1 ls [abc; de] ∧ holds m o lo [de] ∧ o = second ∧ apart 1%N ls second lo)) as W.
  { unfold example_two. wp_step.
    eapply wp_mono; [by eapply mkBuffer_holds, holds_ok|]. intros o m1 (H1 & -> & F1).
    assert (Hlt : ∀ p, p ∈ 1%N :: ls → (p < second)%N) by (intros; by eapply holds_lt).
    assert (holds m1 1 ls [abc; de]) as H1b.
    { eapply holds_frame; [done|by eapply holds_ok|]. intros p Hp%Hlt. apply F1.
      fold second. lia. }
    wp_step. eapply wp_mono; [by apply (append_ok _ _ _ _ de H1)|].
    intros ? m2 (lo & H2 & S2). wp_step. exists lo. fold second in *.
    assert (apart 1%N ls second lo) as A.
    { intros p Hp [->|Hlo]%elem_of_cons; [apply Hlt in Hp; lia|].
      apply (step_new _ _ _ _ _ S2) in Hlo as [?|Hlo]; [set_solver|].
      eapply holds_lt in Hp; [|exact H1b]. lia. }
    split_and!; [|done..]. eapply holds_frame; [done|by eapply holds_ok|].
    intros p Hp. apply (step_frame _ _ _ _ _ S2); [|by eapply holds_lt].
    apply Hlt in Hp. set_unfold. intros [->|[]]. lia. }
  apply wp_after in W as (o & lo & ? & ? & -> & ?). by exists ls, lo.
Qed.

(** Moving the contents of the buffer [o] to the end, or to the front, of the
    buffer [b]: no byte is copied or lost, and [o] is empty afterwards.  The two
    buffers must be different ones: [apart]. *)
Theorem move_moves m b ls bss o lo oss :
  holds m b ls bss → holds m o lo oss → apart b ls o lo →
  zlength (concat bss) + zlength (concat oss) < W64 →
  wp (BufferImpl_append_buffer b o) m (λ _ m',
    holds m' b (ls ++ lo) (bss ++ oss) ∧ holds m' o [] []) ∧
  wp (BufferImpl_prepend_buffer b o) m (λ _ m',
    holds m' b (lo ++ ls) (oss ++ bss) ∧ holds m' o [] []).
Proof.
  intros (L & R & [F Es Eb]) (O & RO & [FO EOs EOb]) A Hb.
  assert (holds_moved : ∀ m', rep m' o [] (buf_moved O) → holds m' o [] []).
  { intros m' R'. exists (buf_moved O). split; [done|]. unfold buf_moved in *.
    destruct (exts O) eqn:E; [|apply contents_empty]. inversion FO; subst. by split; rewrite ?E. }
  assert (oss = [] ↔ exts O = []) as Hnil.
  { split; intros E; rewrite E in FO; by inversion FO. }
  split; (eapply wp_mono; [by eapply refine_append_buffer || by eapply refine_prepend_buffer|]);
    intros ? m' (R1 & R2 & _); (split; [|by apply holds_moved]); eexists; (split; [done|]);
    unfold buf_append_buffer, buf_prepend_buffer; destruct (exts O) eqn:EO.
  - rewrite (proj2 Hnil) by done. by rewrite app_nil_r.
  - rewrite <- EO in *. split; simpl; rewrite ?concat_app, ?length_app; [by apply Forall2_app|..].
    + rewrite u64_add_small by lia. lia.
    + lia.
  - by rewrite (proj2 Hnil) by done.
  - rewrite <- EO in *. split; simpl; rewrite ?concat_app, ?length_app; [by apply Forall2_app|..].
    + rewrite u64_add_small by lia. lia.
    + lia.
Qed.

Lemma move_moves_witness :
  ∃ ls lo,
    wp (BufferImpl_append_buffer 1 second) two_mem (λ _ m',
      holds m' 1 (ls ++ lo) [abc; de; de] ∧ holds m' second [] []) ∧
    wp (BufferImpl_prepend_buffer 1 second) two_mem (λ _ m',
      holds m' 1 (lo ++ ls) [de; abc; de] ∧ holds m' second [] []).
Proof.
  destruct two_hold as (ls & lo & H1 & H2 & A). exists ls, lo.
  apply (move_moves two_mem 1%N ls [abc; de] second lo [de] H1 H2 A). reflexivity.
Defined.

(** C29: [prepend] puts [front t pre] before the contents, where [pre] are the bytes
    already consumed of the first extent: the bytes [t] themselves when nothing was
    consumed or exactly as many bytes as are prepended; otherwise other bytes of
    the same number.  In every case the size grows by the size of [t]. *)
Theorem prepend_front `{Allocator} m b ls L bss pre t :
  rep m b ls L → contents L bss → consumed L = Some <$> pre →
  zlength t ≤ max_new → zlength (concat bss) + zlength t < W64 →
  wp (BufferImpl_prepend_string b t) m (λ _ m',
    ∃ bss', concat bss' = concat (front t pre) ++ concat bss ∧ became m b ls m' bss') ∧
  (pre = [] ∨ length pre = length t → concat (front t pre) = t).
Proof.
  intros R C Hc Hm Hb. split; [|by apply front_right].
  destruct (buf_prepend_chunks L bss pre t C Hc Hm Hb) as (L' & E & C').
  pose proof (refine_prepend m b ls L (Some <$> t) (zlength t) R) as S. rewrite E in S.
  eapply wp_mono; [eapply refines_became; [apply S; split; lia|exact C']|].
  intros ? m' [_ B]. exists (prepend_chunks t pre bss). split; [|done].
  apply prepend_chunks_concat. intros ->. destruct C as [F _ _]. inversion F as [E0|].
  unfold consumed in Hc. rewrite <- E0 in Hc. by destruct pre.
Qed.


(** Prepending "x" after "ab" was consumed puts a "b" in front of the contents. *)
Lemma prepend_front_witness :
  ∃ ls, wp (BufferImpl_prepend_string 1 (bytes "x")) drained_mem (λ _ m',
    ∃ bss', concat bss' = bytes "bcde" ∧ became drained_mem 1 ls m' bss').
Proof.
  destruct drained_rep as [ls R]. exists ls.
  apply (prepend_front drained_mem 1%N ls drained_L [bytes "c"; de] (bytes "ab") (bytes "x") R
    drained_contents eq_refl); vm_compute; [discriminate|reflexivity].
Defined.

(** The readable cells of a buffer, written or not. *)
Definition ext_cells (e : InternalExtent) : list cell :=
  drop (Z.to_nat (read_offset e)) (extent_data e).
Definition cells (L : Buf) : list cell := mjoin (ext_cells <$> exts L).

Lemma contents_cells L bss : contents L bss → cells L = Some <$> concat bss.
Proof.
  intros [F _ _]. unfold cells. induction F as [|e bs es bss P F IH]; [done|].
  change (ext_cells e ++ mjoin (ext_cells <$> es) = Some <$> bs ++ concat bss).
  rewrite IH, fmap_app. f_equal. apply P.
Qed.

Section reserve.
Context `{Allocator}.
Context (m : mem) (b : ptr) (ls : list ptr) (bss : list (list byte)) (H0 : holds m b ls bss).
Context (n : Z) (Hn : 0 < n ≤ max_new).

(** The buffer with a reserved extent at its end. *)
Lemma reserve_ok :
  ∃ L, contents L bss ∧
    wp (BufferImpl_reserve b n) m (λ _ m', ∃ ls',
      rep m' b ls' (set_exts (exts L ++ [fresh_ext n]) L) ∧ local_step m b ls m' ls').
Proof.
  destruct H0 as (L & R & C). exists L. split; [done|]. pose proof max_new_range.
  assert (is_u64 n) as Hu by (unfold is_u64, W64; lia).
  pose proof (refine_reserve m b ls L n R Hu) as S.
  rewrite buf_reserve_new in S by (done || (intros; by eapply contents_last)).
  rewrite (proj2 (Z.ltb_lt _ _)), (proj2 (Z.leb_le _ _)) in S by lia.
  eapply wp_mono; [by apply refines_wp|]. intros ? m' [_ ?]. done.
Qed.

(** [append] into it. *)
Lemma buf_append_reserved L t :
  zlength t + n ≤ W64 →
  buf_append (Some <$> t) (zlength t) (set_exts (exts L ++ [fresh_ext n]) L) =
    if zlength t <=? n then
      Done tt (mkBuf (exts L ++ [mkExtent n
                 ((Some <$> t) ++ replicate (Z.to_nat (n - zlength t)) None) 0 (zlength t)])
                 (bsize L +₆₄ zlength t))
    else Faults OutOfBounds.
Proof.
  intros Hb. unfold buf_append. pose proof max_new_range.
  rewrite (bind_done get _ _ _ _ eq_refl).
  unfold set_exts at 1. cbn [exts]. rewrite last_snoc.
  assert (appendable (fresh_ext n) = n) as ->.
  { unfold appendable, fresh_ext; simpl. rewrite u64_sub_small; unfold W64; lia. }
  rewrite (proj2 (Z.eqb_neq _ _)) by lia. rewrite (bind_done (when false _) _ _ _ _ eq_refl).
  rewrite (bind_done get _ _ _ _ eq_refl). cbn [set_exts exts].
  rewrite length_app, Nat.add_1_r. cbn [pred length].
  unfold at_ext at 1, mbind, M_bind. cbn [set_exts exts].
  rewrite list_lookup_middle by done. unfold zoom.
  replace (zlength t) with (zlength (Some <$> t)) at 1 by (by rewrite length_fmap).
  destruct (Z.leb_spec (zlength t) n) as [Hle|Hgt].
  - rewrite InternalExtent_append_room; unfold fresh_ext; simpl;
      rewrite ?length_fmap, ?length_replicate; unfold is_u64, W64; try lia.
    unfold add_size, modify, set_bsize, set_exts; simpl. do 3 f_equal.
    rewrite insert_app_r_alt, Nat.sub_diag by lia. simpl. do 2 f_equal.
    unfold set_write_offset, set_data; simpl. f_equal. f_equal.
    rewrite drop_replicate. f_equal. lia.
  - rewrite InternalExtent_append_overrun; unfold fresh_ext; simpl;
      rewrite ?length_fmap, ?length_replicate; unfold is_u64, W64; try done; lia.
Qed.

(** And another [reserve]: the space wanted is what is missing, modulo 2^64. *)
Lemma buf_reserve_reserved L k :
  0 ≤ k < n →
  buf_reserve k (set_exts (exts L ++ [fresh_ext n]) L) =
    Throws bad_alloc (set_exts (exts L ++ [fresh_ext n]) L).
Proof.
  intros Hk. pose proof max_new_range. unfold buf_reserve.
  rewrite (bind_done get _ _ _ _ eq_refl). cbv zeta. cbn [set_exts exts].
  rewrite last_snoc.
  assert (appendable (fresh_ext n) = n) as ->.
  { unfold appendable, fresh_ext; simpl. rewrite u64_sub_small; unfold W64; lia. }
  rewrite u64_sub_wrap by (unfold W64; lia).
  rewrite (proj2 (Z.ltb_lt _ _)) by (unfold W64; lia). unfold when.
  erewrite bind_throws; [done|]. apply InternalExtent_new_throws. unfold W64. lia.
Qed.
End reserve.

(** [append] after [reserve n] writes into the reserved space and nowhere else
    when it fits; the space that is left stays readable, as indeterminate bytes
    behind the data that the size does not count; and an [append] of more than [n]
    bytes writes past the end of the reserved block. *)
Theorem reserve_then_append `{Allocator} m b ls bss n t :
  holds m b ls bss → 0 < n ≤ max_new →
  zlength (concat bss) + zlength t < W64 → zlength t + n ≤ W64 →
  if zlength t <=? n then
    wp (BufferImpl_reserve b n;; BufferImpl_append_string b t) m (λ _ m', ∃ ls' L',
      rep m' b ls' L' ∧ bsize L' = zlength (concat bss) + zlength t ∧
      cells L' = (Some <$> concat bss ++ t) ++ replicate (Z.to_nat (n - zlength t)) None)
  else (BufferImpl_reserve b n;; BufferImpl_append_string b t) m = Faults OutOfBounds.
Proof.
  intros Hh Hn Hb Ht. destruct (reserve_ok m b ls bss Hh n Hn) as (L & C & W).
  apply wp_iff in W as ([] & m1 & E & ls1 & R1 & _).
  assert (is_u64 (zlength t)) as Hu by (split; lia).
  pose proof (refine_append m1 b ls1 _ (Some <$> t) (zlength t) R1 Hu) as S.
  rewrite buf_append_reserved in S by lia.
  destruct (zlength t <=? n) eqn:El.
  - wp_step. eapply wp_done; [exact E|]. eapply wp_mono; [by apply refines_wp|].
    intros ? m2 (_ & ls2 & R2 & _). exists ls2. eexists. split; [exact R2|].
    pose proof C as [F Es Eb]. simpl. split.
    + rewrite Es. apply u64_add_small; lia.
    + unfold cells; simpl. rewrite fmap_app, join_app, fmap_app, <- (contents_cells L bss C).
      unfold cells. simpl. by rewrite app_nil_r, <- app_assoc.
  - rewrite (bind_done _ _ _ _ _ E). by eapply refines_faults.
Qed.

Lemma reserve_then_append_witness :
  wp (BufferImpl_reserve 1 4;; BufferImpl_append_string 1 de) example_mem (λ _ m', ∃ ls' L',
    rep m' 1 ls' L' ∧ bsize L' = 7 ∧
    cells L' = (Some <$> bytes "abcdede") ++ [None; None]) ∧
  (BufferImpl_reserve 1 1;; BufferImpl_append_string 1 de) example_mem = Faults OutOfBounds.
Proof.
  destruct example_holds as [ls Hh]. split.
  - apply (reserve_then_append example_mem 1%N ls [abc; de] 4 de Hh);
      vm_compute; [split; discriminate || done|done|discriminate].
  - apply (reserve_then_append example_mem 1%N ls [abc; de] 1 de Hh);
      vm_compute; [split; discriminate || done|done|discriminate].
Defined.

(** [reserve] when at least as much space is free already: the size it then
    asks for wraps around, and the call throws [bad_alloc] where nothing had to be
    done. *)
Theorem reserve_again `{Allocator} m b ls bss n k :
  holds m b ls bss → 0 < n ≤ max_new → 0 ≤ k < n →
  ∃ m', (BufferImpl_reserve b n;; BufferImpl_reserve b k) m = Throws bad_alloc m'.
Proof.
  intros Hh Hn Hk. destruct (reserve_ok m b ls bss Hh n Hn) as (L & C & W).
  apply wp_iff in W as ([] & m1 & E & ls1 & R1 & _). pose proof max_new_range.
  assert (is_u64 k) as Hu by (unfold is_u64, W64; lia).
  pose proof (refine_reserve m1 b ls1 _ k R1 Hu) as S.
  rewrite buf_reserve_reserved in S by lia.
  destruct (refines_throws _ _ _ _ _ _ S) as (m2 & E2 & _).
  exists m2. by rewrite (bind_done _ _ _ _ _ E).
Qed.

Lemma reserve_again_witness :
  ∃ m', (BufferImpl_reserve 1 8;; BufferImpl_reserve 1 4) example_mem = Throws bad_alloc m'.
Proof.
  destruct example_holds as [ls Hh].
  apply (reserve_again example_mem 1%N ls [abc; de] 8 4 Hh);
    vm_compute; split; discriminate || done.
Defined.

(** Releasing a buffer frees its nodes, all of them, once, and the buffer
    itself; nothing else of memory changes. *)
Theorem release_frees m b ls bss :
  holds m b ls bss → zlength (concat bss) < SIZE_MAX →
  wp (Buffer_release b) m (λ _ m',
    (∀ p, p ∈ b :: ls → nodes m' !! p = None) ∧ sizes m' !! b = None ∧
    (∀ p, p ∉ b :: ls → (p < brk m)%N →
       nodes m' !! p = nodes m !! p ∧ sizes m' !! p = sizes m !! p)).
Proof.
  intros Hh Hb. unfold Buffer_release, BufferImpl_delete. wp_step.
  pose proof Hh as (L & R & _). pose proof (rep_dll _ _ _ _ R) as [[Hbl _]%NoDup_cons _].
  eapply wp_mono; [by apply (drain_ok _ _ _ _ SIZE_MAX Hh)|].
  intros ? m1 (ls1 & (L1 & R1 & [F1 _ _]) & S1). wp_step.
  rewrite drain_chunks_all in F1 by done. inversion F1 as [EL|]. clear F1.
  pose proof (proj2 (rep_nil _ _ _ _ R1) (eq_sym EL)) as ->.
  destruct (dll_nodes _ _ _ b (rep_dll _ _ _ _ R1)) as [x Ex]; [set_solver|].
  unfold delete_extent at 1, wp. rewrite Ex. split_and!; simpl.
  - intros p Hp. destruct (decide (p = b)) as [->|Hne]; [by apply lookup_delete_eq|].
    rewrite lookup_delete_ne by done. apply (step_freed _ _ _ _ _ S1); set_solver.
  - apply lookup_delete_eq.
  - intros p Hp Hlt. rewrite !lookup_delete_ne by set_solver.
    by apply (step_frame _ _ _ _ _ S1).
Qed.

Lemma release_frees_witness :
  ∃ ls, wp (Buffer_release 1) example_mem (λ _ m',
    (∀ p, p ∈ 1%N :: ls → nodes m' !! p = None) ∧ sizes m' !! 1%N = None ∧
    (∀ p, p ∉ 1%N :: ls → (p < brk example_mem)%N →
       nodes m' !! p = nodes example_mem !! p ∧ sizes m' !! p = sizes example_mem !! p)).
Proof.
  destruct example_holds as [ls Hh]. exists ls.
  apply (release_frees example_mem 1%N ls [abc; de] Hh). reflexivity.
Defined.

(** C3: every operation on the linked nodes implements its function on lists of
    extents, whatever is in the extents: the same results, exceptions and faults
    from related memories, with the list well linked afterwards, the rest of memory
    untouched, and no loop out of fuel. *)
Theorem buffer_refines `{Allocator} m b ls L buf out size :
  rep m b ls L → is_u64 size →
  refines m b ls (BufferImpl_append b buf size m) (buf_append buf size L) ∧
  refines m b ls (BufferImpl_prepend b buf size m) (buf_prepend buf size L) ∧
  refines m b ls (BufferImpl_reserve b size m) (buf_reserve size L) ∧
  refines m b ls (BufferImpl_drain b size m) (buf_drain size L) ∧
  refines m b ls (BufferImpl_read b out size m) (buf_read out size L) ∧
  refines m b ls (BufferImpl_peek b out size m) (buf_peek out size L).
Proof.
  intros R Hs. split_and!.
  - by apply refine_append.
  - by apply refine_prepend.
  - by apply refine_reserve.
  - by apply refine_drain.
  - by apply refine_read.
  - by apply refine_peek.
Qed.

Lemma buffer_refines_witness :
  ∃ ls, refines example_mem 1%N ls
    (BufferImpl_prepend 1 (Some <$> de) 2 example_mem)
    (Done tt (mkBuf [filled de; filled abc; filled de] 7)).
Proof.
  destruct example_rep as [ls R]. exists ls.
  assert (buf_prepend (Some <$> de) 2 example_L =
    Done tt (mkBuf [filled de; filled abc; filled de] 7)) as <- by (vm_compute; reflexivity).
  destruct (buffer_refines example_mem 1%N ls example_L (Some <$> de) [] 2 R) as (_ & P & _).
  - by split.
  - exact P.
Defined.
