(* ===== verification/BufferType.v ===== *)
(** * The buffer: its type

    What holds of a buffer whatever its client does with it.  The only way an
    operation of [BufferImpl] can go wrong is an access outside of a block: it never
    follows a bad pointer, never loops for ever, and when it returns or throws the list
    is well linked, the integers of its extents are [size_t] values and the rest of
    memory is as it was.  And the overload of [reserve] that tells which memory it has
    reserved, against the list model. *)

From S2P Require Import Prelude Extent Dll Buffer BufferModel BufferRefine BufferWalk BufferSpec.
From S2P Require Import BufferProps.

(** [o] returns with [Q], throws, or stops at an access out of bounds. *)
Definition bounded {S A} (Q : A → S → Prop) (o : outcome S A) : Prop :=
  match o with
  | Done a s => Q a s
  | Throws _ _ => True
  | Faults f => f = OutOfBounds
  | Diverges => False
  end.

Lemma bounded_bind {S A B} (m : M S A) (k : A → M S B) s P Q :
  bounded P (m s) → (∀ a s', P a s' → bounded Q (k a s')) → bounded Q ((m ≫= k) s).
Proof. unfold mbind, M_bind. destruct (m s); simpl; auto. Qed.

Lemma bounded_mono {S A} (P Q : A → S → Prop) o : bounded P o → (∀ a s, P a s → Q a s) → bounded Q o.
Proof. destruct o; simpl; auto. Qed.

Lemma bounded_get {S B} (k : S → M S B) s Q : bounded Q (k s s) → bounded Q ((get ≫= k) s).
Proof. done. Qed.

Abbreviation within := (bounded (λ _ _, True)).

(** ** The extents *)

Lemma within_of_option {S A} (o : option A) (s : S) : within (of_option o OutOfBounds s).
Proof. by destruct o. Qed.

Lemma within_memcpy off buf n e : within (ext_memcpy off buf n e).
Proof.
  unfold ext_memcpy. apply bounded_get.
  eapply bounded_bind; [apply within_of_option|]. intros src s2 _.
  eapply bounded_bind; [apply within_of_option|]. done.
Qed.

Lemma within_append buf n e : within (InternalExtent_append buf n e).
Proof.
  unfold InternalExtent_append. apply bounded_get.
  cbv zeta. case_match; [done|]. eapply bounded_bind; [apply within_memcpy|]. done.
Qed.
Lemma within_prepend buf n e : within (InternalExtent_prepend buf n e).
Proof.
  unfold InternalExtent_prepend. apply bounded_get.
  cbv zeta. case_match; [done|]. eapply bounded_bind; [apply within_memcpy|]. done.
Qed.
Lemma within_copyout out pos n e : within (InternalExtent_copyout out pos n e).
Proof.
  unfold InternalExtent_copyout. apply bounded_get.
  cbv zeta. eapply bounded_bind; [apply within_of_option|]. intros src s2 _.
  eapply bounded_bind; [apply within_of_option|]. done.
Qed.

(** ** The list model *)

Lemma within_at_ext {A} i (f : M InternalExtent A) L :
  (i < length (exts L))%nat → (∀ e, within (f e)) → within (at_ext i f L).
Proof.
  intros [e He]%lookup_lt_is_Some Hf. unfold at_ext. rewrite He. unfold zoom.
  specialize (Hf e). by destruct (f e).
Qed.

Lemma within_new `{Allocator} {St} size (s : St) : within (InternalExtent_new size s).
Proof.
  destruct (decide (size ≤ max_new)); [by rewrite InternalExtent_new_ok|].
  by rewrite InternalExtent_new_throws by lia.
Qed.

(** The list has an extent after this. *)
Lemma new_back_some `{Allocator} size L :
  bounded (λ _ L', exts L' ≠ []) ((e ← InternalExtent_new size; push_back e) L).
Proof.
  eapply bounded_bind; [apply within_new|]. intros e s _. simpl. by destruct (exts s).
Qed.

Lemma within_buf_append `{Allocator} buf size L : within (buf_append buf size L).
Proof.
  unfold buf_append. apply bounded_get. eapply (bounded_bind _ _ _ (λ _ L', exts L' ≠ [])).
  - destruct (last (exts L)) as [e|] eqn:El; [|apply new_back_some].
    unfold when. case_match; [apply new_back_some|]. simpl. intros E. by rewrite E in El.
  - intros _ L' Hne. apply bounded_get. eapply bounded_bind; [apply within_at_ext; [|apply within_append]|done].
    destruct (exts L'); [done|simpl; lia].
Qed.

Lemma within_push_front `{Allocator} buf size L : within (push_front_new buf size L).
Proof.
  unfold push_front_new. eapply bounded_bind; [apply within_new|]. intros e L1 _.
  apply (bounded_bind _ _ _ (λ _ s, exts s ≠ [])); [done|]. intros _ L2 Hne.
  eapply bounded_bind; [apply within_at_ext; [|apply within_append]|done].
  destruct (exts L2); [done|simpl; lia].
Qed.

Lemma within_buf_prepend `{Allocator} buf size L : within (buf_prepend buf size L).
Proof.
  unfold buf_prepend. apply bounded_get. eapply bounded_bind; [|done].
  destruct (exts L) as [|e es] eqn:El; [apply within_push_front|]. case_match; [apply within_push_front|].
  eapply bounded_bind; [apply within_at_ext; [rewrite El; simpl; lia|apply within_prepend]|].
  intros n L1 _. unfold when. case_match; [apply within_push_front|done].
Qed.

Lemma within_buf_reserve `{Allocator} size L : within (buf_reserve size L).
Proof.
  unfold buf_reserve. apply bounded_get.
  cbv zeta. unfold when. case_match; [|done]. eapply bounded_bind; [apply within_new|done].
Qed.

Lemma within_read_exts size es s total pos out : within (read_exts size es s total pos out).
Proof.
  revert s total pos out. induction es as [|e es IH]; intros s total pos out; simpl; [done|].
  case_match; [|done]. pose proof (within_copyout out pos size e) as Hc.
  destruct (InternalExtent_copyout out pos size e) as [[n out'] e1|x e1|f|]; [|done..].
  case_match; [apply IH|done].
Qed.
Lemma within_peek_exts size es total pos out : within (peek_exts size es total pos out).
Proof.
  revert total pos out. induction es as [|e es IH]; intros total pos out; simpl; [done|].
  case_match; [|done]. pose proof (within_copyout out pos size e) as Hc.
  destruct (InternalExtent_copyout out pos size e) as [[n out'] e1|x e1|f|]; [apply IH|done..].
Qed.

Lemma within_buf_read out size L : within (buf_read out size L).
Proof. apply within_read_exts. Qed.
Lemma within_buf_peek out size L : within (buf_peek out size L).
Proof.
  unfold buf_peek, zoom. pose proof (within_peek_exts size (exts L) 0 0 out) as Hw.
  by destruct (peek_exts _ _ _ _ _).
Qed.

(** ** The pointer code *)

(** The buffer is still one, and nothing else has changed. *)
Definition still (m : mem) (b : ptr) (ls : list ptr) (m' : mem) : Prop :=
  ∃ ls' L', rep m' b ls' L' ∧ local_step m b ls m' ls'.

(** Well formed after a return or an exception, and at worst out of bounds. *)
Definition well_behaved {A} (m : mem) (b : ptr) (ls : list ptr) (o : outcome mem A) : Prop :=
  match o with
  | Done _ m' | Throws _ m' => still m b ls m'
  | Faults f => f = OutOfBounds
  | Diverges => False
  end.

Lemma refines_behaved {A B} (R : A → B → mem → Buf → Prop) m b ls o (o' : outcome Buf B) :
  sim R (post_throw m b ls) o o' → (∀ a a' m' L', R a a' m' L' → still m b ls m') → within o' →
  well_behaved m b ls o.
Proof.
  unfold post_throw, still. intros Hs HR Hw.
  destruct o, o'; simpl in *; try done; [by eapply HR| |by subst].
  destruct Hs as (_ & ls' & ? & ?). by exists ls', s0.
Qed.

Lemma post_still {A} m b ls (a a' : A) m' L' : post m b ls a a' m' L' → still m b ls m'.
Proof. intros (_ & ls' & ? & ?). by exists ls', L'. Qed.

(** ** [reserve] with extents *)

(** The free space at the end of the last extent, and what is still wanted. *)
Definition free_space (L : Buf) : Z := match last (exts L) with Some e => appendable e | None => 0 end.
Definition wanted (size : Z) (L : Buf) : Z := size -₆₄ free_space L.

Section reserve.
Context `{Allocator}.
Context (m : mem) (b : ptr) (ls : list ptr) (L : Buf) (R : rep m b ls L).

(** The extents it tells: the free space of the last node, then the new node. *)
Definition free_extent : list Extent :=
  match last (exts L) with
  | Some e => if 0 <? appendable e then [mkExt (appendable e) (lastof b ls) (write_offset e)] else []
  | None => []
  end.

Lemma reserve_extents_outcome size acc :
  is_u64 size →
  match BufferImpl_reserve_extents b size acc m with
  | Done xs m' =>
      if 0 <? wanted size L then ∃ cur,
        xs = acc ++ free_extent ++ [mkExt (wanted size L) cur 0] ∧
        rep m' b (ls ++ [cur]) (set_exts (exts L ++ [fresh_ext (wanted size L)]) L) ∧
        local_step m b ls m' (ls ++ [cur]) ∧ wanted size L ≤ max_new
      else xs = acc ++ free_extent ∧ m' = m
  | Throws e m' => e = bad_alloc ∧ m' = m ∧ max_new < wanted size L
  | _ => False
  end.
Proof.
  intros Hs. unfold BufferImpl_reserve_extents.
  pose proof (wp_list_empty m b ls L R (λ e m', e = bool_decide (exts L = []) ∧ m' = m) ltac:(done)) as We.
  apply wp_iff in We as (e0 & ? & Ee & -> & ->). rewrite (bind_done _ _ _ _ _ Ee).
  assert (wp (if bool_decide (exts L = []) then mret (size, acc)
     else p ← load_prev b;
          avail ← on_extent p (gets appendable);
          w ← on_extent p (gets write_offset);
          mret (if 0 <? avail then (size -₆₄ avail, acc ++ [mkExt avail p w]) else (size, acc)))
    m (λ r m', r = (wanted size L, acc ++ free_extent) ∧ m' = m)) as Wr.
  { unfold wanted, free_space, free_extent. case_bool_decide as Hnil.
    - apply wp_ret. rewrite Hnil. simpl. rewrite app_nil_r, Z.sub_0_r. by rewrite u64_small by apply Hs.
    - destruct (rep_last_ext _ _ _ _ R Hnil) as (e & El & Hz & He & _). rewrite El.
      wp_step. eapply wp_load_last; [done|]. wp_step. eapply wp_on_extent_gets; [done..|].
      wp_step. eapply wp_on_extent_gets; [done..|]. apply wp_ret. split; [|done].
      destruct (u64_range (extent_size e - write_offset e)) as [Ha _].
      destruct (Z.ltb_spec 0 (appendable e)) as [Hp|Hp]; [done|].
      assert (appendable e = 0) as -> by (unfold appendable in *; lia).
      rewrite app_nil_r, Z.sub_0_r. by rewrite u64_small by apply Hs. }
  apply wp_iff in Wr as (r & ? & Er & -> & ->). rewrite (bind_done _ _ _ _ _ Er). cbv iota beta.
  pose proof (u64_range (size - free_space L) : is_u64 (wanted size L)) as Hw.
  destruct (0 <? wanted size L); [|done].
  destruct (decide (wanted size L ≤ max_new)) as [Hle|Hgt].
  - pose proof (wp_push_back m b ls L (wanted size L) R ltac:(split; [apply Hw|done])) as W.
    unfold mbind, M_bind in W |- *. unfold wp in W.
    destruct (new_extent (wanted size L) m) as [p m1| | |]; try done.
    destruct (listAppend1 b p m1) as [[] m2| | |]; try done. simpl in W |- *.
    exists p. rewrite <- app_assoc. naive_solver.
  - assert (max_new < wanted size L) as Hlt by lia.
    by rewrite (bind_throws _ _ _ _ _ (new_extent_throws (wanted size L) m Hlt)).
Qed.
End reserve.

Lemma reserve_extents_behaved `{Allocator} m b ls L size acc :
  rep m b ls L → is_u64 size → well_behaved m b ls (BufferImpl_reserve_extents b size acc m).
Proof.
  intros R Hs. pose proof (reserve_extents_outcome m b ls L R size acc Hs) as Hr.
  assert (still m b ls m) by (exists ls, L; split; [done|apply local_refl]).
  destruct (BufferImpl_reserve_extents b size acc m); simpl; try done.
  - case_match; [|by destruct Hr as [_ ->]]. destruct Hr as (cur & _ & ? & ? & _). by do 2 eexists.
  - by destruct Hr as (_ & -> & _).
Qed.

(** ** Calls *)

(** What a client may call on a buffer that it has, with the blocks it passes. *)
Inductive call :=
| CAppend (buf : list cell) (size : Z)
| CPrepend (buf : list cell) (size : Z)
| CReserve (size : Z)
| CReserveExtents (size : Z) (extents : list Extent)
| CDrain (count : Z)
| CRead (out : list cell) (size : Z)
| CPeek (out : list cell) (size : Z)
| CPeekExtents (size : Z) (extents : list Extent).

Definition call_size (c : call) : Z :=
  match c with
  | CAppend _ n | CPrepend _ n | CReserve n | CReserveExtents n _ | CDrain n | CRead _ n | CPeek _ n
  | CPeekExtents n _ => n
  end.

Definition run_call `{Allocator} (b : ptr) (c : call) : M mem unit :=
  match c with
  | CAppend buf n => BufferImpl_append b buf n
  | CPrepend buf n => BufferImpl_prepend b buf n
  | CReserve n => BufferImpl_reserve b n
  | CReserveExtents n xs => BufferImpl_reserve_extents b n xs;; mret tt
  | CDrain n => BufferImpl_drain b n
  | CRead out n => BufferImpl_read b out n;; mret tt
  | CPeek out n => BufferImpl_peek b out n;; mret tt
  | CPeekExtents n xs => BufferImpl_peek_extents b n xs;; mret tt
  end.

(** [try { … } catch (std::bad_alloc &) {}]. *)
Definition try {S} (c : M S unit) : M S unit := λ s,
  match c s with Throws _ s' => Done tt s' | o => o end.

Fixpoint run_calls `{Allocator} (b : ptr) (cs : list call) : M mem unit :=
  match cs with
  | [] => mret tt
  | c :: cs => try (run_call b c);; run_calls b cs
  end.

Lemma behaved_drop {A} m b ls (c : M mem A) : well_behaved m b ls (c m) → well_behaved m b ls ((c;; mret tt) m).
Proof. unfold mbind, M_bind. by destruct (c m). Qed.

Lemma call_behaved `{Allocator} m b ls L c :
  rep m b ls L → is_u64 (call_size c) → well_behaved m b ls (run_call b c m).
Proof.
  intros R Hs. destruct c as [buf n|buf n|n|n xs|n|out n|out n|n xs]; simpl in Hs |- *; try apply behaved_drop.
  - eapply refines_behaved; [by apply refine_append|apply post_still|apply within_buf_append].
  - eapply refines_behaved; [by apply refine_prepend|apply post_still|apply within_buf_prepend].
  - eapply refines_behaved; [by apply refine_reserve|apply post_still|apply within_buf_reserve].
  - by eapply reserve_extents_behaved.
  - eapply refines_behaved; [by apply refine_drain|apply post_still|]. unfold buf_drain, modify. done.
  - eapply refines_behaved; [by apply refine_read|apply post_still|apply within_buf_read].
  - eapply refines_behaved; [by apply refine_peek|apply post_still|apply within_buf_peek].
  - rewrite (refine_peek_extents m b ls L R n xs). exists ls, L. split; [done|apply local_refl].
Qed.

Lemma behaved_then {A} m b ls L (c c' : M mem unit) (k : unit → M mem A) :
  rep m b ls L → c' = try c → well_behaved m b ls (c m) →
  (∀ m1 ls1 L1, rep m1 b ls1 L1 → well_behaved m1 b ls1 (k tt m1)) →
  well_behaved m b ls ((c' ≫= k) m).
Proof.
  intros R -> Hc Hk. unfold mbind, M_bind, try.
  assert (∀ m1, still m b ls m1 → well_behaved m b ls (k tt m1)) as Hs.
  { intros m1 (ls1 & L1 & R1 & S1). specialize (Hk m1 ls1 L1 R1).
    destruct (k tt m1); simpl in *; try done.
    all: destruct Hk as (ls2 & L2 & R2 & S2); exists ls2, L2; split; [done|by eapply local_trans]. }
  destruct (c m) as [[] m1|e m1|f|]; simpl in *; auto.
Qed.

Lemma run_calls_behaved `{Allocator} b cs : Forall (λ c, is_u64 (call_size c)) cs →
  ∀ m ls L, rep m b ls L → well_behaved m b ls (run_calls b cs m).
Proof.
  induction 1 as [|c cs Hc _ IH]; intros m ls L R; simpl.
  { exists ls, L. split; [done|apply local_refl]. }
  eapply behaved_then; [done|done|by eapply call_behaved|]. by intros; eapply IH.
Qed.

(** ** What holds whatever the client does *)

#[local] Existing Instance example_alloc.

(** C8: whatever a client calls on a buffer it has made, with any sizes and any blocks,
    and going on after exceptions: either the buffer is well formed at the end (its
    nodes are linked in a ring through the head, and the integers of every extent are
    [size_t] values) and the rest of memory is as it was, or one of the calls has gone
    past the end of a block.  No call follows a dangling pointer or loops for ever. *)
Theorem buffer_typed `{Allocator} m cs :
  mem_ok m → Forall (λ c, is_u64 (call_size c)) cs →
  match (b ← Buffer_create; run_calls b cs;; mret b) m with
  | Done b m' => ∃ ls L, rep m' b ls L ∧
      ∀ p, (p < brk m)%N → nodes m' !! p = nodes m !! p ∧ sizes m' !! p = sizes m !! p
  | Faults f => f = OutOfBounds
  | Throws _ _ | Diverges => False
  end.
Proof.
  intros Hm Hcs. pose proof (mkBuffer_rep m Hm) as W.
  apply wp_iff in W as (b & m1 & Eb & R1 & Hb & F1).
  rewrite (bind_done Buffer_create _ m b m1 Eb).
  assert (no_throw : ∀ cs m e m', run_calls b cs m ≠ Throws e m').
  { clear. induction cs as [|c cs IH]; intros m e m'; simpl; [done|].
    unfold mbind, M_bind, try. destruct (run_call b c m); try done; apply IH. }
  pose proof (run_calls_behaved b cs Hcs m1 [] empty_buf R1) as Hw.
  unfold mbind, M_bind. destruct (run_calls b cs m1) as [[] m2|e m2|f|] eqn:E; simpl in *; try done.
  2:{ by apply no_throw in E. }
  destruct Hw as (ls & L & R2 & S). exists ls, L. split; [done|]. intros p Hp. subst b.
  assert (p ≠ brk m) as Hne by lia. destruct (F1 p Hne) as [<- <-].
  apply (step_frame _ _ _ _ _ S).
  - rewrite list_elem_of_singleton. done.
  - pose proof (rep_lt _ _ _ _ R1 (brk m) ltac:(set_solver)). lia.
Qed.

Definition demo_calls : list call :=
  [CAppend (Some <$> abc) 3; CReserve 4; CReserve 1; CAppend (Some <$> de) 2; CDrain 2;
   CPrepend (Some <$> abc) 3; CReserveExtents 5 []; CRead (replicate 11 None) 11; CPeekExtents 3 []].

Lemma buffer_typed_witness :
  wp (b ← Buffer_create; run_calls b demo_calls;; mret b) mem0 (λ b m', ∃ ls L, rep m' b ls L).
Proof.
  pose proof (buffer_typed mem0 demo_calls mem0_ok) as T. unfold wp.
  destruct ((b ← Buffer_create; run_calls b demo_calls;; mret b) mem0) as [b m'|e m'|f|] eqn:E.
  2-4: apply (f_equal (λ o, match o with Done _ _ => true | _ => false end)) in E; by vm_compute in E.
  destruct T as (ls & L & R & _); [|by exists ls, L].
  repeat constructor; vm_compute; discriminate || done.
Defined.

(** C9: [read], which shares its loop with [peek], is the same as its reference
    definition, [peek] and then [drain] of what was peeked: on an array of the size that
    is asked for they deliver the same bytes and count and leave the same contents, and
    one overruns the array iff the other does. *)
Theorem read_is_peek_drain m b ls bss out :
  holds m b ls bss → is_u64 (zlength out) →
  let size := zlength out in
  match BufferImpl_read b out size m,
        (r ← BufferImpl_peek b out size; BufferImpl_drain b r.1;; mret r) m with
  | Done r m1, Done r' m2 => r = r' ∧ ∃ bss1 bss2,
      became m b ls m1 bss1 ∧ became m b ls m2 bss2 ∧ concat bss1 = concat bss2
  | Faults f, Faults f' => f = f'
  | _, _ => False
  end.
Proof.
  intros Hh Hs size. destruct (copy_exact size bss 0) eqn:E.
  - pose proof (read_ok m b ls bss Hh out size Hs ltac:(done) E) as Wr.
    pose proof (peek_ok m b ls bss Hh out size Hs ltac:(done) E) as Wp.
    apply wp_iff in Wr as (r & m1 & -> & -> & B1).
    apply wp_iff in Wp as (r' & m2 & Ep & -> & ls2 & H2 & S2). rewrite (bind_done _ _ _ _ _ Ep).
    assert (is_u64 (size `min` zlength (concat bss))) as Hn.
    { pose proof (holds_size_bound m b ls bss Hh) as [? ?]. destruct Hs. unfold is_u64, size. lia. }
    pose proof (drain_ok m2 b ls2 bss (size `min` zlength (concat bss)) H2 Hn) as Wd.
    apply wp_iff in Wd as (? & m3 & Ed & ls3 & H3 & S3). rewrite (bind_done _ _ _ _ _ Ed). split; [done|].
    exists (drain_chunks size bss), (drain_chunks (size `min` zlength (concat bss)) bss).
    split; [done|]. split.
    + exists ls3. split; [done|]. destruct Hh as (L & R & _). by eapply local_trans.
    + rewrite !concat_drain_chunks by (apply Hn || apply Hs).
      destruct (Z.le_gt_cases size (zlength (concat bss))); [by rewrite Z.min_l|].
      rewrite Z.min_r by lia. rewrite Nat2Z.id, drop_all. apply drop_ge. lia.
  - rewrite (read_overrun m b ls bss Hh out size Hs eq_refl E).
    by rewrite (bind_faults _ _ _ _ (peek_overrun m b ls bss Hh out size Hs eq_refl E)).
Qed.

Lemma read_is_peek_drain_witness :
  ∃ ls, wp (r ← BufferImpl_peek 1 (replicate 5 None) 5; BufferImpl_drain 1 r.1;; mret r) example_mem
    (λ r' m2, wp (BufferImpl_read 1 (replicate 5 None) 5) example_mem (λ r m1, r = r' ∧
      ∃ bss1 bss2, became example_mem 1 ls m1 bss1 ∧ became example_mem 1 ls m2 bss2 ∧
        concat bss1 = concat bss2)).
Proof.
  destruct example_holds as [ls Hh]. exists ls.
  pose proof (read_is_peek_drain example_mem 1%N ls [abc; de] (replicate 5 None) Hh) as T.
  specialize (T ltac:(by split)). unfold wp. cbv zeta in T. change (zlength (replicate 5 None)) with 5 in T.
  destruct (BufferImpl_read 1 (replicate 5 None) 5 example_mem) as [r m1|e m1|f|] eqn:E.
  2-4: apply (f_equal (λ o, match o with Done _ _ => true | _ => false end)) in E; by vm_compute in E.
  destruct ((r ← BufferImpl_peek 1 (replicate 5 None) 5; BufferImpl_drain 1 r.1;; mret r) example_mem);
    [|done..]. exact T.
Defined.

(** The block of an extent is as long as it says, and its end is not behind the data. *)
Definition roomy `{Allocator} (e : InternalExtent) : Prop :=
  zlength (extent_data e) = extent_size e ∧ write_offset e ≤ extent_size e ≤ max_new.
(** [x] is the memory at the end of a node of the buffer where appended data would go. *)
Definition granted (m : mem) (ls : list ptr) (x : Extent) : Prop :=
  ext_node x ∈ ls ∧ 0 < ext_size x ∧ ∃ e, payloadof m (ext_node x) = Some e ∧
    ext_off x = write_offset e ∧ ext_off x + ext_size x = zlength (extent_data e).

Lemma roomy_free `{Allocator} m b ls L : rep m b ls L → (∀ e, last (exts L) = Some e → roomy e) →
  (∀ e, last (exts L) = Some e → appendable e = extent_size e - write_offset e) ∧ 0 ≤ free_space L ≤ max_new.
Proof.
  intros R Hroom. pose proof max_new_range as Hmx.
  assert (∀ e, last (exts L) = Some e → appendable e = extent_size e - write_offset e ∧ 0 ≤ appendable e ≤ max_new) as He.
  { intros e He. destruct (Hroom e He) as (_ & Hr).
    pose proof (rep_typed _ _ _ _ R) as T. apply (Forall_lookup_1 _ _ (pred (length (exts L))) e) in T as [_ _ [Hw0 _]];
      [|by rewrite <- last_lookup].
    unfold appendable. rewrite u64_small by (unfold is_u64, W64; lia). lia. }
  split; [intros; by apply He|]. unfold free_space. destruct (last (exts L)); [by apply He|lia].
Qed.

Definition total (xs : list Extent) : Z := foldr Z.add 0 (ext_size <$> xs).

(** What was told of the last extent still is so when nodes are added behind it. *)
Lemma free_extent_granted `{Allocator} m b ls L m' ls' L' : rep m b ls L →
  (∀ e, last (exts L) = Some e → roomy e) →
  rep m' b ls' L' → ls `prefix_of` ls' → exts L `prefix_of` exts L' →
  Forall (granted m' ls') (free_extent b ls L) ∧ total (free_extent b ls L) = free_space L.
Proof.
  intros R Hroom R' Pls Pes. destruct (roomy_free m b ls L R Hroom) as [He Hf].
  unfold free_extent, free_space in *. destruct (last (exts L)) as [e|] eqn:El; [|done].
  specialize (He e eq_refl). destruct (Hroom e eq_refl) as (Hd & _).
  destruct (Z.ltb_spec 0 (appendable e)); simpl; [|split; [done|unfold total; simpl; lia]].
  split; [|unfold total; simpl; lia]. constructor; [|done].
  destruct (rep_last_ext m b ls L R) as (e' & El' & Hl & Hx & _); [by intros E0; rewrite E0 in El|].
  rewrite El in El'. injection El' as <-.
  pose proof (prefix_lookup_Some _ _ _ _ Hl Pls) as Hl'. pose proof (prefix_lookup_Some _ _ _ _ Hx Pes) as Hx'.
  split; [by eapply list_elem_of_lookup_2|]. split; [simpl; lia|].
  exists e. split; [by apply (rep_payload _ _ _ _ R' _ _ _ Hl' Hx')|]. simpl. lia.
Qed.

(** The new node is all to be written. *)
Lemma new_extent_granted m b ls L cur n : rep m b (ls ++ [cur]) (set_exts (exts L ++ [fresh_ext n]) L) →
  0 < n → granted m (ls ++ [cur]) (mkExt n cur 0).
Proof.
  intros R Hn. split; [simpl; set_solver|]. split; [done|]. exists (fresh_ext n). split.
  - pose proof (rep_length _ _ _ _ R) as El. cbn [exts set_exts] in El. rewrite !length_app in El. cbn [length] in El.
    eapply (rep_payload _ _ _ _ R (length ls)); simpl; [by rewrite list_lookup_middle|].
    by rewrite list_lookup_middle by lia.
  - simpl. rewrite length_replicate. lia.
Qed.

Lemma total_app xs ys : total (xs ++ ys) = total xs + total ys.
Proof.
  unfold total. induction xs as [|x xs IH]; [done|].
  rewrite <- app_comm_cons, !fmap_cons. cbn [foldr]. rewrite IH. lia.
Qed.

(** C40: [reserve] with a vector adds to the vector, in the order appended data would
    take it, memory of the buffer of [size] bytes in all: what is free at the end of the
    last extent and, when it is not enough, a new extent.  When the allocator refuses, and
    also when more is free than is asked for, it throws [bad_alloc] and the buffer is as
    it was. *)
Theorem reserve_grants `{Allocator} m b ls L size acc :
  rep m b ls L → (∀ e, last (exts L) = Some e → roomy e) → is_u64 size →
  if (free_space L <=? size) && (size - free_space L <=? max_new) then
    wp (BufferImpl_reserve_extents b size acc) m (λ xs m', ∃ gs ls' L',
      xs = acc ++ gs ∧ total gs = size ∧ Forall (granted m' ls') gs ∧
      rep m' b ls' L' ∧ local_step m b ls m' ls' ∧
      L' = if size =? free_space L then L else set_exts (exts L ++ [fresh_ext (size - free_space L)]) L)
  else BufferImpl_reserve_extents b size acc m = Throws bad_alloc m.
Proof.
  intros R Hroom Hs. destruct (roomy_free m b ls L R Hroom) as [_ Hf].
  pose proof (reserve_extents_outcome m b ls L R size acc Hs) as Ho. pose proof max_new_range as Hmx.
  unfold wanted in Ho. destruct Hs as [Hs0 Hs1]. destruct (Z.leb_spec (free_space L) size) as [Hle|Hlt].
  - rewrite u64_small in Ho by (unfold is_u64; lia).
    destruct (Z.leb_spec (size - free_space L) max_new) as [Hm|Hm]; simpl; unfold wp.
    + destruct (BufferImpl_reserve_extents b size acc m) as [xs m'|e m'|f|]; [|lia|done..].
      destruct (Z.ltb_spec 0 (size - free_space L)).
      * destruct Ho as (cur & -> & R' & S' & _).
        destruct (free_extent_granted m b ls L _ _ _ R Hroom R') as [Hg Ht];
          [by eexists|simpl; by eexists|].
        eexists _, _, _. split_and!; [done| | |exact R'|exact S'|].
        -- rewrite total_app, Ht. unfold total. simpl. lia.
        -- apply Forall_app. split; [done|]. constructor; [by eapply new_extent_granted|done].
        -- by rewrite (proj2 (Z.eqb_neq _ _)) by lia.
      * destruct Ho as [-> ->]. destruct (free_extent_granted m b ls L _ _ _ R Hroom R) as [Hg Ht]; [done..|].
        exists (free_extent b ls L), ls, L. split_and!; [done|lia|done|done|apply local_refl|].
        by rewrite (proj2 (Z.eqb_eq _ _)) by lia.
    + destruct (BufferImpl_reserve_extents b size acc m) as [xs m'|e m'|f|]; [|by destruct Ho as (-> & -> & _)|done..].
      rewrite (proj2 (Z.ltb_lt _ _)) in Ho by lia. destruct Ho as (? & _ & _ & _ & ?). lia.
  - simpl. rewrite u64_sub_wrap in Ho by (unfold W64 in *; lia).
    destruct (BufferImpl_reserve_extents b size acc m) as [xs m'|e m'|f|]; [|by destruct Ho as (-> & -> & _)|done..].
    unfold W64 in *. rewrite (proj2 (Z.ltb_lt _ _)) in Ho by lia. destruct Ho as (? & _ & _ & _ & ?). lia.
Qed.

(** Four bytes after three were reserved: three that were free and one in a new extent;
    and three when four are free. *)
Lemma reserve_grants_witness :
  wp (BufferImpl_reserve 1 4) example_mem (λ _ m, ∃ ls L, rep m 1 ls L ∧
    wp (BufferImpl_reserve_extents 1 5 []) m (λ xs m', total xs = 5 ∧ ∃ ls', Forall (granted m' ls') xs) ∧
    BufferImpl_reserve_extents 1 3 [] m = Throws bad_alloc m).
Proof.
  destruct example_rep as [ls R].
  eapply refines_next; [intros; by apply refine_reserve|exact R|vm_compute; reflexivity|].
  intros _ m1 ls1 R1. eexists ls1, _. split; [exact R1|].
  assert (∀ e, Some (fresh_ext 4) = Some e → roomy e) as Hroom.
  { intros e [= <-]. split; [reflexivity|]. simpl. split; [lia|vm_compute; discriminate]. }
  split.
  - eapply wp_mono; [apply (reserve_grants m1 1%N ls1 _ 5 [] R1 Hroom); by split|].
    intros xs m' (gs & ls' & L' & -> & Ht & Hg & _). split; [exact Ht|]. by exists ls'.
  - apply (reserve_grants m1 1%N ls1 _ 3 [] R1 Hroom). by split.
Defined.
