(* ===== verification/Optional.v ===== *)
(** * Optional

    [Optional<T>] of [src/optional.h].  The storage is raw memory: a value in it
    lives from the constructor [construct] calls to the destructor [clear] calls,
    and nothing else ends its life.  The state of the model is the number of
    values of [T] that are alive, so that a value that is overwritten without
    being destroyed is seen as a leak. *)

From S2P Require Import Prelude.

Section optional.
Context {T : Type}.

(** [engaged_] and [value_]; [None] is the dummy member of the union, or storage
    whose value was destroyed. *)
Record Optional := mkOptional { engaged_ : bool; value_ : option T }.

(** The number of live values. *)
Abbreviation lives := Z.

(** Placement new of a [T], and [engaged_ = true]. *)
Definition construct (v : T) : M lives Optional :=
  modify (Z.add 1);; mret (mkOptional true (Some v)).

Definition clear (self : Optional) : M lives Optional :=
  if engaged_ self then modify (Z.add (-1));; mret (mkOptional false None)
  else mret self.

Definition Optional_new : M lives Optional := mret (mkOptional false None).
Definition Optional_copy (v : T) : M lives Optional := construct v.
Definition Optional_delete (self : Optional) : M lives unit := clear self;; mret tt.

(** The value in the storage; reading it while there is none is a fault. *)
Definition storage (o : Optional) : M lives T := of_option (value_ o) UseAfterFree.

(** [Optional(Optional &&)]: the source stays engaged, with a moved-from value. *)
Definition Optional_move (o : Optional) : M lives Optional :=
  if engaged_ o then v ← storage o; construct v
  else mret (mkOptional false None).

(** [make]: a temporary [T], moved into the optional and destroyed. *)
Definition Optional_make (v : T) : M lives Optional :=
  modify (Z.add 1);; o ← construct v; modify (Z.add (-1));; mret o.

Definition Optional_assign (self o : Optional) : M lives Optional :=
  if negb (engaged_ self) && negb (engaged_ o) then mret self
  else if engaged_ self && negb (engaged_ o) then clear self
  else v ← storage o; construct v.

Definition Optional_value (self : Optional) : M lives T :=
  if negb (engaged_ self) then throw (logic_error "Optional has no value")
  else storage self.

Definition Optional_bool (self : Optional) : bool := engaged_ self.

(** ** Invariant: engaged exactly when the storage holds a value *)

Definition opt_ok (o : Optional) : Prop :=
  engaged_ o = bool_decide (is_Some (value_ o)).

(** The number of values an optional owns. *)
Definition owned (o : Optional) : Z := if engaged_ o then 1 else 0.

Lemma opt_ok_cases o :
  opt_ok o → o = mkOptional false None ∨ ∃ v, o = mkOptional true (Some v).
Proof. destruct o as [[] [v|]]; unfold opt_ok; simpl; eauto; discriminate. Qed.

(** A use of an optional by its owner. *)
Inductive use := Assign (o : Optional) | Clear.
Definition run_use (self : Optional) (u : use) : M lives Optional :=
  match u with Assign o => Optional_assign self o | Clear => clear self end.
Fixpoint run_uses (self : Optional) (us : list use) : M lives Optional :=
  match us with
  | [] => mret self
  | u :: us => self ← run_use self u; run_uses self us
  end.
Definition use_ok (u : use) : Prop := match u with Assign o => opt_ok o | Clear => True end.

(** The assignments that find a value in place and put another one over it. *)
Fixpoint overwrites (e : bool) (us : list use) : Z :=
  match us with
  | [] => 0
  | Assign o :: us => (if e && engaged_ o then 1 else 0) + overwrites (engaged_ o) us
  | Clear :: us => overwrites false us
  end.

Lemma run_uses_lives self us n :
  opt_ok self → Forall use_ok us →
  ∃ self', opt_ok self' ∧
    run_uses self us n =
      Done self' (n - owned self + owned self' + overwrites (engaged_ self) us).
Proof.
  intros Hs Hu. revert self n Hs. induction Hu as [|u us Hu Hus IH]; intros self n Hs.
  { exists self. split; [done|]. simpl. unfold mret, M_ret. f_equal. lia. }
  destruct u as [o|]; simpl; unfold mbind, M_bind.
  - destruct (opt_ok_cases _ Hs) as [->|[v ->]], (opt_ok_cases _ Hu) as [->|[w ->]].
    all: cbv [run_use Optional_assign clear construct storage engaged_ value_ negb andb
      of_option modify mret M_ret mbind M_bind]; simpl.
    all: match goal with |- context [run_uses ?s ?l ?k] =>
      destruct (IH s k) as (s' & Hs' & E); [done|] end.
    all: exists s'; split; [done|]; rewrite E; unfold owned; simpl; f_equal; lia.
  - destruct (opt_ok_cases _ Hs) as [->|[v ->]]; cbv [run_use clear engaged_ modify mret M_ret
      mbind M_bind].
    all: match goal with |- context [run_uses ?s ?l ?k] =>
      destruct (IH s k) as (s' & Hs' & E); [done|] end.
    all: exists s'; split; [done|]; rewrite E; unfold owned; simpl; f_equal; lia.
Qed.
End optional.
Arguments Optional : clear implicits.
Arguments use : clear implicits.

(** C36: the life of an optional: over any sequence of assignments and resets, and the
    destructor at its end, no value is used after its destruction, and the values
    that are still alive afterwards are exactly those that an assignment to an
    engaged optional overwrote without destroying them. *)
Theorem optional_lives {T} (v : T) (us : list (use T)) n :
  Forall use_ok us →
  (o ← Optional_copy v; o ← run_uses o us; Optional_delete o) n =
    Done tt (n + overwrites true us).
Proof.
  intros Hu. unfold Optional_copy, construct.
  unfold mbind at 1, M_bind at 1. simpl. unfold mbind at 1, M_bind at 1.
  destruct (run_uses_lives (mkOptional true (Some v)) us (1 + n)) as (o & Ho & ->); [done..|].
  unfold Optional_delete, clear, owned.
  destruct (opt_ok_cases _ Ho) as [->|[w ->]]; simpl; unfold mbind, M_bind, modify, mret, M_ret;
    simpl; f_equal; lia.
Qed.

(** Two assignments of engaged optionals leak two values, the reset in between
    none. *)
Lemma optional_lives_witness :
  (o ← Optional_copy 1; o ← run_uses o [Assign (mkOptional true (Some 2)); Clear;
     Assign (mkOptional true (Some 3)); Assign (mkOptional true (Some 4))];
   Optional_delete o) 0 = Done tt 2.
Proof.
  apply (optional_lives 1 [Assign (mkOptional true (Some 2)); Clear;
     Assign (mkOptional true (Some 3)); Assign (mkOptional true (Some 4))] 0).
  by repeat constructor.
Defined.

(** Assignment makes an optional equal to its source, value and all; [value]
    returns the value of an engaged optional and throws [logic_error] on the others;
    and moving out of an optional makes an equal one. *)
Theorem optional_assign_value {T} (self o : Optional T) n :
  opt_ok self → opt_ok o →
  wp (Optional_assign self o) n (λ r _, r = o) ∧
  wp (Optional_move o) n (λ r _, r = o) ∧
  Optional_value o n =
    match value_ o with
    | Some v => Done v n
    | None => Throws (logic_error "Optional has no value") n
    end.
Proof.
  intros Hs Ho. destruct (opt_ok_cases _ Hs) as [->|[v ->]], (opt_ok_cases _ Ho) as [->|[w ->]];
    done.
Qed.

Lemma optional_assign_value_witness :
  wp (Optional_assign (mkOptional true (Some 1)) (mkOptional true (Some 2))) 1
    (λ r _, r = mkOptional true (Some 2)).
Proof.
  apply (optional_assign_value (mkOptional true (Some 1)) (mkOptional true (Some 2)) 1);
    reflexivity.
Defined.
