(* ===== verification/Mpsc.v ===== *)
(** * The multi-producer, single-consumer queue

    [ConcurrentMPSCQueue<T>] of [src/mpsc_queue.h], any number of producers and
    one consumer interleaved at every access to shared memory.  [push] and [pop]
    are small-step programs over the shared memory: one constructor of
    [producer] and [consumer] per point between two accesses.  The interleavings
    are sequentially consistent: every access takes effect at once ([Tso.v] has store buffers).

    Memory is allocated by [mkAligned] and released by [freeAligned]
    ([src/cache_aligned.h], in [Aligned.v]); an address may be handed out again after it was
    released, and an access to memory that is not allocated is a fault. *)

From S2P Require Import Prelude.

Abbreviation nid := N.

Section queue.
Context {T : Type}.
(** A default-constructed [T], and what a move leaves behind. *)
Context (T_default T_moved : T).

Record Node := mkNode { data : T; next : option nid }.

Record queue := mkQueue {
  heap : gmap nid Node;
  head_ : nid;
  tail_ : nid;
  (* auxiliary: what was pushed, in the order of the exchanges, and popped *)
  pushed : list T;
  popped : list T;
}.

Definition set_heap (f : gmap nid Node → gmap nid Node) (s : queue) : queue :=
  mkQueue (f (heap s)) (head_ s) (tail_ s) (pushed s) (popped s).

(** ** Accesses *)

Definition load (p : nid) : M queue Node := λ s,
  match heap s !! p with Some n => Done n s | None => Faults UseAfterFree end.
Definition store (p : nid) (n : Node) : M queue unit := λ s,
  match heap s !! p with
  | Some _ => Done tt (set_heap <[p := n]> s)
  | None => Faults UseAfterFree
  end.
Definition freeAligned (p : nid) : M queue unit := λ s,
  match heap s !! p with
  | Some _ => Done tt (set_heap (delete p) s)
  | None => Faults DoubleFree
  end.
(** [mkAligned<Node>(...)] at the address [p] the allocator picks. *)
Definition mkAligned (p : nid) (n : Node) : M queue unit := λ s,
  match heap s !! p with
  | None => Done tt (set_heap <[p := n]> s)
  | Some _ => Faults BadCall
  end.

(** [ConcurrentMPSCQueue()], the first node being at [p]. *)
Definition ConcurrentMPSCQueue (p : nid) : queue :=
  mkQueue {[ p := mkNode T_default None ]} p p [] [].

(** ** [push] *)

Inductive producer :=
| PAlloc (item : T)                       (** about to allocate [cur] *)
| PExchange (cur : nid) (item : T)        (** about to swap [head_] *)
| PTail (cur prev : nid)                  (** about to load [tail_] *)
| PPublish (cur prev : nid) (emptyAtInit : bool)
| PTail2 (prev : nid)                     (** about to load [tail_] again *)
| PRet (result : bool).

(** One access of [push]; [p] is the address for an allocation. *)
Definition push_step (p : nid) (pc : producer) : M queue producer :=
  match pc with
  | PAlloc item => mkAligned p (mkNode item None);; mret (PExchange p item)
  | PExchange cur item =>
      prev ← gets head_;
      modify (λ s, mkQueue (heap s) cur (tail_ s) (pushed s ++ [item]) (popped s));;
      mret (PTail cur prev)
  | PTail cur prev =>
      t ← gets tail_;
      mret (PPublish cur prev (bool_decide (prev = t)))
  | PPublish cur prev emptyAtInit =>
      n ← load prev;
      store prev (mkNode (data n) (Some cur));;
      mret (if (emptyAtInit : bool) then PRet true else PTail2 prev)
  | PTail2 prev =>
      t ← gets tail_;
      mret (PRet (bool_decide (t = prev)))
  | PRet b => mret (PRet b)
  end.

(** ** [pop] *)

Inductive consumer :=
| CIdle                                   (** between calls *)
| CNext (tail : nid)                      (** about to load [tail->next] *)
| CStore (tail next : nid)                (** about to store [tail_] *)
| CFree (tail next : nid)
| CMove (next : nid)                      (** about to move the value out *)
| CRet (result : option T).

Definition pop_step (pc : consumer) : M queue consumer :=
  match pc with
  | CIdle => t ← gets tail_; mret (CNext t)
  | CNext t =>
      n ← load t;
      mret (match next n with None => CRet None | Some n => CStore t n end)
  | CStore t n =>
      modify (λ s, mkQueue (heap s) (head_ s) n (pushed s) (popped s));;
      mret (CFree t n)
  | CFree t n => freeAligned t;; mret (CMove n)
  | CMove n =>
      nd ← load n;
      store n (mkNode T_moved (next nd));;
      modify (λ s, mkQueue (heap s) (head_ s) (tail_ s) (pushed s) (popped s ++ [data nd]));;
      mret (CRet (Some (data nd)))
  | CRet r => mret (CRet r)
  end.

(** ** The system: any number of calls of [push], one consumer *)

Record state := mkState {
  shared : queue;
  producers : gmap nat producer;   (** the calls of [push] in progress *)
  cons : consumer;
  (* auxiliary: the last completed [pop] found the queue empty *)
  found_empty : bool;
  (* auxiliary: since then, some [push] has returned true *)
  signalled : bool;
}.

Definition init (p : nid) : state := mkState (ConcurrentMPSCQueue p) ∅ CIdle true false.

Definition set_producer (i : nat) (o : option producer) (P : gmap nat producer) :=
  partial_alter (λ _, o) i P.

Inductive step : state → state → Prop :=
| step_call s i item :
    producers s !! i = None →
    step s (mkState (shared s) (set_producer i (Some (PAlloc item)) (producers s)) (cons s)
              (found_empty s) (signalled s))
| step_push s i p pc pc' q' :
    producers s !! i = Some pc → heap (shared s) !! p = None →
    push_step p pc (shared s) = Done pc' q' →
    step s (mkState q' (set_producer i (Some pc') (producers s)) (cons s) (found_empty s) (signalled s))
| step_return s i b :
    producers s !! i = Some (PRet b) →
    step s (mkState (shared s) (set_producer i None (producers s)) (cons s)
              (found_empty s) (signalled s || b))
| step_pop s pc' q' :
    pop_step (cons s) (shared s) = Done pc' q' →
    (∀ r, cons s ≠ CRet r) →
    step s (mkState q' (producers s) pc'
              (match pc' with CStore _ _ => false | CRet None => true | _ => found_empty s end)
              (match pc' with CRet None => false | _ => signalled s end))
| step_popped s r :
    cons s = CRet r →
    step s (mkState (shared s) (producers s) CIdle (found_empty s) (signalled s)).

(** A call that the scheduler lets run would fault. *)
Definition stuck (s : state) : Prop :=
  (∃ i pc p f, producers s !! i = Some pc ∧ heap (shared s) !! p = None ∧
     push_step p pc (shared s) = Faults f) ∨
  (∃ f, pop_step (cons s) (shared s) = Faults f).

(** ** The invariant

    The nodes form a chain [q] from [tail_] to [head_]; every node but the last
    is linked to the next one, or the producer of that next one is about to
    link it.  [xs] are the values in the queue. *)

Definition adj (q : list nid) (a b : nid) : Prop := ∃ l1 l2, q = l1 ++ a :: b :: l2.

(** What a producer holds: it is about to link [c] behind [p]; it owns the node
    [c], not yet in the chain; it is bound to return true. *)
Definition links (o : option producer) (c p : nid) : Prop :=
  match o with
  | Some (PTail c' p') | Some (PPublish c' p' _) => c = c' ∧ p = p'
  | _ => False
  end.
Definition owns (o : option producer) (c : nid) (x : T) : Prop :=
  match o with Some (PExchange c' x') => c = c' ∧ x = x' | _ => False end.
Definition signals (o : option producer) (t : nid) : Prop :=
  match o with Some (PTail2 t') => t = t' | Some (PRet b) => b = true | _ => False end.

(** The nodes whose values are still in the queue: not the first one, unless
    [pop] is about to take its value. *)
Definition pending (c : consumer) (q : list nid) : list nid :=
  match c with CFree _ _ | CMove _ => q | _ => tail q end.

(** What the consumer knows. *)
Definition cons_ok (s : state) (q : list nid) : Prop :=
  let h := heap (shared s) in
  let t := tail_ (shared s) in
  match cons s with
  | CIdle | CRet _ => True
  | CNext a => a = t
  | CStore a n => a = t ∧ (∃ x, h !! a = Some (mkNode x (Some n)))
  | CFree a n => t = n ∧ (a ∉ q) ∧ is_Some (h !! a) ∧ (∀ i x, ¬ owns (producers s !! i) a x)
  | CMove n => t = n
  end.

Record inv (s : state) (q : list nid) (xs : list T) : Prop := {
  i_nodup : NoDup q;
  i_tail : head q = Some (tail_ (shared s));
  i_head : last q = Some (head_ (shared s));
  i_alive a : a ∈ q → is_Some (heap (shared s) !! a);
  i_last x n : heap (shared s) !! head_ (shared s) = Some (mkNode x n) → n = None;
  i_link a b x n : adj q a b → heap (shared s) !! a = Some (mkNode x n) →
    n = Some b ∨ (n = None ∧ (∃ i, links (producers s !! i) b a));
  i_pub i c p : links (producers s !! i) c p →
    adj q p c ∧ (∃ x, heap (shared s) !! p = Some (mkNode x None));
  i_pub1 i j c c' p : links (producers s !! i) c p → links (producers s !! j) c' p → i = j;
  i_own i c x : owns (producers s !! i) c x →
    (c ∉ q) ∧ heap (shared s) !! c = Some (mkNode x None);
  i_own1 i j c x y : owns (producers s !! i) c x → owns (producers s !! j) c y → i = j;
  i_cons : cons_ok s q;
  i_data : Forall2 (λ a x, data <$> heap (shared s) !! a = Some x) (pending (cons s) q) xs;
  i_log : pushed (shared s) = popped (shared s) ++ xs;
  i_calm : found_empty s = true →
    match cons s with CIdle | CNext _ | CRet None => True | _ => False end;
  i_signal x n : found_empty s = true →
    heap (shared s) !! tail_ (shared s) = Some (mkNode x (Some n)) →
    signalled s = true ∨ (∃ i, signals (producers s !! i) (tail_ (shared s)));
  i_leak a : is_Some (heap (shared s) !! a) →
    a ∈ q ∨ (∃ i x, owns (producers s !! i) a x) ∨ (∃ n, cons s = CFree a n);
}.

(** Facts about chains. *)
Lemma adj_left q a b : adj q a b → a ∈ q.
Proof. intros (l1 & l2 & ->). set_solver. Qed.

Lemma adj_last q h c : NoDup q → last q = Some h → ¬ adj q h c.
Proof.
  intros ND [q' ->]%last_Some (l1 & l2 & E).
  assert (length q' = length l1) as El.
  { eapply (NoDup_lookup (q' ++ [h])); [done| |rewrite E]; by rewrite list_lookup_middle. }
  apply (f_equal length) in E. rewrite !length_app in E. simpl in E. lia.
Qed.

Lemma adj_snoc q h a b c : last q = Some h → adj (q ++ [c]) a b ↔ adj q a b ∨ a = h ∧ b = c.
Proof.
  intros [q' ->]%last_Some. split.
  - intros (l1 & l2 & E). destruct l2 as [|y l2 _] using rev_ind.
    + right. rewrite <- app_assoc in E. cbn [app] in E.
      change (l1 ++ [a; b]) with (l1 ++ [a] ++ [b]) in E.
      change (q' ++ [h; c]) with (q' ++ [h] ++ [c]) in E. rewrite !app_assoc in E.
      by apply app_inj_tail in E as [[_ ->]%app_inj_tail ->].
    + left. exists l1, l2. rewrite app_comm_cons, app_comm_cons, app_assoc in E.
      by apply app_inj_tail in E as [-> _].
  - intros [(l1 & l2 & ->)|[-> ->]]; [|by exists q', []; rewrite <- app_assoc].
    exists l1, (l2 ++ [c]). by rewrite <- app_assoc.
Qed.

Lemma adj_cons q t a b : adj q a b → adj (t :: q) a b.
Proof. intros (l1 & l2 & ->). by exists (t :: l1), l2. Qed.

Lemma adj_fun q a b b' : NoDup q → adj q a b → adj q a b' → b = b'.
Proof.
  intros ND (l1 & l2 & E1) (k1 & k2 & E2).
  assert (q !! S (length l1) = Some b) as L1.
  { rewrite E1, lookup_app_r by lia. by replace (S (length l1) - length l1)%nat with 1%nat by lia. }
  assert (q !! S (length k1) = Some b') as L2.
  { rewrite E2, lookup_app_r by lia. by replace (S (length k1) - length k1)%nat with 1%nat by lia. }
  assert (length l1 = length k1) as E.
  { eapply NoDup_lookup; [exact ND|rewrite E1|rewrite E2]; by rewrite list_lookup_middle. }
  congruence.
Qed.

Lemma adj_inj q a a' b : NoDup q → adj q a b → adj q a' b → a = a'.
Proof.
  intros ND (l1 & l2 & E1) (k1 & k2 & E2).
  assert (q !! length l1 = Some a) as L1 by (rewrite E1; by rewrite list_lookup_middle).
  assert (q !! length k1 = Some a') as L2 by (rewrite E2; by rewrite list_lookup_middle).
  assert (S (length l1) = S (length k1)) as E.
  { eapply (NoDup_lookup q _ _ b); [exact ND|rewrite E1|rewrite E2];
      rewrite lookup_app_r by lia;
      match goal with |- _ !! ?k = _ => by replace k with 1%nat by lia end. }
  injection E as E. congruence.
Qed.

Lemma adj_second t n q b : NoDup (t :: n :: q) → adj (t :: n :: q) t b → b = n.
Proof. intros ND A. eapply adj_fun; [done|exact A|]. by exists [], q. Qed.

Lemma adj_head t n q a : NoDup (t :: n :: q) → a ∈ n :: q → ¬ adj (t :: n :: q) a t.
Proof.
  intros [Ht _]%NoDup_cons Ha ([|x l1] & l2 & E); injection E as E1 E2.
  - subst. done.
  - apply Ht. rewrite E2. set_solver.
Qed.


(** ** Every step preserves the invariant *)

Lemma set_producer_lookup P i o j :
  set_producer i o P !! j = if decide (i = j) then o else P !! j.
Proof.
  unfold set_producer. case_decide; subst; [apply lookup_partial_alter_eq|].
  by apply lookup_partial_alter_ne.
Qed.

(** Steps that change neither the memory nor what the producer [i] holds, but for
    the signal it owes. *)
Lemma inv_quiet s q xs i o sig :
  inv s q xs →
  (∀ c p, links (producers s !! i) c p ↔ links o c p) →
  (∀ c x, owns (producers s !! i) c x ↔ owns o c x) →
  (∀ x n, heap (shared s) !! tail_ (shared s) = Some (mkNode x (Some n)) →
     signalled s = true ∨ signals (producers s !! i) (tail_ (shared s)) →
     sig = true ∨ signals o (tail_ (shared s))) →
  inv (mkState (shared s) (set_producer i o (producers s)) (cons s) (found_empty s) sig) q xs.
Proof.
  intros I Hl Ho Hs.
  assert (L : ∀ j c p, links (set_producer i o (producers s) !! j) c p ↔ links (producers s !! j) c p).
  { intros. rewrite set_producer_lookup. case_decide; subst; [by rewrite Hl|done]. }
  assert (O : ∀ j c x, owns (set_producer i o (producers s) !! j) c x ↔ owns (producers s !! j) c x).
  { intros. rewrite set_producer_lookup. case_decide; subst; [by rewrite Ho|done]. }
  destruct I. split; simpl; try done.
  - intros a b x n A E. destruct (i_link0 a b x n A E) as [|(-> & j & Hj)]; [by left|right].
    split; [done|]. exists j. by apply L.
  - intros j c p Hj%L. eauto.
  - intros j k c c' p Hj%L Hk%L. eauto.
  - intros j c x Hj%O. eauto.
  - intros j k c x y Hj%O Hk%O. eauto.
  - unfold cons_ok in *. simpl. destruct (cons s); try done.
    destruct i_cons0 as (? & ? & ? & N). split_and!; try done. intros j x Hj%O. by apply (N j x).
  - intros x n F E. destruct (i_signal0 x n F E) as [Hsig|[j Hj]].
    + destruct (Hs x n E) as [|?]; [by left|by left|right]. exists i.
      rewrite set_producer_lookup. by case_decide.
    + destruct (decide (i = j)) as [->|Hne].
      * destruct (Hs x n E) as [|?]; [by right|by left|right]. exists j.
        rewrite set_producer_lookup. by case_decide.
      * right. exists j. rewrite set_producer_lookup. by case_decide.
  - intros a Ha. destruct (i_leak0 a Ha) as [|[(j & x & Hj)|]]; [by left|right; left|by auto].
    exists j, x. by apply O.
Qed.

(** The values do not depend on the links. *)
Lemma data_kept (h h' : gmap nid Node) l xs :
  Forall2 (λ a x, data <$> h !! a = Some x) l xs →
  (∀ a, a ∈ l → data <$> h' !! a = data <$> h !! a) →
  Forall2 (λ a x, data <$> h' !! a = Some x) l xs.
Proof.
  induction 1 as [|a x l xs Ha F IH]; intros K; constructor.
  - rewrite K by set_solver. done.
  - apply IH. intros b Hb. apply K. set_solver.
Qed.

Lemma pending_elem c q a : a ∈ pending c q → a ∈ q.
Proof. destruct c; simpl; try done; destruct q; simpl; set_solver. Qed.

Lemma pending_snoc c q a : q ≠ [] → pending c (q ++ [a]) = pending c q ++ [a].
Proof. destruct c, q; done. Qed.

Lemma inv_alloc s q xs i p x :
  inv s q xs → producers s !! i = Some (PAlloc x) → heap (shared s) !! p = None →
  inv (mkState (set_heap <[p := mkNode x None]> (shared s))
         (set_producer i (Some (PExchange p x)) (producers s)) (cons s)
         (found_empty s) (signalled s)) q xs.
Proof.
  intros I Hi Hp.
  assert (L : ∀ j c a, links (set_producer i (Some (PExchange p x)) (producers s) !! j) c a ↔
    links (producers s !! j) c a).
  { intros. rewrite set_producer_lookup. case_decide; subst; [by rewrite Hi|done]. }
  assert (O : ∀ j c y, owns (set_producer i (Some (PExchange p x)) (producers s) !! j) c y ↔
    owns (producers s !! j) c y ∨ (i = j ∧ c = p ∧ y = x)).
  { intros. rewrite set_producer_lookup. case_decide; subst; [rewrite Hi|]; simpl; naive_solver. }
  destruct I.
  assert (Hpq : p ∉ q) by (intros [y Hy]%i_alive0; congruence).
  assert (K : ∀ a, a ∈ q → <[p := mkNode x None]> (heap (shared s)) !! a = heap (shared s) !! a).
  { intros a Ha. apply lookup_insert_ne. congruence. }
  assert (Hh : head_ (shared s) ∈ q) by by apply last_Some_elem_of.
  assert (Ht : tail_ (shared s) ∈ q) by by apply head_Some_elem_of.
  split; simpl; try done.
  - intros a Ha. rewrite K by done. eauto.
  - intros y n. rewrite K by done. eauto.
  - intros a b y n A. rewrite K by by eapply adj_left. intros E.
    destruct (i_link0 a b y n A E) as [|(-> & j & Hj)]; [by left|right].
    split; [done|]. exists j. by apply L.
  - intros j c a Hj%L. destruct (i_pub0 j c a Hj) as [A ?]. split; [done|].
    rewrite K by by eapply adj_left. done.
  - intros j k c c' a Hj%L Hk%L. eauto.
  - intros j c y [Hj|(-> & -> & ->)]%O.
    + destruct (i_own0 j c y Hj) as [? E]. split; [done|].
      rewrite lookup_insert_ne by congruence. done.
    + split; [done|apply lookup_insert_eq].
  - intros j k c y z [Hj|(-> & -> & ->)]%O [Hk|(-> & ? & ?)]%O; subst; eauto.
    + destruct (i_own0 j p y Hj). congruence.
    + destruct (i_own0 k p z Hk). congruence.
  - unfold cons_ok in *. simpl. destruct (cons s) as [|a|a n|a n|n|r]; try done.
    + destruct i_cons0 as (-> & y & E). split; [done|]. exists y. by rewrite K.
    + destruct i_cons0 as (? & ? & [z E] & N). split_and!; try done.
      * rewrite lookup_insert_ne by congruence. eauto.
      * intros j y [Hj|(_ & -> & _)]%O; [by apply (N j y)|congruence].
  - eapply data_kept; [done|]. intros a Ha%pending_elem. by rewrite K.
  - intros y n F. rewrite K by done. intros E.
    destruct (i_signal0 y n F E) as [|[j Hj]]; [by left|right]. exists j.
    rewrite set_producer_lookup. case_decide; [|done]. subst. by rewrite Hi in Hj.
  - intros a. destruct (decide (a = p)) as [->|Hne].
    + intros _. right; left. exists i, x. apply O. auto.
    + rewrite lookup_insert_ne by done. intros Ha.
      destruct (i_leak0 a Ha) as [|[(j & y & Hj)|]]; [by left|right; left|by auto].
      exists j, y. apply O. by left.
Qed.

Lemma inv_exchange s q xs i cur x :
  inv s q xs → producers s !! i = Some (PExchange cur x) →
  inv (mkState (mkQueue (heap (shared s)) cur (tail_ (shared s)) (pushed (shared s) ++ [x])
                  (popped (shared s)))
         (set_producer i (Some (PTail cur (head_ (shared s)))) (producers s)) (cons s)
         (found_empty s) (signalled s)) (q ++ [cur]) (xs ++ [x]).
Proof.
  intros I Hi. set (h := head_ (shared s)).
  assert (L : ∀ j c a, links (set_producer i (Some (PTail cur h)) (producers s) !! j) c a ↔
    links (producers s !! j) c a ∨ (i = j ∧ c = cur ∧ a = h)).
  { intros. rewrite set_producer_lookup. case_decide; subst; [rewrite Hi|]; simpl; naive_solver. }
  assert (O : ∀ j c y, owns (set_producer i (Some (PTail cur h)) (producers s) !! j) c y ↔
    owns (producers s !! j) c y ∧ i ≠ j).
  { intros. rewrite set_producer_lookup. case_decide; subst; simpl; naive_solver. }
  destruct I. destruct (i_own0 i cur x) as [Hcur Ecur]; [by rewrite Hi|].
  assert (Hh : h ∈ q) by by apply last_Some_elem_of.
  assert (N : ∀ j c, ¬ links (producers s !! j) c h).
  { intros j c Hj. destruct (i_pub0 j c h Hj) as [A _]. by eapply adj_last. }
  assert (Hne : q ≠ []) by (intros ->; done).
  split; simpl; try done.
  - apply NoDup_app. split_and!; [done| |apply NoDup_singleton]. set_solver.
  - by destruct q.
  - by rewrite last_snoc.
  - intros a [?| ->%list_elem_of_singleton]%elem_of_app; eauto.
  - intros y n. rewrite Ecur. congruence.
  - intros a b y n [A|[-> ->]]%(adj_snoc _ h) E; [..|done].
    + destruct (i_link0 a b y n A E) as [|(-> & j & Hj)]; [by left|right].
      split; [done|]. exists j. apply L. by left.
    + right. pose proof (i_last0 y n E) as ->. split; [done|]. exists i. apply L. auto.
  - intros j c a [Hj|(<- & -> & ->)]%L.
    + destruct (i_pub0 j c a Hj). split; [|done]. apply (adj_snoc _ h); [done|by left].
    + split; [apply (adj_snoc _ h); [done|by right]|].
      destruct (i_alive0 h Hh) as [[y n] E]. exists y. by rewrite <- (i_last0 y n E).
  - intros j k c c' a [Hj|(<- & -> & ->)]%L [Hk|(<- & -> & Ha)]%L; eauto.
    + subst a. by destruct (N j c).
    + by destruct (N k c').
  - intros j c y [Hj ?]%O. destruct (i_own0 j c y Hj). split; [|done].
    intros [?| ->%list_elem_of_singleton]%elem_of_app; [done|].
    apply H. eapply i_own2; [|exact Hj]. by rewrite Hi.
  - intros j k c y z [Hj _]%O [Hk _]%O. eauto.
  - unfold cons_ok in *. simpl. destruct (cons s) as [|a|a n|a n|n|r]; try done.
    destruct i_cons0 as (? & ? & ? & M). split_and!; try done.
    + intros [?| ->%list_elem_of_singleton]%elem_of_app; [done|].
      apply (M i x). by rewrite Hi.
    + intros j y [Hj _]%O. by apply (M j y).
  - rewrite pending_snoc by done. apply Forall2_app; [done|]. repeat constructor. by rewrite Ecur.
  - by rewrite i_log0, app_assoc.
  - intros y n F E. destruct (i_signal0 y n F E) as [|[j Hj]]; [by left|right]. exists j.
    rewrite set_producer_lookup. case_decide; [|done]. subst. by rewrite Hi in Hj.
  - intros a Ha. destruct (i_leak0 a Ha) as [|[(j & y & Hj)|]]; [left; set_solver| |by auto].
    destruct (decide (i = j)) as [<-|].
    + rewrite Hi in Hj. destruct Hj as [-> _]. left. set_solver.
    + right; left. exists j, y. by apply O.
Qed.

Lemma inv_publish s q xs i cur prev e x n :
  inv s q xs → producers s !! i = Some (PPublish cur prev e) →
  heap (shared s) !! prev = Some (mkNode x n) →
  inv (mkState (set_heap <[prev := mkNode x (Some cur)]> (shared s))
         (set_producer i (Some (if e then PRet true else PTail2 prev)) (producers s)) (cons s)
         (found_empty s) (signalled s)) q xs.
Proof.
  intros I Hi Ex. set (pc := if e then PRet true else PTail2 prev).
  assert (L : ∀ j c a, links (set_producer i (Some pc) (producers s) !! j) c a ↔
    links (producers s !! j) c a ∧ i ≠ j).
  { intros. rewrite set_producer_lookup. case_decide; subst; [|naive_solver].
    unfold pc. destruct e; simpl; naive_solver. }
  assert (O : ∀ j c y, owns (set_producer i (Some pc) (producers s) !! j) c y ↔
    owns (producers s !! j) c y).
  { intros. rewrite set_producer_lookup. case_decide; subst; [|done].
    rewrite Hi. unfold pc. by destruct e. }
  assert (Li : links (producers s !! i) cur prev) by by rewrite Hi.
  destruct I. destruct (i_pub0 i cur prev Li) as [A [x' Ex']].
  assert (x' = x ∧ n = None) as [-> ->] by naive_solver.
  pose proof (adj_left _ _ _ A) as Hp.
  assert (K : ∀ a, a ≠ prev →
    <[prev := mkNode x (Some cur)]> (heap (shared s)) !! a = heap (shared s) !! a).
  { intros a Ha. by apply lookup_insert_ne. }
  split; simpl; try done.
  - intros a Ha. destruct (decide (a = prev)) as [->|]; [by rewrite lookup_insert_eq|].
    rewrite K by done. eauto.
  - intros y n. rewrite K; [eauto|]. intros E. by apply (adj_last q (head_ (shared s)) cur); [..|rewrite E].
  - intros a b y n A'. destruct (decide (a = prev)) as [->|Hne].
    + rewrite lookup_insert_eq. intros [= <- <-]. left. f_equal. by eapply adj_fun.
    + rewrite K by done. intros E.
      destruct (i_link0 a b y n A' E) as [|(-> & j & Hj)]; [by left|right].
      split; [done|]. exists j. apply L. split; [done|]. intros ->. rewrite Hi in Hj.
      by destruct Hj.
  - intros j c a [Hj Hne]%L. destruct (i_pub0 j c a Hj) as [? ?]. split; [done|].
    rewrite K; [done|]. intros ->. apply Hne. eauto.
  - intros j k c c' a [Hj _]%L [Hk _]%L. eauto.
  - intros j c y Hj%O. destruct (i_own0 j c y Hj) as [? E]. split; [done|].
    rewrite K; [done|]. by intros ->.
  - intros j k c y z Hj%O Hk%O. eauto.
  - unfold cons_ok in *. simpl. destruct (cons s) as [|a|a n|a n|n|r]; try done.
    + destruct i_cons0 as (-> & y & E). split; [done|]. exists y. rewrite K; [done|]. congruence.
    + destruct i_cons0 as (? & ? & E & N). split_and!; try done.
      * rewrite K; [done|]. by intros ->.
      * intros j y Hj%O. by apply (N j y).
  - eapply data_kept; [done|]. intros a _. destruct (decide (a = prev)) as [->|].
    + by rewrite lookup_insert_eq, Ex.
    + by rewrite K.
  - intros y n F. destruct (decide (tail_ (shared s) = prev)) as [E|Hne].
    + intros _. right. exists i. rewrite set_producer_lookup, decide_True by done.
      unfold pc. by destruct e.
    + rewrite K by done. intros E. destruct (i_signal0 y n F E) as [|[j Hj]]; [by left|right].
      exists j. rewrite set_producer_lookup. case_decide; [|done]. subst. by rewrite Hi in Hj.
  - intros a Ha. assert (is_Some (heap (shared s) !! a)) as Ha'.
    { destruct (decide (a = prev)) as [->|]; [by rewrite Ex|]. by rewrite K in Ha. }
    destruct (i_leak0 a Ha') as [|[(j & y & Hj)|]]; [by left|right; left|by auto].
    exists j, y. by apply O.
Qed.

(** *** The consumer *)

(** A move of the consumer that changes nothing in memory. *)
Lemma inv_consumer s q xs pc fe sig :
  inv s q xs → pending pc q = pending (cons s) q →
  cons_ok (mkState (shared s) (producers s) pc fe sig) q →
  (∀ a n, cons s ≠ CFree a n) →
  (fe = true → match pc with CIdle | CNext _ | CRet None => True | _ => False end) →
  (∀ x n, fe = true → heap (shared s) !! tail_ (shared s) = Some (mkNode x (Some n)) →
     found_empty s = true ∧ sig = signalled s) →
  inv (mkState (shared s) (producers s) pc fe sig) q xs.
Proof.
  intros I Hp Hc Hf Hcalm Hs. destruct I. split; simpl; try done.
  - by rewrite Hp.
  - intros x n F E. destruct (Hs x n F E) as [F' ->]. eauto.
  - intros a Ha. destruct (i_leak0 a Ha) as [|[|[n E]]]; [by left|by auto|].
    by destruct (Hf a n).
Qed.

Lemma adj_uncons q t a b : adj (t :: q) a b → a ≠ t → adj q a b.
Proof.
  intros ([|y l1] & l2 & E) Hne; injection E as E1 E2; [congruence|]. by exists l1, l2.
Qed.

Lemma inv_store s q xs t n :
  inv s q xs → cons s = CStore t n →
  ∃ q', q = t :: q' ∧
  inv (mkState (mkQueue (heap (shared s)) (head_ (shared s)) n (pushed (shared s))
                  (popped (shared s)))
         (producers s) (CFree t n) (found_empty s) (signalled s)) q' xs.
Proof.
  intros I Hc. destruct I. unfold cons_ok in i_cons0. rewrite Hc in i_cons0.
  destruct i_cons0 as (-> & x & Et).
  destruct q as [|t q]; [done|]. injection i_tail0 as Et'. subst t.
  set (t := tail_ (shared s)) in *.
  assert (∃ q', q = n :: q') as [q' ->].
  { destruct q as [|b q'].
    - injection i_head0 as Eh. rewrite Eh in Et. by apply i_last0 in Et.
    - exists q'. destruct (i_link0 t b x (Some n)) as [[= ->]|[? _]]; [by exists [], q'|done..]. }
  pose proof i_nodup0 as [Htq ND]%NoDup_cons.
  assert (P : ∀ i c p, links (producers s !! i) c p → p ≠ t).
  { intros i c p Hi ->. destruct (i_pub0 i c t Hi) as [_ [y E]]. congruence. }
  exists (n :: q'). split; [done|]. split; simpl; try done.
  - intros a Ha. apply i_alive0. set_solver.
  - intros a b y m A E. by apply (i_link0 a b y m (adj_cons _ _ _ _ A)).
  - intros i c p Hi. destruct (i_pub0 i c p Hi). split; [|done].
    eapply adj_uncons; [done|]. by eapply P.
  - intros i c y Hi. destruct (i_own0 i c y Hi). split; [set_solver|done].
  - split_and!; [done|done|by exists (mkNode x (Some n))|]. intros i y Hi. destruct (i_own0 i t y Hi). set_solver.
  - by rewrite Hc in i_data0.
  - intros F. specialize (i_calm0 F). by rewrite Hc in i_calm0.
  - intros y m F. specialize (i_calm0 F). by rewrite Hc in i_calm0.
  - intros a Ha. destruct (i_leak0 a Ha) as [[->|]%elem_of_cons|[|[m E]]];
      [right; right; by exists n|by left|by auto|congruence].
Qed.

Lemma inv_free s q xs t n :
  inv s q xs → cons s = CFree t n →
  inv (mkState (set_heap (delete t) (shared s)) (producers s) (CMove n)
         (found_empty s) (signalled s)) q xs.
Proof.
  intros I Hc. destruct I. unfold cons_ok in i_cons0. rewrite Hc in *.
  destruct i_cons0 as (Et & Ht & Hs & N).
  assert (K : ∀ a, a ∈ q → delete t (heap (shared s)) !! a = heap (shared s) !! a).
  { intros a Ha. apply lookup_delete_ne. congruence. }
  assert (Hh : head_ (shared s) ∈ q) by by apply last_Some_elem_of.
  split; simpl; try done.
  - intros a Ha. rewrite K by done. eauto.
  - intros y m. rewrite K by done. eauto.
  - intros a b y m A. rewrite K by (by eapply adj_left). eauto.
  - intros i c p Hi. destruct (i_pub0 i c p Hi). rewrite K; [done|]. by eapply adj_left.
  - intros i c y Hi. destruct (i_own0 i c y Hi). split; [done|].
    rewrite lookup_delete_ne; [done|]. intros <-. by apply (N i y).
  - eapply data_kept; [done|]. intros a Ha. by rewrite K.
  - intros a [y [Hne Ha]%lookup_delete_Some].
    destruct (i_leak0 a (mk_is_Some _ _ Ha)) as [|[|[m E]]]; [by left|by auto|congruence].
Qed.

Lemma inv_move s q xs n x m :
  inv s q xs → cons s = CMove n → heap (shared s) !! n = Some (mkNode x m) →
  ∃ xs', xs = x :: xs' ∧
  inv (mkState (mkQueue (<[n := mkNode T_moved m]> (heap (shared s))) (head_ (shared s))
                  (tail_ (shared s)) (pushed (shared s)) (popped (shared s) ++ [x]))
         (producers s) (CRet (Some x)) (found_empty s) (signalled s)) q xs'.
Proof.
  intros I Hc En. destruct I. unfold cons_ok in i_cons0. rewrite Hc in *. simpl in i_data0.
  destruct q as [|t q]; [done|]. injection i_tail0 as Et. subst t. rewrite i_cons0 in *.
  pose proof i_nodup0 as [Hn ND]%NoDup_cons.
  apply Forall2_cons_inv_l in i_data0 as (x' & xs' & E & F & ->).
  rewrite En in E. injection E as <-.
  exists xs'. split; [done|].
  assert (K : ∀ a y k, <[n := mkNode T_moved m]> (heap (shared s)) !! a = Some (mkNode y k) →
    ∃ y', heap (shared s) !! a = Some (mkNode y' k)).
  { intros a y k [[<- [= <- <-]]|[? ?]]%lookup_insert_Some; eauto. }
  assert (K' : ∀ a, is_Some (<[n := mkNode T_moved m]> (heap (shared s)) !! a) →
    is_Some (heap (shared s) !! a)).
  { intros a [[y k] E]. apply K in E as [? ->]. done. }
  split; simpl; try done.
  - intros a Ha. destruct (decide (a = n)) as [->|]; [by rewrite lookup_insert_eq|].
    rewrite lookup_insert_ne by done. eauto.
  - intros y k [y' E]%K. eauto.
  - intros a b y k A [y' E]%K. eauto.
  - intros i c p Hi. destruct (i_pub0 i c p Hi) as [A [y E]]. split; [done|].
    destruct (decide (p = n)) as [->|]; [|rewrite lookup_insert_ne by done; eauto].
    rewrite lookup_insert_eq. rewrite En in E. injection E as -> ->. eauto.
  - intros i c y Hi. destruct (i_own0 i c y Hi) as [? E]. split; [done|].
    rewrite lookup_insert_ne; [done|]. set_solver.
  - eapply data_kept; [done|]. intros a Ha. rewrite lookup_insert_ne; [done|]. by intros ->.
  - by rewrite i_log0, <- app_assoc.
  - intros a Ha%K'. destruct (i_leak0 a Ha) as [|[|[k E]]]; [by left|by auto|done].
Qed.

Lemma inv_init p : inv (init p) [p] [].
Proof.
  assert (A : ∀ a b, ¬ adj [p] a b).
  { intros a b (l1 & l2 & E). apply (f_equal length) in E. rewrite length_app in E. simpl in E. lia. }
  split; simpl; try done.
  - apply NoDup_singleton.
  - intros a ->%list_elem_of_singleton. by rewrite lookup_singleton_eq.
  - intros x n. rewrite lookup_singleton_eq. by intros [= _ <-].
  - intros a b x n Hab. by destruct (A a b).
  - intros x n _. rewrite lookup_singleton_eq. done.
  - intros a [x [<- _]%lookup_singleton_Some]. left. set_solver.
Qed.

(** The accesses of the system, each at a node that is allocated. *)
Lemma push_step_ok s q xs i p pc :
  inv s q xs → producers s !! i = Some pc → heap (shared s) !! p = None →
  ∃ pc' q' xs' sh', push_step p pc (shared s) = Done pc' sh' ∧
    inv (mkState sh' (set_producer i (Some pc') (producers s)) (cons s)
           (found_empty s) (signalled s)) q' xs'.
Proof.
  intros I Hi Hp. destruct pc as [item|cur item|cur prev|cur prev e|prev|b].
  - eexists _, q, xs, _. split.
    + cbn [push_step]. unfold mkAligned, mbind, M_bind. rewrite Hp. reflexivity.
    + by apply inv_alloc.
  - eexists _, _, _, _. split; [reflexivity|]. by eapply inv_exchange.
  - eexists _, q, xs, _. split; [reflexivity|]. apply inv_quiet; [done| | |];
      rewrite Hi; simpl; naive_solver.
  - destruct (i_pub _ _ _ I i cur prev) as [_ [x E]]; [by rewrite Hi|].
    eexists _, q, xs, _. split.
    + cbn [push_step]. unfold load, store, mbind, M_bind. rewrite E. cbn. rewrite E. reflexivity.
    + by eapply inv_publish.
  - eexists _, q, xs, _. split; [reflexivity|]. apply inv_quiet; [done| | |]; rewrite Hi; simpl.
    + done.
    + done.
    + intros x n _ [?|E]; [by left|right]. by apply bool_decide_eq_true.
  - eexists _, q, xs, _. split; [reflexivity|]. apply inv_quiet; [done| | |];
      rewrite Hi; simpl; naive_solver.
Qed.

(** The state after a step of the consumer. *)
Definition popped_to (s : state) (pc' : consumer) (sh' : queue) : state :=
  mkState sh' (producers s) pc'
    (match pc' with CStore _ _ => false | CRet None => true | _ => found_empty s end)
    (match pc' with CRet None => false | _ => signalled s end).

Lemma pop_step_ok s q xs :
  inv s q xs → (∀ r, cons s ≠ CRet r) →
  ∃ pc' q' xs' sh', pop_step (cons s) (shared s) = Done pc' sh' ∧
    inv (popped_to s pc' sh') q' xs' ∧
    match pc' with CRet (Some x) => xs = x :: xs' | _ => xs' = xs end.
Proof.
  intros I Hr. pose proof (i_cons _ _ _ I) as C. unfold cons_ok in C.
  destruct (cons s) as [|t|t n|t n|n|r] eqn:Hc; try (by destruct (Hr r)).
  - eexists _, q, xs, _. split; [reflexivity|split; [|done]]. unfold popped_to.
    apply inv_consumer; rewrite ?Hc; try done.
  - subst t. assert (is_Some (heap (shared s) !! tail_ (shared s))) as [[x o] E].
    { apply (i_alive _ _ _ I). apply head_Some_elem_of, I. }
    exists (match o with Some n => CStore (tail_ (shared s)) n | None => CRet None end), q, xs, (shared s).
    split; [|split; [|by destruct o]].
    + cbn [pop_step]. unfold load, mbind, M_bind. by rewrite E.
    + unfold popped_to. destruct o as [n|].
      * apply inv_consumer; rewrite ?Hc; try done. split; [done|]. by exists x.
      * apply inv_consumer; rewrite ?Hc; try done. intros y n _ E'. congruence.
  - destruct (inv_store s q xs t n I Hc) as (q' & -> & I').
    eexists _, q', xs, _. split; [reflexivity|split; [exact I'|done]].
  - destruct C as (_ & _ & [x E] & _). exists (CMove n), q, xs, (set_heap (delete t) (shared s)).
    split; [|split; [by apply (inv_free s q xs t n)|done]].
    cbn [pop_step]. unfold freeAligned, mbind, M_bind. by rewrite E.
  - assert (is_Some (heap (shared s) !! n)) as [[x o] E].
    { rewrite <- C. apply (i_alive _ _ _ I). apply head_Some_elem_of, I. }
    destruct (inv_move s q xs n x o I Hc E) as (xs' & -> & I').
    eexists (CRet (Some x)), q, xs', _. split; [|split; [exact I'|done]].
    cbn [pop_step]. unfold load, store, mbind, M_bind. rewrite E. cbn. by rewrite E.
Qed.

(** What a step of the consumer logs. *)
Lemma pop_step_log pc sh pc' sh' : (∀ r, pc ≠ CRet r) → pop_step pc sh = Done pc' sh' →
  pushed sh' = pushed sh ∧
  popped sh' = popped sh ++ match pc' with CRet (Some x) => [x] | _ => [] end.
Proof.
  intros Hc E. destruct pc as [|a|a n|a n|n|r]; unfold pop_step, load, store, freeAligned, mbind, M_bind in E.
  - injection E as <- <-. by rewrite app_nil_r.
  - destruct (heap sh !! a) as [[y o]|]; [|done]. injection E as <- <-. destruct o; by rewrite app_nil_r.
  - injection E as <- <-. by rewrite app_nil_r.
  - destruct (heap sh !! a); [|done]. injection E as <- <-. by rewrite app_nil_r.
  - destruct (heap sh !! n) eqn:En; [|done]. cbn in E. rewrite En in E. by injection E as <- <-.
  - by destruct (Hc r).
Qed.

(** What a step of a producer logs. *)
Lemma push_step_log p pc sh pc' sh' : push_step p pc sh = Done pc' sh' →
  pushed sh' = pushed sh ++ match pc with PExchange _ x => [x] | _ => [] end ∧ popped sh' = popped sh.
Proof.
  destruct pc as [item|cur item|cur prev|cur prev e|prev|b]; unfold push_step, mkAligned, load, store, mbind, M_bind.
  - destruct (heap sh !! p); [done|]. intros [= _ <-]. by rewrite app_nil_r.
  - by intros [= _ <-].
  - intros [= _ <-]. by rewrite app_nil_r.
  - destruct (heap sh !! prev) as [n|] eqn:E; [|done]. cbn. rewrite E. intros [= _ <-]. by rewrite app_nil_r.
  - intros [= _ <-]. by rewrite app_nil_r.
  - intros [= _ <-]. by rewrite app_nil_r.
Qed.

Lemma inv_step s s' q xs : inv s q xs → step s s' → ∃ q' xs', inv s' q' xs'.
Proof.
  intros I Hs. destruct Hs as [s i item Hi|s i p pc pc' sh' Hi Hp E|s i b Hi|s pc' sh' E Hr|s r Hr].
  - exists q, xs. apply inv_quiet; [done| | |]; rewrite Hi; simpl; naive_solver.
  - destruct (push_step_ok s q xs i p pc I Hi Hp) as (? & q' & xs' & ? & E' & I').
    rewrite E in E'. injection E' as <- <-. by exists q', xs'.
  - exists q, xs. apply inv_quiet; [done| | |]; rewrite Hi; simpl; try naive_solver.
    intros x n _ [->| ->]; left; [done|apply orb_true_r].
  - destruct (pop_step_ok s q xs I Hr) as (? & q' & xs' & ? & E' & I' & _).
    rewrite E in E'. injection E' as <- <-. by exists q', xs'.
  - exists q, xs. apply inv_consumer; rewrite ?Hr; done.
Qed.

Lemma inv_not_stuck s q xs : inv s q xs → ¬ stuck s.
Proof.
  intros I [(i & pc & p & f & Hi & Hp & E)|[f E]].
  - destruct (push_step_ok s q xs i p pc I Hi Hp) as (? & ? & ? & ? & E' & _). congruence.
  - destruct (cons s) eqn:Hc; try (destruct (pop_step_ok s q xs I) as (? & ? & ? & ? & E' & _);
      [rewrite Hc; done|rewrite Hc in E'; congruence]).
Qed.

Lemma reachable_inv p s : rtc step (init p) s → ∃ q xs, inv s q xs.
Proof.
  intros R. eapply (rtc_invariant step (λ s, ∃ q xs, inv s q xs)); [|exact R|].
  - intros a b (q & xs & I) Hs. by eapply inv_step.
  - eexists _, _. apply inv_init.
Qed.

(** ** Sequential use: a call from its first access to its last *)

Definition pop_body (pc : consumer) : M queue (consumer + option T) :=
  match pc with
  | CRet r => mret (inr r)
  | _ => pc' ← pop_step pc; mret (inl pc')
  end.
(** [pop]; six turns are enough for its five accesses. *)
Definition pop : M queue (option T) := loop 6 pop_body CIdle.

Definition push_body (p : nid) (pc : producer) : M queue (producer + bool) :=
  match pc with
  | PRet b => mret (inr b)
  | _ => pc' ← push_step p pc; mret (inl pc')
  end.
(** [push], the new node being allocated at [p]. *)
Definition push (p : nid) (item : T) : M queue bool := loop 6 (push_body p) (PAlloc item).

(** [~ConcurrentMPSCQueue()]; one turn for every node. *)
Definition delete_queue : M queue unit :=
  n ← gets (λ s, S (size (heap s)));
  loop n (λ _, r ← pop; mret (match r with Some _ => inl tt | None => inr tt end)) tt;;
  h ← gets head_;
  freeAligned h.

(** The queue between calls. *)
Definition calm (sh : queue) (q : list nid) (xs : list T) : Prop :=
  inv (mkState sh ∅ CIdle false false) q xs.

Lemma calm_of s q xs :
  inv s q xs → producers s = ∅ → cons s = CIdle → calm (shared s) q xs.
Proof.
  intros I Hp Hc. destruct s as [sh P c fe sg]; simpl in *. subst. destruct I. by split.
Qed.

(** The list of values determines what is in memory. *)
Lemma calm_facts sh q xs :
  calm sh q xs →
  (∀ a, is_Some (heap sh !! a) ↔ a ∈ q) ∧ NoDup q ∧ length q = S (length xs) ∧
  match xs with
  | [] => q = [head_ sh] ∧ tail_ sh = head_ sh ∧
          ∃ x, heap sh !! head_ sh = Some (mkNode x None)
  | x :: _ => ∃ n q' y o, q = tail_ sh :: n :: q' ∧
      heap sh !! tail_ sh = Some (mkNode y (Some n)) ∧ heap sh !! n = Some (mkNode x o)
  end.
Proof.
  intros I. destruct I; simpl in *.
  assert (E : ∀ i : nat, (∅ : gmap nat producer) !! i = None) by (intros; apply lookup_empty).
  split_and!; [|done| |].
  - intros a. split; [|eauto]. intros Ha. destruct (i_leak0 a Ha) as [|[(i & x & Hi)|[n ?]]]; [done| |done].
    by rewrite E in Hi.
  - destruct q as [|t q]; [done|]. simpl in *. f_equal. by eapply Forall2_length.
  - destruct q as [|t q]; [done|]. injection i_tail0 as Et. simpl in i_data0. subst t.
    destruct i_data0 as [|n x q xs Hx F].
    + injection i_head0 as Eh. split_and!; [by rewrite Eh|done|].
      destruct (i_alive0 (tail_ sh)) as [[x o] Ex]; [set_solver|].
      rewrite Eh in Ex. exists x. by rewrite <- (i_last0 x o Ex).
    + destruct (i_alive0 (tail_ sh)) as [[y o] Ey]; [set_solver|].
      destruct (i_link0 (tail_ sh) n y o) as [->|[_ [i Hi]]]; [by exists [], q|done| |].
      * destruct (heap sh !! n) as [[x' o]|] eqn:En; [|done]. injection Hx as ->.
        by exists n, q, y, o.
      * by rewrite E in Hi.
Qed.

Ltac run_pop :=
  cbv [pop loop pop_body pop_step mbind M_bind mret M_ret gets modify load store freeAligned
       set_heap heap head_ tail_ pushed popped data next].

Lemma pop_empty sh x :
  heap sh !! tail_ sh = Some (mkNode x None) → pop sh = Done None sh.
Proof. intros E. destruct sh. simpl in E. run_pop. by rewrite E. Qed.

Lemma pop_some sh y n x o :
  heap sh !! tail_ sh = Some (mkNode y (Some n)) → heap sh !! n = Some (mkNode x o) →
  tail_ sh ≠ n →
  pop sh = Done (Some x)
    (mkQueue (<[n := mkNode T_moved o]> (delete (tail_ sh) (heap sh))) (head_ sh) n
       (pushed sh) (popped sh ++ [x])).
Proof.
  intros Et En Hne. destruct sh as [hp hd tl pu po]. simpl in *. run_pop.
  rewrite Et. run_pop. rewrite Et. run_pop. rewrite lookup_delete_ne, En by done. run_pop.
  by rewrite lookup_delete_ne, En by done.
Qed.

Lemma pop_calm sh q xs :
  calm sh q xs →
  wp pop sh (λ r sh', ∃ q', calm sh' q' (tail xs) ∧ r = head xs ∧
    pushed sh' = pushed sh ∧ popped sh' = popped sh ++ (option_list (head xs))).
Proof.
  intros C. destruct (calm_facts sh q xs C) as (_ & ND & _ & F).
  destruct xs as [|x xs].
  - destruct F as (Eq & Et & x & Eh). rewrite <- Et in Eh.
    eapply wp_done; [by eapply pop_empty|]. exists q. simpl. by rewrite app_nil_r.
  - destruct F as (n & q' & y & o & -> & Et & En).
    assert (tail_ sh ≠ n) as Hne by (apply NoDup_cons in ND as [? _]; set_solver).
    eapply wp_done; [by eapply pop_some|].
    exists (n :: q'). split; [|done].
    assert (I1 : inv (mkState sh ∅ (CNext (tail_ sh)) false false) (tail_ sh :: n :: q') (x :: xs)).
    { apply (inv_consumer _ _ _ (CNext (tail_ sh)) false false C); done. }
    assert (I2 : inv (mkState sh ∅ (CStore (tail_ sh) n) false false) (tail_ sh :: n :: q') (x :: xs)).
    { apply (inv_consumer _ _ _ (CStore (tail_ sh) n) false false I1); try done.
      split; [done|]. by exists y. }
    destruct (inv_store _ _ _ _ _ I2 eq_refl) as (q1 & [= <-] & I3).
    pose proof (inv_free _ _ _ _ _ I3 eq_refl) as I4.
    destruct (inv_move _ _ _ n x o I4 eq_refl) as (xs' & [= <-] & I5).
    { simpl. by rewrite lookup_delete_ne. }
    exact (inv_consumer _ _ _ CIdle false false I5 eq_refl I
             ltac:(discriminate) ltac:(done) ltac:(discriminate)).
Qed.

Lemma push_result sh p item y o :
  heap sh !! p = None → heap sh !! head_ sh = Some (mkNode y o) →
  push p item sh = Done (bool_decide (head_ sh = tail_ sh))
    (mkQueue (<[head_ sh := mkNode y (Some p)]> (<[p := mkNode item None]> (heap sh))) p
       (tail_ sh) (pushed sh ++ [item]) (popped sh)).
Proof.
  intros Hp Eh. assert (p ≠ head_ sh) as Hne by congruence.
  destruct sh as [hp hd tl pu po]. simpl in *.
  cbv [push loop push_body push_step mbind M_bind mret M_ret gets modify load store mkAligned
       set_heap heap head_ tail_ pushed popped data next].
  rewrite Hp, lookup_insert_ne, Eh by done. cbv beta iota.
  rewrite lookup_insert_ne, Eh by done. cbv beta iota. case_bool_decide; [done|].
  cbv beta iota. rewrite (bool_decide_false (tl = hd)) by congruence. done.
Qed.

Lemma push_calm sh q xs p item :
  calm sh q xs → heap sh !! p = None →
  wp (push p item) sh (λ r sh', r = bool_decide (xs = []) ∧
    pushed sh' = pushed sh ++ [item] ∧ calm sh' (q ++ [p]) (xs ++ [item])).
Proof.
  intros C Hp. destruct (calm_facts sh q xs C) as (_ & ND & _ & F).
  assert (is_Some (heap sh !! head_ sh)) as [[y o] Eh].
  { apply (i_alive _ _ _ C). apply last_Some_elem_of, C. }
  eapply wp_done; [by eapply push_result|]. split_and!; [|done|].
  - apply bool_decide_ext. destruct xs as [|x xs]; [naive_solver|].
    destruct F as (n & q' & ? & ? & -> & Et & _). split; [|done]. intros E.
    rewrite <- E in Et. by apply (i_last _ _ _ C) in Et.
  - set (P1 := set_producer 0 (Some (PAlloc item)) ∅).
    assert (I1 : inv (mkState sh P1 CIdle false false) q xs).
    { apply (inv_quiet _ _ _ 0 (Some (PAlloc item)) false C); simpl; done. }
    assert (∀ o, set_producer 0 o ∅ !! 0%nat = o) as E0.
    { intros. by rewrite set_producer_lookup. }
    assert (∀ o o', set_producer 0 o (set_producer 0 o' ∅) = set_producer 0 o ∅) as E1.
    { intros. apply map_eq. intros i. rewrite !set_producer_lookup. by case_decide. }
    pose proof (inv_alloc _ _ _ 0 p item I1 (E0 _) Hp) as I2. simpl in I2. unfold P1 in I2.
    rewrite E1 in I2.
    pose proof (inv_exchange _ _ _ 0 p item I2 (E0 _)) as I3. simpl in I3. rewrite E1 in I3.
    assert (I4 := inv_quiet _ _ _ 0 (Some (PPublish p (head_ sh) true)) false I3). simpl in I4.
    rewrite E1, E0 in I4. specialize (I4 ltac:(done) ltac:(done)).
    assert (I4' := I4 ltac:(naive_solver)). clear I4.
    assert (I5 := inv_publish _ _ _ 0 p (head_ sh) true y o I4' (E0 _)). simpl in I5.
    rewrite E1 in I5.
    assert (p ≠ head_ sh) as Hne by congruence.
    specialize (I5 ltac:(rewrite lookup_insert_ne by done; exact Eh)).
    assert (I6 := inv_quiet _ _ _ 0 None true I5). simpl in I6. rewrite E1, E0 in I6.
    specialize (I6 ltac:(done) ltac:(done) ltac:(by left)). unfold calm.
    assert (set_producer 0 None ∅ = (∅ : gmap nat producer)) as En.
    { apply map_eq. intros i. rewrite set_producer_lookup. by case_decide. }
    rewrite En in I6. by apply (inv_consumer _ _ _ CIdle false false I6).
Qed.

Definition drain_turn (_ : unit) : M queue (unit + unit) :=
  r ← pop; mret (match r with Some _ => inl tt | None => inr tt end).

Lemma drain_calm fuel sh q xs :
  calm sh q xs → (length xs < fuel)%nat →
  wp (loop fuel drain_turn tt) sh (λ _ sh', ∃ q', calm sh' q' [] ∧
    pushed sh' = pushed sh ∧ popped sh' = popped sh ++ xs).
Proof.
  revert sh q xs. induction fuel as [|fuel IH]; intros sh q xs C Hf; [lia|].
  apply wp_loop_S. unfold drain_turn. wp_step.
  eapply wp_mono; [by eapply pop_calm|]. intros r sh1 (q1 & C1 & -> & E1 & E2). wp_step.
  destruct xs as [|x xs]; simpl in *.
  - rewrite app_nil_r in *. eauto.
  - eapply wp_mono; [apply (IH sh1 q1 xs C1); lia|].
    intros ? sh2 (q2 & C2 & E3 & E4). exists q2. split_and!; [done|congruence|].
    by rewrite E4, E2, <- app_assoc.
Qed.

Lemma calm_size sh q xs : calm sh q xs → size (heap sh) = S (length xs).
Proof.
  intros C. destruct (calm_facts sh q xs C) as (D & ND & Hl & _).
  rewrite <- Hl, <- (size_dom (D := gset nid)). rewrite <- (size_list_to_set (C := gset nid)) by done.
  f_equal. apply set_eq. intros a. by rewrite elem_of_dom, elem_of_list_to_set.
Qed.

Lemma delete_calm sh q xs :
  calm sh q xs →
  wp delete_queue sh (λ _ sh', heap sh' = ∅ ∧ popped sh' = pushed sh').
Proof.
  intros C. unfold delete_queue. wp_step. wp_step. wp_step.
  eapply wp_mono; [apply (drain_calm _ sh q xs C); rewrite (calm_size sh q xs C); lia|].
  intros ? sh1 (q1 & C1 & E1 & E2). wp_step. wp_step.
  destruct (calm_facts sh1 q1 [] C1) as (D & _ & _ & -> & _ & x & Eh).
  unfold freeAligned, wp. rewrite Eh. simpl. split.
  - apply map_empty. intros b. destruct (decide (b = head_ sh1)) as [->|Hne].
    + apply lookup_delete_eq.
    + rewrite lookup_delete_ne by done. apply eq_None_not_Some. intros Ha%D. set_solver.
  - pose proof (i_log _ _ _ C1) as El. simpl in El. by rewrite El, app_nil_r.
Qed.
End queue.
Arguments producer : clear implicits.
Arguments consumer : clear implicits.
Arguments queue : clear implicits.
Arguments state : clear implicits.

(** ** Running a schedule *)

Inductive act (T : Type) :=
| Call (i : nat) (item : T)     (** the call [i] of [push] begins *)
| Push (i : nat) (p : nid)      (** its next access; [p] for an allocation *)
| Return (i : nat)
| Pop.                          (** the next access of the consumer *)
Arguments Call {T} i item.
Arguments Push {T} i p.
Arguments Return {T} i.
Arguments Pop {T}.

Definition run_act {T} (moved : T) (a : act T) (s : state T) : option (state T) :=
  match a with
  | Call i item =>
      match producers s !! i with
      | None => Some (mkState (shared s) (set_producer i (Some (PAlloc item)) (producers s))
                        (cons s) (found_empty s) (signalled s))
      | Some _ => None
      end
  | Push i p =>
      match producers s !! i, heap (shared s) !! p with
      | Some pc, None =>
          match push_step p pc (shared s) with
          | Done pc' sh => Some (mkState sh (set_producer i (Some pc') (producers s))
                                   (cons s) (found_empty s) (signalled s))
          | _ => None
          end
      | _, _ => None
      end
  | Return i =>
      match producers s !! i with
      | Some (PRet b) => Some (mkState (shared s) (set_producer i None (producers s))
                                 (cons s) (found_empty s) (signalled s || b))
      | _ => None
      end
  | Pop =>
      match cons s with
      | CRet _ => Some (mkState (shared s) (producers s) CIdle (found_empty s) (signalled s))
      | pc =>
          match pop_step moved pc (shared s) with
          | Done pc' sh => Some (popped_to s pc' sh)
          | _ => None
          end
      end
  end.

Definition run {T} (moved : T) : list (act T) → state T → option (state T) := run_schedule (run_act moved).

Lemma run_act_step {T} (moved : T) a s s' : run_act moved a s = Some s' → step moved s s'.
Proof.
  destruct a as [i item|i p|i|]; cbn [run_act]; intros E.
  - destruct (producers s !! i) eqn:Hi; [done|]. injection E as <-. by apply step_call.
  - destruct (producers s !! i) as [pc|] eqn:Hi; [|done].
    destruct (heap (shared s) !! p) eqn:Hp; [done|].
    destruct (push_step p pc (shared s)) eqn:Es; try done. injection E as <-. by eapply step_push.
  - destruct (producers s !! i) as [pc|] eqn:Hi; [|done]. destruct pc; try done.
    injection E as <-. by apply step_return.
  - destruct (cons s) eqn:Hc;
      [..|by injection E as <-; eapply step_popped];
      match type of E with match ?m with _ => _ end = _ => destruct m eqn:Es end; try done;
      injection E as <-; apply step_pop; rewrite ?Hc; done.
Qed.

Lemma run_steps {T} (moved : T) acts s s' : run moved acts s = Some s' → rtc (step moved) s s'.
Proof. apply schedule_rtc. apply run_act_step. Qed.

(** Two producers race on the empty queue: the second, whose value is behind the
    first one's, publishes first, then the consumer finds the queue empty, then the
    first producer publishes and returns true. *)
Definition race : list (act nat) :=
  [Call 0 7%nat; Push 0 2%N; Push 0 9%N; Call 1 8%nat; Push 1 3%N; Push 1 9%N;
   Push 1 9%N; Push 1 9%N; Push 1 9%N; Return 1; Pop; Pop; Pop;
   Push 0 9%N; Push 0 9%N; Return 0].
(** The consumer then pops both values and finds the queue empty. *)
Definition race_popped : list (act nat) := race ++ replicate 15 Pop.

Definition run_race (acts : list (act nat)) : state nat :=
  default (init 0%nat 1%N) (run 0%nat acts (init 0%nat 1%N)).

Lemma race_reachable : rtc (step 0%nat) (init 0%nat 1%N) (run_race race).
Proof. apply (run_steps 0%nat race). by vm_compute. Qed.
Lemma race_popped_reachable : rtc (step 0%nat) (init 0%nat 1%N) (run_race race_popped).
Proof. apply (run_steps 0%nat race_popped). by vm_compute. Qed.

(** ** What the queue promises *)

(** In every interleaving, no call of [push] or [pop] ever touches memory that
    is not allocated, frees a node twice, or is handed a node that is still in
    use. *)
Theorem mpsc_safe {T} (d moved : T) p s :
  rtc (step moved) (init d p) s → ¬ stuck moved s.
Proof. intros R. destruct (reachable_inv d moved p s R) as (q & xs & I). by eapply inv_not_stuck. Qed.

(** The queue is first-in first-out in every interleaving: what [pop] has
    returned is a prefix of what was pushed, in the order in which the producers
    exchanged [head_]; and when no call is in progress, popping as often as values
    were pushed returns the rest, in order. *)
Theorem mpsc_fifo {T} (d moved : T) p s :
  rtc (step moved) (init d p) s →
  ∃ xs, pushed (shared s) = popped (shared s) ++ xs ∧
    (producers s = ∅ → cons s = CIdle →
     wp (pop moved) (shared s) (λ r sh', r = head xs ∧ popped sh' = popped (shared s) ++ option_list (head xs))).
Proof.
  intros R. destruct (reachable_inv d moved p s R) as (q & xs & I). exists xs.
  split; [by apply (i_log _ _ _ I)|]. intros Hp Hc. pose proof (calm_of _ _ _ I Hp Hc) as C.
  eapply wp_mono; [by eapply pop_calm|]. intros r sh' (q' & _ & -> & _ & E). done.
Qed.

(** C20: no wake-up is lost under sequential consistency: when the consumer has found
    the queue empty, no call is in progress and no [push] has returned true since,
    then everything that was pushed was popped.  So a consumer that sleeps after
    an empty [pop] until some [push] returns true misses nothing. *)
Theorem mpsc_no_lost_wakeup {T} (d moved : T) p s :
  rtc (step moved) (init d p) s →
  producers s = ∅ → cons s = CIdle → found_empty s = true → signalled s = false →
  popped (shared s) = pushed (shared s).
Proof.
  intros R Hp Hc F G. destruct (reachable_inv d moved p s R) as (q & xs & I).
  destruct (calm_facts _ _ _ (calm_of _ _ _ I Hp Hc)) as (_ & _ & _ & Fx).
  rewrite (i_log _ _ _ I). destruct xs as [|x xs]; [by rewrite app_nil_r|].
  destruct Fx as (n & q' & y & o & -> & Et & _).
  destruct (i_signal _ _ _ I y n F Et) as [|[i Hi]]; [congruence|].
  by rewrite Hp, lookup_empty in Hi.
Qed.

(** The destructor, run when no other call is in progress, frees every node
    that was ever allocated and not yet freed, whatever happened before. *)
Theorem mpsc_no_leak {T} (d moved : T) p s :
  rtc (step moved) (init d p) s → producers s = ∅ → cons s = CIdle →
  wp (delete_queue moved) (shared s) (λ _ sh', heap sh' = ∅ ∧ popped sh' = pushed sh').
Proof.
  intros R Hp Hc. destruct (reachable_inv d moved p s R) as (q & xs & I).
  eapply delete_calm. by eapply calm_of.
Qed.

(** A [push] that runs alone returns whether the queue was empty. *)
Theorem push_reports_empty {T} (d moved : T) p s a item :
  rtc (step moved) (init d p) s → producers s = ∅ → cons s = CIdle →
  heap (shared s) !! a = None →
  wp (push a item) (shared s) (λ r sh',
    (r = true ↔ popped (shared s) = pushed (shared s)) ∧
    pushed sh' = pushed (shared s) ++ [item]).
Proof.
  intros R Hp Hc Ha. destruct (reachable_inv d moved p s R) as (q & xs & I).
  pose proof (calm_of _ _ _ I Hp Hc) as C. pose proof (i_log _ _ _ I) as El.
  eapply wp_mono; [by eapply push_calm|]. intros r sh' (-> & E & _).
  split; [|done]. rewrite bool_decide_eq_true, El. split.
  - intros ->. by rewrite app_nil_r.
  - intros E0. apply (f_equal length) in E0. rewrite length_app in E0.
    apply nil_length_inv. lia.
Qed.


(** *** The theorems on the race *)

Lemma mpsc_safe_witness : ¬ stuck 0%nat (run_race race).
Proof. exact (mpsc_safe 0%nat 0%nat 1 (run_race race) race_reachable). Defined.

Lemma mpsc_fifo_witness :
  ∃ xs, [7%nat; 8%nat] = [] ++ xs ∧
    (producers (run_race race) = ∅ → cons (run_race race) = CIdle →
     wp (pop 0%nat) (shared (run_race race)) (λ r sh', r = head xs ∧
       popped sh' = popped (shared (run_race race)) ++ option_list (head xs))).
Proof. exact (mpsc_fifo 0%nat 0%nat 1 (run_race race) race_reachable). Defined.

Lemma mpsc_no_lost_wakeup_witness :
  popped (shared (run_race race_popped)) = pushed (shared (run_race race_popped)) ∧
  pushed (shared (run_race race_popped)) = [7%nat; 8%nat].
Proof.
  split; [|vm_compute; reflexivity].
  apply (mpsc_no_lost_wakeup 0%nat 0%nat 1 (run_race race_popped) race_popped_reachable);
    vm_compute; reflexivity.
Defined.

Lemma mpsc_no_leak_witness :
  wp (delete_queue 0%nat) (shared (run_race race))
    (λ _ sh', heap sh' = ∅ ∧ popped sh' = pushed sh').
Proof.
  apply (mpsc_no_leak 0%nat 0%nat 1 (run_race race) race_reachable); vm_compute; reflexivity.
Defined.

Lemma push_reports_empty_witness :
  wp (push 9%N 5%nat) (shared (run_race race_popped)) (λ r sh',
    (r = true ↔ popped (shared (run_race race_popped)) = pushed (shared (run_race race_popped))) ∧
    pushed sh' = pushed (shared (run_race race_popped)) ++ [5%nat]).
Proof.
  apply (push_reports_empty 0%nat 0%nat 1 (run_race race_popped) 9%N 5%nat race_popped_reachable);
    vm_compute; reflexivity.
Defined.
