(* ===== verification/Wakeup.v ===== *)
(** * The notification channel between threads

    [runOnEventLoop] from any number of threads at once, against the thread that runs
    the loop ([src/libevent_event_base.cc]).  A thread pushes the operation, and writes
    a byte to the channel when [push] says that the queue was empty.  The loop's thread
    runs operations until the queue is empty, at the top of every turn of [loop], and then
    sleeps in libevent: until the channel can be read, when it takes up to eight bytes of
    it and runs operations again before the turn ends; or until something else happens (a
    handler, a timeout, the hourly timer of a FOREVER loop), which only ends the turn.
    Every access of the queue of [Mpsc.v], every write and every read is a step, in any
    order.  The loop goes on all the time: what ends it is in [Stop.v].

    [EventLoop.v] has the same functions for one thread at a time. *)

From S2P Require Import Prelude Mpsc.

Section wakeup.
Context {T : Type} (T_default T_moved : T).

(** Where the loop's thread is: in [event_base_loop]; in [receiveNotifications], before
    the read; in [runOpsInQueue], at the top of a turn or called by [receiveNotifications]. *)
Inductive loop_at := Waiting | Woken | Running (top : bool).

Record world := mkW {
  mpsc : state T;              (** [notify_.queue], and who is in a call of it *)
  kicks : gset nat;            (** the threads that are about to write to the channel *)
  chan : nat;                  (** bytes in the channel *)
  loop : loop_at;
  (* auxiliary: the operations that were run; whether a write has failed; and whether one
     has since the queue was last found empty *)
  ran : list T;
  failed : bool;
  stranded : bool;
}.
Definition set_mpsc (s : state T) (w : world) : world :=
  mkW s (kicks w) (chan w) (loop w) (ran w) (failed w) (stranded w).

(** The loop begins with the pass at the top of its first turn. *)
Definition init_world (p : nid) : world := mkW (init T_default p) ∅ 0 (Running true) [] false false.

(** ** The threads: [runOnEventLoop] *)

Inductive thread_event :=
| TCall (i : nat) (op : T)        (** the thread [i] calls it, and [push] begins *)
| TPush (i : nat) (p : nid)       (** an access of [push]; [p] for an allocation *)
| TPushed (i : nat)               (** [push] returns: is a write needed? *)
| TSignal (i : nat)               (** the write, one byte *)
| TSignalFails (i : nat).         (** the write fails; [runOnEventLoop] returns false *)

Definition thread_exec (e : thread_event) (w : world) : option world :=
  match e with
  | TCall i op =>
      if decide (i ∈ kicks w) then None
      else s ← run_act T_moved (Call i op) (mpsc w); Some (set_mpsc s w)
  | TPush i p => s ← run_act T_moved (Push i p) (mpsc w); Some (set_mpsc s w)
  | TPushed i =>
      match producers (mpsc w) !! i with
      | Some (PRet shouldKick) =>
          s ← run_act T_moved (Return i) (mpsc w);
          Some (mkW s (if (shouldKick : bool) then {[i]} ∪ kicks w else kicks w) (chan w) (loop w) (ran w) (failed w) (stranded w))
      | _ => None
      end
  | TSignal i =>
      if decide (i ∈ kicks w)
      then Some (mkW (mpsc w) (kicks w ∖ {[i]}) (S (chan w)) (loop w) (ran w) (failed w) (stranded w)) else None
  | TSignalFails i =>
      if decide (i ∈ kicks w)
      then Some (mkW (mpsc w) (kicks w ∖ {[i]}) (chan w) (loop w) (ran w) true true) else None
  end.

(** ** The loop's thread: [loop], [receiveNotifications], [runOpsInQueue] *)

Inductive loop_event :=
| LWake                           (** the channel can be read *)
| LRead (n : nat)                 (** the read, which gives [n] bytes *)
| LPop                            (** an access of [pop] *)
| LRun.                           (** [pop] returns: run the operation, or end the pass *)

Definition set_loop (l : loop_at) (w : world) : world := mkW (mpsc w) (kicks w) (chan w) l (ran w) (failed w) (stranded w).

(** A pass that the handler of the channel makes is followed by the one of the next turn. *)
Definition loop_exec (e : loop_event) (w : world) : option world :=
  match e, loop w with
  | LWake, Waiting => if decide (0 < chan w)%nat then Some (set_loop Woken w) else None
  | LRead n, Woken =>
      if decide (1 ≤ n ≤ chan w `min` 8)%nat
      then Some (mkW (mpsc w) (kicks w) (chan w - n) (Running false) (ran w) (failed w) (stranded w)) else None
  | LPop, Running top =>
      match cons (mpsc w) with
      | CRet _ => None
      | _ =>
          s ← run_act T_moved Pop (mpsc w);
          Some (mkW s (kicks w) (chan w) (loop w) (ran w) (failed w)
            (match cons s with CRet None => false | _ => stranded w end))
      end
  | LRun, Running top =>
      match cons (mpsc w) with
      | CRet r =>
          s ← run_act T_moved Pop (mpsc w);
          Some (match r with
                | Some op => mkW s (kicks w) (chan w) (Running top) (ran w ++ [op]) (failed w) (stranded w)
                | None =>
                    mkW s (kicks w) (chan w) (if (top : bool) then Waiting else Running true) (ran w) (failed w) (stranded w)
                end)
      | _ => None
      end
  | _, _ => None
  end.

(** Something else happens, and [event_base_loop] returns: the next turn begins. *)
Definition other_exec (w : world) : option world :=
  match loop w with Waiting => Some (set_loop (Running true) w) | _ => None end.

(** ** Interleavings *)

Definition thread_step (w w' : world) : Prop := ∃ e, thread_exec e w = Some w'.
Definition loop_step (w w' : world) : Prop := ∃ e, loop_exec e w = Some w'.
Definition other_step (w w' : world) : Prop := other_exec w = Some w'.
Definition step (w w' : world) : Prop := thread_step w w' ∨ loop_step w w' ∨ other_step w w'.
(** Nothing but the threads and the channel. *)
Definition own_step (w w' : world) : Prop := thread_step w w' ∨ loop_step w w'.

(** No thread is in a call. *)
Definition quiet (w : world) : Prop := producers (mpsc w) = ∅ ∧ kicks w = ∅.

(** ** The invariant *)

(** Between two passes of the loop over the queue, or at the end of one. *)
Definition between (w : world) : Prop :=
  match loop w with Waiting | Woken => True | Running _ => cons (mpsc w) = CRet None end.
(** In a pass over it. *)
Definition in_pass (w : world) : bool := match loop w with Running _ => true | _ => false end.

Record good (w : world) (q : list nid) (xs : list T) : Prop := {
  g_queue : inv (mpsc w) q xs;
  g_woken : loop w = Woken → (0 < chan w)%nat;
  (** a pass starts and ends between two calls of [pop] *)
  g_idle : in_pass w = false → cons (mpsc w) = CIdle;
  g_empty : between w → found_empty (mpsc w) = true;
  (** a [push] that said "wake the loop up" is followed by a byte *)
  g_failed : stranded w = true → failed w = true;
  g_kick : stranded w = false → between w → signalled (mpsc w) = true → kicks w ≠ ∅ ∨ (0 < chan w)%nat;
  g_ran : popped (shared (mpsc w)) =
    ran w ++ match cons (mpsc w) with CRet (Some x) => [x] | _ => [] end;
}.

(** What a thread's access leaves alone. *)
Lemma push_step_popped p pc sh pc' sh' : push_step p pc sh = Done pc' sh' → popped sh' = popped (T := T) sh.
Proof. by intros [_ E]%push_step_log. Qed.

Definition same_consumer (s s' : state T) : Prop :=
  cons s' = cons s ∧ found_empty s' = found_empty s ∧ popped (shared s') = popped (shared s).

Lemma run_push_same i p s s' : run_act T_moved (Push i p) s = Some s' →
  same_consumer s s' ∧ signalled s' = signalled s.
Proof.
  cbn [run_act]. destruct (producers s !! i) as [pc|]; [|done]. destruct (heap (shared s) !! p); [done|].
  destruct (push_step p pc (shared s)) as [pc' sh'| | |] eqn:E; try done. intros [= <-].
  split; [split_and!|]; try done. by eapply push_step_popped.
Qed.

(** A step of the system of [Mpsc.v], for the first part of the invariant. *)
Lemma run_act_inv a s s' q xs : inv s q xs → run_act T_moved a s = Some s' → ∃ q' xs', inv s' q' xs'.
Proof. intros I E. eapply inv_step; [exact I|by eapply run_act_step]. Qed.

Lemma thread_good w w' q xs : good w q xs → thread_step w w' → ∃ q' xs', good w' q' xs'.
Proof.
  intros [I Gw Gi Ge Gf Gk Gr] [e E]. destruct e as [i op|i p|i|i|i]; cbn [thread_exec] in E.
  - case_decide; [done|]. destruct (run_act T_moved (Call i op) (mpsc w)) as [s|] eqn:Es; [|done].
    injection E as <-. destruct (run_act_inv _ _ _ _ _ I Es) as (q' & xs' & I'). exists q', xs'.
    cbn [run_act] in Es. case_match; [done|]. injection Es as <-. split; done.
  - destruct (run_act T_moved (Push i p) (mpsc w)) as [s|] eqn:Es; [|done].
    injection E as <-. destruct (run_act_inv _ _ _ _ _ I Es) as (q' & xs' & I'). exists q', xs'.
    apply run_push_same in Es as ((Ec & Ef & Ep) & Eg). unfold between in *.
    split; unfold between; simpl; rewrite ?Ec, ?Ef, ?Ep, ?Eg; done.
  - destruct (producers (mpsc w) !! i) as [pc|] eqn:Hi; [|done]. destruct pc as [| | | | |b]; try done.
    destruct (run_act T_moved (Return i) (mpsc w)) as [s|] eqn:Es; [|done].
    injection E as <-. destruct (run_act_inv _ _ _ _ _ I Es) as (q' & xs' & I'). exists q', xs'.
    cbn [run_act] in Es. rewrite Hi in Es. injection Es as <-. split; try done.
    unfold between in *. simpl in *. intros Hf Hb Hs. destruct b; [left; set_solver|].
    rewrite orb_false_r in Hs. by apply Gk.
  - case_decide; [|done]. injection E as <-. exists q, xs. split; try done.
    + intros _. simpl. lia.
    + unfold between in *. simpl in *. intros. right. lia.
  - case_decide; [|done]. injection E as <-. exists q, xs. by split.
Qed.

(** What an access of [pop] does; [rank] counts those that are left. *)
Definition rank (c : consumer T) : nat :=
  match c with CIdle => 9 | CNext _ => 8 | CStore _ _ => 7 | CFree _ _ => 6 | CMove _ => 5 | CRet _ => 4 end.

Lemma pop_step_rank c sh c' sh' : (∀ r, c ≠ CRet r) → pop_step T_moved c sh = Done c' sh' →
  (rank c' < rank c)%nat.
Proof.
  intros Hc E. destruct c as [|a|a n|a n|n|r]; unfold pop_step, load, freeAligned, mbind, M_bind in E.
  - injection E as <- _. simpl. lia.
  - destruct (heap sh !! a) as [[y o]|]; [|done]. injection E as <- _. destruct o; simpl; lia.
  - injection E as <- _. simpl. lia.
  - destruct (heap sh !! a); [|done]. injection E as <- _. simpl. lia.
  - destruct (heap sh !! n) eqn:En; [|done]. unfold store in E. rewrite En in E. injection E as <- _. simpl. lia.
  - by destruct (Hc r).
Qed.

Lemma run_pop_ok s q xs : inv s q xs → (∀ r, cons s ≠ CRet r) →
  ∃ s' q' xs', run_act T_moved Pop s = Some s' ∧ inv s' q' xs' ∧ producers s' = producers s ∧
    pushed (shared s') = pushed (shared s) ∧ (rank (cons s') < rank (cons s))%nat ∧
    match cons s' with
    | CRet None => found_empty s' = true ∧ signalled s' = false
    | _ => True
    end ∧
    popped (shared s') = popped (shared s) ++ match cons s' with CRet (Some x) => [x] | _ => [] end.
Proof.
  intros I Hc. destruct (pop_step_ok T_moved s q xs I Hc) as (pc' & q' & xs' & sh' & E & I' & Hx).
  destruct (pop_step_log T_moved _ _ _ _ Hc E) as [Eu Eo].
  assert (rank pc' < rank (cons s))%nat as Ek by (by eapply pop_step_rank).
  exists (popped_to s pc' sh'), q', xs'. split_and!; [|exact I'|done|exact Eu|exact Ek| |exact Eo].
  - cbn [run_act]. destruct (cons s); rewrite ?E; try done. by destruct (Hc result).
  - simpl. by destruct pc' as [| | | | |[]].
Qed.

Lemma loop_good w w' q xs : good w q xs → loop_step w w' → ∃ q' xs', good w' q' xs'.
Proof.
  intros [I Gw Gi Ge Gf Gk Gr] [e E]. unfold between, in_pass in *.
  destruct e as [|n| |]; cbn [loop_exec] in E; destruct (loop w) eqn:El; try done.
  - case_decide; [|done]. injection E as <-. exists q, xs. split; try done; intros _; by apply Gi.
  - case_decide; [|done]. injection E as <-. exists q, xs.
    specialize (Gi ltac:(done)). split; try done; unfold between; simpl; by rewrite Gi.
  - destruct (run_pop_ok (mpsc w) q xs I) as (s & q' & xs' & Es & I' & _ & _ & _ & Hr & Ep).
    { intros r Hr. by rewrite Hr in E. }
    destruct (cons (mpsc w)) as [| | | | |r] eqn:Hc; try done; rewrite Es in E; injection E as <-; exists q', xs';
      (split; unfold between, in_pass; simpl; rewrite ?El; try done).
    all: try by intros Hs; rewrite Hs in Hr; apply Hr.
    all: try by intros _ Hs; rewrite Hs in Hr; destruct Hr as [_ ->].
    all: try by rewrite Ep, Gr, app_nil_r.
    all: by destruct (cons s) as [| | | | |[]].
  - destruct (cons (mpsc w)) as [| | | | |r] eqn:Hc; try done. cbn [run_act] in E. rewrite Hc in E.
    cbn [mbind option_bind] in E.
    assert (inv (mkState (shared (mpsc w)) (producers (mpsc w)) CIdle (found_empty (mpsc w))
      (signalled (mpsc w))) q xs) as I' by (apply inv_consumer; rewrite ?Hc; done).
    destruct r as [op|]; injection E as <-; exists q, xs; split; unfold between, in_pass; simpl; try done.
    + by rewrite Gr, <- app_assoc.
    + by destruct top.
    + intros _. by apply Ge.
    + intros Hf _. by apply Gk.
Qed.

Lemma other_good w w' q xs : good w q xs → other_step w w' → good w' q xs.
Proof.
  intros [I Gw Gi Ge Gf Gk Gr]. unfold other_step, other_exec, between, in_pass in *. destruct (loop w) eqn:El; [|done..].
  intros [= <-]. specialize (Gi eq_refl). rewrite Gi in Gr.
  split; unfold between, in_pass; simpl; rewrite ?Gi; done.
Qed.

Lemma init_good p : good (init_world p) [p] [].
Proof. split; try done. apply inv_init. Qed.

Lemma reachable_good p w : rtc step (init_world p) w → ∃ q xs, good w q xs.
Proof.
  intros R. eapply (rtc_invariant step (λ w, ∃ q xs, good w q xs)); [|exact R|].
  - intros a b (q & xs & G) [Hs|[Hs|Hs]]; [by eapply thread_good|by eapply loop_good|].
    exists q, xs. by eapply other_good.
  - eexists _, _. apply init_good.
Qed.

(** ** The loop's thread alone *)

(** What is still to be run, and a bound of the steps that takes. *)
Definition queued (w : world) : nat := length (pushed (shared (mpsc w))) - length (ran w).
Definition work (w : world) : nat :=
  20 * chan w + 10 * queued w +
  match loop w with
  | Waiting => 1 | Woken => 0
  | Running top => rank (cons (mpsc w)) + if (top : bool) then 0 else 10
  end.

Lemma loop_works w w' q xs : good w q xs → loop_step w w' →
  (work w' < work w)%nat ∧ failed w' = failed w ∧ (quiet w → quiet w') ∧
  pushed (shared (mpsc w')) = pushed (shared (mpsc w)).
Proof.
  intros [I Gw Gi _ _ _ Gr] [e E]. unfold in_pass in Gi. pose proof (i_log _ _ _ I) as Hx. unfold work, queued, quiet.
  destruct e as [|n| |]; cbn [loop_exec] in E; destruct (loop w) eqn:El; try done.
  - case_decide; [|done]. injection E as <-. simpl. split; [lia|done].
  - case_decide; [|done]. injection E as <-. simpl. rewrite Gi by done. simpl. split; [lia|done].
  - destruct (run_pop_ok (mpsc w) q xs I) as (s & q' & xs' & Es & _ & Ed & Eu & Ek & _).
    { intros r Hr. by rewrite Hr in E. }
    destruct (cons (mpsc w)) as [| | | | |r] eqn:Hc; try done; rewrite Es in E; injection E as <-; simpl;
      rewrite Eu, Ed, ?El; simpl in Ek; (split; [lia|done]).
  - destruct (cons (mpsc w)) as [| | | | |r] eqn:Hc; try done. cbn [run_act] in E. rewrite Hc in E.
    cbn [mbind option_bind] in E. destruct r; injection E as <-; simpl; (split; [|done]); [|by destruct top; simpl; lia].
    rewrite Hx, Gr, !length_app. simpl. lia.
Qed.

(** It takes a step whenever there is something to do. *)
Lemma loop_rests w q xs : good w q xs → (∀ w', ¬ loop_step w w') → loop w = Waiting ∧ chan w = 0%nat.
Proof.
  intros [I Gw Gi _ _ _ _] Hn. destruct (loop w) eqn:El.
  - split; [done|]. destruct (decide (0 < chan w)%nat) as [Hc|]; [|lia].
    destruct (Hn (set_loop Woken w)). exists LWake. cbn [loop_exec]. rewrite El. by rewrite decide_True.
  - specialize (Gw eq_refl).
    destruct (Hn (mkW (mpsc w) (kicks w) (chan w - 1) (Running false) (ran w) (failed w) (stranded w))).
    exists (LRead 1). cbn [loop_exec]. rewrite El. by rewrite decide_True by lia.
  - exfalso. destruct (cons (mpsc w)) as [| | | | |r] eqn:Hc.
    6: { destruct (loop_exec LRun w) as [w'|] eqn:E; [by apply (Hn w'); exists LRun|].
      cbn [loop_exec run_act] in E. by rewrite El, Hc in E. }
    all: destruct (run_pop_ok (mpsc w) q xs I) as (s & _ & _ & Es & _); [by rewrite Hc|];
      (destruct (loop_exec LPop w) as [w'|] eqn:E; [by apply (Hn w'); exists LPop|]);
      cbn [loop_exec] in E; by rewrite El, Hc, Es in E.
Qed.

(** Nothing is left when all is quiet and the channel is empty. *)
Lemma asleep_done w q xs : good w q xs → stranded w = false → quiet w → loop w = Waiting → chan w = 0%nat →
  ran w = pushed (shared (mpsc w)).
Proof.
  intros [I Gw Gi Ge _ Gk Gr] Hf [Hp Hk] Hl Hc.
  specialize (Gi ltac:(unfold in_pass; by rewrite Hl)). unfold between in *. rewrite Hl in Ge, Gk.
  rewrite Gi, app_nil_r in Gr. rewrite <- Gr. symmetry.
  destruct (signalled (mpsc w)) eqn:Hs; [by destruct (Gk Hf Logic.I eq_refl); [done|lia]|].
  rewrite (i_log _ _ _ I).
  destruct (calm_facts _ _ _ (calm_of _ _ _ I Hp Gi)) as (_ & _ & _ & Fx).
  destruct xs as [|x xs]; [by rewrite app_nil_r|]. destruct Fx as (n & q' & y & o & -> & Et & _).
  destruct (i_signal _ _ _ I y n (Ge Logic.I) Et) as [|[i Hi]]; [congruence|]. by rewrite Hp, lookup_empty in Hi.
Qed.

Lemma serves n w w' q xs : good w q xs → nsteps loop_step n w w' →
  (∃ q' xs', good w' q' xs') ∧ (n + work w' ≤ work w)%nat ∧ failed w' = failed w ∧ (quiet w → quiet w') ∧
  pushed (shared (mpsc w')) = pushed (shared (mpsc w)).
Proof.
  intros G Hn. revert q xs G. induction Hn as [w|n w w1 w' Hs _ IH]; intros q xs G.
  - split; [by do 2 eexists|]. split; [lia|done].
  - destruct (loop_works w w1 q xs G Hs) as (Hw & Hf & Hq & Hp).
    destruct (loop_good w w1 q xs G Hs) as (q1 & xs1 & G1).
    destruct (IH q1 xs1 G1) as (G' & Hw' & Hf' & Hq' & Hp').
    split; [done|]. split; [lia|]. rewrite Hf', Hp'. auto.
Qed.

(** A pass that begins now makes good what was stranded before. *)
Definition heals (w : world) : Prop := in_pass w = true ∧ cons (mpsc w) ≠ CRet None ∨ stranded w = false.

Lemma loop_heals w w' q xs : good w q xs → loop_step w w' → heals w → heals w'.
Proof.
  intros G [e E] Hh. unfold heals, in_pass in *. destruct e as [|n| |]; cbn [loop_exec] in E; destruct (loop w) eqn:El; try done.
  - case_decide; [|done]. injection E as <-. right. by destruct Hh as [[]|].
  - case_decide; [|done]. injection E as <-. right. by destruct Hh as [[]|].
  - destruct (run_pop_ok (mpsc w) q xs (g_queue _ _ _ G)) as (s & _ & _ & Es & _).
    { intros r Hr. by rewrite Hr in E. }
    destruct (cons (mpsc w)) as [| | | | |r] eqn:Hc; try done; rewrite Es in E; injection E as <-; simpl;
      (destruct (cons s) as [| | | | |[]]; [left..|by right]; by rewrite ?El).
  - destruct (cons (mpsc w)) as [| | | | |r] eqn:Hc; try done. cbn [run_act] in E. rewrite Hc in E.
    destruct r; injection E as <-; [by left|]. right. by destruct Hh as [[_ []]|].
Qed.

(** A loop that nobody disturbs comes to rest. *)
Lemma rests w w' n q xs : good w q xs → heals w → quiet w → nsteps loop_step n w w' →
  (n ≤ work w)%nat ∧ ((∀ w'', ¬ loop_step w' w'') →
    loop w' = Waiting ∧ ran w' = pushed (shared (mpsc w)) ∧ stranded w' = false).
Proof.
  intros G Hh Hq Hn. destruct (serves n w w' q xs G Hn) as ((q' & xs' & G') & Hw & _ & Hq' & Hp). split; [lia|].
  assert (heals w') as Hh'.
  { clear - G Hh Hn. revert q xs G. induction Hn as [|n w w1 w' Hs _ IH]; intros q xs G; [done|].
    destruct (loop_good w w1 q xs G Hs) as (q1 & xs1 & G1). exact (IH (loop_heals w w1 q xs G Hs Hh) q1 xs1 G1). }
  intros Hr. destruct (loop_rests w' q' xs' G' Hr) as [Hl Hc]. destruct Hh' as [[Hb _]|Hst]; [unfold in_pass in Hb; by rewrite Hl in Hb|].
  split; [done|]. split; [|done]. rewrite <- Hp. by eapply asleep_done; [exact G'| |apply Hq'|..].
Qed.

(** ** A wake-up that failed *)

(** The loop sleeps, there is something in the queue, and no thread is going to wake the
    loop up. *)
Definition deaf_producer (t : nid) (pc : producer T) : Prop :=
  match pc with
  | PTail _ prev | PTail2 prev => prev ≠ t
  | PPublish _ prev e => prev ≠ t ∧ e = false
  | PRet b => b = false
  | _ => True
  end.
Definition deaf (w : world) : Prop :=
  loop w = Waiting ∧ chan w = 0%nat ∧ kicks w = ∅ ∧
  head_ (shared (mpsc w)) ≠ tail_ (shared (mpsc w)) ∧
  ∀ i pc, producers (mpsc w) !! i = Some pc → deaf_producer (tail_ (shared (mpsc w))) pc.

(** What a [push] changes of the ends of the queue. *)
Lemma push_step_deaf p pc sh pc' sh' : head_ sh ≠ tail_ sh → (heap sh !! p = None) → is_Some (heap sh !! tail_ sh) →
  (∀ cur x, pc = PExchange cur x → cur ≠ tail_ sh) → deaf_producer (tail_ sh) pc →
  push_step p pc sh = Done pc' sh' →
  tail_ sh' = tail_ (T := T) sh ∧ head_ sh' ≠ tail_ sh' ∧ deaf_producer (tail_ sh') pc'.
Proof.
  intros Hne Hp Ht Hx Hd. destruct pc as [item|cur item|cur prev|cur prev e|prev|b];
    unfold push_step, mkAligned, load, store, mbind, M_bind.
  - rewrite Hp. by intros [= <- <-].
  - intros [= <- <-]. simpl. split; [done|]. split; [by eapply Hx|done].
  - intros [= <- <-]. simpl in *. split; [done|]. split; [done|]. by rewrite bool_decide_false.
  - destruct Hd as [Hd ->]. destruct (heap sh !! prev) as [n|] eqn:E; [|done]. cbn. rewrite E. by intros [= <- <-].
  - intros [= <- <-]. simpl in *. split; [done|]. split; [done|]. by rewrite bool_decide_false.
  - by intros [= <- <-].
Qed.

Lemma deaf_step w w' q xs : good w q xs → deaf w → own_step w w' → deaf w' ∧ ran w' = ran w.
Proof.
  intros G (Hl & Hc & Hk & Hne & Hd) [[e E]|[e E]].
  2:{ exfalso. destruct e; cbn [loop_exec] in E; rewrite Hl in E; try done. by rewrite decide_False in E by lia. }
  destruct e as [i op|i p|i|i|i]; cbn [thread_exec] in E; rewrite ?Hk in E.
  - rewrite decide_False in E by set_solver. cbn [run_act] in E.
    destruct (producers (mpsc w) !! i) eqn:Hi; [done|]. injection E as <-. split; [|done].
    split_and!; try done. intros j pc. simpl. rewrite set_producer_lookup. case_decide; [by intros [= <-]|apply Hd].
  - cbn [run_act] in E. destruct (producers (mpsc w) !! i) as [pc|] eqn:Hi; [|done].
    destruct (heap (shared (mpsc w)) !! p) eqn:Hp; [done|].
    destruct (push_step p pc (shared (mpsc w))) as [pc' sh'| | |] eqn:Es; try done. injection E as <-.
    pose proof (g_queue _ _ _ G) as I.
    destruct (push_step_deaf p pc _ pc' sh' Hne Hp) as (Et & Hne' & Hd'); [| |by eapply Hd|done|].
    + apply (i_alive _ _ _ I). apply head_Some_elem_of, I.
    + intros cur x ->. destruct (i_own _ _ _ I i cur x) as [Hn _]; [by rewrite Hi|].
      intros ->. apply Hn. apply head_Some_elem_of, I.
    + split; [|done]. split_and!; try done. intros j pc1. simpl. rewrite set_producer_lookup, Et in *.
      case_decide; [by intros [= <-]|apply Hd].
  - destruct (producers (mpsc w) !! i) as [pc|] eqn:Hi; [|done]. destruct pc as [| | | | |b]; try done.
    cbn [run_act] in E. rewrite Hi in E. injection E as <-. pose proof (Hd i _ Hi) as Hb. simpl in Hb. subst b.
    split; [|done]. split_and!; try done. intros j pc. simpl. rewrite set_producer_lookup.
    case_decide; [done|apply Hd].
  - by rewrite decide_False in E by set_solver.
  - by rewrite decide_False in E by set_solver.
Qed.

(** A loop that sleeps while something is queued and no one is in a call is deaf. *)
Lemma asleep_deaf w q xs : good w q xs → loop w = Waiting → chan w = 0%nat → quiet w →
  ran w ≠ pushed (shared (mpsc w)) → deaf w.
Proof.
  intros G Hl Hc [Hp Hk] Hne. pose proof G as [I _ Gi _ _ _ Gr]. specialize (Gi ltac:(unfold in_pass; by rewrite Hl)).
  rewrite Gi, app_nil_r in Gr. split_and!; try done; [|intros i pc; by rewrite Hp, lookup_empty].
  destruct (calm_facts _ _ _ (calm_of _ _ _ I Hp Gi)) as (_ & Hnd & _ & Fx).
  destruct xs as [|x xs]; [by destruct Hne; rewrite <- Gr, (i_log _ _ _ I), app_nil_r|].
  destruct Fx as (n & q' & y & o & -> & _). pose proof (i_head _ _ _ I) as Hh.
  intros E. rewrite <- E in Hnd. apply NoDup_cons in Hnd as [Hnd _]. apply Hnd.
  change (tail_ (shared (mpsc w)) :: n :: q') with ([tail_ (shared (mpsc w))] ++ n :: q') in Hh.
  rewrite last_app_cons in Hh. apply last_Some in Hh as [l ->]. set_solver.
Qed.
End wakeup.

(** ** Running a schedule *)

Inductive event {T : Type} :=
| Thread (e : thread_event (T := T))
| Own (e : loop_event)
| Other.
Arguments event : clear implicits.
Definition exec {T} (moved : T) (e : event T) (w : world (T := T)) : option world :=
  match e with Thread e => thread_exec moved e w | Own e => loop_exec moved e w | Other => other_exec w end.
Abbreviation exec_all moved := (run_schedule (exec moved)).

Lemma exec_steps {T} (moved : T) es w w' : exec_all moved es w = Some w' → rtc (step moved) w w'.
Proof.
  apply schedule_rtc. intros [e|e|] a b E; [left; by exists e|right; left; by exists e|by right; right].
Qed.

Lemma exec_nsteps {T} (moved : T) es w w' : exec_all moved (Own <$> es) w = Some w' →
  nsteps (loop_step moved) (length es) w w'.
Proof.
  intros E. rewrite <- (length_fmap (@Own T) es).
  apply (schedule_nsteps (exec moved) _ (λ e, if e is Own _ then true else false)); [| |exact E].
  - intros [e|e|] a b Hok Ee; [done|by exists e|done].
  - clear E. by induction es as [|e es IH]; [|apply IH].
Qed.

(** The pass at the top of the first turn, which finds nothing.  Then two threads in a race:
    the second one finds the first one's node, which is not linked yet, and needs no write;
    the first one then wakes the loop up, or fails to. *)
Definition race_calls : list (event nat) :=
  [Own LPop; Own LPop; Own LRun] ++ (Thread <$>
  [TCall 0 7%nat; TPush 0 2%N; TPush 0 9%N; TCall 1 8%nat; TPush 1 3%N;
   TPush 1 9%N; TPush 1 9%N; TPush 1 9%N; TPush 1 9%N; TPushed 1;
   TPush 0 9%N; TPush 0 9%N; TPushed 0]).
Definition run_race es : world := default (init_world 0%nat 1) (exec_all 0%nat es (init_world 0%nat 1)).
Definition signalled_race : world := run_race (race_calls ++ [Thread (TSignal 0)]).
Definition failed_race : world := run_race (race_calls ++ [Thread (TSignalFails 0)]).
(** A pass over two operations, and the one of the next turn, over none. *)
Definition pass_two : list loop_event := replicate 5 LPop ++ [LRun] ++ replicate 5 LPop ++ [LRun; LPop; LPop; LRun].
Definition one_pass : list loop_event := [LWake; LRead 1] ++ pass_two ++ [LPop; LPop; LRun].

Lemma signalled_race_reachable : rtc (step 0%nat) (init_world 0%nat 1) signalled_race.
Proof. eapply (exec_steps 0%nat (race_calls ++ [Thread (TSignal 0)])). by vm_compute. Qed.
Lemma failed_race_reachable : rtc (step 0%nat) (init_world 0%nat 1) failed_race.
Proof. eapply (exec_steps 0%nat (race_calls ++ [Thread (TSignalFails 0)])). by vm_compute. Qed.

(** ** What threads can rely on *)

(** C14: operations run in the order in which they were queued, each once, in every
    interleaving of the threads with the loop.  And all of them run: when no thread is in
    a call and no wake-up has failed, the loop's thread comes to rest after a bounded
    number of steps, and by then it has run everything. *)
Theorem operations_run {T} (d moved : T) p w :
  rtc (step moved) (init_world d p) w →
  (∃ rest, pushed (shared (mpsc w)) = ran w ++ rest) ∧
  (failed w = false → quiet w → ∀ n w', nsteps (loop_step moved) n w w' →
     (n ≤ work w)%nat ∧
     ((∀ w'', ¬ loop_step moved w' w'') → loop w' = Waiting ∧ ran w' = pushed (shared (mpsc w)))).
Proof.
  intros R. destruct (reachable_good d moved p w R) as (q & xs & G). split.
  - eexists. by rewrite (i_log _ _ _ (g_queue _ _ _ G)), (g_ran _ _ _ G), <- app_assoc.
  - intros Hf Hq n w' Hn. assert (heals w) as Hh.
    { right. destruct (stranded w) eqn:Hs; [|done]. by rewrite (g_failed _ _ _ G Hs) in Hf. }
    destruct (rests moved w w' n q xs G Hh Hq Hn) as [Hw Hr]. split; [done|]. intros Hend.
    by destruct (Hr Hend) as (? & ? & _).
Qed.

Lemma operations_run_witness :
  ∃ w', nsteps (loop_step 0%nat) 20 signalled_race w' ∧ (20 ≤ work signalled_race)%nat ∧ ran w' = [7%nat; 8%nat].
Proof.
  destruct (operations_run 0%nat 0%nat 1 signalled_race signalled_race_reachable) as [_ T].
  pose (w' := default signalled_race (exec_all 0%nat (Own <$> one_pass) signalled_race)).
  assert (nsteps (loop_step 0%nat) 20 signalled_race w') as Hn.
  { apply (exec_nsteps 0%nat one_pass). by vm_compute. }
  exists w'. split; [exact Hn|]. split; [|by vm_compute].
  apply (T ltac:(by vm_compute) ltac:(split; by vm_compute) 20%nat w' Hn).
Defined.

(** C37: when the loop sleeps, the channel is empty, no thread is in a call and something is
    still queued, then a write to the channel has failed.  From then on, until libevent
    returns for an event of another kind, the loop runs nothing, whatever threads do: every
    later [push] finds the queue not empty, so that every later [runOnEventLoop] returns true
    without waking the loop up.  (In a FOREVER loop there is such an event after an hour at
    most, which is how long the operations may wait.)  After such an event, when no thread is
    in a call, the loop comes to rest after a bounded number of steps and has run everything;
    and from there on, as long as no write fails again, the channel is not empty when the loop
    sleeps and something is queued. *)
Theorem failed_wakeup_deafens {T} (d moved : T) p w :
  rtc (step moved) (init_world d p) w →
  loop w = Waiting → chan w = 0%nat → quiet w → ran w ≠ pushed (shared (mpsc w)) →
  failed w = true ∧ ∀ w1, rtc (own_step moved) w w1 →
    (ran w1 = ran w ∧ loop w1 = Waiting ∧ kicks w1 = ∅ ∧
     ∀ i b, producers (mpsc w1) !! i = Some (PRet b) → b = false) ∧
    is_Some (other_exec w1) ∧
    ∀ w2 n w3, other_step w1 w2 → quiet w2 → nsteps (loop_step moved) n w2 w3 →
      (n ≤ work w2)%nat ∧
      ((∀ w', ¬ loop_step moved w3 w') →
        loop w3 = Waiting ∧ ran w3 = pushed (shared (mpsc w2)) ∧ stranded w3 = false ∧
        ∀ w4, rtc (step moved) w3 w4 → stranded w4 = false → quiet w4 → loop w4 = Waiting →
          ran w4 ≠ pushed (shared (mpsc w4)) → (0 < chan w4)%nat).
Proof.
  intros R Hl Hc Hq Hne. destruct (reachable_good d moved p w R) as (q & xs & G). split.
  { destruct (stranded w) eqn:Hs; [by apply (g_failed _ _ _ G)|]. by destruct Hne; eapply asleep_done. }
  intros w1 R1. pose proof (asleep_deaf w q xs G Hl Hc Hq Hne) as D.
  assert (∃ q' xs', good w1 q' xs' ∧ deaf w1 ∧ ran w1 = ran w) as (q1 & xs1 & G1 & D1 & Hr).
  { eapply (rtc_invariant (own_step moved) (λ w', ∃ q' xs', good w' q' xs' ∧ deaf w' ∧ ran w' = ran w)); [|exact R1|by eauto].
    intros a b (qa & xa & Ga & Da & Ea) Hs. destruct (deaf_step moved a b qa xa Ga Da Hs) as [Db Eb].
    destruct Hs as [Hs|Hs]; [destruct (thread_good moved a b qa xa Ga Hs) as (qb & xb & Gb)
      |destruct (loop_good moved a b qa xa Ga Hs) as (qb & xb & Gb)]; exists qb, xb; split_and!; congruence || done. }
  destruct D1 as (Hl1 & _ & Hk1 & _ & Hd1). split; [|split].
  - split_and!; try done. intros i b Hb. by apply (Hd1 i (PRet b)).
  - unfold other_exec. rewrite Hl1. by eexists.
  - intros w2 n w3 Ho Hq2 Hn. pose proof (other_good w1 w2 q1 xs1 G1 Ho) as G2.
    assert (heals w2) as Hh.
    { left. unfold other_step, other_exec in Ho. rewrite Hl1 in Ho. injection Ho as <-. split; [done|]. simpl.
      rewrite (g_idle _ _ _ G1); [done|]. unfold in_pass. by rewrite Hl1. }
    destruct (rests moved w2 w3 n q1 xs1 G2 Hh Hq2 Hn) as [Hw Hend]. split; [done|]. intros Hr3.
    destruct (Hend Hr3) as (Hl3 & Hran & Hst). split_and!; [done..|]. intros w4 R4 Hs4 Hq4 Hl4 Hne4.
    destruct (decide (0 < chan w4)%nat) as [|Hc4]; [done|]. destruct Hne4.
    assert (∃ q4 xs4, good w4 q4 xs4) as (q4 & xs4 & G4).
    { apply (reachable_good d moved p). etrans; [exact R|]. etrans.
      { eapply (rtc_subrel (own_step moved)); [|exact R1]. intros a b [?|?]; [by left|by right; left]. }
      eapply rtc_l; [by right; right|]. etrans; [|exact R4]. apply (rtc_nsteps_2 n).
      eapply nsteps_congruence with (f := id); [|exact Hn]. intros a b ?. by right; left. }
    eapply asleep_done; [exact G4|done|done|done|lia].
Qed.

(** The timer of the loop goes off. *)
Lemma failed_wakeup_deafens_witness :
  pushed (shared (mpsc failed_race)) = [7%nat; 8%nat] ∧ ran failed_race = [] ∧ failed failed_race = true ∧
  (∀ w', rtc (own_step 0%nat) failed_race w' → ran w' = []) ∧
  ∃ w2 w3, other_step failed_race w2 ∧ nsteps (loop_step 0%nat) 15 w2 w3 ∧ (15 ≤ work w2)%nat ∧ ran w3 = [7%nat; 8%nat].
Proof.
  destruct (failed_wakeup_deafens 0%nat 0%nat 1 failed_race failed_race_reachable) as [Hf T];
    [by vm_compute|by vm_compute|split; by vm_compute|vm_compute; discriminate|].
  split; [by vm_compute|]. split; [by vm_compute|]. split; [exact Hf|]. split.
  - intros w' R. destruct (T w' R) as [[-> _] _]. by vm_compute.
  - destruct (T failed_race ltac:(reflexivity)) as (_ & _ & T3).
    pose (w2 := default failed_race (other_exec failed_race)).
    pose (w3 := default w2 (exec_all 0%nat (Own <$> pass_two) w2)).
    assert (other_step failed_race w2) as Ho by by vm_compute.
    assert (nsteps (loop_step 0%nat) 15 w2 w3) as Hn by (apply (exec_nsteps 0%nat pass_two); by vm_compute).
    exists w2, w3. split; [exact Ho|]. split; [exact Hn|].
    split; [apply (T3 w2 15%nat w3 Ho ltac:(split; by vm_compute) Hn)|by vm_compute].
Defined.
