(* ===== verification/QueueSpec.v ===== *)
(** * What the queue is to its clients

    An abstract queue, and that [ConcurrentMPSCQueue<T>] ([src/mpsc_queue.h], as in
    [Mpsc.v]) implements it: whatever clients can see of an execution (calls of [push],
    their results, the results of [pop]) they could see of the abstract queue.

    The abstract queue is not an atomic one.  A [push] adds its value at some moment
    between its call and its return, and [pop] takes the first value at some moment; but
    [pop] may also find nothing while a call that has added its value has not returned.
    A consumer that found nothing is [hungry] until a [push] returns true, and a [push]
    returns false to a hungry consumer only if another call is going to see to it. *)

From S2P Require Import Prelude Mpsc.

Section spec.
Context {T : Type}.

(** ** The abstract queue *)

(** A call of [pop]: not decided yet, about to take a value, decided. *)
Inductive popper := Idle | Taking | Got (r : option T).

Record spec := mkSpec {
  items : list T;
  pushers : gmap nat (option T);   (** calls of [push]; [None]: the value is in [items] *)
  popper_ : popper;
  hungry : bool;
}.
Definition spec_init : spec := mkSpec [] ∅ Idle true.

Inductive event :=
| ECall (i : nat) (x : T)
| EReturn (i : nat) (b : bool)
| EPopped (r : option T).

(** [weak]: [pop] may find nothing while a call of [push] has not returned. *)
Inductive spec_step (weak : bool) : option event → spec → spec → Prop :=
| spec_call s i x : pushers s !! i = None →
    spec_step weak (Some (ECall i x)) s (mkSpec (items s) (<[i := Some x]> (pushers s)) (popper_ s) (hungry s))
| spec_add s i x : pushers s !! i = Some (Some x) →
    spec_step weak None s (mkSpec (items s ++ [x]) (<[i := None]> (pushers s)) (popper_ s) (hungry s))
| spec_return s i b : pushers s !! i = Some None →
    (b = false → hungry s = true → (∀ j, pushers s !! j = Some None → j = i) → items s = []) →
    spec_step weak (Some (EReturn i b)) s
      (mkSpec (items s) (delete i (pushers s)) (popper_ s) (hungry s && negb b))
| spec_nothing s : popper_ s = Idle →
    items s = [] ∨ (weak = true ∧ ∃ j, pushers s !! j = Some None) →
    spec_step weak None s (mkSpec (items s) (pushers s) (Got None) true)
| spec_commit s : popper_ s = Idle → items s ≠ [] →
    spec_step weak None s (mkSpec (items s) (pushers s) Taking false)
| spec_take s x xs : popper_ s = Taking → items s = x :: xs →
    spec_step weak None s (mkSpec xs (pushers s) (Got (Some x)) (hungry s))
| spec_popped s r : popper_ s = Got r →
    spec_step weak (Some (EPopped r)) s (mkSpec (items s) (pushers s) Idle (hungry s)).

(** What clients see of an execution. *)
Inductive spec_trace (weak : bool) : spec → list event → spec → Prop :=
| trace_nil s : spec_trace weak s [] s
| trace_hidden s s1 s2 l : spec_step weak None s s1 → spec_trace weak s1 l s2 → spec_trace weak s l s2
| trace_visible s s1 s2 e l :
    spec_step weak (Some e) s s1 → spec_trace weak s1 l s2 → spec_trace weak s (e :: l) s2.

(** An invariant of the abstract queue holds after every trace. *)
Lemma spec_invariant weak (P : spec → Prop) s l s' :
  (∀ o a b, P a → spec_step weak o a b → P b) → spec_trace weak s l s' → P s → P s'.
Proof. intros HP. induction 1; eauto. Qed.

(** Nothing is left to a hungry consumer when all calls that added something have
    returned. *)
Definition fed (s : spec) : Prop :=
  hungry s = true → (∀ j, pushers s !! j ≠ Some None) → items s = [].
Lemma spec_fed weak o s s' : fed s → spec_step weak o s s' → fed s'.
Proof.
  unfold fed. intros HF Hs. destruct Hs as [s i x Hi|s i x Hi|s i b Hi Hb|s Hp Hn|s Hp Hn|s x xs Hp Hx|s r Hp]; simpl in *.
  - intros Hh Hj. apply HF; [done|]. intros j Hs. destruct (decide (i = j)) as [<-|Hne]; [congruence|].
    apply (Hj j). by rewrite lookup_insert_ne.
  - intros _ Hj. destruct (Hj i). by rewrite lookup_insert_eq.
  - intros [Hh Hbf]%andb_true_iff Hj. destruct b; [done|]. apply Hb; [done|done|]. intros j Hs.
    destruct (decide (i = j)) as [|Hne]; [done|]. destruct (Hj j). by rewrite lookup_delete_ne.
  - intros _ Hj. destruct Hn as [?|[_ [j ?]]]; [done|by destruct (Hj j)].
  - done.
  - intros Hh Hj. specialize (HF Hh Hj). congruence.
  - done.
Qed.

(** ** The queue as such a one *)

Context (T_moved : T).

Definition pusher_of (pc : producer T) : option T :=
  match pc with PAlloc x | PExchange _ x => Some x | _ => None end.
Definition popper_of (c : consumer T) : popper :=
  match c with CIdle | CNext _ => Idle | CStore _ _ | CFree _ _ | CMove _ => Taking | CRet r => Got r end.
(** The values that are pushed and not popped. *)
Definition items_of (sh : queue T) : list T := drop (length (popped sh)) (pushed sh).
Definition spec_of (s : state T) : spec :=
  mkSpec (items_of (shared s)) (pusher_of <$> producers s) (popper_of (cons s)) (found_empty s && negb (signalled s)).

(** What clients see of an access. *)
Definition visible (a : act T) (s : state T) : option event :=
  match a with
  | Call i x => Some (ECall i x)
  | Push _ _ => None
  | Return i => match producers s !! i with Some (PRet b) => Some (EReturn i b) | _ => None end
  | Pop => match cons s with CRet r => Some (EPopped r) | _ => None end
  end.
Fixpoint visibles (acts : list (act T)) (s : state T) : list event :=
  match acts with
  | [] => []
  | a :: acts =>
      match visible a s with Some e => [e] | None => [] end ++
      match run_act T_moved a s with Some s' => visibles acts s' | None => [] end
  end.
End spec.
Arguments spec T : clear implicits.
Arguments event T : clear implicits.

(** ** The simulation *)

Section simulation.
Context {T : Type} (T_moved : T).
Implicit Types s : state T.

Lemma items_of_inv s q xs : inv s q xs → items_of (shared s) = xs.
Proof. intros I. unfold items_of. rewrite (i_log _ _ _ I). apply drop_app_length. Qed.

Lemma items_pushed (sh sh' : queue T) l : (length (popped sh) ≤ length (pushed sh))%nat →
  pushed sh' = pushed sh ++ l → popped sh' = popped sh → items_of sh' = items_of sh ++ l.
Proof. intros Hl Ep Eo. unfold items_of. rewrite Ep, Eo. apply drop_app_le. lia. Qed.

Lemma log_length s q xs : inv s q xs → (length (popped (shared s)) ≤ length (pushed (shared s)))%nat.
Proof. intros I. rewrite (i_log _ _ _ I), length_app. lia. Qed.

(** While the consumer is between two calls of [pop] or has found nothing, a value that is
    left is behind the first node; its link is there, or a call of [push] is about to
    make it. *)
Lemma left_behind s q xs : inv s q xs → xs ≠ [] → pending (cons s) q = tail q →
  ∃ n y o, heap (shared s) !! tail_ (shared s) = Some (mkNode y o) ∧
    (o = Some n ∨ o = None ∧ ∃ i, links (producers s !! i) n (tail_ (shared s))).
Proof.
  intros I Hx Hp. pose proof (i_data _ _ _ I) as Hd. rewrite Hp in Hd. pose proof (i_tail _ _ _ I) as Ht.
  destruct q as [|t q]; [done|]. injection Ht as ->. destruct q as [|n q]; [by inversion Hd; subst|].
  destruct (i_alive _ _ _ I (tail_ (shared s))) as [[y o] Ey]; [by left|].
  exists n, y, o. split; [done|]. by apply (i_link _ _ _ I _ _ y o); [exists [], q|].
Qed.

(** A hungry consumer is not left with values by the last call that returns false. *)
Lemma return_guard s q xs i : inv s q xs → producers s !! i = Some (PRet false) →
  found_empty s = true → signalled s = false →
  (∀ j, (pusher_of <$> producers s) !! j = Some None → j = i) → xs = [].
Proof.
  intros I Hi Hf Hs Hj. destruct (decide (xs = [])) as [|Hx]; [done|]. exfalso.
  pose proof (i_calm _ _ _ I Hf) as Hc.
  destruct (left_behind s q xs I Hx) as (n & y & o & Et & Ho); [by destruct (cons s)|].
  destruct Ho as [-> |[-> [j Hl]]].
  - destruct (i_signal _ _ _ I y n Hf Et) as [|[j Hl]]; [congruence|].
    assert (j = i) as ->.
    { apply Hj. rewrite lookup_fmap. by destruct (producers s !! j) as [[]|]. }
    rewrite Hi in Hl. done.
  - assert (j = i) as ->.
    { apply Hj. rewrite lookup_fmap. by destruct (producers s !! j) as [[]|]. }
    by rewrite Hi in Hl.
Qed.

Lemma calls_set (P : gmap nat (producer T)) i pc : set_producer i (Some pc) P = <[i := pc]> P.
Proof. done. Qed.
Lemma calls_unset (P : gmap nat (producer T)) i : set_producer i None P = delete i P.
Proof. done. Qed.

Lemma fmap_same (P : gmap nat (producer T)) i pc pc' : P !! i = Some pc → pusher_of pc' = pusher_of pc →
  pusher_of <$> <[i := pc']> P = pusher_of <$> P.
Proof.
  intros Hi E. rewrite fmap_insert, E. apply insert_id. by rewrite lookup_fmap, Hi.
Qed.

(** Every access is a step of the abstract queue with the same visible event, or none. *)
Lemma simulates a s s' q xs : inv s q xs → run_act T_moved a s = Some s' →
  (visible a s = None ∧ spec_of s' = spec_of s) ∨ spec_step true (visible a s) (spec_of s) (spec_of s').
Proof.
  intros I E. pose proof (items_of_inv s q xs I) as Ei. pose proof (log_length s q xs I) as El.
  destruct a as [i x|i p|i|]; cbn [run_act visible] in *.
  - destruct (producers s !! i) eqn:Hi; [done|]. injection E as <-. right.
    unfold spec_of. simpl. rewrite calls_set, fmap_insert.
    apply (spec_call true (spec_of s) i x). simpl. by rewrite lookup_fmap, Hi.
  - destruct (producers s !! i) as [pc|] eqn:Hi; [|done]. destruct (heap (shared s) !! p); [done|].
    destruct (push_step p pc (shared s)) as [pc' sh'| | |] eqn:Es; try done. injection E as <-.
    destruct (push_step_log _ _ _ _ _ Es) as [Ep Eo].
    pose proof (items_pushed (shared s) sh' _ El Ep Eo) as Eitems.
    unfold spec_of. simpl. rewrite calls_set, Eitems.
    destruct pc as [y|cur y|cur prev|cur prev e|prev|b]; unfold push_step, mkAligned, load, store, mbind, M_bind in Es.
    2:{ injection Es as <- <-. right. rewrite fmap_insert.
        apply (spec_add true (spec_of s) i y). simpl. by rewrite lookup_fmap, Hi. }
    all: left; split; [done|]; rewrite app_nil_r; f_equal; eapply fmap_same; [exact Hi|].
    + destruct (heap (shared s) !! p); [done|]. by injection Es as <- _.
    + by injection Es as <- _.
    + destruct (heap (shared s) !! prev) eqn:En; [|done]. cbn in Es. rewrite En in Es. injection Es as <- _. by destruct e.
    + by injection Es as <- _.
    + by injection Es as <- _.
  - destruct (producers s !! i) as [pc|] eqn:Hi; [|done]. destruct pc as [| | | | |b]; try done. injection E as <-.
    right. unfold spec_of. simpl. rewrite calls_unset, fmap_delete.
    replace (found_empty s && negb (signalled s || b)) with (found_empty s && negb (signalled s) && negb b)
      by (by destruct (found_empty s), (signalled s), b).
    apply (spec_return true (spec_of s) i b); simpl; [by rewrite lookup_fmap, Hi|].
    intros -> [Hf Hs%negb_true_iff]%andb_true_iff Hj. rewrite Ei. by apply (return_guard s q xs i).
  - destruct (cons s) as [|a|a n|a n|n|r] eqn:Hc.
    6:{ injection E as <-. right. unfold spec_of. simpl. rewrite Hc.
        by apply (spec_popped true (mkSpec _ _ (Got r) _)). }
    all: assert (∀ r, cons s ≠ CRet r) as Hr by (by rewrite Hc);
      destruct (pop_step_ok T_moved s q xs I Hr) as (pc' & q' & xs' & sh' & Es & I' & _);
      rewrite Hc in Es; rewrite Es in E; injection E as <-;
      unfold pop_step, load, store, freeAligned, mbind, M_bind in Es.
    + injection Es as <- <-. left. split; [done|]. unfold spec_of. simpl. by rewrite Hc.
    + destruct (heap (shared s) !! a) as [[y o]|] eqn:Ea; [|done].
      pose proof (i_cons _ _ _ I) as Ha. unfold cons_ok in Ha. rewrite Hc in Ha. subst a.
      destruct o as [n|]; injection Es as <- <-; right; unfold spec_of; simpl; rewrite Hc; simpl.
      * apply (spec_commit true (mkSpec _ _ Idle _)); [done|]. simpl. rewrite Ei. intros ->.
        pose proof (i_data _ _ _ I) as Hd. rewrite Hc in Hd. simpl in Hd. apply Forall2_nil_inv_r in Hd.
        pose proof (i_tail _ _ _ I) as Ht. pose proof (i_head _ _ _ I) as Hh.
        destruct q as [|t [|]]; try done. injection Ht as ->. injection Hh as Eh.
        rewrite Eh in Ea. by apply (i_last _ _ _ I) in Ea.
      * apply (spec_nothing true (mkSpec _ _ Idle _)); [done|]. simpl. rewrite Ei.
        destruct (decide (length xs = 0%nat)) as [Hx|Hx]; [left; by destruct xs|right]. split; [done|].
        destruct (left_behind s q xs I) as (n & y' & o & Et & Ho); [by intros ->|by rewrite Hc|].
        rewrite Ea in Et. injection Et as <- <-. destruct Ho as [|[_ [j Hl]]]; [done|].
        exists j. rewrite lookup_fmap. by destruct (producers s !! j) as [[]|].
    + injection Es as <- <-. left. split; [done|]. unfold spec_of. simpl. by rewrite Hc.
    + destruct (heap (shared s) !! a) eqn:Ea; [|done]. injection Es as <- <-. left. split; [done|].
      unfold spec_of. simpl. by rewrite Hc.
    + destruct (heap (shared s) !! n) as [nd|] eqn:En; [|done]. cbn in Es. rewrite En in Es. injection Es as <- <-. right.
      unfold spec_of. simpl. rewrite Hc. simpl.
      pose proof (items_of_inv _ _ _ I') as Ei'. pose proof (i_log _ _ _ I) as Hl. pose proof (i_log _ _ _ I') as Hl'.
      simpl in Ei', Hl, Hl'. rewrite Hl, <- app_assoc in Hl'. apply app_inv_head in Hl'. simpl in Hl'.
      apply (spec_take true (mkSpec _ _ Taking _)); [done|]. simpl. rewrite Ei, Hl'. f_equal. by rewrite <- Ei'.
Qed.
End simulation.

(** ** What it promises *)

Lemma simulates_run {T} (moved : T) acts s s' q xs : inv s q xs → run moved acts s = Some s' →
  spec_trace true (spec_of s) (visibles moved acts s) (spec_of s').
Proof.
  revert s q xs. induction acts as [|a acts IH]; intros s q xs I E; simpl in *.
  - injection E as <-. constructor.
  - destruct (run_act moved a s) as [s1|] eqn:Ea; [|done].
    destruct (inv_step moved s s1 q xs I (run_act_step moved a s s1 Ea)) as (q' & xs' & I').
    specialize (IH s1 q' xs' I' E).
    destruct (simulates moved a s s1 q xs I Ea) as [[-> <-]|Hs]; [done|].
    destruct (visible a s) as [e|]; [by eapply trace_visible|by eapply trace_hidden].
Qed.

(** C17: the queue implements the abstract one: what clients see of any execution, from the
    first call on, they can see of the abstract queue, which then holds the values that
    are pushed and not popped, knows the same calls in progress, and is hungry when the
    last [pop] has found nothing and no [push] has returned true since. *)
Theorem mpsc_refines {T} (d moved : T) p acts s :
  run moved acts (init d p) = Some s →
  spec_trace true spec_init (visibles moved acts (init d p)) (spec_of s) ∧ fed (spec_of s).
Proof.
  intros E. assert (spec_of (init d p) = spec_init) as E0.
  { unfold spec_of. simpl. by rewrite fmap_empty. }
  pose proof (simulates_run moved acts _ s _ _ (inv_init d p) E) as Ht. rewrite E0 in Ht. split; [exact Ht|].
  eapply (spec_invariant true fed); [|exact Ht|done]. intros o a b. apply spec_fed.
Qed.

(** The race of [Mpsc.v]: the second call returns, and then [pop] finds nothing. *)
Lemma mpsc_refines_witness : ∃ s,
  spec_trace true spec_init [ECall 0 7%nat; ECall 1 8%nat; EReturn 1 false; EPopped None; EReturn 0 true] s ∧
  items s = [7%nat; 8%nat].
Proof.
  destruct (mpsc_refines 0%nat 0%nat 1 race (run_race race)) as [Ht _]; [by vm_compute|].
  exists (spec_of (run_race race)). split; [exact Ht|by vm_compute].
Defined.

(** ** It is not atomic *)

(** [pop] twice finds nothing although a call of [push] has returned before. *)
Definition overtaken : list (act nat) :=
  [Call 0 7%nat; Push 0 2%N; Push 0 9%N; Call 1 8%nat; Push 1 3%N; Push 1 9%N;
   Push 1 9%N; Push 1 9%N; Push 1 9%N; Return 1; Pop; Pop; Pop; Pop; Pop; Pop].
Definition overtaken_events : list (event nat) :=
  [ECall 0 7%nat; ECall 1 8%nat; EReturn 1 false; EPopped None; EPopped None].

(** In an atomic queue there is something from the first call that has added its value on. *)
Definition something (s : spec nat) : Prop := items s ≠ [] ∨ ∃ x, popper_ s = Got (Some x).
Definition added_something (s : spec nat) : Prop := ∀ j, pushers s !! j = Some None → something s.
Definition not_empty_handed (s : spec nat) : Prop := something s ∧ popper_ s ≠ Got None.

Lemma something_hidden s s' : something s → spec_step false None s s' → something s'.
Proof.
  unfold something. intros Hs E. inversion E as [|s0 i x Hi| |s0 Hp Hn|s0 Hp Hn|s0 x xs Hp Hx|]; subst; simpl in *.
  - left. by destruct (items s).
  - destruct Hn as [Hn|[? _]]; [|done]. destruct Hs as [?|[y Hy]]; [done|congruence].
  - by left.
  - right. by exists x.
Qed.
Lemma added_hidden s s' : added_something s → spec_step false None s s' → added_something s'.
Proof.
  unfold added_something. intros HA E j Hj. inversion E as [|s0 i x Hi| |s0 Hp Hn|s0 Hp Hn|s0 x xs Hp Hx|]; subst; simpl in *.
  - left. simpl. by destruct (items s).
  - by apply (something_hidden s); [apply (HA j)|].
  - by left.
  - right. by exists x.
Qed.
Lemma not_empty_handed_hidden s s' : not_empty_handed s → spec_step false None s s' → not_empty_handed s'.
Proof.
  intros [Hs Hn] E. split; [by apply (something_hidden s)|].
  inversion E as [|s0 i x Hi| |s0 Hp Hx|s0 Hp Hx|s0 x xs Hp Hx|]; subst; simpl; try done.
  destruct Hx as [Hx|[? _]]; [|done]. destruct Hs as [?|[y Hy]]; [done|congruence].
Qed.

(** The hidden steps before a visible one. *)
Lemma trace_split weak (s s' : spec nat) e l : spec_trace weak s (e :: l) s' → ∃ s1 s2,
  rtc (spec_step weak None) s s1 ∧ spec_step weak (Some e) s1 s2 ∧ spec_trace weak s2 l s'.
Proof.
  intros Ht. remember (e :: l) as l0 eqn:El. revert El. induction Ht as [s|s s1 s2 l1 Hs _ IH|s s1 s2 e1 l1 Hs Ht _]; intros El.
  - done.
  - destruct (IH El) as (a & b & Ha & Hb & Hc). exists a, b. split; [by eapply rtc_l|done].
  - injection El as -> ->. exists s, s1. split; [constructor|done].
Qed.
Lemma hidden_keeps (P : spec nat → Prop) s s' :
  (∀ a b, P a → spec_step false None a b → P b) → rtc (spec_step false None) s s' → P s → P s'.
Proof. apply rtc_invariant. Qed.

(** C30: [pop] is not atomic with the calls of [push]: in an execution of the queue a call of
    [push] returns, and after that two calls of [pop] find nothing; an atomic queue has no
    such execution. *)
Theorem mpsc_not_atomic :
  (∃ s, run 0%nat overtaken (init 0%nat 1) = Some s ∧
    visibles 0%nat overtaken (init 0%nat 1) = overtaken_events) ∧
  ¬ ∃ s, spec_trace false spec_init overtaken_events s.
Proof.
  split; [eexists; split; [by vm_compute|by vm_compute]|].
  intros (s & Ht). unfold overtaken_events in Ht.
  destruct (trace_split _ _ _ _ _ Ht) as (a0 & b0 & R0 & S0 & Ht0).
  destruct (trace_split _ _ _ _ _ Ht0) as (a1 & b1 & R1 & S1 & Ht1).
  destruct (trace_split _ _ _ _ _ Ht1) as (a2 & b2 & R2 & S2 & Ht2).
  destruct (trace_split _ _ _ _ _ Ht2) as (a3 & b3 & R3 & S3 & Ht3).
  destruct (trace_split _ _ _ _ _ Ht3) as (a4 & b4 & R4 & S4 & _).
  assert (∀ a b i x, added_something a → spec_step false (Some (ECall i x)) a b → added_something b) as Hcall.
  { intros a b i x HA E j Hj. inversion E; subst. simpl in Hj. apply (HA j).
    destruct (decide (i = j)) as [<-|Hne]; [by rewrite lookup_insert_eq in Hj|by rewrite lookup_insert_ne in Hj]. }
  assert (added_something a2) as H2.
  { apply (hidden_keeps _ _ _ added_hidden R2), (Hcall a1 b1 1%nat 8%nat), S1.
    apply (hidden_keeps _ _ _ added_hidden R1), (Hcall a0 b0 0%nat 7%nat), S0.
    apply (hidden_keeps _ _ _ added_hidden R0). intros j. simpl. by rewrite lookup_empty. }
  assert (something b2) as H2'.
  { inversion S2 as [| |s0 i b Hi Hg| | | |]; subst. exact (H2 1%nat Hi). }
  pose proof (hidden_keeps _ _ _ something_hidden R3 H2') as H3.
  assert (not_empty_handed b3) as H3'.
  { inversion S3 as [| | | | | |s0 r Hp]; subst. split; [|done]. left.
    destruct H3 as [|[x Hx]]; [done|congruence]. }
  destruct (hidden_keeps _ _ _ not_empty_handed_hidden R4 H3') as [_ Hn].
  by inversion S4; subst.
Qed.
