(* ===== verification/Tso.v ===== *)
(** * The queue on a machine with store buffers

    [ConcurrentMPSCQueue<T>] ([src/mpsc_queue.h]) as an x86 runs it (total store order):
    the release stores of [push] and [pop] go into a store buffer, loads look there first
    and then in memory, and [exchange] waits for the buffer of its thread to drain.  The
    programs are those of [Mpsc.v]; what is different is when their stores take effect.

    Every call of [push] has a buffer of its own, for its one store, [prev->next].  A
    thread that calls [push] again waits for the last one's store at its next [exchange],
    which is one of the schedules here.  The consumer's buffer has its stores to [tail_]
    and to the data that were moved out, and what it frees, in order. *)

From S2P Require Import Prelude Mpsc.

Section tso.
Context {T : Type} (T_default T_moved : T).

(** ** The consumer's buffer *)

Inductive cwrite :=
| WTail (n : nid)      (** [tail_ = n] *)
| WFree (t : nid)      (** the node goes back to the allocator *)
| WMoved (n : nid).    (** the data of [n] are moved out *)

(** A write takes effect. *)
Definition commit_write (x : cwrite) : M (queue T) unit :=
  match x with
  | WTail n => modify (λ s, mkQueue (heap s) (head_ s) n (pushed s) (popped s))
  | WFree t => freeAligned t
  | WMoved n => nd ← load n; store n (mkNode T_moved (next nd))
  end.
Fixpoint drain (xs : list cwrite) : M (queue T) unit :=
  match xs with [] => mret tt | x :: xs => commit_write x;; drain xs end.

(** What a step of [pop] writes. *)
Definition issued (pc : consumer T) : list cwrite :=
  match pc with
  | CStore _ n => [WTail n]
  | CFree t _ => [WFree t]
  | CMove n => [WMoved n]
  | _ => []
  end.

(** ** The system *)

Record tstate := mkT {
  mem : queue T;
  calls : gmap nat (producer T);      (** the calls of [push] in progress *)
  pubs : gmap nat (nid * nid);        (** their stores on the way: [prev->next = cur] *)
  pc : consumer T;
  wbuf : list cwrite;
  (* auxiliary, as in [Mpsc.state] *)
  tso_found_empty : bool;
  tso_signalled : bool;
}.
Definition tso_init (p : nid) : tstate := mkT (ConcurrentMPSCQueue T_default p) ∅ ∅ CIdle [] true false.

(** [prev->next = cur] takes effect. *)
Definition publish (prev cur : nid) : M (queue T) unit :=
  nd ← load prev; store prev (mkNode (data nd) (Some cur)).

Inductive tact :=
| TCall (i : nat) (item : T)
| TPush (i : nat) (p : nid)      (** the next access of the call [i]; [p] for an allocation *)
| TReturn (i : nat)
| TCommit (i : nat)              (** its store takes effect *)
| TPop                           (** the next access of [pop] *)
| TPopped
| TDrain.                        (** the oldest write of the consumer takes effect *)

Definition with_calls f (w : tstate) : tstate :=
  mkT (mem w) (f (calls w)) (pubs w) (pc w) (wbuf w) (tso_found_empty w) (tso_signalled w).

(** The accesses of [push] that are not buffered are those of [Mpsc.push_step]. *)
Definition tpush (i : nat) (p : nid) (c : producer T) : M tstate unit :=
  match c with
  | PPublish cur prev e =>
      modify (λ w, mkT (mem w) (<[i := if e then PRet true else PTail2 prev]> (calls w))
        (<[i := (prev, cur)]> (pubs w)) (pc w) (wbuf w) (tso_found_empty w) (tso_signalled w))
  | _ =>
      c' ← zoom mem (λ m w, mkT m (calls w) (pubs w) (pc w) (wbuf w) (tso_found_empty w) (tso_signalled w))
             (push_step p c);
      modify (with_calls <[i := c']>)
  end.

(** [pop] sees memory with its own writes in it; its new ones go into the buffer. *)
Definition tpop : M tstate unit := λ w,
  match (drain (wbuf w);; pop_step T_moved (pc w)) (mem w) with
  | Done pc' v =>
      Done tt (mkT (mkQueue (heap (mem w)) (head_ (mem w)) (tail_ (mem w)) (pushed (mem w)) (popped v))
        (calls w) (pubs w) pc' (wbuf w ++ issued (pc w))
        (match pc' with CStore _ _ => false | CRet None => true | _ => tso_found_empty w end)
        (match pc' with CRet None => false | _ => tso_signalled w end))
  | Throws e _ => Throws e w
  | Faults f => Faults f
  | Diverges => Diverges
  end.

(** [None]: the access is not the next one. *)
Definition texec (a : tact) (w : tstate) : option (outcome tstate unit) :=
  match a with
  | TCall i item =>
      match calls w !! i, pubs w !! i with
      | None, None => Some (modify (with_calls <[i := PAlloc item]>) w)
      | _, _ => None
      end
  | TPush i p =>
      match calls w !! i, heap (mem w) !! p with
      | Some c, None => Some (tpush i p c w)
      | _, _ => None
      end
  | TReturn i =>
      match calls w !! i with
      | Some (PRet b) =>
          Some (Done tt (mkT (mem w) (delete i (calls w)) (pubs w) (pc w) (wbuf w)
            (tso_found_empty w) (tso_signalled w || b)))
      | _ => None
      end
  | TCommit i =>
      match pubs w !! i with
      | Some (prev, cur) =>
          Some ((zoom mem (λ m w, mkT m (calls w) (delete i (pubs w)) (pc w) (wbuf w)
                   (tso_found_empty w) (tso_signalled w)) (publish prev cur)) w)
      | None => None
      end
  | TPop => match pc w with CRet _ => None | _ => Some (tpop w) end
  | TPopped =>
      match pc w with
      | CRet _ => Some (Done tt (mkT (mem w) (calls w) (pubs w) CIdle (wbuf w)
                    (tso_found_empty w) (tso_signalled w)))
      | _ => None
      end
  | TDrain =>
      match wbuf w with
      | x :: xs =>
          Some ((zoom mem (λ m w, mkT m (calls w) (pubs w) (pc w) xs
                   (tso_found_empty w) (tso_signalled w)) (commit_write x)) w)
      | [] => None
      end
  end.

Definition tstep (w w' : tstate) : Prop := ∃ a, texec a w = Some (Done tt w').
Definition tstuck (w : tstate) : Prop := ∃ a f, texec a w = Some (Faults f).

(** ** What a pending write does not disturb

    [g] can be done before the consumer's writes take effect, or after. *)

Definition independent (ok : queue T → Prop) (g : queue T → queue T) : Prop :=
  ∀ x m m', ok m → commit_write x m = Done tt m' → commit_write x (g m) = Done tt (g m') ∧ ok m'.

Lemma drain_independent ok g xs m v : independent ok g → ok m → drain xs m = Done tt v →
  drain xs (g m) = Done tt (g v) ∧ ok v.
Proof.
  intros Hg. revert m. induction xs as [|x xs IH]; simpl; intros m Hm E; [by injection E as <-|].
  unfold mbind, M_bind in *. destruct (commit_write x m) as [[] m1| | |] eqn:E1; try done.
  destruct (Hg x m m1 Hm E1) as [-> Hm1]. by apply IH.
Qed.

(** The writes as changes of the heap. *)
Lemma commit_cases x m m' : commit_write x m = Done tt m' →
  match x with
  | WTail n => m' = mkQueue (heap m) (head_ m) n (pushed m) (popped m)
  | WFree t => is_Some (heap m !! t) ∧ m' = set_heap (delete t) m
  | WMoved n => is_Some (heap m !! n) ∧ m' = set_heap (alter (λ nd, mkNode T_moved (next nd)) n) m
  end.
Proof.
  destruct x as [n|t|n]; unfold commit_write, freeAligned, load, store, modify, mbind, M_bind.
  - by intros [= <-].
  - destruct (heap m !! t) eqn:E; [|done]. by intros [= <-].
  - destruct (heap m !! n) as [nd|] eqn:E; [|done]. cbn. rewrite E. intros [= <-]. split; [done|].
    unfold set_heap. f_equal. apply map_eq. intros a. destruct (decide (a = n)) as [->|].
    + by rewrite lookup_insert_eq, lookup_alter_eq, E.
    + by rewrite lookup_insert_ne, lookup_alter_ne.
Qed.
Lemma commit_some x m :
  match x with WTail _ => True | WFree t => is_Some (heap m !! t) | WMoved n => is_Some (heap m !! n) end →
  ∃ m', commit_write x m = Done tt m'.
Proof.
  intros H. destruct x; unfold commit_write, freeAligned, load, store, modify, mbind, M_bind.
  - by eexists.
  - destruct H as [? ->]. by eexists.
  - destruct H as [? H]. rewrite H. cbn. rewrite H. by eexists.
Qed.

(** Writes take nodes away, and never bring any. *)
Lemma drain_dom xs m v a : drain xs m = Done tt v → is_Some (heap v !! a) → is_Some (heap m !! a).
Proof.
  revert m. induction xs as [|x xs IH]; simpl; intros m E Ha; [by injection E as <-|].
  unfold mbind, M_bind in E. destruct (commit_write x m) as [[] m1| | |] eqn:E1; try done.
  specialize (IH m1 E Ha). apply commit_cases in E1. destruct x as [n|t|n].
  - by subst.
  - destruct E1 as [_ ->]. destruct IH as [y Hy]. simpl in Hy. apply lookup_delete_Some in Hy as [_ Hy]. by exists y.
  - destruct E1 as [_ ->]. simpl in IH. by apply lookup_alter_is_Some in IH.
Qed.

(** Of the rest of the queue they change [tail_] only. *)
Lemma drain_rest xs m v : drain xs m = Done tt v →
  head_ v = head_ m ∧ pushed v = pushed m ∧ popped v = popped m.
Proof.
  revert m. induction xs as [|x xs IH]; simpl; intros m E; [by injection E as <-|].
  unfold mbind, M_bind in E. destruct (commit_write x m) as [[] m1| | |] eqn:E1; try done.
  destruct (IH m1 E) as (-> & -> & ->). apply commit_cases in E1.
  destruct x; [by subst|by destruct E1 as [_ ->]..].
Qed.

Lemma drain_app xs ys m : drain (xs ++ ys) m = (drain xs;; drain ys) m.
Proof.
  revert m. induction xs as [|x xs IH]; simpl; intros m; [done|].
  unfold mbind, M_bind in *. by destruct (commit_write x m).
Qed.

(** *** What the threads do *)

Definition do_alloc (p : nid) (n : Node) (s : queue T) : queue T := set_heap <[p := n]> s.
Definition do_exchange (cur : nid) (x : T) (s : queue T) : queue T :=
  mkQueue (heap s) cur (tail_ s) (pushed s ++ [x]) (popped s).
Definition do_publish (prev cur : nid) (s : queue T) : queue T :=
  set_heap (alter (λ nd, mkNode (data nd) (Some cur)) prev) s.
Definition do_popped (l : list T) (s : queue T) : queue T :=
  mkQueue (heap s) (head_ s) (tail_ s) (pushed s) l.

Lemma alloc_independent p n : independent (λ s, heap s !! p = None) (do_alloc p n).
Proof.
  intros x m m' Hp E. apply commit_cases in E. destruct x as [y|y|y].
  - subst. done.
  - destruct E as [Hy ->]. split; [|simpl; rewrite lookup_delete_None; by right].
    assert (y ≠ p) by (intros ->; rewrite Hp in Hy; by destruct Hy).
    destruct (commit_some (WFree y) (do_alloc p n m)) as [m2 E2]; [simpl; by rewrite lookup_insert_ne|].
    rewrite E2. apply commit_cases in E2 as [_ ->]. do 2 f_equal. unfold do_alloc, set_heap; simpl.
    by rewrite delete_insert_ne.
  - destruct E as [Hy ->]. split; [|simpl].
    2:{ rewrite lookup_alter_ne; [done|]. intros ->. rewrite Hp in Hy. by destruct Hy. }
    assert (y ≠ p) by (intros ->; rewrite Hp in Hy; by destruct Hy).
    destruct (commit_some (WMoved y) (do_alloc p n m)) as [m2 E2]; [simpl; by rewrite lookup_insert_ne|].
    rewrite E2. apply commit_cases in E2 as [_ ->]. do 2 f_equal. unfold do_alloc, set_heap; simpl.
    by rewrite alter_insert_ne.
Qed.

Lemma exchange_independent cur y : independent (λ _, True) (do_exchange cur y).
Proof.
  intros x m m' _ E. split; [|done]. apply commit_cases in E.
  destruct (commit_some x (do_exchange cur y m)) as [m2 E2]; [destruct x; [done|by destruct E..]|].
  rewrite E2. apply commit_cases in E2.
  destruct x; [by subst|destruct E as [_ ->], E2 as [_ ->]; done..].
Qed.

Lemma popped_independent l : independent (λ _, True) (do_popped l).
Proof.
  intros x m m' _ E. split; [|done]. apply commit_cases in E.
  destruct (commit_some x (do_popped l m)) as [m2 E2]; [destruct x; [done|by destruct E..]|].
  rewrite E2. apply commit_cases in E2.
  destruct x; [by subst|destruct E as [_ ->], E2 as [_ ->]; done..].
Qed.

Lemma publish_independent prev cur : independent (λ _, True) (do_publish prev cur).
Proof.
  intros x m m' _ E. split; [|done]. apply commit_cases in E.
  destruct (commit_some x (do_publish prev cur m)) as [m2 E2].
  { destruct x; [done|..]; destruct E as [E _]; simpl; by rewrite lookup_alter_is_Some. }
  rewrite E2. apply commit_cases in E2. destruct x as [n|t|n]; [by subst|..];
    destruct E as [_ ->], E2 as [_ ->]; do 2 f_equal; unfold do_publish, set_heap; simpl; f_equal; apply map_eq; intros a.
  - rewrite lookup_alter, !lookup_delete, lookup_alter. repeat case_decide; try done; congruence.
  - rewrite !lookup_alter. repeat case_decide; subst; try done.
    match goal with |- context [heap m !! ?a] => by destruct (heap m !! a) end.
Qed.

(** ** The invariant: that of [Mpsc.v], of what memory will be *)

(** A call whose store is on the way counts as about to store. *)
Definition shadow_calls (w : tstate) : gmap nat (producer T) :=
  ((λ '(prev, cur), PPublish cur prev false) <$> pubs w) ∪ calls w.
(** Nothing is said about wake-ups here. *)
Definition shadow (w : tstate) (v : queue T) : state T := mkState v (shadow_calls w) (pc w) false true.

(** A call may go on while its store is on the way. *)
Definition stored (o : option (producer T)) : Prop :=
  match o with None | Some (PTail2 _) | Some (PRet _) => True | _ => False end.

Record tgood (w : tstate) (v : queue T) (q : list nid) (xs : list T) : Prop := {
  tg_view : drain (wbuf w) (mem w) = Done tt v;
  tg_inv : inv (shadow w v) q xs;
  tg_pubs i b : pubs w !! i = Some b → stored (calls w !! i);
}.

Lemma shadow_lookup w i : shadow_calls w !! i =
  match pubs w !! i with Some (prev, cur) => Some (PPublish cur prev false) | None => calls w !! i end.
Proof.
  unfold shadow_calls. rewrite lookup_union, lookup_fmap.
  destruct (pubs w !! i) as [[prev cur]|]; simpl; [by destruct (calls w !! i)|].
  by destruct (calls w !! i).
Qed.

(** Forgetting what the last [pop] found. *)
Lemma inv_forget (s : state T) q xs : inv s q xs → inv (mkState (shared s) (producers s) (cons s) false true) q xs.
Proof. intros []. by split. Qed.

(** A change of what a call is about to do that is no change for the invariant. *)
Lemma inv_call sh (P P' : gmap nat (producer T)) c q xs i o :
  inv (mkState sh P c false true) q xs →
  (∀ c p, links (P !! i) c p ↔ links o c p) → (∀ c x, owns (P !! i) c x ↔ owns o c x) →
  (∀ j, P' !! j = if decide (i = j) then o else P !! j) →
  inv (mkState sh P' c false true) q xs.
Proof.
  intros I Hl Ho HP. assert (P' = set_producer i o P) as ->.
  { apply map_eq. intros j. by rewrite set_producer_lookup, HP. }
  apply (inv_quiet (mkState sh P c false true) q xs i o true I Hl Ho). intros x n _ _. by left.
Qed.

Lemma stored_quiet (o : option (producer T)) : stored o → (∀ c p, ¬ links o c p) ∧ (∀ c x, ¬ owns o c x).
Proof. intros Ho. split; intros ??; destruct o as [[]|]; simpl in *; tauto. Qed.

(** A step of a call, of which the memory is changed by [g]. *)
Lemma tgood_call w v q xs i item : tgood w v q xs → calls w !! i = None → pubs w !! i = None →
  tgood (with_calls <[i := PAlloc item]> w) v q xs.
Proof.
  intros [Ev I Hp] Hi Hb. split; [done| |].
  - eapply (inv_call v (shadow_calls w) _ _ q xs i (Some (PAlloc item))); [exact I| | |].
    + intros c p. by rewrite shadow_lookup, Hb, Hi.
    + intros c x. by rewrite shadow_lookup, Hb, Hi.
    + intros j. rewrite !shadow_lookup. simpl. rewrite lookup_insert. case_decide; [by subst; rewrite Hb|done].
  - intros j b Hj. simpl in Hj |- *. rewrite lookup_insert_ne by congruence. by eapply Hp.
Qed.

Lemma tgood_return w v q xs i b : tgood w v q xs → calls w !! i = Some (PRet b) →
  tgood (mkT (mem w) (delete i (calls w)) (pubs w) (pc w) (wbuf w) (tso_found_empty w) (tso_signalled w || b)) v q xs.
Proof.
  intros [Ev I Hp] Hi. split; [done| |].
  - destruct (pubs w !! i) as [[prev cur]|] eqn:Hb.
    + assert (shadow_calls (mkT (mem w) (delete i (calls w)) (pubs w) (pc w) (wbuf w)
        (tso_found_empty w) (tso_signalled w || b)) = shadow_calls w) as E.
      { apply map_eq. intros j. rewrite !shadow_lookup. simpl. destruct (decide (i = j)) as [<-|];
          [by rewrite Hb|by rewrite lookup_delete_ne]. }
      unfold shadow. by rewrite E.
    + eapply (inv_call v (shadow_calls w) _ _ q xs i None); [exact I| | |].
      * intros c p. by rewrite shadow_lookup, Hb, Hi.
      * intros c x. by rewrite shadow_lookup, Hb, Hi.
      * intros j. rewrite !shadow_lookup. simpl. rewrite lookup_delete. case_decide; [by subst; rewrite Hb|done].
  - intros j b' Hj. simpl. specialize (Hp j b' Hj). rewrite lookup_delete. by case_decide.
Qed.

(** The store of a call takes effect. *)
Lemma tgood_commit w v q xs i prev cur : tgood w v q xs → pubs w !! i = Some (prev, cur) →
  ∃ m', publish prev cur (mem w) = Done tt m' ∧ tgood (mkT m' (calls w) (delete i (pubs w)) (pc w) (wbuf w)
    (tso_found_empty w) (tso_signalled w)) (do_publish prev cur v) q xs.
Proof.
  intros [Ev I Hp] Hi.
  assert (shadow_calls w !! i = Some (PPublish cur prev false)) as Hs by by rewrite shadow_lookup, Hi.
  destruct (i_pub _ _ _ I i cur prev) as [_ [x Ex]]; [simpl; by rewrite Hs|]. simpl in Ex.
  destruct (drain_dom (wbuf w) (mem w) v prev Ev) as [nd End]; [by rewrite Ex|].
  exists (do_publish prev cur (mem w)).
  assert (∀ (h : gmap nid (Node (T := T))) nd, h !! prev = Some nd → <[prev := mkNode (data nd) (Some cur)]> h =
    alter (λ nd, mkNode (data nd) (Some cur)) prev h) as Ea.
  { intros h y Ey. apply map_eq. intros a. rewrite lookup_insert, lookup_alter. case_decide; [|done].
    by rewrite Ey. }
  split.
  { unfold publish, load, store, mbind, M_bind. rewrite End. cbn. rewrite End. unfold do_publish, set_heap.
    by rewrite (Ea _ _ End). }
  split.
  - by apply (drain_independent (λ _, True) _ _ _ v (publish_independent prev cur)).
  - pose proof (inv_publish _ q xs i cur prev false x None I Hs Ex) as I'. simpl in I'.
    specialize (Ea _ _ Ex). simpl in Ea. unfold set_heap in I'. rewrite Ea in I'.
    destruct (stored_quiet _ (Hp i _ Hi)) as [Hl Ho].
    eapply (inv_call _ _ _ _ q xs i (calls w !! i)); [exact I'|..]; unfold shadow; simpl.
    + intros c p. rewrite set_producer_lookup, decide_True by done. split; [done|by intros ?%Hl].
    + intros c y. rewrite set_producer_lookup, decide_True by done. split; [done|by intros ?%Ho].
    + intros j. rewrite shadow_lookup, set_producer_lookup, shadow_lookup. simpl. rewrite lookup_delete.
      case_decide; [by subst|done].
  - intros j b. simpl. intros [_ Hj]%lookup_delete_Some. by eapply Hp.
Qed.

Abbreviation went w m' i c' := (mkT m' (<[i := c']> (calls w)) (pubs w) (pc w) (wbuf w)
  (tso_found_empty w) (tso_signalled w)).

(** An access of a call whose store is not on the way. *)
Lemma tgood_went w v q xs i c c' m' v' q' xs' :
  tgood w v q xs → calls w !! i = Some c → pubs w !! i = None →
  drain (wbuf w) m' = Done tt v' →
  inv (mkState v' (set_producer i (Some c') (shadow_calls w)) (pc w) false true) q' xs' →
  tgood (went w m' i c') v' q' xs'.
Proof.
  intros [Ev I Hp] Hi Hb Ev' I'. split; [done| |].
  - unfold shadow. simpl. replace (shadow_calls (went w m' i c')) with (set_producer i (Some c') (shadow_calls w)); [done|].
    apply map_eq. intros j. rewrite set_producer_lookup, !shadow_lookup. simpl. rewrite lookup_insert.
    case_decide; [by subst; rewrite Hb|done].
  - intros j b Hj. simpl in Hj |- *. rewrite lookup_insert_ne by congruence. by eapply Hp.
Qed.

(** One that only looks. *)
Lemma tgood_same w v q xs i c c' : tgood w v q xs → calls w !! i = Some c → stored (Some c) → stored (Some c') →
  tgood (went w (mem w) i c') v q xs.
Proof.
  intros [Ev I Hp] Hi Hc Hc'. destruct (stored_quiet _ Hc), (stored_quiet _ Hc'). split; [done| |].
  - destruct (pubs w !! i) as [[prev cur]|] eqn:Hb.
    + unfold shadow. simpl. replace (shadow_calls (went w (mem w) i c')) with (shadow_calls w); [done|].
      apply map_eq. intros j. rewrite !shadow_lookup. simpl. rewrite lookup_insert. case_decide; [by subst; rewrite Hb|done].
    + eapply (inv_call v (shadow_calls w) _ _ q xs i (Some c')); [exact I| | |].
      * intros a b. rewrite shadow_lookup, Hb, Hi. naive_solver.
      * intros a b. rewrite shadow_lookup, Hb, Hi. naive_solver.
      * intros j. rewrite !shadow_lookup. simpl. rewrite lookup_insert. case_decide; [by subst; rewrite Hb|done].
  - intros j b Hj. simpl. rewrite lookup_insert. case_decide; [done|by eapply Hp].
Qed.

(** An access of [push]. *)
Lemma tgood_push w v q xs i p c : tgood w v q xs → calls w !! i = Some c → heap (mem w) !! p = None →
  ∃ w' v' q' xs', tpush i p c w = Done tt w' ∧ tgood w' v' q' xs'.
Proof.
  intros G Hi Hfree. pose proof G as [Ev I Hp].
  assert (heap v !! p = None) as Hfree'.
  { apply eq_None_not_Some. intros Ha. apply (drain_dom _ _ _ _ Ev) in Ha. rewrite Hfree in Ha. by destruct Ha. }
  assert (¬ stored (Some c) → pubs w !! i = None) as Hb.
  { intros Hn. apply eq_None_not_Some. intros [b Hb]. specialize (Hp i b Hb). by rewrite Hi in Hp. }
  assert (¬ stored (Some c) → shadow_calls w !! i = Some c) as Hs.
  { intros Hn. by rewrite shadow_lookup, Hb. }
  destruct c as [item|cur item|cur prev|cur prev e|prev|b].
  - exists (went w (do_alloc p (mkNode item None) (mem w)) i (PExchange p item)),
      (do_alloc p (mkNode item None) v), q, xs. split.
    { unfold tpush, zoom, push_step, mkAligned, mbind, M_bind. by rewrite Hfree. }
    apply (tgood_went w v q xs i (PAlloc item)); [done|done|exact (Hb (λ F, F))| |].
    + by apply (drain_independent _ _ _ _ v (alloc_independent p (mkNode item None)) Hfree).
    + exact (inv_alloc _ q xs i p item I (Hs (λ F, F)) Hfree').
  - exists (went w (do_exchange cur item (mem w)) i (PTail cur (head_ (mem w)))),
      (do_exchange cur item v), (q ++ [cur]), (xs ++ [item]). split; [done|].
    apply (tgood_went w v q xs i (PExchange cur item)); [done|done|exact (Hb (λ F, F))| |].
    + by apply (drain_independent _ _ _ _ v (exchange_independent cur item) Logic.I).
    + destruct (drain_rest _ _ _ Ev) as [<- _]. exact (inv_exchange _ q xs i cur item I (Hs (λ F, F))).
  - exists (went w (mem w) i (PPublish cur prev (bool_decide (prev = tail_ (mem w))))), v, q, xs. split; [done|].
    apply (tgood_went w v q xs i (PTail cur prev)); [done|done|exact (Hb (λ F, F))|done|].
    apply (inv_quiet _ _ _ _ _ true I); simpl; rewrite (Hs (λ F, F)); [done|done|by intros; left].
  - exists (mkT (mem w) (<[i := if e then PRet true else PTail2 prev]> (calls w)) (<[i := (prev, cur)]> (pubs w))
      (pc w) (wbuf w) (tso_found_empty w) (tso_signalled w)), v, q, xs. split; [done|].
    split; [done| |].
    + eapply (inv_call v (shadow_calls w) _ _ q xs i (Some (PPublish cur prev false))); [exact I| | |].
      * intros a b. by rewrite (Hs (λ F, F)).
      * intros a b. by rewrite (Hs (λ F, F)).
      * intros j. rewrite !shadow_lookup. simpl. rewrite !lookup_insert. by case_decide.
    + intros j b. simpl. rewrite !lookup_insert. case_decide; [by destruct e|apply Hp].
  - exists (went w (mem w) i (PRet (bool_decide (tail_ (mem w) = prev)))), v, q, xs. split; [done|].
    by apply (tgood_same w v q xs i (PTail2 prev)).
  - exists (went w (mem w) i (PRet b)), v, q, xs. split; [done|]. by apply (tgood_same w v q xs i (PRet b)).
Qed.

(** An access of [pop]: that of [Mpsc.v] on memory as the consumer sees it. *)
Lemma issued_done c (v : queue T) c' v' : (∀ r, c ≠ CRet r) → pop_step T_moved c v = Done c' v' →
  drain (issued c) (do_popped (popped v') v) = Done tt v'.
Proof.
  intros Hc E. destruct c as [|t|t n|t n|n|r]; unfold pop_step, load, store, freeAligned, mbind, M_bind in E; simpl.
  - injection E as _ <-. unfold do_popped. by destruct v.
  - destruct (heap v !! t); [|done]. injection E as _ <-. unfold do_popped. by destruct v.
  - injection E as _ <-. unfold mbind, M_bind, modify, do_popped. simpl. by destruct v.
  - destruct (heap v !! t) eqn:Et; [|done]. injection E as _ <-.
    unfold mbind, M_bind, freeAligned, do_popped. simpl. rewrite Et. by destruct v.
  - destruct (heap v !! n) eqn:En; [|done]. cbn in E. rewrite En in E. injection E as _ <-.
    unfold mbind, M_bind, load, store, do_popped. simpl. rewrite En. cbn. rewrite En. by destruct v.
  - by destruct (Hc r).
Qed.

Lemma tgood_pop w v q xs : tgood w v q xs → (∀ r, pc w ≠ CRet r) →
  ∃ w' v' q' xs', tpop w = Done tt w' ∧ tgood w' v' q' xs' ∧
    popped (mem w') = popped (mem w) ++ match pc w' with CRet (Some x) => [x] | _ => [] end.
Proof.
  intros [Ev I Hp] Hc. destruct (pop_step_ok T_moved (shadow w v) q xs I Hc) as (c' & q' & xs' & v' & E & I' & Hx).
  simpl in E. eexists _, v', q', xs'. split.
  { unfold tpop, mbind, M_bind. rewrite Ev, E. reflexivity. }
  split.
  - split; [|by apply inv_forget in I'|done].
    simpl. rewrite drain_app. erewrite bind_done by
      (apply (drain_independent (λ _, True) (do_popped (popped v')) _ (mem w) v (popped_independent _) Logic.I Ev)).
    by apply issued_done in E.
  - simpl. destruct (drain_rest _ _ _ Ev) as (_ & _ & Ep). rewrite <- Ep.
    by apply (pop_step_log T_moved (pc w) v c' v' Hc E).
Qed.

(** Every step that can be taken goes well. *)
Lemma tgood_step w v q xs a o : tgood w v q xs → texec a w = Some o →
  ∃ w' v' q' xs', o = Done tt w' ∧ tgood w' v' q' xs'.
Proof.
  intros G E. destruct a as [i item|i p|i|i| | |]; cbn [texec] in E.
  - destruct (calls w !! i) eqn:Hi; [done|]. destruct (pubs w !! i) eqn:Hb; [done|]. injection E as <-.
    eexists _, v, q, xs. split; [done|]. by apply tgood_call.
  - destruct (calls w !! i) as [c|] eqn:Hi; [|done]. destruct (heap (mem w) !! p) eqn:Hf; [done|].
    injection E as <-. by eapply tgood_push.
  - destruct (calls w !! i) as [c|] eqn:Hi; [|done]. destruct c as [| | | | |b]; try done. injection E as <-.
    eexists _, v, q, xs. split; [done|]. by apply tgood_return.
  - destruct (pubs w !! i) as [[prev cur]|] eqn:Hi; [|done]. injection E as <-.
    destruct (tgood_commit w v q xs i prev cur G Hi) as (m' & Em & G'). unfold zoom. rewrite Em. eauto 10.
  - destruct (pc w) eqn:Hc; try done; injection E as <-;
      (destruct (tgood_pop w v q xs G) as (w' & v' & q' & xs' & Ew & G' & _); [by rewrite Hc|]);
      rewrite Ew; by exists w', v', q', xs'.
  - destruct (pc w) eqn:Hc; try done. injection E as <-. eexists _, v, q, xs. split; [done|].
    destruct G as [Ev I Hp]. split; [done| |done].
    apply (inv_consumer (shadow w v) q xs CIdle false true I); unfold shadow; simpl; rewrite ?Hc; done.
  - destruct (wbuf w) as [|x ws] eqn:Hw; [done|]. injection E as <-. destruct G as [Ev I Hp].
    rewrite Hw in Ev. simpl in Ev. unfold mbind, M_bind in Ev. unfold zoom.
    destruct (commit_write x (mem w)) as [[] m1| | |] eqn:Ex; try done.
    eexists _, v, q, xs. split; [done|]. by split.
Qed.

Lemma tso_init_good p : tgood (tso_init p) (ConcurrentMPSCQueue T_default p) [p] [].
Proof. split; [done| |done]. exact (inv_forget _ _ _ (inv_init T_default p)). Qed.

Lemma tso_reachable p w : rtc tstep (tso_init p) w → ∃ v q xs, tgood w v q xs.
Proof.
  intros R. eapply (rtc_invariant tstep (λ w, ∃ v q xs, tgood w v q xs)); [|exact R|].
  - intros a b (v & q & xs & G) [act E]. destruct (tgood_step a v q xs act _ G E) as (w' & ? & ? & ? & [= ->] & ?). eauto.
  - eexists _, _, _. apply tso_init_good.
Qed.
End tso.

(** ** Running a schedule *)

Definition returned {T} (o : option (outcome (tstate (T := T)) unit)) : option tstate :=
  match o with Some (Done _ w) => Some w | _ => None end.
Abbreviation trun moved := (run_schedule (λ a w, returned (texec moved a w))).

Lemma trun_steps {T} (moved : T) acts w w' : trun moved acts w = Some w' → rtc (tstep moved) w w'.
Proof.
  apply schedule_rtc. intros a w1 w2 E. exists a.
  destruct (texec moved a w1) as [[[]| | |]|]; try done. by injection E as ->.
Qed.

(** A first value goes through the queue; the writes of the [pop] that took it stay in the
    consumer's buffer.  A second value is pushed, whose store stays in the buffer of its
    call, and the consumer looks for a value again.  Then all the writes take effect. *)
Definition late_stores {T} (x y : T) : list (tact (T := T)) :=
  [TCall 0 x; TPush 0 2%N; TPush 0 9%N; TPush 0 9%N; TPush 0 9%N; TReturn 0; TCommit 0;
   TPop; TPop; TPop; TPop; TPop; TPopped;
   TCall 1 y; TPush 1 3%N; TPush 1 9%N; TPush 1 9%N; TPush 1 9%N; TPush 1 9%N; TReturn 1;
   TPop; TPop; TPopped; TCommit 1; TDrain; TDrain; TDrain].

(** ** What still holds, and what does not *)

(** C19: on a machine with store buffers no access of [push] or [pop], and no write that
    takes effect late, touches memory that is not allocated or frees it twice; and values
    are popped in the order in which they were pushed, none lost or twice.  When nothing
    is in progress or on its way, [pop] gives the first value that is left. *)
Theorem tso_fifo {T} (d moved : T) p w :
  rtc (tstep moved) (tso_init d p) w →
  ¬ tstuck moved w ∧ ∃ rest, pushed (mem w) = popped (mem w) ++ rest ∧
    (calls w = ∅ → pubs w = ∅ → wbuf w = [] → pc w = CIdle →
     wp (pop moved) (mem w) (λ r m', r = head rest ∧ pushed m' = popped m' ++ tail rest)).
Proof.
  intros R. destruct (tso_reachable d moved p w R) as (v & q & xs & G). split.
  - intros (a & f & E). by destruct (tgood_step moved w v q xs a _ G E) as (? & ? & ? & ? & ? & _).
  - exists xs. pose proof G as [Ev I _]. destruct (drain_rest _ _ _ _ Ev) as (_ & <- & <-).
    split; [apply (i_log _ _ _ I)|]. intros Hc Hb Hw Hp. rewrite Hw in Ev. injection Ev as <-.
    assert (calm (mem w) q xs) as C.
    { apply (calm_of (shadow w (mem w))); [exact I| |done]. unfold shadow, shadow_calls. simpl.
      by rewrite Hb, Hc, fmap_empty, (left_id_L ∅ (∪)). }
    eapply wp_mono; [by eapply pop_calm|]. intros r m' (q' & C' & -> & _ & _). split; [done|].
    exact (i_log _ _ _ C').
Qed.

Lemma tso_fifo_witness :
  ∃ w, rtc (tstep 0%nat) (tso_init 0%nat 1) w ∧ calls w = ∅ ∧ wbuf w = [] ∧
    wp (pop 0%nat) (mem w) (λ r _, r = Some 8%nat).
Proof.
  pose (w := default (tso_init 0%nat 1) (trun 0%nat (late_stores 7%nat 8%nat) (tso_init 0%nat 1))).
  assert (rtc (tstep 0%nat) (tso_init 0%nat 1) w) as R.
  { apply (trun_steps 0%nat (late_stores 7%nat 8%nat)). by vm_compute. }
  destruct (tso_fifo 0%nat 0%nat 1 w R) as (_ & rest & El & W). exists w.
  assert (rest = [8%nat]) as ->.
  { assert (pushed (mem w) = [7%nat; 8%nat] ∧ popped (mem w) = [7%nat]) as [Eu Eo] by (split; by vm_compute).
    rewrite Eu, Eo in El. by injection El as <-. }
  split_and!; [exact R|by vm_compute..|].
  eapply wp_mono; [apply W; by vm_compute|]. by intros r m' [-> _].
Defined.

(** C21: but a wake-up can be lost there, which sequential consistency rules out: all calls
    have returned and all writes have taken effect, the last [pop] found the queue empty,
    no [push] has returned true since, and there is a value in the queue.  (The producer
    looks at [tail_] while its own store to [next] is still on the way, and the consumer
    looks at [next] while its store to [tail_] is.) *)
Theorem tso_lost_wakeup {T} (d moved x y : T) :
  ∃ w, rtc (tstep moved) (tso_init d 1) w ∧
    calls w = ∅ ∧ pubs w = ∅ ∧ wbuf w = [] ∧ pc w = CIdle ∧
    tso_found_empty w = true ∧ tso_signalled w = false ∧
    pushed (mem w) = [x; y] ∧ popped (mem w) = [x].
Proof.
  exists (default (tso_init d 1) (trun moved (late_stores x y) (tso_init d 1))).
  split; [|by vm_compute]. apply (trun_steps moved (late_stores x y)). by vm_compute.
Qed.
