(* ===== verification/Aligned.v ===== *)
(** * Cache-aligned allocation

    [src/cache_aligned.h]: objects in cache lines of their own, as the nodes of the
    queue of [Mpsc.v] are.  The allocators of the system are parameters; they tell which
    blocks are allocated.  A pointer is its address, 0 the null pointer; the objects
    that are alive are a map from addresses. *)

From S2P Require Import Prelude.

Definition CACHE_LINE_SIZE : Z := 64.

(** [sizeof(pad)]. *)
Definition pad_size (sizeof_T : Z) : Z :=
  if CACHE_LINE_SIZE >? sizeof_T then CACHE_LINE_SIZE - sizeof_T else 1.
(** [sizeof(CacheAligned<T>)]: the members, filled up to the alignment of the struct. *)
Definition CacheAligned_size (sizeof_T : Z) : Z :=
  (sizeof_T + pad_size sizeof_T + (CACHE_LINE_SIZE - 1)) / CACHE_LINE_SIZE * CACHE_LINE_SIZE.

Section aligned.
Context {K T U : Type}.     (** the system; the type of the objects; what they are made from *)
Record world := mkW { objs : gmap Z T; os : K }.

Context (WIN32 : bool).
(** The result and [*p]; a pointer; [None]: undefined, the pointer is not from them. *)
Context (posix_memalign : Z → Z → K → (Z * Z) * K) (aligned_malloc : Z → Z → K → Z * K).
Context (free aligned_free : Z → K → option K).
Context (sizeof_T : Z) (T_new : U → K → (T + exn) * K) (T_delete : T → K → K).

Definition call {A} (f : K → A * K) : M world A :=
  λ w, let '(a, k) := f (os w) in Done a (mkW (objs w) k).
Definition release (f : K → option K) : M world unit :=
  λ w, match f (os w) with Some k => Done tt (mkW (objs w) k) | None => Faults DoubleFree end.

Definition allocateAligned (size alignment : Z) : M world Z :=
  p ← (if WIN32 then call (aligned_malloc size alignment)
       else
         '(rc, p) ← call (posix_memalign alignment size);
         if negb (rc =? 0) then throw bad_alloc else mret p);
  if p =? 0 then throw bad_alloc else mret p.

Definition deallocateAligned (p : Z) : M world unit :=
  release (if WIN32 then aligned_free p else free p).

(** The operators of [CacheAligned<T>]; those for arrays are the same. *)
Definition operator_new (size : Z) : M world Z := allocateAligned size CACHE_LINE_SIZE.
Definition operator_delete (p : Z) : M world unit := deallocateAligned p.

(** Its constructor, on the storage [p]: [data] is its first member. *)
Definition CacheAligned_new (u : U) (p : Z) : M world unit :=
  λ w, match T_new u (os w) with
       | (inl t, k) => Done tt (mkW (<[p := t]> (objs w)) k)
       | (inr e, k) => Throws e (mkW (objs w) k)
       end.
Definition CacheAligned_delete (p : Z) : M world unit :=
  λ w, match objs w !! p with
       | Some t => Done tt (mkW (delete p (objs w)) (T_delete t (os w)))
       | None => Faults DoubleFree
       end.

(** A [new] expression gives the storage back when the constructor throws. *)
Definition or_delete (p : Z) (m : M world unit) : M world unit :=
  λ w, match m w with
       | Throws e w' => (operator_delete p;; throw e) w'
       | o => o
       end.
Definition mkAligned (u : U) : M world Z :=
  p ← operator_new (CacheAligned_size sizeof_T);
  or_delete p (CacheAligned_new u p);;
  mret p.

(** A [delete] of the null pointer does nothing. *)
Definition freeAligned (t : Z) : M world unit :=
  if t =? 0 then mret tt else CacheAligned_delete t;; operator_delete t.

(** ** The system *)

(** Blocks that do not overlap. *)
Definition apart (p n q m : Z) : Prop := p + n ≤ q ∨ q + m ≤ p.
Definition power_of_two (a : Z) : Prop := ∃ i, 3 ≤ i ∧ a = 2 ^ i.

(** [k'] is [k] with a new block. *)
Definition allocates (blocks : K → gmap Z Z) (alignment n p : Z) (k k' : K) : Prop :=
  0 < p ∧ (alignment | p) ∧ blocks k !! p = None ∧ blocks k' = <[p := n]> (blocks k) ∧
  ∀ q m, blocks k !! q = Some m → apart p n q m.

(** What [posix_memalign], [_aligned_malloc], [free] and [_aligned_free] are documented
    to do, and a constructor and a destructor that leave the blocks alone. *)
Record system (blocks : K → gmap Z Z) : Prop := {
  memalign_ok a n k : power_of_two a → 0 < n →
    let '((rc, p), k') := posix_memalign a n k in
    if rc =? 0 then allocates blocks a n p k k' else blocks k' = blocks k;
  malloc_ok a n k : power_of_two a → 0 < n →
    let '(p, k') := aligned_malloc n a k in
    if p =? 0 then blocks k' = blocks k else allocates blocks a n p k k';
  free_ok p n k : blocks k !! p = Some n → ∃ k', free p k = Some k' ∧ blocks k' = delete p (blocks k);
  aligned_free_ok p n k : blocks k !! p = Some n →
    ∃ k', aligned_free p k = Some k' ∧ blocks k' = delete p (blocks k);
  T_new_ok u k : blocks (T_new u k).2 = blocks k;
  T_delete_ok t k : blocks (T_delete t k) = blocks k;
}.

(** ** Lines *)

Lemma CacheAligned_size_lines n : 0 ≤ n → CacheAligned_size n = 64 * (n / 64 + 1).
Proof.
  intros Hn. unfold CacheAligned_size, pad_size, CACHE_LINE_SIZE.
  destruct (64 >? n) eqn:E; zbool; Z.to_euclidean_division_equations; lia.
Qed.

(** A block of whole lines shares none with another block. *)
Lemma lines_apart p n q m a b : (64 | p) → (64 | n) → apart p n q m →
  p ≤ a < p + n → q ≤ b < q + m → a / 64 ≠ b / 64.
Proof.
  unfold apart. intros [i ->] [j ->] H Ha Hb E. destruct H; Z.to_euclidean_division_equations; lia.
Qed.

Section props.
Context (blocks : K → gmap Z Z) (HS : system blocks) (Hsize : 0 ≤ sizeof_T).

Lemma line_power : power_of_two CACHE_LINE_SIZE.
Proof. exists 6. done. Qed.

(** [allocateAligned] returns a block, or throws and allocates nothing. *)
Lemma allocateAligned_spec n a w : power_of_two a → 0 < n →
  (∃ p k', allocateAligned n a w = Done p (mkW (objs w) k') ∧ allocates blocks a n p (os w) k') ∨
  ∃ k', allocateAligned n a w = Throws bad_alloc (mkW (objs w) k') ∧ blocks k' = blocks (os w).
Proof.
  intros Ha Hn. unfold allocateAligned, call, mbind, M_bind. destruct WIN32.
  - pose proof (malloc_ok blocks HS a n (os w) Ha Hn) as H. destruct (aligned_malloc n a (os w)) as [p k'].
    destruct (p =? 0); [right|left]; eauto.
  - pose proof (memalign_ok blocks HS a n (os w) Ha Hn) as H.
    destruct (posix_memalign a n (os w)) as [[rc p] k']. destruct (rc =? 0); simpl; [|right; eauto].
    destruct (p =? 0) eqn:E; [zbool; subst; destruct H; lia|left; eauto].
Qed.

Lemma operator_delete_spec p n w : blocks (os w) !! p = Some n →
  ∃ k', operator_delete p w = Done tt (mkW (objs w) k') ∧ blocks k' = delete p (blocks (os w)).
Proof.
  intros Hp. unfold operator_delete, deallocateAligned, release. destruct WIN32.
  - destruct (aligned_free_ok blocks HS p n (os w) Hp) as (k' & -> & ?). eauto.
  - destruct (free_ok blocks HS p n (os w) Hp) as (k' & -> & ?). eauto.
Qed.

(** C35: [mkAligned] either makes an object, at a multiple of the cache line, in a new block
    that is big enough, none of whose lines any other block of the program touches; or it
    throws, [bad_alloc] or what the constructor has thrown, and leaves no block behind. *)
Theorem mkAligned_lines u w :
  match mkAligned u w with
  | Done p w' => ∃ t n,
      objs w' = <[p := t]> (objs w) ∧ (64 | p) ∧ p ≠ 0 ∧ sizeof_T ≤ n ∧
      blocks (os w) !! p = None ∧ blocks (os w') = <[p := n]> (blocks (os w)) ∧
      ∀ q m, blocks (os w') !! q = Some m → q ≠ p →
        ∀ a b, p ≤ a < p + n → q ≤ b < q + m → a / CACHE_LINE_SIZE ≠ b / CACHE_LINE_SIZE
  | Throws e w' => objs w' = objs w ∧ blocks (os w') = blocks (os w) ∧
      (e = bad_alloc ∨ ∃ k, (T_new u k).1 = inr e)
  | _ => False
  end.
Proof.
  pose proof (CacheAligned_size_lines sizeof_T Hsize) as En.
  assert (0 < CacheAligned_size sizeof_T ∧ sizeof_T ≤ CacheAligned_size sizeof_T) as [Hn Hle]
    by (rewrite En; Z.to_euclidean_division_equations; lia).
  assert (64 | CacheAligned_size sizeof_T) as Hd by (rewrite En; apply Z.divide_factor_l).
  unfold mkAligned, operator_new.
  destruct (allocateAligned_spec _ _ w line_power Hn) as [(p & k & E & Hp & Hal & Hnew & Hb & Hap)|(k & E & Hb)];
    [|rewrite (bind_throws _ _ _ _ _ E); naive_solver].
  rewrite (bind_done _ _ _ _ _ E). unfold mbind at 1, M_bind at 1. unfold or_delete, CacheAligned_new. simpl.
  pose proof (T_new_ok blocks HS u k) as Hk. destruct (T_new u k) as [[t|e] k1] eqn:Et; simpl in Hk.
  - exists t, (CacheAligned_size sizeof_T). simpl. rewrite Hk, Hb. split_and!; try done; [lia|].
    intros q m Hq Hne a b. rewrite lookup_insert_ne in Hq by done. by apply lines_apart; [..|apply Hap].
  - destruct (operator_delete_spec p (CacheAligned_size sizeof_T) (mkW (objs w) k1)) as (k' & E' & Hb').
    { simpl. by rewrite Hk, Hb, lookup_insert_eq. }
    rewrite (bind_done _ _ _ _ _ E'). simpl in *. split; [done|]. split; [|right; exists k; by rewrite Et].
    by rewrite Hb', Hk, Hb, delete_insert_id.
Qed.

(** What [mkAligned] has made, [freeAligned] destroys and gives back; after that it is
    undefined to free it again; and the null pointer may be freed. *)
Theorem mkAligned_freeAligned u w p w' :
  mkAligned u w = Done p w' → objs w !! p = None →
  (∃ w'', freeAligned p w' = Done tt w'' ∧ objs w'' = objs w ∧ blocks (os w'') = blocks (os w) ∧
    freeAligned p w'' = Faults DoubleFree) ∧
  freeAligned 0 w' = Done tt w'.
Proof.
  intros E Ho. split; [|done]. pose proof (CacheAligned_size_lines sizeof_T Hsize) as En.
  assert (0 < CacheAligned_size sizeof_T) as Hn by (rewrite En; Z.to_euclidean_division_equations; lia).
  unfold mkAligned, operator_new in E.
  destruct (allocateAligned_spec _ _ w line_power Hn) as [(p' & k & Ea & Hp & _ & Hnew & Hb & _)|(k & Ea & _)];
    [|by rewrite (bind_throws _ _ _ _ _ Ea) in E].
  rewrite (bind_done _ _ _ _ _ Ea) in E. unfold mbind at 1, M_bind at 1 in E. unfold or_delete, CacheAligned_new in E. simpl in E.
  pose proof (T_new_ok blocks HS u k) as Hk. destruct (T_new u k) as [[t|e] k1]; simpl in Hk.
  2:{ destruct (operator_delete_spec p' (CacheAligned_size sizeof_T) (mkW (objs w) k1)) as (k' & E' & _).
      { simpl. by rewrite Hk, Hb, lookup_insert_eq. }
      by rewrite (bind_done _ _ _ _ _ E') in E. }
  injection E as -> <-. unfold freeAligned. replace (p =? 0) with false by (symmetry; apply Z.eqb_neq; lia).
  destruct (operator_delete_spec p (CacheAligned_size sizeof_T) (mkW (objs w) (T_delete t k1))) as (k' & E' & Hb').
  { simpl. by rewrite (T_delete_ok blocks HS), Hk, Hb, lookup_insert_eq. }
  exists (mkW (objs w) k').
  assert (CacheAligned_delete p (mkW (<[p:=t]> (objs w)) k1) = Done tt (mkW (objs w) (T_delete t k1))) as Ed.
  { unfold CacheAligned_delete. simpl. by rewrite lookup_insert_eq, delete_insert_id. }
  rewrite (bind_done _ _ _ _ _ Ed), E'. simpl in *. split_and!; try done.
  - by rewrite Hb', (T_delete_ok blocks HS), Hk, Hb, delete_insert_id.
  - unfold CacheAligned_delete, mbind, M_bind. simpl. by rewrite Ho.
Qed.
End props.
End aligned.
Arguments world K T : clear implicits.

(** ** A system

    Blocks of at most 4096 bytes, behind all others; an object is made from [true]. *)

Definition top (k : gmap Z Z) : Z := map_fold (λ p n t, Z.max t (p + Z.max n 1)) 1 k.
Definition bump (a n : Z) (k : gmap Z Z) : (Z * Z) * gmap Z Z :=
  let p := (top k + (a - 1)) / a * a in
  if n <=? 4096 then ((0, p), <[p := n]> k) else ((12, 0), k).
Definition bump_win (n a : Z) (k : gmap Z Z) : Z * gmap Z Z := let '((_, p), k') := bump a n k in (p, k').
Definition give_back (p : Z) (k : gmap Z Z) : option (gmap Z Z) :=
  match k !! p with Some _ => Some (delete p k) | None => None end.
Definition a_node (u : bool) (k : gmap Z Z) : (Z + exn) * gmap Z Z :=
  (if u then inl 7 else inr (runtime_error "no node"), k).

Lemma top_above (k : gmap Z Z) : 1 ≤ top k ∧ ∀ q m, k !! q = Some m → q + Z.max m 1 ≤ top k.
Proof.
  unfold top. apply (map_fold_weak_ind (λ t (k : gmap Z Z), 1 ≤ t ∧ ∀ q m, k !! q = Some m → q + Z.max m 1 ≤ t)).
  - split; [done|]. intros q m. by rewrite lookup_empty.
  - intros p n k' t Hp [H1 IH]. split; [lia|]. intros q m Hq. apply lookup_insert_Some in Hq as [[-> ->]|[_ Hq]]; [lia|].
    specialize (IH q m Hq). lia.
Qed.

Lemma bump_allocates a n k : power_of_two a → 0 < n →
  let '((rc, p), k') := bump a n k in
  if rc =? 0 then allocates id a n p k k' else k' = k ∧ p = 0.
Proof.
  intros (i & Hi & ->) Hn. unfold bump. destruct (n <=? 4096); [|done]. destruct (top_above k) as [H1 Ht].
  assert (0 < 2 ^ i) as Ha by (apply Z.pow_pos_nonneg; lia). set (a := 2 ^ i) in *.
  assert (top k ≤ (top k + (a - 1)) / a * a) as Hp.
  { pose proof (Z.div_mod (top k + (a - 1)) a). pose proof (Z.mod_pos_bound (top k + (a - 1)) a). lia. }
  unfold allocates. simpl. set (p := (top k + (a - 1)) / a * a) in *. split_and!; try done.
  - lia.
  - apply Z.divide_factor_r.
  - destruct (k !! p) as [m|] eqn:E; [|done]. specialize (Ht p m E). lia.
  - intros q m Hq. right. specialize (Ht q m Hq). lia.
Qed.

Lemma bump_system : @system _ Z bool bump bump_win give_back give_back a_node (λ _ k, k) id.
Proof.
  split; unfold id; try done.
  - intros a n k Ha Hn. pose proof (bump_allocates a n k Ha Hn) as H. destruct (bump a n k) as [[rc p] k'].
    destruct (rc =? 0); [done|by destruct H].
  - intros a n k Ha Hn. pose proof (bump_allocates a n k Ha Hn) as H. unfold bump_win.
    destruct (bump a n k) as [[rc p] k']. destruct (rc =? 0).
    + destruct (p =? 0) eqn:E; [zbool; destruct H; lia|done].
    + destruct H as [-> ->]. done.
  - intros p n k Hp. exists (delete p k). unfold give_back. by rewrite Hp.
  - intros p n k Hp. exists (delete p k). unfold give_back. by rewrite Hp.
Qed.

(** Nodes of 40 bytes; another block is in use. *)
Abbreviation make := (mkAligned false bump bump_win give_back give_back 40 a_node).
Abbreviation release_node := (freeAligned false give_back give_back (λ (_ : Z) k, k)).
Definition in_use : world (gmap Z Z) Z := mkW ∅ {[1 := 100]}.

Lemma mkAligned_lines_witness :
  match make true in_use with
  | Done p w' => p = 128 ∧ os w' !! 128 = Some 64 ∧
      ∀ q m, os w' !! q = Some m → q ≠ 128 →
        ∀ a b, 128 ≤ a < 128 + 64 → q ≤ b < q + m → a / CACHE_LINE_SIZE ≠ b / CACHE_LINE_SIZE
  | _ => False
  end.
Proof.
  pose proof (mkAligned_lines false bump bump_win give_back give_back 40 a_node (λ _ k, k) id bump_system
    ltac:(done) true in_use) as H.
  assert (make true in_use = Done 128 (mkW {[128 := 7]} {[128 := 64; 1 := 100]})) as E by by vm_compute.
  rewrite E in *. destruct H as (t & n & _ & _ & _ & _ & _ & Hb & Hl). simpl in *.
  assert (n = 64) as ->.
  { apply (f_equal (λ k : gmap Z Z, k !! 128)) in Hb. vm_compute in Hb. by injection Hb. }
  split; [done|]. split; [by vm_compute|exact Hl].
Defined.

Lemma mkAligned_freeAligned_witness : ∃ w'',
  release_node 128 (mkW {[128 := 7]} {[128 := 64; 1 := 100]}) = Done tt w'' ∧ os w'' = {[1 := 100]} ∧
  release_node 128 w'' = Faults DoubleFree.
Proof.
  destruct (mkAligned_freeAligned false bump bump_win give_back give_back 40 a_node (λ _ k, k) id bump_system
    ltac:(done) true in_use 128 (mkW {[128 := 7]} {[128 := 64; 1 := 100]}) ltac:(by vm_compute) ltac:(by vm_compute))
    as [(w'' & E & _ & Hb & Hd) _].
  exists w''. split; [exact E|]. split; [exact Hb|exact Hd].
Defined.
