(* ===== verification/Libevent.v ===== *)
(** * The interface to libevent

    What [src/libevent_event_base.cc] calls in libevent, as a class: the library
    is not part of the repository, so its functions are parameters, and the laws
    say what its documentation promises and the code relies on.  An event is
    identified by the object that embeds its [struct event]. *)

From S2P Require Import Prelude What.

(** The objects of the program that libevent knows: handlers, timeouts, and the
    timer on the stack of a running [loop]. *)
Inductive evid := of_handler (h : N) | of_timeout (t : N) | of_loop (b : N).
#[export] Instance evid_eq_dec : EqDecision evid.
Proof. solve_decision. Defined.

(** The callback an event is assigned, with its context argument. *)
Inductive callback :=
| libeventCallback (h : N)
| libeventTimeout (t : N)
| persistentTimerCb.

(** A [struct timeval]. *)
Record timeval := mkTimeval { tv_sec : Z; tv_usec : Z }.

Class Libevent := {
  lib_flags :: EventFlags;
  event : Type;                        (** [struct event] *)
  lib : Type;                          (** the state of the library *)
  (** [event_assign(&ev, base, fd, events, cb, ctx)]: the new contents of [ev] *)
  event_assign : N → Z → Z → callback → event;
  (** [ev.ev_flags |= EVLIST_INTERNAL] *)
  event_internal : event → event;
  event_get_events : event → Z;
  (** the result, and what the call does to the library *)
  event_add : evid → event → option timeval → lib → Z * lib;
  event_del : evid → event → lib → Z * lib;
  (** the events the library watches, with their timeouts *)
  pending : lib → evid → option (event * option timeval);

  get_events_assign b fd ev cb : event_get_events (event_assign b fd ev cb) = ev;
  get_events_internal e : event_get_events (event_internal e) = event_get_events e;
  (** [event_add] succeeds and makes the event pending, or fails and does nothing *)
  pending_add i e tv s j :
    pending (event_add i e tv s).2 j =
      if decide (j = i ∧ (event_add i e tv s).1 = 0) then Some (e, tv) else pending s j;
  pending_del i e s j :
    pending (event_del i e s).2 j = if decide (j = i) then None else pending s j;
}.

(** An implementation: a table of pending events, in which adding a negative
    descriptor without a timeout fails. *)
Section table.
Record table_event := mkTev {
  t_base : N; t_fd : Z; t_events : Z; t_cb : callback; t_internal : bool
}.

Definition table := evid → option (table_event * option timeval).

Definition table_add (i : evid) (e : table_event) (tv : option timeval) (s : table) : Z * table :=
  if decide (t_fd e < 0 ∧ tv = None) then (-1, s)
  else (0, λ j, if decide (j = i) then Some (e, tv) else s j).
Definition table_del (i : evid) (e : table_event) (s : table) : Z * table :=
  (0, λ j, if decide (j = i) then None else s j).

Definition table_libevent : Libevent.
Proof.
  refine {|
    lib_flags := libevent_flags;
    event := table_event;
    lib := table;
    event_assign b fd ev cb := mkTev b fd ev cb false;
    event_internal e := mkTev (t_base e) (t_fd e) (t_events e) (t_cb e) true;
    event_get_events := t_events;
    event_add := table_add;
    event_del := table_del;
    pending s := s;
  |}; try done.
  intros i e tv s j. unfold table_add. destruct (decide (t_fd e < 0 ∧ tv = None)); simpl.
  - by rewrite decide_False by lia.
  - destruct (decide (j = i)); [by rewrite decide_True|by rewrite decide_False by tauto].
Defined.
End table.
