(* ===== verification/Handlers.v ===== *)
(** * Event handlers and timeouts

    [EventHandler] ([src/event_handler.cc]), its implementation
    [LibeventEventHandler] ([src/libevent_event_handler.h], [.cc]), [Timeout]
    ([src/timeout.cc]) with [LibeventTimeout], and the part of
    [LibeventEventBase] ([src/libevent_event_base.cc]) that registers them.

    Objects are addressed by numbers: handlers, timeouts and event bases.  The
    asserts are there unless the build defines [NDEBUG] (the default build type,
    RelWithDebInfo, does). *)

From S2P Require Import Prelude What Libevent.

Section handlers.
Context `{Libevent}.
Context (NDEBUG : bool).
(** The calling thread ([pthread_self()]); 0 is no thread. *)
Context (self : N).

Record LibeventEventHandler := mkHandlerImpl {
  base_ : N;
  registered_ : bool;
  event_ : option event;       (** [None]: not yet assigned *)
}.
Record EventHandler := mkHandler {
  fd_ : Z;
  impl_ : option LibeventEventHandler;
}.
Record LibeventTimeout := mkTimeout {
  tbase_ : N;
  tevent_ : option event;
  tregistered_ : bool;
}.

Record world := mkWorld {
  handlers : gmap N EventHandler;
  timeouts : gmap N (option LibeventTimeout);   (** [Timeout::impl_] *)
  loopThread_ : gmap N N;                       (** of each base *)
  library : lib;
}.

Definition set_handlers f (w : world) : world :=
  mkWorld (f (handlers w)) (timeouts w) (loopThread_ w) (library w).
Definition set_timeouts f (w : world) : world :=
  mkWorld (handlers w) (f (timeouts w)) (loopThread_ w) (library w).
Definition set_library l (w : world) : world :=
  mkWorld (handlers w) (timeouts w) (loopThread_ w) l.

Definition assert_ (b : bool) : M world unit :=
  if NDEBUG then mret tt else require b AssertFailed.

(** ** Access to the objects *)

Definition get_handler (h : N) : M world EventHandler := λ w,
  match handlers w !! h with Some x => Done x w | None => Faults UseAfterFree end.
Definition put_impl (h : N) (i : LibeventEventHandler) : M world unit :=
  x ← get_handler h;
  modify (set_handlers <[h := mkHandler (fd_ x) (Some i)]>).
Definition get_timeout (t : N) : M world (option LibeventTimeout) := λ w,
  match timeouts w !! t with Some x => Done x w | None => Faults UseAfterFree end.
Definition put_timeout (t : N) (i : LibeventTimeout) : M world unit :=
  get_timeout t;; modify (set_timeouts <[t := Some i]>).

(** ** libevent calls; assigning a pending event breaks the library's contract *)

Definition do_assign (i : evid) (e : event) : M world event :=
  w ← get;
  match pending (library w) i with
  | None => mret e
  | Some _ => fail BadCall
  end.
Definition do_add (i : evid) (e : option event) (tv : option timeval) : M world Z :=
  e ← of_option e BadCall;
  w ← get;
  let '(rc, l) := event_add i e tv (library w) in
  put (set_library l w);;
  mret rc.
Definition do_del (i : evid) (e : option event) : M world Z :=
  e ← of_option e BadCall;
  w ← get;
  let '(rc, l) := event_del i e (library w) in
  put (set_library l w);;
  mret rc.

(** ** [EventHandler] *)

Definition EventHandler_new (h : N) (fd : Z) : M world unit :=
  modify (set_handlers <[h := mkHandler fd None]>).

(** [~EventHandler]: [delete impl_]. *)
Definition EventHandler_delete (h : N) : M world unit :=
  get_handler h;; modify (set_handlers (delete h)).

Definition EventHandler_base (h : N) : M world (option N) :=
  x ← get_handler h;
  mret (match impl_ x with None => None | Some i => Some (base_ i) end).

Definition EventHandler_registered (h : N) : M world bool :=
  x ← get_handler h;
  mret (match impl_ x with None => false | Some i => registered_ i end).

(** [LibeventEventHandler::watched]. *)
Definition impl_watched (i : LibeventEventHandler) : M world What :=
  if negb (registered_ i) then mret NONE
  else e ← of_option (event_ i) BadCall; mret (fromFlags (event_get_events e)).

Definition EventHandler_watched (h : N) : M world What :=
  x ← get_handler h;
  match impl_ x with None => mret NONE | Some i => impl_watched i end.

Definition EventHandler_fd (h : N) : M world Z := x ← get_handler h; mret (fd_ x).

Definition EventHandler_setFd (h : N) (fd : Z) : M world unit :=
  r ← EventHandler_registered h;
  assert_ (negb r);;
  x ← get_handler h;
  modify (set_handlers <[h := mkHandler fd (impl_ x)]>).

(** ** [LibeventEventBase] *)

(** In the loop thread, or no loop is running. *)
Definition inLoopThread (this : N) : M world bool :=
  cur ← gets (λ w, default 0%N (loopThread_ w !! this));
  mret (bool_decide (cur = 0%N) || bool_decide (cur = self)).

Definition assert_thread (this : N) : M world unit :=
  t ← inLoopThread this; assert_ t.

Definition unregisterHandler (this h : N) : M world unit :=
  assert_thread this;;
  b ← EventHandler_base h;
  match b with
  | None => mret tt
  | Some b =>
      assert_ (bool_decide (b = this));;
      x ← get_handler h;
      match impl_ x with
      | None => mret tt
      | Some i =>
          if negb (registered_ i) then mret tt
          else
            do_del (of_handler h) (event_ i);;
            put_impl h (mkHandlerImpl (base_ i) false (event_ i))
      end
  end.

(** [EventHandler::unregister]. *)
Definition EventHandler_unregister (h : N) : M world unit :=
  b ← EventHandler_base h;
  match b with Some b => unregisterHandler b h | None => mret tt end.

(** The tail of [registerHandlerInternal], from the assignment of the event. *)
Definition assign_and_add (this h : N) (what : What) (internal_event : bool) : M world unit :=
  x ← get_handler h;
  let impl := match impl_ x with Some i => i | None => mkHandlerImpl this false None end in
  e ← do_assign (of_handler h)
        (event_assign this (fd_ x) (Z.lor (toFlags what) EV_PERSIST) (libeventCallback h));
  let e := if (internal_event : bool) then event_internal e else e in
  put_impl h (mkHandlerImpl (base_ impl) true (Some e));;
  do_add (of_handler h) (Some e) None;;
  mret tt.

Definition registerHandlerInternal (this h : N) (what : What) (internal_event : bool) :
    M world unit :=
  b ← EventHandler_base h;
  same ← (match b with
          | Some b =>
              if negb internal_event then
                assert_ (bool_decide (b = this));;
                w ← EventHandler_watched h;
                mret (bool_decide (what = w))
              else mret false
          | None => mret false
          end);
  if (same : bool) then mret tt
  else if bool_decide (what = NONE) then unregisterHandler this h
  else
    x ← get_handler h;
    (match impl_ x with
     | Some i => when (registered_ i) (do_del (of_handler h) (event_ i);; mret tt)
     | None => mret tt
     end);;
    assign_and_add this h what internal_event.

Definition registerHandler (this h : N) (what : What) : M world unit :=
  assert_thread this;;
  registerHandlerInternal this h what false.

(** ** Timeouts *)

Definition Timeout_new (t : N) : M world unit := modify (set_timeouts <[t := None]>).
Definition Timeout_delete (t : N) : M world unit :=
  get_timeout t;; modify (set_timeouts (delete t)).

Definition registerTimeout (this t : N) (duration : timeval) : M world unit :=
  assert_thread this;;
  x ← get_timeout t;
  let ltime := match x with Some i => i | None => mkTimeout this None false end in
  when (tregistered_ ltime) (do_del (of_timeout t) (tevent_ ltime);; mret tt);;
  e ← do_assign (of_timeout t) (event_assign this (-1) 0 (libeventTimeout t));
  do_add (of_timeout t) (Some e) (Some duration);;
  put_timeout t (mkTimeout (tbase_ ltime) (Some e) true).

Definition unregisterTimeout (this t : N) : M world unit :=
  assert_thread this;;
  x ← get_timeout t;
  match x with
  | None => mret tt
  | Some i =>
      assert_ (bool_decide (tbase_ i = this));;
      if negb (tregistered_ i) then mret tt
      else
        do_del (of_timeout t) (tevent_ i);;
        put_timeout t (mkTimeout (tbase_ i) (tevent_ i) false)
  end.

(** [libeventCallback]: what libevent runs for an active event, given the flags
    that are active, in terms of the [ready] method of the handler. *)
Definition run_libeventCallback (ready : N → What → M world unit) (h : N) (flags : Z) :
    M world unit := ready h (fromFlags flags).
Definition run_libeventTimeout (expired : N → M world unit) (t : N) : M world unit := expired t.
End handlers.
