(* ===== verification/HandlersSpec.v ===== *)
(** * Registration: its theorems

    The contract of [EventBase] ([src/wte/event_base.h]) and [EventHandler]
    ([src/wte/event_handler.h]) for registration, proved of [Handlers.v]:
    [world_ok] relates what the objects say ([registered_]) to what libevent
    watches; every operation preserves it and has the effect the header
    promises, on every branch. *)

From S2P Require Import Prelude What Libevent Handlers.

Arguments EventHandler {_}.
Arguments world {_}.

Section spec.
Context `{Libevent}.
Context (NDEBUG : bool) (self : N).
Implicit Types w : world.

(** What libevent watches for handlers and timeouts that exist is what they think
    it watches; nothing it watches belongs to an object that is gone. *)
Record world_ok w : Prop := {
  ok_handler h e tv : pending (library w) (of_handler h) = Some (e, tv) →
    ∃ fd b, handlers w !! h = Some (mkHandler fd (Some (mkHandlerImpl b true (Some e))));
  ok_assigned h fd b e : handlers w !! h = Some (mkHandler fd (Some (mkHandlerImpl b true e))) →
    ∃ ev, e = Some ev ∧ fromFlags (event_get_events ev) ≠ NONE;
  ok_timeout t e tv : pending (library w) (of_timeout t) = Some (e, tv) →
    ∃ b, timeouts w !! t = Some (Some (mkTimeout b (Some e) true));
  ok_tassigned t b e : timeouts w !! t = Some (Some (mkTimeout b e true)) → is_Some e;
}.

(** The calling thread may touch the base. *)
Definition thread_ok (this : N) w : Prop :=
  let t := default 0%N (loopThread_ w !! this) in t = 0%N ∨ t = self.

(** A handler that no other base owns. *)
Definition owned (this : N) (x : EventHandler) : Prop :=
  match impl_ x with Some i => base_ i = this | None => True end.

Definition watched_in (x : EventHandler) : What :=
  match impl_ x with
  | Some (mkHandlerImpl _ true (Some e)) => fromFlags (event_get_events e)
  | _ => NONE
  end.

(** The handler [h] became [x], and libevent watches [o] for it; nothing else
    changed. *)
Record changed w w' (h : N) (x : EventHandler) (o : option (event * option timeval)) : Prop := {
  ch_handlers : handlers w' = <[h := x]> (handlers w);
  ch_timeouts : timeouts w' = timeouts w;
  ch_threads : loopThread_ w' = loopThread_ w;
  ch_pending j : pending (library w') j =
    if decide (j = of_handler h) then o else pending (library w) j;
}.

(** A new object. *)
Lemma new_handler_ok w h fd : world_ok w → handlers w !! h = None →
  world_ok (set_handlers <[h := mkHandler fd None]> w).
Proof.
  intros [O1 O2 O3 O4] Hn. split; simpl; [| |exact O3|exact O4].
  - intros k e tv Hk. destruct (O1 k e tv Hk) as (fd' & b & E). exists fd', b.
    rewrite lookup_insert_ne; [done|]. intros <-. by rewrite E in Hn.
  - intros k fd' b e [[_ [=]]|[_ Hk]]%lookup_insert_Some. eauto.
Qed.

Lemma changed_ok w w' h x o :
  world_ok w → changed w w' h x o →
  (∀ e tv, o = Some (e, tv) → ∃ fd b, x = mkHandler fd (Some (mkHandlerImpl b true (Some e)))) →
  (∀ fd b e, x = mkHandler fd (Some (mkHandlerImpl b true e)) →
     ∃ ev, e = Some ev ∧ fromFlags (event_get_events ev) ≠ NONE) →
  world_ok w'.
Proof.
  intros [Oh Oa Ot Ota] [Ch Ct Cl Cp] Ho Ha. split.
  - intros k e tv. rewrite Cp, Ch. case_decide as E.
    + injection E as ->. intros (fd & b & ->)%Ho. rewrite lookup_insert_eq. eauto.
    + intros (fd & b & E')%Oh. rewrite lookup_insert_ne by congruence. eauto.
  - intros k fd b e. rewrite Ch. intros [[-> ->]|[? ?]]%lookup_insert_Some; eauto.
  - intros t e tv. rewrite Cp, decide_False, Ct by done. eauto.
  - intros t b e. rewrite Ct. eauto.
Qed.

(** A handler that does not say it is registered is not watched. *)
Lemma not_pending w h x :
  world_ok w → handlers w !! h = Some x →
  (∀ b e, impl_ x ≠ Some (mkHandlerImpl b true e)) → pending (library w) (of_handler h) = None.
Proof.
  intros O Hx Hn. destruct (pending (library w) (of_handler h)) as [[e tv]|] eqn:E; [|done].
  apply (ok_handler w O) in E as (fd & b & E). rewrite Hx in E. injection E as ->.
  by destruct (Hn b (Some e)).
Qed.

Lemma changed_refl w h x :
  handlers w !! h = Some x → changed w w h x (pending (library w) (of_handler h)).
Proof.
  intros Hx. split; [by rewrite insert_id|done|done|]. intros j. by case_decide; subst.
Qed.

(** *** Steps *)

Lemma wp_assert b w (Q : unit → world → Prop) :
  b = true → Q tt w → wp (assert_ NDEBUG b) w Q.
Proof. unfold assert_. intros -> HQ. by destruct NDEBUG. Qed.

Lemma wp_thread this w (Q : unit → world → Prop) :
  thread_ok this w → Q tt w → wp (assert_thread NDEBUG self this) w Q.
Proof.
  intros Ht HQ. unfold assert_thread, inLoopThread. do 3 wp_step. apply wp_assert; [|done].
  destruct Ht as [->| ->]; [by rewrite bool_decide_true|].
  rewrite (bool_decide_true (self = self)) by done. apply orb_true_r.
Qed.

Lemma wp_get_handler h x w (Q : EventHandler → world → Prop) :
  handlers w !! h = Some x → Q x w → wp (get_handler h) w Q.
Proof. unfold get_handler, wp. by intros ->. Qed.

Lemma wp_put_impl h x i w (Q : unit → world → Prop) :
  handlers w !! h = Some x →
  Q tt (set_handlers <[h := mkHandler (fd_ x) (Some i)]> w) → wp (put_impl h i) w Q.
Proof. intros Hx HQ. unfold put_impl. wp_step. by eapply wp_get_handler. Qed.

Lemma wp_del i e w (Q : Z → world → Prop) :
  (∀ rc l, event_del i e (library w) = (rc, l) → Q rc (set_library l w)) →
  wp (do_del i (Some e)) w Q.
Proof.
  intros HQ. unfold do_del. wp_step. apply wp_ret. wp_step. apply wp_done with w w; [done|].
  destruct (event_del i e (library w)) as [rc l] eqn:E. exact (HQ rc l eq_refl).
Qed.

Lemma wp_add i e tv w (Q : Z → world → Prop) :
  (∀ rc l, event_add i e tv (library w) = (rc, l) → Q rc (set_library l w)) →
  wp (do_add i (Some e) tv) w Q.
Proof.
  intros HQ. unfold do_add. wp_step. apply wp_ret. wp_step. apply wp_done with w w; [done|].
  destruct (event_add i e tv (library w)) as [rc l] eqn:E. exact (HQ rc l eq_refl).
Qed.

Lemma wp_assign i e w (Q : event → world → Prop) :
  pending (library w) i = None → Q e w → wp (do_assign i e) w Q.
Proof. intros E HQ. unfold do_assign, wp, mbind, M_bind, get. by rewrite E. Qed.

(** *** Unregistering *)

Definition detached (x : EventHandler) : EventHandler :=
  mkHandler (fd_ x)
    (match impl_ x with
     | Some i => Some (mkHandlerImpl (base_ i) false (event_ i))
     | None => None
     end).

Lemma unregister_ok this h w x :
  world_ok w → handlers w !! h = Some x → owned this x → thread_ok this w →
  wp (unregisterHandler NDEBUG self this h) w (λ _ w', changed w w' h (detached x) None).
Proof.
  intros O Hx Hb Ht. unfold unregisterHandler. wp_step. apply wp_thread; [done|].
  wp_step. unfold EventHandler_base. wp_step. eapply wp_get_handler; [done|]. wp_step.
  destruct x as [fd [[b r e]|]]; unfold owned in Hb; simpl in *; subst.
  - wp_step. apply wp_assert; [by apply bool_decide_true|].
    wp_step. eapply wp_get_handler; [done|]. cbn [impl_ registered_].
    destruct r; cbn [negb].
    + destruct (ok_assigned w O h fd this e Hx) as (ev & -> & _).
      wp_step. apply wp_del. intros rc l El. eapply wp_put_impl; [done|].
      split; try done. intros j. simpl. pose proof (pending_del (of_handler h) ev (library w) j) as P.
      by rewrite El in P.
    + wp_step. unfold detached; simpl.
      rewrite <- (not_pending w h _ O Hx) by done. by apply changed_refl.
  - wp_step. unfold detached; simpl.
    rewrite <- (not_pending w h _ O Hx) by done. by apply changed_refl.
Qed.

(** *** Registering *)

(** The event that a registration assigns. *)
Definition assigned (this h : N) (fd : Z) (what : What) (internal : bool) : event :=
  let e := event_assign this fd (Z.lor (toFlags what) EV_PERSIST) (libeventCallback h) in
  if internal then event_internal e else e.

Lemma assigned_flags this h fd what internal :
  fromFlags (event_get_events (assigned this h fd what internal)) = what.
Proof.
  unfold assigned. destruct internal; rewrite ?get_events_internal, get_events_assign;
    apply fromFlags_toFlags.
Qed.

(** What a registration of [h] for [what <> NONE] makes of it; libevent watches it
    iff [event_add] succeeded. *)
Definition registration this h fd what internal w w' : Prop :=
  let e := assigned this h fd what internal in
  ∃ rc, changed w w' h (mkHandler fd (Some (mkHandlerImpl this true (Some e))))
          (if decide (rc = 0) then Some (e, None) else None) ∧
        ∃ l, rc = (event_add (of_handler h) e None l).1.

Lemma assign_and_add_ok this h what internal w x :
  handlers w !! h = Some x → owned this x → pending (library w) (of_handler h) = None →
  wp (assign_and_add this h what internal) w (λ _ w', registration this h (fd_ x) what internal w w').
Proof.
  intros Hx Hb Hp. unfold assign_and_add. wp_step. eapply wp_get_handler; [done|]. wp_step.
  apply wp_assign; [done|]. fold (assigned this h (fd_ x) what internal).
  set (e := assigned this h (fd_ x) what internal).
  wp_step. eapply wp_put_impl; [done|]. wp_step. apply wp_add. intros rc l El. wp_step.
  exists rc. split; [|exists (library w); simpl in El; fold e; by rewrite El].
  assert (base_ (match impl_ x with Some i => i | None => mkHandlerImpl this false None end) = this)
    as Eb by (unfold owned in Hb; by destruct (impl_ x)).
  split; simpl; [by rewrite Eb|done|done|]. intros j.
  pose proof (pending_add (of_handler h) e None (library w) j) as P.
  simpl in El. rewrite El in P. simpl in P. rewrite P.
  destruct (decide (j = of_handler h)) as [->|Hne].
  - rewrite Hp. destruct (decide (rc = 0)); [by rewrite decide_True|by rewrite decide_False by tauto].
  - by rewrite decide_False by tauto.
Qed.

Lemma registration_pre this h fd what internal w w1 w' x :
  changed w w1 h x (pending (library w1) (of_handler h)) →
  registration this h fd what internal w1 w' → registration this h fd what internal w w'.
Proof.
  intros [Ch Ct Cl Cp] (rc & [Dh Dt Dl Dp] & El). exists rc. split; [|done]. split.
  - by rewrite Dh, Ch, insert_insert_eq.
  - congruence.
  - congruence.
  - intros j. rewrite Dp. destruct (decide (j = of_handler h)); [done|].
    rewrite Cp. by rewrite decide_False.
Qed.

Lemma register_tail_ok this h what internal w x :
  world_ok w → handlers w !! h = Some x → owned this x →
  wp (x ← get_handler h;
      (match impl_ x with
       | Some i => when (registered_ i) (do_del (of_handler h) (event_ i);; mret tt)
       | None => mret tt
       end);;
      assign_and_add this h what internal) w
    (λ _ w', registration this h (fd_ x) what internal w w').
Proof.
  intros O Hx Hb. wp_step. eapply wp_get_handler; [done|].
  destruct x as [fd [[b r e]|]] eqn:Ex; cbn [impl_ registered_ event_].
  - wp_step. destruct r; cbn [when].
    + destruct (ok_assigned w O h fd b e Hx) as (ev & -> & _).
      wp_step. apply wp_del. intros rc l El. wp_step.
      pose proof (pending_del (of_handler h) ev (library w)) as P. rewrite El in P. simpl in P.
      rewrite <- Ex in *. eapply wp_mono; [apply (assign_and_add_ok this h what internal _ x); [done|done|]|].
      { simpl. rewrite P. by rewrite decide_True. }
      intros [] w'. apply (registration_pre _ _ _ _ _ _ _ _ x). split; simpl; try done.
      * by rewrite insert_id.
      * intros j. rewrite !P. destruct (decide (j = of_handler h)); [|done]. by rewrite decide_True.
    + wp_step. rewrite <- Ex in *. apply (assign_and_add_ok this h what internal w x); [done|done|].
      eapply not_pending; [done..|]. by subst.
  - wp_step. wp_step. rewrite <- Ex in *. apply (assign_and_add_ok this h what internal w x); [done|done|].
    eapply not_pending; [done..|]. by subst.
Qed.

(** [registerHandler] by the mask that is asked for and the one that is watched. *)
Definition registered_as this h what w w' (x : EventHandler) : Prop :=
  if decide (impl_ x ≠ None ∧ what = watched_in x) then w' = w
  else if decide (what = NONE) then changed w w' h (detached x) None
  else registration this h (fd_ x) what false w w'.

Lemma wp_watched w h x (Q : What → world → Prop) :
  world_ok w → handlers w !! h = Some x → Q (watched_in x) w → wp (EventHandler_watched h) w Q.
Proof.
  intros O Hx HQ. unfold EventHandler_watched. wp_step. eapply wp_get_handler; [done|].
  destruct x as [fd [[b [] e]|]]; unfold impl_watched; simpl in *; [|done|done].
  destruct (ok_assigned w O h fd b e Hx) as (ev & -> & _). done.
Qed.

Lemma register_ok this h what w x :
  world_ok w → handlers w !! h = Some x → owned this x → thread_ok this w →
  wp (registerHandler NDEBUG self this h what) w (λ _ w', registered_as this h what w w' x).
Proof.
  intros O Hx Hb Ht. unfold registerHandler. wp_step. apply wp_thread; [done|].
  unfold registerHandlerInternal. wp_step. unfold EventHandler_base. wp_step.
  eapply wp_get_handler; [done|]. wp_step. wp_step. unfold registered_as.
  assert (wp (match match impl_ x with Some i => Some (base_ i) | None => None end with
     | Some b => if negb false then assert_ NDEBUG (bool_decide (b = this));;
                   w ← EventHandler_watched h; mret (bool_decide (what = w))
                 else mret false
     | None => mret false end) w
    (λ r w', r = bool_decide (impl_ x ≠ None ∧ what = watched_in x) ∧ w' = w)) as W.
  { unfold owned in Hb. destruct (impl_ x) as [i|] eqn:Ei; cbn [negb].
    - wp_step. apply wp_assert; [by apply bool_decide_true|]. wp_step.
      eapply wp_watched; [done..|]. wp_step. split; [|done]. apply bool_decide_ext. naive_solver.
    - wp_step. split; [|done]. rewrite bool_decide_false; naive_solver. }
  eapply wp_mono; [exact W|]. intros r w' [-> ->].
  destruct (decide (impl_ x ≠ None ∧ what = watched_in x)) as [Hs|Hs].
  - rewrite bool_decide_true by done. by wp_step.
  - rewrite bool_decide_false by done. destruct (decide (what = NONE)) as [->|Hw].
    + rewrite bool_decide_true by done. by apply unregister_ok.
    + rewrite bool_decide_false by done. by apply register_tail_ok.
Qed.

Lemma detached_ok w w' h x :
  world_ok w → changed w w' h (detached x) None → world_ok w'.
Proof.
  intros O C. eapply changed_ok; [done..|]. intros fd b e. unfold detached. by destruct (impl_ x).
Qed.

Lemma registration_ok this h fd what internal w w' :
  what ≠ NONE → world_ok w → registration this h fd what internal w w' → world_ok w'.
Proof.
  intros Hw O (rc & C & _). eapply changed_ok; [done..| |].
  - intros e tv. case_decide; [|done]. intros [= <- <-]. eauto.
  - intros fd' b e [= _ _ <-]. eexists. split; [done|]. by rewrite assigned_flags.
Qed.

Lemma registered_as_ok this h what w w' x :
  world_ok w → registered_as this h what w w' x → world_ok w'.
Proof.
  intros O. unfold registered_as. repeat case_decide; [by intros ->| |].
  - by apply detached_ok.
  - by apply registration_ok.
Qed.

(** *** Timeouts *)

Record tchanged w w' (t : N) (i : option LibeventTimeout)
    (o : option (event * option timeval)) : Prop := {
  tc_handlers : handlers w' = handlers w;
  tc_timeouts : timeouts w' = <[t := i]> (timeouts w);
  tc_threads : loopThread_ w' = loopThread_ w;
  tc_pending j : pending (library w') j =
    if decide (j = of_timeout t) then o else pending (library w) j;
}.

Lemma tchanged_ok w w' t i o :
  world_ok w → tchanged w w' t i o →
  (∀ e tv, o = Some (e, tv) → ∃ b, i = Some (mkTimeout b (Some e) true)) →
  (∀ b e, i = Some (mkTimeout b e true) → is_Some e) →
  world_ok w'.
Proof.
  intros [Oh Oa Ot Ota] [Ch Ct Cl Cp] Ho Ha. split.
  - intros h e tv. rewrite Cp, decide_False, Ch by done. eauto.
  - intros h fd b e. rewrite Ch. eauto.
  - intros k e tv. rewrite Cp, Ct. case_decide as E.
    + injection E as ->. intros (b & ->)%Ho. rewrite lookup_insert_eq. eauto.
    + intros (b & E')%Ot. rewrite lookup_insert_ne by congruence. eauto.
  - intros k b e. rewrite Ct. intros [[-> ->]|[? ?]]%lookup_insert_Some; eauto.
Qed.

Lemma not_tpending w t o :
  world_ok w → timeouts w !! t = Some o → (∀ b e, o ≠ Some (mkTimeout b e true)) →
  pending (library w) (of_timeout t) = None.
Proof.
  intros O Hx Hn. destruct (pending (library w) (of_timeout t)) as [[e tv]|] eqn:E; [|done].
  apply (ok_timeout w O) in E as (b & E). rewrite Hx in E. injection E as ->.
  by destruct (Hn b (Some e)).
Qed.

Lemma wp_get_timeout t o w (Q : option LibeventTimeout → world → Prop) :
  timeouts w !! t = Some o → Q o w → wp (get_timeout t) w Q.
Proof. unfold get_timeout, wp. by intros ->. Qed.

Lemma wp_put_timeout t o i w (Q : unit → world → Prop) :
  timeouts w !! t = Some o → Q tt (set_timeouts <[t := Some i]> w) → wp (put_timeout t i) w Q.
Proof. intros Hx HQ. unfold put_timeout. wp_step. by eapply wp_get_timeout. Qed.

Definition towned (this : N) (o : option LibeventTimeout) : Prop :=
  match o with Some i => tbase_ i = this | None => True end.

Definition timer (this t : N) : event := event_assign this (-1) 0 (libeventTimeout t).

(** The timeout is registered for [d]; libevent has it iff [event_add] succeeded. *)
Definition scheduled this t d w w' : Prop :=
  ∃ rc, tchanged w w' t (Some (mkTimeout this (Some (timer this t)) true))
          (if decide (rc = 0) then Some (timer this t, Some d) else None) ∧
        ∃ l, rc = (event_add (of_timeout t) (timer this t) (Some d) l).1.

Lemma schedule_ok this t d b w o :
  timeouts w !! t = Some o → pending (library w) (of_timeout t) = None → b = this →
  wp (e ← do_assign (of_timeout t) (timer this t);
      do_add (of_timeout t) (Some e) (Some d);;
      put_timeout t (mkTimeout b (Some e) true)) w (λ _ w', scheduled this t d w w').
Proof.
  intros Hx Hp ->. wp_step. apply wp_assign; [done|]. wp_step. apply wp_add. intros rc l El.
  eapply wp_put_timeout; [done|]. exists rc. split; [|exists (library w); by rewrite El].
  split; try done. intros j. simpl.
  pose proof (pending_add (of_timeout t) (timer this t) (Some d) (library w) j) as P.
  rewrite El in P. simpl in P. rewrite P. destruct (decide (j = of_timeout t)) as [->|Hne].
  - rewrite Hp. destruct (decide (rc = 0)); [by rewrite decide_True|by rewrite decide_False by tauto].
  - by rewrite decide_False by tauto.
Qed.

Lemma registerTimeout_ok this t d w o :
  world_ok w → timeouts w !! t = Some o → towned this o → thread_ok this w →
  wp (registerTimeout NDEBUG self this t d) w (λ _ w', scheduled this t d w w').
Proof.
  intros O Hx Hb Ht. unfold registerTimeout. wp_step. apply wp_thread; [done|].
  wp_step. eapply wp_get_timeout; [done|]. cbv zeta. fold (timer this t).
  destruct o as [[b e r]|]; cbn [tregistered_ tbase_ tevent_]; simpl in Hb; subst.
  - wp_step. destruct r; cbn [when].
    + destruct (ok_tassigned w O t this e Hx) as [ev ->].
      wp_step. apply wp_del. intros rc l El. wp_step.
      pose proof (pending_del (of_timeout t) ev (library w)) as P. rewrite El in P. simpl in P.
      eapply wp_mono; [eapply schedule_ok; [done| |done]|].
      { simpl. rewrite P. by rewrite decide_True. }
      intros [] w' (rc' & [Dh Dt Dl Dp] & El'). exists rc'. split; [|done].
      split; [done|done|done|]. intros j. rewrite Dp. simpl. rewrite P.
      by destruct (decide (j = of_timeout t)).
    + wp_step. eapply schedule_ok; [done| |done]. by eapply not_tpending.
  - wp_step. cbn [when]. wp_step. eapply schedule_ok; [done| |done]. by eapply not_tpending.
Qed.

Lemma unregisterTimeout_ok this t w o :
  world_ok w → timeouts w !! t = Some o → towned this o → thread_ok this w →
  wp (unregisterTimeout NDEBUG self this t) w (λ _ w',
    tchanged w w' t ((λ i, mkTimeout (tbase_ i) (tevent_ i) false) <$> o) None).
Proof.
  intros O Hx Hb Ht. unfold unregisterTimeout. wp_step. apply wp_thread; [done|].
  wp_step. eapply wp_get_timeout; [done|].
  assert (∀ o', o = o' → (∀ b e, o ≠ Some (mkTimeout b e true)) → tchanged w w t o' None) as K.
  { intros o' <- Hn. split; [done|by rewrite insert_id|done|]. intros j. case_decide; [|done].
    subst. by eapply not_tpending. }
  destruct o as [[b e r]|]; [|wp_step; by apply K].
  simpl in Hb. subst. wp_step. apply wp_assert; [by apply bool_decide_true|].
  cbn [tregistered_ tevent_ tbase_]. destruct r; cbn [negb]; [|wp_step; by apply K].
  destruct (ok_tassigned w O t this e Hx) as [ev ->].
  wp_step. apply wp_del. intros rc l El. eapply wp_put_timeout; [done|].
  split; try done. intros j. simpl. pose proof (pending_del (of_timeout t) ev (library w) j) as P.
  by rewrite El in P.
Qed.
End spec.
