(* ===== verification/HandlersProps.v ===== *)
(** * Registration: what clients rely on

    The invariant of all programs that use one event base, and the effect of the
    operations as [src/wte/event_base.h] states them. *)

From S2P Require Import Prelude What Libevent Handlers HandlersSpec.

Section programs.
Context `{Libevent}.
Context (NDEBUG : bool) (self this : N).

(** The operations of a program on the base [this]. *)
Inductive hop :=
| NewHandler (h : N) (fd : Z)
| DeleteHandler (h : N)
| SetFd (h : N) (fd : Z)
| Register (h : N) (what : What)
| Unregister (h : N)
| NewTimeout (t : N)
| DeleteTimeout (t : N)
| RegisterTimeout (t : N) (d : timeval)
| UnregisterTimeout (t : N).

Definition run_hop (op : hop) : M world unit :=
  match op with
  | NewHandler h fd => EventHandler_new h fd
  | DeleteHandler h => EventHandler_delete h
  | SetFd h fd => EventHandler_setFd NDEBUG h fd
  | Register h what => registerHandler NDEBUG self this h what
  | Unregister h => EventHandler_unregister NDEBUG self h
  | NewTimeout t => Timeout_new t
  | DeleteTimeout t => Timeout_delete t
  | RegisterTimeout t d => registerTimeout NDEBUG self this t d
  | UnregisterTimeout t => unregisterTimeout NDEBUG self this t
  end.

Definition is_registered (x : EventHandler) : bool :=
  match impl_ x with Some i => registered_ i | None => false end.
Definition is_tregistered (o : option LibeventTimeout) : bool :=
  match o with Some i => tregistered_ i | None => false end.

(** What the headers ask of the caller: the object exists; a handler that is
    registered is not destroyed nor given another descriptor; a timeout that is
    registered is not destroyed. *)
Definition allowed (w : world) (op : hop) : Prop :=
  match op with
  | NewHandler h _ => handlers w !! h = None
  | DeleteHandler h | SetFd h _ => ∃ x, handlers w !! h = Some x ∧ is_registered x = false
  | Register h _ | Unregister h => is_Some (handlers w !! h)
  | NewTimeout t => timeouts w !! t = None
  | DeleteTimeout t => ∃ o, timeouts w !! t = Some o ∧ is_tregistered o = false
  | RegisterTimeout t _ | UnregisterTimeout t => is_Some (timeouts w !! t)
  end.

Record program_ok (w : world) : Prop := {
  p_world : world_ok w;
  p_thread : thread_ok self this w;
  p_owned h x : handlers w !! h = Some x → owned this x;
  p_towned t o : timeouts w !! t = Some o → towned this o;
}.

Definition hstep (w w' : world) : Prop := ∃ op, allowed w op ∧ run_hop op w = Done tt w'.

(** Before anything is created. *)
Definition fresh_world (w : world) : Prop :=
  handlers w = ∅ ∧ timeouts w = ∅ ∧ thread_ok self this w ∧
  ∀ i, match i with of_loop _ => True | _ => pending (library w) i = None end.

Lemma fresh_ok w : fresh_world w → program_ok w.
Proof.
  intros (Eh & Et & Ht & Hp). split; [split|done|..].
  - intros h e tv. by rewrite (Hp (of_handler h)).
  - intros h fd b e. by rewrite Eh, lookup_empty.
  - intros t e tv. by rewrite (Hp (of_timeout t)).
  - intros t b e. by rewrite Et, lookup_empty.
  - intros h x. by rewrite Eh, lookup_empty.
  - intros t o. by rewrite Et, lookup_empty.
Qed.

(** *** How the invariant survives a change of one object *)

Lemma program_changed w w' h x o :
  program_ok w → world_ok w' → changed w w' h x o → owned this x → program_ok w'.
Proof.
  intros [O Ht Ho Hto] O' [Ch Ct Cl Cp] Hx. split; [done| | |].
  - unfold thread_ok. by rewrite Cl.
  - intros k y. rewrite Ch. intros [[_ <-]|[_ ?]]%lookup_insert_Some; eauto.
  - intros t y. rewrite Ct. eauto.
Qed.

Lemma program_tchanged w w' t i o :
  program_ok w → world_ok w' → tchanged w w' t i o → towned this i → program_ok w'.
Proof.
  intros [O Ht Ho Hto] O' [Ch Ct Cl Cp] Hx. split; [done| | |].
  - unfold thread_ok. by rewrite Cl.
  - intros k y. rewrite Ch. eauto.
  - intros k y. rewrite Ct. intros [[_ <-]|[_ ?]]%lookup_insert_Some; eauto.
Qed.

(** Adding, removing and changing an object that libevent does not watch. *)
Lemma program_handler w h x0 :
  program_ok w → pending (library w) (of_handler h) = None →
  (∀ x, x0 = Some x → owned this x ∧ is_registered x = false) →
  program_ok (set_handlers (partial_alter (λ _, x0) h) w).
Proof.
  intros [[Oh Oa Ot Ota] Ht Ho Hto] Hp Hx.
  assert (L : ∀ k, partial_alter (λ _, x0) h (handlers w) !! k =
    if decide (k = h) then x0 else handlers w !! k).
  { intros k. case_decide; subst; [apply lookup_partial_alter_eq|].
    by apply lookup_partial_alter_ne. }
  split; [split| |..]; simpl; try done.
  - intros k e tv E. destruct (Oh k e tv E) as (fd & b & E'). exists fd, b.
    rewrite L, decide_False; [done|]. congruence.
  - intros k fd b e. rewrite L. case_decide; [|eauto]. intros ->.
    destruct (Hx _ eq_refl). done.
  - intros k x. rewrite L. case_decide; [|eauto]. intros ->. by apply Hx.
Qed.

Lemma program_timeout w t o0 :
  program_ok w → pending (library w) (of_timeout t) = None →
  (∀ o, o0 = Some o → towned this o ∧ is_tregistered o = false) →
  program_ok (set_timeouts (partial_alter (λ _, o0) t) w).
Proof.
  intros [[Oh Oa Ot Ota] Ht Ho Hto] Hp Hx.
  assert (L : ∀ k, partial_alter (λ _, o0) t (timeouts w) !! k =
    if decide (k = t) then o0 else timeouts w !! k).
  { intros k. case_decide; subst; [apply lookup_partial_alter_eq|].
    by apply lookup_partial_alter_ne. }
  split; [split| |..]; simpl; try done.
  - intros k e tv E. destruct (Ot k e tv E) as (b & E'). exists b.
    rewrite L, decide_False; [done|]. congruence.
  - intros k b e. rewrite L. case_decide; [|eauto]. intros ->.
    destruct (Hx _ eq_refl). done.
  - intros k x. rewrite L. case_decide; [|eauto]. intros ->. by apply Hx.
Qed.

Lemma absent_not_pending w h :
  program_ok w → handlers w !! h = None → pending (library w) (of_handler h) = None.
Proof.
  intros P Hh. destruct (pending (library w) (of_handler h)) as [[e tv]|] eqn:E; [|done].
  apply (ok_handler w (p_world w P)) in E as (? & ? & ?). congruence.
Qed.

Lemma absent_not_tpending w t :
  program_ok w → timeouts w !! t = None → pending (library w) (of_timeout t) = None.
Proof.
  intros P Hh. destruct (pending (library w) (of_timeout t)) as [[e tv]|] eqn:E; [|done].
  apply (ok_timeout w (p_world w P)) in E as (? & ?). congruence.
Qed.

Lemma idle_not_pending w h x :
  program_ok w → handlers w !! h = Some x → is_registered x = false →
  pending (library w) (of_handler h) = None.
Proof.
  intros P Hx Hr. eapply not_pending; [apply P|done|]. intros b e E.
  unfold is_registered in Hr. by rewrite E in Hr.
Qed.

Lemma owned_registered x w w' h what :
  owned this x → registered_as this h what w w' x → program_ok w → handlers w !! h = Some x →
  program_ok w'.
Proof.
  intros Ho Ra P Hx. assert (world_ok w') as O' by (eapply registered_as_ok; [apply P|done]).
  revert Ra. unfold registered_as. repeat case_decide; [by intros ->|intros C|intros (rc & C & _)];
    (eapply program_changed; [done..|]).
  - unfold owned, detached in *. by destruct (impl_ x).
  - done.
Qed.

(** Every allowed operation succeeds and keeps the invariant. *)
Lemma hop_ok w op : program_ok w → allowed w op → wp (run_hop op) w (λ _, program_ok).
Proof.
  intros P A. pose proof (p_thread w P) as Ht. destruct op as [h fd|h|h fd|h what|h|t|t|t d|t]; simpl in A |- *.
  - apply (program_handler w h (Some (mkHandler fd None))); [done|by apply absent_not_pending|].
    by intros x [= <-].
  - destruct A as (x & Hx & Hr). unfold EventHandler_delete. wp_step.
    eapply wp_get_handler; [done|]. wp_step.
    apply (program_handler w h None); [done|by eapply idle_not_pending|done].
  - destruct A as (x & Hx & Hr). unfold EventHandler_setFd, EventHandler_registered. wp_step. wp_step.
    eapply wp_get_handler; [done|]. wp_step. wp_step. apply wp_assert.
    { unfold is_registered in Hr. by rewrite Hr. }
    wp_step. eapply wp_get_handler; [done|]. wp_step.
    apply (program_handler w h (Some (mkHandler fd (impl_ x)))); [done|by eapply idle_not_pending|].
    intros y [= <-]. split; [|done]. by apply (p_owned w P h x).
  - destruct A as [x Hx]. pose proof (p_owned w P h x Hx) as Ho.
    eapply wp_mono; [eapply register_ok; [apply P|done..]|].
    intros ? w' Ra. exact (owned_registered x w w' h what Ho Ra P Hx).
  - destruct A as [x Hx]. pose proof (p_owned w P h x Hx) as Ho.
    unfold EventHandler_unregister, EventHandler_base. wp_step. wp_step.
    eapply wp_get_handler; [done|]. wp_step.
    destruct (impl_ x) as [i|] eqn:Ei; [|by wp_step].
    assert (base_ i = this) as -> by (unfold owned in Ho; by rewrite Ei in Ho).
    eapply wp_mono; [eapply unregister_ok; [apply P|done..]|]. intros ? w' C. cbv beta in C.
    eapply program_changed; [done|by eapply detached_ok; [apply P|]|done|].
    unfold owned, detached in *. by rewrite Ei in *.
  - apply (program_timeout w t (Some None)); [done|by apply absent_not_tpending|].
    by intros x [= <-].
  - destruct A as (o & Ho & Hr). unfold Timeout_delete. wp_step.
    eapply wp_get_timeout; [done|]. wp_step. apply (program_timeout w t None); [done| |done].
    eapply not_tpending; [apply P|done|]. intros b e ->. done.
  - destruct A as [o Ho]. eapply wp_mono.
    { eapply registerTimeout_ok; [apply P|done|by eapply p_towned|done]. }
    intros ? w' (rc & C & _). refine (program_tchanged w w' t _ _ P _ C _); [|done].
    eapply tchanged_ok; [apply P|exact C|..].
    + intros e tv. case_decide; [|done]. intros [= <- <-]. eauto.
    + by intros b e [= _ <-].
  - destruct A as [o Ho]. eapply wp_mono.
    { eapply unregisterTimeout_ok; [apply P|done|by eapply p_towned|done]. }
    intros ? w' C. refine (program_tchanged w w' t _ _ P _ C _).
    + eapply tchanged_ok; [apply P|exact C|done|]. by intros b e; destruct o.
    + pose proof (p_towned w P t o Ho). by destruct o.
Qed.

(** [unregister] of a handler that is not registered does nothing at all. *)
Lemma unregister_idle w h x :
  handlers w !! h = Some x → owned this x → is_registered x = false → thread_ok self this w →
  EventHandler_unregister NDEBUG self h w = Done tt w.
Proof.
  intros Hx Ho Hr Ht.
  assert (G : ∀ A (k : EventHandler → M world A), (get_handler h ≫= k) w = k x w).
  { intros A k. apply bind_done. unfold get_handler. by rewrite Hx. }
  assert (B : ∀ A (k : option N → M world A), (EventHandler_base h ≫= k) w =
    k (match impl_ x with None => None | Some i => Some (base_ i) end) w).
  { intros A k. apply bind_done. unfold EventHandler_base. by rewrite G. }
  assert (AT : assert_thread NDEBUG self this w = Done tt w).
  { pose proof (wp_thread NDEBUG self this w (λ _ w', w' = w) Ht eq_refl) as W.
    by apply wp_iff in W as ([] & w' & -> & ->). }
  unfold EventHandler_unregister. rewrite B. unfold owned, is_registered in *.
  destruct (impl_ x) as [[b r e]|] eqn:Ei; [|done]. simpl in *. subst.
  unfold unregisterHandler. rewrite (bind_done _ _ _ _ _ AT), B.
  assert (assert_ NDEBUG (bool_decide (this = this)) w = Done tt w) as AB.
  { rewrite bool_decide_true by done. unfold assert_. by destruct NDEBUG. }
  cbn [base_]. rewrite (bind_done _ _ _ _ _ AB), G, Ei. done.
Qed.
End programs.

(** ** Examples: a handler for descriptor 5, over the table of [Libevent.v] *)

#[local] Existing Instance table_libevent.

Definition world0 : world := mkWorld ∅ ∅ ∅ (λ _, None).
Definition run_to {A} (m : M world A) (w : world) : world :=
  match m w with Done _ w' => w' | _ => w end.
Definition handler_world : world := run_to (EventHandler_new 1 5) world0.
Definition reading_world : world := run_to (registerHandler true 7 3 1 READ) handler_world.

Definition reading_handler : EventHandler :=
  mkHandler 5 (Some (mkHandlerImpl 3 true (Some (mkTev 3 5 18 (libeventCallback 1) false : event)))).

Lemma world0_fresh : fresh_world 7 3 world0.
Proof. split_and!; [done|done|by left|]. by intros []. Qed.

Lemma handler_ok : program_ok 7 3 handler_world.
Proof. apply (hop_ok true 7 3 world0 (NewHandler 1 5)); [by apply fresh_ok, world0_fresh|done]. Qed.

Lemma reading_ok : program_ok 7 3 reading_world.
Proof. apply (hop_ok true 7 3 handler_world (Register 1 READ)); [apply handler_ok|by eexists]. Qed.

(** ** Properties *)

(** C22: whatever a program does with handlers and timeouts on a base, as long as it
    does not destroy or re-target what is registered: every operation succeeds and
    breaks no rule of libevent, and libevent only ever watches events of live
    objects that know they are registered, so no callback reaches a freed object. *)
Theorem handlers_invariant `{Libevent} NDEBUG self this w w' :
  fresh_world self this w → rtc (hstep NDEBUG self this) w w' →
  (∀ h e tv, pending (library w') (of_handler h) = Some (e, tv) →
     ∃ x, handlers w' !! h = Some x ∧ is_registered x = true ∧
          watched_in x = fromFlags (event_get_events e)) ∧
  (∀ t e tv, pending (library w') (of_timeout t) = Some (e, tv) →
     ∃ o, timeouts w' !! t = Some o ∧ is_tregistered o = true) ∧
  (∀ op, allowed w' op → ∃ w'', run_hop NDEBUG self this op w' = Done tt w'').
Proof.
  intros F R.
  assert (program_ok self this w') as P.
  { eapply (rtc_invariant _ _ _ _ (λ a b Pa Hab, _) R). by apply fresh_ok. Unshelve.
    destruct Hab as (op & A & E). pose proof (hop_ok NDEBUG self this a op Pa A) as W.
    unfold wp in W. by rewrite E in W. }
  destruct P as [O Ht Ho Hto] eqn:EP. clear EP. split_and!.
  - intros h e tv E. apply (ok_handler w' O) in E as (fd & b & E). eauto.
  - intros t e tv E. apply (ok_timeout w' O) in E as (b & E). eauto.
  - intros op A. pose proof (hop_ok NDEBUG self this w' op ltac:(by split) A) as W.
    apply wp_iff in W as ([] & w'' & E & _). eauto.
Qed.

Lemma handlers_invariant_witness :
  rtc (hstep true 7 3) world0 reading_world ∧
  ∃ w'', run_hop true 7 3 (Register 1 READ_WRITE) reading_world = Done tt w''.
Proof.
  assert (rtc (hstep true 7 3) world0 reading_world) as R.
  { eapply (rtc_l _ _ handler_world); [exists (NewHandler 1 5); split; reflexivity|].
    eapply (rtc_l _ _ reading_world); [|constructor].
    exists (Register 1 READ). split; [by eexists|vm_compute; reflexivity]. }
  split; [exact R|].
  destruct (handlers_invariant true 7 3 world0 reading_world world0_fresh R) as (_ & _ & H).
  apply H. by eexists.
Defined.

(** [registerHandler]: afterwards the handler watches exactly what it was asked
    to, and its descriptor is unchanged; libevent no longer watches it when that is
    [NONE]; otherwise libevent watches it with these flags, persistently and
    without a timeout, provided [event_add] succeeded (its result is ignored, so
    the handler says it is registered in either case).  No other object and no
    other event is affected. *)
Theorem register_watches `{Libevent} NDEBUG self this h what w x :
  world_ok w → handlers w !! h = Some x → owned this x → thread_ok self this w →
  wp (registerHandler NDEBUG self this h what) w (λ _ w', ∃ x',
    handlers w' = <[h := x']> (handlers w) ∧ timeouts w' = timeouts w ∧
    fd_ x' = fd_ x ∧ watched_in x' = what ∧
    (∀ j, j ≠ of_handler h → pending (library w') j = pending (library w) j) ∧
    (what = NONE → pending (library w') (of_handler h) = None) ∧
    (what ≠ NONE → watched_in x ≠ what → ∃ rc l,
       let e := event_assign this (fd_ x) (Z.lor (toFlags what) EV_PERSIST) (libeventCallback h) in
       rc = (event_add (of_handler h) e None l).1 ∧
       pending (library w') (of_handler h) = if decide (rc = 0) then Some (e, None) else None)).
Proof.
  intros O Hx Ho Ht. eapply wp_mono; [by apply (register_ok NDEBUG self this h what w x)|].
  intros ? w' Ra. cbv beta in Ra. revert Ra. unfold registered_as.
  destruct (decide (impl_ x ≠ None ∧ what = watched_in x)) as [[Hi ->]|Hs];
    [|destruct (decide (what = NONE)) as [->|Hw]].
  - intros ->. exists x. split_and!; try done; [by rewrite insert_id|].
    intros E. eapply not_pending; [done..|]. intros b e Ei.
    destruct x as [fd i]; simpl in Ei. subst i.
    by destruct (ok_assigned w O h fd b e Hx) as (ev & -> & Hf).
  - intros [Ch Ct Cl Cp]. exists (detached x). split_and!; try done.
    + unfold watched_in, detached. by destruct (impl_ x).
    + intros j Hj. by rewrite Cp, decide_False.
    + intros _. by rewrite Cp, decide_True.
  - intros (rc & [Ch Ct Cl Cp] & l & El). eexists. split_and!; [done|done|done| | | |].
    + unfold watched_in. cbn [impl_]. apply assigned_flags.
    + intros j Hj. by rewrite Cp, decide_False.
    + done.
    + intros _ _. exists rc, l. split; [done|]. by rewrite Cp, decide_True.
Qed.

Lemma register_watches_witness :
  ∃ w', registerHandler true 7 3 1 READ_WRITE reading_world = Done tt w' ∧
    pending (library w') (of_handler 1) = Some (mkTev 3 5 22 (libeventCallback 1) false, None).
Proof.
  pose proof (register_watches true 7 3 1 READ_WRITE reading_world
    reading_handler
    (p_world _ _ _ reading_ok) ltac:(vm_compute; reflexivity) ltac:(reflexivity)
    ltac:(by left)) as W.
  apply wp_iff in W as ([] & w' & E & x' & _ & _ & _ & _ & _ & _ & P). exists w'. split; [exact E|].
  destruct P as (rc & l & Erc & ->); [done|done|]. by rewrite Erc.
Defined.

(** [unregister] takes the handler out of libevent's hands, whatever state it was
    in, and doing it again changes nothing. *)
Theorem unregister_idempotent `{Libevent} NDEBUG self this w h x :
  program_ok self this w → handlers w !! h = Some x →
  wp (EventHandler_unregister NDEBUG self h) w (λ _ w',
    pending (library w') (of_handler h) = None ∧ wp (EventHandler_registered h) w' (λ r _, r = false) ∧
    EventHandler_unregister NDEBUG self h w' = Done tt w').
Proof.
  intros P Hx. unfold EventHandler_unregister, EventHandler_base. wp_step. wp_step.
  eapply wp_get_handler; [done|]. wp_step. pose proof (p_owned _ _ _ P h x Hx) as Ho.
  destruct (impl_ x) as [i|] eqn:Ei.
  - assert (base_ i = this) as Eb by (unfold owned in Ho; by rewrite Ei in Ho). rewrite Eb.
    eapply wp_mono; [eapply unregister_ok; [apply P|done..|apply P]|].
    intros ? w' [Ch Ct Cl Cp]. assert (Hx' : handlers w' !! h = Some (detached x))
      by (rewrite Ch; apply lookup_insert_eq).
    split_and!; [by rewrite Cp, decide_True| |].
    + unfold EventHandler_registered. wp_step. eapply wp_get_handler; [done|].
      unfold detached. rewrite Ei. by wp_step.
    + eapply (unregister_idle NDEBUG self this _ _ (detached x)); [done| | |].
      * unfold owned, detached. cbn. by rewrite Ei.
      * unfold is_registered, detached. cbn. by rewrite Ei.
      * unfold thread_ok. rewrite Cl. apply P.
  - wp_step. split_and!.
    + eapply idle_not_pending; [done..|]. unfold is_registered. by rewrite Ei.
    + unfold EventHandler_registered. wp_step. eapply wp_get_handler; [done|]. rewrite Ei. by wp_step.
    + eapply (unregister_idle NDEBUG self this); [done..| |apply P].
      unfold is_registered. by rewrite Ei.
Qed.

Lemma unregister_idempotent_witness :
  wp (EventHandler_unregister true 7 1) reading_world (λ _ w',
    pending (library w') (of_handler 1) = None ∧ wp (EventHandler_registered 1) w' (λ r _, r = false) ∧
    EventHandler_unregister true 7 1 w' = Done tt w').
Proof.
  apply (unregister_idempotent true 7 3 reading_world 1
    reading_handler
    reading_ok). vm_compute. reflexivity.
Defined.

(** [registerTimeout] on a timeout that is registered already replaces its
    duration (there is one pending event for it, never two); [unregisterTimeout]
    removes it; no handler is affected. *)
Theorem timeout_updates `{Libevent} NDEBUG self this w t o d :
  program_ok self this w → timeouts w !! t = Some o →
  wp (registerTimeout NDEBUG self this t d) w (λ _ w', program_ok self this w' ∧
    handlers w' = handlers w ∧
    (∃ rc l, rc = (event_add (of_timeout t) (timer this t) (Some d) l).1 ∧
       pending (library w') (of_timeout t) =
         if decide (rc = 0) then Some (timer this t, Some d) else None) ∧
    wp (unregisterTimeout NDEBUG self this t) w' (λ _ w'',
      pending (library w'') (of_timeout t) = None ∧
      ∀ j, j ≠ of_timeout t → pending (library w'') j = pending (library w) j)).
Proof.
  intros P Ho. eapply wp_mono.
  { eapply wp_and. apply (hop_ok NDEBUG self this w (RegisterTimeout t d) P). by exists o.
    eapply registerTimeout_ok; [apply P|done|by eapply p_towned|apply P]. }
  intros ? w' [P' (rc & [Ch Ct Cl Cp] & l & El)]. split_and!; [done|done| |].
  - exists rc, l. split; [done|]. by rewrite Cp, decide_True.
  - eapply wp_mono.
    { eapply (unregisterTimeout_ok NDEBUG self this t w'); [apply P'|rewrite Ct; apply lookup_insert_eq|done|apply P']. }
    intros ? w'' [_ _ _ Dp]. split; [by rewrite Dp, decide_True|].
    intros j Hj. by rewrite Dp, decide_False, Cp, decide_False.
Qed.

Definition timeout_world : world := run_to (Timeout_new 4) reading_world.
Lemma timeout_ok : program_ok 7 3 timeout_world.
Proof. apply (hop_ok true 7 3 reading_world (NewTimeout 4)); [apply reading_ok|done]. Qed.

Lemma timeout_updates_witness :
  ∃ w', registerTimeout true 7 3 4 (mkTimeval 1 0) timeout_world = Done tt w' ∧
    pending (library w') (of_timeout 4) = Some (timer 3 4, Some (mkTimeval 1 0)).
Proof.
  pose proof (timeout_updates true 7 3 timeout_world 4 None (mkTimeval 1 0) timeout_ok
    ltac:(vm_compute; reflexivity)) as W.
  apply wp_iff in W as ([] & w' & E & _ & _ & (rc & l & Erc & P) & _).
  exists w'. split; [exact E|]. rewrite P, Erc. reflexivity.
Defined.

(** Destroying a handler, or a timeout, that is still registered frees its event
    but leaves it with libevent: the library goes on watching memory that is gone. *)
Theorem delete_dangles `{Libevent} w :
  (∀ h x p, handlers w !! h = Some x → pending (library w) (of_handler h) = Some p →
     ∃ w', EventHandler_delete h w = Done tt w' ∧ handlers w' !! h = None ∧
           pending (library w') (of_handler h) = Some p) ∧
  (∀ t o p, timeouts w !! t = Some o → pending (library w) (of_timeout t) = Some p →
     ∃ w', Timeout_delete t w = Done tt w' ∧ timeouts w' !! t = None ∧
           pending (library w') (of_timeout t) = Some p).
Proof.
  split.
  - intros h x p Hx Hp. eexists. split.
    { unfold EventHandler_delete. erewrite bind_done; [reflexivity|]. unfold get_handler. by rewrite Hx. }
    split; [apply lookup_delete_eq|done].
  - intros t o p Hx Hp. eexists. split.
    { unfold Timeout_delete. erewrite bind_done; [reflexivity|]. unfold get_timeout. by rewrite Hx. }
    split; [apply lookup_delete_eq|done].
Qed.

Lemma delete_dangles_witness :
  ∃ w', EventHandler_delete 1 reading_world = Done tt w' ∧ handlers w' !! 1%N = None ∧
    pending (library w') (of_handler 1) = pending (library reading_world) (of_handler 1).
Proof.
  apply (proj1 (delete_dangles reading_world) 1%N reading_handler); vm_compute; reflexivity.
Defined.
