(* ===== verification/Fifo.v ===== *)
(** * The notification queue as its client sees it

    [Fifo] is what [LibeventEventBase] needs of its queue of operations; the
    queue of [Mpsc.v] is an instance, by the theorems proved there. *)

From S2P Require Import Prelude Mpsc.

Class Fifo (T : Type) := {
  fifo : Type;
  (** the queue is in a legal state and holds these values, first one first *)
  fifo_holds : fifo → list T → Prop;
  (** [push]: whether the queue was empty *)
  fifo_push : T → M fifo bool;
  fifo_pop : M fifo (option T);
  fifo_push_ok q xs x : fifo_holds q xs →
    wp (fifo_push x) q (λ r q', r = bool_decide (xs = []) ∧ fifo_holds q' (xs ++ [x]));
  fifo_pop_ok q xs : fifo_holds q xs →
    wp fifo_pop q (λ r q', r = head xs ∧ fifo_holds q' (tail xs));
}.

(** The concurrent queue between calls; the allocator hands out a free address. *)
Section mpsc.
Context {T : Type} (T_default T_moved : T).

Definition mpsc_push (x : T) : M (queue T) bool := λ q,
  push (fresh (dom (heap q))) x q.

Lemma fresh_free (h : gmap nid (Node (T := T))) : h !! fresh (dom h) = None.
Proof. apply not_elem_of_dom, is_fresh. Qed.

#[refine] Definition mpsc_fifo_queue : Fifo T := {|
  fifo := queue T;
  fifo_holds q xs := ∃ nodes, calm q nodes xs;
  fifo_push := mpsc_push;
  fifo_pop := pop T_moved;
|}.
Proof.
  - intros q xs x [nodes C]. eapply wp_mono; [by eapply push_calm; [|apply fresh_free]|].
    intros r q' (-> & _ & C'). eauto.
  - intros q xs [nodes C]. eapply wp_mono; [by eapply pop_calm|].
    intros r q' (q1 & C' & -> & _). eauto.
Defined.

(** A new queue holds nothing. *)
Lemma mpsc_new_holds p : @fifo_holds T mpsc_fifo_queue (ConcurrentMPSCQueue T_default p) [].
Proof.
  exists [p]. apply (calm_of (init T_default p) [p] []); [|done|done].
  apply (inv_init T_default).
Qed.
End mpsc.

(** The reference instance: a list. *)
#[refine] Definition list_fifo (T : Type) : Fifo T := {|
  fifo := list T;
  fifo_holds q xs := q = xs;
  fifo_push x := λ q, Done (bool_decide (length q = 0%nat)) (q ++ [x]);
  fifo_pop := λ q, Done (head q) (tail q);
|}.
Proof.
  - intros q xs x ->. split; [|done]. apply bool_decide_ext. by destruct xs.
  - by intros q xs ->.
Defined.
