(* ===== verification/EventLoop.v ===== *)
(** * The event loop

    The part of [LibeventEventBase] ([src/libevent_event_base.cc]) that drives the
    loop: [loop], [stop], [runOnEventLoop], [runOnEventLoopAndWait] and the
    notification channel.  The model is of one thread at a time: a wait for a
    condition that no other code can make true does not return ([Await.v] and [Stop.v] have
    the other threads).

    The queue of operations is any [Fifo] (the queue of [Mpsc.v] is one).  What
    is not in the repository is a parameter: the user's operations, libevent's
    [event_base_loop] and [event_base_loopexit], the timer of a FOREVER loop, and
    the reads and writes on the notification descriptors. *)

From S2P Require Import Prelude What Fifo.

(** [EventBase::LoopMode]. *)
Inductive LoopMode := ONCE | UNTIL_EMPTY | FOREVER.
#[export] Instance LoopMode_eq_dec : EqDecision LoopMode.
Proof. solve_decision. Defined.

(** [Notify::Type]. *)
Inductive NotifyType := PIPE | SOCKETPAIR | EVENTFD.

(** The operations that are queued: a user's closure; the one [stop] passes; the
    wrapper that [runOnEventLoopAndWait] makes around an operation, with the flag
    [done] (by number) it sets. *)
Inductive op (U : Type) :=
| UserOp (u : U)
| Terminate
| AndNotify (o : op U) (done_flag : N).
Arguments UserOp {U} u.
Arguments Terminate {U}.
Arguments AndNotify {U} o done_flag.

Section loop.
Context {U W : Type}.        (** user operations; the rest of the program's state *)
Context `{F : Fifo (op U)}.

Record base := mkBase {
  queue : fifo;                  (** [notify_.queue] *)
  terminate_ : bool;
  loopThread_ : N;               (** 0: no loop is running *)
  finished : bool;               (** [await_.finished] *)
  dones : gset N;                (** the [done] flags that are set *)
  notifyType : NotifyType;
  fds : Z * Z;                   (** [notify_.fds]: listen on the first, write on the second *)
  wstate : W;
}.

Definition set_queue q (b : base) : base :=
  mkBase q (terminate_ b) (loopThread_ b) (finished b) (dones b) (notifyType b) (fds b) (wstate b).
Definition set_terminate t (b : base) : base :=
  mkBase (queue b) t (loopThread_ b) (finished b) (dones b) (notifyType b) (fds b) (wstate b).
Definition set_thread t (b : base) : base :=
  mkBase (queue b) (terminate_ b) t (finished b) (dones b) (notifyType b) (fds b) (wstate b).
Definition set_finished f (b : base) : base :=
  mkBase (queue b) (terminate_ b) (loopThread_ b) f (dones b) (notifyType b) (fds b) (wstate b).
Definition set_done d (b : base) : base :=
  mkBase (queue b) (terminate_ b) (loopThread_ b) (finished b) ({[d]} ∪ dones b) (notifyType b)
    (fds b) (wstate b).

(** Whether asserts are compiled out, the calling thread, and the code outside the
    repository. *)
Context (NDEBUG : bool).
Context (self : N).
Context (user : U → M base unit).
Context (event_base_loop : M base Z) (event_base_loopexit : M base unit).
Context (timer_add timer_del : M base Z).
Context (xread xwrite : Z → Z → M base Z).       (** descriptor, number of bytes *)

(** [assert(0)]. *)
Definition assert_false : M base unit := if NDEBUG then mret tt else fail AssertFailed.

Definition on_queue {A} (m : M fifo A) : M base A := zoom queue set_queue m.

Definition inLoopThread : M base bool :=
  cur ← gets loopThread_;
  mret (bool_decide (cur = 0%N) || bool_decide (cur = self)).

(** [op()]. *)
Fixpoint run_op (o : op U) : M base unit :=
  match o with
  | UserOp u => user u
  | Terminate => modify (set_terminate true);; event_base_loopexit
  | AndNotify o d => run_op o;; modify (set_done d)
  end.

(** [runOpsInQueue]: the loop runs on fuel. *)
Definition run_turn (_ : unit) : M base (unit + unit) :=
  o ← on_queue fifo_pop;
  match o with
  | None => mret (inr tt)
  | Some o => run_op o;; mret (inl tt)
  end.
Definition runOpsInQueue (fuel : nat) : M base unit := Prelude.loop fuel run_turn tt.

(** ** Notifications *)

(** [consumeNotification]: both arms read 8 bytes. *)
Definition consumeNotification : M base bool :=
  t ← gets notifyType;
  f ← gets fds;
  rbytes ← (match t with EVENTFD => xread f.1 8 | _ => xread f.1 8 end);
  mret (negb (rbytes <=? 0)).

Definition signalNotifyQueue : M base bool :=
  t ← gets notifyType;
  f ← gets fds;
  ret ← (match t with PIPE | SOCKETPAIR => xwrite f.2 1
         | EVENTFD => assert_false;; mret (-1) end);
  mret (negb (ret <=? 0)).

Definition receiveNotifications (fuel : nat) : M base unit :=
  consumed ← consumeNotification;
  if negb consumed then mret tt else runOpsInQueue fuel.

(** [NotifyHandler::ready]. *)
Definition NotifyHandler_ready (fuel : nat) (event : What) : M base unit :=
  match event with READ => receiveNotifications fuel | _ => mret tt end.

(** ** [runOnEventLoop] *)

Definition runOnEventLoop (o : op U) (defer : bool) : M base bool :=
  here ← inLoopThread;
  if negb defer && here then run_op o;; mret true
  else
    shouldKick ← on_queue (fifo_push o);
    if (shouldKick : bool) then signalNotifyQueue else mret true.

(** [cv.wait(lock, cond)], when no other thread runs: it returns only if the
    condition holds already. *)
Definition wait (cond : base → bool) : M base unit :=
  b ← get; if cond b then mret tt else diverge.

(** [runOnEventLoopAndWait], [d] being the address of the flag [done]. *)
Definition runOnEventLoopAndWait (d : N) (o : op U) (defer : bool) : M base bool :=
  here ← inLoopThread;
  if negb defer && here then run_op o;; mret true
  else
    scheduled ← runOnEventLoop (AndNotify o d) defer;
    if negb scheduled then mret false
    else wait (λ b, bool_decide (d ∈ dones b));; mret true.

Definition stop : M base unit :=
  runOnEventLoop Terminate false;;
  wait finished.

(** ** [loop] *)

(** One turn of the [do] loop. *)
Definition loop_turn (fuel : nat) (mode : LoopMode) (_ : unit) : M base (unit + unit) :=
  runOpsInQueue fuel;;
  rc ← event_base_loop;
  if bool_decide (mode = ONCE) then mret (inr tt)
  else if bool_decide (mode = UNTIL_EMPTY) && (rc =? 1) then mret (inr tt)
  else
    t ← gets terminate_;
    mret (if (t : bool) then inr tt else inl tt).

(** [turns] bounds the turns of the loop, [fuel] the operations run in a turn. *)
Definition loop (turns fuel : nat) (mode : LoopMode) : M base unit :=
  modify (set_thread self);;
  modify (set_finished false);;
  when (bool_decide (mode = FOREVER))
    (rc ← timer_add;
     if negb (rc =? 0) then throw (runtime_error "Internal error starting loop") else mret tt);;
  Prelude.loop turns (loop_turn fuel mode) tt;;
  when (bool_decide (mode = FOREVER))
    (rc ← timer_del; when (rc =? -1) assert_false);;
  modify (set_terminate false);;
  modify (set_thread 0%N);;
  modify (set_finished true).
End loop.
Arguments base U W {F}.
