(* ===== verification/EventLoopProps.v ===== *)
(** * The event loop: its theorems

    What [src/wte/event_base.h] says of [loop], [stop] and the two ways to run an
    operation on the loop, proved of [EventLoop.v] for operations that act on the
    rest of the program's state. *)

From S2P Require Import Prelude What Fifo EventLoop.

Section props.
Context {U W : Type} `{F : Fifo (op U)}.
Context (NDEBUG : bool) (self : N) (eff : U → W → W).

Definition set_wstate (f : W → W) (b : base U W) : base U W :=
  mkBase (queue b) (terminate_ b) (loopThread_ b) (finished b) (dones b) (notifyType b)
    (fds b) (f (wstate b)).

(** A user's operation acts on the rest of the program. *)
Definition user (u : U) : M (base U W) unit := modify (set_wstate (eff u)).

(** [event_base_loopexit] and [event_base_loop] act on libevent alone (the callbacks
    of the latter are in [Handlers.v]). *)
Definition loopexit : M (base U W) unit := mret tt.

(** What an operation does. *)
Fixpoint effect (o : op U) (b : base U W) : base U W :=
  match o with
  | UserOp u => set_wstate (eff u) b
  | Terminate => set_terminate true b
  | AndNotify o d => set_done d (effect o b)
  end.

Fixpoint terminates (o : op U) : bool :=
  match o with UserOp _ => false | Terminate => true | AndNotify o _ => terminates o end.

Lemma run_op_effect o b : run_op user loopexit o b = Done tt (effect o b).
Proof.
  revert b. induction o as [u| |o IH d]; intros b; [done|done|].
  cbn [run_op]. by rewrite (bind_done _ _ _ _ _ (IH b)).
Qed.

(** Effects do not look at the queue, and leave the loop's own state alone. *)
Record same_loop (b b' : base U W) : Prop := {
  same_thread : loopThread_ b' = loopThread_ b;
  same_finished : finished b' = finished b;
  same_type : notifyType b' = notifyType b;
}.

Lemma effect_facts o b :
  queue (effect o b) = queue b ∧ same_loop b (effect o b) ∧
  terminate_ (effect o b) = terminate_ b || terminates o ∧
  ∀ q, effect o (set_queue q b) = set_queue q (effect o b).
Proof.
  induction o as [u| |o IH d]; simpl.
  - by rewrite orb_false_r.
  - by rewrite orb_true_r.
  - destruct IH as (E1 & [] & E3 & E4). split_and!; [done|by split|done|].
    intros q. by rewrite E4.
Qed.

(** All of them, in order. *)
Definition effects (os : list (op U)) (b : base U W) : base U W := foldl (λ b o, effect o b) b os.

Lemma effects_facts os b :
  queue (effects os b) = queue b ∧ same_loop b (effects os b) ∧
  terminate_ (effects os b) = terminate_ b || existsb terminates os ∧
  ∀ q, effects os (set_queue q b) = set_queue q (effects os b).
Proof.
  unfold effects. revert b. induction os as [|o os IH]; intros b; simpl.
  { by rewrite orb_false_r. }
  destruct (IH (effect o b)) as (E1 & [] & E3 & E4), (effect_facts o b) as (D1 & [] & D3 & D4).
  split_and!; [congruence|split; congruence| |].
  - by rewrite E3, D3, orb_assoc.
  - intros q. by rewrite D4, E4.
Qed.

(** ** [runOpsInQueue] *)

Lemma wp_on_queue {A} (m : M fifo A) b (Q : A → base U W → Prop) :
  wp m (queue b) (λ a q, Q a (set_queue q b)) → wp (on_queue m) b Q.
Proof. unfold wp, on_queue, zoom. by destruct (m (queue b)). Qed.

Lemma runOps_ok fuel b xs :
  fifo_holds (queue b) xs → (length xs < fuel)%nat →
  wp (runOpsInQueue user loopexit fuel) b (λ _ b', ∃ q,
    b' = set_queue q (effects xs b) ∧ fifo_holds q []).
Proof.
  unfold runOpsInQueue. revert b xs. induction fuel as [|fuel IH]; intros b xs Hq Hf; [lia|].
  apply wp_loop_S. unfold run_turn. wp_step. apply wp_on_queue.
  eapply wp_mono; [by apply fifo_pop_ok|]. intros r q (-> & Hq').
  destruct xs as [|o xs]; simpl in *.
  - wp_step. exists q. done.
  - wp_step. eapply wp_done; [apply run_op_effect|]. wp_step.
    destruct (effect_facts o (set_queue q b)) as (E1 & _).
    eapply wp_mono; [apply (IH _ xs); [by rewrite E1|lia]|].
    intros ? b' (q' & -> & Hq''). exists q'. split; [|done].
    destruct (effect_facts o b) as (_ & _ & _ & ->).
    unfold effects. simpl. fold (effects xs (set_queue q (effect o b))).
    destruct (effects_facts xs (effect o b)) as (_ & _ & _ & ->). done.
Qed.


(** ** Notifications *)

(** A read or a write on a descriptor: its result, and what it does to the rest of
    the program. *)
Definition xio (r : Z → Z → W → Z * W) (fd n : Z) : M (base U W) Z :=
  b ← get;
  put (set_wstate (λ w, (r fd n w).2) b);; mret (r fd n (wstate b)).1.

Lemma xio_done r fd n b :
  xio r fd n b = Done (r fd n (wstate b)).1 (set_wstate (λ w, (r fd n w).2) b).
Proof. done. Qed.

(** On the loop's thread, or when no loop runs. *)
Definition here (b : base U W) : Prop := loopThread_ b = 0%N ∨ loopThread_ b = self.

Lemma inLoopThread_here b : inLoopThread self b = Done (bool_decide (here b)) b.
Proof.
  unfold inLoopThread, here. unfold gets, mbind, M_bind, mret, M_ret. f_equal.
  rewrite <- bool_decide_or. done.
Qed.

Section channel.
Context (rd wr : Z → Z → W → Z * W).

Abbreviation run_on_loop := (runOnEventLoop NDEBUG self user loopexit (xio wr)).
Abbreviation run_and_wait := (runOnEventLoopAndWait NDEBUG self user loopexit (xio wr)).

(** The write that wakes the loop up. *)
Definition kick (b : base U W) : Z * W := wr (fds b).2 1 (wstate b).

Lemma signal_done b :
  notifyType b ≠ EVENTFD →
  signalNotifyQueue NDEBUG (xio wr) b =
    Done (negb ((kick b).1 <=? 0)) (set_wstate (λ _, (kick b).2) b).
Proof.
  intros Ht. unfold signalNotifyQueue, gets, mbind, M_bind. cbn.
  destruct (notifyType b) eqn:E; [done|done|done].
Qed.

(** Queuing an operation: the loop is woken up iff the queue was empty. *)
Definition queued (o : op U) (xs : list (op U)) (b : base U W) (r : bool) (b' : base U W) : Prop :=
  ∃ q, fifo_holds q (xs ++ [o]) ∧
    if bool_decide (xs = [])
    then r = negb ((kick b).1 <=? 0) ∧ b' = set_wstate (λ _, (kick b).2) (set_queue q b)
    else r = true ∧ b' = set_queue q b.

Lemma queued_queue o xs b r b' : queued o xs b r b' → fifo_holds (queue b') (xs ++ [o]).
Proof. intros (q & Hq & H). case_bool_decide; destruct H as [_ ->]; exact Hq. Qed.

Lemma queued_loop o xs b r b' :
  queued o xs b r b' → same_loop b b' ∧ terminate_ b' = terminate_ b ∧ dones b' = dones b.
Proof. intros (q & Hq & H). by case_bool_decide; destruct H as [_ ->]. Qed.

Lemma run_here o b : here b → run_on_loop o false b = Done true (effect o b).
Proof.
  intros Hh. unfold runOnEventLoop. rewrite (bind_done _ _ _ _ _ (inLoopThread_here b)).
  rewrite bool_decide_true by done. cbn [negb andb].
  by rewrite (bind_done _ _ _ _ _ (run_op_effect o b)).
Qed.

Lemma run_queued o defer b xs :
  fifo_holds (queue b) xs → notifyType b ≠ EVENTFD → (defer = true ∨ ¬ here b) →
  wp (run_on_loop o defer) b (queued o xs b).
Proof.
  intros Hq Ht Hd. unfold runOnEventLoop. apply wp_bind.
  eapply wp_done; [apply inLoopThread_here|].
  assert (negb defer && bool_decide (here b) = false) as ->.
  { destruct Hd as [->|Hd]; [done|]. by rewrite bool_decide_false, andb_false_r by done. }
  wp_step. apply wp_on_queue. eapply wp_mono; [by apply fifo_push_ok|].
  intros r q (-> & Hq'). case_bool_decide as E.
  - eapply wp_done; [by apply signal_done|]. exists q. split; [done|].
    by rewrite bool_decide_true by done.
  - wp_step. exists q. split; [done|]. by rewrite bool_decide_false by done.
Qed.

(** ** Properties of the notification channel *)

(** C27: when a notification arrives, every operation that is queued runs, once, in
    the order they were queued, however many notifications the one read consumed;
    the queue is then empty.  When the read fails nothing runs and nothing is lost.
    Events other than READ are ignored.  More fuel than operations is enough. *)
Theorem notified_runs_all fuel b xs :
  fifo_holds (queue b) xs → (length xs < fuel)%nat →
  let ready := NotifyHandler_ready user loopexit (xio rd) fuel in
  let n := (rd (fds b).1 8 (wstate b)).1 in
  let read_b := set_wstate (λ w, (rd (fds b).1 8 w).2) b in
  (0 < n → ∃ q, fifo_holds q [] ∧ ready READ b = Done tt (set_queue q (effects xs read_b))) ∧
  (n ≤ 0 → ready READ b = Done tt read_b) ∧
  ∀ event, event ≠ READ → ready event b = Done tt b.
Proof.
  intros Hq Hf ready n read_b.
  assert (E : consumeNotification (xio rd) b = Done (negb (n <=? 0)) read_b).
  { unfold consumeNotification, gets, mbind, M_bind. cbn. by destruct (notifyType b). }
  unfold ready, NotifyHandler_ready, receiveNotifications. split_and!.
  - intros Hn. rewrite (bind_done _ _ _ _ _ E). assert ((n <=? 0) = false) as -> by lia.
    pose proof (runOps_ok fuel read_b xs Hq Hf) as Hr.
    apply wp_iff in Hr as ([] & b' & E' & q & -> & Hq'). by exists q.
  - intros Hn. rewrite (bind_done _ _ _ _ _ E). by assert ((n <=? 0) = true) as -> by lia.
  - by intros [].
Qed.

(** An operation that is not deferred runs at once, exactly once, on the loop's
    thread and when no loop is running.  In every other case it is queued behind the
    others; the loop is woken up iff the queue was empty; and the result is false iff
    that wake-up failed, though the operation then stays queued all the same. *)
Theorem runOnEventLoop_runs o defer b xs :
  fifo_holds (queue b) xs → notifyType b ≠ EVENTFD →
  (defer = false → here b → run_on_loop o defer b = Done true (effect o b)) ∧
  (defer = true ∨ ¬ here b →
    ∃ q r, fifo_holds q (xs ++ [o]) ∧
    run_on_loop o defer b = Done r
      (if bool_decide (xs = []) then set_wstate (λ _, (kick b).2) (set_queue q b)
       else set_queue q b) ∧
    (r = false ↔ xs = [] ∧ (kick b).1 ≤ 0)).
Proof.
  intros Hq Ht. split; [intros ->; apply run_here|]. intros Hd.
  pose proof (run_queued o defer b xs Hq Ht Hd) as Hr.
  apply wp_iff in Hr as (r & b' & E & q & Hq' & H). exists q, r. split; [done|].
  case_bool_decide; destruct H as [-> ->]; (split; [done|]); [|naive_solver].
  rewrite negb_false_iff, Z.leb_le. naive_solver.
Qed.

(** [runOnEventLoopAndWait] on the loop's thread runs the operation; deferred there
    it never returns, unless waking the loop up fails: then it returns false, and the
    operation, with its references to the caller's locals, stays queued.  From another
    thread, too, it returns false exactly in that case; otherwise it waits for the
    flag, which the loop sets when it has run the operation. *)
Theorem runOnEventLoopAndWait_waits d o defer b xs :
  fifo_holds (queue b) xs → notifyType b ≠ EVENTFD → d ∉ dones b →
  (defer = false → here b → run_and_wait d o defer b = Done true (effect o b)) ∧
  (defer = true ∨ ¬ here b →
    run_on_loop (AndNotify o d) defer b = run_on_loop (AndNotify o d) true b ∧
    ∃ r b1, run_on_loop (AndNotify o d) true b = Done r b1 ∧
      fifo_holds (queue b1) (xs ++ [AndNotify o d]) ∧
      run_and_wait d o defer b = (if r then Diverges else Done false b1) ∧
      ∀ fuel, (length xs + 1 < fuel)%nat →
        wp (runOpsInQueue user loopexit fuel) b1 (λ _ b2,
          d ∈ dones b2 ∧ wstate b2 = wstate (effects (xs ++ [o]) b1))).
Proof.
  intros Hq Ht Hd. split.
  - intros -> Hh. unfold runOnEventLoopAndWait. rewrite (bind_done _ _ _ _ _ (inLoopThread_here b)).
    rewrite bool_decide_true by done. cbn [negb andb].
    by rewrite (bind_done _ _ _ _ _ (run_op_effect o b)).
  - intros Hc.
    assert (Hn : negb defer && bool_decide (here b) = false).
    { destruct Hc as [->|Hc]; [done|]. by rewrite bool_decide_false, andb_false_r by done. }
    assert (E0 : run_on_loop (AndNotify o d) defer b = run_on_loop (AndNotify o d) true b).
    { unfold runOnEventLoop. by rewrite !(bind_done _ _ _ _ _ (inLoopThread_here b)), Hn. }
    split; [done|].
    pose proof (run_queued (AndNotify o d) true b xs Hq Ht (or_introl eq_refl)) as Hr.
    apply wp_iff in Hr as (r & b1 & E & Hb1). exists r, b1. split; [done|].
    destruct (queued_loop _ _ _ _ _ Hb1) as (_ & _ & Ed).
    apply queued_queue in Hb1. split; [done|]. split.
    + unfold runOnEventLoopAndWait. rewrite (bind_done _ _ _ _ _ (inLoopThread_here b)), Hn.
      rewrite (bind_done _ _ _ _ _ (eq_trans E0 E)). destruct r; [|done]. cbn [negb].
      unfold wait, get, mbind, M_bind. by rewrite Ed, bool_decide_false by done.
    + intros fuel Hf. eapply wp_mono; [apply (runOps_ok _ _ _ Hb1); rewrite length_app; simpl; lia|].
      intros ? b2 (q & -> & _). unfold effects. rewrite !foldl_app. simpl. set_solver.
Qed.

End channel.

(** ** [loop] *)

Context (event_base_loop : M (base U W) Z) (timer_add timer_del : M (base U W) Z).
(** The timer of a FOREVER loop can be added and removed. *)
Context (add_external : ∀ b, timer_add b = Done 0 b) (del_external : ∀ b, timer_del b = Done 0 b).

Abbreviation the_loop :=
  (loop NDEBUG self user event_base_loop loopexit timer_add timer_del).
Abbreviation turn fuel mode := (loop_turn user event_base_loop loopexit fuel mode).

(** The rest of a turn, once the operations have run. *)
Definition after_ops (mode : LoopMode) : M (base U W) (unit + unit) :=
  rc ← event_base_loop;
  if bool_decide (mode = ONCE) then mret (inr tt)
  else if bool_decide (mode = UNTIL_EMPTY) && (rc =? 1) then mret (inr tt)
  else
    t ← gets terminate_;
    mret (if (t : bool) then inr tt else inl tt).

Lemma turn_ok fuel mode b xs :
  fifo_holds (queue b) xs → (length xs < fuel)%nat →
  ∃ q, fifo_holds q [] ∧ turn fuel mode tt b = after_ops mode (set_queue q (effects xs b)).
Proof.
  intros Hq Hf. pose proof (runOps_ok fuel b xs Hq Hf) as Hr.
  apply wp_iff in Hr as ([] & b' & E & q & -> & Hq').
  exists q. split; [done|]. unfold loop_turn. by rewrite (bind_done _ _ _ _ _ E).
Qed.

(** The last turn: ONCE, an empty UNTIL_EMPTY loop, or [terminate_]. *)
Definition leaves (mode : LoopMode) (rc : Z) (b : base U W) : Prop :=
  mode = ONCE ∨ (mode = UNTIL_EMPTY ∧ rc = 1) ∨ terminate_ b = true.

Lemma after_ops_done mode b rc b' :
  event_base_loop b = Done rc b' →
  after_ops mode b = Done (if decide (leaves mode rc b') then inr tt else inl tt) b'.
Proof.
  intros E. unfold after_ops. rewrite (bind_done _ _ _ _ _ E).
  destruct (decide (leaves mode rc b')) as [H|H]; unfold leaves in H.
  - destruct (decide (mode = ONCE)) as [->|H1]; [done|].
    rewrite bool_decide_false by done.
    destruct (bool_decide (mode = UNTIL_EMPTY) && (rc =? 1)) eqn:E2; [done|].
    unfold gets, mbind, M_bind. destruct H as [?|[[-> ->]| ->]]; done.
  - rewrite bool_decide_false by tauto.
    destruct (bool_decide (mode = UNTIL_EMPTY) && (rc =? 1)) eqn:E2.
    { apply andb_prop in E2 as [E2 ?]. apply bool_decide_eq_true in E2. destruct H. right. left. split; [done|]. by apply Z.eqb_eq. }
    unfold gets, mbind, M_bind. destruct (terminate_ b'); [tauto|done].
Qed.

(** How [loop] begins and ends. *)
Definition started (b : base U W) : base U W := set_finished false (set_thread self b).
Definition ended (b : base U W) : base U W :=
  set_finished true (set_thread 0%N (set_terminate false b)).

(** [loop] from its first turn on. *)
Definition turns_and_end (turns fuel : nat) (mode : LoopMode) : M (base U W) unit :=
  Prelude.loop turns (turn fuel mode) tt;;
  when (bool_decide (mode = FOREVER)) (rc ← timer_del; when (rc =? -1) (assert_false NDEBUG));;
  modify (set_terminate false);; modify (set_thread 0%N);; modify (set_finished true).

Lemma loop_start turns fuel mode b :
  the_loop turns fuel mode b = turns_and_end turns fuel mode (started b).
Proof.
  unfold loop, turns_and_end. do 2 (erewrite bind_done; [|reflexivity]).
  rewrite (bind_done _ _ _ tt (started b)); [done|]. destruct mode; [done|done|].
  rewrite bool_decide_true by done. unfold when.
  by rewrite (bind_done _ _ _ _ _ (add_external (started b))).
Qed.

Lemma end_done turns fuel mode b b' :
  Prelude.loop turns (turn fuel mode) tt b = Done tt b' →
  turns_and_end turns fuel mode b = Done tt (ended b').
Proof.
  intros E. unfold turns_and_end. rewrite (bind_done _ _ _ _ _ E).
  unfold mbind at 1, M_bind at 1.
  assert (when (bool_decide (mode = FOREVER))
    (rc ← timer_del; when (rc =? -1) (assert_false NDEBUG)) b' = Done tt b') as ->; [|done].
  destruct mode; [done|done|]. rewrite bool_decide_true by done. unfold when at 1.
  by rewrite (bind_done _ _ _ _ _ (del_external b')).
Qed.

(** A turn that is the last one. *)
Lemma last_turn turns fuel mode b xs :
  fifo_holds (queue b) xs → (length xs < fuel)%nat →
  (∀ q, fifo_holds q [] → wp event_base_loop (set_queue q (effects xs b)) (leaves mode)) →
  ∃ q rc b1, fifo_holds q [] ∧ event_base_loop (set_queue q (effects xs b)) = Done rc b1 ∧
    turns_and_end (S turns) fuel mode b = Done tt (ended b1).
Proof.
  intros Hq Hf Hl. destruct (turn_ok fuel mode b xs Hq Hf) as (q & Hq' & E).
  specialize (Hl q Hq'). apply wp_iff in Hl as (rc & b1 & E1 & Hl).
  exists q, rc, b1. split; [done|]. split; [done|]. apply end_done.
  rewrite (after_ops_done _ _ _ _ E1), decide_True in E by done.
  by rewrite loop_S, (bind_done _ _ _ _ _ E).
Qed.

(** ** Properties of the loop *)

(** C26: a loop runs everything that was queued and one turn of libevent, and leaves
    when its mode says so, or when [terminate_] is set (before, by an operation that
    was queued, or by a callback): then [terminate_] is reset, no thread is the loop's
    and the threads that wait for the end go on. *)
Theorem loop_ends turns fuel mode b xs :
  fifo_holds (queue b) xs → (length xs < fuel)%nat →
  (∀ b1, wp event_base_loop b1 (λ rc b2,
    (terminate_ b1 = true → terminate_ b2 = true) ∧ (mode = UNTIL_EMPTY → rc = 1))) →
  (mode ≠ FOREVER ∨ terminate_ b = true ∨ existsb terminates xs = true) →
  ∃ q rc b1, fifo_holds q [] ∧
    event_base_loop (set_queue q (effects xs (started b))) = Done rc b1 ∧
    the_loop (S turns) fuel mode b = Done tt (ended b1).
Proof.
  intros Hq Hf Hl Hm. rewrite loop_start. apply (last_turn turns fuel mode (started b)); [done..|].
  intros q _. eapply wp_mono; [apply Hl|]. intros rc b2 [Ht Hrc]. unfold leaves.
  destruct (effects_facts xs (started b)) as (_ & _ & Et & _).
  destruct mode; [by left|by right; left; auto|].
  right. right. apply Ht. change (terminate_ (effects xs (started b)) = true).
  rewrite Et. destruct Hm as [?|[Hm|Hm]]; [done| |]; cbn; rewrite Hm; [done|apply orb_true_r].
Qed.

(** A FOREVER loop goes on as long as nothing asks it to end, and so does an
    UNTIL_EMPTY loop as long as libevent has events registered: no number of turns is
    enough. *)
Theorem loop_goes_on turns fuel mode b :
  let tame (b : base U W) := terminate_ b = false ∧
    ∃ xs, fifo_holds (queue b) xs ∧ existsb terminates xs = false ∧ (length xs < fuel)%nat in
  tame b → mode ≠ ONCE →
  (∀ b, tame b → wp event_base_loop b (λ rc b', tame b' ∧ (mode = UNTIL_EMPTY → rc ≠ 1))) →
  the_loop turns fuel mode b = Diverges.
Proof.
  intros tame Hb Hm Hl. rewrite loop_start. assert (Hs : tame (started b)) by exact Hb.
  revert Hs. generalize (started b). clear b Hb. intros b Hb.
  unfold turns_and_end. unfold mbind at 1, M_bind at 1.
  assert (Prelude.loop turns (turn fuel mode) tt b = Diverges) as ->; [|done].
  revert b Hb. induction turns as [|turns IH]; intros b Hb; [done|].
  pose proof Hb as (Ht & xs & Hq & Hx & Hf).
  destruct (turn_ok fuel mode b xs Hq Hf) as (q & Hq' & E).
  destruct (effects_facts xs b) as (_ & _ & Et & _).
  assert (Hb1 : tame (set_queue q (effects xs b))).
  { split; [cbn; by rewrite Et, Ht, Hx|]. exists []. split; [done|]. split; [done|]. simpl. lia. }
  specialize (Hl _ Hb1). apply wp_iff in Hl as (rc & b2 & E2 & Hb2 & Hrc).
  rewrite (after_ops_done _ _ _ _ E2), decide_False in E.
  - rewrite loop_S, (bind_done _ _ _ _ _ E). by apply IH.
  - unfold leaves. destruct Hb2. naive_solver congruence.
Qed.

(** When libevent may fail to return (a handler throws, or is undefined), a FOREVER loop that
    nothing asks to end still does not return: it goes on, or ends as libevent did. *)
Theorem loop_ends_as_libevent turns fuel b :
  let tame (b : base U W) := terminate_ b = false ∧
    ∃ xs, fifo_holds (queue b) xs ∧ existsb terminates xs = false ∧ (length xs < fuel)%nat in
  tame b → (∀ b rc b', tame b → event_base_loop b = Done rc b' → tame b') →
  match the_loop turns fuel FOREVER b with
  | Done _ _ => False
  | Throws e b' => ∃ b0, tame b0 ∧ event_base_loop b0 = Throws e b'
  | Faults f => ∃ b0, tame b0 ∧ event_base_loop b0 = Faults f
  | Diverges => True
  end.
Proof.
  intros tame Hb Hl. rewrite loop_start. assert (Hs : tame (started b)) by exact Hb.
  revert Hs. generalize (started b). clear b Hb. intros b Hb. unfold turns_and_end.
  revert b Hb. induction turns as [|turns IH]; intros b Hb; [done|].
  pose proof Hb as (Ht & xs & Hq & Hx & Hf).
  destruct (turn_ok fuel FOREVER b xs Hq Hf) as (q & Hq' & E).
  destruct (effects_facts xs b) as (_ & _ & Et & _).
  assert (Hb1 : tame (set_queue q (effects xs b))).
  { split; [cbn; by rewrite Et, Ht, Hx|]. exists []. split; [done|]. split; [done|]. simpl. lia. }
  rewrite loop_S, bind_bind. destruct (event_base_loop (set_queue q (effects xs b))) as [rc b2|e b2|f|] eqn:El.
  - assert (Hb2 : tame b2) by by eapply Hl. rewrite (after_ops_done _ _ _ _ El), decide_False in E.
    + rewrite (bind_done _ _ _ _ _ E). by apply IH.
    + intros [?|[[? _]|Hterm]]; [done..|]. destruct Hb2. congruence.
  - rewrite (bind_throws _ _ _ e b2) by (rewrite E; by apply bind_throws). by eexists.
  - rewrite (bind_faults _ _ _ f) by (rewrite E; by apply bind_faults). by eexists.
  - by rewrite (bind_diverges _ _ _) by (rewrite E; by apply bind_diverges).
Qed.

(** [stop] sets [terminate_] and waits for a loop to end.  On the loop's own thread,
    or with no loop that has ended since, it never returns.  From another thread it
    queues the request, behind the operations that are queued; the loop runs those
    and ends in the turn it is in, which lets [stop] return. *)
Theorem stop_stops wr b xs :
  let run_on_loop := runOnEventLoop NDEBUG self user loopexit (xio wr) in
  let the_stop := stop NDEBUG self user loopexit (xio wr) in
  fifo_holds (queue b) xs → notifyType b ≠ EVENTFD →
  (here b → the_stop b =
    if finished b then Done tt (set_terminate true b) else Diverges) ∧
  (¬ here b → ∃ r b1, run_on_loop Terminate false b = Done r b1 ∧
    the_stop b = (if finished b then Done tt b1 else Diverges) ∧
    ∀ turns fuel mode,
      (length xs + 1 < fuel)%nat →
      (∀ b2, wp event_base_loop b2 (λ rc b3, terminate_ b2 = true → terminate_ b3 = true)) →
      wp (turns_and_end (S turns) fuel mode) b1 (λ _ b2,
        terminate_ b2 = false ∧ loopThread_ b2 = 0%N ∧ finished b2 = true ∧
        wait finished b2 = Done tt b2)).
Proof.
  intros run_on_loop the_stop Hq Ht. split.
  - intros Hh. unfold the_stop, stop. rewrite (bind_done _ _ _ _ _ (run_here wr Terminate b Hh)).
    unfold wait, get, mbind, M_bind. cbn. by destruct (finished b).
  - intros Hh. pose proof (run_queued wr Terminate false b xs Hq Ht (or_intror Hh)) as Hr.
    apply wp_iff in Hr as (r & b1 & E & Hb1). exists r, b1. split; [done|]. split.
    { unfold the_stop, stop. rewrite (bind_done _ _ _ _ _ E). unfold wait, get, mbind, M_bind.
      destruct (queued_loop _ _ _ _ _ _ Hb1) as ([_ Hfin _] & _). rewrite Hfin.
      by destruct (finished b). }
    intros turns fuel mode Hf Hl. apply (queued_queue wr) in Hb1.
    destruct (last_turn turns fuel mode b1 _ Hb1) as (q & rc & b2 & _ & _ & E2).
    + rewrite length_app. simpl. lia.
    + intros q _. eapply wp_mono; [apply Hl|]. intros rc b2 Hb2. right. right. apply Hb2.
      cbn. destruct (effects_facts (xs ++ [Terminate]) b1) as (_ & _ & -> & _).
      rewrite existsb_app. simpl. by rewrite !orb_true_r.
    + eapply wp_done; [exact E2|]. done.
Qed.
End props.

(** ** Witnesses

    Operations are numbers, which they add to a log; the queue is that of [Mpsc.v]
    where it is empty, the list otherwise.  Every write and read works. *)

Definition log_op (u : N) (w : list N) : list N := w ++ [u].
Definition io (fd n : Z) (w : list N) : Z * list N := (n, w).

Section witnesses.
#[local] Instance the_list : Fifo (op N) := list_fifo (op N).
Definition libevent_turn : M (base N (list N)) Z := mret 1.
Definition timer : M (base N (list N)) Z := mret 0.

(** A base whose loop runs on the thread [t]. *)
Definition base_of (q : list (op N)) (t : N) : base N (list N) :=
  mkBase (q : fifo) false t false ∅ PIPE (3, 4) [].

Definition two : list (op N) := [UserOp 1%N; AndNotify (UserOp 2%N) 7%N].

Example notified_runs_all_witness :
  NotifyHandler_ready (user log_op) loopexit (xio io) 5 READ (base_of two 1) =
    Done tt (mkBase [] false 1%N false {[7%N]} PIPE (3, 4) [1%N; 2%N]).
Proof.
  destruct (notified_runs_all log_op io 5 (base_of two 1) two) as [Hr _]; [done|simpl; lia|].
  destruct Hr as (q & -> & E); [done|exact E].
Defined.

Example runOnEventLoop_runs_witness :
  runOnEventLoop false 2 (user log_op) loopexit (xio io) (UserOp 3%N) true (base_of two 2) =
    Done true (base_of (two ++ [UserOp 3%N]) 2).
Proof.
  destruct (runOnEventLoop_runs false 2 log_op io (UserOp 3%N) true (base_of two 2) two)
    as [_ Hr]; [done..|]. destruct Hr as (q & r & Hq & E & Hf); [by left|].
  change (q = two ++ [UserOp 3%N]) in Hq. rewrite Hq in E.
  destruct r; [exact E|]. by destruct (proj1 Hf eq_refl).
Defined.

Example runOnEventLoopAndWait_waits_witness :
  runOnEventLoopAndWait false 2 (user log_op) loopexit (xio io) 8 (UserOp 3%N) true (base_of two 2)
    = Diverges.
Proof.
  destruct (runOnEventLoopAndWait_waits false 2 log_op io 8%N (UserOp 3%N) true (base_of two 2) two)
    as [_ Hr]; [done..|]. destruct Hr as (_ & r & b1 & E & _ & E2 & _); [by left|].
  destruct r; [exact E2|]. by vm_compute in E.
Defined.

Example loop_ends_witness :
  loop false 1 (user log_op) libevent_turn loopexit timer timer 1 9 FOREVER
    (base_of (two ++ [Terminate]) 0) =
    Done tt (mkBase [] false 0%N true {[7%N]} PIPE (3, 4) [1%N; 2%N]).
Proof.
  destruct (loop_ends false 1 log_op libevent_turn timer timer (λ _, eq_refl) (λ _, eq_refl)
    0 9 FOREVER (base_of (two ++ [Terminate]) 0) (two ++ [Terminate]))
    as (q & rc & b1 & -> & E1 & E2); [done|simpl; lia|done|by right; right|].
  cbv in E1. injection E1 as _ <-. exact E2.
Defined.

Example loop_goes_on_witness :
  loop false 1 (user log_op) libevent_turn loopexit timer timer 100 9 FOREVER (base_of two 0)
    = Diverges.
Proof.
  apply (loop_goes_on false 1 log_op libevent_turn timer timer (λ _, eq_refl)); [|done|done].
  split; [done|]. exists two. split; [done|]. split; [done|]. simpl. lia.
Defined.
End witnesses.

(** With the concurrent queue: [stop] from the thread 2 while the loop runs on 1. *)
Section stop_witness.
#[local] Instance the_mpsc : Fifo (op N) := mpsc_fifo_queue (Terminate (U := N)).
Definition b0 : base N (list N) :=
  mkBase (Mpsc.ConcurrentMPSCQueue (Terminate (U := N)) 1%N) false 1%N false ∅ PIPE (3, 4) [].

Example stop_stops_witness :
  stop false 1 (user log_op) loopexit (xio io) b0 = Diverges ∧
  ∃ r b1, runOnEventLoop false 2 (user log_op) loopexit (xio io) Terminate false b0 = Done r b1 ∧
    wp (turns_and_end false log_op (mret 1) (mret 0) 1 5 FOREVER) b1 (λ _ b2, finished b2 = true).
Proof.
  assert (Hq : fifo_holds (queue b0) []) by apply mpsc_new_holds. split.
  - destruct (stop_stops false 1 log_op (mret 1) (mret 0) (λ _, eq_refl) io b0 [] Hq) as [-> _];
      [done|done|by right].
  - destruct (stop_stops false 2 log_op (mret 1) (mret 0) (λ _, eq_refl) io b0 [] Hq) as [_ Hs];
      [done|]. destruct Hs as (r & b1 & E & _ & Hs); [by intros []|].
    exists r, b1. split; [exact E|].
    eapply wp_mono; [refine (Hs 0%nat 5%nat FOREVER _ _); [simpl; lia|by intros b2; apply wp_ret]|].
    by intros ? b2 (_ & _ & ? & _).
Defined.
End stop_witness.
