(* ===== verification/Await.v ===== *)
(** * Waiting for the loop's thread

    [runOnEventLoopAndWait] ([src/libevent_event_base.cc]) called by any number of
    threads, against the thread of the loop that runs what they queue.  A call has [done],
    [mutex] and [cv] on its stack; the closure that it queues refers to them, sets [done]
    and notifies with the mutex held.  The frame is gone when the call returns, and an
    access to it by the closure is then undefined.

    Every access is a step, in any order.  The queue is a list here, and the loop's thread
    wakes up when it should: that is the matter of [Wakeup.v], and [AwaitQueue.v] shows that
    the real queue makes no difference.  A condition variable wakes up its
    waiter when it is notified, and may at any other time. *)

From S2P Require Import Prelude.

(** Who holds the mutex of a frame. *)
Inductive holder := Caller | Loop.
Record frame := mkFrame { done_ : bool; mutex : option holder }.

(** Where a call is. *)
Inductive caller :=
| CPush          (** about to queue the closure *)
| CFail          (** the wake-up failed: about to return false *)
| CLock          (** about to take the mutex, at first or after a wait *)
| CHold          (** holds it, about to look at [done] *)
| CWait          (** in [cv.wait], without the mutex *)
| CUnlock        (** [done] was set: about to give the mutex back *)
| CDestroy       (** about to leave its frame *)
| CRet (r : bool).

(** Where the loop's thread is in the closure of a call. *)
Inductive runner :=
| LIdle
| LOp (i : nat)        (** [op()] *)
| LLock (i : nat)
| LSet (i : nat)       (** [done = true] *)
| LNotify (i : nat)
| LUnlock (i : nat).

Record world := mkW {
  callers : gmap nat caller;
  frames : gmap nat frame;
  queue : list nat;              (** the calls whose closures are queued *)
  runs : runner;
  (* auxiliary: the calls whose operations were run; whether a wake-up failed *)
  ran : list nat;
  failed : bool;
}.
Definition init : world := mkW ∅ ∅ [] LIdle [] false.

Definition set_caller (i : nat) (c : caller) (w : world) : world :=
  mkW (<[i := c]> (callers w)) (frames w) (queue w) (runs w) (ran w) (failed w).
Definition set_frames f (w : world) : world :=
  mkW (callers w) (f (frames w)) (queue w) (runs w) (ran w) (failed w).
Definition set_runs r (w : world) : world :=
  mkW (callers w) (frames w) (queue w) r (ran w) (failed w).

(** ** The call *)

(** A call begins, with a frame of its own. *)
Definition call_begin (i : nat) (w : world) : option world :=
  match callers w !! i with
  | None => Some (set_caller i CPush (set_frames <[i := mkFrame false None]> w))
  | Some _ => None
  end.

(** [runOnEventLoop] queues the closure; [ok]: no wake-up was needed, or it went well. *)
Definition call_push (i : nat) (ok : bool) (w : world) : option world :=
  match callers w !! i with
  | Some CPush =>
      Some (mkW (<[i := if ok then CLock else CFail]> (callers w)) (frames w) (queue w ++ [i])
        (runs w) (ran w) (failed w || negb ok))
  | _ => None
  end.

(** The rest of it, step by step; [None] while it has to wait. *)
Definition call_step (i : nat) (w : world) : option world :=
  match callers w !! i, frames w !! i with
  | Some CLock, Some (mkFrame d None) => Some (set_caller i CHold (set_frames <[i := mkFrame d (Some Caller)]> w))
  | Some CHold, Some (mkFrame true m) => Some (set_caller i CUnlock w)
  | Some CHold, Some (mkFrame false _) => Some (set_caller i CWait (set_frames <[i := mkFrame false None]> w))
  | Some CUnlock, Some (mkFrame d _) => Some (set_caller i CDestroy (set_frames <[i := mkFrame d None]> w))
  | Some CDestroy, _ => Some (set_caller i (CRet true) (set_frames (delete i) w))
  | Some CFail, _ => Some (set_caller i (CRet false) (set_frames (delete i) w))
  | _, _ => None
  end.

(** A wait ends although no one has notified. *)
Definition call_spurious (i : nat) (w : world) : option world :=
  match callers w !! i with Some CWait => Some (set_caller i CLock w) | _ => None end.

(** ** The closure *)

(** An access to the frame of a call. *)
Definition on_frame (i : nat) (k : frame → option world) (w : world) : option (outcome world unit) :=
  match frames w !! i with
  | Some f => Done tt <$> k f
  | None => Some (Faults UseAfterFree)
  end.

Definition loop_exec (w : world) : option (outcome world unit) :=
  match runs w with
  | LIdle =>
      match queue w with
      | i :: q => Some (Done tt (mkW (callers w) (frames w) q (LOp i) (ran w) (failed w)))
      | [] => None
      end
  | LOp i => Some (Done tt (mkW (callers w) (frames w) (queue w) (LLock i) (ran w ++ [i]) (failed w)))
  | LLock i =>
      on_frame i (λ f, match mutex f with
        | None => Some (set_runs (LSet i) (set_frames <[i := mkFrame (done_ f) (Some Loop)]> w))
        | Some _ => None end) w
  | LSet i => on_frame i (λ f, Some (set_runs (LNotify i) (set_frames <[i := mkFrame true (mutex f)]> w))) w
  | LNotify i =>
      on_frame i (λ _, Some (set_runs (LUnlock i)
        (match callers w !! i with Some CWait => set_caller i CLock w | _ => w end))) w
  | LUnlock i => on_frame i (λ f, Some (set_runs LIdle (set_frames <[i := mkFrame (done_ f) None]> w))) w
  end.

(** ** Interleavings *)

Definition call_moves (w w' : world) : Prop := ∃ i, call_step i w = Some w'.
Definition loop_moves (w w' : world) : Prop := loop_exec w = Some (Done tt w').
Definition step (w w' : world) : Prop :=
  (∃ i, call_begin i w = Some w') ∨ (∃ i ok, call_push i ok w = Some w') ∨ (∃ i, call_spurious i w = Some w') ∨
  call_moves w w' ∨ loop_moves w w'.

(** ** The invariant *)

(** Where the closure of a call is. *)
Inductive phase := Queued | Running (r : runner) | Elsewhere.
Definition runs_for (r : runner) : option nat :=
  match r with LIdle => None | LOp i | LLock i | LSet i | LNotify i | LUnlock i => Some i end.
Definition phase_of (w : world) (i : nat) : phase :=
  if decide (i ∈ queue w) then Queued
  else if decide (runs_for (runs w) = Some i) then Running (runs w) else Elsewhere.

(** [done] and the mutex, as the closure and the call have left them. *)
Definition frame_ok (ph : phase) (c : caller) (f : frame) (has_run : Prop) : Prop :=
  match ph with
  | Queued | Running (LOp _) =>
      done_ f = false ∧ mutex f = match c with CHold => Some Caller | _ => None end ∧
      match c with CLock | CHold | CWait => True | _ => False end
  | Running (LLock _) =>
      done_ f = false ∧ mutex f = match c with CHold => Some Caller | _ => None end ∧ has_run ∧
      match c with CLock | CHold | CWait => True | _ => False end
  | Running (LSet _) => done_ f = false ∧ mutex f = Some Loop ∧ has_run ∧ match c with CLock | CWait => True | _ => False end
  | Running (LNotify _) => done_ f = true ∧ mutex f = Some Loop ∧ has_run ∧ match c with CLock | CWait => True | _ => False end
  | Running (LUnlock _) => done_ f = true ∧ mutex f = Some Loop ∧ has_run ∧ c = CLock
  | Running LIdle => False
  | Elsewhere =>
      match c with
      | CPush => done_ f = false ∧ mutex f = None
      | CLock | CDestroy => done_ f = true ∧ mutex f = None ∧ has_run
      | CHold | CUnlock => done_ f = true ∧ mutex f = Some Caller ∧ has_run
      | _ => False
      end
  end.

Definition call_ok (w : world) (i : nat) : Prop :=
  match callers w !! i with
  | None => phase_of w i = Elsewhere ∧ frames w !! i = None
  | Some (CRet r) => r = true ∧ phase_of w i = Elsewhere ∧ frames w !! i = None ∧ i ∈ ran w
  | Some c => ∃ f, frames w !! i = Some f ∧ frame_ok (phase_of w i) c f (i ∈ ran w)
  end.

Record good (w : world) : Prop := {
  g_nodup : NoDup (queue w);
  g_runs i : runs_for (runs w) = Some i → i ∉ queue w;
  g_calls i : call_ok w i;
}.

Lemma call_ok_same w w' j : callers w' !! j = callers w !! j → frames w' !! j = frames w !! j →
  phase_of w' j = phase_of w j → (j ∈ ran w → j ∈ ran w') → (j ∈ ran w' → j ∈ ran w) →
  call_ok w j → call_ok w' j.
Proof.
  unfold call_ok. intros -> -> -> H1 H2. destruct (callers w !! j) as [c|]; [|done].
  assert (∀ ph c f, frame_ok ph c f (j ∈ ran w) → frame_ok ph c f (j ∈ ran w')) as Hf.
  { intros ph c' f. unfold frame_ok. repeat case_match; naive_solver. }
  destruct c; try (intros (f & ? & ?); exists f; by split; [|apply Hf]).
  naive_solver.
Qed.

Lemma set_caller_other w i c j : i ≠ j → callers (set_caller i c w) !! j = callers w !! j.
Proof. intros. simpl. by rewrite lookup_insert_ne. Qed.

(** Steps that leave the queue and the loop's thread alone are about one call. *)
Lemma good_local w w' i : good w →
  queue w' = queue w → runs w' = runs w → ran w' = ran w →
  (∀ j, i ≠ j → callers w' !! j = callers w !! j ∧ frames w' !! j = frames w !! j) →
  (call_ok w i → call_ok w' i) → good w'.
Proof.
  intros [Hn Hr Hc] Eq Er En Hj Hi. split; [by rewrite Eq|by rewrite Eq, Er|].
  intros j. destruct (decide (i = j)) as [<-|Hne]; [auto|]. destruct (Hj j Hne) as [E1 E2].
  apply (call_ok_same w w' j E1 E2); [by unfold phase_of; rewrite Eq, Er|by rewrite En..|done].
Qed.

Lemma await_begin_good i w w' : good w → call_begin i w = Some w' → good w'.
Proof.
  unfold call_begin. intros G E. destruct (callers w !! i) eqn:Hi; [done|]. injection E as <-.
  apply (good_local w _ i G); [done..| |].
  - intros j Hj. simpl. by rewrite !lookup_insert_ne.
  - unfold call_ok. rewrite Hi. simpl. rewrite !lookup_insert_eq. intros [Hp _].
    exists (mkFrame false None). split; [done|].
    change (phase_of (set_caller i CPush (set_frames <[i:=mkFrame false None]> w)) i) with (phase_of w i).
    by rewrite Hp.
Qed.

Lemma call_step_good i w w' : good w → call_step i w = Some w' → good w'.
Proof.
  unfold call_step. intros G E.
  pose proof (g_calls _ G i) as Hi. unfold call_ok in Hi.
  destruct (callers w !! i) as [c|] eqn:Ec; [|done].
  destruct c; try done; try (destruct Hi as (f & Ef & Hf); rewrite Ef in E; destruct f as [d m]);
    try (destruct m; [done|]); try (destruct d); try done; injection E as <-;
    (apply (good_local w _ i G); [done..|intros j Hj; simpl; by rewrite ?lookup_insert_ne, ?lookup_delete_ne|]);
    intros _; unfold call_ok; simpl; rewrite ?lookup_insert_eq, ?lookup_delete_eq;
    repeat match goal with |- context [phase_of ?w1 i] => lazymatch w1 with w => fail | _ => change (phase_of w1 i) with (phase_of w i) end end.
  all: try (eexists; split; [done|]).
  all: unfold frame_ok in *; destruct (phase_of w i) as [|[]|]; simpl in *; naive_solver.
Qed.

Lemma await_spurious_good i w w' : good w → call_spurious i w = Some w' → good w'.
Proof.
  unfold call_spurious. intros G E. pose proof (g_calls _ G i) as Hi. unfold call_ok in Hi.
  destruct (callers w !! i) as [[]|] eqn:Ec; try done. injection E as <-.
  apply (good_local w _ i G); [done..|intros j Hj; simpl; by rewrite lookup_insert_ne|].
  intros _. unfold call_ok. simpl. rewrite lookup_insert_eq.
  change (phase_of (set_caller i CLock w) i) with (phase_of w i).
  destruct Hi as (f & Ef & Hf). exists f. split; [done|].
  unfold frame_ok in *; destruct (phase_of w i) as [|[]|]; simpl in *; naive_solver.
Qed.

(** A call that still has to queue its closure. *)
Lemma push_elsewhere w i : good w → callers w !! i = Some CPush → phase_of w i = Elsewhere.
Proof.
  intros G Ec. pose proof (g_calls _ G i) as Hi. unfold call_ok in Hi. rewrite Ec in Hi.
  destruct Hi as (f & _ & Hf). destruct (phase_of w i) as [|[]|]; simpl in Hf; naive_solver.
Qed.

Lemma push_good i w w' : good w → call_push i true w = Some w' → good w'.
Proof.
  unfold call_push. intros G E. destruct (callers w !! i) as [[]|] eqn:Ec; try done. injection E as <-.
  pose proof (push_elsewhere w i G Ec) as Hp. pose proof (g_calls _ G i) as Hi.
  assert ((i ∉ queue w) ∧ runs_for (runs w) ≠ Some i) as [Hq Hr].
  { unfold phase_of in Hp. by repeat case_decide. }
  destruct G as [Hn Hrun Hc]. split; simpl.
  - apply NoDup_app. split_and!; [done| |apply NoDup_singleton]. set_solver.
  - intros j Hj. specialize (Hrun j Hj). apply not_elem_of_app. split; [done|].
    intros ->%list_elem_of_singleton. done.
  - intros j. destruct (decide (i = j)) as [<-|Hne].
    + unfold call_ok in *. rewrite Ec in Hi. simpl. rewrite lookup_insert_eq.
      destruct Hi as (f & Ef & Hf). exists f. split; [done|]. rewrite Hp in Hf.
      unfold phase_of. simpl. rewrite decide_True by set_solver. naive_solver.
    + apply (call_ok_same w); simpl; [by rewrite lookup_insert_ne|done| |done|done|apply Hc].
      assert (j ∈ (queue w ++ [i]) ↔ j ∈ queue w) as Hj by set_solver.
      unfold phase_of. simpl. by rewrite (decide_ext _ _ _ _ Hj).
Qed.

(** The loop's thread. *)
Lemma runs_phase w i : good w → runs_for (runs w) = Some i → phase_of w i = Running (runs w).
Proof.
  intros G Hr. unfold phase_of. rewrite decide_False by by apply G. by rewrite decide_True.
Qed.

(** An access of the closure of [i] to its frame. *)
Lemma good_runs w w' i r' : good w → runs_for (runs w) = Some i →
  queue w' = queue w → runs w' = r' → (r' = LIdle ∨ runs_for r' = Some i) →
  (∀ j, j ∈ ran w' ↔ j ∈ ran w ∨ j = i ∧ i ∈ ran w') →
  (∀ j, i ≠ j → callers w' !! j = callers w !! j ∧ frames w' !! j = frames w !! j) →
  (call_ok w i → phase_of w i = Running (runs w) →
   phase_of w' i = (match r' with LIdle => Elsewhere | _ => Running r' end) → call_ok w' i) → good w'.
Proof.
  intros G Hr Eq Er Hr' Hran Hj Hi. pose proof (runs_phase w i G Hr) as Hp.
  pose proof (g_runs _ G i Hr) as Hiq. destruct G as [Hn Hrun Hc]. split; [by rewrite Eq| |].
  - intros j. rewrite Er, Eq. destruct Hr' as [-> | ->]; [done|]. by intros [= <-].
  - intros j. destruct (decide (i = j)) as [<-|Hne].
    + apply Hi; [done..|]. unfold phase_of. rewrite Eq, Er, decide_False by done.
      destruct Hr' as [-> |Hr']; [done|]. rewrite decide_True by done. by destruct r'.
    + destruct (Hj j Hne) as [E1 E2]. apply (call_ok_same w w' j E1 E2); [|naive_solver|naive_solver|done].
      unfold phase_of. rewrite Eq, Er. case_decide; [done|]. rewrite Hr.
      rewrite (decide_False (P := Some i = Some j)) by congruence.
      rewrite decide_False; [done|]. destruct Hr' as [-> | ->]; [done|congruence].
Qed.

(** The frame that the closure is about to touch. *)
Lemma running_frame w i : good w → runs_for (runs w) = Some i → ∃ c f,
  callers w !! i = Some c ∧ frames w !! i = Some f ∧ frame_ok (Running (runs w)) c f (i ∈ ran w).
Proof.
  intros G Hr. pose proof (g_calls _ G i) as Hc. pose proof (runs_phase w i G Hr) as Hp.
  unfold call_ok in Hc. rewrite Hp in Hc. destruct (callers w !! i) as [c|]; [|naive_solver].
  exists c. destruct c; try (destruct Hc as (f & ? & ?); by exists f). naive_solver.
Qed.

Lemma await_loop_good w o : good w → loop_exec w = Some o → ∃ w', o = Done tt w' ∧ good w'.
Proof.
  intros G E. unfold loop_exec in E. destruct (runs w) as [|i|i|i|i|i] eqn:Er.
  - destruct (queue w) as [|i q] eqn:Eq; [done|]. injection E as <-. eexists. split; [done|].
    pose proof G as [Hn Hrun Hc]. rewrite Eq in Hn. apply NoDup_cons in Hn as [Hiq Hn].
    split; simpl; [done|by intros j [= <-]|]. intros j. specialize (Hc j). destruct (decide (i = j)) as [<-|Hne].
    + assert (phase_of w i = Queued) as Hp by (unfold phase_of; rewrite decide_True; [done|rewrite Eq; set_solver]).
      assert (phase_of (mkW (callers w) (frames w) q (LOp i) (ran w) (failed w)) i = Running (LOp i)) as Hp'.
      { unfold phase_of. simpl. by rewrite decide_False, decide_True by done. }
      unfold call_ok in *. rewrite Hp in Hc. rewrite Hp'. simpl in *. destruct (callers w !! i) as [[]|]; naive_solver.
    + apply (call_ok_same w); try done. unfold phase_of. simpl. rewrite Er, Eq. simpl.
      rewrite (decide_ext (j ∈ q) (j ∈ i :: q)) by set_solver. case_decide; [done|].
      by rewrite !decide_False by congruence.
  - injection E as <-. eexists. split; [done|].
    apply (good_runs w _ i (LLock i) G); [by rewrite Er|done|done|by right| |done|].
    + intros j. simpl. set_solver.
    + rewrite Er. unfold call_ok. simpl. intros Hc Hp Hp'. rewrite Hp in Hc. rewrite Hp'. clear -Hc.
      assert (i ∈ ran w ++ [i]) as Hin by set_solver.
      destruct (callers w !! i) as [[]|]; simpl in *; naive_solver.
  - destruct (running_frame w i G) as (c & [d m] & Ec & Ef & Hf); [by rewrite Er|]. unfold on_frame in E.
    rewrite Er in Hf. rewrite Ef in E. destruct m as [h|]; simpl in E; [done|]. injection E as <-.
    eexists. split; [done|].
    apply (good_runs w _ i (LSet i) G); [by rewrite Er|done|done|by right|simpl; naive_solver| |].
    + intros j Hj. simpl. by rewrite lookup_insert_ne.
    + unfold call_ok. intros _ _ Hp'. rewrite Hp'. simpl in *. rewrite lookup_insert_eq, Ec.
      destruct c; naive_solver.
  - destruct (running_frame w i G) as (c & [d m] & Ec & Ef & Hf); [by rewrite Er|]. unfold on_frame in E.
    rewrite Er in Hf. rewrite Ef in E. simpl in E. injection E as <-. eexists. split; [done|].
    apply (good_runs w _ i (LNotify i) G); [by rewrite Er|done|done|by right|simpl; naive_solver| |].
    + intros j Hj. simpl. by rewrite lookup_insert_ne.
    + unfold call_ok. intros _ _ Hp'. rewrite Hp'. simpl in *. rewrite lookup_insert_eq, Ec.
      destruct c; naive_solver.
  - destruct (running_frame w i G) as (c & [d m] & Ec & Ef & Hf); [by rewrite Er|]. unfold on_frame in E.
    rewrite Er in Hf. rewrite Ef in E. simpl in E. injection E as <-. eexists. split; [done|].
    apply (good_runs w _ i (LUnlock i) G); [by rewrite Er| | |by right| | |]; rewrite Ec.
    + by destruct c.
    + done.
    + by destruct c; simpl; naive_solver.
    + intros j Hj. destruct c; simpl; by rewrite ?lookup_insert_ne.
    + unfold call_ok. intros _ _ Hp'. rewrite Hp'. simpl in *. destruct c; simpl; rewrite ?lookup_insert_eq, ?Ec; naive_solver.
  - destruct (running_frame w i G) as (c & [d m] & Ec & Ef & Hf); [by rewrite Er|]. unfold on_frame in E.
    rewrite Er in Hf. rewrite Ef in E. simpl in E. injection E as <-. eexists. split; [done|].
    apply (good_runs w _ i LIdle G); [by rewrite Er|done|done|by left|simpl; naive_solver| |].
    + intros j Hj. simpl. by rewrite lookup_insert_ne.
    + unfold call_ok. intros _ _ Hp'. rewrite Hp'. simpl in *. rewrite lookup_insert_eq, Ec.
      destruct c; naive_solver.
Qed.

(** Every step keeps [failed], once it is set. *)
Lemma await_step_good w w' : (failed w = false → good w) → step w w' → failed w' = false → good w'.
Proof.
  intros IH Hs Hf. destruct Hs as [[i E]|[(i & ok & E)|[[i E]|[[i E]|E]]]].
  - eapply await_begin_good; [|exact E]. apply IH. unfold call_begin in E. case_match; [done|]. by injection E as <-.
  - assert (ok = true ∧ failed w = false) as [-> Hf'].
    { unfold call_push in E. destruct (callers w !! i) as [[]|]; try done. injection E as <-.
      simpl in Hf. destruct (failed w), ok; done. }
    eapply push_good; [by apply IH|exact E].
  - eapply await_spurious_good; [|exact E]. apply IH. unfold call_spurious in E.
    destruct (callers w !! i) as [[]|]; try done. by injection E as <-.
  - eapply call_step_good; [|exact E]. apply IH. unfold call_step in E.
    repeat (case_match; try done); by injection E as <-.
  - assert (failed w = failed w') as Ew.
    { unfold loop_moves, loop_exec, on_frame in E. repeat (case_match; try done); by injection E as <-. }
    destruct (await_loop_good w _ (IH ltac:(congruence)) E) as (w1 & [= <-] & G). done.
Qed.

Lemma await_init_good : good init.
Proof. split; [apply NoDup_nil_2|done|]. intros i. unfold call_ok. simpl. by rewrite lookup_empty. Qed.

Lemma await_reachable_good w : rtc step init w → failed w = false → good w.
Proof.
  intros R. apply (rtc_invariant step (λ w, failed w = false → good w) init w); [|exact R|intros _; apply await_init_good].
  intros a b Ha Hs. by apply (await_step_good a b).
Qed.

(** ** What is left to do *)

Definition caller_rank (c : caller) : nat :=
  match c with
  | CPush => 30 | CLock => 5 | CHold => 4 | CUnlock => 2 | CWait | CDestroy | CFail => 1 | CRet _ => 0
  end.
Definition runner_rank (r : runner) : nat :=
  match r with LIdle => 0 | LUnlock _ => 1 | LNotify _ => 7 | LSet _ => 8 | LLock _ => 9 | LOp _ => 10 end.
Abbreviation total := (msum caller_rank).
Definition work (w : world) : nat := total (callers w) + 20 * length (queue w) + runner_rank (runs w).

(** The threads go on, and the loop. *)
Definition moves (w w' : world) : Prop :=
  (∃ i, call_push i true w = Some w' ∨ call_step i w = Some w') ∨ loop_moves w w'.

Lemma moves_step w w' : moves w w' → step w w'.
Proof. unfold step, call_moves. intros [[i [E|E]]|E]; [right; left; by exists i, true|by eauto 10|by auto 10]. Qed.

Lemma await_moves_work w w' : moves w w' → (work w' < work w)%nat ∧ failed w' = failed w.
Proof.
  intros [[i [E|E]]|E].
  - unfold call_push in E. destruct (callers w !! i) as [[]|] eqn:Ei; try done. injection E as <-.
    pose proof (msum_update caller_rank _ i _ CLock Ei) as Ht. unfold work. simpl in *. rewrite length_app. simpl.
    split; [lia|by rewrite orb_false_r].
  - unfold call_step in E. destruct (callers w !! i) as [c|] eqn:Ei; [|done]. unfold work.
    repeat (case_match; try done); injection E as <-; (split; [|done]); simpl;
      match goal with |- (total (<[i := ?c']> _) + _ + _ < _)%nat => pose proof (msum_update caller_rank _ i _ c' Ei) as Ht end;
      simpl in Ht; lia.
  - unfold loop_moves, loop_exec, on_frame in E. unfold work.
    destruct (runs w) as [|i|i|i|i|i] eqn:Er.
    + destruct (queue w) as [|i q] eqn:Eq; [done|]. injection E as <-. simpl. split; [lia|done].
    + injection E as <-. simpl. split; [lia|done].
    + destruct (frames w !! i) as [f|]; [|done]. destruct (mutex f); [done|]. injection E as <-. simpl. split; [lia|done].
    + destruct (frames w !! i) as [f|]; [|done]. injection E as <-. simpl. split; [lia|done].
    + destruct (frames w !! i) as [f|]; [|done]. injection E as <-.
      destruct (callers w !! i) as [c|] eqn:Ei; [|simpl; split; [lia|done]].
      pose proof (msum_update caller_rank _ i _ CLock Ei) as Ht. destruct c; simpl in *; (split; [lia|done]).
    + destruct (frames w !! i) as [f|]; [|done]. injection E as <-. simpl. split; [lia|done].
Qed.

(** When no thread and not the loop can go on, nothing is left to be run. *)
Lemma await_rest_idle w : good w → (∀ w', ¬ moves w w') → runs w = LIdle ∧ queue w = [].
Proof.
  intros G Hn. destruct (loop_exec w) as [o|] eqn:El.
  - destruct (await_loop_good w o G El) as (w' & -> & _). destruct (Hn w'). by right.
  - unfold loop_exec in El. destruct (runs w) as [|i|i|i|i|i] eqn:Er;
      [by destruct (queue w)|done|..]; exfalso;
      (destruct (running_frame w i G) as (c & [d m] & Ec & Ef & Hf); [by rewrite Er|]);
      unfold on_frame in El; rewrite Ef in El; try done.
    destruct m as [h|]; [|done]. rewrite Er in Hf. simpl in Hf. destruct Hf as (-> & Hm & _ & Hc).
    destruct c; try done. eapply Hn. left. exists i. right. unfold call_step. by rewrite Ec, Ef.
Qed.
(** And every call has returned. *)
Lemma await_rest_returned w : good w → (∀ w', ¬ moves w w') → ∀ i c, callers w !! i = Some c → c = CRet true.
Proof.
  intros G Hn. destruct (await_rest_idle w G Hn) as [Er Eq].
  intros i c Ei. pose proof (g_calls _ G i) as Hc. unfold call_ok in Hc. rewrite Ei in Hc.
  assert (phase_of w i = Elsewhere) as Hp by (unfold phase_of; by rewrite Eq, Er).
  rewrite Hp in Hc. destruct c; try (destruct Hc as ([d m] & Ef & Hf)); simpl in *; try done; try naive_solver.
  - exfalso. eapply Hn. left. exists i. left. unfold call_push. by rewrite Ei.
  - destruct Hf as (-> & -> & _). exfalso. eapply Hn. left. exists i. right. unfold call_step. by rewrite Ei, Ef.
  - destruct Hf as (-> & -> & _). exfalso. eapply Hn. left. exists i. right. unfold call_step. by rewrite Ei, Ef.
  - exfalso. eapply Hn. left. exists i. right. unfold call_step. by rewrite Ei, Ef.
  - exfalso. eapply Hn. left. exists i. right. unfold call_step. by rewrite Ei.
Qed.

(** ** Running a schedule *)

Inductive act := Begin (i : nat) | Push (i : nat) (ok : bool) | Go (i : nat) | Spurious (i : nat) | Run.
Definition exec (a : act) (w : world) : option world :=
  match a with
  | Begin i => call_begin i w
  | Push i ok => call_push i ok w
  | Go i => call_step i w
  | Spurious i => call_spurious i w
  | Run => match loop_exec w with Some (Done _ w') => Some w' | _ => None end
  end.
Abbreviation exec_all := (run_schedule exec).

Lemma await_exec_step a w w' : exec a w = Some w' → step w w'.
Proof.
  unfold step. destruct a as [i|i ok|i|i|]; simpl; intros E.
  - left. by exists i.
  - right. left. by exists i, ok.
  - right. right. right. left. by exists i.
  - right. right. left. by exists i.
  - do 4 right. unfold loop_moves. destruct (loop_exec w) as [[[] w1| | |]|] eqn:El; try done. by injection E as <-.
Qed.
Lemma await_exec_steps l w w' : exec_all l w = Some w' → rtc step w w'.
Proof. apply schedule_rtc, await_exec_step. Qed.
Lemma await_exec_moves l w w' : forallb (λ a, match a with Go _ | Run => true | _ => false end) l = true →
  exec_all l w = Some w' → nsteps moves (length l) w w'.
Proof.
  apply schedule_nsteps. intros [i|i ok|i|i|] w1 w2 Ha E; try done; simpl in E.
  - left. exists i. by right.
  - right. unfold loop_moves. destruct (loop_exec w1) as [[[] w3| | |]|]; try done. by injection E as ->.
Qed.

(** Two calls; the first one waits already when its closure runs. *)
Definition two_calls : list act := [Begin 0; Push 0 true; Go 0; Begin 1; Push 1 true; Go 0; Run; Run].
Definition waiting_world : world := default init (exec_all two_calls init).
Lemma waiting_reachable : rtc step init waiting_world.
Proof. apply (await_exec_steps two_calls). by vm_compute. Qed.

(** ** What a waiting call gets *)

(** As long as no wake-up fails, whatever the interleaving and the spurious wake-ups:
    the closure never touches a frame that is gone; a call that has returned has returned
    true, after its operation was run; and every call does return: the calls and the loop's
    thread can take no more than [work] steps (a wait that ends spuriously adds at most
    five), and when they can take none all calls have returned. *)
Theorem waits_return w :
  rtc step init w → failed w = false →
  (∀ f, loop_exec w ≠ Some (Faults f)) ∧
  (∀ i r, callers w !! i = Some (CRet r) → r = true ∧ i ∈ ran w) ∧
  ∀ n w', nsteps moves n w w' → (n ≤ work w)%nat ∧
    ((∀ w'', ¬ moves w' w'') → ∀ i c, callers w' !! i = Some c → c = CRet true).
Proof.
  intros R Hf. pose proof (await_reachable_good w R Hf) as G. split_and!.
  - intros f E. by destruct (await_loop_good w _ G E) as (? & ? & _).
  - intros i r Hi. pose proof (g_calls _ G i) as Hc. unfold call_ok in Hc. rewrite Hi in Hc. naive_solver.
  - intros n w' Hn.
    assert ((n + work w' ≤ work w)%nat ∧ failed w' = false ∧ rtc step init w') as (Hw & Hf' & R').
    { clear G. induction Hn as [w|n w w1 w' Hs _ IH]; [done|]. destruct (await_moves_work w w1 Hs) as [Hw Hf1].
      destruct IH as (? & ? & ?); [|by rewrite Hf1|split; [lia|done]].
      eapply rtc_r; [exact R|by apply moves_step]. }
    split; [lia|]. by apply await_rest_returned, await_reachable_good.
Qed.

(** From there the loop's thread runs the first closure, then the second one. *)
Definition rest_of_them : list act :=
  [Run; Run; Run; Run; Go 0; Go 0; Go 0; Go 0; Run; Run; Run; Run; Run; Run; Go 1; Go 1; Go 1; Go 1].
Lemma waits_return_witness :
  ∃ w', nsteps moves 18 waiting_world w' ∧ (18 ≤ work waiting_world)%nat ∧
    callers w' !! 0%nat = Some (CRet true) ∧ callers w' !! 1%nat = Some (CRet true) ∧ ran w' = [0%nat; 1%nat].
Proof.
  pose (w' := default init (exec_all rest_of_them waiting_world)).
  assert (nsteps moves 18 waiting_world w') as Hn by (apply (await_exec_moves rest_of_them); by vm_compute).
  destruct (waits_return waiting_world waiting_reachable eq_refl) as (_ & _ & H).
  destruct (H 18%nat w' Hn) as [Hw _]. exists w'. split; [exact Hn|]. split; [exact Hw|]. by vm_compute.
Defined.

(** ** When the wake-up fails *)

(** The closure stays in the queue although its call has returned false. *)
Definition failed_call : list act := [Begin 0; Push 0 false; Go 0; Run; Run].

(** A call whose wake-up fails returns false and leaves its closure in the queue: when
    the loop's thread gets to it, it runs the operation that the caller has been told will
    not run, and then takes a mutex on the frame of a call that has returned. *)
Theorem failed_wait_dangles : ∃ w,
  rtc step init w ∧ callers w !! 0%nat = Some (CRet false) ∧ 0%nat ∈ ran w ∧
  loop_exec w = Some (Faults UseAfterFree).
Proof.
  exists (default init (exec_all failed_call init)). split; [apply (await_exec_steps failed_call); by vm_compute|].
  split; [by vm_compute|]. split; [apply list_elem_of_singleton; by vm_compute|by vm_compute].
Qed.
