(* ===== verification/AwaitQueue.v ===== *)
(** * Waiting for the loop's thread, over the real queue

    [Await.v] has a list for the queue, from which the loop's thread takes what it runs.
    Here the calls of [runOnEventLoopAndWait] ([src/libevent_event_base.cc]) go through the
    queue and the channel of [Wakeup.v] instead, every access of [push] and [pop] a step, and
    the loop's thread runs their closures one after the other when [pop] returns them.  The
    result implements [Await.v], and what is proved there holds of it. *)

From S2P Require Import Prelude Mpsc.
From S2P Require Wakeup Await.

Section threads.
Context (moved : nat).

(** The queue, whose operations are the numbers of the calls, and the channel; the calls,
    their frames and the closure that runs.  A call is [CPush] while it is in
    [runOnEventLoop]; the list of [Await.v] stays empty. *)
Record world := mkW {
  wk : Wakeup.world (T := nat);
  aw : Await.world;
}.
Definition init (d : nat) (p : nid) : world := mkW (Wakeup.init_world d p) Await.init.
Definition on_wk (f : Wakeup.world → option Wakeup.world) (w : world) : option world :=
  k ← f (wk w); Some (mkW k (aw w)).
Definition on_aw (f : Await.world → option Await.world) (w : world) : option world :=
  a ← f (aw w); Some (mkW (wk w) a).

(** ** The calls *)

Definition begin (i : nat) (w : world) : option world :=
  w1 ← on_aw (Await.call_begin i) w;
  on_wk (Wakeup.thread_exec moved (Wakeup.TCall i i)) w1.
(** An access of [push], as long as there is one. *)
Definition push (i : nat) (p : nid) (w : world) : option world :=
  match producers (Wakeup.mpsc (wk w)) !! i with
  | Some (PRet _) => None
  | _ => on_wk (Wakeup.thread_exec moved (Wakeup.TPush i p)) w
  end.
(** [push] returns: the call waits, unless the loop has to be woken up. *)
Definition push_returns (i : nat) (w : world) : option world :=
  match producers (Wakeup.mpsc (wk w)) !! i with
  | Some (PRet shouldKick) =>
      w1 ← on_wk (Wakeup.thread_exec moved (Wakeup.TPushed i)) w;
      Some (if (shouldKick : bool) then w1 else mkW (wk w1) (Await.set_caller i Await.CLock (aw w1)))
  | _ => None
  end.
(** The write to the channel. *)
Definition signal (i : nat) (ok : bool) (w : world) : option world :=
  w1 ← on_wk (Wakeup.thread_exec moved (if ok then Wakeup.TSignal i else Wakeup.TSignalFails i)) w;
  Some (mkW (wk w1) (Await.set_caller i (if ok then Await.CLock else Await.CFail) (aw w1))).

(** ** The loop's thread *)

(** When no closure runs; [pop] may have one to run. *)
Definition loop_goes (e : Wakeup.loop_event) (w : world) : option world :=
  match Await.runs (aw w), e, cons (Wakeup.mpsc (wk w)) with
  | Await.LIdle, Wakeup.LRun, CRet (Some i) =>
      w1 ← on_wk (Wakeup.loop_exec moved e) w;
      Some (mkW (wk w1) (Await.set_runs (Await.LOp i) (aw w1)))
  | Await.LIdle, _, _ => on_wk (Wakeup.loop_exec moved e) w
  | _, _, _ => None
  end.
(** The closure. *)
Definition closure (w : world) : option (outcome world unit) :=
  match Await.loop_exec (aw w) with
  | Some (Done _ a) => Some (Done tt (mkW (wk w) a))
  | Some (Throws e a) => Some (Throws e (mkW (wk w) a))
  | Some (Faults f) => Some (Faults f)
  | Some Diverges => Some Diverges
  | None => None
  end.

(** ** Interleavings *)

Inductive event :=
| Begin (i : nat)
| Push (i : nat) (p : nid)        (** an access of [push]; [p] for an allocation *)
| Pushed (i : nat)
| Signal (i : nat) (ok : bool)
| Go (i : nat)                    (** the call, after [runOnEventLoop] *)
| Spurious (i : nat)
| Loop (e : Wakeup.loop_event)
| Closure
| Other.                          (** [event_base_loop] returns for something else *)

Definition exec (e : event) (w : world) : option world :=
  match e with
  | Begin i => begin i w
  | Push i p => push i p w
  | Pushed i => push_returns i w
  | Signal i ok => signal i ok w
  | Go i => on_aw (Await.call_step i) w
  | Spurious i => on_aw (Await.call_spurious i) w
  | Loop e => loop_goes e w
  | Closure => match closure w with Some (Done _ w') => Some w' | _ => None end
  | Other => on_wk Wakeup.other_exec w
  end.
Definition step (w w' : world) : Prop := ∃ e, exec e w = Some w'.
(** The threads go on; no call begins, no wait ends without cause, no write fails, and libevent
    has nothing else to do. *)
Definition goes_on (e : event) : bool :=
  match e with Begin _ | Spurious _ | Signal _ false | Other => false | _ => true end.
Definition moves (w w' : world) : Prop := ∃ e, goes_on e = true ∧ exec e w = Some w'.

(** ** What it is in [Await.v] *)

Definition pushes (w : world) : list nat := pushed (shared (Wakeup.mpsc (wk w))).
(** What is queued: what the loop's thread has not taken. *)
Definition queued (w : world) : list nat := drop (length (Wakeup.ran (wk w))) (pushes w).
(** A call in [push] has queued its closure once it has exchanged the head of the queue. *)
Definition place (l : list nat) (i : nat) (c : Await.caller) : Await.caller :=
  match c with Await.CPush => if decide (i ∈ l) then Await.CLock else Await.CPush | c => c end.

Definition placed (l : list nat) (m : gmap nat Await.caller) : gmap nat Await.caller :=
  map_imap (λ i c, Some (place l i c)) m.
Definition await_of (w : world) : Await.world :=
  Await.mkW (placed (pushes w) (Await.callers (aw w))) (Await.frames (aw w)) (queued w)
    (Await.runs (aw w)) (Await.ran (aw w)) false.

(** ** The invariant *)

(** Where a call is, for the queue and for itself. *)
Definition call_good (w : world) (i : nat) : Prop :=
  match producers (Wakeup.mpsc (wk w)) !! i with
  | Some pc =>
      Await.callers (aw w) !! i = Some Await.CPush ∧ (i ∉ Wakeup.kicks (wk w)) ∧
      match pc with PAlloc x | PExchange _ x => x = i ∧ i ∉ pushes w | _ => i ∈ pushes w end
  | None =>
      match Await.callers (aw w) !! i with
      | Some Await.CPush => i ∈ Wakeup.kicks (wk w) ∧ i ∈ pushes w
      | Some _ => (i ∉ Wakeup.kicks (wk w)) ∧ i ∈ pushes w
      | None => (i ∉ Wakeup.kicks (wk w)) ∧ i ∉ pushes w
      end
  end.
Record ok (w : world) : Prop := {
  ok_wk : ∃ q xs, Wakeup.good (wk w) q xs;
  ok_list : Await.queue (aw w) = [];
  ok_calls i : call_good w i;
}.

(** ** What the parts do to each other *)

Implicit Types w : world.

Lemma placed_lookup l m i : placed l m !! i = place l i <$> m !! i.
Proof. unfold placed. rewrite map_lookup_imap. by destruct (m !! i). Qed.
Lemma placed_insert l m i c : placed l (<[i := c]> m) = <[i := place l i c]> (placed l m).
Proof.
  apply map_eq. intros j. rewrite placed_lookup. destruct (decide (i = j)) as [<-|].
  - by rewrite !lookup_insert_eq.
  - by rewrite !lookup_insert_ne, placed_lookup.
Qed.
(** The exchange is the moment at which the call gets on. *)
Lemma placed_snoc l m i : m !! i = Some Await.CPush → placed (l ++ [i]) m = <[i := Await.CLock]> (placed l m).
Proof.
  intros Hi. apply map_eq. intros j. rewrite placed_lookup. destruct (decide (i = j)) as [<-|Hne].
  - rewrite lookup_insert_eq, Hi. simpl. by rewrite decide_True by set_solver.
  - rewrite lookup_insert_ne, placed_lookup by done. destruct (m !! j) as [[]|]; try done.
    simpl. rewrite (decide_ext (j ∈ l ++ [i]) (j ∈ l)); [done|]. set_solver.
Qed.
(** What it does next does not show. *)
Lemma placed_on l m i : m !! i = Some Await.CPush → i ∈ l → placed l (<[i := Await.CLock]> m) = placed l m.
Proof.
  intros Hi Hl. rewrite placed_insert. apply insert_id. rewrite placed_lookup, Hi. simpl. by rewrite decide_True.
Qed.
Lemma placed_none l m : (∀ i, m !! i ≠ Some Await.CPush) → placed l m = m.
Proof.
  intros Hm. apply map_eq. intros i. rewrite placed_lookup. specialize (Hm i).
  destruct (m !! i) as [[]|]; try done.
Qed.

Lemma push_access i p k k' : Wakeup.thread_exec moved (Wakeup.TPush i p) k = Some k' →
  ∃ pc pc' sh', producers (Wakeup.mpsc k) !! i = Some pc ∧ push_step p pc (shared (Wakeup.mpsc k)) = Done pc' sh' ∧
    k' = Wakeup.set_mpsc (mkState sh' (set_producer i (Some pc') (producers (Wakeup.mpsc k))) (cons (Wakeup.mpsc k))
      (found_empty (Wakeup.mpsc k)) (signalled (Wakeup.mpsc k))) k.
Proof.
  cbn [Wakeup.thread_exec run_act]. destruct (producers (Wakeup.mpsc k) !! i) as [pc|]; [|done].
  destruct (heap (shared (Wakeup.mpsc k)) !! p); [done|].
  destruct (push_step p pc (shared (Wakeup.mpsc k))) as [pc' sh'| | |] eqn:E; try done.
  intros [= <-]. by exists pc, pc', sh'.
Qed.

Lemma push_on i p w w' : push i p w = Some w' → (∀ b, producers (Wakeup.mpsc (wk w)) !! i ≠ Some (PRet b)) ∧
  on_wk (Wakeup.thread_exec moved (Wakeup.TPush i p)) w = Some w'.
Proof. unfold push. intros E. by destruct (producers (Wakeup.mpsc (wk w)) !! i) as [[]|]. Qed.

(** The loop's thread leaves the calls of [push] alone. *)
Lemma loop_access e k k' : Wakeup.loop_exec moved e k = Some k' →
  producers (Wakeup.mpsc k') = producers (Wakeup.mpsc k) ∧ Wakeup.kicks k' = Wakeup.kicks k ∧
  pushed (shared (Wakeup.mpsc k')) = pushed (shared (Wakeup.mpsc k)) ∧ Wakeup.failed k' = Wakeup.failed k ∧
  Wakeup.ran k' = Wakeup.ran k ++ match e, cons (Wakeup.mpsc k) with Wakeup.LRun, CRet (Some i) => [i] | _, _ => [] end.
Proof.
  destruct e as [|n| |]; cbn [Wakeup.loop_exec]; destruct (Wakeup.loop k) eqn:El; try done.
  - case_decide; [|done]. intros [= <-]. simpl. by rewrite app_nil_r.
  - case_decide; [|done]. intros [= <-]. simpl. by rewrite app_nil_r.
  - intros E. assert (∃ pc' sh' st, (∀ r, cons (Wakeup.mpsc k) ≠ CRet r) ∧
      pop_step moved (cons (Wakeup.mpsc k)) (shared (Wakeup.mpsc k)) = Done pc' sh' ∧
      k' = Wakeup.mkW (popped_to (Wakeup.mpsc k) pc' sh') (Wakeup.kicks k) (Wakeup.chan k) (Wakeup.loop k) (Wakeup.ran k)
        (Wakeup.failed k) st) as (pc' & sh' & st & Hr & Es & ->).
    { cbn [run_act] in E. destruct (cons (Wakeup.mpsc k)) eqn:Hc; try done;
        (match type of E with context [pop_step ?m ?c ?s] => destruct (pop_step m c s) as [pc' sh'| | |] end; try done;
         injection E as <-; eexists pc', sh', _; split; [done|]; split; [done|]; by rewrite El). }
    destruct (pop_step_log moved _ _ _ _ Hr Es) as [Eu _]. simpl. by rewrite Eu, app_nil_r.
  - destruct (cons (Wakeup.mpsc k)) as [| | | | |r] eqn:Hc; try done. cbn [run_act]. rewrite Hc. cbn.
    destruct r; intros [= <-]; simpl; by rewrite ?app_nil_r.
Qed.

(** What is queued, for the loop's thread. *)
Lemma queued_good w q xs : Wakeup.good (wk w) q xs →
  queued w = match cons (Wakeup.mpsc (wk w)) with CRet (Some i) => [i] | _ => [] end ++ xs ∧
  pushes w = Wakeup.ran (wk w) ++ queued w.
Proof.
  intros [I _ _ _ _ _ Gr]. unfold queued, pushes. rewrite (i_log _ _ _ I), Gr, <- app_assoc.
  split; [apply drop_app_length|]. by rewrite drop_app_length.
Qed.

(** ** Every step is one of [Await.v], or none *)

(** A step of the call [i]. *)
Lemma ok_local w w' i : ok w → (Wakeup.step moved (wk w) (wk w') ∨ wk w' = wk w) → Await.queue (aw w') = [] →
  (∀ j, i ≠ j → producers (Wakeup.mpsc (wk w')) !! j = producers (Wakeup.mpsc (wk w)) !! j ∧
     (j ∈ Wakeup.kicks (wk w') ↔ j ∈ Wakeup.kicks (wk w)) ∧
     Await.callers (aw w') !! j = Await.callers (aw w) !! j ∧ (j ∈ pushes w' ↔ j ∈ pushes w)) →
  call_good w' i → ok w'.
Proof.
  intros [(q & xs & G) _ Hc] Hs Hq Hj Hi. split; [|done|].
  - destruct Hs as [[Hs|[Hs|Hs]]| ->]; [by eapply Wakeup.thread_good|by eapply Wakeup.loop_good| |by do 2 eexists].
    exists q, xs. by eapply Wakeup.other_good.
  - intros j. destruct (decide (i = j)) as [<-|Hne]; [done|]. destruct (Hj j Hne) as (Ep & Ek & Ec & Eu).
    specialize (Hc j). unfold call_good in *. rewrite Ep, Ec.
    destruct (producers _ !! j) as [[]|]; rewrite ?Ek, ?Eu; [done..|].
    destruct (Await.callers _ !! j) as [[]|]; rewrite ?Ek, ?Eu; done.
Qed.
Lemma thread_steps e k k' : Wakeup.thread_exec moved e k = Some k' → Wakeup.step moved k k'.
Proof. intros E. left. by exists e. Qed.

Lemma begin_sim i w w' : ok w → begin i w = Some w' → ok w' ∧ Await.call_begin i (await_of w) = Some (await_of w').
Proof.
  intros O E. unfold begin, on_aw, on_wk in E.
  destruct (Await.call_begin i (aw w)) as [a|] eqn:Ea; [|done]. simpl in E.
  destruct (decide (i ∈ Wakeup.kicks (wk w))) as [|Hk]; [done|].
  destruct (producers (Wakeup.mpsc (wk w)) !! i) eqn:Ep; [done|]. simpl in E.
  assert (Wakeup.step moved (wk w) (wk w')) as Hs.
  { apply (thread_steps (Wakeup.TCall i i)). cbn [Wakeup.thread_exec run_act]. rewrite Ep, decide_False by done.
    by injection E as <-. }
  injection E as <-. unfold Await.call_begin in *. pose proof (ok_calls _ O i) as Hi. unfold call_good in Hi. rewrite Ep in Hi.
  destruct (Await.callers (aw w) !! i) eqn:Ec; [done|]. injection Ea as <-. destruct Hi as [_ Hu]. split.
  - apply (ok_local w _ i O); [by left|by apply O| |].
    + intros j Hj. simpl. unfold pushes. simpl. by rewrite set_producer_lookup, decide_False, lookup_insert_ne.
    + unfold call_good. simpl. by rewrite set_producer_lookup, decide_True, lookup_insert_eq.
  - simpl. rewrite placed_lookup, Ec. simpl. unfold await_of, Await.set_caller. simpl.
    unfold pushes, queued. simpl. rewrite placed_insert. simpl. rewrite decide_False by done. done.
Qed.

Lemma push_sim i p w w' : ok w → on_wk (Wakeup.thread_exec moved (Wakeup.TPush i p)) w = Some w' →
  ok w' ∧ (await_of w' = await_of w ∨ Await.call_push i true (await_of w) = Some (await_of w')).
Proof.
  intros O E. unfold on_wk in E.
  destruct (Wakeup.thread_exec moved (Wakeup.TPush i p) (wk w)) as [k|] eqn:Ek; [|done]. injection E as <-.
  pose proof (thread_steps _ _ _ Ek) as Hs. destruct (push_access _ _ _ _ Ek) as (pc & pc' & sh' & Ep & Es & ->).
  destruct (push_step_log _ _ _ _ _ Es) as [Eu _].
  destruct (ok_wk _ O) as (q & xs & G). destruct (queued_good w q xs G) as [_ Epr].
  pose proof (ok_calls _ O i) as Hi. unfold call_good in Hi. rewrite Ep in Hi. destruct Hi as (Ec & Hk & Hi).
  fold (pushes w) in Eu. split.
  - apply (ok_local w _ i O); [by left|by apply O| |].
    + intros j Hj. unfold pushes at 1. simpl. rewrite set_producer_lookup, decide_False, Eu by done.
      split_and!; try done. destruct pc; rewrite ?app_nil_r; try done. destruct Hi as [-> _]. set_solver.
    + unfold call_good, pushes. simpl. rewrite set_producer_lookup, decide_True by done. split_and!; [done..|].
      rewrite Eu. unfold push_step, mkAligned, load, store, mbind, M_bind, mret, M_ret, gets, modify in Es.
      destruct pc; try (injection Es as <- _); rewrite ?app_nil_r; try done.
      * destruct (heap _ !! p); [done|]. by injection Es as <- _.
      * destruct Hi as [-> _]. set_solver.
      * destruct (heap _ !! prev) as [n|] eqn:En; [|done]. cbn in Es. rewrite En in Es. injection Es as <- _.
        by destruct emptyAtInit.
  - unfold await_of, queued.
    match goal with |- context [pushes (mkW ?k ?a)] => change (pushes (mkW k a)) with (pushed sh') end. simpl. rewrite Eu.
    assert (length (Wakeup.ran (wk w)) ≤ length (pushes w))%nat as Hl by (rewrite Epr, length_app; lia).
    destruct pc as [|cur x| | | |]; rewrite ?app_nil_r; [by left| |by left..]. destruct Hi as [-> Hu]. right.
    unfold Await.call_push. simpl. rewrite placed_lookup, Ec. simpl. rewrite decide_False by done.
    rewrite placed_snoc, drop_app_le by done. done.
Qed.

(** A call that has queued its closure is gone from the queue's side. *)
Lemma ok_kicked w i : ok w → i ∈ Wakeup.kicks (wk w) →
  producers (Wakeup.mpsc (wk w)) !! i = None ∧ Await.callers (aw w) !! i = Some Await.CPush ∧ i ∈ pushes w.
Proof.
  intros O Hk. pose proof (ok_calls _ O i) as Hi. unfold call_good in Hi.
  destruct (producers _ !! i); [naive_solver|]. destruct (Await.callers _ !! i) as [[]|]; naive_solver.
Qed.

Lemma pushed_sim i w w' : ok w → push_returns i w = Some w' → ok w' ∧ await_of w' = await_of w.
Proof.
  intros O E. unfold push_returns, on_wk in E.
  destruct (producers (Wakeup.mpsc (wk w)) !! i) as [pc|] eqn:Ep; [|done]. destruct pc as [| | | | |b]; try done.
  destruct (Wakeup.thread_exec moved (Wakeup.TPushed i) (wk w)) as [k|] eqn:Ek; [|done]. simpl in E. injection E as <-.
  pose proof (thread_steps _ _ _ Ek) as Hs. cbn [Wakeup.thread_exec run_act] in Ek. rewrite Ep in Ek. simpl in Ek.
  injection Ek as <-. pose proof (ok_calls _ O i) as Hi. unfold call_good in Hi. rewrite Ep in Hi. destruct Hi as (Ec & Hk & Hi).
  split.
  - apply (ok_local w _ i O); [left; by destruct b|by destruct b; apply O| |].
    + intros j Hj. destruct b; unfold pushes; simpl; rewrite set_producer_lookup, decide_False by done;
        (split_and!; [done| | |done]); rewrite ?lookup_insert_ne by done; set_solver.
    + unfold call_good. destruct b; unfold pushes; simpl; rewrite set_producer_lookup, decide_True by done.
      * rewrite Ec. split; [set_solver|done].
      * by rewrite lookup_insert_eq.
  - destruct b; [done|]. unfold await_of, queued, pushes. simpl. by rewrite placed_on.
Qed.

Lemma signal_sim i b w w' : ok w → signal i b w = Some w' →
  ok w' ∧ if b then await_of w' = await_of w else Wakeup.failed (wk w') = true.
Proof.
  intros O E. unfold signal, on_wk in E.
  destruct (Wakeup.thread_exec moved (if b then Wakeup.TSignal i else Wakeup.TSignalFails i) (wk w)) as [k|] eqn:Ek; [|done].
  simpl in E. injection E as <-. pose proof (thread_steps _ _ _ Ek) as Hs.
  destruct (decide (i ∈ Wakeup.kicks (wk w))) as [Hk|Hk].
  2:{ exfalso. destruct b; cbn [Wakeup.thread_exec] in Ek; by rewrite decide_False in Ek. }
  destruct (ok_kicked w i O Hk) as (Ep & Ec & Hi). split.
  - apply (ok_local w _ i O); [by left|by apply O| |].
    + intros j Hj. destruct b; cbn [Wakeup.thread_exec] in Ek; rewrite decide_True in Ek by done; injection Ek as <-;
        unfold pushes; simpl; (split_and!; [done|set_solver| |done]); by rewrite lookup_insert_ne.
    + unfold call_good. destruct b; cbn [Wakeup.thread_exec] in Ek; rewrite decide_True in Ek by done; injection Ek as <-;
        unfold pushes; simpl; rewrite Ep, lookup_insert_eq; (split; [set_solver|done]).
  - destruct b; cbn [Wakeup.thread_exec] in Ek; rewrite decide_True in Ek by done; injection Ek as <-; [|done].
    unfold await_of, queued, pushes. simpl. by rewrite placed_on.
Qed.

(** Steps of the calls themselves, and of the closure, do not touch the queue. *)
Lemma ok_call w a i c c' : ok w → Await.callers (aw w) !! i = Some c → c ≠ Await.CPush → c' ≠ Await.CPush →
  Await.callers a = <[i := c']> (Await.callers (aw w)) → Await.queue a = [] → ok (mkW (wk w) a).
Proof.
  intros O Ec Hc Hc' Ea Eq. apply (ok_local w _ i O); [by right|done| |].
  - intros j Hj. simpl. by rewrite Ea, lookup_insert_ne.
  - pose proof (ok_calls _ O i) as Hi. unfold call_good in *. simpl. rewrite Ea, lookup_insert_eq. rewrite Ec in Hi.
    destruct (producers _ !! i); [naive_solver|]. destruct c, c'; done.
Qed.
Lemma ok_same w a : ok w → Await.callers a = Await.callers (aw w) → Await.queue a = [] → ok (mkW (wk w) a).
Proof. intros [G _ Hc] Ea Eq. split; [done|done|]. intros i. specialize (Hc i). unfold call_good in *. simpl. by rewrite Ea. Qed.

Lemma go_sim i w a : ok w → Await.call_step i (aw w) = Some a →
  ok (mkW (wk w) a) ∧ Await.call_step i (await_of w) = Some (await_of (mkW (wk w) a)).
Proof.
  intros O E. pose proof (ok_list _ O) as Eq. unfold Await.call_step in *. simpl. rewrite placed_lookup.
  destruct (Await.callers (aw w) !! i) as [c|] eqn:Ec; [|done]. cbn [fmap option_fmap option_map].
  destruct c; cbn [place] in *; try done;
    try (destruct (Await.frames (aw w) !! i) as [[d m]|]; [|done]); try (destruct d); try (destruct m; try done);
    injection E as <-; (split; [eapply (ok_call w _ i); [done|exact Ec|done| |reflexivity|exact Eq]; done|]);
    unfold await_of, Await.set_caller, Await.set_frames; simpl; rewrite placed_insert; done.
Qed.

Lemma spurious_sim i w a : ok w → Await.call_spurious i (aw w) = Some a →
  ok (mkW (wk w) a) ∧ Await.call_spurious i (await_of w) = Some (await_of (mkW (wk w) a)).
Proof.
  intros O E. pose proof (ok_list _ O) as Eq. unfold Await.call_spurious in *. simpl. rewrite placed_lookup.
  destruct (Await.callers (aw w) !! i) as [c|] eqn:Ec; [|done]. destruct c; try done. injection E as <-.
  split; [eapply (ok_call w _ i); [done|exact Ec|done| |reflexivity|exact Eq]; done|]. unfold await_of, Await.set_caller. simpl. by rewrite placed_insert.
Qed.

Lemma loop_goes_inv e w w' : loop_goes e w = Some w' →
  Await.runs (aw w) = Await.LIdle ∧ ∃ k, Wakeup.loop_exec moved e (wk w) = Some k ∧
  w' = mkW k match e, cons (Wakeup.mpsc (wk w)) with
             | Wakeup.LRun, CRet (Some i) => Await.set_runs (Await.LOp i) (aw w)
             | _, _ => aw w end.
Proof.
  unfold loop_goes, on_wk. intros E. destruct (Await.runs (aw w)); try done. split; [done|].
  destruct (Wakeup.loop_exec moved e (wk w)) as [k|]; simpl in E;
    destruct e; try (destruct (cons (Wakeup.mpsc (wk w))) as [| | | | |[x|]]); simpl in E; try done;
    exists k; (split; [done|congruence]).
Qed.

Lemma loop_sim e w w' : ok w → loop_goes e w = Some w' →
  ok w' ∧ (await_of w' = await_of w ∨ Await.loop_moves (await_of w) (await_of w')).
Proof.
  intros O E. destruct (loop_goes_inv e w w' E) as (Er & k & Ek & ->).
  destruct (loop_access _ _ _ Ek) as (Ep & Eks & Eu & _ & En). destruct (ok_wk _ O) as (q & xs & G).
  destruct (queued_good w q xs G) as [Eq1 Eq2].
  set (a := match e, cons (Wakeup.mpsc (wk w)) with
            | Wakeup.LRun, CRet (Some i) => Await.set_runs (Await.LOp i) (aw w) | _, _ => aw w end).
  assert (Await.callers a = Await.callers (aw w) ∧ Await.frames a = Await.frames (aw w) ∧
    Await.queue a = Await.queue (aw w) ∧ Await.ran a = Await.ran (aw w)) as (Ea1 & Ea2 & Ea3 & Ea4).
  { unfold a. destruct e; try done. by destruct (cons (Wakeup.mpsc (wk w))) as [| | | | |[]]. }
  split.
  - split; [eapply (Wakeup.loop_good moved); [exact G|by exists e]|simpl; rewrite Ea3; by apply O|].
    intros j. pose proof (ok_calls _ O j) as Hj. unfold call_good, pushes in *. simpl. by rewrite Ea1, Ep, Eks, Eu.
  - assert ((a = aw w ∧ Wakeup.ran k = Wakeup.ran (wk w)) ∨
      ∃ i, a = Await.set_runs (Await.LOp i) (aw w) ∧ Wakeup.ran k = Wakeup.ran (wk w) ++ [i] ∧ queued w = i :: xs)
      as [[Hs Hr]|(i & Hs & Hr & Hx)].
    { unfold a. destruct e; try (rewrite app_nil_r in En; by left).
      destruct (cons (Wakeup.mpsc (wk w))) as [| | | | |[i|]]; try (rewrite app_nil_r in En; by left).
      right. by exists i. }
    + left. unfold await_of, queued, pushes. simpl. by rewrite Hs, Hr, Eu.
    + right. unfold Await.loop_moves, Await.loop_exec. simpl. rewrite Er, Hx. do 2 f_equal.
      unfold await_of, queued, pushes. simpl. rewrite Hs, Hr, Eu. simpl. f_equal. fold (pushes w). rewrite Eq2, Hx.
      replace (Wakeup.ran (wk w) ++ i :: xs) with ((Wakeup.ran (wk w) ++ [i]) ++ xs) by by rewrite <- app_assoc.
      by rewrite drop_app_length.
Qed.

Lemma other_sim w w' : ok w → on_wk Wakeup.other_exec w = Some w' →
  ok w' ∧ await_of w' = await_of w ∧ Wakeup.failed (wk w') = Wakeup.failed (wk w) ∧
  Wakeup.ran (wk w') = Wakeup.ran (wk w) ∧ aw w' = aw w.
Proof.
  intros [(q & xs & G) Hq Hc] E. unfold on_wk in E. destruct (Wakeup.other_exec (wk w)) as [k|] eqn:Ek; [|done].
  injection E as <-. assert (Wakeup.good k q xs) as G' by by eapply Wakeup.other_good.
  unfold Wakeup.other_exec in Ek. destruct (Wakeup.loop (wk w)); [|done..]. injection Ek as <-.
  split; [|done]. split; [by do 2 eexists|done|exact Hc].
Qed.

Lemma closure_sim w o : ok w → Await.loop_exec (aw w) = Some o →
  match o with
  | Done _ a => ok (mkW (wk w) a) ∧ Await.loop_moves (await_of w) (await_of (mkW (wk w) a))
  | _ => Await.loop_exec (await_of w) = Some o
  end.
Proof.
  intros O E. pose proof (ok_list _ O) as Eq. unfold Await.loop_moves, Await.loop_exec, Await.on_frame in *. simpl.
  rewrite Eq in E. destruct (Await.runs (aw w)) as [|i|i|i|i|i]; [done| |..];
    try (destruct (Await.frames (aw w) !! i) as [[d m]|]; [|by injection E as <-]); cbn in E;
    try (destruct m; [done|]); injection E as <-; try by (split; [by apply ok_same|]).
  destruct (Await.callers (aw w) !! i) as [c|] eqn:Ec.
  - destruct c; try (split; [by apply ok_same|]; rewrite placed_lookup, Ec; simpl; try case_decide; done).
    split; [eapply (ok_call w _ i); [done|exact Ec|done| |reflexivity|exact Eq]; done|].
    rewrite placed_lookup, Ec. simpl. unfold await_of, Await.set_caller. simpl. by rewrite placed_insert.
  - split; [by apply ok_same|]. by rewrite placed_lookup, Ec.
Qed.

(** All of them. *)
Lemma exec_sim e w w' : ok w → exec e w = Some w' → ok w' ∧ (Wakeup.failed (wk w') = false →
  await_of w' = await_of w ∨ Await.step (await_of w) (await_of w')).
Proof.
  unfold Await.step, Await.call_moves. intros O E. destruct e as [i|i p|i|i b|i|i|e| |]; simpl in E; unfold on_aw in E.
  - destruct (begin_sim i w w' O E). eauto 10.
  - apply push_on in E as [_ E]. destruct (push_sim i p w w' O E) as [? []]; eauto 10.
  - destruct (pushed_sim i w w' O E). eauto.
  - destruct (signal_sim i b w w' O E) as [? Hb]. split; [done|]. destruct b; [by left|congruence].
  - destruct (Await.call_step i (aw w)) as [a|] eqn:Ea; [|done]. injection E as <-.
    destruct (go_sim i w a O Ea). eauto 10.
  - destruct (Await.call_spurious i (aw w)) as [a|] eqn:Ea; [|done]. injection E as <-.
    destruct (spurious_sim i w a O Ea). eauto 10.
  - destruct (loop_sim e w w' O E) as [? []]; eauto 10.
  - unfold closure in E. destruct (Await.loop_exec (aw w)) as [o|] eqn:El; [|done].
    pose proof (closure_sim w o O El) as Ho. destruct o as [[] a|x a|f|]; try done. injection E as <-.
    destruct Ho. eauto 10.
  - destruct (other_sim w w' O E) as (? & ? & _). eauto.
Qed.

Lemma thread_keeps e k k' : Wakeup.thread_exec moved e k = Some k' →
  Wakeup.ran k' = Wakeup.ran k ∧ (Wakeup.failed k = true → Wakeup.failed k' = true).
Proof.
  intros Ek. destruct e as [j op|j p|j|j|j]; cbn [Wakeup.thread_exec] in Ek.
  - case_decide; [done|]. destruct (run_act _ _ _); [|done]. by injection Ek as <-.
  - destruct (run_act _ _ _); [|done]. by injection Ek as <-.
  - destruct (producers (Wakeup.mpsc k) !! j) as [[]|]; try done. destruct (run_act _ _ _); [|done]. by injection Ek as <-.
  - case_decide; [|done]. by injection Ek as <-.
  - case_decide; [|done]. by injection Ek as <-.
Qed.

(** What [pop] has given to the loop's thread: it has run, or is about to be. *)
Definition in_order (w : world) : Prop :=
  Wakeup.ran (wk w) = Await.ran (aw w) ++ match Await.runs (aw w) with Await.LOp i => [i] | _ => [] end.

Lemma exec_keeps e w w' : ok w → exec e w = Some w' →
  (Wakeup.failed (wk w) = true → Wakeup.failed (wk w') = true) ∧ (in_order w → in_order w').
Proof.
  unfold in_order. intros O E. destruct e as [i|i p|i|i b|i|i|e| |]; cbn [exec] in E.
  - unfold begin, on_aw, on_wk in E. destruct (Await.call_begin i (aw w)) as [a|] eqn:Ea; [|done].
    cbn [mbind option_bind wk] in E. destruct (Wakeup.thread_exec moved (Wakeup.TCall i i) (wk w)) as [k|] eqn:Ek; [|done].
    injection E as <-. destruct (thread_keeps _ _ _ Ek) as [Er Hf]. unfold Await.call_begin in Ea. case_match; [done|].
    injection Ea as <-. simpl. by rewrite Er.
  - apply push_on in E as [_ E]. unfold on_wk in E. destruct (Wakeup.thread_exec _ _ _) as [k|] eqn:Ek; [|done]. injection E as <-.
    destruct (thread_keeps _ _ _ Ek) as [Er Hf]. simpl. by rewrite Er.
  - unfold push_returns, on_wk in E. destruct (producers _ !! i) as [[]|]; try done.
    destruct (Wakeup.thread_exec _ _ _) as [k|] eqn:Ek; [|done]. injection E as <-.
    destruct (thread_keeps _ _ _ Ek) as [Er Hf]. destruct result; simpl; by rewrite Er.
  - unfold signal, on_wk in E. destruct (Wakeup.thread_exec _ _ _) as [k|] eqn:Ek; [|done]. injection E as <-.
    destruct (thread_keeps _ _ _ Ek) as [Er Hf]. simpl. by rewrite Er.
  - unfold on_aw in E. destruct (Await.call_step i (aw w)) as [a|] eqn:Ea; [|done]. injection E as <-.
    assert (Await.runs a = Await.runs (aw w) ∧ Await.ran a = Await.ran (aw w)) as [Er En]; [|simpl; by rewrite Er, En].
    unfold Await.call_step in Ea. repeat (case_match; try done); by injection Ea as <-.
  - unfold on_aw in E. destruct (Await.call_spurious i (aw w)) as [a|] eqn:Ea; [|done]. injection E as <-.
    assert (Await.runs a = Await.runs (aw w) ∧ Await.ran a = Await.ran (aw w)) as [Er En]; [|simpl; by rewrite Er, En].
    unfold Await.call_spurious in Ea. repeat (case_match; try done); by injection Ea as <-.
  - destruct (loop_goes_inv e w w' E) as (Er & k & Ek & ->). simpl.
    destruct (loop_access _ _ _ Ek) as (_ & _ & _ & -> & ->). rewrite Er, app_nil_r. split; [done|]. intros ->.
    destruct e; rewrite ?Er, ?app_nil_r; try done.
    destruct (cons (Wakeup.mpsc (wk w))) as [| | | | |[i|]]; simpl; by rewrite ?Er, ?app_nil_r.
  - unfold closure in E. destruct (Await.loop_exec (aw w)) as [[[] a| | |]|] eqn:Ea; try done. injection E as <-.
    split; [done|]. simpl. intros ->. unfold Await.loop_exec, Await.on_frame in Ea.
    rewrite (ok_list _ O) in Ea. destruct (Await.runs (aw w)) as [|i|i|i|i|i]; [done|
      injection Ea as <-; simpl; by rewrite app_nil_r|..];
      destruct (Await.frames (aw w) !! i) as [[d [m|]]|]; try done; injection Ea as <-; try done; simpl; by rewrite ?app_nil_r; repeat case_match.
  - destruct (other_sim w w' O E) as (_ & _ & -> & -> & ->). done.
Qed.

Lemma ok_init d p : ok (init d p).
Proof.
  split; [do 2 eexists; apply Wakeup.init_good|done|]. intros i. unfold call_good, pushes. simpl. rewrite !lookup_empty. set_solver.
Qed.
Lemma reachable_ok d p w : rtc step (init d p) w →
  (ok w ∧ in_order w) ∧ (Wakeup.failed (wk w) = false → rtc Await.step Await.init (await_of w)).
Proof.
  intros R. apply (rtc_invariant step (λ w, (ok w ∧ in_order w) ∧ (Wakeup.failed (wk w) = false → rtc Await.step Await.init (await_of w)))
    (init d p) w); [|exact R|].
  2:{ split; [split; [apply ok_init|done]|]. intros _. unfold await_of. simpl. by rewrite placed_none. }
  intros w1 w2 [[O Hi] IH] [e E]. destruct (exec_sim e w1 w2 O E) as [O' Hs].
  destruct (exec_keeps e w1 w2 O E) as [Hk Hi']. split; [split; [done|by apply Hi']|]. intros Hf.
  assert (Wakeup.failed (wk w1) = false) as Hf1.
  { apply not_true_is_false. intros Ht. by rewrite (Hk Ht) in Hf. }
  destruct (Hs Hf) as [-> |Hs']; [by apply IH|]. eapply rtc_r; [by apply IH|done].
Qed.

(** ** What is left to do *)

Definition push_rank (pc : producer nat) : nat :=
  match pc with
  | PAlloc _ => 361 | PExchange _ _ => 360 | PTail _ _ => 243 | PPublish _ _ _ => 242 | PTail2 _ => 241 | PRet _ => 240
  end.
Definition work (w : world) : nat :=
  11 * Wakeup.work (wk w) + Await.work (aw w) + msum push_rank (producers (Wakeup.mpsc (wk w))) +
  230 * size (Wakeup.kicks (wk w)).

Lemma msum_set_producer P i pc pc' : P !! i = Some pc →
  (msum push_rank (set_producer i (Some pc') P) + push_rank pc = msum push_rank P + push_rank pc')%nat.
Proof. apply msum_update. Qed.
Lemma msum_unset_producer P i pc : P !! i = Some pc →
  (msum push_rank (set_producer i None P) + push_rank pc = msum push_rank P)%nat.
Proof. apply msum_delete. Qed.
(** A call gets out of [runOnEventLoop]. *)
Lemma await_work_lock i a : Await.callers a !! i = Some Await.CPush →
  (Await.work (Await.set_caller i Await.CLock a) + 25 = Await.work a)%nat.
Proof.
  intros Ei. pose proof (msum_update Await.caller_rank _ i _ Await.CLock Ei) as Ht. unfold Await.work. simpl in *. lia.
Qed.

Lemma push_works i p w w' : push i p w = Some w' → (work w' < work w)%nat.
Proof.
  intros E. apply push_on in E as [Hr E]. unfold on_wk in E. destruct (Wakeup.thread_exec _ _ _) as [k|] eqn:Ek; [|done]. injection E as <-.
  destruct (push_access _ _ _ _ Ek) as (pc & pc' & sh' & Ep & Es & ->).
  destruct (push_step_log _ _ _ _ _ Es) as [Eu _]. pose proof (msum_set_producer _ i pc pc' Ep) as Hm.
  unfold work, Wakeup.work, Wakeup.queued. simpl. rewrite Eu, length_app.
  assert (push_rank pc' + 110 * length match pc with PExchange _ x => [x] | _ => [] end < push_rank pc)%nat as Hlt; [|lia].
  clear Hm Eu. unfold push_step, mkAligned, load, store, mbind, M_bind, mret, M_ret, gets, modify in Es.
  destruct pc; try (injection Es as <- _; simpl; lia).
  - destruct (heap _ !! p); [done|]. injection Es as <- _. simpl. lia.
  - destruct (heap _ !! prev) as [n|] eqn:En; [|done]. cbn in Es. rewrite En in Es. injection Es as <- _.
    destruct emptyAtInit; simpl; lia.
  - by destruct (Hr result).
Qed.

Lemma pushed_works i w w' : push_returns i w = Some w' → ok w →
  (work w' < work w)%nat ∧ Wakeup.failed (wk w') = Wakeup.failed (wk w).
Proof.
  intros E O. unfold push_returns, on_wk in E.
  destruct (producers (Wakeup.mpsc (wk w)) !! i) as [pc|] eqn:Ep; [|done]. destruct pc as [| | | | |b]; try done.
  cbn [Wakeup.thread_exec run_act] in E. rewrite Ep in E. cbn in E. injection E as <-.
  pose proof (msum_unset_producer _ i _ Ep) as Hm. simpl in Hm.
  pose proof (ok_calls _ O i) as Hi. unfold call_good in Hi. rewrite Ep in Hi. destruct Hi as (Ec & Hk & _).
  destruct b; (split; [|done]); unfold work, Wakeup.work, Wakeup.queued; simpl.
  - rewrite size_union, size_singleton by set_solver. lia.
  - pose proof (await_work_lock i (aw w) Ec). lia.
Qed.

Lemma signal_works i w w' : signal i true w = Some w' → ok w →
  (work w' < work w)%nat ∧ Wakeup.failed (wk w') = Wakeup.failed (wk w).
Proof.
  intros E O. unfold signal, on_wk in E. cbn [Wakeup.thread_exec] in E.
  destruct (decide (i ∈ Wakeup.kicks (wk w))) as [Hk|]; [|done]. simpl in E. injection E as <-.
  destruct (ok_kicked w i O Hk) as (_ & Ec & _). pose proof (await_work_lock i (aw w) Ec). split; [|done].
  assert (size (Wakeup.kicks (wk w)) = S (size (Wakeup.kicks (wk w) ∖ {[i]}))) as Hs.
  { rewrite (union_difference_L {[i]} (Wakeup.kicks (wk w))) at 1 by set_solver.
    rewrite size_union, size_singleton by set_solver. done. }
  unfold work, Wakeup.work, Wakeup.queued. simpl. lia.
Qed.

Lemma loop_goes_works e w w' : loop_goes e w = Some w' → ok w →
  (work w' < work w)%nat ∧ Wakeup.failed (wk w') = Wakeup.failed (wk w).
Proof.
  intros E O. destruct (loop_goes_inv e w w' E) as (Er & k & Ek & ->).
  destruct (loop_access _ _ _ Ek) as (Ep & Eks & _). destruct (ok_wk _ O) as (q & xs & G).
  destruct (Wakeup.loop_works moved (wk w) k q xs G) as (Hw & Hf & _); [by exists e|]. split; [|done].
  unfold work. simpl. rewrite Ep, Eks.
  assert (∀ i, Await.work (Await.set_runs (Await.LOp i) (aw w)) = Await.work (aw w) + 10)%nat as Ha.
  { intros i. unfold Await.work. simpl. rewrite Er. simpl. lia. }
  destruct e; try lia. destruct (cons (Wakeup.mpsc (wk w))) as [| | | | |[i|]]; rewrite ?Ha; lia.
Qed.

Lemma moves_work w w' : ok w → moves w w' → (work w' < work w)%nat ∧ Wakeup.failed (wk w') = Wakeup.failed (wk w).
Proof.
  intros O (e & Hg & E). destruct e as [i|i p|i|i b|i|i|e| |]; try done; simpl in E; unfold on_aw in E.
  - split; [by apply (push_works i p)|]. apply push_on in E as [_ E]. unfold on_wk in E.
    destruct (Wakeup.thread_exec _ _ _) as [k|] eqn:Ek; [|done]. injection E as <-.
    by destruct (push_access _ _ _ _ Ek) as (pc & pc' & sh' & _ & _ & ->).
  - by apply (pushed_works i).
  - destruct b; [|done]. by apply (signal_works i).
  - destruct (Await.call_step i (aw w)) as [a|] eqn:Ea; [|done]. injection E as <-. split; [|done].
    destruct (Await.await_moves_work (aw w) a) as [Hw _]; [left; exists i; by right|]. unfold work. simpl. lia.
  - by apply (loop_goes_works e).
  - unfold closure in E. destruct (Await.loop_exec (aw w)) as [[[] a| | |]|] eqn:Ea; try done. injection E as <-.
    split; [|done]. destruct (Await.await_moves_work (aw w) a) as [Hw _]; [by right|]. unfold work. simpl. lia.
Qed.

(** ** At rest *)

(** A call of [push] can always go on. *)
Lemma rest_quiet w : ok w → (∀ w', ¬ moves w w') → Wakeup.quiet (wk w).
Proof.
  intros O Hn. destruct (ok_wk _ O) as (q & xs & G). split.
  - apply map_empty. intros i. destruct (producers (Wakeup.mpsc (wk w)) !! i) as [pc|] eqn:Ep; [|done]. exfalso.
    assert ((∃ b, pc = PRet b) ∨ ∀ b, pc ≠ PRet b) as [[b ->]|Hr] by (destruct pc; eauto).
    + destruct (push_returns i w) as [w'|] eqn:E; [apply (Hn w'); by exists (Pushed i)|].
      unfold push_returns, on_wk in E. rewrite Ep in E. cbn [Wakeup.thread_exec run_act] in E. by rewrite Ep in E.
    + set (p := fresh (dom (heap (shared (Wakeup.mpsc (wk w)))))).
      assert (heap (shared (Wakeup.mpsc (wk w))) !! p = None) as Hp by (apply not_elem_of_dom, is_fresh).
      destruct (push_step_ok _ _ _ i p pc (Wakeup.g_queue _ _ _ G) Ep Hp) as (pc' & _ & _ & sh' & Es & _).
      destruct (push i p w) as [w'|] eqn:E; [apply (Hn w'); by exists (Push i p)|].
      unfold push, on_wk in E. rewrite Ep in E. cbn [Wakeup.thread_exec run_act] in E. rewrite Ep, Hp, Es in E.
      destruct pc; try done. by destruct (Hr result).
  - apply set_eq. intros i. split; [|set_solver]. intros Hk. exfalso. destruct (signal i true w) as [w'|] eqn:E.
    + apply (Hn w'). by exists (Signal i true).
    + unfold signal, on_wk in E. cbn [Wakeup.thread_exec] in E. by rewrite decide_True in E.
Qed.

(** Neither can [Await.v] go on then. *)
Lemma rest_await w : ok w → Wakeup.failed (wk w) = false → (∀ w', ¬ moves w w') →
  Await.callers (await_of w) = Await.callers (aw w) ∧ (∀ a, ¬ Await.moves (await_of w) a).
Proof.
  intros O Hf Hn. destruct (rest_quiet w O Hn) as [Hp Hk].
  assert (∀ i, Await.callers (aw w) !! i ≠ Some Await.CPush) as Hc.
  { intros i Ec. pose proof (ok_calls _ O i) as Hi. unfold call_good in Hi. rewrite Hp, lookup_empty, Ec, Hk in Hi. set_solver. }
  assert (Await.callers (await_of w) = Await.callers (aw w)) as Ea by (by apply placed_none).
  split; [done|]. intros a [[i [E|E]]|E].
  - unfold Await.call_push in E. rewrite Ea in E. by destruct (Await.callers (aw w) !! i) as [[]|] eqn:Ec; try done; destruct (Hc i).
  - destruct (Await.call_step i (aw w)) as [a'|] eqn:E'.
    + apply (Hn (mkW (wk w) a')). exists (Go i). split; [done|]. simpl. unfold on_aw. by rewrite E'.
    + unfold Await.call_step in E, E'. rewrite Ea in E. simpl in E. repeat (case_match; try done).
  - destruct (Await.loop_exec (aw w)) as [o|] eqn:El.
    + pose proof (closure_sim w o O El) as Ho. unfold Await.loop_moves in E. destruct o as [[] a'|x a'|f|]; try congruence.
      apply (Hn (mkW (wk w) a')). exists Closure. split; [done|]. simpl. unfold closure. by rewrite El.
    + assert (Await.runs (aw w) = Await.LIdle ∨ Await.loop_exec (await_of w) = None) as [Er|Er].
      { unfold Await.loop_exec, Await.on_frame in El |- *. simpl. destruct (Await.runs (aw w)); try done; [by left|..]; right;
          by repeat (case_match; try done). }
      2:{ unfold Await.loop_moves in E. congruence. }
      destruct (ok_wk _ O) as (q & xs & G). destruct (Wakeup.loop_rests moved (wk w) q xs G) as [Hl Hch].
      { intros k [e Ek]. assert (is_Some (loop_goes e w)) as [w' Ew]; [|apply (Hn w'); by exists (Loop e)].
        unfold loop_goes, on_wk. rewrite Er, Ek. destruct e; simpl; try by eexists.
        destruct (cons (Wakeup.mpsc (wk w))) as [| | | | |[x|]]; by eexists. }
      assert (Wakeup.stranded (wk w) = false) as Hst.
      { apply not_true_is_false. intros Hs. by rewrite (Wakeup.g_failed _ _ _ G Hs) in Hf. }
      pose proof (Wakeup.asleep_done _ _ _ G Hst (conj Hp Hk) Hl Hch) as Hd.
      unfold Await.loop_moves, Await.loop_exec, await_of, queued, pushes in E. simpl in E. by rewrite Er, <- Hd, drop_all in E.
Qed.

(** All operations were run, and all calls have returned. *)
Lemma rest_done w : ok w → in_order w → Wakeup.failed (wk w) = false → rtc Await.step Await.init (await_of w) →
  (∀ w', ¬ moves w w') → Await.ran (aw w) = pushes w ∧ ∀ i c, Await.callers (aw w) !! i = Some c → c = Await.CRet true.
Proof.
  intros O Ho Hf R Hn. destruct (rest_await w O Hf Hn) as (Ea & Hm).
  assert (Await.good (await_of w)) as G by (by apply Await.await_reachable_good).
  destruct (Await.await_rest_idle _ G Hm) as [Er Eq]. simpl in Er, Eq. split.
  - destruct (ok_wk _ O) as (q & xs & Gw). destruct (queued_good w q xs Gw) as [_ ->]. by rewrite Ho, Er, Eq, !app_nil_r.
  - rewrite <- Ea. by apply Await.await_rest_returned.
Qed.
End threads.

(** ** Running a schedule *)

Abbreviation exec_all moved := (run_schedule (exec moved)).
Lemma queue_exec_steps moved es w w' : exec_all moved es w = Some w' → rtc (step moved) w w'.
Proof. apply schedule_rtc. intros e a b E. by exists e. Qed.
Lemma queue_exec_moves moved es w w' : forallb goes_on es = true → exec_all moved es w = Some w' →
  nsteps (moves moved) (length es) w w'.
Proof. apply schedule_nsteps. intros e a b Hg E. by exists e. Qed.

(** Two calls in a race: the second one finds the first one's node, which is not linked
    yet, and so need not wake the loop up; it waits already when the first one, which has
    to, comes back from [push].  The loop begins with a pass that finds nothing. *)
Definition racing_calls : list event :=
  [Loop Wakeup.LPop; Loop Wakeup.LPop; Loop Wakeup.LRun; Begin 0; Push 0 2; Push 0 9; Begin 1; Push 1 3; Push 1 9; Push 1 9; Push 1 9; Push 1 9; Pushed 1; Go 1; Go 1;
   Push 0 9; Push 0 9; Pushed 0].
Definition raced : world := default (init 0 1) (exec_all 0%nat racing_calls (init 0 1)).
Lemma raced_reachable : rtc (step 0%nat) (init 0 1) raced.
Proof. apply (queue_exec_steps 0%nat racing_calls). by vm_compute. Qed.

(** The first one wakes the loop up; one pass over the queue runs both closures, and the one of
    the next turn none. *)
Definition one_pass : list event :=
  [Signal 0 true; Go 0; Go 0; Loop Wakeup.LWake; Loop (Wakeup.LRead 1)] ++
  (Loop <$> replicate 5 Wakeup.LPop) ++ [Loop Wakeup.LRun] ++ replicate 5 Closure ++ [Go 0; Go 0; Go 0; Go 0] ++
  (Loop <$> replicate 5 Wakeup.LPop) ++ [Loop Wakeup.LRun] ++ replicate 5 Closure ++ [Go 1; Go 1; Go 1; Go 1] ++
  [Loop Wakeup.LPop; Loop Wakeup.LPop; Loop Wakeup.LRun] ++ [Loop Wakeup.LPop; Loop Wakeup.LPop; Loop Wakeup.LRun].
Definition served : world := default raced (exec_all 0%nat one_pass raced).
Lemma served_moves : nsteps (moves 0%nat) (length one_pass) raced served.
Proof. apply (queue_exec_moves 0%nat one_pass); by vm_compute. Qed.

(** ** What a waiting call gets, over the real queue *)

(** C18: the queue, the channel and the loop's thread do for [runOnEventLoopAndWait] what the
    list of [Await.v] does: as long as no wake-up fails, every execution, access by access
    of [push] and [pop], is an execution of [Await.v], in which a call's closure is queued
    when the call exchanges the head of the queue and taken when [pop] returns it. *)
Theorem await_queue_refines moved d p w :
  rtc (step moved) (init d p) w → Wakeup.failed (wk w) = false → rtc Await.step Await.init (await_of w).
Proof. intros R Hf. by apply (reachable_ok moved d p w R). Qed.
Lemma await_queue_refines_witness :
  rtc Await.step Await.init (await_of raced) ∧ Await.queue (await_of raced) = [0%nat; 1%nat] ∧
  Await.callers (await_of raced) !! 0%nat = Some Await.CLock ∧ Await.callers (await_of raced) !! 1%nat = Some Await.CWait.
Proof. split; [apply (await_queue_refines 0%nat 0%nat 1%N raced raced_reachable eq_refl)|by vm_compute]. Defined.

(** C16: as long as no wake-up fails, in every interleaving of the accesses of the queue, the
    channel, the mutexes and the condition variables: the loop's thread runs the operations
    in the order in which their calls exchanged the head of the queue, each once; it never
    touches the frame of a call that has returned; a call that has returned has returned
    true, after its operation was run.  And every call does return: the threads can take no
    more than [work] steps, and when they can take none the loop's thread has run every
    operation and every call has returned true. *)
Theorem queued_calls_return moved d p w :
  rtc (step moved) (init d p) w → Wakeup.failed (wk w) = false →
  Await.ran (aw w) `prefix_of` pushes w ∧ (∀ f, closure w ≠ Some (Faults f)) ∧
  (∀ i r, Await.callers (aw w) !! i = Some (Await.CRet r) → r = true ∧ i ∈ Await.ran (aw w)) ∧
  ∀ n w', nsteps (moves moved) n w w' → (n ≤ work w)%nat ∧
    ((∀ w'', ¬ moves moved w' w'') → Await.ran (aw w') = pushes w' ∧
       ∀ i c, Await.callers (aw w') !! i = Some c → c = Await.CRet true).
Proof.
  intros R Hf. destruct (reachable_ok moved d p w R) as [[O Ho] Ha].
  assert (Await.good (await_of w)) as G by (by apply Await.await_reachable_good; [apply Ha|]). split_and!.
  - destruct (ok_wk _ O) as (q & xs & Gw). destruct (queued_good w q xs Gw) as [_ ->]. rewrite Ho, <- app_assoc. by eexists.
  - intros f E. unfold closure in E. destruct (Await.loop_exec (aw w)) as [o|] eqn:El; [|done].
    pose proof (closure_sim moved w o O El) as Hc. destruct o; try done.
    destruct (Await.await_loop_good _ _ G Hc) as (? & ? & _). done.
  - intros i r Hi. pose proof (Await.g_calls _ G i) as Hc. unfold Await.call_ok in Hc. simpl in Hc.
    rewrite placed_lookup, Hi in Hc. simpl in Hc. naive_solver.
  - intros n w' Hn.
    assert ((n + work w' ≤ work w)%nat ∧ Wakeup.failed (wk w') = false ∧ rtc (step moved) (init d p) w') as (Hw & Hf' & R').
    { clear O Ho Ha G. induction Hn as [w|n w w1 w' Hs _ IH]; [done|].
      destruct (moves_work moved w w1) as [Hw Hf1]; [by destruct (reachable_ok moved d p w R) as [[? _] _]|done|].
      destruct IH as (? & ? & ?); [|by rewrite Hf1|split; [lia|done]].
      destruct Hs as (e & _ & E). eapply rtc_r; [exact R|by exists e]. }
    split; [lia|]. intros Hr. destruct (reachable_ok moved d p w' R') as [[O' Ho'] Ha']. apply (rest_done moved); auto.
Qed.
Lemma queued_calls_return_witness :
  (length one_pass ≤ work raced)%nat ∧ Await.ran (aw served) = [0%nat; 1%nat] ∧
  Await.callers (aw served) !! 0%nat = Some (Await.CRet true) ∧ Await.callers (aw served) !! 1%nat = Some (Await.CRet true).
Proof.
  destruct (queued_calls_return 0%nat 0%nat 1%N raced raced_reachable eq_refl) as (_ & _ & _ & H).
  destruct (H (length one_pass) served served_moves) as [Hw _]. split; [exact Hw|by vm_compute].
Defined.
