(* ===== verification/Stop.v ===== *)
(** * Stopping the loop

    [stop] ([src/libevent_event_base.cc]) called by any number of threads at any time,
    against the thread that runs [loop]: [terminate_], [loopThread_] and
    [await_.finished], which they share, and the mutex and the condition of [await_].

    Every access is a step, in any order.  As in [Await.v] the queue is a list and the
    loop is woken up for what is queued; of the user's operations only the presence is
    kept.  libevent: [event_base_loop] returns after an event, at any time here, and
    once [event_base_loopexit] was called.  The timer of a FOREVER loop, which is in
    [EventLoop.v], plays no part here; nor does the loop's own thread call [stop], where it
    would wait for itself ([EventLoopProps.stop_stops]). *)

From S2P Require Import Prelude.
From S2P Require EventLoop.

Abbreviation LoopMode := EventLoop.LoopMode.

Inductive qop := User | Terminate.

(** A call of [stop]. *)
Inductive stopper :=
| SCheck         (** [inLoopThread] *)
| SPush          (** not there: about to queue the operation *)
| SStore         (** no loop runs: in the operation, about to set [terminate_] *)
| SExit          (** and about to call [event_base_loopexit] *)
| SLock          (** about to take the mutex, at first or after a wait *)
| SHold          (** holds it, about to look at [finished] *)
| SWait          (** in [cv.wait], without the mutex *)
| SUnlock
| SRet.

(** The thread of the loop; [polled]: the operations are run from [event_base_loop]. *)
Inductive looper :=
| LOut                                  (** outside [loop] *)
| LStart (m : LoopMode)                 (** [finished = false] *)
| LOps (m : LoopMode) (polled : bool)   (** [runOpsInQueue] *)
| LTerm (m : LoopMode) (polled : bool)  (** in the operation of [stop] *)
| LExit (m : LoopMode) (polled : bool)
| LPoll (m : LoopMode)                  (** [event_base_loop] *)
| LCheck (m : LoopMode)                 (** after it *)
| LReset                                (** [terminate_ = false] *)
| LZero                                 (** [loopThread_ = 0] *)
| LLock | LSet | LNotify | LUnlock.

Inductive holder := Stopper (i : nat) | Loop.

Record world := mkW {
  stoppers : gmap nat stopper;
  looper_ : looper;
  queue : list qop;
  terminate_ : bool;
  looping : bool;                (** [loopThread_ != 0] *)
  finished : bool;               (** [await_.finished] *)
  mutex : option holder;
  exit_ : bool;                  (** [event_base_loopexit] was called *)
  (* auxiliary: the loops begun; whether one was begun over a stop of another *)
  started : nat;
  overrun : bool;
}.
Definition init : world := mkW ∅ LOut [] false false false None false 0 false.

Definition set_stopper i c (w : world) : world :=
  mkW (<[i := c]> (stoppers w)) (looper_ w) (queue w) (terminate_ w) (looping w) (finished w) (mutex w) (exit_ w) (started w) (overrun w).
Definition set_stoppers f (w : world) : world :=
  mkW (f (stoppers w)) (looper_ w) (queue w) (terminate_ w) (looping w) (finished w) (mutex w) (exit_ w) (started w) (overrun w).
Definition set_looper l (w : world) : world :=
  mkW (stoppers w) l (queue w) (terminate_ w) (looping w) (finished w) (mutex w) (exit_ w) (started w) (overrun w).
Definition set_queue q (w : world) : world :=
  mkW (stoppers w) (looper_ w) q (terminate_ w) (looping w) (finished w) (mutex w) (exit_ w) (started w) (overrun w).
Definition set_terminate t (w : world) : world :=
  mkW (stoppers w) (looper_ w) (queue w) t (looping w) (finished w) (mutex w) (exit_ w) (started w) (overrun w).
Definition set_looping t (w : world) : world :=
  mkW (stoppers w) (looper_ w) (queue w) (terminate_ w) t (finished w) (mutex w) (exit_ w) (started w) (overrun w).
Definition set_finished f (w : world) : world :=
  mkW (stoppers w) (looper_ w) (queue w) (terminate_ w) (looping w) f (mutex w) (exit_ w) (started w) (overrun w).
Definition set_mutex h (w : world) : world :=
  mkW (stoppers w) (looper_ w) (queue w) (terminate_ w) (looping w) (finished w) h (exit_ w) (started w) (overrun w).
Definition set_exit e (w : world) : world :=
  mkW (stoppers w) (looper_ w) (queue w) (terminate_ w) (looping w) (finished w) (mutex w) e (started w) (overrun w).

(** ** [stop] *)

Definition stop_begin (i : nat) (w : world) : option world :=
  match stoppers w !! i with None => Some (set_stopper i SCheck w) | Some _ => None end.

Definition stop_step (i : nat) (w : world) : option world :=
  match stoppers w !! i with
  | Some SCheck => Some (set_stopper i (if looping w then SPush else SStore) w)
  | Some SPush => Some (set_stopper i SLock (set_queue (queue w ++ [Terminate]) w))
  | Some SStore => Some (set_stopper i SExit (set_terminate true w))
  | Some SExit => Some (set_stopper i SLock (set_exit true w))
  | Some SLock =>
      match mutex w with None => Some (set_stopper i SHold (set_mutex (Some (Stopper i)) w)) | Some _ => None end
  | Some SHold =>
      Some (if finished w then set_stopper i SUnlock w else set_stopper i SWait (set_mutex None w))
  | Some SUnlock => Some (set_stopper i SRet (set_mutex None w))
  | Some SWait | Some SRet | None => None
  end.

(** A wait ends although no one has notified. *)
Definition stop_spurious (i : nat) (w : world) : option world :=
  match stoppers w !! i with Some SWait => Some (set_stopper i SLock w) | _ => None end.

(** ** [loop] *)

Definition under_way (c : stopper) : bool := match c with SRet => false | _ => true end.
Definition stopping (w : world) : bool := existsb under_way ((map_to_list (stoppers w)).*2).

(** [loop] is called: [loopThread_] is set. *)
Definition loop_start (m : LoopMode) (w : world) : option world :=
  match looper_ w with
  | LOut => Some (mkW (stoppers w) (LStart m) (queue w) (terminate_ w) true (finished w) (mutex w) (exit_ w)
      (S (started w)) (overrun w || negb (started w =? 0)%nat && stopping w))
  | _ => None
  end.

Definition wake (c : stopper) : stopper := match c with SWait => SLock | c => c end.

(** An operation is taken from the queue. *)
Definition pop (m : LoopMode) (polled : bool) (w : world) : option world :=
  match queue w with
  | User :: q => Some (set_looper (LOps m polled) (set_queue q w))
  | Terminate :: q => Some (set_looper (LTerm m polled) (set_queue q w))
  | [] => None
  end.

(** The rest of it; [c]: [event_base_loop] returns for [event_base_loopexit] and not for
    the queue; and then, whether libevent has no more events.  [None] while the loop has
    to wait. *)
Definition loop_step (c : bool) (w : world) : option world :=
  match looper_ w with
  | LOut => None
  | LStart m => Some (set_looper (LOps m false) (set_finished false w))
  | LOps m p =>
      match pop m p w with
      | Some w' => Some w'
      | None => Some (set_looper (if p then LCheck m else LPoll m) w)
      end
  | LTerm m p => Some (set_looper (LExit m p) (set_terminate true w))
  | LExit m p => Some (set_looper (LOps m p) (set_exit true w))
  | LPoll m =>
      if c then if exit_ w then Some (set_looper (LCheck m) (set_exit false w)) else None
      else pop m true w
  | LCheck m =>
      Some (set_looper
        (match m with
         | EventLoop.ONCE => LReset
         | EventLoop.UNTIL_EMPTY => if c || terminate_ w then LReset else LOps m false
         | EventLoop.FOREVER => if terminate_ w then LReset else LOps m false
         end) w)
  | LReset => Some (set_looper LZero (set_terminate false w))
  | LZero => Some (set_looper LLock (set_looping false w))
  | LLock => match mutex w with None => Some (set_looper LSet (set_mutex (Some Loop) w)) | Some _ => None end
  | LSet => Some (set_looper LNotify (set_finished true w))
  | LNotify => Some (set_looper LUnlock (set_stoppers (fmap wake) w))
  | LUnlock => Some (set_looper LOut (set_mutex None w))
  end.

(** [event_base_loop] returns after some other event. *)
Definition loop_event (w : world) : option world :=
  match looper_ w with LPoll m => Some (set_looper (LCheck m) w) | _ => None end.

(** ** Interleavings *)

(** The calls and the loop go on. *)
Definition moves (w w' : world) : Prop := (∃ i, stop_step i w = Some w') ∨ (∃ c, loop_step c w = Some w').
(** Calls and loops begin, operations are queued, events happen. *)
Definition happens (w w' : world) : Prop :=
  (∃ i, stop_begin i w = Some w') ∨ (∃ i, stop_spurious i w = Some w') ∨
  (∃ m, loop_start m w = Some w') ∨ loop_event w = Some w' ∨ w' = set_queue (queue w ++ [User]) w.
Definition step (w w' : world) : Prop := moves w w' ∨ happens w w'.

(** ** The invariant *)

(** The loop is going to end, or has. *)
Definition ended (w : world) : Prop :=
  match looper_ w with
  | LTerm _ _ | LReset | LZero | LLock | LSet | LNotify | LUnlock => True
  | LOut => finished w = true ∨ terminate_ w = true ∨ Terminate ∈ queue w
  | _ => terminate_ w = true ∨ Terminate ∈ queue w
  end.

Definition has_mutex (l : looper) : bool := match l with LSet | LNotify | LUnlock => true | _ => false end.
(** Before it looks at [terminate_] the loop may block. *)
Definition may_block (l : looper) : bool :=
  match l with LOps _ true | LTerm _ true | LExit _ _ | LCheck _ | LReset => false | _ => true end.
Definition has_finished (l : looper) : bool := match l with LNotify | LUnlock | LOut => true | _ => false end.

Definition stopper_ok (w : world) (i : nat) (c : stopper) : Prop :=
  match c with
  | SCheck | SPush | SStore => True
  | SExit | SLock => ended w
  | SHold => ended w ∧ mutex w = Some (Stopper i)
  | SWait => ended w ∧ (finished w = false ∨ looper_ w = LNotify)
  | SUnlock => mutex w = Some (Stopper i) ∧ ((started w ≤ 1)%nat → finished w = true)
  | SRet => (started w ≤ 1)%nat → finished w = true
  end.

Record good (w : world) : Prop := {
  g_stopper i c : stoppers w !! i = Some c → stopper_ok w i c;
  g_held i : mutex w = Some (Stopper i) → stoppers w !! i = Some SHold ∨ stoppers w !! i = Some SUnlock;
  g_loop : mutex w = Some Loop ↔ has_mutex (looper_ w) = true;
  g_finished : has_finished (looper_ w) = true → started w ≠ 0%nat → finished w = true;
  g_exit : terminate_ w = true → may_block (looper_ w) = true →
    exit_ w = true ∨ ∃ i, stoppers w !! i = Some SExit;
  g_once : (started w ≤ 1)%nat → finished w = true → has_finished (looper_ w) = true;
  g_zero : started w = 0%nat → looper_ w = LOut ∧ finished w = false;
}.

Lemma stop_init_good : good init.
Proof. split; simpl; done. Qed.

(** What is true of a call goes on to be, while the end of the loop comes nearer. *)
Lemma stopper_ok_mono w w' i c : (ended w → ended w') →
  (mutex w = Some (Stopper i) → mutex w' = Some (Stopper i)) →
  (finished w = false ∨ looper_ w = LNotify → finished w' = false ∨ looper_ w' = LNotify) →
  (((started w ≤ 1)%nat → finished w = true) → (started w' ≤ 1)%nat → finished w' = true) →
  stopper_ok w i c → stopper_ok w' i c.
Proof. intros He Hm Hf Hs. destruct c; simpl; naive_solver. Qed.

(** The call [i] changes its own place and no one else's. *)
Lemma good_call i c w w' : good w → stoppers w' = <[i := c]> (stoppers w) →
  looper_ w' = looper_ w → finished w' = finished w → started w' = started w →
  (ended w → ended w') →
  (∀ j, i ≠ j → mutex w = Some (Stopper j) → mutex w' = Some (Stopper j)) →
  (∀ j, mutex w' = Some (Stopper j) → (i = j ∧ (c = SHold ∨ c = SUnlock)) ∨ i ≠ j ∧ mutex w = Some (Stopper j)) →
  (mutex w' = Some Loop ↔ mutex w = Some Loop) →
  (terminate_ w' = true → exit_ w' = true ∨ c = SExit ∨
    terminate_ w = true ∧ stoppers w !! i ≠ Some SExit ∧ (exit_ w = true → exit_ w' = true)) →
  stopper_ok w' i c → good w'.
Proof.
  intros [Hs Hh Hl Hf He Ho H0] Es El Ef En Hend Hm Hm' Hloop Hx Hc.
  split; rewrite ?Es, ?El, ?Ef, ?En.
  - intros j d Hd. destruct (decide (i = j)) as [<-|Hne].
    + rewrite lookup_insert_eq in Hd. by injection Hd as <-.
    + rewrite lookup_insert_ne in Hd by done. apply (stopper_ok_mono w); rewrite ?El, ?Ef, ?En; auto.
  - intros j Hj. destruct (Hm' j Hj) as [[<- Hcc]|[Hne Hj']].
    + rewrite lookup_insert_eq. by destruct Hcc as [-> | ->]; auto.
    + rewrite lookup_insert_ne by done. by apply Hh.
  - by rewrite Hloop.
  - done.
  - intros Ht Hb. destruct (Hx Ht) as [?|[-> |(Ht' & Hi & Hxx)]]; [by left|right; exists i; by rewrite lookup_insert_eq|].
    destruct (He Ht' Hb) as [?|[j Hj]]; [by left; apply Hxx|].
    right. exists j. rewrite lookup_insert_ne; [done|by intros <-].
  - done.
  - done.
Qed.

Lemma stop_begin_good i w w' : good w → stop_begin i w = Some w' → good w'.
Proof.
  unfold stop_begin. intros G E. destruct (stoppers w !! i) eqn:Hi; [done|]. injection E as <-.
  apply (good_call i SCheck w _ G); try done.
  - intros j Hj. right. split; [|done]. intros <-. destruct (g_held _ G _ Hj); congruence.
  - intros Ht. right. right. by rewrite Hi.
Qed.

(** A call that does not hold the mutex. *)
Lemma not_holder w i c j : good w → stoppers w !! i = Some c → c ≠ SHold → c ≠ SUnlock →
  mutex w = Some (Stopper j) → i ≠ j.
Proof. intros G Hi H1 H2 Hj <-. destruct (g_held _ G _ Hj); congruence. Qed.

Lemma stop_call_good i w w' : good w → stop_step i w = Some w' → good w'.
Proof.
  unfold stop_step. intros G E. destruct (stoppers w !! i) as [c|] eqn:Hi; [|done].
  pose proof (g_stopper _ G i c Hi) as Hc.
  pose proof (λ j, not_holder w i c j G Hi) as Hne.
  destruct c; simpl in Hc; try done.
  - injection E as <-. eapply (good_call i _ w _ G); try done; simpl.
    + intros j Hj. right. split; [by apply Hne|done].
    + intros Ht. right. right. by rewrite Hi.
    + by destruct (looping w).
  - injection E as <-. assert (Terminate ∈ queue w ++ [Terminate]) as Hq by set_solver.
    eapply (good_call i _ w _ G); try done; simpl.
    + unfold ended. simpl. destruct (looper_ w); auto.
    + intros j Hj. right. split; [by apply Hne|done].
    + intros Ht. right. right. by rewrite Hi.
    + unfold ended. simpl. destruct (looper_ w); auto.
  - injection E as <-. eapply (good_call i _ w _ G); try done; simpl.
    + unfold ended. simpl. destruct (looper_ w); auto.
    + intros j Hj. right. split; [by apply Hne|done].
    + auto.
    + unfold ended. simpl. destruct (looper_ w); auto.
  - injection E as <-. eapply (good_call i _ w _ G); try done; simpl.
    + intros j Hj. right. split; [by apply Hne|done].
    + auto.
  - destruct (mutex w) as [h|] eqn:Em; [done|]. injection E as <-. eapply (good_call i _ w _ G); try done; simpl.
    + rewrite Em. done.
    + intros j [= <-]. auto.
    + by rewrite Em.
    + intros Ht. right. right. by rewrite Hi.
  - injection E as <-. destruct Hc as [He Hm]. destruct (finished w) eqn:Ef; (eapply (good_call i _ w _ G); try done; simpl).
    + intros j Hj. rewrite Hm in Hj. injection Hj as <-. auto.
    + intros Ht. right. right. by rewrite Hi.
    + rewrite Hm. intros j Hj [= <-]. done.
    + by rewrite Hm.
    + intros Ht. right. right. by rewrite Hi.
    + auto.
  - injection E as <-. destruct Hc as [Hm Hf]. eapply (good_call i _ w _ G); try done; simpl.
    + rewrite Hm. intros j Hj [= <-]. done.
    + by rewrite Hm.
    + intros Ht. right. right. by rewrite Hi.
Qed.

Lemma stop_spurious_good i w w' : good w → stop_spurious i w = Some w' → good w'.
Proof.
  unfold stop_spurious. intros G E. destruct (stoppers w !! i) as [[]|] eqn:Hi; try done. injection E as <-.
  eapply (good_call i _ w _ G); try done; simpl.
  - intros j Hj. right. split; [by apply (not_holder w i _ j G Hi)|done].
  - intros Ht. right. right. by rewrite Hi.
  - by destruct (g_stopper _ G i _ Hi).
Qed.

(** The thread of the loop, which leaves the calls where they are. *)
Lemma good_loop w w' : good w → stoppers w' = stoppers w → started w' = started w →
  (ended w → ended w') →
  (∀ j, mutex w' = Some (Stopper j) ↔ mutex w = Some (Stopper j)) →
  (finished w = false ∨ looper_ w = LNotify → finished w' = false ∨ looper_ w' = LNotify) →
  ((started w ≤ 1)%nat → finished w = true → finished w' = true) →
  (mutex w' = Some Loop ↔ has_mutex (looper_ w') = true) →
  (has_finished (looper_ w') = true → started w ≠ 0%nat → finished w' = true) →
  (terminate_ w' = true → may_block (looper_ w') = true → exit_ w' = true ∨
    terminate_ w = true ∧ may_block (looper_ w) = true ∧ exit_ w' = exit_ w) →
  ((started w ≤ 1)%nat → finished w' = true → has_finished (looper_ w') = true) →
  (started w = 0%nat → looper_ w' = LOut ∧ finished w' = false) → good w'.
Proof.
  intros [Hs Hh Hl Hf He Ho H0] Es En Hend Hm Hw Hfin Hl' Hf' Hx Ho' H0'. split; rewrite ?Es, ?En.
  - intros i c Hc. apply (stopper_ok_mono w); rewrite ?En; try done; [|by auto|by apply Hs]. by intros ?; apply Hm.
  - intros j Hj. by apply Hh, Hm.
  - done.
  - done.
  - intros Ht Hb. destruct (Hx Ht Hb) as [?|(Ht' & Hb' & ->)]; [by left|by apply He].
  - done.
  - done.
Qed.

Lemma event_good w w' : good w → loop_event w = Some w' → good w'.
Proof.
  unfold loop_event. intros G E. destruct (looper_ w) eqn:El; try done. injection E as <-.
  pose proof G as [Hs Hh Hl Hf He Ho H0]. rewrite El in *.
  apply (good_loop w); try done; unfold ended; simpl; rewrite ?El; try naive_solver.
Qed.

Ltac loop_solve :=
  simpl in *; repeat match goal with H : good _ |- _ => clear H | H : ∀ _ _, stoppers _ !! _ = _ → _ |- _ => clear H
    | H : ∀ _, mutex _ = Some _ → _ |- _ => clear H end; intuition congruence.

Lemma queue_good w q : good w → (Terminate ∈ queue w → Terminate ∈ q) → good (set_queue q w).
Proof.
  intros G Hq. pose proof G as [Hs Hh Hl Hf He Ho H0].
  apply (good_loop w); try done; unfold ended; simpl; clear -Hl Hf He Ho H0 Hq; destruct (looper_ w); intuition.
Qed.

Lemma not_under_way w i c : stopping w = false → stoppers w !! i = Some c → c = SRet.
Proof.
  unfold stopping. intros Hn Hi. destruct (under_way c) eqn:Hc; [|by destruct c].
  assert (existsb under_way (map_to_list (stoppers w)).*2 = true) as E; [|congruence].
  apply existsb_exists. exists c. split; [|done].
  apply list_elem_of_In, list_elem_of_fmap. exists (i, c). split; [done|by apply elem_of_map_to_list].
Qed.

Lemma start_good m w w' : good w → loop_start m w = Some w' → overrun w' = false → good w'.
Proof.
  unfold loop_start. intros G E Ho. destruct (looper_ w) eqn:El; try done. injection E as <-. simpl in Ho.
  apply orb_false_iff in Ho as [_ Ho]. pose proof G as [Hs Hh Hl Hf He Honce Hz]. rewrite El in *.
  assert (started w = 0%nat → finished w = false) as H0.
  { intros E0. by apply Hz. }
  split; simpl; try done.
  - intros i c Hi. specialize (Hs i c Hi). apply andb_false_iff in Ho as [Ho|Ho].
    + apply negb_false_iff, Nat.eqb_eq in Ho. specialize (H0 Ho). rewrite Ho in *.
      unfold stopper_ok, ended in *. rewrite El in Hs. simpl in *.
      assert (started w ≤ 1)%nat as Hle by lia. destruct c; intuition congruence.
    + rewrite (not_under_way w i c Ho Hi) in *. simpl in *. intros E1.
      assert (started w = 0%nat) as E0 by lia. rewrite Hs in H0 by lia. by specialize (H0 E0).
  - intros E1 E2. rewrite H0 in E2 by lia. done.
Qed.

Lemma pop_good m (p : bool) w w' : good w → looper_ w = (if p then LPoll m else LOps m p) ∨ looper_ w = LOps m p →
  pop m p w = Some w' → good w'.
Proof.
  unfold pop. intros G El E. pose proof G as [Hs Hh Hl Hf He Ho H0].
  destruct (queue w) as [|o q] eqn:Eq; [done|].
  assert (Terminate ∈ User :: q → Terminate ∈ q) as Hq by set_solver.
  destruct o; injection E as <-; destruct El as [El|El], p; simpl in El;
    (apply (good_loop w); try done; unfold ended; simpl; rewrite ?El, ?Eq in *; loop_solve).
Qed.

Lemma notify_good w : good w → looper_ w = LNotify → good (set_looper LUnlock (set_stoppers (fmap wake) w)).
Proof.
  intros [Hs Hh Hl Hf He Ho H0] El. rewrite El in *. split; simpl.
  - intros i c Hi. rewrite lookup_fmap in Hi. destruct (stoppers w !! i) as [d|] eqn:Ei; [|done].
    injection Hi as <-. specialize (Hs i d Ei). destruct d; simpl in *; unfold ended in *; rewrite ?El in *; loop_solve.
  - intros i Hi. rewrite lookup_fmap. destruct (Hh i Hi) as [-> | ->]; [by left|by right].
  - done.
  - done.
  - intros Ht Hb. destruct (He Ht Hb) as [?|[i Hi]]; [by left|right]. exists i. by rewrite lookup_fmap, Hi.
  - auto.
  - intros E. by destruct (H0 E).
Qed.

Lemma loop_step_good c w w' : good w → loop_step c w = Some w' → good w'.
Proof.
  unfold loop_step. intros G E. pose proof G as [Hs Hh Hl Hf He Ho H0].
  destruct (looper_ w) as [|m|m p|m p|m p|m|m| | | | | |] eqn:El; try done.
  - injection E as <-. apply (good_loop w); try done; unfold ended; simpl; rewrite ?El; loop_solve.
  - destruct (pop m p w) as [w1|] eqn:Ep.
    + injection E as <-. eapply pop_good; [exact G|by right|exact Ep].
    + injection E as <-. unfold pop in Ep. destruct (queue w) as [|[] q] eqn:Eq; try done.
      apply (good_loop w); try done; unfold ended; simpl; rewrite ?El; destruct p; simpl in *; loop_solve.
  - injection E as <-. apply (good_loop w); try done; unfold ended; simpl; rewrite ?El; loop_solve.
  - injection E as <-. apply (good_loop w); try done; unfold ended; simpl; rewrite ?El; destruct p; simpl in *; loop_solve.
  - destruct c.
    + destruct (exit_ w); [|done]. injection E as <-. apply (good_loop w); try done; unfold ended; simpl; rewrite ?El; loop_solve.
    + apply (pop_good m true w); [exact G|by left|exact E].
  - injection E as <-. destruct (terminate_ w) eqn:Et; destruct m, c; simpl;
      (apply (good_loop w); try done; unfold ended; simpl; rewrite ?El, ?Et; loop_solve).
  - injection E as <-. apply (good_loop w); try done; unfold ended; simpl; rewrite ?El; loop_solve.
  - injection E as <-. apply (good_loop w); try done; unfold ended; simpl; rewrite ?El; loop_solve.
  - destruct (mutex w) as [h|] eqn:Em; [done|]. injection E as <-.
    apply (good_loop w); try done; unfold ended; simpl; rewrite ?El; loop_solve.
  - injection E as <-. apply (good_loop w); try done; unfold ended; simpl; rewrite ?El; loop_solve.
  - injection E as <-. by apply notify_good.
  - injection E as <-. apply (good_loop w); try done; unfold ended; simpl; rewrite ?El; loop_solve.
Qed.

(** Only the begin of a loop counts. *)
Lemma moves_same w w' : moves w w' → started w' = started w ∧ overrun w' = overrun w.
Proof.
  intros [[i E]|[c E]].
  - unfold stop_step in E. repeat (case_match; try done); by injection E as <-.
  - unfold loop_step, pop in E. repeat (case_match; try done); simplify_eq; done.
Qed.
Lemma happens_same w w' : happens w w' →
  (started w' = started w ∧ overrun w' = overrun w) ∨ ∃ m, loop_start m w = Some w'.
Proof.
  intros [[i E]|[[i E]|[E|[E| ->]]]]; [| |by right| |by left].
  - left. unfold stop_begin in E. case_match; [done|]. by injection E as <-.
  - left. unfold stop_spurious in E. repeat (case_match; try done). by injection E as <-.
  - left. unfold loop_event in E. repeat (case_match; try done). by injection E as <-.
Qed.
Lemma loop_start_counts m w w' : loop_start m w = Some w' →
  started w' = S (started w) ∧ overrun w' = overrun w || negb (started w =? 0)%nat && stopping w.
Proof. unfold loop_start. intros E. case_match; try done. by injection E as <-. Qed.

Lemma stop_step_good w w' : (overrun w = false → good w) → step w w' → overrun w' = false → good w'.
Proof.
  intros IH [Hm|Hh] Ho.
  - destruct (moves_same w w' Hm) as [_ E]. assert (good w) as G by (apply IH; congruence).
    destruct Hm as [[i Hi]|[c Hc]]; [by eapply stop_call_good|by eapply loop_step_good].
  - assert (overrun w = false) as Ho'.
    { destruct (happens_same w w' Hh) as [[_ E]|[m E]]; [congruence|].
      apply loop_start_counts in E as [_ E]. rewrite Ho in E. symmetry in E. by apply orb_false_iff in E as [-> _]. }
    specialize (IH Ho'). destruct Hh as [[i E]|[[i E]|[[m E]|[E| ->]]]].
    + by eapply stop_begin_good.
    + by eapply stop_spurious_good.
    + by eapply start_good.
    + by eapply event_good.
    + apply queue_good; [done|]. set_solver.
Qed.

Lemma stop_reachable_good w : rtc step init w → overrun w = false → good w.
Proof.
  intros R. apply (rtc_invariant step (λ w, overrun w = false → good w) init w); [|exact R|intros _; apply stop_init_good].
  intros a b Ha Hs. by apply (stop_step_good a b).
Qed.
Lemma reachable_once w : rtc step init w → (started w ≤ 1)%nat → overrun w = false.
Proof.
  intros R. apply (rtc_invariant step (λ w, (started w ≤ 1)%nat → overrun w = false) init w); [|exact R|done].
  intros a b Ha Hs Hb. assert (moves a b ∨ happens a b) as [Hm|Hh] by apply Hs.
  - destruct (moves_same a b Hm) as [E1 ->]. apply Ha. lia.
  - destruct (happens_same a b Hh) as [[E1 ->]|[m E]]; [apply Ha; lia|].
    destruct (loop_start_counts m a b E) as [E1 ->]. rewrite Ha by lia.
    by replace (started a) with 0%nat by lia.
Qed.

(** ** What is left to do *)

(** The loop still has to notify. *)
Definition will_notify (l : looper) : bool := match l with LOut | LUnlock => false | _ => true end.
Definition stopper_rank (b : bool) (c : stopper) : nat :=
  match c with
  | SCheck => 40 | SPush => 35 | SStore => 20 | SExit => 19 | SRet => 0 | SUnlock => 1
  | SLock => if b then 9 else 5
  | SHold => if b then 8 else 4
  | SWait => if b then 7 else 3
  end.
Definition looper_rank (l : looper) : nat :=
  match l with
  | LOut => 0 | LUnlock => 1 | LNotify => 2 | LSet => 3 | LLock => 4 | LZero => 5 | LReset => 6
  | LPoll _ => 7 | LOps _ false => 8 | LCheck _ => 9 | LOps _ true => 10
  | LExit _ p => if p then 15 else 13
  | LTerm _ p => if p then 16 else 14
  | LStart _ => 17
  end.
Abbreviation total b := (msum (stopper_rank b)).
Definition work (w : world) : nat :=
  total (will_notify (looper_ w)) (stoppers w) + 20 * length (queue w) + (if exit_ w then 4 else 0) +
  looper_rank (looper_ w).

Lemma total_wake m : (total false (wake <$> m) ≤ total true m)%nat.
Proof. apply msum_fmap_le. intros []; simpl; lia. Qed.

Lemma pop_work m p w w' : pop m p w = Some w' → looper_ w = LPoll m ∨ looper_ w = LOps m p →
  (work w' < work w)%nat.
Proof.
  unfold pop, work. destruct (queue w) as [|[] q]; intros E [El|El]; try done; injection E as <-; rewrite El;
    destruct p; simpl; lia.
Qed.

Lemma stop_moves_work w w' : moves w w' → (work w' < work w)%nat.
Proof.
  intros [[i E]|[c E]].
  - unfold stop_step in E. destruct (stoppers w !! i) as [c|] eqn:Ei; [|done]. unfold work.
    pose proof (λ c', msum_update (stopper_rank (will_notify (looper_ w))) _ i c c' Ei) as Ht.
    destruct c; try done.
    + injection E as <-. specialize (Ht (if looping w then SPush else SStore)). simpl. destruct (looping w); simpl in *; lia.
    + injection E as <-. specialize (Ht SLock). simpl. rewrite length_app. destruct (will_notify (looper_ w)); simpl in *; lia.
    + injection E as <-. specialize (Ht SExit). simpl in *. lia.
    + injection E as <-. specialize (Ht SLock). simpl. destruct (will_notify (looper_ w)), (exit_ w); simpl in *; lia.
    + destruct (mutex w); [done|]. injection E as <-. specialize (Ht SHold). simpl. destruct (will_notify (looper_ w)); simpl in *; lia.
    + injection E as <-. pose proof (Ht SUnlock). specialize (Ht SWait). destruct (finished w); simpl; destruct (will_notify (looper_ w)); simpl in *; lia.
    + injection E as <-. specialize (Ht SRet). simpl in *. lia.
  - unfold loop_step in E. destruct (looper_ w) as [|m|m p|m p|m p|m|m| | | | | |] eqn:El; try done.
    + injection E as <-. unfold work. rewrite El. simpl. lia.
    + destruct (pop m p w) as [w1|] eqn:Ep; injection E as <-; [eapply pop_work; eauto|].
      unfold work. rewrite El. destruct p; simpl; lia.
    + injection E as <-. unfold work. rewrite El. destruct p; simpl; lia.
    + injection E as <-. unfold work. rewrite El. destruct p, (exit_ w); simpl; lia.
    + destruct c; [|eapply pop_work; eauto]. destruct (exit_ w) eqn:Ex; [|done]. injection E as <-.
      unfold work. rewrite El, Ex. simpl. lia.
    + injection E as <-. unfold work. rewrite El. destruct m, c, (terminate_ w); simpl; lia.
    + injection E as <-. unfold work. rewrite El. simpl. lia.
    + injection E as <-. unfold work. rewrite El. simpl. lia.
    + destruct (mutex w); [done|]. injection E as <-. unfold work. rewrite El. simpl. lia.
    + injection E as <-. unfold work. rewrite El. simpl. lia.
    + injection E as <-. unfold work. rewrite El. simpl. pose proof (total_wake (stoppers w)). lia.
    + injection E as <-. unfold work. rewrite El. simpl. lia.
Qed.

(** When neither a call nor the loop can go on, and a loop was begun: every call has
    returned. *)
Lemma stop_rest_returned w : good w → started w ≠ 0%nat → (∀ w', ¬ moves w w') →
  ∀ i c, stoppers w !! i = Some c → c = SRet.
Proof.
  intros G Hst Hn. pose proof G as [Hs Hh Hl Hf He Ho Hz].
  assert (∀ i, stop_step i w = None) as Hcall.
  { intros i. destruct (stop_step i w) as [w'|] eqn:E; [|done]. destruct (Hn w'). left. by exists i. }
  assert (∀ c, loop_step c w = None) as Hloop.
  { intros c. destruct (loop_step c w) as [w'|] eqn:E; [|done]. destruct (Hn w'). right. by exists c. }
  assert (mutex w = None ∨ mutex w = Some Loop) as Hm.
  { destruct (mutex w) as [[i|]|] eqn:Em; [|by right|by left].
    specialize (Hcall i). unfold stop_step in Hcall. destruct (Hh i eq_refl) as [E|E]; by rewrite E in Hcall. }
  assert (mutex w = None ∧ (looper_ w = LOut ∨ ∃ m, looper_ w = LPoll m ∧ queue w = [] ∧ exit_ w = false)) as [Hm0 Hw].
  { pose proof (Hloop true) as H1. pose proof (Hloop false) as H2. unfold loop_step in H1, H2.
    destruct (looper_ w) as [|m|m p|m p|m p|m|m| | | | | |] eqn:El; try done.
    - split; [|by left]. destruct Hm as [|Hm]; [done|]. by apply Hl in Hm.
    - by destruct (pop m p w).
    - split; [destruct Hm as [|Hm]; [done|by apply Hl in Hm]|right]. exists m. split; [done|].
      unfold pop in H2. destruct (queue w) as [|[] q]; try done. by destruct (exit_ w).
    - destruct Hm as [Hm|Hm]; [by rewrite Hm in H1|by apply Hl in Hm]. }
  assert (∀ i, stoppers w !! i ≠ Some SExit) as Hx.
  { intros i Hi. specialize (Hcall i). unfold stop_step in Hcall. by rewrite Hi in Hcall. }
  intros i c Hi. specialize (Hcall i). unfold stop_step in Hcall. rewrite Hi in Hcall.
  destruct c; try done; [by rewrite Hm0 in Hcall|]. exfalso.
  destruct (Hs i _ Hi) as [Hend Hwait]. destruct Hw as [El|(m & El & Eq & Ex)]; unfold ended in Hend; rewrite El in *.
  - rewrite Hf in Hwait by done. by destruct Hwait.
  - rewrite Eq in Hend. destruct Hend as [Ht|Ht]; [|by apply not_elem_of_nil in Ht].
    destruct (He Ht) as [?|[j Hj]]; [done|congruence|]. by apply (Hx j).
Qed.

(** ** Running a schedule *)

Inductive act := Begin (i : nat) | Stopper_goes (i : nat) | Start (m : LoopMode) | Loop_goes (c : bool) | Event.
Definition exec (a : act) (w : world) : option world :=
  match a with
  | Begin i => stop_begin i w
  | Stopper_goes i => stop_step i w
  | Start m => loop_start m w
  | Loop_goes c => loop_step c w
  | Event => loop_event w
  end.
Abbreviation exec_all := (run_schedule exec).

Lemma stop_exec_step a w w' : exec a w = Some w' → step w w'.
Proof.
  unfold step. destruct a as [i|i|m|c|]; simpl; intros E.
  - right. left. by exists i.
  - left. left. by exists i.
  - right. right. right. left. by exists m.
  - left. right. by exists c.
  - right. right. right. right. by left.
Qed.
Lemma stop_exec_steps l w w' : exec_all l w = Some w' → rtc step w w'.
Proof. apply schedule_rtc, stop_exec_step. Qed.
Lemma stop_exec_moves l w w' :
  forallb (λ a, match a with Stopper_goes _ | Loop_goes _ => true | _ => false end) l = true →
  exec_all l w = Some w' → nsteps moves (length l) w w'.
Proof. apply schedule_nsteps. intros [i|i|m|c|] w1 w2 Ha E; try done; simpl in E; [left|right]; eauto. Qed.

(** A loop runs; two threads call [stop], of which one waits already. *)
Definition two_stops : list act :=
  [Start EventLoop.FOREVER; Loop_goes false; Loop_goes false;
   Begin 0; Begin 1] ++ replicate 4 (Stopper_goes 0) ++ [Stopper_goes 1].
Definition stopping_world : world := default init (exec_all two_stops init).
Lemma stopping_reachable : rtc step init stopping_world.
Proof. apply (stop_exec_steps two_stops). by vm_compute. Qed.
(** The loop ends, and both return. *)
Definition both_return : list act :=
  Stopper_goes 1 :: replicate 14 (Loop_goes false) ++ replicate 3 (Stopper_goes 0) ++ replicate 3 (Stopper_goes 1).

(** ** What [stop] does *)

(** C15: any number of threads other than the loop's call [stop], at any time.  On a base
    whose loop is run once, a call that has returned has seen the loop finish.  As long as
    no later loop is begun over a [stop] that is under way, every call returns, whatever the interleaving: after
    no more than [work] steps of the calls and of the loop neither can go on, and then all
    calls have returned. *)
Theorem stop_returns w :
  rtc step init w →
  ((started w ≤ 1)%nat → ∀ i, stoppers w !! i = Some SRet →
    finished w = true ∧ has_finished (looper_ w) = true) ∧
  (overrun w = false → started w ≠ 0%nat → ∀ n w', nsteps moves n w w' → (n ≤ work w)%nat ∧
    ((∀ w'', ¬ moves w' w'') → ∀ i c, stoppers w' !! i = Some c → c = SRet)).
Proof.
  intros R. split.
  - intros H1 i Hi. pose proof (stop_reachable_good w R (reachable_once w R H1)) as G.
    assert (finished w = true) as Hf by by apply (g_stopper _ G i _ Hi). split; [done|by apply G].
  - intros Ho Hst n w' Hn.
    assert ((n + work w' ≤ work w)%nat ∧ overrun w' = false ∧ started w' ≠ 0%nat ∧ rtc step init w') as (Hw & Ho' & Hst' & R').
    { induction Hn as [w|n w w1 w' Hs _ IH]; [done|]. pose proof (stop_moves_work w w1 Hs) as Hw.
      destruct (moves_same w w1 Hs) as [E1 E2]. rewrite <- E1 in Hst. rewrite <- E2 in Ho.
      destruct IH as (? & ? & ?); [by eapply rtc_r; [exact R|left]|done|done|]. split; [lia|done]. }
    split; [lia|]. by apply stop_rest_returned; [apply stop_reachable_good|].
Qed.

Lemma stop_returns_witness : ∃ w',
  nsteps moves 21 stopping_world w' ∧ (21 ≤ work stopping_world)%nat ∧
  stoppers w' !! 0%nat = Some SRet ∧ stoppers w' !! 1%nat = Some SRet ∧ looper_ w' = LOut.
Proof.
  pose (w' := default init (exec_all both_return stopping_world)).
  assert (nsteps moves 21 stopping_world w') as Hn by (apply (stop_exec_moves both_return); by vm_compute).
  destruct (stop_returns stopping_world stopping_reachable) as [_ H].
  assert (started stopping_world ≠ 0%nat) as Hs by by vm_compute.
  destruct (H eq_refl Hs 21%nat w' Hn) as [Hw _]. exists w'. split; [exact Hn|]. split; [exact Hw|]. by vm_compute.
Defined.

(** ** What it does to other loops *)

(** A loop of one turn. *)
Definition one_turn : list act :=
  [Start EventLoop.ONCE; Loop_goes false; Loop_goes false; Event] ++ replicate 7 (Loop_goes false).

(** The loop ends for a [stop] that has not looked yet when the next one begins. *)
Definition missed : list act :=
  [Start EventLoop.FOREVER; Loop_goes false; Loop_goes false; Begin 0; Stopper_goes 0; Stopper_goes 0] ++
  replicate 11 (Loop_goes false) ++ [Start EventLoop.FOREVER; Loop_goes false; Loop_goes false] ++
  [Loop_goes true; Loop_goes false; Loop_goes false; Stopper_goes 0; Stopper_goes 0].
(** [stop] finds the loop's thread, but what an earlier loop has left in [finished]. *)
Definition early : list act := one_turn ++ [Start EventLoop.FOREVER; Begin 0] ++ replicate 5 (Stopper_goes 0).
(** [stop] finds the loop's thread, which ends before [stop] has queued its operation. *)
Definition late : list act :=
  [Start EventLoop.ONCE; Begin 0; Stopper_goes 0; Loop_goes false; Loop_goes false; Event] ++
  replicate 7 (Loop_goes false) ++ replicate 4 (Stopper_goes 0).

Definition next_loop : list act :=
  replicate 5 (Loop_goes false) ++ [Loop_goes true] ++ replicate 7 (Loop_goes false).

(** A call waits, and the loop for an event. *)
Lemma waits_for_event w m : stoppers w = {[0%nat := SWait]} → looper_ w = LPoll m → queue w = [] →
  exit_ w = false → ∀ w', ¬ moves w w'.
Proof.
  intros Es El Eq Ex w' [[i E]|[c E]].
  - unfold stop_step in E. rewrite Es in E. destruct (decide (i = 0%nat)) as [-> |Hi].
    + by rewrite lookup_singleton_eq in E.
    + by rewrite lookup_singleton_ne in E.
  - unfold loop_step, pop in E. rewrite El, Eq, Ex in E. by destruct c.
Qed.

(** C28: what goes wrong with more than one loop.  (1) A [stop] that ends a loop but has not
    looked at [finished] when the next loop begins waits for that one, which nothing
    stops: neither goes on without an event.  (2) A [stop] of a loop that has just begun
    takes what an earlier loop has left in [finished] for its end, and returns at once.
    (3) A [stop] that finds the loop's thread when it ends leaves its operation in the
    queue: the next loop, FOREVER too, ends in its first turn although no one stops it. *)
Theorem stop_races :
  (∃ w m, rtc step init w ∧ stoppers w = {[0%nat := SWait]} ∧ looper_ w = LPoll m ∧ started w = 2%nat ∧
    ∀ w', ¬ moves w w') ∧
  (∃ w m, rtc step init w ∧ stoppers w = {[0%nat := SRet]} ∧ looper_ w = LStart m ∧ overrun w = false) ∧
  (∃ w w1 w2, rtc step init w ∧ stoppers w = {[0%nat := SRet]} ∧
    loop_start EventLoop.FOREVER w = Some w1 ∧ nsteps moves 13 w1 w2 ∧ looper_ w2 = LOut ∧
    stoppers w2 = {[0%nat := SRet]}).
Proof.
  split; [|split].
  - exists (default init (exec_all missed init)), EventLoop.FOREVER.
    split; [apply (stop_exec_steps missed); by vm_compute|]. split_and!; [by vm_compute..|].
    apply (waits_for_event _ EventLoop.FOREVER); by vm_compute.
  - exists (default init (exec_all early init)), EventLoop.FOREVER.
    split; [apply (stop_exec_steps early); by vm_compute|]. by vm_compute.
  - set (w := default init (exec_all late init)). set (w1 := default init (loop_start EventLoop.FOREVER w)).
    exists w, w1, (default init (exec_all next_loop w1)).
    split; [apply (stop_exec_steps late); by vm_compute|]. split; [by vm_compute|]. split; [by vm_compute|].
    split; [apply (stop_exec_moves next_loop); by vm_compute|]. by vm_compute.
Qed.
