(* ===== verification/EventBase.v ===== *)
(** * The life of an event base

    The constructor and the destructor of [LibeventEventBase], [initNotify] and
    [mkEventBase] ([src/libevent_event_base.cc]): the descriptors of the notification
    channel, and the handler that is registered for them as an internal event.  The
    calls to libevent and to the system that make and free these things are
    parameters. *)

From S2P Require Import Prelude What Libevent EventLoop Handlers.

(** The branches of the conditional compilation in [initNotify]. *)
Inductive platform := HAVE_EVENTFD | POSIX | WINDOWS.

(** [NotifyInit]. *)
Record NotifyInit := mkNotifyInit { init_fds : Z * Z; init_type : NotifyType }.

Section base.
Context `{Libevent} (NDEBUG : bool) (self : N) {K : Type} (p : platform).

(** An event base: libevent's object, and the notification channel with its handler. *)
Record LibeventEventBase := mkEB {
  base_ : N;
  notify_type : NotifyType;
  notify_fds : Z * Z;
  notify_handler : N;
}.

Record world := mkBW {
  objects : Handlers.world;
  ebases : gmap N LibeventEventBase;
  os : K;
}.
Definition set_objects h (w : world) : world := mkBW h (ebases w) (os w).
Definition set_ebases f (w : world) : world := mkBW (objects w) (f (ebases w)) (os w).
Definition set_os k (w : world) : world := mkBW (objects w) (ebases w) k.

Context (event_base_new : K → N * K) (event_base_free : N → K → unit * K).
Context (eventfd : K → Z * K) (pipe evutil_socketpair : K → (Z * (Z * Z)) * K).
Context (xclose : Z → K → Z * K).

Definition call {A} (f : K → A * K) : M world A :=
  w ← get; let '(a, k) := f (os w) in put (set_os k w);; mret a.
Definition on_objects {A} (m : M Handlers.world A) : M world A := zoom objects set_objects m.

Definition initNotify : M world NotifyInit :=
  '(rc, ret) ← (match p with
    | HAVE_EVENTFD =>
        fd ← call eventfd;
        mret (if fd <? 0 then -1 else 0, mkNotifyInit (fd, -1) EVENTFD)
    | POSIX => '(rc, fds) ← call pipe; mret (rc, mkNotifyInit fds PIPE)
    | WINDOWS => '(rc, fds) ← call evutil_socketpair; mret (rc, mkNotifyInit fds SOCKETPAIR)
    end);
  if negb (rc =? 0) then throw (runtime_error "Error configuring notification descriptors")
  else mret ret.

(** [Notify::Notify], with its handler [h]. *)
Definition Notify_new (h : N) (init : NotifyInit) : M world unit :=
  on_objects (EventHandler_new h (init_fds init).1).

Definition LibeventEventBase_new (this h : N) : M world unit :=
  base ← call event_base_new;
  on_objects (modify (λ w,
    mkWorld (handlers w) (timeouts w) (<[this := 0%N]> (loopThread_ w)) (library w)));;
  init ← initNotify;
  Notify_new h init;;
  modify (set_ebases <[this := mkEB base (init_type init) (init_fds init) h]>);;
  on_objects (registerHandlerInternal NDEBUG self this h READ true).

Definition mkEventBase (this h : N) : M world unit := LibeventEventBase_new this h.

Definition LibeventEventBase_delete (this : N) : M world unit :=
  w ← get;
  match ebases w !! this with
  | None => fail UseAfterFree
  | Some b =>
      on_objects (EventHandler_unregister NDEBUG self (notify_handler b));;
      call (event_base_free (base_ b));;
      when (0 <? (notify_fds b).1) (call (xclose (notify_fds b).1);; mret tt);;
      when (0 <? (notify_fds b).2) (call (xclose (notify_fds b).2);; mret tt);;
      (* the members are destroyed *)
      on_objects (EventHandler_delete (notify_handler b));;
      modify (set_ebases (delete this))
  end.
End base.
Arguments world {_} K.
