(* ===== verification/EventBaseProps.v ===== *)
(** * The life of an event base: its theorems

    Making a base registers its notification handler, and destroying it gives back
    all that was taken: libevent's object, the descriptors, the handler. *)

From S2P Require Import Prelude What Libevent EventLoop Handlers HandlersSpec EventBase.

(** The descriptors of a channel. *)
Definition fds_of (fds : Z * Z) : gset Z := list_to_set (filter (λ z, 0 ≤ z) [fds.1; fds.2]).

(** What is left open of the descriptors [fds] when the positive ones are closed. *)
Lemma closed_again (fds : Z * Z) (X : gset Z) : fds_of fds ## X →
  (fds_of fds ∪ X) ∖ list_to_set (filter (λ z, 0 < z) [fds.1; fds.2]) =
    if decide (0 ∈ fds_of fds ∪ X) then {[0]} ∪ X else X.
Proof.
  intros Hd.
  assert (Hin : ∀ z, z ∈ fds_of fds ↔ 0 ≤ z ∧ (z = fds.1 ∨ z = fds.2)).
  { intros z. unfold fds_of. rewrite elem_of_list_to_set, list_elem_of_filter, !elem_of_cons, elem_of_nil. tauto. }
  assert (Hout : ∀ z, z ∈ (list_to_set (filter (λ z, 0 < z) [fds.1; fds.2]) : gset Z) ↔
    0 < z ∧ (z = fds.1 ∨ z = fds.2)).
  { intros z. rewrite elem_of_list_to_set, list_elem_of_filter, !elem_of_cons, elem_of_nil. tauto. }
  destruct (decide (0 ∈ fds_of fds ∪ X)) as [H0|H0]; rewrite elem_of_union in H0; apply set_eq; intros z;
    rewrite elem_of_difference, Hout, ?elem_of_union, ?elem_of_singleton; specialize (Hd z);
    rewrite Hin in H0, Hd |- *; unfold fds_of in *; clear Hin Hout; destruct (decide (z = 0)) as [->|]; intuition (try lia).
  all: match goal with F : 0 ≤ _ → _ ∨ _ → _ |- _ => apply F; [lia|auto|done] end.
Qed.

Section props.
Context `{Libevent} (NDEBUG : bool) (self : N) {K : Type} (p : platform).
Implicit Types w : world K.

(** Libevent's objects that are not freed, and the descriptors that are open. *)
Context (bases : K → gset N) (opened : K → gset Z).
Context (event_base_new : K → N * K) (event_base_free : N → K → unit * K).
Context (eventfd : K → Z * K) (pipe evutil_socketpair : K → (Z * (Z * Z)) * K).
Context (xclose : Z → K → Z * K).

(** A call that makes two descriptors, or fails with -1. *)
Definition makes_two (f : K → (Z * (Z * Z)) * K) : Prop := ∀ k rc a b k', f k = ((rc, (a, b)), k') →
  bases k' = bases k ∧
  if decide (rc = 0) then 0 ≤ a ∧ 0 ≤ b ∧ a ≠ b ∧ (a ∉ opened k) ∧ (b ∉ opened k) ∧
    opened k' = {[a; b]} ∪ opened k
  else opened k' = opened k.
Context (new_law : ∀ k b k', event_base_new k = (b, k') →
  (b ∉ bases k) ∧ bases k' = {[b]} ∪ bases k ∧ opened k' = opened k).
Context (free_law : ∀ b k r k', event_base_free b k = (r, k') →
  bases k' = bases k ∖ {[b]} ∧ opened k' = opened k).
Context (eventfd_law : ∀ k fd k', eventfd k = (fd, k') → bases k' = bases k ∧
  if decide (0 ≤ fd) then (fd ∉ opened k) ∧ opened k' = {[fd]} ∪ opened k else opened k' = opened k).
Context (pipe_law : makes_two pipe) (socketpair_law : makes_two evutil_socketpair).
Context (close_law : ∀ fd k r k', xclose fd k = (r, k') →
  bases k' = bases k ∧ opened k' = opened k ∖ {[fd]}).

Abbreviation make := (LibeventEventBase_new NDEBUG self p event_base_new eventfd pipe evutil_socketpair).
Abbreviation destroy := (LibeventEventBase_delete NDEBUG self event_base_free xclose).

Lemma wp_bcall {A} (f : K → A * K) w (Q : A → world K → Prop) :
  (∀ a k, f (os w) = (a, k) → Q a (set_os k w)) → wp (call f) w Q.
Proof. intros HQ. unfold call, wp, mbind, M_bind, get. destruct (f (os w)) eqn:E. by apply HQ. Qed.

Lemma wp_bobjects {A} (m : M Handlers.world A) w (Q : A → world K → Prop) :
  wp m (objects w) (λ a o, Q a (set_objects o w)) → wp (on_objects m) w Q.
Proof. unfold wp, on_objects, zoom. by destruct (m (objects w)). Qed.

Lemma initNotify_ok w :
  ∃ k, bases k = bases (os w) ∧
    ((∃ init, initNotify p eventfd pipe evutil_socketpair w = Done init (set_os k w) ∧
        fds_of (init_fds init) ## opened (os w) ∧
        opened k = fds_of (init_fds init) ∪ opened (os w)) ∨
     (initNotify p eventfd pipe evutil_socketpair w =
        Throws (runtime_error "Error configuring notification descriptors") (set_os k w) ∧
        opened k = opened (os w))).
Proof.
  assert (Htwo : ∀ f t k rc fds, makes_two f → f (os w) = ((rc, fds), k) → bases k = bases (os w) ∧
    if decide (rc = 0) then fds_of (init_fds (mkNotifyInit fds t)) ## opened (os w) ∧
      opened k = fds_of (init_fds (mkNotifyInit fds t)) ∪ opened (os w)
    else opened k = opened (os w)).
  { intros f t k rc [a b] Hf E. destruct (Hf _ _ _ _ _ E) as [Hb Hr]. split; [done|].
    destruct (decide (rc = 0)); [|done]. unfold fds_of. simpl.
    destruct Hr as (Ha & Hb' & _ & Hna & Hnb & ->). rewrite !filter_cons, filter_nil.
    rewrite !decide_True by done. simpl. rewrite union_empty_r_L.
    split; [|done]. intros x Hx. apply elem_of_union in Hx as [->%elem_of_singleton| ->%elem_of_singleton]; done. }
  unfold initNotify, call, get, mbind, M_bind, put, throw. destruct p; simpl.
  - destruct (eventfd (os w)) as [fd k] eqn:E. simpl. destruct (eventfd_law _ _ _ E) as [Hb Ho].
    exists k. split; [done|]. destruct (Z.ltb_spec fd 0).
    + right. split; [done|]. by rewrite decide_False in Ho by lia.
    + left. rewrite decide_True in Ho by lia. destruct Ho as [Hn Ho]. eexists. split; [done|].
      unfold fds_of. simpl. rewrite !filter_cons, filter_nil, decide_True, decide_False by lia.
      simpl. rewrite union_empty_r_L. split; [|done]. by intros x ->%elem_of_singleton.
  - destruct (pipe (os w)) as [[rc fds] k] eqn:E. simpl.
    destruct (Htwo pipe PIPE k rc fds pipe_law E) as [Hb Hr]. exists k. split; [done|].
    destruct (Z.eqb_spec rc 0) as [->|Hrc]; simpl.
    + left. rewrite decide_True in Hr by done. eexists. split; [done|]. exact Hr.
    + right. by rewrite decide_False in Hr by done.
  - destruct (evutil_socketpair (os w)) as [[rc fds] k] eqn:E. simpl.
    destruct (Htwo _ SOCKETPAIR k rc fds socketpair_law E) as [Hb Hr]. exists k. split; [done|].
    destruct (Z.eqb_spec rc 0) as [->|Hrc]; simpl.
    + left. rewrite decide_True in Hr by done. eexists. split; [done|]. exact Hr.
    + right. by rewrite decide_False in Hr by done.
Qed.

(** A handler that has just been made is registered, as an internal event. *)
Lemma register_internal_ok this h fd o :
  world_ok o → handlers o !! h = Some (mkHandler fd None) →
  wp (registerHandlerInternal NDEBUG self this h READ true) o
    (λ _ o', registration this h fd READ true o o').
Proof.
  intros O Hx. unfold registerHandlerInternal, EventHandler_base. wp_step. wp_step.
  eapply wp_get_handler; [done|]. cbn [impl_]. wp_step. wp_step. wp_step. cbn [negb]. cbv iota.
  rewrite bool_decide_false by done.
  by apply (register_tail_ok this h READ true o (mkHandler fd None)).
Qed.

(** What making the base [this] with the handler [h] leaves. *)
Definition made this h w w' : Prop := ∃ b x,
  ebases w' = <[this := b]> (ebases w) ∧ notify_handler b = h ∧
  handlers (objects w') = <[h := x]> (handlers (objects w)) ∧ owned this x ∧
  fd_ x = (notify_fds b).1 ∧ watched_in x = READ ∧
  world_ok (objects w') ∧ thread_ok self this (objects w') ∧
  (∀ j, j ≠ of_handler h → pending (library (objects w')) j = pending (library (objects w)) j) ∧
  (base_ b ∉ bases (os w)) ∧ bases (os w') = {[base_ b]} ∪ bases (os w) ∧
  fds_of (notify_fds b) ## opened (os w) ∧ opened (os w') = fds_of (notify_fds b) ∪ opened (os w).

(** The handler and the registration. *)
Lemma make_tail_ok this h w w1 init b :
  world_ok (objects w) → handlers (objects w) !! h = None →
  handlers (objects w1) = handlers (objects w) → timeouts (objects w1) = timeouts (objects w) →
  library (objects w1) = library (objects w) →
  loopThread_ (objects w1) = <[this := 0%N]> (loopThread_ (objects w)) → ebases w1 = ebases w →
  (b ∉ bases (os w)) → bases (os w1) = {[b]} ∪ bases (os w) →
  fds_of (init_fds init) ## opened (os w) → opened (os w1) = fds_of (init_fds init) ∪ opened (os w) →
  wp (Notify_new h init;;
      modify (set_ebases <[this := mkEB b (init_type init) (init_fds init) h]>);;
      on_objects (registerHandlerInternal NDEBUG self this h READ true)) w1 (λ _ w', made this h w w').
Proof.
  intros O Hn Eh Et El Etd Ee Hb Eb Hd Eo. unfold Notify_new. wp_step. apply wp_bobjects.
  unfold EventHandler_new. wp_step. wp_step. wp_step. apply wp_bobjects. cbn [objects set_objects set_ebases].
  set (x0 := mkHandler (init_fds init).1 None).
  set (o1 := set_handlers <[h:=x0]> (objects w1)).
  assert (Hx0 : handlers o1 !! h = Some x0) by apply lookup_insert_eq.
  assert (O1 : world_ok o1).
  { apply new_handler_ok; [|by rewrite Eh]. destruct O as [O1 O2 O3 O4].
    split; rewrite ?Eh, ?Et, ?El; eauto. }
  eapply wp_mono; [by apply register_internal_ok|].
  intros ? o' Hreg. pose proof Hreg as (rc & [Ch Ct Cl Cp] & _).
  eexists _, _. split; [cbn; by rewrite Ee|]. split; [done|].
  split; [cbn; rewrite Ch; unfold o1; cbn; by rewrite Eh, insert_insert_eq|].
  split; [done|]. split; [done|].
  split; [unfold watched_in; cbn [impl_]; apply (assigned_flags this h _ READ true)|].
  split; [exact (registration_ok this h _ READ true _ _ ltac:(done) O1 Hreg)|].
  split; [left; cbn; rewrite Cl; unfold o1; cbn; by rewrite Etd, lookup_insert_eq|].
  split; [|split; [done|split; [done|split; [done|done]]]].
  intros j Hj. cbn. rewrite Cp, decide_False by done. unfold o1. cbn. by rewrite El.
Qed.

(** Destroying it. *)
Lemma destroy_ok this h w w1 b x :
  made this h w w1 → ebases w1 !! this = Some b → handlers (objects w1) !! h = Some x →
  wp (destroy this) w1 (λ _ w2, ebases w2 = delete this (ebases w1) ∧
    handlers (objects w2) = delete h (handlers (objects w1)) ∧
    (∀ j, pending (library (objects w2)) j =
       if decide (j = of_handler h) then None else pending (library (objects w1)) j) ∧
    bases (os w2) = bases (os w1) ∖ {[base_ b]} ∧
    opened (os w2) = opened (os w1) ∖ list_to_set (filter (λ z, 0 < z) [(notify_fds b).1; (notify_fds b).2])).
Proof.
  intros (b' & x' & Eb & Hh & Ex & Ho & _ & Hw & O & Ht & _) Hb Hx.
  rewrite Eb, lookup_insert_eq in Hb. injection Hb as ->.
  rewrite Ex, lookup_insert_eq in Hx. injection Hx as ->.
  assert (Hx : handlers (objects w1) !! h = Some x) by (by rewrite Ex, lookup_insert_eq).
  unfold LibeventEventBase_delete. apply wp_bind, (wp_done _ _ w1 w1); [done|].
  rewrite Eb, lookup_insert_eq, Hh. wp_step. apply wp_bobjects.
  apply (wp_mono _ _ (λ _ o, changed (objects w1) o h (detached x) None)).
  { unfold EventHandler_unregister, EventHandler_base. wp_step. wp_step. eapply wp_get_handler; [done|].
    wp_step. pose proof Ho as Ho'. unfold owned in Ho'. destruct (impl_ x) as [i|] eqn:Ei.
    - rewrite Ho'. by apply unregister_ok.
    - unfold watched_in in Hw. by rewrite Ei in Hw. }
  intros ? o [Ch Ct Cl Cp]. wp_step. apply wp_bcall. intros [] k1 E1. destruct (free_law _ _ _ _ E1) as [Hb1 Ho1].
  assert (Hclose : ∀ fd w' (Q : unit → world K → Prop),
    (∀ k, bases k = bases (os w') → opened k = opened (os w') ∖ (if decide (0 < fd) then {[fd]} else ∅) →
      Q tt (set_os k w')) → wp (when (0 <? fd) (call (xclose fd);; mret tt)) w' Q).
  { intros fd w' Q HQ. apply wp_when; intros Hfd.
    - wp_step. apply wp_bcall. intros r k E. destruct (close_law _ _ _ _ E). wp_step. apply HQ; [done|].
      by rewrite decide_True by lia.
    - replace w' with (set_os (os w') w') by (by destruct w'). apply HQ; [done|].
      rewrite decide_False by lia. set_solver. }
  wp_step. apply Hclose. intros k2 Hb2 Ho2. wp_step. apply Hclose. intros k3 Hb3 Ho3.
  cbn [os set_os] in *. wp_step. apply wp_bobjects. unfold EventHandler_delete. wp_step.
  eapply (wp_get_handler h (detached x)); [cbn; rewrite Ch; apply lookup_insert_eq|].
  wp_step. wp_step. cbn. rewrite Eb, Ch. split; [done|].
  split; [by rewrite !delete_insert_eq|]. split; [apply Cp|].
  split; [rewrite Hb3, Hb2, Hb1; done|]. rewrite Ho3, Ho2, Ho1. cbn [os set_objects].
  repeat case_decide; simpl; by rewrite ?union_empty_r_L, ?difference_empty_L, ?difference_difference_l_L.
Qed.

(** Making it: with a channel, or without when the system has none to give. *)
Lemma make_ok this h w :
  world_ok (objects w) → handlers (objects w) !! h = None →
  match make this h w with
  | Done _ w1 => made this h w w1
  | Throws e w1 => e = runtime_error "Error configuring notification descriptors" ∧
      handlers (objects w1) = handlers (objects w) ∧ opened (os w1) = opened (os w) ∧
      ∃ b, (b ∉ bases (os w)) ∧ bases (os w1) = {[b]} ∪ bases (os w)
  | _ => False
  end.
Proof.
  intros O Hn. unfold LibeventEventBase_new.
  destruct (event_base_new (os w)) as [b k0] eqn:Eb. destruct (new_law _ _ _ Eb) as (Hnb & Hb & Ho).
  set (w1 := set_objects (mkWorld (handlers (objects w)) (timeouts (objects w))
    (<[this := 0%N]> (loopThread_ (objects w))) (library (objects w))) (set_os k0 w)).
  rewrite (bind_done _ _ _ b (set_os k0 w)) by (unfold call, get, mbind, M_bind; by rewrite Eb).
  rewrite (bind_done _ _ _ tt w1) by done.
  destruct (initNotify_ok w1) as (k1 & Hb1 & [(init & Ei & Hd & Ho1)|(Ei & Ho1)]).
  - rewrite (bind_done _ _ _ _ _ Ei).
    assert (Hm := make_tail_ok this h w (set_os k1 w1) init b O Hn eq_refl eq_refl eq_refl eq_refl
      eq_refl Hnb).
    unfold wp in Hm. cbn [os w1 set_os set_objects] in Hb1, Hd, Ho1, Hm.
    rewrite Ho in Hd, Ho1. rewrite Hb in Hb1. specialize (Hm Hb1 Hd Ho1).
    match type of Hm with match ?o with _ => _ end => by destruct o as [[] w2| | |] end.
  - rewrite (bind_throws _ _ _ _ _ Ei). cbn. split; [done|]. split; [done|].
    split; [by rewrite Ho1|]. exists b. split; [done|]. by rewrite Hb1.
Qed.

(** C12: making an event base takes one object of libevent's and the descriptors of a
    channel, and registers the handler of the channel for reading; destroying it gives
    everything back, except a descriptor that happens to be 0 (it closes positive ones
    only).  When the descriptors cannot be made the constructor throws, and libevent's
    object is never freed. *)
Theorem base_lifecycle this h w :
  world_ok (objects w) → handlers (objects w) !! h = None → ebases w !! this = None →
  match make this h w with
  | Done _ w1 => made this h w w1 ∧ wp (destroy this) w1 (λ _ w2,
      ebases w2 = ebases w ∧ handlers (objects w2) = handlers (objects w) ∧
      (∀ j, pending (library (objects w2)) j = pending (library (objects w)) j) ∧
      bases (os w2) = bases (os w) ∧
      opened (os w2) =
        if decide (0 ∈ opened (os w1)) then {[0]} ∪ opened (os w) else opened (os w))
  | Throws e w1 => e = runtime_error "Error configuring notification descriptors" ∧
      handlers (objects w1) = handlers (objects w) ∧ opened (os w1) = opened (os w) ∧
      ∃ b, (b ∉ bases (os w)) ∧ bases (os w1) = {[b]} ∪ bases (os w)
  | _ => False
  end.
Proof.
  intros O Hn He. pose proof (make_ok this h w O Hn) as Hm.
  destruct (make this h w) as [[] w2| | |]; try done. split; [done|].
  pose proof Hm as (b' & x & Eeb & _ & Ex & _ & _ & _ & _ & _ & Hp & Hnb' & Hbs & Hds & Hos).
  eapply wp_mono; [apply (destroy_ok this h w w2 b' x Hm)|].
  { by rewrite Eeb, lookup_insert_eq. } { by rewrite Ex, lookup_insert_eq. }
  intros [] w3 (E1 & E2 & E3 & E4 & E5).
  split; [by rewrite E1, Eeb, delete_insert_id|]. split; [by rewrite E2, Ex, delete_insert_id|].
  split; [|split].
  - intros j. rewrite E3. destruct (decide (j = of_handler h)) as [->|Hj]; [|by apply Hp].
    destruct (pending _ _) as [[e tv]|] eqn:E; [|done].
    apply (ok_handler _ O) in E as (fd & i & E). by rewrite E in Hn.
  - rewrite E4, Hbs. apply leibniz_equiv. set_solver.
  - rewrite E5, Hos. by apply closed_again.
Qed.
End props.

(** ** A system *)

(** The objects of libevent's and the descriptors that are in use. *)
Definition demo := (gset N * gset Z)%type.

(** A descriptor that is not open. *)
Definition unused (X : gset Z) : Z := Z.of_N (fresh (set_map Z.to_N X : gset N)).
Lemma unused_ok X : 0 ≤ unused X ∧ unused X ∉ X.
Proof.
  unfold unused. split; [lia|]. intros Hin.
  apply (is_fresh (set_map Z.to_N X : gset N)), elem_of_map.
  exists (Z.of_N (fresh (set_map Z.to_N X : gset N))). by rewrite N2Z.id.
Qed.

Definition demo_base_new (k : demo) : N * demo :=
  let b := fresh k.1 in (b, ({[b]} ∪ k.1, k.2)).
Definition demo_base_free (b : N) (k : demo) : unit * demo := (tt, (k.1 ∖ {[b]}, k.2)).
Definition demo_eventfd (k : demo) : Z * demo :=
  let fd := unused k.2 in (fd, (k.1, {[fd]} ∪ k.2)).
Definition demo_two (k : demo) : (Z * (Z * Z)) * demo :=
  let a := unused k.2 in
  let b := unused ({[a]} ∪ k.2) in
  ((0, (a, b)), (k.1, {[a; b]} ∪ k.2)).
Definition demo_close (fd : Z) (k : demo) : Z * demo := (0, (k.1, k.2 ∖ {[fd]})).

Lemma demo_two_law : makes_two fst snd demo_two.
Proof.
  intros k rc a b k' [= <- <- <- <-]. split; [done|]. cbn [fst snd].
  destruct (unused_ok k.2) as [Ha Hna]. destruct (unused_ok ({[unused k.2]} ∪ k.2)) as [Hb Hnb].
  rewrite not_elem_of_union, not_elem_of_singleton in Hnb. destruct Hnb.
  rewrite decide_True by done. by repeat split.
Qed.

(** An empty world. *)
Definition demo_world : world (H := table_libevent) demo :=
  @mkBW table_libevent demo (@mkWorld table_libevent ∅ ∅ ∅ (λ _, None)) ∅ (∅, ∅).

Lemma base_lifecycle_witness :
  match LibeventEventBase_new (H := table_libevent) false 1%N POSIX demo_base_new demo_eventfd demo_two
    demo_two 5%N 7%N demo_world with
  | Done _ w1 => wp (LibeventEventBase_delete (H := table_libevent) false 1%N demo_base_free demo_close 5%N) w1
      (λ _ w2, (os w2).1 = ∅ ∧ (os w2).2 = if decide (0 ∈ (os w1).2) then {[0]} ∪ ∅ else ∅)
  | _ => False
  end.
Proof.
  assert (T := base_lifecycle (H := table_libevent) false 1%N POSIX fst snd demo_base_new demo_base_free
    demo_eventfd demo_two demo_two demo_close).
  unshelve epose proof (T _ _ _ _ _ _ 5%N 7%N demo_world _ _ _) as T'.
  - intros k b k' [= <- <-]. split; [apply is_fresh|done].
  - by intros b k r k' [= <- <-].
  - intros k fd k' [= <- <-]. split; [done|]. destruct (unused_ok k.2).
    by rewrite decide_True by done.
  - apply demo_two_law.
  - apply demo_two_law.
  - by intros fd k r k' [= <- <-].
  - by split.
  - done.
  - done.
  - revert T'. destruct (LibeventEventBase_new _ _ _ _ _ _ _ _ _ _) as [[] w1|e w1| |] eqn:E; [| |done..].
    + intros [_ Hd]. eapply wp_mono; [exact Hd|]. by intros ? w2 (_ & _ & _ & ? & ?).
    + apply (f_equal (λ o, match o with Done _ _ => true | _ => false end)) in E.
      by vm_compute in E.
Defined.
