(* ===== verification/Xplat.v ===== *)
(** * The wrappers of the system calls

    [xwrite], [xread] and [xclose] ([src/xplat-io.cc]): the platform's calls, with
    their counts squeezed into an [int].  The platform's calls themselves are
    parameters. *)

From S2P Require Import Prelude.

Section xplat.
Context {K : Type} (WIN32 : bool).
(** POSIX: the count is a [ssize_t]. *)
Context (sys_write : Z → list cell → K → Z * K) (sys_read : Z → Z → K → (Z * list byte) * K).
Context (sys_close : Z → K → Z * K).
(** Windows: the length that is asked for is an [int] too. *)
Context (sys_send : Z → list cell → Z → K → Z * K) (sys_recv : Z → Z → K → (Z * list byte) * K).
Context (sys_closesocket : Z → K → Z * K).

Definition xwrite (fd : Z) (buf : list cell) (k : K) : Z * K :=
  if WIN32 then sys_send fd buf (int32 (zlength buf)) k
  else let '(n, k) := sys_write fd buf k in (int32 n, k).

(** The count, and the data that were stored. *)
Definition xread (fd : Z) (nbyte : Z) (k : K) : (Z * list byte) * K :=
  if WIN32 then sys_recv fd (int32 nbyte) k
  else let '((n, bs), k) := sys_read fd nbyte k in ((int32 n, bs), k).

Definition xclose (fd : Z) (k : K) : Z * K :=
  if WIN32 then sys_closesocket fd k else sys_close fd k.

(** What [readHelper] makes of the result of [xread]. *)
Definition read_result (r : (Z * list byte) * K) : option (list byte) * K :=
  let '((n, bs), k) := r in (if n <? 0 then None else Some bs, k).
End xplat.

Lemma int32_range z : - 2 ^ 31 ≤ int32 z ≤ INT_MAX.
Proof.
  unfold int32, to_signed, INT_MAX. pose proof (Z.mod_pos_bound z (2 ^ 32) eq_refl).
  case_decide; lia.
Qed.

(** Counts that an [int] cannot hold come out negative. *)
Lemma int32_wraps z : INT_MAX < z < 2 ^ 32 → int32 z = z - 2 ^ 32.
Proof.
  unfold INT_MAX. intros Hz. unfold int32, to_signed.
  rewrite Z.mod_small, decide_False by lia. done.
Qed.

Section laws.
Context {K : Type} (sent : Z → K → list byte) (inbox : Z → K → list byte).
Context (sys_write : Z → list cell → K → Z * K) (sys_send : Z → list cell → Z → K → Z * K).
Context (sys_read sys_recv : Z → Z → K → (Z * list byte) * K).

(** [write(2)], [send] with a length, [read(2)] and [recv]. *)
Definition writes (f : Z → list cell → K → Z * K) : Prop :=
  ∀ fd (bs : list byte) s n s', f fd (Some <$> bs) s = (n, s') →
  -1 ≤ n ≤ zlength bs ∧ sent fd s' = sent fd s ++ take (Z.to_nat n) bs.
Definition sends (f : Z → list cell → Z → K → Z * K) : Prop :=
  ∀ fd (bs : list byte) len s n s', 0 ≤ len ≤ zlength bs → f fd (Some <$> bs) len s = (n, s') →
  -1 ≤ n ≤ len ∧ sent fd s' = sent fd s ++ take (Z.to_nat n) bs.
Definition reads (f : Z → Z → K → (Z * list byte) * K) : Prop :=
  ∀ fd size s n bs s', 0 ≤ size → f fd size s = ((n, bs), s') →
  n ≤ size ∧ (n = -1 ∧ bs = [] ∨ n = zlength bs) ∧ inbox fd s = bs ++ inbox fd s'.

Context (write_ok : writes sys_write) (send_ok : sends sys_send).
Context (read_ok : reads sys_read) (recv_ok : reads sys_recv).

(** [xwrite] of no more bytes than an [int] can count takes a prefix of the data, and
    returns how much, or -1 and takes nothing; and [xread] of such a size reads what
    has arrived.  On POSIX a [write] that takes more than that is reported as a negative
    count, though the data were sent. *)
Theorem xplat_bounds WIN32 fd s :
  (∀ (bs : list byte) n s', zlength bs ≤ INT_MAX →
     xwrite WIN32 sys_write sys_send fd (Some <$> bs) s = (n, s') →
     -1 ≤ n ≤ zlength bs ∧ sent fd s' = sent fd s ++ take (Z.to_nat n) bs) ∧
  (∀ size r s', 0 ≤ size ≤ INT_MAX →
     read_result (xread WIN32 sys_read sys_recv fd size s) = (r, s') →
     inbox fd s = default [] r ++ inbox fd s' ∧ zlength (default [] r) ≤ size) ∧
  (∀ (bs : list byte) n s', sys_write fd (Some <$> bs) s = (n, s') → INT_MAX < n < 2 ^ 32 →
     WIN32 = false →
     ∃ r, xwrite WIN32 sys_write sys_send fd (Some <$> bs) s = (r, s') ∧ r < 0 ∧
       sent fd s' = sent fd s ++ take (Z.to_nat n) bs).
Proof.
  split_and!.
  - intros bs n s' Hb E. unfold xwrite in E. rewrite length_fmap in E. unfold INT_MAX in Hb.
    destruct WIN32.
    + rewrite int32_small in E by lia. by apply (send_ok fd bs (zlength bs)); [lia|].
    + destruct (sys_write fd (Some <$> bs) s) as [m k] eqn:Ew. injection E as <- <-.
      destruct (write_ok fd bs s m k Ew) as [Hm Hs].
      by rewrite int32_small by lia.
  - intros size r s' Hb E. unfold INT_MAX in Hb.
    assert (Hx : ∃ n bs, xread WIN32 sys_read sys_recv fd size s = ((n, bs), s') ∧
      n ≤ size ∧ (n = -1 ∧ bs = [] ∨ n = zlength bs) ∧ inbox fd s = bs ++ inbox fd s').
    { unfold read_result in E. destruct (xread _ _ _ _ _ _) as [[n bs] k] eqn:Ex.
      injection E as <- <-. exists n, bs. split; [done|]. unfold xread in Ex. destruct WIN32.
      - rewrite int32_small in Ex by lia. apply (recv_ok fd size s n bs k); [lia|done].
      - destruct (sys_read fd size s) as [[m bs'] k'] eqn:Er. injection Ex as <- <- <-.
        destruct (read_ok fd size s m bs' k') as (Hm & Hl & Hi); [lia|done|].
        rewrite int32_small by (destruct Hl as [[-> ->]| ->]; lia). auto. }
    destruct Hx as (n & bs & Ex & Hn & Hl & Hi). rewrite Ex in E. injection E as <-.
    destruct Hl as [[-> ->]| ->]; simpl; [split; [done|lia]|].
    destruct (Z.ltb_spec (zlength bs) 0); [lia|]. simpl. split; [done|lia].
  - intros bs n s' E Hn ->. unfold xwrite. rewrite E. eexists. split; [done|].
    rewrite int32_wraps by done. split; [lia|].
    by apply (write_ok fd bs s n s').
Qed.
End laws.

(** A disk that takes everything, and data that have arrived. *)
Section witness.
Definition dev : Type := list byte * list byte.
Definition dev_write (fd : Z) (buf : list cell) (len : Z) (s : dev) : Z * dev :=
  (len, (s.1 ++ omap id (take (Z.to_nat len) buf), s.2)).
Definition dev_read (fd size : Z) (s : dev) : (Z * list byte) * dev :=
  ((zlength (take (Z.to_nat size) s.2), take (Z.to_nat size) s.2), (s.1, drop (Z.to_nat size) s.2)).

Lemma dev_sends : sends (λ _ s, s.1) dev_write.
Proof.
  intros fd bs len s n s' Hl [= <- <-]. split; [lia|]. simpl. by rewrite <- fmap_take, omap_id_Some.
Qed.
Definition dev_write_all (fd : Z) (buf : list cell) : dev → Z * dev := dev_write fd buf (zlength buf).
Lemma dev_writes : writes (λ _ s, s.1) dev_write_all.
Proof.
  intros fd bs s n s' E. unfold dev_write_all in E. rewrite length_fmap in E.
  by apply (dev_sends fd bs (zlength bs)) in E; [|lia].
Qed.
Lemma dev_reads : reads (λ _ s, s.2) dev_read.
Proof.
  intros fd size s n bs s' Hs [= <- <- <-]. simpl. rewrite take_drop, length_take.
  split; [lia|]. split; [by right|done].
Qed.

Lemma xplat_bounds_witness :
  ∃ n s', xwrite false dev_write_all dev_write 1 (Some <$> bytes "abc") ([], []) = (n, s') ∧
    -1 ≤ n ≤ 3 ∧ s'.1 = take (Z.to_nat n) (bytes "abc").
Proof.
  eexists _, _. split; [reflexivity|].
  destruct (xplat_bounds (λ _ s, s.1) (λ _ s, s.2) dev_write_all dev_write dev_read dev_read
    dev_writes dev_sends dev_reads dev_reads false 1 ([], [])) as [Hw _].
  apply (Hw (bytes "abc")); [by vm_compute|reflexivity].
Defined.
End witness.
