(* ===== verification/Watch.v ===== *)
(** * Watching a descriptor, as a stream or a listener sees it

    [Watch] is what [StreamImpl] and [LibeventConnectionListener] need of the
    event handler they own and the base it is registered on: one descriptor, and
    the events it is watched for.  The handlers of [Handlers.v] are an instance. *)

From S2P Require Import Prelude What Libevent Handlers HandlersSpec.

Class Watch := {
  hstate : Type;
  (** the handler has this descriptor and is watched for these events *)
  w_holds : hstate → Z → What → Prop;
  w_register : What → M hstate unit;     (** [base->registerHandler(&handler_, what)] *)
  w_unregister : M hstate unit;          (** [handler_.unregister()] *)
  w_watched : M hstate What;
  w_registered : M hstate bool;
  w_fd : M hstate Z;
  w_setFd : Z → M hstate unit;
  w_register_ok s fd w w' : w_holds s fd w → wp (w_register w') s (λ _ s', w_holds s' fd w');
  w_unregister_ok s fd w : w_holds s fd w → wp w_unregister s (λ _ s', w_holds s' fd NONE);
  w_watched_ok s fd w : w_holds s fd w → w_watched s = Done w s;
  w_registered_ok s fd w : w_holds s fd w → w_registered s = Done (bool_decide (w ≠ NONE)) s;
  w_fd_ok s fd w : w_holds s fd w → w_fd s = Done fd s;
  w_setFd_ok s fd fd' : w_holds s fd NONE → wp (w_setFd fd') s (λ _ s', w_holds s' fd' NONE);
}.

(** ** The handler [h] on the base [this] *)

Section handlers.
Context `{Libevent} (NDEBUG : bool) (self this h : N).

Definition watching (w : world) (fd : Z) (what : What) : Prop :=
  world_ok w ∧ thread_ok self this w ∧ ∃ x, handlers w !! h = Some x ∧ owned this x ∧
    fd_ x = fd ∧ watched_in x = what.

Lemma watched_in_registered w x :
  world_ok w → handlers w !! h = Some x →
  (match impl_ x with None => false | Some i => registered_ i end) =
  bool_decide (watched_in x ≠ NONE).
Proof.
  intros O Hx. destruct x as [fd [[b [] e]|]]; unfold watched_in; simpl; [|done|done].
  destruct (ok_assigned w O h fd b e Hx) as (ev & -> & Hf). by rewrite bool_decide_true by done.
Qed.

Lemma watching_changed w w' x' o fd what :
  world_ok w' → thread_ok self this w → changed w w' h x' o →
  owned this x' → fd_ x' = fd → watched_in x' = what → watching w' fd what.
Proof.
  intros O Ht [Ch _ Cl _] Ho Hf Hw. split; [done|]. split; [unfold thread_ok; by rewrite Cl|].
  exists x'. by rewrite Ch, lookup_insert_eq.
Qed.

Lemma watching_detached w w' x :
  world_ok w → thread_ok self this w → owned this x → changed w w' h (detached x) None →
  watching w' (fd_ x) NONE.
Proof.
  intros O Ht Ho C. eapply (watching_changed w w' (detached x)); [by eapply detached_ok|done..| | |].
  - unfold owned, detached in *. by destruct (impl_ x).
  - done.
  - unfold watched_in, detached. by destruct (impl_ x).
Qed.

Lemma watching_register w fd what what' :
  watching w fd what →
  wp (registerHandler NDEBUG self this h what') w (λ _ w', watching w' fd what').
Proof.
  intros (O & Ht & x & Hx & Ho & <- & <-).
  eapply wp_mono; [by apply (register_ok NDEBUG self this h what' w x)|]. intros ? w' Ra.
  pose proof (registered_as_ok _ _ _ _ _ _ O Ra) as O'. unfold registered_as in Ra.
  destruct (decide (impl_ x ≠ None ∧ what' = watched_in x)) as [[_ ->]|Hs];
    [|destruct (decide (what' = NONE)) as [->|Hw]].
  - subst w'. split; [done|]. split; [done|]. by exists x.
  - by apply (watching_detached w).
  - destruct Ra as (rc & C & _). eapply (watching_changed w w'); [done|done|exact C|done|done|].
    unfold watched_in. simpl.
    apply (assigned_flags this h (fd_ x) what' false).
Qed.

Lemma watching_unregister w fd what :
  watching w fd what →
  wp (EventHandler_unregister NDEBUG self h) w (λ _ w', watching w' fd NONE).
Proof.
  intros (O & Ht & x & Hx & Ho & <- & <-). unfold EventHandler_unregister, EventHandler_base.
  wp_step. wp_step. eapply wp_get_handler; [done|]. wp_step.
  pose proof Ho as Ho'. unfold owned in Ho'. destruct (impl_ x) as [i|] eqn:Ei.
  - rewrite Ho'. eapply wp_mono; [by apply (unregister_ok NDEBUG self this h w x)|].
    intros ? w' C. by apply (watching_detached w).
  - wp_step. split; [done|]. split; [done|]. exists x. split_and!; try done.
    unfold watched_in. by rewrite Ei.
Qed.

#[refine] Definition handlers_watch : Watch := {|
  hstate := world;
  w_holds := watching;
  w_register := registerHandler NDEBUG self this h;
  w_unregister := EventHandler_unregister NDEBUG self h;
  w_watched := EventHandler_watched h;
  w_registered := EventHandler_registered h;
  w_fd := EventHandler_fd h;
  w_setFd := EventHandler_setFd NDEBUG h;
|}.
Proof.
  - intros w fd what what'. apply watching_register.
  - intros w fd what. apply watching_unregister.
  - intros w fd what (O & Ht & x & Hx & Ho & <- & <-).
    assert (E : wp (EventHandler_watched h) w (λ r w', r = watched_in x ∧ w' = w))
      by by eapply wp_watched.
    by apply wp_iff in E as (? & ? & E & -> & ->).
  - intros w fd what (O & Ht & x & Hx & Ho & <- & <-).
    unfold EventHandler_registered. rewrite <- (watched_in_registered w x O Hx).
    rewrite (bind_done _ _ _ x w); [done|]. unfold get_handler. by rewrite Hx.
  - intros w fd what (O & Ht & x & Hx & Ho & <- & <-).
    unfold EventHandler_fd. rewrite (bind_done _ _ _ x w); [done|]. unfold get_handler. by rewrite Hx.
  - intros w fd fd' (O & Ht & x & Hx & Ho & <- & Hw). unfold EventHandler_setFd.
    pose proof (watched_in_registered w x O Hx) as Er. rewrite Hw in Er.
    rewrite bool_decide_false in Er by auto.
    wp_step. unfold EventHandler_registered. wp_step. eapply wp_get_handler; [done|]. wp_step.
    wp_step. apply wp_assert; [by rewrite Er|]. wp_step. eapply wp_get_handler; [done|]. wp_step.
    assert (C : changed w (set_handlers <[h:=mkHandler fd' (impl_ x)]> w) h (mkHandler fd' (impl_ x)) None).
    { split; try done. intros j. destruct (decide (j = of_handler h)) as [->|]; [|reflexivity].
      simpl. eapply not_pending; [done..|].
      intros b e Ei. by rewrite Ei in Er. }
    eapply (watching_changed w _); [|done|exact C|done|done|].
    + eapply changed_ok; [done|exact C|done|]. intros fd b e [= _ Ei]. by rewrite Ei in Er.
    + unfold watched_in in *. cbn [impl_]. by destruct x as [? i].
Defined.
End handlers.

(** The reference instance: a descriptor and a mask. *)
#[refine] Definition plain_watch : Watch := {|
  hstate := Z * What;
  w_holds s fd w := s = (fd, w);
  w_register w := modify (λ s, (s.1, w));
  w_unregister := modify (λ s, (s.1, NONE));
  w_watched := gets snd;
  w_registered := gets (λ s, bool_decide (s.2 ≠ NONE));
  w_fd := gets fst;
  w_setFd fd := modify (λ s, (fd, s.2));
|}.
Proof. all: by intros; subst. Defined.
