(* ===== verification/Stream.v ===== *)
(** * Streams

    [StreamImpl] ([src/stream.cc]): the queue of write requests, linked through
    [next_] as in the code; reading, writing, connecting and closing; and
    [SockHandler::ready], which drives them.

    Buffers are those of [BufferModel.v], the list of extents that the pointer code
    implements; the handler is any [Watch].  System calls and the user's callbacks
    are parameters: a callback is any computation on the whole state, so it may call
    the stream again and destroy it ([alive]).  Addresses of write requests are not
    used again once they are freed. *)

From S2P Require Import Prelude What Extent BufferModel Watch.

Record WriteRequest := mkReq {
  buffer_ : Buf;
  callback_ : option N;
  next_ : option N;
}.

(** [Requests]. *)
Record Requests := mkRequests { head : option N; tail : option N }.

(** [sizeof(buf)] in [readHelper]. *)
Definition read_size : Z := 4096.

Section stream.
Context `{Watch} `{Allocator} {K : Type}.   (** [K]: the operating system and the client *)

(** The stream object, the write requests it allocated, and the rest. *)
Record world := mkWorld {
  alive : bool;                        (** the stream is not destroyed *)
  handler_ : hstate;
  requests_ : Requests;
  readCallback_ : option N;
  connectCallback_ : option N;
  readBuffer_ : Buf;
  heap : gmap N WriteRequest;
  next_addr : N;
  os : K;
}.

Definition set_handler h (w : world) : world :=
  mkWorld (alive w) h (requests_ w) (readCallback_ w) (connectCallback_ w) (readBuffer_ w)
    (heap w) (next_addr w) (os w).
Definition set_requests r (w : world) : world :=
  mkWorld (alive w) (handler_ w) r (readCallback_ w) (connectCallback_ w) (readBuffer_ w)
    (heap w) (next_addr w) (os w).
Definition set_readCallback c (w : world) : world :=
  mkWorld (alive w) (handler_ w) (requests_ w) c (connectCallback_ w) (readBuffer_ w)
    (heap w) (next_addr w) (os w).
Definition set_connectCallback c (w : world) : world :=
  mkWorld (alive w) (handler_ w) (requests_ w) (readCallback_ w) c (readBuffer_ w)
    (heap w) (next_addr w) (os w).
Definition set_readBuffer b (w : world) : world :=
  mkWorld (alive w) (handler_ w) (requests_ w) (readCallback_ w) (connectCallback_ w) b
    (heap w) (next_addr w) (os w).
Definition set_heap f (w : world) : world :=
  mkWorld (alive w) (handler_ w) (requests_ w) (readCallback_ w) (connectCallback_ w)
    (readBuffer_ w) (f (heap w)) (next_addr w) (os w).
Definition set_os k (w : world) : world :=
  mkWorld (alive w) (handler_ w) (requests_ w) (readCallback_ w) (connectCallback_ w)
    (readBuffer_ w) (heap w) (next_addr w) k.
Definition set_dead (w : world) : world :=
  mkWorld false (handler_ w) (requests_ w) (readCallback_ w) (connectCallback_ w)
    (readBuffer_ w) (heap w) (next_addr w) (os w).
(** A new write request. *)
Definition add_request (r : WriteRequest) (w : world) : world :=
  mkWorld (alive w) (handler_ w) (requests_ w) (readCallback_ w) (connectCallback_ w)
    (readBuffer_ w) (<[next_addr w := r]> (heap w)) (next_addr w + 1)%N (os w).

(** ** Outside the repository *)

Context (NDEBUG : bool).
(** System calls.  [sys_connect] is given the port in network order.  [xread]: the
    data, [None] being an error.  [getsockopt]: the result
    and the value of SO_ERROR. *)
Context (xread : Z → Z → K → option (list byte) * K).
Context (xwrite : Z → list cell → K → Z * K).
Context (xclose : Z → K → Z * K) (geterror : Z → K → Z * K).
Context (socket : K → Z * K) (make_nonblocking : Z → K → Z * K).
Context (inet_pton : string → K → Z * K) (sys_connect : Z → string → Z → K → Z * K).
Context (getsockopt : Z → K → (Z * Z) * K).
(** [isReadRetryable], [isConnectRetryable] compare with constants of the platform. *)
Context (EAGAIN EWOULDBLOCK EINPROGRESS : Z).
(** The user's callbacks. *)
Context (write_complete : N → M world unit) (write_error : N → string → M world unit).
Context (read_available : N → M world unit) (read_error : N → string → M world unit).
Context (read_eof : N → M world unit).
Context (connect_complete : N → M world unit) (connect_error : N → string → M world unit).

Definition call {A} (f : K → A * K) : M world A :=
  w ← get; let '(a, k) := f (os w) in put (set_os k w);; mret a.

Definition assert_ (b : bool) : M world unit :=
  if NDEBUG then mret tt else require b AssertFailed.

(** Access to the members of the stream. *)
Definition this {A} (f : world → A) : M world A :=
  w ← get; if alive w then mret (f w) else fail UseAfterFree.
Definition set_this (f : world → world) : M world unit :=
  w ← get; if alive w then put (f w) else fail UseAfterFree.
Definition on_handler {A} (m : M hstate A) : M world A :=
  a ← this alive; zoom handler_ set_handler m.

(** A method of a callback, unless it is null. *)
Definition on_cb (c : option N) (m : N → M world unit) : M world unit :=
  match c with Some c => m c | None => mret tt end.

Definition isReadRetryable (e : Z) : bool := (e =? EAGAIN) || (e =? EWOULDBLOCK).
Definition isConnectRetryable (e : Z) : bool := e =? EINPROGRESS.

(** ** Write requests *)

Definition get_req (r : N) : M world WriteRequest := λ w,
  match heap w !! r with Some q => Done q w | None => Faults UseAfterFree end.
Definition put_req (r : N) (q : WriteRequest) : M world unit :=
  get_req r;; modify (set_heap <[r := q]>).

(** [new WriteRequest(...)], [m] being what its constructor does to the new buffer. *)
Definition new_request (m : M Buf unit) (cb : option N) : M world N := λ w,
  match m empty_buf with
  | Done _ b => Done (next_addr w) (add_request (mkReq b cb None) w)
  | Throws e _ => Throws e w
  | Faults f => Faults f
  | Diverges => Diverges
  end.
Definition WriteRequest_new (buf : list cell) (size : Z) (cb : option N) : M world N :=
  new_request (buf_append buf size) cb.
Definition WriteRequest_new_buffer (o : Buf) (cb : option N) : M world N :=
  new_request (modify (buf_append_buffer o)) cb.

(** [Requests::append]. *)
Definition Requests_append (req : N) : M world unit :=
  r ← this requests_;
  match head r with
  | None =>
      assert_ (bool_decide (tail r = None));;
      set_this (set_requests (mkRequests (Some req) (Some req)))
  | Some _ =>
      match tail r with
      | Some t => q ← get_req t; put_req t (mkReq (buffer_ q) (callback_ q) (Some req))
      | None => fail NullDeref
      end
  end.

(** [Requests::consumeFront]. *)
Definition consumeFront : M world (option N) :=
  r ← this requests_;
  match head r with
  | None => mret None
  | Some tmp =>
      q ← get_req tmp;
      let tail' := match next_ q with None => None | Some _ => tail r end in
      set_this (set_requests (mkRequests (next_ q) tail'));;
      modify (set_heap (delete tmp));;
      mret (next_ q)
  end.

(** ** Reading and writing *)

Definition startRead (cb : option N) : M world unit :=
  c ← this readCallback_;
  if bool_decide (c = cb) then mret tt
  else
    set_this (set_readCallback cb);;
    w ← on_handler w_watched;
    on_handler (w_register (ensureRead w)).

Definition stopRead : M world unit :=
  c ← this readCallback_;
  if bool_decide (c = None) then mret tt
  else
    set_this (set_readCallback None);;
    events ← on_handler w_watched;
    w ← on_handler w_watched;
    if negb (isRead w) then mret tt
    else
      w ← on_handler w_watched;
      if isWrite w then
        assert_ (bool_decide (events = READ_WRITE));;
        on_handler (w_register WRITE)
      else mret tt.

(** What both [write]s do with the new request. *)
Definition enqueue (req : N) : M world unit :=
  Requests_append req;;
  w ← on_handler w_watched;
  on_handler (w_register (ensureWrite w)).

Definition write (buf : list cell) (size : Z) (cb : option N) : M world unit :=
  req ← WriteRequest_new buf size cb;
  enqueue req.

(** [write(Buffer *, ...)]: returns what is left of the caller's buffer. *)
Definition write_buffer (o : Buf) (cb : option N) : M world Buf :=
  req ← WriteRequest_new_buffer o cb;
  enqueue req;;
  mret (buf_moved o).

(** One turn of the loop of [readHelper]. *)
Definition read_turn (_ : unit) : M world (unit + unit) :=
  fd ← on_handler w_fd;
  nread ← call (xread fd read_size);
  match nread with
  | None =>
      fd ← on_handler w_fd;
      e ← call (geterror fd);
      if isReadRetryable e then mret (inr tt)
      else
        c ← this readCallback_;
        on_cb c (λ c, read_error c "Read failed");;
        mret (inr tt)
  | Some [] =>
      c ← this readCallback_;
      on_cb c read_eof;;
      mret (inr tt)
  | Some bs =>
      this readBuffer_;;
      zoom readBuffer_ set_readBuffer (buf_append (Some <$> bs) (zlength bs));;
      c ← this readCallback_;
      on_cb c read_available;;
      mret (if zlength bs <? read_size then inr tt else inl tt)
  end.
Definition readHelper (fuel : nat) : M world unit := loop fuel read_turn tt.

(** The loop of [writeHelper] over the extents of a request: the number of bytes
    written, [blocked] and [failed]. *)
Fixpoint write_extents (es : list (list cell)) (total_written : Z) (blocked : bool) :
    M world (Z * bool * bool) :=
  match es with
  | [] => mret (total_written, blocked, false)
  | e :: es =>
      fd ← on_handler w_fd;
      written ← call (xwrite fd e);
      if 0 <=? written then
        write_extents es (total_written +₆₄ written) (blocked || (written <? zlength e))
      else mret (total_written, blocked, true)
  end.

(** One turn of the outer loop; it leaves with [req] and [failed]. *)
Definition write_turn (req : option N) : M world (option N + option N * bool) :=
  match req with
  | None => mret (inr (None, false))
  | Some r =>
      q ← get_req r;
      let extents := grant_cells (buffer_ q) <$> buf_peek_extents SIZE_MAX (buffer_ q) in
      assert_ (bool_decide (extents ≠ []));;
      '(total_written, blocked, failed) ← write_extents extents 0 false;
      q ← get_req r;
      zoom (λ _, buffer_ q) (λ b, set_heap <[r := mkReq b (callback_ q) (next_ q)]>)
        (buf_drain total_written);;
      if (blocked : bool) || failed then mret (inr (Some r, failed))
      else
        q ← get_req r;
        next ← consumeFront;
        (match next with
         | None => w ← on_handler w_watched; on_handler (w_register (removeWrite w))
         | Some _ => mret tt
         end);;
        on_cb (callback_ q) write_complete;;
        mret (inl next)
  end.

Definition writeHelper (fuel : nat) : M world unit :=
  r ← this requests_;
  '(req, failed) ← loop fuel write_turn (head r);
  if (failed : bool) then
    match req with
    | Some r => q ← get_req r; on_cb (callback_ q) (λ c, write_error c "Write failed")
    | None => fail NullDeref
    end
  else mret tt.

(** ** Connecting and closing *)

(** [connectHelper].  [error] is a null pointer when it is tested. *)
Definition connectHelper : M world unit :=
  c ← this connectCallback_;
  assert_ (bool_decide (c ≠ None));;
  fd ← on_handler w_fd;
  '(rc, err) ← call (getsockopt fd);
  let error := if rc =? -1 then Some "Failed to query connection status" else None in
  c ← this connectCallback_;
  set_this (set_connectCallback None);;
  match c with
  | None => fail NullDeref
  | Some c => match error with Some e => connect_error c e | None => connect_complete c end
  end.

(** [SockHandler::ready]. *)
Definition SockHandler_ready (fuel : nat) (event : What) : M world unit :=
  when (isWrite event)
    (c ← this connectCallback_;
     when (bool_decide (c ≠ None)) connectHelper;;
     this alive;;
     writeHelper fuel);;
  when (isRead event) (this alive;; readHelper fuel).

Definition close : M world unit :=
  c ← this readCallback_;
  on_cb c read_eof;;
  c ← this connectCallback_;
  on_cb c (λ c, connect_error c "Closed before connect");;
  r ← on_handler w_registered;
  when r (on_handler w_unregister);;
  fd ← on_handler w_fd;
  when (negb (fd =? -1)) (fd ← on_handler w_fd; call (xclose fd);; mret tt).

(** The body of the loop of [connect], which runs once: an error, with the
    descriptor, or success ([inr]). *)
Definition connect_body (ip : string) (port : Z) (cb : N) : M world ((string * Z) + unit) :=
  fd ← call socket;
  if fd =? -1 then mret (inl ("Failed to allocate socket", fd))
  else
  rc ← call (make_nonblocking fd);
  if rc =? -1 then mret (inl ("Failed to set socket non-blocking", fd))
  else
  rc ← call (inet_pton ip);
  if negb (rc =? 1) then mret (inl ("Failed to convert address", fd))
  else
  rc ← call (sys_connect fd ip (htons port));
  if rc =? -1 then
    e ← call (geterror fd);
    if isConnectRetryable e then
      on_handler (w_setFd fd);;
      set_this (set_connectCallback (Some cb));;
      w ← on_handler w_watched;
      on_handler (w_register (ensureWrite w));;
      mret (inr tt)
    else mret (inl ("Connect failed", fd))
  else
    on_handler (w_setFd fd);;
    connect_complete cb;;
    mret (inr tt).

Definition connect (ip : string) (port : Z) (cb : N) : M world unit :=
  fd ← on_handler w_fd;
  assert_ (fd =? -1);;
  c ← this connectCallback_;
  assert_ (bool_decide (c = None));;
  r ← connect_body ip port cb;
  match r with
  | inr _ => mret tt
  | inl (error, fd) =>
      when (negb (fd =? -1)) (call (xclose fd);; mret tt);;
      connect_error cb error
  end.

(** [~StreamImpl]. *)
Definition consume_turn (_ : unit) : M world (unit + unit) :=
  r ← consumeFront;
  mret (match r with Some _ => inl tt | None => inr tt end).
Definition StreamImpl_delete (fuel : nat) : M world unit :=
  on_handler w_unregister;;
  loop fuel consume_turn tt;;
  set_this set_dead.

(** [StreamImpl(base, fd)], over a handler with that descriptor. *)
Definition StreamImpl_new (h : hstate) (k : K) : world :=
  mkWorld true h (mkRequests None None) None None empty_buf ∅ 1%N k.

(** [wrapFd]; [Stream::create] is the same over a handler without a descriptor; and
    [Stream::Deleter]. *)
Definition wrapFd (h : hstate) (k : K) : world := StreamImpl_new h k.
Definition Stream_create (h : hstate) (k : K) : world := StreamImpl_new h k.
Definition Stream_Deleter (fuel : nat) : M world unit := StreamImpl_delete fuel.
End stream.
Arguments world {H} K.
