(* ===== verification/StreamSpec.v ===== *)
(** * Streams: lemmas

    The queue of write requests as the code really keeps it ([queue_is]), and what
    the operations of [Stream.v] do to the members of the stream. *)

From S2P Require Import Prelude What Extent BufferModel BufferSpec Watch Stream.

Section spec.
Context `{Watch} `{Allocator} {K : Type} (NDEBUG : bool).
Implicit Types w : world K.

(** *** Steps *)

Lemma wp_this {A} (f : world K → A) w (Q : A → world K → Prop) :
  alive w = true → Q (f w) w → wp (this f) w Q.
Proof. intros Ha HQ. unfold this, wp, mbind, M_bind, get. by rewrite Ha. Qed.

Lemma wp_set_this f w (Q : unit → world K → Prop) :
  alive w = true → Q tt (f w) → wp (set_this f) w Q.
Proof. intros Ha HQ. unfold set_this, wp, mbind, M_bind, get. by rewrite Ha. Qed.

Lemma wp_on_handler {A} (m : M hstate A) w (Q : A → world K → Prop) :
  alive w = true → wp m (handler_ w) (λ a h, Q a (set_handler h w)) → wp (on_handler m) w Q.
Proof.
  intros Ha HQ. unfold on_handler. wp_step. apply wp_this; [done|].
  unfold wp, zoom in *. by destruct (m (handler_ w)).
Qed.

Lemma set_handler_same w : set_handler (handler_ w) w = w.
Proof. by destruct w. Qed.

Lemma wp_read_handler {A} (m : M hstate A) a w (Q : A → world K → Prop) :
  alive w = true → m (handler_ w) = Done a (handler_ w) → Q a w → wp (on_handler m) w Q.
Proof.
  intros Ha E HQ. apply wp_on_handler; [done|]. eapply wp_done; [done|]. by rewrite set_handler_same.
Qed.

Lemma wp_call {A} (f : K → A * K) w (Q : A → world K → Prop) :
  Q (f (os w)).1 (set_os (f (os w)).2 w) → wp (call f) w Q.
Proof. unfold call, wp, mbind, M_bind, get. by destruct (f (os w)). Qed.

Lemma wp_assert_ b w (Q : unit → world K → Prop) :
  b = true → Q tt w → wp (assert_ NDEBUG b) w Q.
Proof. unfold assert_. intros -> HQ. by destruct NDEBUG. Qed.

Lemma wp_get_req r q w (Q : WriteRequest → world K → Prop) :
  heap w !! r = Some q → Q q w → wp (get_req r) w Q.
Proof. unfold get_req, wp. by intros ->. Qed.

Lemma wp_put_req r q q' w (Q : unit → world K → Prop) :
  heap w !! r = Some q → Q tt (set_heap <[r := q']> w) → wp (put_req r q') w Q.
Proof. intros Hr HQ. unfold put_req. wp_step. by eapply wp_get_req. Qed.

(** *** The queue *)

(** What [requests_] can be: empty; one request; two; or one with [tail] pointing to a
    request that is freed. *)
Inductive qstate := Empty | One (r : N) | Two (r s : N) | Behind (t s : N).

(** The requests [writeHelper] will find. *)
Definition linked (qs : qstate) : list N :=
  match qs with Empty => [] | One r => [r] | Two r s => [r; s] | Behind _ s => [s] end.

Definition addrs_ok w : Prop := ∀ r, is_Some (heap w !! r) → (r < next_addr w)%N.

Definition next_is w (r : N) (n : option N) : Prop := ∃ q, heap w !! r = Some q ∧ next_ q = n.

Definition queue_is w (qs : qstate) : Prop :=
  alive w = true ∧ addrs_ok w ∧
  match qs with
  | Empty => requests_ w = mkRequests None None
  | One r => requests_ w = mkRequests (Some r) (Some r) ∧ next_is w r None
  | Two r s => requests_ w = mkRequests (Some r) (Some r) ∧ next_is w r (Some s) ∧
      next_is w s None ∧ r ≠ s
  | Behind t s => requests_ w = mkRequests (Some s) (Some t) ∧ next_is w s None ∧
      heap w !! t = None ∧ (t < next_addr w)%N
  end.

(** [append] and [consumeFront] on it; [append] through a dangling [tail] is undefined. *)
Definition appended (n : N) (qs : qstate) : option qstate :=
  match qs with
  | Empty => Some (One n)
  | One r | Two r _ => Some (Two r n)
  | Behind _ _ => None
  end.
Definition consumed_front (qs : qstate) : qstate :=
  match qs with Empty | One _ | Behind _ _ => Empty | Two r s => Behind r s end.

(** A new request that is in no queue yet. *)
Definition new_req w (n : N) (q : WriteRequest) : Prop :=
  heap w !! n = Some q ∧ next_ q = None.

(** The rest of the program is the same; requests keep their data and callback. *)
Record same_rest w w' : Prop := {
  sr_alive : alive w' = alive w;
  sr_handler : handler_ w' = handler_ w;
  sr_readcb : readCallback_ w' = readCallback_ w;
  sr_conncb : connectCallback_ w' = connectCallback_ w;
  sr_readbuf : readBuffer_ w' = readBuffer_ w;
  sr_os : os w' = os w;
}.
Definition payload (q : WriteRequest) : Buf * option N := (buffer_ q, callback_ q).

Lemma addrs_insert w w' r q q' :
  addrs_ok w → heap w !! r = Some q → heap w' = <[r := q']> (heap w) → next_addr w' = next_addr w →
  addrs_ok w'.
Proof.
  intros Ho Hr Eh En k. rewrite Eh, En. destruct (decide (r = k)) as [->|].
  - intros _. apply Ho. by rewrite Hr.
  - rewrite lookup_insert_ne by done. apply Ho.
Qed.

Lemma requests_append_ok w n q qs :
  queue_is w qs → new_req w n q → n ∉ linked qs →
  match appended n qs with
  | Some qs' => wp (Requests_append NDEBUG n) w (λ _ w', queue_is w' qs' ∧ same_rest w w' ∧
      next_addr w' = next_addr w ∧ ∀ r, payload <$> heap w' !! r = payload <$> heap w !! r)
  | None => Requests_append NDEBUG n w = Faults UseAfterFree
  end.
Proof.
  intros (Ha & Ho & Hq) [Hn Hn'] Hnew. destruct qs as [|r|r s|t s]; simpl in *.
  - unfold Requests_append. wp_step. apply wp_this; [done|]. rewrite Hq. cbn [head tail].
    wp_step. apply wp_assert_; [done|]. apply wp_set_this; [done|].
    split; [|done]. split; [done|]. split; [done|]. split; [done|]. by exists q.
  - destruct Hq as (Hq & qr & Hr & Hrn). unfold Requests_append.
    wp_step. apply wp_this; [done|]. rewrite Hq. cbn [head tail].
    wp_step. eapply wp_get_req; [done|]. eapply wp_put_req; [done|].
    split; [|split; [done|split; [done|]]].
    + split; [done|]. split; [by eapply (addrs_insert w _ r)|]. split; [done|].
      split; [eexists; split; [apply lookup_insert_eq|done]|]. split; [|set_solver].
      exists q. split; [|done]. simpl. rewrite lookup_insert_ne by set_solver. done.
    + intros k. simpl. destruct (decide (r = k)) as [->|].
      * by rewrite lookup_insert_eq, Hr.
      * by rewrite lookup_insert_ne.
  - destruct Hq as (Hq & (qr & Hr & Hrn) & _ & _). unfold Requests_append.
    wp_step. apply wp_this; [done|]. rewrite Hq. cbn [head tail].
    wp_step. eapply wp_get_req; [done|]. eapply wp_put_req; [done|].
    split; [|split; [done|split; [done|]]].
    + split; [done|]. split; [by eapply (addrs_insert w _ r)|]. split; [done|].
      split; [eexists; split; [apply lookup_insert_eq|done]|]. split; [|set_solver].
      exists q. split; [|done]. simpl. rewrite lookup_insert_ne by set_solver. done.
    + intros k. simpl. destruct (decide (r = k)) as [->|].
      * by rewrite lookup_insert_eq, Hr.
      * by rewrite lookup_insert_ne.
  - destruct Hq as (Hq & _ & Ht & _). unfold Requests_append, this, mbind, M_bind, get.
    rewrite Ha, Hq. simpl. unfold get_req. by rewrite Ht.
Qed.

Lemma consume_ok w qs :
  queue_is w qs →
  wp consumeFront w (λ r w', r = list.head (linked (consumed_front qs)) ∧
    queue_is w' (consumed_front qs) ∧ same_rest w w' ∧ next_addr w' = next_addr w ∧
    ∀ k, heap w' !! k = if decide (Some k = list.head (linked qs)) then None else heap w !! k).
Proof.
  intros (Ha & Ho & Hq). unfold consumeFront. wp_step. apply wp_this; [done|].
  assert (Hd : ∀ r k, delete r (heap w) !! k = if decide (Some k = Some r) then None else heap w !! k).
  { intros r k. case_decide as E; [injection E as ->; apply lookup_delete_eq|].
    rewrite lookup_delete_ne; congruence. }
  assert (Hod : ∀ r k, is_Some (delete r (heap w) !! k) → (k < next_addr w)%N).
  { intros r k. rewrite Hd. case_decide; [by intros []|]. apply Ho. }
  destruct qs as [|r|r s|t s]; cbn [linked list.head consumed_front] in *.
  - rewrite Hq. cbn [head tail]. wp_step. split; [done|]. split; [by split|]. split; [done|]. split; [done|].
    intros k. by rewrite decide_False.
  - destruct Hq as (Hq & qr & Hr & Hrn). rewrite Hq. cbn [head tail].
    wp_step. eapply wp_get_req; [done|]. rewrite Hrn. wp_step. apply wp_set_this; [done|].
    wp_step. wp_step. wp_step. split; [done|]. split; [|split; [done|split; [done|apply Hd]]].
    split; [done|]. split; [exact (Hod r)|done].
  - destruct Hq as (Hq & (qr & Hr & Hrn) & (qs & Hs & Hsn) & Hne). rewrite Hq. cbn [head tail].
    wp_step. eapply wp_get_req; [done|]. rewrite Hrn. wp_step. apply wp_set_this; [done|].
    wp_step. wp_step. wp_step. split; [done|]. split; [|split; [done|split; [done|apply Hd]]].
    split; [done|]. split; [exact (Hod r)|]. split; [done|]. split.
    + exists qs. split; [|done]. simpl. by rewrite lookup_delete_ne.
    + split; [apply lookup_delete_eq|]. apply Ho. by rewrite Hr.
  - destruct Hq as (Hq & (qr & Hr & Hrn) & Ht & Hlt). rewrite Hq. cbn [head tail].
    wp_step. eapply wp_get_req; [done|]. rewrite Hrn. wp_step. apply wp_set_this; [done|].
    wp_step. wp_step. wp_step. split; [done|]. split; [|split; [done|split; [done|apply Hd]]].
    split; [done|]. split; [exact (Hod s)|done].
Qed.

(** A new request: what the constructor does to its buffer. *)
Lemma new_request_ok m cb b w qs (Q : N → world K → Prop) :
  queue_is w qs → m empty_buf = Done tt b →
  (let w' := add_request (mkReq b cb None) w in
   queue_is w' qs → new_req w' (next_addr w) (mkReq b cb None) → next_addr w ∉ linked qs →
   Q (next_addr w) w') →
  wp (new_request m cb) w Q.
Proof.
  intros (Ha & Ho & Hq) E HQ. unfold new_request, wp. rewrite E.
  assert (Hfree : heap w !! next_addr w = None).
  { destruct (heap w !! next_addr w) eqn:F; [|done].
    assert (next_addr w < next_addr w)%N by (apply Ho; by rewrite F). lia. }
  assert (Hne : ∀ r n, next_is w r n → r ≠ next_addr w).
  { intros r n (q & Hr & _) ->. congruence. }
  assert (Hni : ∀ r n, next_is w r n → next_is (add_request (mkReq b cb None) w) r n).
  { intros r n Hn. pose proof (Hne r n Hn). destruct Hn as (q & Hr & ?). exists q.
    split; [|done]. simpl. by rewrite lookup_insert_ne. }
  apply HQ.
  - split; [done|]. split.
    + intros k. simpl. destruct (decide (next_addr w = k)) as [->|]; [lia|].
      rewrite lookup_insert_ne by done. intros ?%Ho. lia.
    + destruct qs as [|r|r s|t s]; simpl; [done|naive_solver|naive_solver|].
      destruct Hq as (Hq & Hs & Ht & Hlt). split_and!; [done|by apply Hni| |lia].
      rewrite lookup_insert_ne by lia. done.
  - split; [apply lookup_insert_eq|done].
  - destruct qs as [|r|r s|t s]; simpl; destruct_and?; rewrite ?elem_of_cons, elem_of_nil; naive_solver.
Qed.

(** The queue depends on the links alone. *)
Lemma queue_is_ext w w' qs :
  alive w' = alive w → requests_ w' = requests_ w → next_addr w' = next_addr w →
  (∀ r, next_ <$> heap w' !! r = next_ <$> heap w !! r) → queue_is w qs → queue_is w' qs.
Proof.
  intros Ea Er En Eh (Ha & Ho & Hq).
  assert (Hni : ∀ r n, next_is w r n → next_is w' r n).
  { intros r n (q & Hr & Hqn). specialize (Eh r). rewrite Hr in Eh.
    destruct (heap w' !! r) as [q'|] eqn:E; [|done]. exists q'. split; [done|].
    injection Eh as ->. done. }
  assert (Hnone : ∀ r, heap w !! r = None → heap w' !! r = None).
  { intros r Hr. specialize (Eh r). rewrite Hr in Eh. by destruct (heap w' !! r). }
  split; [congruence|]. split.
  - intros r [q' Hr]. rewrite En. apply Ho. specialize (Eh r). rewrite Hr in Eh.
    by destruct (heap w !! r).
  - destruct qs as [|r|r s|t s]; rewrite Er, ?En; naive_solver.
Qed.

Lemma queue_alive w qs : queue_is w qs → alive w = true.
Proof. by intros []. Qed.

Lemma queue_head w qs : queue_is w qs → head (requests_ w) = list.head (linked qs).
Proof.
  intros (_ & _ & Hq). destruct qs; simpl in *; destruct_and?;
    match goal with E : requests_ w = _ |- _ => by rewrite E end.
Qed.

Lemma linked_consumed qs : linked (consumed_front qs) = list.tail (linked qs).
Proof. by destruct qs. Qed.

(** The members that reading uses. *)
Record same_reading w w' : Prop := {
  rd_readcb : readCallback_ w' = readCallback_ w;
  rd_conncb : connectCallback_ w' = connectCallback_ w;
  rd_readbuf : readBuffer_ w' = readBuffer_ w;
}.
End spec.
