(* ===== verification/StreamTurn.v ===== *)
(** * Streams: one turn of writing and of reading

    What a turn of [writeHelper] and of [readHelper] does, for any callbacks: the
    lemmas say in which state a callback is called, and leave it to the client what
    it does there.  [L] is the client's part of the state. *)

From S2P Require Import Prelude What Extent BufferModel BufferSpec Watch Stream StreamSpec.

Section turns.
Context `{Watch} `{Allocator} {Sys L : Type} (NDEBUG : bool).
Abbreviation world := (world (Sys * L)).
Implicit Types w : world.

Lemma wp_sys {A} (f : Sys → A * Sys) w (Q : A → world → Prop) :
  (∀ a s, f (os w).1 = (a, s) → Q a (set_os (s, (os w).2) w)) → wp (call (sys f)) w Q.
Proof. intros HQ. apply wp_call. unfold sys. destruct (f (os w).1) eqn:E. by apply HQ. Qed.

(** ** Writing *)

(** A request: its data, as one extent, and its callback. *)
Definition request_is w (r : N) (d : list byte * option N) : Prop :=
  ∃ q, heap w !! r = Some q ∧ callback_ q = d.2 ∧ contents (buffer_ q) [d.1] ∧ d.1 ≠ [] ∧
    zlength d.1 ≤ INT_MAX.

(** A stream with a queue and a descriptor that is watched. *)
Definition stream_is w (fd : Z) (mask : What) (qs : qstate) (ds : list (list byte * option N)) : Prop :=
  queue_is w qs ∧ w_holds (handler_ w) fd mask ∧ Forall2 (request_is w) (linked qs) ds.

Lemma requests_same w w' rs ds :
  (∀ k, k ∈ rs → heap w' !! k = heap w !! k) →
  Forall2 (request_is w) rs ds → Forall2 (request_is w') rs ds.
Proof.
  intros Hk F. induction F as [|k d rs ds (q & Hq & ?) F IH]; constructor.
  - exists q. rewrite Hk by set_solver. done.
  - apply IH. intros. apply Hk. set_solver.
Qed.

Lemma linked_nodup w qs r rs : queue_is w qs → linked qs = r :: rs → r ∉ rs.
Proof.
  intros (_ & _ & Hq). destruct qs; simpl in *; intros [= <- <-]; set_solver.
Qed.

(** What is left of a request. *)
Lemma drained_request L' bs n :
  bs ≠ [] → -1 ≤ n < zlength bs → contents L' (drain_chunks (if n <? 0 then 0 else n) [bs]) →
  contents L' [drop (Z.to_nat n) bs] ∧ drop (Z.to_nat n) bs ≠ [].
Proof.
  intros Hbs Hn C. destruct (Z.ltb_spec n 0).
  - replace (Z.to_nat n) with 0%nat by lia. by rewrite drop_0.
  - destruct (decide (n = 0)) as [->|]; [by rewrite drop_0|].
    simpl in C. destruct (Z.ltb_spec 0 n); [|lia]. destruct (Z.leb_spec (zlength bs) n); [lia|].
    split; [done|]. intros Hd. apply (f_equal length) in Hd. rewrite length_drop in Hd.
    simpl in Hd. lia.
Qed.

(** [request_is] looks at the data and the callback only. *)
Lemma requests_payload w w' rs ds :
  (∀ k, k ∈ rs → payload <$> heap w' !! k = payload <$> heap w !! k) →
  Forall2 (request_is w) rs ds → Forall2 (request_is w') rs ds.
Proof.
  intros Hk F. induction F as [|k d rs ds (q & Hq & Hcb & C) F IH]; constructor.
  - specialize (Hk k ltac:(set_solver)). rewrite Hq in Hk. destruct (heap w' !! k) as [q'|] eqn:E; [|done].
    injection Hk as Eb Ec. exists q'. by rewrite Eb, Ec.
  - apply IH. intros. apply Hk. set_solver.
Qed.

(** A new request goes behind the first one: of two, the second one is lost. *)
Lemma enqueued_behind m b bs cb w fd mask qs ds qs' :
  stream_is w fd mask qs ds → appended (next_addr w) qs = Some qs' →
  m empty_buf = Done tt b → contents b [bs] → bs ≠ [] → zlength bs ≤ INT_MAX →
  wp (req ← new_request m cb; enqueue NDEBUG req) w (λ _ w', same_reading w w' ∧ os w' = os w ∧
    stream_is w' fd (ensureWrite mask) qs' (take 1 ds ++ [(bs, cb)])).
Proof.
  intros (Hq & Hh & F) Eq E C Hbs Hmax. wp_step. eapply new_request_ok; [done|done|].
  cbv zeta. set (w1 := add_request (mkReq b cb None) w). intros Hq1 Hn Hl.
  assert (Hw1 : ∀ k, k ≠ next_addr w → heap w1 !! k = heap w !! k)
    by (intros; by apply lookup_insert_ne).
  assert (F1 : Forall2 (request_is w1) (take 1 (linked qs) ++ [next_addr w]) (take 1 ds ++ [(bs, cb)])).
  { apply Forall2_app; [|constructor; [|done]].
    - apply Forall2_take. eapply requests_same; [|exact F]. intros k Hk. apply Hw1. intros ->. done.
    - exists (mkReq b cb None). by split; [apply lookup_insert_eq|]. }
  pose proof (requests_append_ok NDEBUG w1 _ _ qs Hq1 Hn Hl) as Ha.
  assert (linked qs' = take 1 (linked qs) ++ [next_addr w]) as El
    by (destruct qs; try done; by injection Eq as <-).
  rewrite Eq in Ha. unfold enqueue. wp_step. eapply wp_mono; [exact Ha|].
  intros ? w2 (Hq2 & S2 & _ & Hp). pose proof (queue_alive _ _ Hq2) as Ha2.
  assert (Hh2 : w_holds (handler_ w2) fd mask) by (by rewrite (sr_handler _ _ S2)).
  wp_step. eapply wp_read_handler; [done|by eapply w_watched_ok|].
  apply wp_on_handler; [done|]. eapply wp_mono; [by apply (w_register_ok _ fd mask)|].
  intros ? h Hh3. split; [by destruct S2; split|].
  split; [apply (sr_os _ _ S2)|]. split; [by eapply (queue_is_ext w2)|]. split; [done|].
  rewrite El. eapply (requests_payload w1); [|done]. intros k _. apply Hp.
Qed.
(** Nothing is lost behind one that waits. *)
Lemma enqueued m b bs cb w fd mask qs ds :
  stream_is w fd mask qs ds → (qs = Empty ∨ ∃ r, qs = One r) →
  m empty_buf = Done tt b → contents b [bs] → bs ≠ [] → zlength bs ≤ INT_MAX →
  wp (req ← new_request m cb; enqueue NDEBUG req) w (λ _ w', ∃ qs',
    appended (next_addr w) qs = Some qs' ∧ same_reading w w' ∧ os w' = os w ∧
    stream_is w' fd (ensureWrite mask) qs' (ds ++ [(bs, cb)])).
Proof.
  intros St Hqs E C Hbs Hmax. pose proof St as (_ & _ & F).
  assert (take 1 ds = ds ∧ ∃ qs', appended (next_addr w) qs = Some qs') as [Ed [qs' Eq]].
  { destruct Hqs as [->|[r ->]]; (split; [|by eexists]); inversion F as [|???? _ F']; [done|]. by inversion F'. }
  eapply wp_mono; [by eapply enqueued_behind|]. rewrite Ed. intros ? w' Hw. by exists qs'.
Qed.

Lemma write_wp bs cb w fd mask qs ds :
  stream_is w fd mask qs ds → (qs = Empty ∨ ∃ r, qs = One r) →
  bs ≠ [] → zlength bs ≤ INT_MAX → zlength bs ≤ max_new →
  wp (write NDEBUG (Some <$> bs) (zlength bs) cb) w (λ _ w', ∃ qs',
    appended (next_addr w) qs = Some qs' ∧ same_reading w w' ∧ os w' = os w ∧
    stream_is w' fd (ensureWrite mask) qs' (ds ++ [(bs, cb)])).
Proof.
  intros St Hqs Hbs Hi Hm. pose proof Hi as Hi'. unfold INT_MAX in Hi'. eapply enqueued; [done|done| |
    apply (contents_snoc empty_buf []); [apply contents_empty|unfold W64; simpl; lia]|done|done].
  rewrite buf_append_new by done. by rewrite (proj2 (Z.leb_le _ _)) by lia.
Qed.

(** Taking over the contents of another buffer. *)
Lemma moved_contents o oss : contents o oss →
  contents (buf_append_buffer o empty_buf) oss ∧ contents (buf_moved o) [].
Proof.
  unfold buf_append_buffer, buf_moved. intros [F Es Eb]. destruct (exts o) as [|e es] eqn:E.
  - inversion F; subst. split; split; rewrite ?E; try done; constructor.
  - split; [|apply contents_empty]. split; simpl; [done| |done].
    rewrite Es. apply u64_small. unfold is_u64. lia.
Qed.

Lemma write_buffer_wp o bs cb w fd mask qs ds qs' :
  stream_is w fd mask qs ds → appended (next_addr w) qs = Some qs' →
  contents o [bs] → bs ≠ [] → zlength bs ≤ INT_MAX →
  wp (write_buffer NDEBUG o cb) w (λ o' w', contents o' [] ∧ same_reading w w' ∧ os w' = os w ∧
    stream_is w' fd (ensureWrite mask) qs' (take 1 ds ++ [(bs, cb)])).
Proof.
  intros St Eq C Hbs Hi. destruct (moved_contents o [bs] C) as [C' Cm].
  pose proof (enqueued_behind (modify (buf_append_buffer o)) _ bs cb w fd mask qs ds qs' St Eq eq_refl C' Hbs Hi) as Hw.
  unfold write_buffer, wp, mbind, M_bind in *. unfold WriteRequest_new_buffer.
  destruct (new_request _ _ w) as [r w1| | |]; [|done..]. by destruct (enqueue NDEBUG r w1).
Qed.

Section write.
Context (xwrite : Z → list cell → Sys → Z * Sys) (sent : Z → Sys → list byte).
(** [write] takes a prefix of the data, or fails; what it takes goes on the wire. *)
Context (write_law : ∀ fd (bs : list byte) s n s', zlength bs ≤ INT_MAX →
  xwrite fd (Some <$> bs) s = (n, s') →
  - 1 ≤ n ≤ zlength bs ∧ sent fd s' = sent fd s ++ take (Z.to_nat n) bs).
Context (complete : N → M world unit).

Abbreviation extents_out := (write_extents (λ fd b, sys (xwrite fd b))).
Abbreviation turn := (write_turn NDEBUG (λ fd b, sys (xwrite fd b)) complete).

Lemma write_one w fd mask bs :
  alive w = true → w_holds (handler_ w) fd mask → bs ≠ [] → zlength bs ≤ INT_MAX →
  wp (extents_out [Some <$> bs] 0 false) w (λ r w', ∃ n s',
    w' = set_os (s', (os w).2) w ∧ xwrite fd (Some <$> bs) (os w).1 = (n, s') ∧
    -1 ≤ n ≤ zlength bs ∧
    sent fd s' = sent fd (os w).1 ++ take (Z.to_nat n) bs ∧
    r = (if n <? 0 then (0, false, true) else (n, n <? zlength bs, false))).
Proof.
  unfold INT_MAX. intros Ha Hh Hn Hb. simpl. wp_step. eapply wp_read_handler; [done|by eapply w_fd_ok|].
  wp_step. apply wp_sys. intros n s' E. destruct (write_law _ bs _ _ _ Hb E) as [Hr Hs].
  rewrite length_fmap. destruct (Z.leb_spec 0 n).
  - wp_step. exists n, s'. split_and!; [done|done|lia..|done|]. destruct (Z.ltb_spec n 0); [lia|].
    by rewrite u64_small by (unfold is_u64, W64; lia).
  - wp_step. exists n, s'. split_and!; [done|done|lia..|done|]. destruct (Z.ltb_spec n 0); [done|lia].
Qed.

(** A request that is written leaves the queue; its callback is told last. *)
Lemma finish_wp w fd mask qs r q rs ds (Q : (option N + option N * bool) → world → Prop) :
  queue_is w qs → w_holds (handler_ w) fd mask → linked qs = r :: rs → heap w !! r = Some q →
  Forall2 (request_is w) rs ds →
  (∀ w3, same_reading w w3 → os w3 = os w →
    stream_is w3 fd (if decide (rs = []) then removeWrite mask else mask) (consumed_front qs) ds →
    wp (on_cb (callback_ q) complete) w3 (λ _, Q (inl (list.head rs)))) →
  wp (q ← get_req r;
      next ← consumeFront;
      (match next with
       | None => m ← on_handler w_watched; on_handler (w_register (removeWrite m))
       | Some _ => mret tt
       end);;
      on_cb (callback_ q) complete;;
      mret (inl (B := option N * bool) next)) w Q.
Proof.
  intros Hq Hh El Hr F HQ. pose proof (linked_nodup _ _ _ _ Hq El) as Hnd.
  wp_step. eapply wp_get_req; [exact Hr|]. wp_step.
  eapply wp_mono; [by apply consume_ok|]. intros next w3 (-> & Hq3 & S3 & _ & H3).
  rewrite linked_consumed, El in *. cbn [list.tail].
  assert (F3 : Forall2 (request_is w3) rs ds).
  { eapply requests_same; [|exact F]. intros k Hk. rewrite H3. simpl list.head.
    rewrite decide_False; [done|]. intros [= ->]. done. }
  wp_step. pose proof (queue_alive _ _ Hq3) as Ha3.
  assert (Hh3 : w_holds (handler_ w3) fd mask) by (by rewrite (sr_handler _ _ S3)).
  apply (wp_mono _ _ (λ _ w4, ∃ h, w4 = set_handler h w3 ∧
    w_holds h fd (if decide (rs = []) then removeWrite mask else mask))).
  { destruct rs as [|r' rs]; simpl list.head; cbv iota.
    - wp_step. eapply wp_read_handler; [done|by eapply w_watched_ok|].
      apply wp_on_handler; [done|].
      eapply wp_mono; [by apply (w_register_ok _ fd mask)|]. intros ? h Hh4. exists h. by split.
    - wp_step. exists (handler_ w3). by rewrite set_handler_same. }
  intros ? w4 (h & -> & Hh4). wp_step. eapply wp_mono; [apply HQ|].
  - by destruct S3; split.
  - apply (sr_os _ _ S3).
  - split; [by eapply (queue_is_ext w3)|]. split; [done|]. by rewrite linked_consumed, El.
  - intros ? w' HQ'. by wp_step.
Qed.

(** The first request is written. *)
Lemma write_turn_wp w fd mask qs bs cb ds r rs (Q : (option N + option N * bool) → world → Prop) :
  stream_is w fd mask qs ((bs, cb) :: ds) → linked qs = r :: rs →
  (∀ n s', xwrite fd (Some <$> bs) (os w).1 = (n, s') →
    -1 ≤ n ≤ zlength bs → sent fd s' = sent fd (os w).1 ++ take (Z.to_nat n) bs →
    if decide (n = zlength bs) then
      ∀ w3, same_reading w w3 → os w3 = (s', (os w).2) →
        stream_is w3 fd (if decide (rs = []) then removeWrite mask else mask) (consumed_front qs) ds →
        wp (on_cb cb complete) w3 (λ _, Q (inl (list.head rs)))
    else
      ∀ w3, same_reading w w3 → os w3 = (s', (os w).2) →
        stream_is w3 fd mask qs ((drop (Z.to_nat n) bs, cb) :: ds) →
        Q (inr (Some r, bool_decide (n < 0))) w3) →
  wp (turn (Some r)) w Q.
Proof.
  intros (Hq & Hh & F) El HQ. pose proof (queue_alive _ _ Hq) as Ha.
  pose proof (linked_nodup _ _ _ _ Hq El) as Hnd.
  rewrite El in F. inversion F as [|? ? ? ? Hr Frs]; subst. destruct Hr as (q & Hr & Hcb & C & Hbs & Hmax).
  simpl in Hcb, C, Hbs, Hmax. unfold write_turn. wp_step. eapply wp_get_req; [done|]. cbv zeta.
  rewrite (buf_peek_all _ [bs]) by (done || by repeat constructor). simpl fmap.
  wp_step. apply wp_assert_; [done|]. wp_step.
  pose proof (c_bound _ _ C) as Hb. simpl in Hb. rewrite app_nil_r in Hb.
  eapply wp_mono; [by apply (write_one w fd mask)|].
  intros res w1 (n & s' & -> & En & Hn & Hs & ->). set (w1 := set_os (s', (os w).2) w).
  assert (Hlen : 0 < zlength bs) by (destruct bs; [done|simpl; lia]).
  set (tot := if n <? 0 then 0 else n).
  destruct (buf_drain_ok _ _ tot C) as (L' & Ed & C').
  { unfold tot, is_u64. destruct (Z.ltb_spec n 0); lia. }
  assert (E3 : (if n <? 0 then (0, false, true) else (n, n <? zlength bs, false)) =
    (tot, negb (n <? 0) && (n <? zlength bs), n <? 0)) by (unfold tot; by destruct (n <? 0)).
  rewrite E3. wp_step. eapply (wp_get_req r q); [exact Hr|]. wp_step.
  set (w2 := set_heap <[r:=mkReq L' (callback_ q) (next_ q)]> w1).
  apply (wp_done _ _ tt w2); [unfold zoom; by rewrite Ed|].
  assert (Hr2 : heap w2 !! r = Some (mkReq L' (callback_ q) (next_ q))) by apply lookup_insert_eq.
  assert (Hq2 : queue_is w2 qs).
  { eapply (queue_is_ext w); try done. intros k. simpl. destruct (decide (r = k)) as [->|].
    - by rewrite lookup_insert_eq, Hr.
    - by rewrite lookup_insert_ne. }
  assert (F2 : Forall2 (request_is w2) rs ds).
  { eapply requests_same; [|exact Frs]. intros k Hk. simpl.
    rewrite lookup_insert_ne; [done|]. intros ->. done. }
  specialize (HQ n s' En Hn Hs).
  assert (S2 : same_reading w w2) by by split.
  destruct (decide (n = zlength bs)) as [->|Hne].
  - destruct (Z.ltb_spec (zlength bs) 0); [lia|]. rewrite Z.ltb_irrefl. cbn [negb andb orb].
    apply (finish_wp w2 fd mask qs r (mkReq L' (callback_ q) (next_ q)) rs ds); [done..|].
    intros w3 S3 E St3. cbn [callback_]. rewrite Hcb. apply HQ; [|done|done].
    destruct S2, S3; split; congruence.
  - assert (Hb2 : (negb (n <? 0) && (n <? zlength bs) || (n <? 0)) = true).
    { destruct (Z.ltb_spec n 0), (Z.ltb_spec n (zlength bs)); try done; lia. }
    rewrite Hb2. wp_step. replace (n <? 0) with (bool_decide (n < 0))
      by (apply eq_true_iff_eq; by rewrite Z.ltb_lt, bool_decide_eq_true).
    apply HQ; [done..|]. split; [done|]. split; [done|]. rewrite El. constructor; [|done].
    exists (mkReq L' (callback_ q) (next_ q)). split; [exact Hr2|]. split; [done|].
    destruct (drained_request L' bs n Hbs ltac:(lia) C'). split_and!; [done|done|].
    simpl. rewrite length_drop. lia.
Qed.

(** The whole queue: [out] is what was sent, [ds'] what is left, after [i] requests
    were completed.  When the descriptor takes all it is given, nothing is left. *)
Definition written (fd : Z) w (ds : list (list byte * option N)) (s' : Sys)
    (ds' : list (list byte * option N)) (i : nat) : Prop :=
  ∃ out, sent fd s' = sent fd (os w).1 ++ out ∧ out ++ concat ds'.*1 = concat ds.*1 ∧
    ds'.*2 = drop i ds.*2 ∧ (i + length ds')%nat = length ds ∧
    ((∀ bs s n s', xwrite fd (Some <$> bs) s = (n, s') → n = zlength bs) → ds' = []) ∧
    ((∀ bs s, bs ≠ [] → 1 ≤ (xwrite fd (Some <$> bs) s).1) → ds ≠ [] → out ≠ []).

(** The calls of [write(2)]: each request is given to one, as long as all of it is taken;
    what is left, how many were completed, and whether the last call failed. *)
Inductive flushes (fd : Z) : Sys → list (list byte * option N) → Sys → list (list byte * option N) → nat → bool → Prop :=
| flushes_nil s : flushes fd s [] s [] 0 false
| flushes_all s bs cb ds s1 s' ds' i failed :
    xwrite fd (Some <$> bs) s = (zlength bs, s1) → flushes fd s1 ds s' ds' i failed →
    flushes fd s ((bs, cb) :: ds) s' ds' (S i) failed
| flushes_part s bs cb ds n s1 :
    xwrite fd (Some <$> bs) s = (n, s1) → n < zlength bs →
    flushes fd s ((bs, cb) :: ds) s1 ((drop (Z.to_nat n) bs, cb) :: ds) 0 (bool_decide (n < 0)).

(** Callbacks that only note that they were called, when the client's state is [good]. *)
Section silent.
Context (note : N → L → L) (good : Sys * L → Prop).
Context (complete_law : ∀ c w, good (os w) →
  complete c w = Done tt (set_os ((os w).1, note c (os w).2) w) ∧ good ((os w).1, note c (os w).2)).

Definition noted (cs : list (option N)) (l : L) : L :=
  foldl (λ l c, match c with Some c => note c l | None => l end) l cs.

Lemma wp_noted cb w (Q : unit → world → Prop) :
  good (os w) →
  (good ((os w).1, noted [cb] (os w).2) → Q tt (set_os ((os w).1, noted [cb] (os w).2) w)) →
  wp (on_cb cb complete) w Q.
Proof.
  intros Hg HQ. destruct cb as [c|]; cbn in *.
  - destruct (complete_law c w Hg) as [E Hg']. unfold wp. rewrite E. by apply HQ.
  - apply wp_ret. rewrite <- surjective_pairing in HQ. specialize (HQ Hg). by destruct w.
Qed.

Lemma noted_id cs (l : L) : (∀ c l, note c l = l) → noted cs l = l.
Proof. intros Hn. induction cs as [|[c|] cs IH]; [done| |done]. cbn. by rewrite Hn. Qed.

Lemma write_loop_wp fuel w fd mask qs ds :
  (∀ x s l n s', good (s, l) → xwrite fd x s = (n, s') → good (s', l)) →
  good (os w) → stream_is w fd mask qs ds → (length ds < fuel)%nat →
  wp (loop fuel turn (list.head (linked qs))) w (λ r w', same_reading w w' ∧ ∃ i s' qs' ds',
    written fd w ds s' ds' i ∧ flushes fd (os w).1 ds s' ds' i r.2 ∧
    os w' = (s', noted (take i ds.*2) (os w).2) ∧ good (os w') ∧
    qs' = Nat.iter i consumed_front qs ∧
    stream_is w' fd (if decide (ds ≠ [] ∧ ds' = []) then removeWrite mask else mask) qs' ds' ∧
    r.1 = list.head (linked qs') ∧
    (r.2 = true → ds' ≠ [] ∧ ∃ bs s, bs ≠ [] ∧ (xwrite fd (Some <$> bs) s).1 < 0) ∧
    (r.2 = false → ds ≠ [] → ∃ x s, 0 ≤ (xwrite fd x s).1)).
Proof.
  intros Hkeep. revert w mask qs ds. induction fuel as [|fuel IH]; intros w mask qs ds Hg St Hf; [lia|].
  apply wp_loop_S. destruct ds as [|[bs cb] ds].
  - pose proof St as (_ & _ & F). inversion F as [Hl|]. cbn [list.head write_turn].
    wp_step. split; [done|].
    exists 0%nat, (os w).1, qs, []. split; [exists []; by rewrite !app_nil_r|]. split; [constructor|].
    split; [simpl; by destruct (os w)|]. split; [done|]. split; [done|].
    rewrite decide_False by (by intros []). split; [done|]. split; [by rewrite <- Hl|]. done.
  - pose proof St as (_ & _ & F). inversion F as [|r ? rs ? _ _ Hl]; subst.
    assert (Hbs : bs ≠ []).
    { destruct St as (_ & _ & F0). inversion F0 as [|? ? ? ? (? & ? & ? & ? & ? & ?) ?]; by subst. }
    symmetry in Hl. eapply write_turn_wp; [done..|]. intros n s1 En Hn Hs1.
    destruct (decide (n = zlength bs)) as [->|Hne]; intros w1 S1 Eo St1.
    + assert (Hg' : good (os w1)).
      { rewrite Eo. eapply Hkeep; [|exact En]. by destruct (os w). }
      apply wp_noted; [done|]. intros Hg1. set (w2 := set_os _ w1).
      assert (Hh : list.head rs = list.head (linked (consumed_front qs))) by (by rewrite linked_consumed, Hl).
      rewrite Hh. eapply wp_mono; [apply (IH w2); [exact Hg1|exact St1|simpl in Hf; lia]|].
      intros res w' (S2 & i & s' & qs' & ds' & (out & E1 & E2 & E3 & E4 & E5 & E6) & Hfs & Eo' & Hgood & Eq & St' & Er & Hfl & Hok).
      split; [destruct S1, S2; split; cbn in *; congruence|]. exists (S i), s', qs', ds'.
      unfold w2 in E1, Eo', Hfs. rewrite Eo in E1, Eo', Hfs. cbn [os set_os fst snd] in E1, Eo', Hfs. split_and!; try done.
      * exists (bs ++ out). rewrite E1, Hs1, Nat2Z.id, firstn_all. split; [by rewrite <- app_assoc|].
        split; [simpl; by rewrite <- app_assoc, E2|]. split; [done|]. split; [simpl; lia|].
        split; [done|]. intros _ _ [E _]%app_eq_nil. done.
      * by apply (flushes_all fd _ bs cb ds s1).
      * rewrite Eq. by rewrite Nat.iter_succ_r.
      * assert (Hrs : rs = [] ↔ ds = []).
        { destruct St1 as (_ & _ & F1). rewrite linked_consumed, Hl in F1. simpl in F1.
          by inversion F1. }
        destruct ds as [|d ds]; simpl in *.
        -- assert (ds' = []) as -> by (destruct ds'; [done|simpl in E4; lia]).
           rewrite (decide_True (P := rs = [])) in St' by (by apply Hrs).
           exact St'.
        -- rewrite (decide_False (P := rs = [])) in St' by (intros [=]%Hrs).
           destruct (decide (ds' = [])) as [->|]; [rewrite decide_True in St' by done; by rewrite decide_True by done|].
           rewrite decide_False in St' by tauto. by rewrite decide_False by tauto.
      * intros _ _. exists (Some <$> bs), (os w).1. rewrite En. cbn. lia.
    + split; [done|].
      exists 0%nat, s1, qs, ((drop (Z.to_nat n) bs, cb) :: ds). split; [|split; [|split; [|split; [|split; [|split; [|split]]]]]].
      * exists (take (Z.to_nat n) bs). simpl. split; [done|]. split; [by rewrite app_assoc, take_drop|].
        split; [done|]. split; [done|]. split; [intros Hall; by apply Hall in En|].
        intros Hall _ E. specialize (Hall bs (os w).1 Hbs). rewrite En in Hall. cbn [fst] in Hall.
        apply (f_equal length) in E. rewrite length_take in E. destruct bs; [done|]. simpl in E. lia.
      * apply flushes_part; [done|lia].
      * done.
      * rewrite Eo. eapply Hkeep; [|exact En]. by destruct (os w).
      * done.
      * by rewrite decide_False by (by intros [_ [=]]).
      * by rewrite Hl.
      * split.
        -- cbn. intros Hneg%bool_decide_eq_true. split; [done|]. exists bs, (os w).1. by rewrite En.
        -- cbn. intros Hpos%bool_decide_eq_false _. exists (Some <$> bs), (os w).1. rewrite En. cbn. lia.
Qed.
End silent.
End write.

(** ** Reading *)

Section read.
Context (xread : Z → Z → Sys → option (list byte) * Sys) (geterror : Z → Sys → Z * Sys).
Context (EAGAIN EWOULDBLOCK : Z).
Context (read_available : N → M world unit) (read_error : N → string → M world unit).
Context (read_eof : N → M world unit).

(** The calls of [read(2)], one after the other until one returns less than it was asked
    for: the pieces that arrived, and how it ended. *)
Inductive ending := Short | Blocked | Failed | AtEof.
Inductive reads (fd : Z) : Sys → list (list byte) → ending → Sys → Prop :=
| reads_eof s s1 : xread fd read_size s = (Some [], s1) → reads fd s [] AtEof s1
| reads_error s s1 e s2 : xread fd read_size s = (None, s1) → geterror fd s1 = (e, s2) →
    reads fd s [] (if isReadRetryable EAGAIN EWOULDBLOCK e then Blocked else Failed) s2
| reads_short s bs s1 : xread fd read_size s = (Some bs, s1) → bs ≠ [] → zlength bs < read_size →
    reads fd s [bs] Short s1
| reads_full s bs s1 bss e s2 : xread fd read_size s = (Some bs, s1) → bs ≠ [] → read_size ≤ zlength bs →
    reads fd s1 bss e s2 → reads fd s (bs :: bss) e s2.

Lemma reads_inv fd s pieces e s' : reads fd s pieces e s' →
  match xread fd read_size s with
  | (Some [], s1) => pieces = [] ∧ e = AtEof ∧ s' = s1
  | (None, s1) => pieces = [] ∧ s' = (geterror fd s1).2 ∧
      e = if isReadRetryable EAGAIN EWOULDBLOCK (geterror fd s1).1 then Blocked else Failed
  | (Some bs, s1) =>
      if zlength bs <? read_size then pieces = [bs] ∧ e = Short ∧ s' = s1
      else ∃ bss, pieces = bs :: bss ∧ reads fd s1 bss e s'
  end.
Proof.
  destruct 1 as [s s1 E|s s1 x s2 E E2|s bs s1 E Hb Hl|s bs s1 bss e s2 E Hb Hl R]; rewrite E; [done|by rewrite E2|..];
    (destruct bs as [|c bs]; [done|]).
  - by rewrite (proj2 (Z.ltb_lt _ _)) by done.
  - rewrite (proj2 (Z.ltb_ge _ _)) by done. by exists bss.
Qed.

(** The state after a system call, and with other data in the buffer. *)
Definition with_sys (s : Sys) (w : world) : world := set_os (s, (os w).2) w.

Lemma read_turn_wp w fd mask bss (Q : unit + unit → world → Prop) :
  alive w = true → w_holds (handler_ w) fd mask → contents (readBuffer_ w) bss →
  read_size ≤ max_new →
  (∀ r s1, xread fd read_size (os w).1 = (r, s1) →
    match r with
    | None => ∀ e s2, geterror fd s1 = (e, s2) →
        if isReadRetryable EAGAIN EWOULDBLOCK e then Q (inr tt) (with_sys s2 w)
        else wp (on_cb (readCallback_ w) (λ c, read_error c "Read failed")) (with_sys s2 w)
               (λ _, Q (inr tt))
    | Some [] => wp (on_cb (readCallback_ w) read_eof) (with_sys s1 w) (λ _, Q (inr tt))
    | Some bs => zlength bs ≤ read_size ∧ zlength (concat bss) + zlength bs < W64 ∧
        ∀ L1, contents L1 (bss ++ [bs]) →
        wp (on_cb (readCallback_ w) read_available) (set_readBuffer L1 (with_sys s1 w))
          (λ _, Q (if zlength bs <? read_size then inr tt else inl tt))
    end) →
  wp (read_turn (λ fd n, sys (xread fd n)) (λ fd, sys (geterror fd)) EAGAIN EWOULDBLOCK
        read_available read_error read_eof tt) w Q.
Proof.
  intros Ha Hh C Hm HQ. unfold read_turn. wp_step.
  eapply wp_read_handler; [done|by eapply w_fd_ok|]. wp_step. apply wp_sys.
  intros r s1 E. specialize (HQ r s1 E). fold (with_sys s1 w). destruct r as [[|c bs]|].
  - wp_step. apply wp_this; [done|]. wp_step. eapply wp_mono; [exact HQ|]. intros ? w' HQ'. by wp_step.
  - set (bs' := c :: bs) in *. destruct HQ as (Hs & Hb & HQ).
    wp_step. apply wp_this; [done|]. wp_step. eapply wp_done.
    { unfold zoom. cbn [readBuffer_ set_os with_sys].
      rewrite buf_append_new by (intros ?; by apply (contents_last _ bss)).
      by rewrite (proj2 (Z.leb_le _ _)) by lia. }
    wp_step. apply wp_this; [done|]. wp_step.
    eapply wp_mono; [apply HQ; by apply contents_snoc|]. intros ? w' HQ'. by wp_step.
  - wp_step. eapply wp_read_handler; [done|by eapply w_fd_ok|]. wp_step. apply wp_sys.
    intros e s2 E2. specialize (HQ e s2 E2). destruct (isReadRetryable EAGAIN EWOULDBLOCK e).
    + by wp_step.
    + wp_step. apply wp_this; [done|]. wp_step. eapply wp_mono; [exact HQ|]. intros ? w' HQ'. by wp_step.
Qed.
End read.
(** ** Watching, closing, destroying *)

Lemma startRead_wp cb w fd mask :
  alive w = true → w_holds (handler_ w) fd mask →
  wp (startRead cb) w (λ _ w', ∃ h, w' = set_handler h (set_readCallback cb w) ∧
    w_holds h fd (if decide (readCallback_ w = cb) then mask else ensureRead mask)).
Proof.
  intros Ha Hh. unfold startRead. wp_step. apply wp_this; [done|].
  destruct (decide (readCallback_ w = cb)) as [E|E].
  - rewrite bool_decide_true by done. wp_step. exists (handler_ w). split; [by destruct w; subst cb|done].
  - rewrite bool_decide_false by done. wp_step. apply wp_set_this; [done|].
    wp_step. eapply wp_read_handler; [done|by eapply w_watched_ok|].
    apply wp_on_handler; [done|]. eapply wp_mono; [by apply (w_register_ok _ fd mask)|].
    intros ? h Hh'. by exists h.
Qed.

Lemma stopRead_wp w fd mask :
  alive w = true → w_holds (handler_ w) fd mask →
  wp (stopRead NDEBUG) w (λ _ w', ∃ h, w' = set_handler h (set_readCallback None w) ∧
    w_holds h fd (if decide (readCallback_ w ≠ None ∧ mask = READ_WRITE) then WRITE else mask)).
Proof.
  intros Ha Hh. unfold stopRead. wp_step. apply wp_this; [done|].
  destruct (decide (readCallback_ w = None)) as [E|E].
  - rewrite bool_decide_true by done. wp_step. rewrite decide_False by tauto. exists (handler_ w).
    split; [|done]. destruct w; cbn in *; by subst.
  - rewrite bool_decide_false by done. wp_step. apply wp_set_this; [done|].
    do 2 (wp_step; eapply wp_read_handler; [done|by eapply w_watched_ok|]).
    assert (Hk : mask = READ_WRITE ∨ mask ≠ READ_WRITE) by (destruct mask; auto).
    destruct Hk as [->|Hk].
    + change (negb (isRead READ_WRITE)) with false. cbv iota. wp_step.
      eapply wp_read_handler; [done|by eapply w_watched_ok|].
      change (isWrite READ_WRITE) with true. cbv iota. wp_step. apply wp_assert_; [done|]. apply wp_on_handler; [done|].
      eapply wp_mono; [by apply (w_register_ok _ fd READ_WRITE)|]. intros ? h Hh'. exists h.
      by rewrite decide_True.
    + rewrite decide_False by tauto.
      assert (Hend : wp (if negb (isRead mask) then mret tt
        else w ← on_handler w_watched;
             if isWrite w then assert_ NDEBUG (bool_decide (mask = READ_WRITE));; on_handler (w_register WRITE)
             else mret tt) (set_readCallback None w) (λ _ w', w' = set_readCallback None w)).
      { destruct mask; try done. change (negb (isRead READ)) with false. cbv iota. wp_step.
        by eapply wp_read_handler; [done|by eapply w_watched_ok|]. }
      eapply wp_mono; [exact Hend|]. intros ? w' ->. by exists (handler_ w).
Qed.

(** [close], behind its callbacks. *)
Lemma close_tail_wp (xclose : Z → Sys → Z * Sys) w fd mask :
  alive w = true → w_holds (handler_ w) fd mask →
  wp (r ← on_handler w_registered;
      when r (on_handler w_unregister);;
      fd ← on_handler w_fd;
      when (negb (fd =? -1)) (fd ← on_handler w_fd; call (sys (xclose fd));; mret tt)) w
    (λ _ w', ∃ h, w_holds h fd NONE ∧
      w' = set_os (if decide (fd = -1) then (os w).1 else (xclose fd (os w).1).2, (os w).2) (set_handler h w)).
Proof.
  intros Ha Hh. wp_step. eapply wp_read_handler; [done|by apply (w_registered_ok _ fd mask)|].
  wp_step. apply (wp_mono _ _ (λ _ w', ∃ h, w_holds h fd NONE ∧ w' = set_handler h w)).
  { apply wp_when; intros Hm.
    - apply wp_on_handler; [done|]. eapply wp_mono; [by apply (w_unregister_ok _ fd mask)|].
      intros ? h Hh'. by exists h.
    - apply bool_decide_eq_false in Hm. assert (mask = NONE) as -> by (by destruct (decide (mask = NONE))).
      exists (handler_ w). by destruct w. }
  intros ? w1 (h & Hh1 & ->). wp_step.
  eapply wp_read_handler; [done|by apply (w_fd_ok h fd NONE)|].
  apply wp_when; intros Hfd.
  - wp_step. eapply wp_read_handler; [done|by apply (w_fd_ok h fd NONE)|].
    wp_step. apply wp_sys. intros rc s1 E. wp_step. cbn [os set_os set_handler fst snd] in *.
    rewrite decide_False by (intros E'; by rewrite E' in Hfd). rewrite E. by exists h.
  - apply negb_false_iff, Z.eqb_eq in Hfd. rewrite decide_True by done. exists h. split; [done|]. by destruct w as [???????? []].
Qed.

(** The requests that are in the queue. *)
Lemma consume_loop_ok fuel w qs :
  queue_is w qs → (length (linked qs) < fuel)%nat →
  wp (loop fuel (consume_turn (K := Sys * L)) tt) w (λ _ w', queue_is w' Empty ∧ same_rest w w' ∧
    ∀ k, heap w' !! k = if decide (k ∈ linked qs) then None else heap w !! k).
Proof.
  revert w qs. induction fuel as [|fuel IH]; intros w qs Hq Hf; [lia|].
  apply wp_loop_S. unfold consume_turn. wp_step. eapply wp_mono; [by apply consume_ok|].
  intros r w1 (-> & Hq1 & S1 & _ & H1). wp_step. pose proof (linked_consumed qs) as Lc.
  destruct (linked (consumed_front qs)) as [|r rs] eqn:El; simpl list.head; cbv iota.
  - split; [|split; [done|]].
    + destruct (consumed_front qs); try done.
    + intros k. rewrite H1. destruct (linked qs) as [|r' [|]]; [done| |done].
      destruct (decide (k = r')) as [->|Hk].
      * by rewrite !decide_True by set_solver.
      * by rewrite !decide_False by set_solver.
  - eapply wp_mono; [apply (IH w1 (consumed_front qs)); [done|]|].
    { rewrite El. destruct (linked qs); simpl in *; subst; simpl in *; [done|lia]. }
    intros ? w' (Hq' & S' & H'). split; [done|]. split; [destruct S1, S'; split; congruence|].
    intros k. rewrite H', H1, El. destruct (linked qs) as [|r' rs']; [done|]. simpl in Lc. subst rs'.
    destruct (decide (k ∈ r :: rs)); [by rewrite decide_True by set_solver|].
    destruct (decide (k = r')) as [->|Hk].
    * by rewrite !decide_True by set_solver.
    * by rewrite !decide_False by set_solver.
Qed.

Lemma delete_wp fuel w qs fd mask :
  queue_is w qs → w_holds (handler_ w) fd mask → (2 < fuel)%nat →
  wp (StreamImpl_delete (K := Sys * L) fuel) w (λ _ w', alive w' = false ∧ w_holds (handler_ w') fd NONE ∧
    os w' = os w ∧ ∀ k, heap w' !! k = if decide (k ∈ linked qs) then None else heap w !! k).
Proof.
  intros Hq Hh Hf. unfold StreamImpl_delete. wp_step. apply wp_on_handler; [by eapply queue_alive|].
  eapply wp_mono; [by apply (w_unregister_ok _ fd mask)|]. intros ? h Hh1. wp_step.
  eapply wp_mono.
  { apply (consume_loop_ok fuel _ qs); [by eapply (queue_is_ext w)|]. destruct qs; simpl; lia. }
  intros ? w' (Hq' & S' & H'). apply wp_set_this; [by eapply queue_alive|].
  split; [done|]. destruct S'. simpl in *. split; [congruence|]. done.
Qed.
End turns.
