(* ===== verification/StreamIO.v ===== *)
(** * Streams: writing and reading

    [writeHelper] and [readHelper] over an operating system that obeys the rules of
    [write(2)] and [read(2)], with callbacks that record that they were called. *)

From S2P Require Import Prelude What Extent BufferModel BufferSpec Watch Stream StreamSpec StreamTurn.

(** What the client sees. *)
Inductive ev :=
| Completed (c : N) | WriteFailed (c : N)
| Available (c : N) | ReadFailed (c : N) | Eof (c : N)
| Connected (c : N) | ConnectFailed (c : N) (what : string).

Section io.
Context `{Watch} `{Allocator} {Sys : Type} (NDEBUG : bool).
Abbreviation world := (world (Sys * list ev)).
Implicit Types w : world.

Definition log (e : ev) (w : world) : world := set_os ((os w).1, (os w).2 ++ [e]) w.

(** A callback that only records its call. *)
Definition says (e : N → ev) (c : N) : M world unit := modify (log (e c)).

(** The record [says] makes, without the null callbacks. *)
Definition said (e : N → ev) (cs : list (option N)) : list ev := e <$> omap id cs.

(** Only the log differs. *)
Definition logged (es : list ev) (w : world) : world := set_os ((os w).1, (os w).2 ++ es) w.

Lemma wp_on_cb c e w (Q : unit → world → Prop) :
  Q tt (logged (said e [c]) w) → wp (on_cb c (says e)) w Q.
Proof.
  intros HQ. destruct c; [exact HQ|]. unfold logged, said in HQ. simpl in HQ.
  rewrite app_nil_r in HQ. apply wp_ret. by destruct w as [???????? []].
Qed.

(** ** Writing *)

Section write.
Context (xwrite : Z → list cell → Sys → Z * Sys) (sent : Z → Sys → list byte).
(** [write] takes a prefix of the data, or fails; what it takes goes on the wire. *)
Context (write_law : ∀ fd (bs : list byte) s n s', zlength bs ≤ INT_MAX →
  xwrite fd (Some <$> bs) s = (n, s') →
  - 1 ≤ n ≤ zlength bs ∧ sent fd s' = sent fd s ++ take (Z.to_nat n) bs).

Abbreviation turn := (write_turn NDEBUG (λ fd b, sys (xwrite fd b)) (says Completed)).

Lemma noted_said cs (l : list ev) : noted (λ c l, l ++ [Completed c]) cs l = l ++ said Completed cs.
Proof.
  revert l. induction cs as [|[c|] cs IH]; intros l; cbn; [by rewrite app_nil_r| |apply IH].
  unfold noted in IH. rewrite IH, <- app_assoc. done.
Qed.

Lemma write_loop_ok fuel w fd mask qs ds :
  stream_is w fd mask qs ds → (length ds < fuel)%nat →
  wp (loop fuel turn (list.head (linked qs))) w (λ r w', same_reading w w' ∧ ∃ i s' qs' ds',
    written xwrite sent fd w ds s' ds' i ∧ flushes xwrite fd (os w).1 ds s' ds' i r.2 ∧
    os w' = (s', (os w).2 ++ said Completed (take i ds.*2)) ∧
    stream_is w' fd (if decide (ds ≠ [] ∧ ds' = []) then removeWrite mask else mask) qs' ds' ∧
    r.1 = list.head (linked qs') ∧ (r.2 = true → ds' ≠ [])).
Proof.
  intros St Hf. eapply wp_mono; [by apply (write_loop_wp NDEBUG xwrite sent write_law (says Completed)
    (λ c l, l ++ [Completed c]) (λ _, True) ltac:(done) fuel w fd mask qs ds)|].
  intros r w' (S1 & i & s' & qs' & ds' & Hw & Hfs & Eo & _ & _ & St' & Hr & Hfl & _). split; [done|].
  exists i, s', qs', ds'. rewrite Eo, noted_said. split; [done|]. split; [done|]. split; [done|].
  split; [done|]. split; [done|]. intros Hr2. by apply Hfl.
Qed.
End write.

(** ** Reading *)

Section read.
Context (xread : Z → Z → Sys → option (list byte) * Sys) (geterror : Z → Sys → Z * Sys).
Context (EAGAIN EWOULDBLOCK : Z) (inbox : Z → Sys → list byte).
(** [read] takes at most [size] bytes from the front of what has arrived. *)
Context (read_law : ∀ fd size s r s', 0 ≤ size → xread fd size s = (r, s') →
  inbox fd s = default [] r ++ inbox fd s' ∧ zlength (default [] r) ≤ size).
Context (errno_law : ∀ fd s e s', geterror fd s = (e, s') → inbox fd s' = inbox fd s).

Abbreviation turn := (read_turn (λ fd n, sys (xread fd n)) (λ fd, sys (geterror fd))
  EAGAIN EWOULDBLOCK (says Available) (λ c _, says ReadFailed c) (says Eof)).

(** What the callback is told when reading ends. *)
Definition end_log (e : ending) (cb : option N) : list ev :=
  match e with AtEof => said Eof [cb] | Failed => said ReadFailed [cb] | Short | Blocked => [] end.

(** The [pieces] arrived, and reading ended with [e]. *)
Definition delivered (fd : Z) w bss (pieces : list (list byte)) (e : ending) s' w' : Prop :=
  ∃ L', inbox fd (os w).1 = concat pieces ++ inbox fd s' ∧ contents L' (bss ++ pieces) ∧
    w' = set_os (s', (os w).2 ++ said Available (replicate (length pieces) (readCallback_ w)) ++
      end_log e (readCallback_ w)) (set_readBuffer L' w).

Lemma delivered_step fd w bss bs s1 L1 pieces e s' w' :
  inbox fd (os w).1 = bs ++ inbox fd s1 →
  delivered fd (logged (said Available [readCallback_ w])
    (set_os (s1, (os w).2) (set_readBuffer L1 w))) (bss ++ [bs]) pieces e s' w' →
  delivered fd w bss (bs :: pieces) e s' w'.
Proof.
  intros E (L' & E1 & C & ->). exists L'. simpl in *.
  split; [by rewrite E, E1, app_assoc|]. split; [by rewrite <- app_assoc in C|].
  unfold set_os, set_readBuffer. simpl. do 2 f_equal. rewrite <- !app_assoc. f_equal.
  by destruct (readCallback_ w).
Qed.

Lemma delivered_last fd w bss s1 e :
  inbox fd (os w).1 = inbox fd s1 → contents (readBuffer_ w) bss →
  delivered fd w bss [] e s1 (logged (end_log e (readCallback_ w)) (set_os (s1, (os w).2) w)).
Proof.
  intros E C. exists (readBuffer_ w). split; [done|]. split; [by rewrite app_nil_r|]. by destruct w.
Qed.

Lemma read_loop_ok fuel w fd mask bss :
  alive w = true → w_holds (handler_ w) fd mask → contents (readBuffer_ w) bss →
  read_size ≤ max_new → zlength (concat bss) + zlength (inbox fd (os w).1) < W64 →
  (length (inbox fd (os w).1) < fuel)%nat →
  wp (loop fuel turn tt) w (λ _ w', ∃ pieces e s',
    reads xread geterror EAGAIN EWOULDBLOCK fd (os w).1 pieces e s' ∧ delivered fd w bss pieces e s' w').
Proof.
  revert w bss. induction fuel as [|fuel IH]; intros w bss Ha Hh C Hm Hb Hf; [lia|].
  apply wp_loop_S. eapply read_turn_wp; [done..|]. intros r s1 E.
  destruct (read_law fd read_size _ _ _ ltac:(done) E) as [Ei Hs].
  destruct r as [[|c bs]|]; simpl in Ei.
  - (* end of file *)
    apply wp_on_cb. exists [], AtEof, s1. split; [by apply reads_eof|]. by apply delivered_last.
  - set (bs' := c :: bs) in *. change (inbox fd (os w).1 = bs' ++ inbox fd s1) in Ei.
    assert (Hlen : 0 < zlength bs') by (unfold bs'; simpl; lia).
    rewrite Ei, length_app in Hb, Hf. change (zlength bs' ≤ read_size) in Hs.
    split; [done|]. split; [lia|]. intros L1 C1. apply wp_on_cb.
    destruct (Z.ltb_spec (zlength bs') read_size) as [Hl|Hl].
    + exists [bs'], Short, s1. split; [by apply reads_short|].
      eapply (delivered_step fd w bss bs' s1 L1); [done|].
      eexists L1. split; [done|]. split; [by rewrite app_nil_r|]. simpl. by rewrite app_nil_r.
    + eapply wp_mono.
      { apply (IH _ (bss ++ [bs'])); [done|done|exact C1|done| |].
        - rewrite concat_app, length_app. simpl. rewrite app_nil_r. simpl in Hb. lia.
        - simpl in *. lia. }
      intros ? w' (pieces & e & s' & Hr & D). exists (bs' :: pieces), e, s'.
      split; [by eapply reads_full|by apply (delivered_step fd w bss bs' s1 L1)].
  - intros x s2 E2. pose proof E2 as E2'. apply errno_law in E2.
    pose proof (reads_error xread geterror EAGAIN EWOULDBLOCK fd _ _ _ _ E E2') as Hr.
    destruct (isReadRetryable EAGAIN EWOULDBLOCK x).
    + exists [], Blocked, s2. split; [done|].
      pose proof (delivered_last fd w bss s2 Blocked ltac:(congruence) C) as D.
      unfold logged in D. simpl in D. by rewrite app_nil_r in D.
    + apply wp_on_cb. exists [], Failed, s2. split; [done|]. apply delivered_last; [congruence|done].
Qed.
End read.
End io.
