(* ===== verification/StreamProps.v ===== *)
(** * Streams: what they promise

    The contract of [src/wte/stream.h], as [src/stream.cc] keeps it: what happens to
    the data and to the callbacks of writes and reads, which events the descriptor is
    watched for, how a connection is made and how a stream ends. *)

From S2P Require Import Prelude What Extent BufferModel BufferSpec Watch Stream StreamSpec StreamTurn StreamIO.

Section props.
Context `{Watch} `{Allocator} {Sys : Type} (NDEBUG : bool).
Abbreviation world := (world (Sys * list ev)).
Implicit Types w : world.

(** Writing is not affected. *)
Record same_queue w w' : Prop := {
  sq_requests : requests_ w' = requests_ w;
  sq_heap : heap w' = heap w;
  sq_conncb : connectCallback_ w' = connectCallback_ w;
  sq_readbuf : readBuffer_ w' = readBuffer_ w;
  sq_os : os w' = os w;
}.

(** ** Queueing *)

Lemma enqueue_ok w n q qs fd mask :
  queue_is w qs → new_req w n q → n ∉ linked qs → w_holds (handler_ w) fd mask →
  match appended n qs with
  | Some qs' => wp (enqueue NDEBUG n) w (λ _ w', queue_is w' qs' ∧
      w_holds (handler_ w') fd (ensureWrite mask) ∧
      ∀ r, payload <$> heap w' !! r = payload <$> heap w !! r)
  | None => enqueue NDEBUG n w = Faults UseAfterFree
  end.
Proof.
  intros Hq Hn Hl Hh. pose proof (requests_append_ok NDEBUG w n q qs Hq Hn Hl) as Ha.
  destruct (appended n qs) as [qs'|].
  - unfold enqueue. wp_step. eapply wp_mono; [exact Ha|]. intros ? w1 (Hq1 & S1 & _ & Hp).
    assert (Hh1 : w_holds (handler_ w1) fd mask) by (by rewrite (sr_handler _ _ S1)).
    wp_step. eapply wp_read_handler; [apply (queue_alive _ _ Hq1)|by eapply w_watched_ok|].
    apply wp_on_handler; [apply (queue_alive _ _ Hq1)|].
    eapply wp_mono; [by apply (w_register_ok _ fd mask)|]. intros ? h Hh2.
    split; [by eapply (queue_is_ext w1)|]. split; [done|]. apply Hp.
  - unfold enqueue, mbind, M_bind in *. by rewrite Ha.
Qed.

(** The data of the new request, and that of the others. *)
Definition queued_as w w' (bss : list (list byte)) (cb : option N) : Prop :=
  (∃ b, payload <$> heap w' !! next_addr w = Some (b, cb) ∧ contents b bss) ∧
  ∀ r, r ≠ next_addr w → payload <$> heap w' !! r = payload <$> heap w !! r.

Lemma write_new m bss b w qs fd mask cb :
  queue_is w qs → w_holds (handler_ w) fd mask → m empty_buf = Done tt b → contents b bss →
  match appended (next_addr w) qs with
  | Some qs' => wp (req ← new_request m cb; enqueue NDEBUG req) w (λ _ w', queue_is w' qs' ∧
      w_holds (handler_ w') fd (ensureWrite mask) ∧ queued_as w w' bss cb)
  | None => (req ← new_request m cb; enqueue NDEBUG req) w = Faults UseAfterFree
  end.
Proof.
  intros Hq Hh Em C.
  assert (Hnew : wp (new_request m cb) w (λ n w1, n = next_addr w ∧
    w1 = add_request (mkReq b cb None) w ∧ queue_is w1 qs ∧ new_req w1 n (mkReq b cb None) ∧
    n ∉ linked qs)).
  { eapply new_request_ok; [done|done|]. cbv zeta. auto. }
  apply wp_iff in Hnew as (n & w1 & E & -> & -> & Hq1 & Hn & Hl).
  pose proof (enqueue_ok _ _ _ qs fd mask Hq1 Hn Hl Hh) as He.
  destruct (appended (next_addr w) qs).
  - wp_step. eapply wp_done; [exact E|]. eapply wp_mono; [exact He|].
    intros ? w' (Hq' & Hh' & Hp). split; [done|]. split; [done|]. split.
    + exists b. split; [|done]. rewrite Hp. simpl. by rewrite lookup_insert_eq.
    + intros r Hr. rewrite Hp. simpl. by rewrite lookup_insert_ne.
  - by rewrite (bind_done _ _ _ _ _ E).
Qed.

(** C23: a write copies the data (moves the buffer) into a request of its own, queues
    it, and watches the descriptor for writing.  The queue holds two requests at
    most: with two, the second is lost (it is still allocated, but no longer in the
    queue) and the new one takes its place; and when the first of two has been
    written, the next write goes through a dangling pointer. *)
Theorem write_queues w qs fd mask cb :
  queue_is w qs → w_holds (handler_ w) fd mask →
  (∀ t, zlength t ≤ max_new → zlength t < W64 →
    match appended (next_addr w) qs with
    | Some qs' => wp (write NDEBUG (Some <$> t) (zlength t) cb) w (λ _ w', queue_is w' qs' ∧
        w_holds (handler_ w') fd (ensureWrite mask) ∧ queued_as w w' [t] cb)
    | None => write NDEBUG (Some <$> t) (zlength t) cb w = Faults UseAfterFree
    end) ∧
  (∀ o oss, contents o oss →
    match appended (next_addr w) qs with
    | Some qs' => wp (write_buffer NDEBUG o cb) w (λ o' w', queue_is w' qs' ∧
        w_holds (handler_ w') fd (ensureWrite mask) ∧ queued_as w w' oss cb ∧ contents o' [])
    | None => write_buffer NDEBUG o cb w = Faults UseAfterFree
    end) ∧
  (length (linked qs) ≤ 2)%nat.
Proof.
  intros Hq Hh. split_and!; [| |destruct qs; simpl; lia].
  - intros t Hm Ht. apply (write_new _ _ (mkBuf [filled t] (0 +₆₄ zlength t))); [done|done| |].
    + rewrite buf_append_new by done. by rewrite (proj2 (Z.leb_le _ _)) by lia.
    + apply (contents_snoc empty_buf []); [apply contents_empty|simpl; lia].
  - intros o oss C.
    assert (Em : modify (buf_append_buffer o) empty_buf = Done tt (buf_append_buffer o empty_buf)) by done.
    pose proof (moved_contents o oss C) as C'.
    destruct C' as [C' Cm].
    pose proof (write_new _ oss _ w qs fd mask cb Hq Hh Em C') as Hw.
    destruct (appended (next_addr w) qs).
    + unfold write_buffer. apply wp_iff in Hw as ([] & w' & E & Hw).
      apply wp_iff. exists (buf_moved o), w'. split; [|naive_solver].
      unfold WriteRequest_new_buffer, mbind, M_bind in *.
      destruct (new_request _ cb w); try done. by rewrite E.
    + unfold write_buffer, WriteRequest_new_buffer, mbind, M_bind in *.
      destruct (new_request _ cb w); [by rewrite Hw|done| |done]. by injection Hw as ->.
Qed.

(** ** Writing *)

Section write.
Context (xwrite : Z → list cell → Sys → Z * Sys) (sent : Z → Sys → list byte).
(** [write] takes a prefix of the data, or fails; what it takes goes on the wire. *)
Context (write_law : ∀ fd (bs : list byte) s n s', zlength bs ≤ INT_MAX →
  xwrite fd (Some <$> bs) s = (n, s') →
  - 1 ≤ n ≤ zlength bs ∧ sent fd s' = sent fd s ++ take (Z.to_nat n) bs).

Abbreviation flush :=
  (writeHelper NDEBUG (λ fd b, sys (xwrite fd b)) (says Completed) (λ c _, says WriteFailed c)).

(** C4: when the descriptor is writable the requests, each of one piece of data that an
    [int] can count, are sent in order: what goes on the wire, followed by what is left
    in the queue, is what was in the queue.  Each request is given to one call of
    [write(2)], as long as the call before took everything ([flushes]).  The callbacks of
    exactly the requests that were sent completely are told, once each and in order; the
    last one of them also ends the watch for writing.  When the last call failed (a full
    socket included), and only then, the error callback of the first request left is
    told, and the request stays.  If the descriptor takes all it is given, nothing is
    left.  One turn more than requests is enough.  (For requests of more pieces see
    [short_write_skips].) *)
Theorem write_drains fuel w fd mask qs ds :
  stream_is w fd mask qs ds → (length ds < fuel)%nat →
  wp (flush fuel) w (λ _ w', same_reading w w' ∧ ∃ i s' qs' ds' failed,
    written xwrite sent fd w ds s' ds' i ∧ flushes xwrite fd (os w).1 ds s' ds' i failed ∧
    (failed = true → ds' ≠ []) ∧ os w' = (s', (os w).2 ++ said Completed (take i ds.*2) ++
      if failed then said WriteFailed (take 1 ds'.*2) else []) ∧
    stream_is w' fd (if decide (ds ≠ [] ∧ ds' = []) then removeWrite mask else mask) qs' ds').
Proof.
  intros St Hf. unfold writeHelper. pose proof St as (Hq & _ & _).
  wp_step. apply wp_this; [by eapply queue_alive|]. rewrite (queue_head w qs Hq). wp_step.
  eapply wp_mono; [by apply (write_loop_ok NDEBUG xwrite sent write_law fuel w fd mask qs ds)|].
  intros [req failed] w1 (S1 & i & s' & qs' & ds' & Hw & Hfs & Eo & St1 & Er & Hfl). simpl in Er, Hfs, Hfl.
  destruct failed.
  - pose proof St1 as (_ & _ & F). destruct ds' as [|[bs cb] ds']; [by destruct Hfl|].
    inversion F as [|r ? rs ? (q & Hr & Hcb & _) _ Hl]; subst. rewrite <- Hl.
    cbn [list.head]. cbv iota. wp_step. eapply wp_get_req; [done|]. simpl in Hcb. rewrite Hcb.
    apply (wp_on_cb cb WriteFailed). split; [by destruct S1; split|].
    exists i, s', qs', ((bs, cb) :: ds'), true. split; [done|]. split; [done|]. split; [done|].
    split; [|exact St1]. unfold logged. cbn [os set_os]. rewrite Eo. cbn [fst snd].
    by rewrite <- app_assoc.
  - wp_step. split; [done|]. exists i, s', qs', ds', false. rewrite app_nil_r. done.
Qed.

(** A request of two pieces (a buffer that was appended to twice): when the first
    piece is taken only in part, the second one is written all the same.  The wire
    gets a part of each, the bytes between them are never sent, and as many bytes as
    were taken are dropped from the front of the request, sent or not. *)
Theorem short_write_skips fuel w fd mask qs r rs q b1 b2 n1 n2 s1 s2 :
  queue_is w qs → w_holds (handler_ w) fd mask → linked qs = r :: rs →
  heap w !! r = Some q → contents (buffer_ q) [b1; b2] → b1 ≠ [] → b2 ≠ [] →
  zlength b1 ≤ INT_MAX → zlength b2 ≤ INT_MAX →
  xwrite fd (Some <$> b1) (os w).1 = (n1, s1) → 0 ≤ n1 < zlength b1 →
  xwrite fd (Some <$> b2) s1 = (n2, s2) → 0 ≤ n2 →
  wp (flush (S fuel)) w (λ _ w', os w' = (s2, (os w).2) ∧
    sent fd s2 = sent fd (os w).1 ++ take (Z.to_nat n1) b1 ++ take (Z.to_nat n2) b2 ∧
    ∃ q' bss', heap w' !! r = Some q' ∧ contents (buffer_ q') bss' ∧
      concat bss' = drop (Z.to_nat (n1 + n2)) (b1 ++ b2)).
Proof.
  intros Hq Hh El Hr C Hb1 Hb2 Hm1 Hm2 E1 Hn1 E2 Hn2. pose proof (queue_alive _ _ Hq) as Ha.
  destruct (write_law _ _ _ _ _ Hm1 E1) as [_ Hs1], (write_law _ _ _ _ _ Hm2 E2) as [Hn2' Hs2].
  pose proof (c_bound _ _ C) as Hb. simpl in Hb. rewrite app_nil_r, length_app in Hb.
  destruct (buf_drain_ok _ _ (n1 + n2) C) as (L' & Ed & C'); [unfold is_u64; lia|].
  unfold writeHelper. wp_step. apply wp_this; [done|]. rewrite (queue_head w qs Hq), El. cbn [list.head]. wp_step.
  apply wp_loop_S. unfold write_turn. wp_step. eapply wp_get_req; [done|]. cbv zeta.
  rewrite (buf_peek_all _ [b1; b2]) by (done || by repeat constructor). simpl fmap.
  wp_step. apply wp_assert_; [done|]. wp_step.
  cbn [write_extents]. wp_step. eapply wp_read_handler; [done|by eapply w_fd_ok|].
  wp_step. apply wp_sys. intros n s E. rewrite E1 in E. injection E as <- <-.
  rewrite (proj2 (Z.leb_le _ _)) by lia.
  wp_step. eapply wp_read_handler; [done|by eapply w_fd_ok|].
  wp_step. apply wp_sys. intros n s E. cbn [os set_os fst] in E. rewrite E2 in E. injection E as <- <-.
  rewrite (proj2 (Z.leb_le _ _)) by lia. wp_step.
  wp_step. eapply (wp_get_req r q); [done|]. wp_step. eapply wp_done.
  { unfold zoom. rewrite Z.add_0_l, (u64_small n1), u64_small by (unfold is_u64; lia).
    by rewrite Ed. }
  rewrite length_fmap, (proj2 (Z.ltb_lt n1 _)) by lia. cbn [orb]. wp_step.
  cbv iota. wp_step. split; [done|]. split; [by rewrite Hs2, Hs1, app_assoc|].
  eexists _, _. split; [apply lookup_insert_eq|]. split; [exact C'|].
  rewrite concat_drain_chunks by lia. simpl. by rewrite app_nil_r.
Qed.
End write.

(** ** Reading *)

(** C24: when the descriptor is readable everything that has arrived is appended to the
    stream's buffer, in order and without loss.  [read(2)] is called again as long as it
    returns the 4096 bytes it was asked for ([reads]).  The callback, if there is one, is
    told once of each piece; then of the end of the file exactly when the last call
    returned it, and of an error exactly when the last call failed with an error that is
    not to be tried again.  Data that arrive when there is no callback stay in the buffer
    and no one is told of them.  Nothing else of the stream changes.  More turns than
    bytes are enough. *)
Theorem read_delivers xread geterror EAGAIN EWOULDBLOCK (inbox : Z → Sys → list byte) fuel w fd mask bss :
  (∀ fd size s r s', 0 ≤ size → xread fd size s = (r, s') →
    inbox fd s = default [] r ++ inbox fd s' ∧ zlength (default [] r) ≤ size) →
  (∀ fd s e s', geterror fd s = (e, s') → inbox fd s' = inbox fd s) →
  alive w = true → w_holds (handler_ w) fd mask → contents (readBuffer_ w) bss →
  read_size ≤ max_new → zlength (concat bss) + zlength (inbox fd (os w).1) < W64 →
  (length (inbox fd (os w).1) < fuel)%nat →
  wp (readHelper (λ fd n, sys (xread fd n)) (λ fd, sys (geterror fd)) EAGAIN EWOULDBLOCK
        (says Available) (λ c _, says ReadFailed c) (says Eof) fuel) w (λ _ w', ∃ s' L' pieces e,
    reads xread geterror EAGAIN EWOULDBLOCK fd (os w).1 pieces e s' ∧
    inbox fd (os w).1 = concat pieces ++ inbox fd s' ∧ contents L' (bss ++ pieces) ∧
    w' = set_os (s', (os w).2 ++ said Available (replicate (length pieces) (readCallback_ w)) ++
             match e with
             | AtEof => said Eof [readCallback_ w]
             | Failed => said ReadFailed [readCallback_ w]
             | Short | Blocked => []
             end) (set_readBuffer L' w)).
Proof.
  intros Hread Herr Ha Hh C Hm Hb Hf.
  eapply wp_mono; [by apply (read_loop_ok xread geterror EAGAIN EWOULDBLOCK inbox Hread Herr fuel w fd mask bss)|].
  intros ? w' (pieces & e & s' & Hr & L' & E & C' & ->). by exists s', L', pieces, e.
Qed.

(** ** The events a stream is watched for *)

(** [startRead] adds reading to what is watched (unless writing and reading are both
    watched: then writing is dropped, and what is queued is not sent), and does nothing
    for the callback that is set already.  [stopRead] clears the callback; it stops the
    watch for reading only when writing is watched too, so an idle stream goes on being
    woken up for data nobody wants. *)
Theorem reading_watches w fd mask cb :
  alive w = true → w_holds (handler_ w) fd mask →
  wp (startRead cb) w (λ _ w', readCallback_ w' = cb ∧ same_queue w w' ∧
    w_holds (handler_ w') fd (if decide (readCallback_ w = cb) then mask else ensureRead mask)) ∧
  wp (stopRead NDEBUG) w (λ _ w', readCallback_ w' = None ∧ same_queue w w' ∧
    w_holds (handler_ w') fd
      (if decide (readCallback_ w ≠ None ∧ mask = READ_WRITE) then WRITE else mask)) ∧
  ensureRead READ_WRITE = READ ∧ ensureWrite READ_WRITE = WRITE.
Proof.
  intros Ha Hh. split_and!; [| |done..].
  - eapply wp_mono; [by apply (startRead_wp cb w fd mask)|]. by intros ? w' (h & -> & ?).
  - eapply wp_mono; [by apply (stopRead_wp NDEBUG w fd mask)|]. by intros ? w' (h & -> & ?).
Qed.

(** ** Connecting *)

Section connect.
Context (socket : Sys → Z * Sys) (make_nonblocking : Z → Sys → Z * Sys).
Context (inet_pton : string → Sys → Z * Sys) (sys_connect : Z → string → Z → Sys → Z * Sys).
Context (xclose geterror : Z → Sys → Z * Sys) (getsockopt : Z → Sys → (Z * Z) * Sys).
Context (EINPROGRESS : Z).

Abbreviation the_connect := (connect NDEBUG (λ fd, sys (xclose fd)) (λ fd, sys (geterror fd))
  (sys socket) (λ fd, sys (make_nonblocking fd)) (λ ip, sys (inet_pton ip))
  (λ fd ip port, sys (sys_connect fd ip port)) EINPROGRESS (says Connected)
  (λ c e, says (λ c, ConnectFailed c e) c)).

(** What [connect] has done: failed, with the descriptor closed; or the descriptor is
    the stream's, and the connection is in progress or made. *)
Definition connect_failed w cb w' : Prop := ∃ what s1,
  let fd := (socket (os w).1).1 in
  w_holds (handler_ w') (-1) NONE ∧ connectCallback_ w' = None ∧
  os w' = (if decide (fd = -1) then s1 else (xclose fd s1).2, (os w).2 ++ [ConnectFailed cb what]).
Definition connect_pending w cb w' : Prop := ∃ s1,
  let fd := (socket (os w).1).1 in
  fd ≠ -1 ∧ w_holds (handler_ w') fd WRITE ∧ connectCallback_ w' = Some cb ∧ os w' = (s1, (os w).2).
Definition connect_made w cb w' : Prop := ∃ s1,
  let fd := (socket (os w).1).1 in
  fd ≠ -1 ∧ w_holds (handler_ w') fd NONE ∧ connectCallback_ w' = None ∧
  os w' = (s1, (os w).2 ++ [Connected cb]).

(** What the body leaves for the end of [connect]. *)
Definition body_done w cb (r : (string * Z) + unit) w' : Prop :=
  match r with
  | inl (what, fd) => ∃ s1, w' = set_os (s1, (os w).2) w ∧ fd = (socket (os w).1).1
  | inr _ => connect_pending w cb w' ∨ connect_made w cb w'
  end.

Lemma connect_body_ok ip port cb w :
  alive w = true → w_holds (handler_ w) (-1) NONE → connectCallback_ w = None →
  wp (connect_body (λ fd, sys (geterror fd)) (sys socket) (λ fd, sys (make_nonblocking fd))
        (λ ip, sys (inet_pton ip)) (λ fd ip port, sys (sys_connect fd ip port)) EINPROGRESS
        (says Connected) ip port cb) w (body_done w cb).
Proof.
  intros Ha Hh Hc. unfold connect_body. wp_step. apply wp_sys. intros fd s1 E1.
  assert (Efd : fd = (socket (os w).1).1) by (by rewrite E1).
  assert (Hfail : ∀ s what, body_done w cb (inl (what, fd)) (set_os (s, (os w).2) w)).
  { intros s what. by exists s. }
  destruct (Z.eqb_spec fd (-1)) as [|Hfd]; [wp_step; apply Hfail|].
  wp_step. apply wp_sys. intros rc s2 _. destruct (rc =? -1); [wp_step; apply Hfail|].
  wp_step. apply wp_sys. intros rc2 s3 _. destruct (negb (rc2 =? 1)); [wp_step; apply Hfail|].
  wp_step. apply wp_sys. intros rc3 s4 _. destruct (rc3 =? -1).
  - wp_step. apply wp_sys. intros e s5 _.
    destruct (isConnectRetryable EINPROGRESS e); [|wp_step; apply Hfail].
    wp_step. apply wp_on_handler; [done|]. eapply wp_mono; [by apply (w_setFd_ok _ (-1))|].
    intros ? h1 Hh1. wp_step. apply wp_set_this; [done|].
    wp_step. eapply wp_read_handler; [done|by apply (w_watched_ok h1 fd NONE)|].
    wp_step. apply wp_on_handler; [done|]. eapply wp_mono; [by apply (w_register_ok _ fd NONE)|].
    intros ? h2 Hh2. wp_step. left. exists s5. rewrite <- Efd. done.
  - wp_step. apply wp_on_handler; [done|]. eapply wp_mono; [by apply (w_setFd_ok _ (-1))|].
    intros ? h1 Hh1. wp_step. apply (wp_modify (log (Connected cb))). wp_step.
    right. exists s4. rewrite <- Efd. done.
Qed.

(** C34: [connect] on a stream without a descriptor does exactly one of three things: it
    tells the callback of an error, once, with the socket closed if there was one and
    the stream as it was; it waits, watching the new socket for writing, with the
    callback stored; or it is connected and tells the callback so, once. *)
Theorem connect_outcomes ip port cb w :
  alive w = true → w_holds (handler_ w) (-1) NONE → connectCallback_ w = None →
  wp (the_connect ip port cb) w (λ _ w',
    connect_failed w cb w' ∨ connect_pending w cb w' ∨ connect_made w cb w').
Proof.
  intros Ha Hh Hc. unfold connect. wp_step. eapply wp_read_handler; [done|by eapply w_fd_ok|].
  wp_step. apply wp_assert_; [done|]. wp_step. apply wp_this; [done|].
  wp_step. apply wp_assert_; [by apply bool_decide_true|].
  wp_step. eapply wp_mono; [by apply connect_body_ok|]. intros [[what fd]|] w1 Hb; [|wp_step; by right].
  destruct Hb as (s1 & -> & ->). wp_step. apply wp_when; intros Hfd.
  - wp_step. apply wp_sys. intros rc s2 E. wp_step. apply wp_modify.
    left. exists what, s1. split; [done|]. split; [done|].
    rewrite decide_False by (intros E'; by rewrite E' in Hfd). cbn [os set_os fst] in E. by rewrite E.
  - apply wp_modify. left. exists what, s1. split; [done|]. split; [done|].
    apply negb_false_iff, Z.eqb_eq in Hfd. by rewrite decide_True.
Qed.

(** When the socket of a pending connection becomes writable, the callback is told
    once: of an error iff [getsockopt] itself fails.  A connection that was refused
    ([SO_ERROR] is not 0) is reported as complete.  What is watched stays as it is, so
    without a write to do the loop goes on being woken up for writing. *)
Theorem connect_completes w fd mask c :
  alive w = true → w_holds (handler_ w) fd mask → connectCallback_ w = Some c →
  wp (connectHelper NDEBUG (λ fd, sys (getsockopt fd)) (says Connected)
        (λ c e, says (λ c, ConnectFailed c e) c)) w (λ _ w',
    let '((rc, err), s1) := getsockopt fd (os w).1 in
    connectCallback_ w' = None ∧ w_holds (handler_ w') fd mask ∧ requests_ w' = requests_ w ∧
    os w' = (s1, (os w).2 ++
      [if decide (rc = -1) then ConnectFailed c "Failed to query connection status" else Connected c])).
Proof.
  intros Ha Hh Hc. unfold connectHelper. wp_step. apply wp_this; [done|]. rewrite Hc.
  wp_step. apply wp_assert_; [done|]. wp_step. eapply wp_read_handler; [done|by eapply w_fd_ok|].
  wp_step. apply wp_sys. intros [rc err] s1 E. rewrite E.
  wp_step. apply wp_this; [done|]. wp_step. apply wp_set_this; [done|].
  cbn [connectCallback_ set_os]. rewrite Hc. destruct (Z.eqb_spec rc (-1)).
  - rewrite decide_True by done. by apply (wp_modify (log _)).
  - rewrite decide_False by done. by apply (wp_modify (log _)).
Qed.
End connect.

(** ** The end of a stream *)

Section close.
Context (xclose : Z → Sys → Z * Sys).

Abbreviation the_close := (close (λ fd, sys (xclose fd)) (says Eof) (λ c e, says (λ c, ConnectFailed c e) c)).

(** What a close does to the operating system and tells the client. *)
Definition closed (fd : Z) w : Sys * list ev :=
  (if decide (fd = -1) then (os w).1 else (xclose fd (os w).1).2,
   (os w).2 ++ said Eof [readCallback_ w] ++
   said (λ c, ConnectFailed c "Closed before connect") [connectCallback_ w]).

Lemma close_ok w fd mask :
  alive w = true → w_holds (handler_ w) fd mask →
  wp the_close w (λ _ w', alive w' = true ∧ w_holds (handler_ w') fd NONE ∧
    os w' = closed fd w ∧ readCallback_ w' = readCallback_ w ∧
    connectCallback_ w' = connectCallback_ w ∧ requests_ w' = requests_ w ∧ heap w' = heap w).
Proof.
  intros Ha Hh. unfold close. wp_step. apply wp_this; [done|]. wp_step. apply wp_on_cb.
  wp_step. apply wp_this; [done|]. wp_step. apply (wp_on_cb _ (λ c, ConnectFailed c _)).
  eapply wp_mono; [by apply (close_tail_wp xclose _ fd mask)|].
  intros ? w' (h & Hh' & ->). split; [done|]. split; [done|]. split; [|done].
  unfold closed. cbn [os set_os logged fst snd]. by rewrite app_assoc.
Qed.

(** [close] tells the read callback of the end of the file and the connect callback
    of an error, ends the watch and closes the descriptor; requests that are queued
    stay, and their callbacks are not told.  The stream keeps the descriptor's number
    and the callbacks: a second [close] tells them again and closes the number again,
    whatever it belongs to by then. *)
Theorem close_closes w fd mask :
  alive w = true → w_holds (handler_ w) fd mask →
  wp the_close w (λ _ w', w_holds (handler_ w') fd NONE ∧ os w' = closed fd w ∧
    requests_ w' = requests_ w ∧ heap w' = heap w ∧
    wp the_close w' (λ _ w'', os w'' = closed fd w' ∧ readCallback_ w' = readCallback_ w ∧
      connectCallback_ w' = connectCallback_ w)).
Proof.
  intros Ha Hh. eapply wp_mono; [by apply (close_ok w fd mask)|].
  intros ? w' (Ha' & Hh' & Eo & Er & Ec & Eq & Eh). split_and!; try done.
  eapply wp_mono; [by apply (close_ok w' fd NONE)|]. by intros ? w'' (_ & _ & ? & _).
Qed.
End close.

(** The destructor ends the watch and frees the requests that are in the queue,
    without telling their callbacks; a request that the queue has lost is not freed.
    The descriptor is not closed.  Three turns are enough. *)
Theorem delete_frees fuel w qs fd mask :
  queue_is w qs → w_holds (handler_ w) fd mask → (2 < fuel)%nat →
  wp (StreamImpl_delete (K := Sys * list ev) fuel) w (λ _ w', alive w' = false ∧ w_holds (handler_ w') fd NONE ∧
    os w' = os w ∧ ∀ k, heap w' !! k = if decide (k ∈ linked qs) then None else heap w !! k).
Proof.
  apply delete_wp.
Qed.
End props.

(** ** Witnesses

    The operating system has what was sent and what has arrived; a write takes three
    bytes at most, a read what there is; connecting is in progress at first. *)

Section witnesses.
Definition small_alloc : Allocator.
Proof. by refine {| max_new := 2 ^ 62 |}. Defined.
#[local] Existing Instance small_alloc.
#[local] Instance the_watch : Watch := plain_watch.

Definition net : Type := list byte * list byte.
Definition net_write (fd : Z) (c : list cell) (s : net) : Z * net :=
  let n := 3 `min` zlength c in (n, (s.1 ++ omap id (take (Z.to_nat n) c), s.2)).
Definition net_read (fd size : Z) (s : net) : option (list byte) * net :=
  match take (Z.to_nat size) s.2 with
  | [] => (None, s)
  | bs => (Some bs, (s.1, drop (Z.to_nat size) s.2))
  end.
Definition net_int (n : Z) (s : net) : Z * net := (n, s).

Lemma net_write_law fd (bs : list byte) s n s' :
  zlength bs ≤ INT_MAX → net_write fd (Some <$> bs) s = (n, s') → -1 ≤ n ≤ zlength bs ∧ s'.1 = s.1 ++ take (Z.to_nat n) bs.
Proof.
  intros _. unfold net_write. rewrite length_fmap. intros [= <- <-]. split; [lia|]. simpl. f_equal.
  by rewrite <- fmap_take, omap_id_Some.
Qed.

Lemma net_read_law fd size (s : net) r s' :
  0 ≤ size → net_read fd size s = (r, s') → s.2 = default [] r ++ s'.2 ∧ zlength (default [] r) ≤ size.
Proof.
  intros Hs. unfold net_read. destruct (take (Z.to_nat size) s.2) as [|b bs] eqn:E; intros [= <- <-]; simpl.
  - split; [done|lia].
  - rewrite <- (take_drop (Z.to_nat size) s.2) at 1. rewrite E. split; [done|].
    change (zlength (b :: bs) ≤ size). rewrite <- E, length_take. lia.
Qed.

(** A request with this text and callback, and streams with such requests queued. *)
Definition req_of (t : string) (cb next : option N) : WriteRequest :=
  mkReq (mkBuf [filled (bytes t)] (zlength (bytes t))) cb next.
Definition stream_of (r : Requests) (h : gmap N WriteRequest) (what : What) : world (net * list ev) :=
  mkWorld true ((5, what) : hstate) r (Some 7%N) None empty_buf h 3 (([], bytes "xy"), []).
Definition two_queued := stream_of (mkRequests (Some 1%N) (Some 1%N))
  {[1%N := req_of "hello" (Some 8%N) (Some 2%N); 2%N := req_of "ab" (Some 9%N) None]} WRITE.
Definition one_queued := stream_of (mkRequests (Some 2%N) (Some 1%N))
  {[2%N := req_of "ab" (Some 9%N) None]} READ_WRITE.

Lemma req_contents t cb next :
  zlength (bytes t) < W64 → contents (buffer_ (req_of t cb next)) [bytes t].
Proof.
  intros Ht. pose proof (contents_snoc empty_buf [] (bytes t) contents_empty ltac:(simpl; lia)) as C.
  simpl in C. rewrite u64_small in C by (unfold is_u64; simpl; lia). exact C.
Qed.

Lemma two_queued_is : queue_is two_queued (Two 1 2).
Proof.
  split; [done|]. split; [|split; [done|]; split; [by eexists|]; split; [by eexists|done]].
  intros r [q Hq]. unfold two_queued, stream_of in Hq. cbn [heap] in Hq.
  apply lookup_insert_Some in Hq as [[<- _]|[_ Hq]]; [done|].
  by apply lookup_singleton_Some in Hq as [<- _].
Qed.
Lemma one_queued_is : queue_is one_queued (Behind 1 2).
Proof.
  split; [done|]. split; [|split; [done|]; split; [by eexists|]; split; [done|done]].
  intros r [q Hq]. unfold one_queued, stream_of in Hq. cbn [heap] in Hq.
  by apply lookup_singleton_Some in Hq as [<- _].
Qed.

(** With two requests queued a third replaces the second; with one left of two, the next
    write is undefined. *)
Example write_queues_witness :
  wp (write true (Some <$> bytes "new") 3 None) two_queued (λ _ w', queue_is w' (Two 1 3) ∧
    w_holds (handler_ w') 5 WRITE ∧ queued_as two_queued w' [bytes "new"] None) ∧
  write true (Some <$> bytes "new") 3 None one_queued = Faults UseAfterFree.
Proof.
  split.
  - destruct (write_queues true two_queued (Two 1 2) 5 WRITE None two_queued_is eq_refl) as [Hw _].
    apply (Hw (bytes "new")); vm_compute; done.
  - destruct (write_queues true one_queued (Behind 1 2) 5 READ_WRITE None one_queued_is eq_refl) as [Hw _].
    apply (Hw (bytes "new")); vm_compute; done.
Defined.

Definition net_sent (fd : Z) (s : net) : list byte := s.1.
Definition net_inbox (fd : Z) (s : net) : list byte := s.2.
Definition two_data : list (list byte * option N) :=
  [(bytes "hello", Some 8%N); (bytes "ab", Some 9%N)].

Lemma two_stream : stream_is two_queued 5 WRITE (Two 1 2) two_data.
Proof.
  split; [apply two_queued_is|]. split; [done|].
  repeat constructor; (eexists; split; [reflexivity|]; split; [done|]; split; [|split; done]);
    [apply (req_contents "hello" (Some 8%N) (Some 2%N))|apply (req_contents "ab" (Some 9%N) None)];
    vm_compute; done.
Qed.

(** Three bytes are taken, and then the first request waits. *)
Example write_drains_witness :
  wp (writeHelper true (λ fd b, sys (net_write fd b)) (says Completed) (λ c _, says WriteFailed c) 3)
    two_queued (λ _ w', ∃ i s' qs' ds' failed,
      flushes net_write 5 (os two_queued).1 two_data s' ds' i failed ∧
      os w' = (s', said Completed (take i two_data.*2) ++
        if failed : bool then said WriteFailed (take 1 ds'.*2) else []) ∧
      stream_is w' 5 (if decide (two_data ≠ [] ∧ ds' = []) then NONE else WRITE) qs' ds').
Proof.
  eapply wp_mono.
  { refine (write_drains true net_write net_sent net_write_law 3 two_queued 5 WRITE (Two 1 2) two_data
      two_stream _). simpl. lia. }
  intros ? w' (_ & i & s' & qs' & ds' & failed & _ & Hf & _ & Eo & Hs).
  exists i, s', qs', ds', failed. done.
Defined.

(** "hello" and "ab" in one request: the wire gets "helab". *)
Definition two_pieces : world (net * list ev) :=
  stream_of (mkRequests (Some 1%N) (Some 1%N))
    {[1%N := mkReq (mkBuf [filled (bytes "hello"); filled (bytes "ab")] 7) (Some 8%N) None]} WRITE.

Example short_write_skips_witness :
  wp (writeHelper true (λ fd b, sys (net_write fd b)) (says Completed) (λ c _, says WriteFailed c) 1)
    two_pieces (λ _ w', net_sent 5 (os w').1 = bytes "helab").
Proof.
  assert (Hq : queue_is two_pieces (One 1)).
  { split; [done|]. split; [|split; [done|by eexists]].
    intros r [q Hq]. unfold two_pieces, stream_of in Hq. cbn [heap] in Hq.
    by apply lookup_singleton_Some in Hq as [<- _]. }
  eapply wp_mono.
  { refine (short_write_skips true net_write net_sent net_write_law 0 two_pieces 5 WRITE (One 1) 1%N []
      (mkReq (mkBuf [filled (bytes "hello"); filled (bytes "ab")] 7) (Some 8%N) None)
      (bytes "hello") (bytes "ab") 3 2 (bytes "hel", bytes "xy") (bytes "helab", bytes "xy")
      Hq eq_refl eq_refl eq_refl _ _ _ _ _ eq_refl _ eq_refl _); try done.
    split; [|done|done]. repeat constructor; vm_compute; done. }
  intros ? w' (Eo & _). cbv beta. by rewrite Eo.
Defined.

Example read_delivers_witness :
  wp (readHelper (λ fd n, sys (net_read fd n)) (λ fd, sys (net_int 11)) 11 11
        (says Available) (λ c _, says ReadFailed c) (says Eof) 3) two_queued (λ _ w', ∃ pieces e,
    reads net_read (λ _, net_int 11) 11 11 5 (os two_queued).1 pieces e (os w').1 ∧
    contents (readBuffer_ w') pieces ∧ bytes "xy" = concat pieces ++ (os w').1.2 ∧
    (os w').2 = said Available (replicate (length pieces) (Some 7%N)) ++
      match e with AtEof => [Eof 7%N] | Failed => [ReadFailed 7%N] | Short | Blocked => [] end).
Proof.
  eapply wp_mono.
  { refine (read_delivers net_read (λ _, net_int 11) 11 11 net_inbox 3
      two_queued 5 WRITE [] net_read_law (λ _ s e s' E, f_equal (λ p, p.2.2) (eq_sym E))
      eq_refl eq_refl contents_empty _ _ _); [by vm_compute..|simpl; lia]. }
  intros ? w' (s' & L' & pieces & e & Hr & E & C & ->). by exists pieces, e.
Defined.

(** A stream that reads with nothing to write, and stops: it is still watched. *)
Definition reading : world (net * list ev) := stream_of (mkRequests None None) ∅ READ.

Example reading_watches_witness :
  wp (startRead (Some 4%N)) one_queued (λ _ w', w_holds (handler_ w') 5 READ) ∧
  wp (stopRead true) reading (λ _ w', readCallback_ w' = None ∧ w_holds (handler_ w') 5 READ).
Proof.
  split.
  - destruct (reading_watches true one_queued 5 READ_WRITE (Some 4%N) eq_refl eq_refl) as [Hw _].
    eapply wp_mono; [exact Hw|]. by intros ? w' (_ & _ & ?).
  - destruct (reading_watches true reading 5 READ None eq_refl eq_refl) as (_ & Hw & _).
    eapply wp_mono; [exact Hw|]. by intros ? w' (? & _ & ?).
Defined.

(** A stream without a descriptor. *)
Definition unconnected : world (net * list ev) := StreamImpl_new ((-1, NONE) : hstate) (([], []), []).
Definition connecting : world (net * list ev) :=
  set_connectCallback (Some 4%N) (set_handler ((6, WRITE) : hstate) unconnected).

(** The connection is refused at once: the socket 6 is closed and the client told. *)
Example connect_outcomes_witness :
  let socket := net_int 6 in
  wp (connect true (λ fd, sys (net_int 0)) (λ fd, sys (net_int 111)) (sys socket) (λ _, sys (net_int 0))
        (λ _, sys (net_int 1)) (λ _ _ _, sys (net_int (-1))) 115 (says Connected)
        (λ c e, says (λ c, ConnectFailed c e) c) "127.0.0.1" 80 4%N) unconnected
    (λ _ w', connect_failed socket (λ _, net_int 0) unconnected 4%N w' ∨
             connect_pending socket unconnected 4%N w' ∨ connect_made socket unconnected 4%N w').
Proof.
  apply (connect_outcomes true (net_int 6) (λ _, net_int 0) (λ _, net_int 1) (λ _ _ _, net_int (-1))
    (λ _, net_int 0) (λ _, net_int 111) 115); reflexivity.
Defined.

(** [SO_ERROR] is 111, and the client is told that it is connected. *)
Example connect_completes_witness :
  wp (connectHelper true (λ fd, sys (λ s, ((0, 111), s))) (says Connected)
        (λ c e, says (λ c, ConnectFailed c e) c)) connecting
    (λ _ w', (os w').2 = [Connected 4%N] ∧ w_holds (handler_ w') 6 WRITE).
Proof.
  eapply wp_mono.
  { refine (connect_completes true (λ _ s, ((0, 111), s)) connecting 6 WRITE 4%N _ _ _); reflexivity. }
  intros ? w' (_ & Hh & _ & Eo). cbv beta. by rewrite Eo.
Defined.

Example close_closes_witness :
  wp (close (λ fd, sys (net_int 0)) (says Eof) (λ c e, says (λ c, ConnectFailed c e) c)) two_queued
    (λ _ w', (os w').2 = [Eof 7%N] ∧ requests_ w' = requests_ two_queued).
Proof.
  eapply wp_mono; [refine (close_closes (λ _, net_int 0) two_queued 5 WRITE _ _); reflexivity|].
  intros ? w' (_ & Eo & Er & _). cbv beta. by rewrite Eo.
Defined.

(** The third request took the place of the second, which is not freed. *)
Definition lost_one : world (net * list ev) :=
  stream_of (mkRequests (Some 1%N) (Some 1%N))
    {[1%N := req_of "hello" None (Some 2%N); 2%N := req_of "ab" None None; 0%N := req_of "lost" None None]} WRITE.

Example delete_frees_witness :
  wp (StreamImpl_delete 3) lost_one (λ _ w', is_Some (heap w' !! 0%N) ∧ heap w' !! 1%N = None).
Proof.
  assert (Hq : queue_is lost_one (Two 1 2)).
  { split; [done|]. split; [|split; [done|]; split; [by eexists|]; split; [by eexists|done]].
    intros r [q Hq]. unfold lost_one, stream_of in Hq. cbn [heap] in Hq.
    apply lookup_insert_Some in Hq as [[<- _]|[_ Hq]]; [done|].
    apply lookup_insert_Some in Hq as [[<- _]|[_ Hq]]; [done|].
    by apply lookup_singleton_Some in Hq as [<- _]. }
  eapply wp_mono; [refine (delete_frees 3 lost_one (Two 1 2) 5 WRITE Hq eq_refl _); lia|].
  intros ? w' (_ & _ & _ & Hw). rewrite !Hw. split; [by eexists|done].
Defined.
End witnesses.
