(* ===== verification/Unconnected.v ===== *)
(** * A stream that is used before it is connected

    [wte/stream.h] says that most of the interface throws on a stream that [create] made
    and [connect] has not established.  [write] ([src/stream.cc]) does not: the request is
    queued and the handler registered without a descriptor, over the handlers of
    [Handlers.v].  [connect] then finds the handler registered. *)

From S2P Require Import Prelude What Extent BufferModel BufferSpec Libevent Handlers HandlersSpec Watch.
From S2P Require Import Stream StreamSpec StreamTurn StreamIO.
From S2P Require BufferProps HandlersProps.

Section unconnected.
Context `{Libevent} `{Allocator} {Sys : Type} (NDEBUG : bool) (self this h : N).
#[local] Instance early_watch : Watch := handlers_watch NDEBUG self this h.
Abbreviation world := (Stream.world (Sys * list ev)).
Implicit Types w : world.

(** ** The handler *)

(** A new descriptor for a handler that is watched for writing. *)
Lemma setFd_registered s fd fd' : watching self this h s fd WRITE →
  ∃ x i, handlers s !! h = Some x ∧ impl_ x = Some i ∧ registered_ i = true ∧
    EventHandler_setFd NDEBUG h fd' s =
      if NDEBUG then Done tt (Handlers.set_handlers <[h := mkHandler fd' (Some i)]> s) else Faults AssertFailed.
Proof.
  intros (O & _ & x & Hx & _ & _ & Hw). pose proof (watched_in_registered h s x O Hx) as Er.
  rewrite Hw, bool_decide_true in Er by done. destruct (impl_ x) as [i|] eqn:Ei; [|done].
  exists x, i. split_and!; try done. unfold EventHandler_setFd, EventHandler_registered, get_handler, mbind, M_bind, mret, M_ret.
  rewrite Hx, Ei, Er. destruct NDEBUG; cbn; [|done]. by rewrite Hx, Ei.
Qed.
(** It is watched for writing already, for all the base knows. *)
Lemma register_again s fd fd' : watching self this h s fd WRITE →
  ∀ i, impl_ <$> handlers s !! h = Some (Some i) →
  let s' := Handlers.set_handlers <[h := mkHandler fd' (Some i)]> s in
  EventHandler_watched h s' = Done WRITE s' ∧ registerHandler NDEBUG self this h WRITE s' = Done tt s'.
Proof.
  intros (O & Ht & x & Hx & Ho & _ & Hw) i Hi s'. rewrite Hx in Hi. injection Hi as Hi.
  assert (handlers s' !! h = Some (mkHandler fd' (Some i))) as Hx' by (simpl; by rewrite lookup_insert_eq).
  assert (EventHandler_watched h s' = Done WRITE s') as Ew.
  { unfold EventHandler_watched, get_handler, mbind, M_bind. rewrite Hx'. cbn [impl_]. unfold impl_watched.
    unfold watched_in in Hw. rewrite Hi in Hw. destruct i as [b [] [e|]]; try done. cbn. by rewrite <- Hw. }
  split; [done|]. unfold registerHandler.
  assert (assert_thread NDEBUG self this s' = Done tt s') as Et.
  { assert (wp (assert_thread NDEBUG self this) s' (λ _ s1, s1 = s')) as W by (by apply wp_thread).
    by apply wp_iff in W as ([] & s1 & -> & ->). }
  rewrite (bind_done _ _ _ _ _ Et). unfold registerHandlerInternal.
  assert (EventHandler_base h s' = Done (Some this) s') as Eb.
  { unfold EventHandler_base, get_handler, mbind, M_bind. rewrite Hx'. unfold owned in Ho. rewrite Hi in Ho. by rewrite <- Ho. }
  rewrite (bind_done _ _ _ _ _ Eb). cbn [negb].
  erewrite bind_done; [|erewrite bind_done; [by erewrite bind_done; [|exact Ew]|]; unfold Handlers.assert_;
    rewrite bool_decide_true by done; by destruct NDEBUG].
  by rewrite bool_decide_true by done.
Qed.

(** ** [write], then [connect] *)

Context (xclose : Z → Sys → Z * Sys) (geterror : Z → Sys → Z * Sys).
Context (socket : Sys → Z * Sys) (make_nonblocking : Z → Sys → Z * Sys).
Context (inet_pton : string → Sys → Z * Sys) (sys_connect : Z → string → Z → Sys → Z * Sys).
Context (EINPROGRESS : Z).
Abbreviation early_connect := (connect NDEBUG (λ fd, sys (xclose fd)) (λ fd, sys (geterror fd))
  (sys socket) (λ fd, sys (make_nonblocking fd)) (λ ip, sys (inet_pton ip))
  (λ fd ip port, sys (sys_connect fd ip port)) EINPROGRESS (says Connected)
  (λ c e, says (λ c, ConnectFailed c e) c)).

(** The system gives the descriptor [fd] and a connection that is in progress. *)
Definition in_progress (fd : Z) : Prop :=
  fd ≠ -1 ∧ (∀ k, (socket k).1 = fd) ∧ (∀ k, (make_nonblocking fd k).1 = 0) ∧
  (∀ ip k, (inet_pton ip k).1 = 1) ∧ (∀ ip p k, (sys_connect fd ip p k).1 = -1) ∧ (∀ k, (geterror fd k).1 = EINPROGRESS).

(** What [connect] comes to. *)
Definition connected_early (fd : Z) (c : N) w (o : outcome world unit) : Prop :=
  match o with
  | Faults f => NDEBUG = false ∧ f = AssertFailed
  | Done _ w' => NDEBUG = true ∧ connectCallback_ w' = Some c ∧
      fd_ <$> handlers (handler_ w' : Handlers.world) !! h = Some fd ∧
      library (handler_ w' : Handlers.world) = library (handler_ w : Handlers.world) ∧ (os w').2 = (os w).2
  | _ => False
  end.

Lemma call_result {A} (f : Sys → A * Sys) a w : (∀ k, (f k).1 = a) →
  ∃ k, call (sys f) w = Done a (set_os (k, (os w).2) w).
Proof.
  intros Ha. exists (f (os w).1).2. rewrite <- (Ha (os w).1). unfold call, sys, get, put, mbind, M_bind, mret, M_ret.
  by destruct (f (os w).1).
Qed.
(** The system's part of it. *)
Lemma connect_up_to_setFd fd ip port c w : in_progress fd → ∃ k,
  connect_body (λ fd, sys (geterror fd)) (sys socket) (λ fd, sys (make_nonblocking fd)) (λ ip, sys (inet_pton ip))
    (λ fd ip port, sys (sys_connect fd ip port)) EINPROGRESS (says Connected) ip port c w =
  (on_handler (w_setFd fd);; set_this (set_connectCallback (Some c));;
   x ← on_handler w_watched; on_handler (w_register (ensureWrite x));; mret (inr tt)) (set_os (k, (os w).2) w).
Proof.
  intros (Hfd & Es & Em & Ei & Ec & Ee). unfold connect_body.
  destruct (call_result socket fd w Es) as [k0 E0]. rewrite (bind_done _ _ _ _ _ E0).
  rewrite (proj2 (Z.eqb_neq fd (-1))) by done.
  edestruct (call_result (make_nonblocking fd) 0) as [k1 E1]; [done|]. rewrite (bind_done _ _ _ _ _ E1). cbn [Z.eqb].
  edestruct (call_result (inet_pton ip) 1) as [k2 E2]; [done|]. rewrite (bind_done _ _ _ _ _ E2). cbn [Z.eqb Pos.eqb negb].
  edestruct (call_result (sys_connect fd ip (htons port)) (-1)) as [k3 E3]; [done|]. rewrite (bind_done _ _ _ _ _ E3).
  cbn [Z.eqb Pos.eqb].
  edestruct (call_result (geterror fd) EINPROGRESS) as [k4 E4]; [done|]. rewrite (bind_done _ _ _ _ _ E4).
  unfold isConnectRetryable. rewrite Z.eqb_refl. by exists k4.
Qed.

Lemma connect_registered fd ip port c w : in_progress fd → alive w = true →
  w_holds (handler_ w) (-1) WRITE → connectCallback_ w = None → connected_early fd c w (early_connect ip port c w).
Proof.
  intros Hp Ha Hw Hc. unfold connect.
  assert (on_handler w_fd w = Done (-1) w) as Ef.
  { pose proof (w_fd_ok _ _ _ Hw) as Efd. unfold on_handler, Stream.this, zoom, get, mbind, M_bind, mret, M_ret.
    rewrite Ha, Efd. by rewrite set_handler_same. }
  rewrite (bind_done _ _ _ _ _ Ef).
  erewrite bind_done; [|unfold Stream.assert_; destruct NDEBUG; reflexivity].
  assert (Stream.this connectCallback_ w = Done None w) as Ec.
  { unfold Stream.this, get, mbind, M_bind, mret, M_ret. by rewrite Ha, Hc. }
  rewrite (bind_done _ _ _ _ _ Ec).
  erewrite bind_done; [|unfold Stream.assert_; rewrite bool_decide_true by done; destruct NDEBUG; reflexivity].
  destruct (connect_up_to_setFd fd ip port c w Hp) as [k Ek]. unfold mbind at 1, M_bind at 1. rewrite Ek. clear Ek.
  destruct w as [al hd rq rc cc rb hp na [k0 l]]. cbn [alive handler_ connectCallback_] in *. subst al cc.
  destruct (setFd_registered hd (-1) fd Hw) as (x & i & Hx & Hi & _ & E5).
  destruct (register_again hd (-1) fd Hw i) as [E6 E7]; [rewrite Hx; simpl; by rewrite Hi|].
  unfold on_handler, Stream.this, set_this, zoom, get, put, mbind, M_bind, mret, M_ret, connected_early. cbn. rewrite E5.
  destruct NDEBUG; cbn; [|done]. rewrite E6. cbn. rewrite E7. cbn. by rewrite lookup_insert_eq.
Qed.

(** C31: a [write] on a stream that is not connected does not throw, whatever the header says:
    it queues the data and has the handler watched, without a descriptor.  A [connect] that
    gets a socket then breaks the assertion of [setFd]; without assertions the handler gets
    the descriptor and the callback is stored, but as the handler says that it is watched
    for writing already, libevent is not told of the descriptor, and no callback is called. *)
Theorem unconnected_write bs cb (hd : hstate) k : watching self this h hd (-1) NONE →
  bs ≠ [] → zlength bs ≤ INT_MAX → zlength bs ≤ max_new →
  wp (write NDEBUG (Some <$> bs) (zlength bs) cb) (Stream_create hd k) (λ _ w',
    stream_is w' (-1) WRITE (One 1) [(bs, cb)] ∧ os w' = k ∧
    ∀ ip port c fd, in_progress fd → connected_early fd c w' (early_connect ip port c w')).
Proof.
  intros Hw Hb Hi Hm.
  assert (stream_is (Stream_create hd k) (-1) NONE Empty []) as St.
  { split; [|split; [exact Hw|constructor]]. split; [done|]. split; [|done].
    intros r Hr. simpl in Hr. rewrite lookup_empty in Hr. by destruct Hr. }
  eapply wp_mono; [by apply (write_wp NDEBUG bs cb _ (-1) NONE Empty []); [|left|..]|].
  intros [] w' (qs & [= <-] & Sr & Eo & St'). split; [exact St'|]. split; [exact Eo|].
  intros ip port c fd Hp. destruct St' as (Hq & Hh & _).
  apply connect_registered; [done|apply Hq|exact Hh|]. by destruct Sr.
Qed.
End unconnected.

(** ** An example, over the table of [Libevent.v] *)

Section example.
#[local] Existing Instance table_libevent.
#[local] Existing Instance BufferProps.example_alloc.
Definition early_handler : Handlers.world := HandlersProps.run_to (EventHandler_new 1 (-1)) HandlersProps.world0.
Lemma early_watching : watching 7 3 1 early_handler (-1) NONE.
Proof.
  destruct (HandlersProps.hop_ok false 7 3 HandlersProps.world0 (HandlersProps.NewHandler 1 (-1))) as [O Ht _ _];
    [apply HandlersProps.fresh_ok, HandlersProps.world0_fresh|done|].
  split; [exact O|]. split; [exact Ht|]. by exists (mkHandler (-1) None).
Qed.
Lemma unconnected_write_witness :
  wp (write (H := handlers_watch true 7 3 1) true (Some <$> bytes "hello") 5 (Some 4%N))
    (Stream_create (H := handlers_watch true 7 3 1) early_handler (0, [])) (λ _ w',
    connected_early true 7 3 1 6 2%N w' (connect (H := handlers_watch true 7 3 1) true (λ _, sys (λ k, (0, k)))
      (λ _, sys (λ k, (115, k))) (sys (λ k, (6, k))) (λ _, sys (λ k, (0, k))) (λ _, sys (λ k, (1, k)))
      (λ _ _ _, sys (λ k, (-1, k))) 115 (says Connected) (λ c e, says (λ c, ConnectFailed c e) c) "127.0.0.1" 80 2%N w')).
Proof.
  eapply wp_mono; [apply (unconnected_write (Sys := Z) true 7 3 1 (λ _ k, (0, k)) (λ _ k, (115, k)) (λ k, (6, k))
    (λ _ k, (0, k)) (λ _ k, (1, k)) (λ _ _ _ k, (-1, k)) 115 (bytes "hello") (Some 4%N) early_handler (0, []) early_watching)|].
  1-3: by vm_compute.
  intros ? w' (_ & _ & T). apply (T "127.0.0.1" 80 2%N 6). by split_and!.
Defined.
End example.
