(* ===== verification/Listener.v ===== *)
(** * The connection listener

    [LibeventConnectionListener] ([src/libevent_connection_listener.cc], [.h]): a
    socket that is bound and listened on, watched for reading while it accepts.  The
    handler is any [Watch]; system calls and the client's callbacks are parameters. *)

From S2P Require Import Prelude What Watch.

Section listener.
Context `{Watch} {K : Type}.

Record world := mkWorld {
  alive : bool;
  handler_ : hstate;
  port_ : Z;
  os : K;
}.

Definition set_handler h (w : world) : world := mkWorld (alive w) h (port_ w) (os w).
Definition set_port p (w : world) : world := mkWorld (alive w) (handler_ w) p (os w).
Definition set_os k (w : world) : world := mkWorld (alive w) (handler_ w) (port_ w) k.
Definition set_dead (w : world) : world := mkWorld false (handler_ w) (port_ w) (os w).

(** System calls; [sys_bind] is given the port in network order, and [getsockname]
    returns it so, after its result. *)
Context (socket : K → Z * K) (make_nonblocking make_reuseable : Z → K → Z * K).
Context (inet_pton : string → K → Z * K) (sys_bind : Z → string → Z → K → Z * K).
Context (getsockname : Z → K → (Z * Z) * K) (xclose : Z → K → Z * K).
Context (sys_listen : Z → Z → K → Z * K) (accept : Z → K → Z * K).
(** The client's callbacks. *)
Context (acceptCallback_ : Z → M world unit) (errorCallback_ : string → M world unit).

Definition call {A} (f : K → A * K) : M world A :=
  w ← get; let '(a, k) := f (os w) in put (set_os k w);; mret a.

Definition on_handler {A} (m : M hstate A) : M world A :=
  w ← get; if alive w then zoom handler_ set_handler m else fail UseAfterFree.

(** The constructor, over a handler without a descriptor. *)
Definition LibeventConnectionListener_new (h : hstate) (k : K) : world := mkWorld true h 0 k.
Definition mkConnectionListener (h : hstate) (k : K) : world := LibeventConnectionListener_new h k.

(** The body of the loop of [bind], which runs once: an error, with the descriptor, or
    success. *)
Definition bind_body (ip_addr : string) (port : Z) : M world ((string * Z) + unit) :=
  fd ← call socket;
  if fd =? -1 then mret (inl ("Failed to allocate socket", fd))
  else
  rc ← call (make_nonblocking fd);
  if rc =? -1 then mret (inl ("Failed to set socket non-blocking", fd))
  else
  rc ← call (make_reuseable fd);
  if rc =? -1 then mret (inl ("Failed to set socket reusable", fd))
  else
  rc ← call (inet_pton ip_addr);
  if negb (rc =? 1) then mret (inl ("Failed to convert address", fd))
  else
  rc ← call (sys_bind fd ip_addr (htons port));
  if rc =? -1 then mret (inl ("Failed to bind socket", fd))
  else
  '(rc, sin_port) ← call (getsockname fd);
  if rc =? -1 then mret (inl ("Failed to extract port number from socket", fd))
  else
  modify (set_port (ntohs sin_port));;
  on_handler (w_setFd fd);;
  mret (inr tt).

Definition bind (ip_addr : string) (port : Z) : M world unit :=
  r ← bind_body ip_addr port;
  match r with
  | inr _ => mret tt
  | inl (error, fd) =>
      when (negb (fd =? -1)) (call (xclose fd);; mret tt);;
      throw (runtime_error error)
  end.

(** [bind(port)]. *)
Definition bind_any (port : Z) : M world unit := bind "0.0.0.0" port.

Definition listen (backlog : Z) : M world unit :=
  fd ← on_handler w_fd;
  rc ← call (sys_listen fd backlog);
  if rc =? -1 then throw (runtime_error "Failed to listen") else mret tt.

(** [AcceptHandler::ready]. *)
Definition AcceptHandler_ready (event : What) : M world unit :=
  fd ← on_handler w_fd;
  sock ← call (accept fd);
  if sock <? 0 then errorCallback_ "Failed to accept connection"
  else
    rc ← call (make_nonblocking sock);
    if rc =? -1 then
      call (xclose sock);;
      errorCallback_ "Failed to make accepted socket non-blocking"
    else acceptCallback_ sock.

Definition startAccepting : M world unit := on_handler (w_register READ).
Definition stopAccepting : M world unit := on_handler (w_register NONE).

(** [~LibeventConnectionListener]. *)
Definition LibeventConnectionListener_delete : M world unit :=
  on_handler w_unregister;;
  fd ← on_handler w_fd;
  when (negb (fd =? -1)) (fd ← on_handler w_fd; call (xclose fd);; mret tt);;
  modify set_dead.
End listener.
Arguments world {H} K.
