(* ===== verification/ListenerProps.v ===== *)
(** * The connection listener: its theorems

    What [bind] and the accept handler do, and that no socket is lost on any path:
    [opened] is the set of descriptors the process has open. *)

From S2P Require Import Prelude What Watch Listener.

(** Descriptors: a call that opens one, a call that closes one, the others. *)
Section calls.
Context {Sys : Type} (opened : Sys → gset Z).
Definition opens (f : Sys → Z * Sys) : Prop := ∀ s fd s', f s = (fd, s') →
  if decide (0 ≤ fd) then (fd ∉ opened s) ∧ opened s' = {[fd]} ∪ opened s
  else fd = -1 ∧ opened s' = opened s.
Definition closes (f : Z → Sys → Z * Sys) : Prop := ∀ fd s r s', f fd s = (r, s') →
  opened s' = opened s ∖ {[fd]}.
Definition keeps {A} (f : Sys → A * Sys) : Prop := ∀ s a s', f s = (a, s') → opened s' = opened s.
End calls.

(** [L] is what the client is told, and more of it. *)
Section props.
Context `{Watch} {Sys L : Type}.
Abbreviation world := (world (Sys * L)).
Implicit Types w : world.

Lemma wp_on_lhandler {A} (m : M hstate A) w (Q : A → world → Prop) :
  alive w = true → wp m (handler_ w) (λ a h, Q a (set_handler h w)) → wp (on_handler m) w Q.
Proof.
  intros Ha HQ. unfold on_handler, wp, mbind, M_bind, get, zoom in *. rewrite Ha.
  by destruct (m (handler_ w)).
Qed.

Lemma wp_fd fd what w (Q : Z → world → Prop) :
  alive w = true → w_holds (handler_ w) fd what → Q fd w → wp (on_handler w_fd) w Q.
Proof.
  intros Ha Hh HQ. apply wp_on_lhandler; [done|]. eapply wp_done; [by eapply w_fd_ok|].
  by destruct w.
Qed.

Lemma wp_lsys {A} (f : Sys → A * Sys) w (Q : A → world → Prop) :
  (∀ a s, f (os w).1 = (a, s) → Q a (set_os (s, (os w).2) w)) → wp (call (sys f)) w Q.
Proof.
  intros HQ. unfold call, wp, mbind, M_bind, get, sys. destruct (f (os w).1) eqn:E. by apply HQ.
Qed.

Context (opened : Sys → gset Z) (make_nonblocking xclose : Z → Sys → Z * Sys).
Context (nonblocking_law : ∀ fd, keeps opened (make_nonblocking fd)) (close_law : closes opened xclose).

(** ** Binding *)

Section bind.
Context (socket : Sys → Z * Sys) (make_reuseable : Z → Sys → Z * Sys).
Context (inet_pton : string → Sys → Z * Sys) (sys_bind : Z → string → Z → Sys → Z * Sys).
Context (getsockname : Z → Sys → (Z * Z) * Sys).
Context (socket_law : opens opened socket) (reuseable_law : ∀ fd, keeps opened (make_reuseable fd)).
Context (pton_law : ∀ ip, keeps opened (inet_pton ip)) (bind_law : ∀ fd ip p, keeps opened (sys_bind fd ip p)).
Context (name_law : ∀ fd, keeps opened (getsockname fd)).

Abbreviation the_body := (bind_body (sys socket) (λ fd, sys (make_nonblocking fd))
  (λ fd, sys (make_reuseable fd)) (λ ip, sys (inet_pton ip)) (λ fd ip p, sys (sys_bind fd ip p))
  (λ fd, sys (getsockname fd))).
Abbreviation the_bind := (bind (sys socket) (λ fd, sys (make_nonblocking fd))
  (λ fd, sys (make_reuseable fd)) (λ ip, sys (inet_pton ip)) (λ fd ip p, sys (sys_bind fd ip p))
  (λ fd, sys (getsockname fd)) (λ fd, sys (xclose fd))).
(** [bind] got as far as a socket [fd]. *)
Definition socket_open w fd s : Prop :=
  0 ≤ fd ∧ (fd ∉ opened (os w).1) ∧ opened s = {[fd]} ∪ opened (os w).1.

(** The calls of [bind] when all of them succeed: the new socket is [fd], and [q] its port
    in network order. *)
Definition bind_calls (ip : string) (port fd q : Z) (s s' : Sys) : Prop :=
  ∃ s1 s2 s3 s4 s5 r2 r3 r5 r6, socket s = (fd, s1) ∧
    make_nonblocking fd s1 = (r2, s2) ∧ r2 ≠ -1 ∧ make_reuseable fd s2 = (r3, s3) ∧ r3 ≠ -1 ∧
    inet_pton ip s3 = (1, s4) ∧ sys_bind fd ip (htons port) s4 = (r5, s5) ∧ r5 ≠ -1 ∧
    getsockname fd s5 = ((r6, q), s') ∧ r6 ≠ -1.

(** [bind] succeeded: the new socket is the listener's. *)
Definition bound ip port w w' : Prop := ∃ fd q s,
  socket_open w fd s ∧ bind_calls ip port fd q (os w).1 s ∧
  os w' = (s, (os w).2) ∧ alive w' = true ∧ w_holds (handler_ w') fd NONE ∧ port_ w' = ntohs q.

Lemma bind_body_ok ip port w fd0 :
  alive w = true → w_holds (handler_ w) fd0 NONE →
  wp (the_body ip port) w (λ r w',
    match r with
    | inr _ => bound ip port w w'
    | inl (_, fd) => ∃ s, w' = set_os (s, (os w).2) w ∧
        (fd = -1 ∧ opened s = opened (os w).1 ∨ socket_open w fd s)
    end).
Proof.
  intros Ha Hh. unfold bind_body. wp_step. apply wp_lsys. intros fd s Es. pose proof (socket_law _ _ _ Es) as E.
  destruct (decide (0 ≤ fd)) as [Hfd|Hfd].
  2:{ destruct E as [-> E]. change (-1 =? -1) with true. cbv iota. wp_step. exists s. split; [done|]. by left. }
  destruct E as [Hn E]. destruct (Z.eqb_spec fd (-1)); [lia|].
  assert (Ho : ∀ s', opened s' = opened s → socket_open w fd s') by (intros s' Eq; by rewrite <- Eq in E).
  assert (Hfail : ∀ s', opened s' = opened s → ∃ s1, set_os (s', (os w).2) w = set_os (s1, (os w).2) w ∧
    (fd = -1 ∧ opened s1 = opened (os w).1 ∨ socket_open w fd s1)).
  { intros s' Eq. exists s'. split; [done|]. right. by apply Ho. }
  wp_step. apply wp_lsys. intros r1 s1 C1. pose proof (nonblocking_law _ _ _ _ C1) as E1. cbn [os set_os fst] in C1, E1.
  destruct (Z.eqb_spec r1 (-1)); [wp_step; apply Hfail; congruence|].
  wp_step. apply wp_lsys. intros r2 s2 C2. pose proof (reuseable_law _ _ _ _ C2) as E2. cbn [os set_os fst] in C2, E2.
  destruct (Z.eqb_spec r2 (-1)); [wp_step; apply Hfail; congruence|].
  wp_step. apply wp_lsys. intros r3 s3 C3. pose proof (pton_law _ _ _ _ C3) as E3. cbn [os set_os fst] in C3, E3.
  destruct (Z.eqb_spec r3 1) as [->|]; cbn [negb]; [|wp_step; apply Hfail; congruence].
  wp_step. apply wp_lsys. intros r4 s4 C4. pose proof (bind_law _ _ _ _ _ _ C4) as E4. cbn [os set_os fst] in C4, E4.
  destruct (Z.eqb_spec r4 (-1)); [wp_step; apply Hfail; congruence|].
  wp_step. apply wp_lsys. intros [r5 p] s5 E5. cbn [os set_os fst] in E5.
  pose proof (name_law _ _ _ _ E5) as E5'.
  destruct (Z.eqb_spec r5 (-1)); [wp_step; apply Hfail; congruence|].
  wp_step. wp_step. wp_step. apply wp_on_lhandler; [done|].
  eapply wp_mono; [by apply (w_setFd_ok _ fd0)|]. intros ? h Hh'. wp_step.
  exists fd, p, s5. split; [apply Ho; congruence|]. split; [|done].
  by exists s, s1, s2, s3, s4, r1, r2, r4, r5.
Qed.

(** [bind], on both branches. *)
Lemma bind_ok ip port w fd0 :
  alive w = true → w_holds (handler_ w) fd0 NONE →
  match the_bind ip port w with
  | Done _ w' => bound ip port w w'
  | Throws e w' => (∃ what, e = runtime_error what) ∧ w_holds (handler_ w') fd0 NONE ∧
      port_ w' = port_ w ∧ (os w').2 = (os w).2 ∧ opened (os w').1 = opened (os w).1
  | _ => False
  end.
Proof.
  intros Ha Hh. pose proof (bind_body_ok ip port w fd0 Ha Hh) as Hb.
  apply wp_iff in Hb as (r & w1 & E & Hb). unfold bind. rewrite (bind_done _ _ _ _ _ E).
  destruct r as [[what fd]|u].
  - destruct Hb as (s & -> & Hs). destruct Hs as [[-> Hs]|(Hfd & Hn & Hs)].
    + cbn. split; [by eexists|]. done.
    + unfold when. destruct (Z.eqb_spec fd (-1)); [lia|]. cbn [negb].
      unfold call, sys, get, mbind, M_bind, put, throw. cbn.
      destruct (xclose fd s) as [r s'] eqn:Ec. cbn. apply close_law in Ec.
      split; [by eexists|]. split; [done|]. split; [done|]. split; [done|]. rewrite Ec, Hs. set_solver.
  - exact Hb.
Qed.

(** C32: [bind] either succeeds: the new socket is the listener's, and the port is the one
    the system reports (the one asked for, or the one it chose); or it throws, with the
    new socket closed, and the listener keeps what it had.  After a second [bind] that
    succeeds, though, the socket of the first one is still open, and nothing refers
    to it any more. *)
Theorem bind_outcomes ip port w fd0 :
  alive w = true → w_holds (handler_ w) fd0 NONE →
  match the_bind ip port w with
  | Done _ w' => bound ip port w w' ∧ (∀ fd, fd ∈ opened (os w).1 → fd ∈ opened (os w').1)
  | Throws e w' => (∃ what, e = runtime_error what) ∧ w_holds (handler_ w') fd0 NONE ∧
      port_ w' = port_ w ∧ opened (os w').1 = opened (os w).1
  | _ => False
  end.
Proof.
  intros Ha Hh. pose proof (bind_ok ip port w fd0 Ha Hh) as Hb.
  destruct (the_bind ip port w) as [[] w'|e w'| |]; try done; [|by destruct Hb as (? & ? & ? & _ & ?)].
  split; [done|]. destruct Hb as (fd & q & s & (_ & _ & Hs) & _ & -> & _).
  simpl. rewrite Hs. set_solver.
Qed.

End bind.

End props.

(** ** Accepting *)

(** What the client is told. *)
Inductive lev := Accepted (sock : Z) | AcceptFailed (what : string).

Section accept.
Context `{Watch} {Sys : Type}.
Abbreviation world := (world (Sys * list lev)).
Implicit Types w : world.
Definition tells (e : lev) : M world unit := modify (λ w, set_os ((os w).1, (os w).2 ++ [e]) w).

Context (opened : Sys → gset Z) (make_nonblocking xclose : Z → Sys → Z * Sys).
Context (nonblocking_law : ∀ fd, keeps opened (make_nonblocking fd)) (close_law : closes opened xclose).
Context (accept : Z → Sys → Z * Sys) (accept_law : ∀ fd, opens opened (accept fd)).

Abbreviation the_ready := (AcceptHandler_ready (λ fd, sys (make_nonblocking fd)) (λ fd, sys (xclose fd))
  (λ fd, sys (accept fd)) (λ sock, tells (Accepted sock)) (λ e, tells (AcceptFailed e))).

(** C33: when a connection arrives exactly one of the client's callbacks is called, once:
    with the new socket, which is then the only new descriptor; or with an error, and
    then no descriptor is new.  The listener itself stays as it is, so it accepts one
    connection for each time it is woken up. *)
Theorem accept_tells event w fd what :
  alive w = true → w_holds (handler_ w) fd what →
  wp (the_ready event) w (λ _ w', alive w' = true ∧ handler_ w' = handler_ w ∧ port_ w' = port_ w ∧
    ((∃ sock, (os w').2 = (os w).2 ++ [Accepted sock] ∧ 0 ≤ sock ∧ (sock ∉ opened (os w).1) ∧
        opened (os w').1 = {[sock]} ∪ opened (os w).1) ∨
     (∃ e, (os w').2 = (os w).2 ++ [AcceptFailed e] ∧ opened (os w').1 = opened (os w).1))).
Proof.
  intros Ha Hh. unfold AcceptHandler_ready. wp_step. eapply wp_fd; [done..|].
  wp_step. apply wp_lsys. intros sock s E. apply accept_law in E.
  destruct (Z.ltb_spec sock 0).
  - rewrite decide_False in E by lia. destruct E as [-> E]. apply wp_modify.
    split_and!; [done..|]. right. by eexists.
  - rewrite decide_True in E by lia. destruct E as [Hn E].
    wp_step. apply wp_lsys. intros rc s1 E1%nonblocking_law. cbn [os set_os fst] in E1.
    destruct (rc =? -1).
    + wp_step. apply wp_lsys. intros r2 s2 E2%close_law. cbn [os set_os fst] in E2.
      apply wp_modify. split_and!; [done..|]. right. eexists. split; [done|]. simpl.
      rewrite E2, E1, E. set_solver.
    + apply wp_modify. split_and!; [done..|]. left. exists sock. split_and!; try done. simpl.
      by rewrite E1, E.
Qed.
End accept.

(** ** Witnesses

    The system is a set of open descriptors and the next one to hand out. *)

Section witnesses.
#[local] Instance the_watch : Watch := plain_watch.

Definition fdset : Type := gset Z * nat.
Definition fds_open (s : fdset) : gset Z := filter (λ z, 0 ≤ z < Z.of_nat s.2) s.1.
Definition fd_new (s : fdset) : Z * fdset := (Z.of_nat s.2, ({[Z.of_nat s.2]} ∪ s.1, S s.2)).
Definition fd_close (fd : Z) (s : fdset) : Z * fdset := (0, (s.1 ∖ {[fd]}, s.2)).
Definition fd_int (n : Z) (s : fdset) : Z * fdset := (n, s).

Lemma fd_new_law : opens fds_open fd_new.
Proof.
  intros [s n] fd s' [= <- <-]. rewrite decide_True by lia. unfold fds_open; simpl.
  split; [rewrite elem_of_filter; lia|]. apply set_eq. intros z.
  rewrite elem_of_union, !elem_of_filter, elem_of_union, elem_of_singleton.
  destruct (decide (z = Z.of_nat n)) as [->|]; split; intros Hz; [by left| |right|].
  - split; [lia|by left].
  - destruct Hz as [? [?|?]]; [done|]. split; [lia|done].
  - destruct Hz as [?|[? ?]]; [done|]. split; [lia|by right].
Qed.
Lemma fd_close_law : closes fds_open fd_close.
Proof.
  intros fd [s n] r s' [= <- <-]. unfold fds_open; simpl. set_solver.
Qed.
Lemma fd_int_law n : keeps fds_open (fd_int n).
Proof. by intros s a s' [= _ <-]. Qed.

(** A listener that is bound to 3 already, and is bound again. *)
Definition listening : world (fdset * list lev) :=
  mkWorld true ((3, NONE) : hstate) 80 (({[3]}, 4%nat), []).

Example bind_outcomes_witness :
  match bind (sys fd_new) (λ _, sys (fd_int 0)) (λ _, sys (fd_int 0)) (λ _, sys (fd_int 1))
    (λ _ _ _, sys (fd_int 0)) (λ _, sys (λ s, ((0, htons 81), s))) (λ fd, sys (fd_close fd))
    "0.0.0.0" 81 listening with
  | Done _ w' => 3 ∈ fds_open (os w').1 ∧ port_ w' = 81
  | _ => False
  end.
Proof.
  pose proof (bind_outcomes fds_open (λ _, fd_int 0) fd_close (λ _, fd_int_law 0) fd_close_law
    fd_new (λ _, fd_int 0) (λ _, fd_int 1) (λ _ _ _, fd_int 0) (λ _ s, ((0, htons 81), s))
    fd_new_law (λ _, fd_int_law 0) (λ _, fd_int_law 1) (λ _ _ _, fd_int_law 0)
    (λ _ s a s' E, f_equal (λ p, fds_open p.2) (eq_sym E)) "0.0.0.0" 81 listening 3 eq_refl eq_refl) as Hb.
  cbn in Hb |- *. destruct Hb as [_ Hb]. split; [|done]. apply Hb. set_solver.
Defined.

Example accept_tells_witness :
  wp (AcceptHandler_ready (λ _, sys (fd_int (-1))) (λ fd, sys (fd_close fd)) (λ _, sys fd_new)
    (λ sock, tells (Accepted sock)) (λ e, tells (AcceptFailed e)) READ) listening
    (λ _ w', handler_ w' = handler_ listening).
Proof.
  eapply wp_mono.
  { refine (accept_tells fds_open (λ _, fd_int (-1)) fd_close (λ _, fd_int_law (-1)) fd_close_law
      (λ _, fd_new) (λ _, fd_new_law) READ listening 3 NONE eq_refl eq_refl). }
  by intros ? w' (_ & ? & _).
Defined.
End witnesses.
