(* ===== verification/Wire.v ===== *)
(** * A small system

    A descriptor with a peer, as a concrete instance of the system calls that the
    theorems on blocking streams and on the echo server take as parameters: their
    witnesses run on it. *)

From S2P Require Import Prelude What Extent.

(** What is still to arrive, and what was sent. *)
Definition wire := (list byte * list byte)%type.
Definition wire_inbox (_ : Z) (s : wire) : list byte := s.1.
Definition wire_sent (_ : Z) (s : wire) : list byte := s.2.
Definition wire_read (_ size : Z) (s : wire) : option (list byte) * wire :=
  (Some (take (Z.to_nat size) s.1), (drop (Z.to_nat size) s.1, s.2)).
(** A [write] takes at most [n] bytes. *)
Definition wire_write (n : Z) (_ : Z) (x : list cell) (s : wire) : Z * wire :=
  let k := n `min` zlength x in (k, (s.1, s.2 ++ take (Z.to_nat k) (omap id x))).
Definition bad_write (_ : Z) (_ : list cell) (s : wire) : Z * wire := (-1, s).
Definition wire_ok (_ : Z) (s : wire) : Z * wire := (0, s).
Definition wire_getsockopt (_ : Z) (s : wire) : (Z * Z) * wire := ((0, 0), s).
(** The peer has closed its end, or is silent once all has arrived. *)
Definition wire_poll (closed : bool) (_ : Z) (mask : What) (s : wire) : option (What * wire) :=
  if isWrite mask then Some (WRITE, s)
  else if isRead mask && (closed || bool_decide (s.1 ≠ [])) then Some (READ, s) else None.

Definition demo_alloc : Allocator.
Proof. by refine {| max_new := 2 ^ 40 |}. Defined.

Lemma wire_write_law n fd (bs : list byte) s k s' : 1 ≤ n → zlength bs ≤ INT_MAX →
  wire_write n fd (Some <$> bs) s = (k, s') →
  -1 ≤ k ≤ zlength bs ∧ wire_sent fd s' = wire_sent fd s ++ take (Z.to_nat k) bs.
Proof.
  intros Hn _. unfold wire_write. rewrite length_fmap. intros [= <- <-]. split; [lia|].
  unfold wire_sent. simpl. by rewrite omap_id_Some.
Qed.
Lemma wire_read_law fd size s r s' : 0 ≤ size → wire_read fd size s = (r, s') →
  wire_inbox fd s = default [] r ++ wire_inbox fd s' ∧ zlength (default [] r) ≤ size.
Proof.
  intros Hs [= <- <-]. unfold wire_inbox. simpl. rewrite take_drop. split; [done|]. rewrite length_take. lia.
Qed.

(** A [read] that gives three bytes at most. *)
Definition slow_read (fd size : Z) (s : wire) : option (list byte) * wire := wire_read fd (3 `min` size) s.

Lemma slow_read_law fd size s r s' : 0 ≤ size → slow_read fd size s = (r, s') →
  wire_inbox fd s = default [] r ++ wire_inbox fd s' ∧ zlength (default [] r) ≤ size ∧
  wire_sent fd s' = wire_sent fd s.
Proof.
  intros Hs E. destruct (wire_read_law fd (3 `min` size) s r s' ltac:(lia) E) as [Ei Hl].
  split; [done|]. split; [lia|]. by injection E as _ <-.
Qed.
