(* ===== verification/Blocking.v ===== *)
(** * Blocking streams

    [BlockingStreamImpl] ([src/blocking_stream.cc]): a stream and an event base of its
    own, on which [write] and [read] run the loop of [EventLoop.v] until their callback
    is told the end.  The callbacks are locals of those calls: they are gone when the
    call returns or throws, and a stream that still has a pointer to one of them then
    calls into freed memory.  [cb] is the address of the local: two calls may well have
    the same one, since they run on the same stack.

    The rest of the event base's state is the stream.  Nobody else has the event base,
    so its queue of operations stays empty.  [event_base_loop] is libevent's. *)

From S2P Require Import Prelude What Fifo EventLoop Extent BufferModel Watch Stream.

(** [BlockingWriteCallback]. *)
Record BlockingWriteCallback := mkWriteCallback {
  w_error_ : option string;
  w_complete_ : bool;
}.

(** [BlockingReadCallback]; [buffer_] is the array of the caller. *)
Record BlockingReadCallback := mkReadCallback {
  buffer_ : list cell;
  size_ : Z;
  nread_ : Z;
  eof_ : bool;
  r_error_ : option string;
}.

(** The callbacks that exist, by address. *)
Record locals := mkLocals {
  wcbs : gmap N BlockingWriteCallback;
  rcbs : gmap N BlockingReadCallback;
}.
Definition no_locals : locals := mkLocals ∅ ∅.

Section blocking.
Context `{Watch} `{Allocator} {F : Fifo (op Empty_set)} {Sys : Type}.
Abbreviation stream := (Stream.world (Sys * locals)).
Abbreviation ebase := (EventLoop.base Empty_set stream).

(** The asserts, the thread, and the fuel of the stream's loops. *)
Context (NDEBUG : bool) (self : N) (fuel : nat).
Context (xread : Z → Z → Sys → option (list byte) * Sys) (xwrite : Z → list cell → Sys → Z * Sys).
Context (xclose geterror : Z → Sys → Z * Sys) (getsockopt : Z → Sys → (Z * Z) * Sys).
Context (EAGAIN EWOULDBLOCK : Z).

(** ** The callbacks *)

Definition set_locals (f : locals → locals) (w : stream) : stream := set_os ((os w).1, f (os w).2) w.
Definition set_wcbs f (l : locals) : locals := mkLocals (f (wcbs l)) (rcbs l).
Definition set_rcbs f (l : locals) : locals := mkLocals (wcbs l) (f (rcbs l)).

(** The members of the callback at [cb]. *)
Definition get_wcb (cb : N) : M stream BlockingWriteCallback := λ w,
  match wcbs (os w).2 !! cb with Some c => Done c w | None => Faults UseAfterFree end.
Definition get_rcb (cb : N) : M stream BlockingReadCallback := λ w,
  match rcbs (os w).2 !! cb with Some c => Done c w | None => Faults UseAfterFree end.
Definition put_wcb (cb : N) (c : BlockingWriteCallback) : M stream unit :=
  modify (set_locals (set_wcbs <[cb := c]>)).
Definition put_rcb (cb : N) (c : BlockingReadCallback) : M stream unit :=
  modify (set_locals (set_rcbs <[cb := c]>)).

Definition write_complete (cb : N) : M stream unit :=
  c ← get_wcb cb; put_wcb cb (mkWriteCallback (w_error_ c) true).
Definition write_error (cb : N) (e : string) : M stream unit :=
  c ← get_wcb cb; put_wcb cb (mkWriteCallback (Some e) (w_complete_ c)).

(** [available]: the stream passes its [readBuffer_]. *)
Definition available (cb : N) : M stream unit :=
  c ← get_rcb cb;
  '(nread, out) ← zoom readBuffer_ set_readBuffer
     (buf_read (drop (Z.to_nat (nread_ c)) (buffer_ c)) (size_ c -₆₄ nread_ c));
  put_rcb cb (mkReadCallback (take (Z.to_nat (nread_ c)) (buffer_ c) ++ out) (size_ c)
    (nread_ c +₆₄ nread) (eof_ c) (r_error_ c)).
Definition read_error (cb : N) (e : string) : M stream unit :=
  c ← get_rcb cb;
  put_rcb cb (mkReadCallback (buffer_ c) (size_ c) (nread_ c) (eof_ c) (Some e)).
Definition eof (cb : N) : M stream unit :=
  c ← get_rcb cb;
  put_rcb cb (mkReadCallback (buffer_ c) (size_ c) (nread_ c) true (r_error_ c)).

(** Nothing ever connects here: there is no such callback to call. *)
Definition no_connect (cb : N) : M stream unit := fail UseAfterFree.

(** [SockHandler::ready] of the stream, which libevent runs for its events. *)
Definition ready (event : What) : M stream unit :=
  SockHandler_ready NDEBUG (λ fd n, sys (xread fd n)) (λ fd b, sys (xwrite fd b))
    (λ fd, sys (geterror fd)) (λ fd, sys (getsockopt fd)) EAGAIN EWOULDBLOCK
    write_complete write_error available read_error eof no_connect (λ c _, no_connect c) fuel event.

(** ** The stream and its base *)

Context (event_base_loop : M ebase Z) (event_base_loopexit : M ebase unit).
Context (timer_add timer_del : M ebase Z).

Definition set_stream (w : stream) (b : ebase) : ebase :=
  mkBase (queue b) (terminate_ b) (loopThread_ b) (finished b) (dones b) (notifyType b)
    (fds b) w.
Definition on_stream {A} (m : M stream A) : M ebase A := zoom wstate set_stream m.

(** [base_->loop(mode)]. *)
Definition base_loop (turns : nat) (mode : LoopMode) : M ebase unit :=
  EventLoop.loop NDEBUG self (Empty_set_rect _) event_base_loop event_base_loopexit
    timer_add timer_del turns 1 mode.

(** A local that [enter] makes, [m] uses, and [leave] destroys on every way out. *)
Definition with_local {A} (enter leave : stream → stream) (m : M ebase A) : M ebase A := λ b,
  match m (set_stream (enter (wstate b)) b) with
  | Done a b' => Done a (set_stream (leave (wstate b')) b')
  | Throws e b' => Throws e (set_stream (leave (wstate b')) b')
  | Faults f => Faults f
  | Diverges => Diverges
  end.

Definition assert_ (b : bool) : M ebase unit :=
  if NDEBUG then mret tt else require b AssertFailed.

(** [BlockingStreamImpl::write]; [turns] bounds the turns of the loop. *)
Definition write (turns : nat) (cb : N) (buf : list cell) (size : Z) : M ebase unit :=
  with_local (set_locals (set_wcbs <[cb := mkWriteCallback None false]>))
    (set_locals (set_wcbs (delete cb)))
    (on_stream (Stream.write NDEBUG buf size (Some cb));;
     base_loop turns UNTIL_EMPTY;;
     c ← on_stream (get_wcb cb);
     match w_error_ c with
     | Some e => throw (runtime_error e)
     | None => assert_ (w_complete_ c)
     end).

(** The [do] loop of [read]. *)
Definition read_round (cb : N) (_ : unit) : M ebase (unit + unit) :=
  base_loop 1 ONCE;;
  c ← on_stream (get_rcb cb);
  mret (if (nread_ c <? size_ c) && bool_decide (r_error_ c = None) && negb (eof_ c)
        then inl tt else inr tt).

(** [BlockingStreamImpl::read]: the number of bytes, and the caller's array after it. *)
Definition read (rounds : nat) (cb : N) (buf : list cell) (size : Z) : M ebase (Z * list cell) :=
  with_local (set_locals (set_rcbs <[cb := mkReadCallback buf size 0 false None]>))
    (set_locals (set_rcbs (delete cb)))
    (on_stream (startRead (Some cb));;
     Prelude.loop rounds (read_round cb) tt;;
     c ← on_stream (get_rcb cb);
     match r_error_ c with
     | Some e => throw (runtime_error e)
     | None => mret (to_signed 64 (nread_ c), buffer_ c)
     end).

(** The constructor, over a handler for the descriptor on a new base; [close_] is the
    other member. *)
Definition BlockingStreamImpl_new (q : fifo) (t : NotifyType) (fds : Z * Z) (h : hstate) (s : Sys)
    (auto_close : bool) : ebase * bool :=
  (mkBase q false 0%N false ∅ t fds (wrapFd h (s, no_locals)), auto_close).

(** The destructor, up to the release of the base (see [EventBase.v]). *)
Definition BlockingStreamImpl_delete (close_ : bool) : M ebase unit :=
  when close_ (on_stream (Stream.close (λ fd, sys (xclose fd)) eof (λ c _, no_connect c)));;
  on_stream (StreamImpl_delete fuel).

(** [BlockingStream::create], and its [Deleter]. *)
Definition BlockingStream_create (q : fifo) (t : NotifyType) (fds : Z * Z) (h : hstate) (s : Sys)
    (auto_close : bool) : ebase * bool := BlockingStreamImpl_new q t fds h s auto_close.
Definition BlockingStream_Deleter (close_ : bool) : M ebase unit := BlockingStreamImpl_delete close_.
End blocking.
