(* ===== verification/BlockingProps.v ===== *)
(** * Blocking streams: their theorems

    [write] and [read] of [Blocking.v] over a libevent that does what it documents
    for one descriptor: with nothing watched [event_base_loop] returns 1 at once;
    otherwise it waits until the kernel ([poll]) reports some of the watched events,
    runs the handler for them, and returns 0. *)

From S2P Require Import Prelude What Fifo EventLoop Extent BufferModel BufferSpec Watch Stream.
From S2P Require Import StreamSpec StreamTurn Wire Blocking.

Section props.
Context `{Watch} `{Allocator} {F : Fifo (op Empty_set)} {Sys : Type}.
Abbreviation stream := (Stream.world (Sys * locals)).
Abbreviation ebase := (EventLoop.base Empty_set stream).
Context (NDEBUG : bool) (self : N) (fuel : nat).
Context (xread : Z → Z → Sys → option (list byte) * Sys) (xwrite : Z → list cell → Sys → Z * Sys).
Context (xclose geterror : Z → Sys → Z * Sys) (getsockopt : Z → Sys → (Z * Z) * Sys).
Context (EAGAIN EWOULDBLOCK : Z).
Context (event_base_loop : M ebase Z) (event_base_loopexit : M ebase unit).
Context (timer_add timer_del : M ebase Z).
Implicit Types (w : stream) (b : ebase).

Abbreviation ready := (ready NDEBUG fuel xread xwrite geterror getsockopt EAGAIN EWOULDBLOCK).
Abbreviation base_loop := (base_loop NDEBUG self event_base_loop event_base_loopexit timer_add timer_del).
Abbreviation write := (write NDEBUG self event_base_loop event_base_loopexit timer_add timer_del).
Abbreviation read := (read NDEBUG self event_base_loop event_base_loopexit timer_add timer_del).

(** What the kernel reports of a descriptor that is watched, after any time; [None]:
    nothing ever. *)
Context (poll : Z → What → Sys → option (What * Sys)).

(** libevent's loop. *)
Definition dispatches : Prop := ∀ b fd mask,
  alive (wstate b) = true → w_holds (handler_ (wstate b)) fd mask →
  event_base_loop b =
    if decide (mask = NONE) then Done 1 b
    else match poll fd mask (os (wstate b)).1 with
         | None => Diverges
         | Some (ev, s) => (on_stream (ready ev);; mret 0) (set_stream (with_sys s (wstate b)) b)
         end.
(** It reports something, of what is watched. *)
Definition polls : Prop := ∀ fd mask s ev s', poll fd mask s = Some (ev, s') →
  ev ≠ NONE ∧ (isRead ev = true → isRead mask = true) ∧ (isWrite ev = true → isWrite mask = true).
Context (loop_law : dispatches) (poll_law : polls).

(** ** The loop, whose queue of operations is empty *)

(** The base between calls, and while its loop runs. *)
Definition quiet b : Prop := fifo_holds (queue b) [] ∧ terminate_ b = false.

Abbreviation turn mode := (loop_turn (Empty_set_rect _) event_base_loop event_base_loopexit 1 mode).

Lemma wp_on_stream {A} (m : M stream A) b (Q : A → ebase → Prop) :
  wp m (wstate b) (λ a w, Q a (set_stream w b)) → wp (on_stream m) b Q.
Proof. unfold wp, on_stream, zoom. by destruct (m (wstate b)). Qed.

(** The turn after the queue was found empty. *)
Definition after_ops (mode : LoopMode) : M ebase (unit + unit) :=
  rc ← event_base_loop;
  if bool_decide (mode = ONCE) then mret (inr tt)
  else if bool_decide (mode = UNTIL_EMPTY) && (rc =? 1) then mret (inr tt)
  else t ← gets terminate_; mret (if (t : bool) then inr tt else inl tt).

Lemma turn_quiet mode b : quiet b → ∃ q, fifo_holds q [] ∧
  turn mode tt b = after_ops mode (set_queue q b).
Proof.
  intros [Hq Ht]. pose proof (fifo_pop_ok _ _ Hq) as Hp.
  apply wp_iff in Hp as (r & q & E & -> & Hq'). exists q. split; [done|].
  unfold loop_turn. rewrite (bind_done _ _ _ tt (set_queue q b)); [done|].
  unfold runOpsInQueue. rewrite loop_S. rewrite (bind_done _ _ _ (inr tt) (set_queue q b)); [done|].
  unfold run_turn, on_queue. rewrite (bind_done _ _ _ None (set_queue q b)); [done|].
  unfold zoom. by rewrite E.
Qed.

Definition started b : ebase := set_finished false (set_thread self b).
Definition ended b : ebase := set_finished true (set_thread 0%N (set_terminate false b)).

Lemma base_loop_unfold turns mode b : mode ≠ FOREVER →
  base_loop turns mode b = match Prelude.loop turns (turn mode) tt (started b) with
    | Done _ b' => Done tt (ended b')
    | Throws e b' => Throws e b'
    | Faults f => Faults f
    | Diverges => Diverges
    end.
Proof.
  intros Hm. unfold Blocking.base_loop, EventLoop.loop, when. rewrite !bool_decide_false by done.
  do 3 (erewrite bind_done; [|reflexivity]). unfold mbind at 1, M_bind at 1.
  unfold started. by destruct (Prelude.loop turns _ tt _).
Qed.

(** One turn: the loop is done, waits for ever, or the handler is run. *)
Lemma turn_eq mode fd mask b :
  quiet b → alive (wstate b) = true → w_holds (handler_ (wstate b)) fd mask → mode ≠ FOREVER →
  ∃ q, fifo_holds q [] ∧ turn mode tt b =
    if decide (mask = NONE) then Done (inr tt) (set_queue q b)
    else match poll fd mask (os (wstate b)).1 with
    | None => Diverges
    | Some (ev, s) =>
        match ready ev (with_sys s (wstate b)) with
        | Done _ w => Done (if decide (mode = ONCE) then inr tt else inl tt) (set_stream w (set_queue q b))
        | Throws e w => Throws e (set_stream w (set_queue q b))
        | Faults f => Faults f
        | Diverges => Diverges
        end
    end.
Proof.
  intros Hb Ha Hh Hm. destruct (turn_quiet mode b Hb) as (q & Hq & ->). exists q. split; [done|].
  unfold after_ops. unfold mbind at 1, M_bind at 1.
  rewrite (loop_law (set_queue q b) fd mask Ha Hh). destruct (decide (mask = NONE)).
  - by destruct mode.
  - change (wstate (set_queue q b)) with (wstate b). destruct (poll fd mask _) as [[ev s]|]; [|done].
    unfold on_stream, zoom. unfold mbind at 1, M_bind at 1. cbn [wstate set_stream].
    destruct (ready ev _) as [[] w'| | |]; [|done..]. destruct Hb as [_ Ht].
    destruct mode; [done| |done]. cbn. unfold gets, mbind, M_bind. rewrite (bool_decide_false (UNTIL_EMPTY = ONCE)) by done. rewrite andb_false_r. cbv iota beta.
    change (terminate_ (set_stream w' (set_stream (with_sys s (wstate b)) (set_queue q b)))) with (terminate_ b). by rewrite Ht.
Qed.

(** A turn in which the handler is run. *)
Lemma event_turn mode fd mask b ev s (Q : stream → Prop) :
  quiet b → alive (wstate b) = true → w_holds (handler_ (wstate b)) fd mask → mode ≠ FOREVER →
  mask ≠ NONE → poll fd mask (os (wstate b)).1 = Some (ev, s) →
  wp (ready ev) (with_sys s (wstate b)) (λ _, Q) →
  wp (turn mode tt) b (λ r b', r = (if decide (mode = ONCE) then inr tt else inl tt) ∧
    quiet b' ∧ Q (wstate b')).
Proof.
  intros Hb Ha Hh Hm Hn Hp HQ. destruct (turn_eq mode fd mask b Hb Ha Hh Hm) as (q & Hq & E).
  unfold wp. rewrite E, decide_False, Hp by done. apply wp_iff in HQ as ([] & w' & -> & HQ).
  split; [done|]. split; [|done]. destruct Hb. by split.
Qed.

(** ** The callbacks *)

Lemma wp_get_wcb cb c w (Q : BlockingWriteCallback → stream → Prop) :
  wcbs (os w).2 !! cb = Some c → Q c w → wp (get_wcb cb) w Q.
Proof. unfold get_wcb, wp. by intros ->. Qed.

Lemma wp_get_rcb cb c w (Q : BlockingReadCallback → stream → Prop) :
  rcbs (os w).2 !! cb = Some c → Q c w → wp (get_rcb cb) w Q.
Proof. unfold get_rcb, wp. by intros ->. Qed.

(** ** Writing *)

Section write.
Context (sent : Z → Sys → list byte).
(** [write] takes a prefix of the data, or fails; what it takes goes on the wire. *)
Context (write_law : ∀ fd (bs : list byte) s n s', zlength bs ≤ INT_MAX →
  xwrite fd (Some <$> bs) s = (n, s') →
  - 1 ≤ n ≤ zlength bs ∧ sent fd s' = sent fd s ++ take (Z.to_nat n) bs).
Context (poll_sent : ∀ fd mask s ev s', poll fd mask s = Some (ev, s') → sent fd s' = sent fd s).
Context (Hfuel : (1 < fuel)%nat).

(** What one event does to the only request, which has [rest] to send. *)
Definition wrote fd mask r rest cb c w w' : Prop := ∃ n s',
  xwrite fd (Some <$> rest) (os w).1 = (n, s') ∧ -1 ≤ n ≤ zlength rest ∧
  sent fd s' = sent fd (os w).1 ++ take (Z.to_nat n) rest ∧ same_reading w w' ∧
  if decide (n = zlength rest) then
    os w' = (s', set_wcbs <[cb := mkWriteCallback (w_error_ c) true]> (os w).2) ∧
    stream_is w' fd (removeWrite mask) Empty []
  else
    os w' = (s', if decide (n < 0)
                 then set_wcbs <[cb := mkWriteCallback (Some "Write failed") (w_complete_ c)]> (os w).2
                 else (os w).2) ∧
    stream_is w' fd mask (One r) [(drop (Z.to_nat n) rest, Some cb)].

Lemma write_event fd mask r rest cb c w :
  stream_is w fd mask (One r) [(rest, Some cb)] → wcbs (os w).2 !! cb = Some c →
  wp (writeHelper NDEBUG (λ fd x, sys (xwrite fd x)) write_complete write_error fuel) w
    (λ _, wrote fd mask r rest cb c w).
Proof.
  intros St Hc. pose proof St as (Hq & _ & _). destruct fuel as [|[|k]]; [lia|lia|].
  unfold writeHelper. wp_step. apply wp_this; [apply Hq|].
  rewrite (queue_head _ _ Hq). cbn [linked list.head]. wp_step. apply wp_loop_S.
  eapply write_turn_wp; [done|done|done|]. intros n s' En Hn Hs.
  destruct (decide (n = zlength rest)) as [->|Hne]; intros w3 S3 Eo St3.
  - cbn [on_cb]. unfold write_complete. wp_step. eapply wp_get_wcb; [by rewrite Eo|].
    unfold put_wcb. wp_step. cbn [list.head]. apply wp_loop_S. cbn [write_turn]. wp_step. cbv iota.
    wp_step. exists (zlength rest), s'. split; [done|]. split; [done|]. split; [done|].
    split; [by destruct S3; split|]. rewrite decide_True by done. split; [|exact St3].
    cbn. by rewrite Eo.
  - destruct (Z.ltb_spec n 0) as [Hneg|Hpos].
    + rewrite bool_decide_true by done. destruct St3 as (Hq3 & Hh3 & F3).
      inversion F3 as [|? ? ? ? (q & Hr & Hcb & Hrest) ?]; subst. wp_step.
      eapply wp_get_req; [exact Hr|]. rewrite Hcb. cbn [on_cb snd]. unfold write_error. wp_step.
      eapply wp_get_wcb; [by rewrite Eo|]. unfold put_wcb. wp_step.
      exists n, s'. split; [done|]. split; [done|]. split; [done|]. split; [by destruct S3; split|].
      rewrite decide_False by done. rewrite decide_True by done. split; [cbn; by rewrite Eo|].
      split; [exact Hq3|]. split; [exact Hh3|]. exact F3.
    + rewrite bool_decide_false by lia. wp_step. exists n, s'. split; [done|]. split; [done|].
      split; [done|]. split; [done|]. rewrite decide_False by done. by rewrite decide_False by lia.
Qed.

(** The base while a request waits, and when there is none. *)
Definition writing fd b r rest cb c : Prop :=
  quiet b ∧ stream_is (wstate b) fd WRITE (One r) [(rest, Some cb)] ∧
  wcbs (os (wstate b)).2 !! cb = Some c ∧ connectCallback_ (wstate b) = None.
Definition idle fd b : Prop :=
  quiet b ∧ stream_is (wstate b) fd NONE Empty [] ∧ connectCallback_ (wstate b) = None.

(** Whenever the kernel says that the descriptor can be written, some data can. *)
Definition writable fd : Prop := ∀ s, match poll fd WRITE s with
  | Some (_, s1) => ∀ bs : list byte, bs ≠ [] → zlength bs ≤ INT_MAX → 1 ≤ (xwrite fd (Some <$> bs) s1).1
  | None => False
  end.

(** All is sent, and the callback [c] knows it. *)
Definition all_sent fd w rest cb c w' : Prop :=
  same_reading w w' ∧ (os w').2 = set_wcbs <[cb := c]> (os w).2 ∧ w_complete_ c = true ∧
  (w_error_ c = None ∨ w_error_ c = Some "Write failed") ∧
  sent fd (os w').1 = sent fd (os w).1 ++ rest.

Lemma set_wcbs_twice cb c c' l : set_wcbs <[cb := c']> (set_wcbs <[cb := c]> l) = set_wcbs <[cb := c']> l.
Proof. unfold set_wcbs. cbn. by rewrite insert_insert_eq. Qed.

(** One event. *)
Lemma write_event_turn fd b r rest cb c ev s1 :
  writing fd b r rest cb c → poll fd WRITE (os (wstate b)).1 = Some (ev, s1) →
  wp (turn UNTIL_EMPTY tt) b (λ res b', res = inl tt ∧ quiet b' ∧
    wrote fd WRITE r rest cb c (with_sys s1 (wstate b)) (wstate b')).
Proof.
  intros (Hb & St & Hc & Hn) Hp. pose proof St as (Hq & Hh & _).
  assert (ev = WRITE) as ->.
  { destruct (poll_law _ _ _ _ _ Hp) as (Hne & Hr & _). destruct ev; [done| |done|]; by specialize (Hr eq_refl). }
  eapply wp_mono; [apply (event_turn UNTIL_EMPTY fd WRITE b WRITE s1); [done|apply Hq|done..|]|].
  - unfold ready, SockHandler_ready. cbn [isWrite isRead]. wp_step. change (isWrite WRITE) with true.
    unfold when at 1. wp_step. apply wp_this; [apply Hq|]. cbn [connectCallback_ with_sys set_os]. rewrite Hn.
    rewrite bool_decide_false by (intros Hx; by apply Hx). unfold when at 1. wp_step. wp_step.
    wp_step. apply wp_this; [apply Hq|]. eapply wp_mono; [by apply (write_event fd WRITE r rest cb c)|].
    intros ? w' Hw. change (isRead WRITE) with false. unfold when. wp_step. exact Hw.
  - intros res b' (-> & Hb' & Hw). by rewrite decide_False.
Qed.

Lemma writes turns fd b r rest cb c :
  writing fd b r rest cb c → rest ≠ [] → w_error_ c = None ∨ w_error_ c = Some "Write failed" →
  match Prelude.loop turns (turn UNTIL_EMPTY) tt b with
  | Done _ b' => idle fd b' ∧ ∃ c', all_sent fd (wstate b) rest cb c' (wstate b') ∧
      (writable fd → w_error_ c' = w_error_ c)
  | Diverges => writable fd → (turns ≤ length rest)%nat
  | _ => False
  end.
Proof.
  revert b rest c. induction turns as [|turns IH]; intros b rest c Hw Hne Hce; [simpl; lia|].
  rewrite loop_S. unfold mbind at 1, M_bind at 1. pose proof Hw as (Hb & St & Hc & Hn). pose proof St as (Hq & Hh & _).
  destruct (poll fd WRITE (os (wstate b)).1) as [[ev s1]|] eqn:Hp.
  2:{ destruct (turn_eq UNTIL_EMPTY fd WRITE b Hb ltac:(apply Hq) Hh ltac:(done)) as (q & _ & ->).
      rewrite decide_False, Hp by done. intros Hs. specialize (Hs (os (wstate b)).1). by rewrite Hp in Hs. }
  pose proof (write_event_turn fd b r rest cb c ev s1 Hw Hp) as He.
  apply wp_iff in He as (res & b' & E & -> & Hb' & n & s' & En & Hrange & Hsent & S1 & Hres).
  rewrite E. cbn [os with_sys set_os fst snd] in En, Hsent, Hres. rewrite (poll_sent _ _ _ _ _ Hp) in Hsent.
  assert (Hconn : connectCallback_ (wstate b') = None) by (by rewrite (rd_conncb _ _ S1)).
  assert (Hlen : 0 < zlength rest) by (destruct rest; [done|simpl; lia]).
  assert (Hsure : writable fd → 1 ≤ n).
  { intros Hs. specialize (Hs (os (wstate b)).1). rewrite Hp in Hs.
    destruct St as (_ & _ & F0). inversion F0 as [|? ? ? ? (? & ? & ? & ? & ? & Hmax) ?]; subst.
    specialize (Hs rest Hne Hmax). by rewrite En in Hs. }
  destruct (decide (n = zlength rest)) as [->|Hn'].
  - destruct Hres as [Eo St']. pose proof St' as (Hq' & Hh' & _).
    destruct turns as [|turns]; [simpl; lia|]. rewrite loop_S. unfold mbind, M_bind.
    destruct (turn_eq UNTIL_EMPTY fd NONE b' Hb' ltac:(apply Hq') Hh' ltac:(done)) as (q & Hfq & ->).
    rewrite decide_True by done. destruct Hb' as [_ Ht]. split; [by split|]. exists (mkWriteCallback (w_error_ c) true). split; [|done].
    cbn [wstate set_queue]. split; [by destruct S1; split|]. rewrite Eo. split; [done|]. split; [done|]. split; [exact Hce|].
    cbn [fst]. by rewrite Hsent, Nat2Z.id, firstn_all.
  - destruct Hres as [Eo St']. set (c1 := if decide (n < 0) then mkWriteCallback (Some "Write failed") (w_complete_ c) else c).
    assert (El : (os (wstate b')).2 = set_wcbs <[cb := c1]> (os (wstate b)).2).
    { rewrite Eo. unfold c1. cbn [snd]. destruct (decide (n < 0)); [done|]. unfold set_wcbs.
      rewrite insert_id by done. by destruct (os (wstate b)).2. }
    assert (Hw' : writing fd b' r (drop (Z.to_nat n) rest) cb c1).
    { split; [done|]. split; [done|]. split; [|done]. rewrite El. apply lookup_insert_eq. }
    assert (Hne' : drop (Z.to_nat n) rest ≠ []).
    { intros E'. apply (f_equal length) in E'. rewrite length_drop in E'. simpl in E'. lia. }
    specialize (IH b' _ c1 Hw' Hne' ltac:(unfold c1; case_decide; auto)).
    destruct (Prelude.loop turns _ tt b') as [[] b2| | |]; [|done|done|].
    + destruct IH as (Hi & c' & (S2 & El2 & Hcc & Hce' & Hs2) & Hc'). split; [done|]. exists c'. split.
      * split; [by destruct S1, S2; split; cbn in *; congruence|]. rewrite El2, El, set_wcbs_twice. split; [done|].
        split; [done|]. split; [done|]. rewrite Hs2, Eo. cbn [fst]. by rewrite Hsent, <- app_assoc, take_drop.
      * intros Hs. rewrite Hc' by done. unfold c1. rewrite decide_False; [done|]. specialize (Hsure Hs). lia.
    + intros Hs. specialize (IH Hs). rewrite length_drop in IH. specialize (Hsure Hs). lia.
Qed.

(** The request of [write] and its callback, when the loop begins. *)
Lemma write_begins fd cb bs b :
  idle fd b → bs ≠ [] → zlength bs ≤ INT_MAX → zlength bs ≤ max_new →
  wp (Stream.write NDEBUG (Some <$> bs) (zlength bs) (Some cb))
    (set_locals (set_wcbs <[cb := mkWriteCallback None false]>) (wstate b)) (λ _ w1,
    writing fd (set_stream w1 b) (next_addr (wstate b)) bs cb (mkWriteCallback None false) ∧
    same_reading (wstate b) w1 ∧ (os w1).1 = (os (wstate b)).1 ∧
    (os w1).2 = set_wcbs <[cb := mkWriteCallback None false]> (os (wstate b)).2).
Proof.
  intros (Hb & St & Hn) Hne Hi Hm. set (w0 := set_locals _ (wstate b)).
  eapply wp_mono; [by apply (write_wp NDEBUG bs (Some cb) w0 fd NONE Empty []); [|left|..]|].
  intros ? w1 (qs & [= <-] & S1 & Eo & St1). split; [|by rewrite Eo; destruct S1].
  split; [done|]. split; [done|]. split; [cbn; rewrite Eo; apply lookup_insert_eq|].
  cbn. by rewrite (rd_conncb _ _ S1).
Qed.

(** Everything of [bs] is sent, the base is idle, and nothing is left of the call. *)
Definition sent_by_write fd cb bs b b' : Prop :=
  idle fd b' ∧ (os (wstate b')).2 = set_wcbs (delete cb) (os (wstate b)).2 ∧
  sent fd (os (wstate b')).1 = sent fd (os (wstate b)).1 ++ bs ∧ same_reading (wstate b) (wstate b').

(** C6: when a blocking [write] on an idle stream returns, all its data is sent, in
    order, and the stream is idle again.  It returns for certain, after at most as many
    turns as there are bytes, if the kernel reports the descriptor writable only when
    it takes something.  It throws when some attempt failed and a later one did not: then, too,
    all of the data has been sent. *)
Theorem write_sends fd turns cb bs b :
  idle fd b → bs ≠ [] → zlength bs ≤ INT_MAX → zlength bs ≤ max_new →
  match write turns cb (Some <$> bs) (zlength bs) b with
  | Done _ b' => sent_by_write fd cb bs b b'
  | Throws e b' => e = runtime_error "Write failed" ∧ sent_by_write fd cb bs b b' ∧ ¬ writable fd
  | Diverges => writable fd → (turns ≤ length bs)%nat
  | Faults _ => False
  end.
Proof.
  intros Hi Hne Hmax Hm. unfold Blocking.write, with_local.
  pose proof (write_begins fd cb bs b Hi Hne Hmax Hm) as Hs.
  apply wp_iff in Hs as ([] & w1 & E1 & Hw & S1 & Eos & El).
  rewrite (bind_done _ _ _ tt (set_stream w1 b)) by (unfold on_stream, zoom; cbn [wstate set_stream]; by rewrite E1).
  unfold mbind at 1, M_bind at 1. rewrite base_loop_unfold by done.
  pose proof (writes turns fd (started (set_stream w1 b)) _ bs cb _ Hw Hne ltac:(by left)) as Hws.
  destruct (Prelude.loop turns _ tt _) as [[] b2| | |]; [|done..].
  destruct Hws as (Hi2 & c & (S2 & El2 & Hcc & Hce & Hs2) & Hc).
  rewrite (bind_done _ _ _ c (ended b2)).
  2:{ unfold on_stream, zoom, get_wcb. cbn [wstate ended set_finished set_thread set_terminate].
      rewrite El2. cbn [wcbs set_wcbs]. by rewrite lookup_insert_eq. }
  set (b3 := set_stream (set_locals (set_wcbs (delete cb)) (wstate (ended b2))) (ended b2)).
  assert (Hend : sent_by_write fd cb bs b b3).
  { destruct Hi2 as (Hb2 & St2 & Hn2). split; [split; [|split]|split; [|split]].
    - destruct Hb2 as [Hq2 _]. by split.
    - exact St2.
    - exact Hn2.
    - unfold b3. cbn [os wstate ended set_finished set_thread set_terminate set_stream set_locals set_os snd].
      rewrite El2. cbn [wstate started set_finished set_thread set_stream]. rewrite El.
      rewrite set_wcbs_twice. unfold set_wcbs. cbn. by rewrite delete_insert_eq.
    - unfold b3. cbn [os wstate ended set_finished set_thread set_terminate set_stream set_locals set_os fst].
      rewrite Hs2. cbn [wstate started set_finished set_thread set_stream]. by rewrite Eos.
    - destruct S1, S2; split; unfold b3; cbn in *; congruence. }
  destruct Hce as [->| Hce].
  - unfold assert_, require. rewrite Hcc. by destruct NDEBUG.
  - rewrite Hce. cbn. split; [done|]. split; [done|]. intros Hsure. specialize (Hc Hsure). by rewrite Hce in Hc.
Qed.

(** The descriptor cannot be written, ever again. *)
Definition broken fd : Prop := ∀ s, match poll fd WRITE s with
  | Some (_, s1) => ∀ bs : list byte, bs ≠ [] → zlength bs ≤ INT_MAX → (xwrite fd (Some <$> bs) s1).1 < 0
  | None => True
  end.

Lemma writes_for_ever turns fd b r rest cb c :
  writing fd b r rest cb c → broken fd → Prelude.loop turns (turn UNTIL_EMPTY) tt b = Diverges.
Proof.
  intros Hw Hbr. revert b c Hw. induction turns as [|turns IH]; intros b c Hw; [done|].
  rewrite loop_S. unfold mbind at 1, M_bind at 1. pose proof Hw as (Hb & St & Hc & Hn). pose proof St as (Hq & Hh & F0).
  inversion F0 as [|? ? ? ? (? & ? & ? & ? & Hne & Hmax) ?]; subst. cbn [fst] in Hne, Hmax.
  specialize (Hbr (os (wstate b)).1). destruct (poll fd WRITE (os (wstate b)).1) as [[ev s1]|] eqn:Hp.
  2:{ destruct (turn_eq UNTIL_EMPTY fd WRITE b Hb ltac:(apply Hq) Hh ltac:(done)) as (q & _ & ->).
      by rewrite decide_False, Hp by done. }
  specialize (Hbr rest Hne Hmax).
  pose proof (write_event_turn fd b r rest cb c ev s1 Hw Hp) as He.
  apply wp_iff in He as (res & b' & -> & -> & Hb' & n & s' & En & Hrange & _ & S1 & Hres).
  cbn [os with_sys set_os fst snd] in En, Hres. rewrite En in Hbr. cbn [fst] in Hbr.
  rewrite decide_False in Hres by lia. destruct Hres as [Eo St'].
  rewrite decide_True in Eo by done. replace (Z.to_nat n) with 0%nat in St' by lia. rewrite drop_0 in St'.
  apply (IH b' (mkWriteCallback (Some "Write failed") (w_complete_ c))). split; [done|]. split; [done|].
  split; [rewrite Eo; apply lookup_insert_eq|]. by rewrite (rd_conncb _ _ S1).
Qed.

(** A blocking [write] on a descriptor that fails every attempt does not throw, as
    its description says: the request stays in the queue, the descriptor stays watched,
    and the call never returns. *)
Theorem write_failure_hangs fd turns cb bs b :
  idle fd b → bs ≠ [] → zlength bs ≤ INT_MAX → zlength bs ≤ max_new → broken fd →
  write turns cb (Some <$> bs) (zlength bs) b = Diverges.
Proof.
  intros Hi Hne Hmax Hm Hbr. unfold Blocking.write, with_local.
  pose proof (write_begins fd cb bs b Hi Hne Hmax Hm) as Hs.
  apply wp_iff in Hs as ([] & w1 & E1 & Hw & _).
  rewrite (bind_done _ _ _ tt (set_stream w1 b)) by (unfold on_stream, zoom; cbn [wstate set_stream]; by rewrite E1).
  unfold mbind at 1, M_bind at 1. rewrite base_loop_unfold by done.
  by rewrite (writes_for_ever turns fd (started (set_stream w1 b)) _ bs cb _ Hw Hbr).
Qed.
End write.

(** ** Reading *)

Section read.
Context (inbox : Z → Sys → list byte).
(** [read] takes at most [size] bytes from the front of what arrives. *)
Context (read_law : ∀ fd size s r s', 0 ≤ size → xread fd size s = (r, s') →
  inbox fd s = default [] r ++ inbox fd s' ∧ zlength (default [] r) ≤ size).
Context (errno_law : ∀ fd s e s', geterror fd s = (e, s') → inbox fd s' = inbox fd s).
Context (poll_inbox : ∀ fd mask s ev s', poll fd mask s = Some (ev, s') → inbox fd s' = inbox fd s).
Context (Hnew : read_size ≤ max_new).

Abbreviation rturn := (read_turn (λ fd n, sys (xread fd n)) (λ fd, sys (geterror fd))
  EAGAIN EWOULDBLOCK available read_error eof).

(** The last system call was a [read(2)] at the end of file, or one that failed. *)
Definition hit_eof fd s' : Prop := ∃ s, xread fd read_size s = (Some [], s').
Definition hit_error fd s' : Prop := ∃ s s1 x, xread fd read_size s = (None, s1) ∧
  geterror fd s1 = (x, s') ∧ isReadRetryable EAGAIN EWOULDBLOCK x = false.

(** The stream while [read] runs with the callback [cb], for [size] bytes into [buf]:
    [got] has been copied there, [bss] is left in the stream's buffer. *)
Record reading fd mask cb buf size w (got : list byte) (bss : list (list byte))
    (e : option string) (f : bool) : Prop := {
  rg_queue : queue_is w Empty;
  rg_holds : w_holds (handler_ w) fd mask;
  rg_cb : readCallback_ w = Some cb;
  rg_conn : connectCallback_ w = None;
  rg_buffer : contents (readBuffer_ w) bss;
  rg_local : rcbs (os w).2 !! cb =
    Some (mkReadCallback (pasted buf 0 (Some <$> got)) size (zlength got) f e);
  rg_size : zlength got ≤ size;
  rg_drained : zlength got < size → bss = [];
  rg_eof : f = true → hit_eof fd (os w).1;
  rg_error : ∀ m, e = Some m → m = "Read failed" ∧ hit_error fd (os w).1;
}.

(** [available] takes what is asked for from a buffer that has just got [bs]. *)
Lemma appended_ok fd mask cb buf size w got bss bs e f :
  reading fd mask cb buf size w got bss e f → zlength buf = size → is_u64 size →
  ∀ L, contents L (bss ++ [bs]) → bs ≠ [] →
  wp (available cb) (set_readBuffer L w) (λ _ w', ∃ got' bss', reading fd mask cb buf size w' got' bss' e f ∧
    got ++ concat bss ++ bs = got' ++ concat bss' ∧ (os w').1 = (os w).1 ∧
    zlength got ≤ zlength got' ∧ (zlength got < size → zlength got < zlength got')).
Proof.
  intros R Hbuf Hsz L C Hbs. unfold available. wp_step.
  eapply wp_get_rcb; [apply (rg_local _ _ _ _ _ _ _ _ _ _ R)|]. cbn [nread_ Blocking.buffer_ size_ eof_ r_error_].
  pose proof (rg_size _ _ _ _ _ _ _ _ _ _ R) as Hle. unfold is_u64 in Hsz.
  rewrite u64_sub_small by lia. set (k := size - zlength got).
  set (buf1 := pasted buf 0 (Some <$> got)).
  assert (Hl1 : length buf1 = length buf) by (apply pasted_length; rewrite length_fmap; lia).
  set (X := concat bss ++ bs). assert (EX : concat (bss ++ [bs]) = X).
  { unfold X. rewrite concat_app. simpl. by rewrite app_nil_r. }
  destruct (buf_read_ok L (bss ++ [bs]) (drop (Z.to_nat (zlength got)) buf1) k C) as (L' & E & C').
  { unfold is_u64. lia. } { rewrite length_drop. lia. }
  { destruct (decide (zlength got < size)) as [Hlt|Hge].
    - rewrite (rg_drained _ _ _ _ _ _ _ _ _ _ R Hlt). cbn [app copy_exact].
      rewrite (proj2 (Z.ltb_lt _ _)), (proj2 (Z.leb_le _ _)) by lia. done.
    - destruct (bss ++ [bs]); [done|]. cbn [copy_exact]. by rewrite (proj2 (Z.ltb_ge _ _)) by lia. }
  rewrite EX in E. wp_step. eapply wp_done; [unfold zoom; cbn [readBuffer_ set_readBuffer]; by rewrite E|].
  cbv iota beta. unfold put_rcb. wp_step.
  exists (got ++ take (Z.to_nat k) X), (drain_chunks k (bss ++ [bs])).
  assert (Hlen : zlength (got ++ take (Z.to_nat k) X) = zlength got + k `min` zlength X)
    by (rewrite length_app, length_take; lia).
  assert (HX : 0 < zlength X) by (unfold X; rewrite length_app; destruct bs; [done|simpl; lia]).
  split; [|split; [|split; [done|split; [lia|intros; lia]]]].
  2:{ rewrite concat_drain_chunks, EX, <- app_assoc, take_drop by lia. done. }
  destruct R as [Rq Rh Rc Rn Rb Rl Rs Rd Re Rx]. split; try done.
  - cbn. rewrite lookup_insert_eq, pasted_drop, u64_add_small by lia. rewrite Hlen.
    unfold buf1. rewrite fmap_app, <- (pasted_app buf 0) by (rewrite length_fmap; lia).
    rewrite length_fmap, Nat2Z.id. done.
  - rewrite Hlen. lia.
  - rewrite Hlen. intros Hlt. apply drain_chunks_all. rewrite EX. lia.
Qed.

(** A [read] that fails for now. *)
Definition spurious fd s : Prop := ∃ s', xread fd read_size s = (None, s') ∧
  isReadRetryable EAGAIN EWOULDBLOCK (geterror fd s').1 = true.

(** Some more reading: no byte is lost, and there is something new when [moved]. *)
Definition read_on fd mask cb buf size (moved : Prop) w got bss w' : Prop :=
  ∃ got' bss' e' f', reading fd mask cb buf size w' got' bss' e' f' ∧
    got ++ concat bss ++ inbox fd (os w).1 = got' ++ concat bss' ++ inbox fd (os w').1 ∧
    (zlength got ≤ zlength got') ∧
    (moved → zlength got < size → zlength got < zlength got' ∨ e' ≠ None ∨ f' = true).

Lemma reading_with_sys fd mask cb buf size w got bss s :
  reading fd mask cb buf size w got bss None false → reading fd mask cb buf size (with_sys s w) got bss None false.
Proof. by intros []. Qed.

Lemma read_one fd mask cb buf size w got bss :
  reading fd mask cb buf size w got bss None false → zlength buf = size → is_u64 size →
  zlength (concat bss) + zlength (inbox fd (os w).1) < W64 →
  wp (rturn tt) w (λ res w', read_on fd mask cb buf size (¬ spurious fd (os w).1) w got bss w' ∧
    (res = inl tt → (length (inbox fd (os w').1) < length (inbox fd (os w).1))%nat ∧
       ∃ got' bss', reading fd mask cb buf size w' got' bss' None false ∧ zlength got ≤ zlength got' ∧
         (zlength got < size → zlength got < zlength got') ∧
         got ++ concat bss ++ inbox fd (os w).1 = got' ++ concat bss' ++ inbox fd (os w').1)).
Proof.
  intros R Hbuf Hsz Hb. pose proof R as [Rq Rh Rc Rn Rb Rl Rs Rd Re Rx].
  eapply read_turn_wp; [apply Rq|done..|]. intros r s1 E.
  destruct (read_law fd read_size _ _ _ ltac:(done) E) as [Ei Hs].
  destruct r as [[|c bs]|]; simpl in Ei.
  - rewrite Rc. cbn [on_cb]. unfold eof. wp_step. eapply wp_get_rcb; [exact Rl|]. unfold put_rcb. wp_step.
    split; [|done]. exists got, bss, None, true.
    split; [|split; [cbn; by rewrite Ei|split; [done|auto]]].
    split; try done; [cbn; by rewrite lookup_insert_eq|]. intros _. by exists (os w).1.
  - set (bs' := c :: bs) in *. change (inbox fd (os w).1 = bs' ++ inbox fd s1) in Ei.
    assert (Hlen : 0 < zlength bs') by (unfold bs'; simpl; lia).
    rewrite Ei, length_app in Hb. split; [exact Hs|]. split; [lia|]. intros L1 C1. rewrite Rc. cbn [on_cb].
    eapply wp_mono; [eapply (appended_ok fd mask cb buf size (with_sys s1 w)); [by apply reading_with_sys|done..]|].
    intros ? w' (got' & bss' & R' & Eg & Eo & Hle & Hg).
    assert (Eq : got ++ concat bss ++ inbox fd (os w).1 = got' ++ concat bss' ++ inbox fd (os w').1).
    { rewrite Ei, Eo. cbn [os with_sys set_os fst]. rewrite (app_assoc (concat bss)), app_assoc, Eg.
      by rewrite <- app_assoc. }
    split; [exists got', bss', None, false; by split_and!; auto|]. intros _.
    split; [rewrite Ei, Eo, length_app; cbn [os with_sys set_os fst]; simpl in *; lia|by exists got', bss'].
  - intros x s2 E2. pose proof (errno_law _ _ _ _ E2) as Ei2.
    destruct (isReadRetryable EAGAIN EWOULDBLOCK x) eqn:Er.
    + split; [|done]. exists got, bss, None, false. split; [by apply reading_with_sys|].
      split; [cbn; by rewrite Ei2, Ei|]. split; [done|].
      intros []. exists s1. split; [done|]. by rewrite E2.
    + rewrite Rc. cbn [on_cb]. unfold read_error. wp_step. eapply wp_get_rcb; [exact Rl|]. unfold put_rcb. wp_step.
      split; [|done]. exists got, bss, (Some "Read failed"), false.
      split; [|split; [cbn; by rewrite Ei2, Ei|split; [done|auto 7]]].
      split; try done; [cbn; by rewrite lookup_insert_eq|]. intros m [= <-]. split; [done|]. by exists (os w).1, s1, x.
Qed.

(** One event. *)
Lemma read_event n fd mask cb buf size w got bss :
  reading fd mask cb buf size w got bss None false → zlength buf = size → is_u64 size →
  zlength (concat bss) + zlength (inbox fd (os w).1) < W64 → (length (inbox fd (os w).1) < n)%nat →
  wp (Prelude.loop n rturn tt) w
    (λ _ w', read_on fd mask cb buf size (¬ spurious fd (os w).1) w got bss w').
Proof.
  intros R Hbuf Hsz. revert w got bss R. induction n as [|n IH]; intros w got bss R Hb Hn; [lia|].
  apply wp_loop_S. eapply wp_mono; [by apply (read_one fd mask cb buf size w got bss)|].
  intros [[]|[]] w1 [Hon Hdec]; [|exact Hon].
  destruct (Hdec eq_refl) as (Hin & got1 & bss1 & R1 & Hl1 & Hm1 & E1).
  pose proof (f_equal length E1) as El. rewrite !length_app in El.
  eapply wp_mono; [apply (IH w1 got1 bss1 R1); lia|].
  intros ? w2 (got2 & bss2 & e2 & f2 & R2 & E2 & Hl2 & _).
  exists got2, bss2, e2, f2. split; [done|]. split; [congruence|]. split; [lia|].
  intros HP Hlt. left. specialize (Hm1 Hlt). lia.
Qed.

Lemma round_ok fd cb buf size b got bss ev s1 :
  quiet b → reading fd READ cb buf size (wstate b) got bss None false → zlength buf = size → is_u64 size →
  zlength (concat bss) + zlength (inbox fd (os (wstate b)).1) < W64 →
  (length (inbox fd (os (wstate b)).1) < fuel)%nat →
  poll fd READ (os (wstate b)).1 = Some (ev, s1) →
  wp (read_round NDEBUG self event_base_loop event_base_loopexit timer_add timer_del cb tt) b
    (λ res b', quiet b' ∧ ∃ got' bss' e' f', reading fd READ cb buf size (wstate b') got' bss' e' f' ∧
    got ++ concat bss ++ inbox fd (os (wstate b)).1 = got' ++ concat bss' ++ inbox fd (os (wstate b')).1 ∧
    zlength got ≤ zlength got' ∧
    (¬ spurious fd s1 → zlength got < size → zlength got < zlength got' ∨ e' ≠ None ∨ f' = true) ∧
    res = if (zlength got' <? size) && bool_decide (e' = None) && negb f' then inl tt else inr tt).
Proof.
  intros Hb R Hbuf Hsz Hbound Hfuel Hp. pose proof R as [Rq Rh Rc Rn Rb Rl Rs Rd Re Rx].
  assert (ev = READ) as ->.
  { destruct (poll_law _ _ _ _ _ Hp) as (Hne & _ & Hr). destruct ev; [done|done| |]; by specialize (Hr eq_refl). }
  pose proof (poll_inbox _ _ _ _ _ Hp) as Ei. unfold read_round.
  assert (Ht : wp (turn ONCE tt) (started b) (λ res b', res = inr tt ∧ quiet b' ∧
    read_on fd READ cb buf size (¬ spurious fd s1) (with_sys s1 (wstate b)) got bss (wstate b'))).
  { eapply wp_mono; [apply (event_turn ONCE fd READ (started b) READ s1); [done|apply Rq|done..|]|].
    - unfold ready, SockHandler_ready. wp_step. apply wp_when; [done|intros _].
      apply wp_when; [intros _|done]. wp_step. apply wp_this; [apply Rq|].
      unfold readHelper. eapply wp_mono.
      + eapply (read_event fuel fd READ cb buf size (with_sys s1 (wstate b))); [by apply reading_with_sys|done|done|..];
          cbn [os with_sys set_os fst]; by rewrite Ei.
      + intros ? w' Hon. exact Hon.
    - intros res b' (-> & Hb' & Hon). by rewrite decide_True. }
  apply wp_iff in Ht as (? & b1 & Et & -> & Hb1 & got' & bss' & e' & f' & R1 & Eq & Hl & Hm).
  wp_step. eapply wp_done.
  { rewrite base_loop_unfold by done. rewrite loop_S. unfold mbind at 1, M_bind at 1. by rewrite Et. }
  wp_step. apply wp_on_stream. eapply wp_get_rcb; [apply (rg_local _ _ _ _ _ _ _ _ _ _ R1)|].
  wp_step. split; [destruct Hb1; by split|]. exists got', bss', e', f'. split; [exact R1|].
  split; [cbn [os with_sys set_os fst] in Eq; rewrite Ei in Eq; exact Eq|]. split; [exact Hl|]. split; [exact Hm|done].
Qed.

(** Data, or the end, or an error, always comes. *)
Definition arrives fd : Prop := ∀ s, match poll fd READ s with
  | Some (_, s1) => ¬ spurious fd s1
  | None => False
  end.

Lemma rounds_ok k fd cb buf size b got bss :
  quiet b → reading fd READ cb buf size (wstate b) got bss None false → zlength buf = size → is_u64 size →
  zlength (concat bss) + zlength (inbox fd (os (wstate b)).1) < W64 →
  (length (inbox fd (os (wstate b)).1) < fuel)%nat → arrives fd → size - zlength got < Z.of_nat k →
  wp (Prelude.loop k (read_round NDEBUG self event_base_loop event_base_loopexit timer_add timer_del cb) tt) b
    (λ _ b', quiet b' ∧ ∃ got' bss' e' f', reading fd READ cb buf size (wstate b') got' bss' e' f' ∧
    got ++ concat bss ++ inbox fd (os (wstate b)).1 = got' ++ concat bss' ++ inbox fd (os (wstate b')).1 ∧
    (zlength got' < size → e' = None → f' = true)).
Proof.
  revert b got bss. induction k as [|k IH]; intros b got bss Hb R Hbuf Hsz Hbound Hfuel Harr Hk.
  { pose proof (rg_size _ _ _ _ _ _ _ _ _ _ R). lia. }
  apply wp_loop_S. pose proof (Harr (os (wstate b)).1) as Hs.
  destruct (poll fd READ _) as [[ev s1]|] eqn:Hp; [|done].
  eapply wp_mono; [by eapply (round_ok fd cb buf size b)|].
  intros res b1 (Hb1 & got' & bss' & e' & f' & R1 & Eq & Hle & Hm & ->).
  destruct (Z.ltb_spec (zlength got') size) as [Hlt|Hge]; cbn [andb].
  2:{ split; [done|]. exists got', bss', e', f'. split; [done|]. split; [done|lia]. }
  destruct (decide (e' = None)) as [->|He]; [rewrite bool_decide_true by done|rewrite bool_decide_false by done]; cbn [andb].
  2:{ split; [done|]. by exists got', bss', e', f'. }
  destruct f'; cbn [negb].
  { split; [done|]. by exists got', bss', None, true. }
  pose proof (f_equal length Eq) as El. rewrite !length_app in El.
  assert (zlength got < zlength got').
  { destruct (decide (zlength got < size)) as [Hl|Hl]; [destruct (Hm Hs Hl) as [?|[?|?]]; done|].
    pose proof (rg_size _ _ _ _ _ _ _ _ _ _ R). lia. }
  pose proof (rg_drained _ _ _ _ _ _ _ _ _ _ R ltac:(lia)) as ->. simpl in El.
  eapply wp_mono; [apply (IH b1 got' bss'); (done || lia)|].
  intros ? b2 (Hb2 & got2 & bss2 & e2 & f2 & R2 & E2 & Hend). split; [done|].
  exists got2, bss2, e2, f2. split; [done|]. split; [congruence|done].
Qed.

(** A stream on which nothing has been read that was not handed out. *)
Definition can_read fd cb b : Prop :=
  quiet b ∧ queue_is (wstate b) Empty ∧ connectCallback_ (wstate b) = None ∧ ∃ mask,
  w_holds (handler_ (wstate b)) fd mask ∧ (mask = NONE ∨ mask = READ) ∧
  (readCallback_ (wstate b) = Some cb → mask = READ).

(** What a [read] leaves behind: the descriptor is watched, and the stream points to a
    callback that is gone. *)
Definition after_read fd cb b : Prop :=
  quiet b ∧ queue_is (wstate b) Empty ∧ connectCallback_ (wstate b) = None ∧
  w_holds (handler_ (wstate b)) fd READ ∧ readCallback_ (wstate b) = Some cb ∧
  rcbs (os (wstate b)).2 !! cb = None.

Lemma startRead_begins fd cb c b :
  can_read fd cb b →
  wp (startRead (Some cb)) (set_locals (set_rcbs <[cb := c]>) (wstate b))
    (λ _ w', queue_is w' Empty ∧ w_holds (handler_ w') fd READ ∧ readCallback_ w' = Some cb ∧
      connectCallback_ w' = None ∧ readBuffer_ w' = readBuffer_ (wstate b) ∧
      (os w').1 = (os (wstate b)).1 ∧ rcbs (os w').2 !! cb = Some c).
Proof.
  intros (Hb & Hq & Hn & mask & Hh & Hmask & Hsame). set (w0 := set_locals _ (wstate b)). assert (Ha : alive w0 = true) by apply Hq.
  assert (Hl : rcbs (os w0).2 !! cb = Some c) by exact (lookup_insert_eq _ _ _).
  eapply wp_mono; [by apply (startRead_wp (Some cb) w0 fd mask)|].
  intros ? w' (h & -> & Hh').
  assert (Em : (if decide (readCallback_ w0 = Some cb) then mask else ensureRead mask) = READ).
  { case_decide as Hc; [by apply Hsame|]. by destruct Hmask as [-> | ->]. }
  rewrite Em in Hh'. split; [exact Hq|]. by repeat split.
Qed.

Lemma startRead_ok fd cb buf size b bss :
  can_read fd cb b → contents (readBuffer_ (wstate b)) bss → 0 ≤ size → (0 < size → bss = []) →
  wp (startRead (Some cb)) (set_locals (set_rcbs <[cb := mkReadCallback buf size 0 false None]>) (wstate b))
    (λ _ w', reading fd READ cb buf size w' [] bss None false ∧ (os w').1 = (os (wstate b)).1).
Proof.
  intros Hcan C Hsz Hbss. eapply wp_mono; [by apply (startRead_begins fd)|].
  intros ? w' (Hq & Hh & Hc & Hn & Hrb & Eo & Hl). split; [|done].
  split; try done; by rewrite ?Hrb, ?pasted_none.
Qed.

(** C7: a blocking [read] of [size] bytes, on a stream with nothing left in its buffer,
    returns if something always comes in the end (data, the end of the file, an error),
    after at most as many rounds as bytes.  It fills the first [n] bytes of the array with
    the first [n] bytes that arrived; [n] is [size], or less at the end of file.  What it
    took from the socket beyond that stays in the stream's buffer.  It throws when a
    [read(2)] failed. *)
Theorem blocking_reads fd rounds cb buf size b :
  can_read fd cb b → contents (readBuffer_ (wstate b)) [] → zlength buf = size → size < 2 ^ 63 →
  zlength (inbox fd (os (wstate b)).1) < W64 → (length (inbox fd (os (wstate b)).1) < fuel)%nat →
  arrives fd → size < Z.of_nat rounds →
  let stored (got : list byte) b' := after_read fd cb b' ∧ zlength got ≤ size ∧ ∃ bss,
    contents (readBuffer_ (wstate b')) bss ∧ (zlength got < size → bss = []) ∧
    inbox fd (os (wstate b)).1 = got ++ concat bss ++ inbox fd (os (wstate b')).1 in
  match read rounds cb buf size b with
  | Done (n, out) b' => ∃ got, stored got b' ∧ n = zlength got ∧
      out = pasted buf 0 (Some <$> got) ∧ (n < size → hit_eof fd (os (wstate b')).1)
  | Throws e b' => e = runtime_error "Read failed" ∧ hit_error fd (os (wstate b')).1 ∧ ∃ got, stored got b'
  | _ => False
  end.
Proof.
  intros Hcan C Hbuf Hsz Hbound Hfuel Harr Hk stored. unfold Blocking.read, with_local.
  pose proof (startRead_ok fd cb buf size b [] Hcan C ltac:(lia) ltac:(done)) as Hs.
  apply wp_iff in Hs as ([] & w1 & E1 & R1 & Eo).
  rewrite (bind_done _ _ _ tt (set_stream w1 b)) by (unfold on_stream, zoom; cbn [wstate set_stream]; by rewrite E1).
  pose proof (rounds_ok rounds fd cb buf size (set_stream w1 b) [] []) as Hr.
  cbn [wstate set_stream] in Hr. rewrite Eo in Hr.
  specialize (Hr ltac:(destruct Hcan as [[] _]; by split) R1 Hbuf ltac:(unfold is_u64, W64; lia)
    ltac:(simpl; lia) ltac:(done) Harr ltac:(simpl; lia)).
  apply wp_iff in Hr as ([] & b2 & E2 & Hb2 & got & bss & e & f & R2 & Eq & Hend).
  rewrite (bind_done _ _ _ _ _ E2).
  rewrite (bind_done _ _ _ (mkReadCallback (pasted buf 0 (Some <$> got)) size (zlength got) f e) b2).
  2:{ unfold on_stream, zoom, get_rcb. rewrite (rg_local _ _ _ _ _ _ _ _ _ _ R2). by destruct b2. }
  destruct R2 as [Rq Rh Rc Rn Rb Rl Rs Rd Re Rx].
  set (b3 := set_stream (set_locals (set_rcbs (delete cb)) (wstate b2)) b2).
  assert (Hstored : stored got b3).
  { split; [|split; [done|exists bss; split; [done|split; [done|exact Eq]]]].
    split; [destruct Hb2; by split|]. split; [exact Rq|]. split; [exact Rn|]. split; [exact Rh|].
    split; [exact Rc|]. cbn. apply lookup_delete_eq. }
  cbn [r_error_ nread_ Blocking.buffer_]. destruct e as [m|].
  - destruct (Rx m eq_refl) as [-> He]. cbn. by split; [|split; [|exists got]].
  - cbn. exists got. split; [exact Hstored|].
    assert (En : to_signed 64 (zlength got) = zlength got) by (apply to_signed_small; lia).
    split; [exact En|]. split; [done|]. rewrite En. intros Hlt. apply Re. by apply Hend.
Qed.

Lemma ready_readable w : alive w = true →
  ready READ w = readHelper (λ fd n, sys (xread fd n)) (λ fd, sys (geterror fd)) EAGAIN EWOULDBLOCK
    available read_error eof fuel w.
Proof.
  intros Ha. unfold ready, SockHandler_ready. change (isWrite READ) with false.
  change (isRead READ) with true. unfold when. rewrite (bind_done _ _ _ tt w) by done.
  rewrite (bind_done _ _ _ true w); [done|]. unfold this, get, mbind, M_bind. by rewrite Ha.
Qed.

(** Data arrives: what [available] is called with. *)
Lemma turn_available fd mask w bss bs s1 o :
  alive w = true → w_holds (handler_ w) fd mask → contents (readBuffer_ w) bss →
  xread fd read_size (os w).1 = (Some bs, s1) → bs ≠ [] → zlength (concat bss) + zlength bs < W64 →
  (∀ L, contents L (bss ++ [bs]) →
     (c ← this readCallback_; on_cb c available;;
      mret (if zlength bs <? read_size then inr tt else inl tt)) (set_readBuffer L (with_sys s1 w)) = o) →
  rturn tt w = o.
Proof.
  intros Ha Hh C E Hbs Hb Ho. unfold read_turn. apply bind_via. eapply wp_read_handler; [done|by eapply w_fd_ok|].
  apply bind_via, wp_sys. intros r s. rewrite E. intros [= <- <-].
  destruct (read_law fd read_size _ _ _ ltac:(done) E) as [_ Hs]. change (zlength bs ≤ read_size) in Hs.
  destruct bs as [|c bs]; [done|]. set (bs' := c :: bs) in *.
  apply bind_via. apply wp_this; [done|]. apply bind_via. eapply wp_done.
  { unfold zoom. cbn [readBuffer_ set_os].
    rewrite buf_append_new by (intros ?; by apply (contents_last _ bss)).
    by rewrite (proj2 (Z.leb_le _ _)) by lia. }
  apply (Ho _ (contents_snoc _ _ _ C Hb)).
Qed.

(** A blocking [read] does not look at what an earlier one left in the stream's
    buffer.  When nothing more arrives it waits for ever, even if all that it is asked
    for is there.  When something arrives that is more than the array has room for
    together with [rest], what was left, it writes behind the end of the array. *)
Theorem read_leftover fd rounds cb buf size b bss :
  can_read fd cb b → contents (readBuffer_ (wstate b)) bss → zlength buf = size → is_u64 size →
  match poll fd READ (os (wstate b)).1 with
  | None => read rounds cb buf size b = Diverges
  | Some (_, s1) => ∀ rest bs s2, bss = [rest] → xread fd read_size s1 = (Some bs, s2) →
      0 < zlength rest < size → size < zlength rest + zlength bs → zlength rest + zlength bs < W64 →
      (0 < rounds)%nat → (0 < fuel)%nat → read rounds cb buf size b = Faults OutOfBounds
  end.
Proof.
  intros Hcan C Hbuf Hsz. unfold Blocking.read, with_local.
  set (c := mkReadCallback buf size 0 false None).
  pose proof (startRead_begins fd cb c b Hcan) as Hs.
  apply wp_iff in Hs as ([] & w1 & E1 & Hq & Hh & Hc & Hn & Hrb & Eo & Hl).
  assert (Hstart : ∀ A (k : unit → M ebase A), (on_stream (startRead (Some cb)) ≫= k)
    (set_stream (set_locals (set_rcbs <[cb := c]>) (wstate b)) b) = k tt (set_stream w1 b)).
  { intros A k. rewrite (bind_done _ _ _ tt (set_stream w1 b)); [done|].
    unfold on_stream, zoom. cbn [wstate set_stream]. by rewrite E1. }
  assert (Hb : quiet (started (set_stream w1 b))) by (destruct Hcan as [[] _]; by split).
  destruct (turn_eq ONCE fd READ _ Hb ltac:(apply Hq) Hh ltac:(done)) as (q & _ & Et).
  rewrite decide_False in Et by done. cbn [wstate started set_finished set_thread set_stream] in Et.
  rewrite Eo in Et. destruct (poll fd READ (os (wstate b)).1) as [[ev s1]|] eqn:Hp.
  - intros rest bs s2 -> Er Hrest Hover Hmax Hk Hf.
    assert (ev = READ) as ->.
    { destruct (poll_law _ _ _ _ _ Hp) as (Hne & _ & Hr). destruct ev; [done|done| |]; by specialize (Hr eq_refl). }
    assert (Ef : rturn tt (with_sys s1 w1) = Faults OutOfBounds).
    { eapply (turn_available fd READ _ [rest] bs s2); [apply Hq|done|cbn; by rewrite Hrb|done| | |].
      - intros ->. simpl in Hover. lia.
      - simpl. rewrite app_nil_r. lia.
      - intros L CL. apply bind_via, wp_this; [apply Hq|]. cbn [readCallback_ set_readBuffer with_sys set_os].
        rewrite Hc. cbn [on_cb]. apply bind_faults. apply bind_via. eapply wp_get_rcb; [exact Hl|].
        cbn [nread_ Blocking.buffer_ size_ c]. rewrite Z.sub_0_r, u64_small, drop_0 by done.
        apply bind_faults. unfold zoom. cbn [readBuffer_ set_readBuffer]. unfold buf_read.
        pose proof CL as [FL _ _].
        rewrite (read_exts_overrun size _ _ _ 0 buf FL Hsz); [done|unfold is_u64 in Hsz; lia|done|].
        cbn [copy_exact app]. rewrite (proj2 (Z.ltb_lt 0 size)) by lia.
        rewrite (Z.min_r size (zlength rest)), Z.add_0_l by lia.
        rewrite (proj2 (Z.leb_le (zlength rest) size)) by lia. cbn [andb].
        rewrite (proj2 (Z.ltb_lt (zlength rest) size)) by lia.
        by rewrite (proj2 (Z.leb_gt _ _)) by lia. }
    rewrite ready_readable in Et by apply Hq. unfold readHelper in Et. destruct fuel as [|n]; [lia|].
    rewrite loop_S, (bind_faults _ _ _ _ Ef) in Et.
    destruct rounds as [|k]; [lia|]. rewrite Hstart, loop_S.
    rewrite (bind_faults _ _ _ OutOfBounds); [done|]. apply bind_faults. apply bind_faults.
    rewrite base_loop_unfold by done. rewrite loop_S. unfold mbind at 1, M_bind at 1. by rewrite Et.
  - rewrite Hstart. rewrite bind_diverges; [done|]. destruct rounds as [|k]; [done|].
    rewrite loop_S. apply bind_diverges, bind_diverges.
    rewrite base_loop_unfold by done. rewrite loop_S. unfold mbind at 1, M_bind at 1. by rewrite Et.
Qed.

(** *** After a [read] *)

Section after.
Context (sent : Z → Sys → list byte).
Context (write_law : ∀ fd (bs : list byte) s n s', zlength bs ≤ INT_MAX →
  xwrite fd (Some <$> bs) s = (n, s') →
  - 1 ≤ n ≤ zlength bs ∧ sent fd s' = sent fd s ++ take (Z.to_nat n) bs).
(** Reading with a callback that is gone: nothing to read, or undefined behaviour. *)
Definition dangling cb0 w bss : Prop :=
  readCallback_ w = Some cb0 ∧ rcbs (os w).2 !! cb0 = None ∧ connectCallback_ w = None ∧
  contents (readBuffer_ w) bss ∧ zlength (concat bss) + read_size < W64.

Lemma dangling_frame cb0 w w' bss :
  same_reading w w' → rcbs (os w').2 = rcbs (os w).2 → dangling cb0 w bss → dangling cb0 w' bss.
Proof. unfold dangling. intros [-> -> ->] ->. done. Qed.

Lemma read_dangling cb0 fd mask w bss :
  dangling cb0 w bss → alive w = true → w_holds (handler_ w) fd mask →
  rturn tt w = Faults UseAfterFree ∨ ∃ s, rturn tt w = Done (inr tt) (with_sys s w).
Proof.
  intros (Hc & Hd & _ & C & Hb) Ha Hh. destruct (xread fd read_size (os w).1) as [r s1] eqn:E.
  destruct (read_law fd read_size _ _ _ ltac:(done) E) as [_ Hs].
  assert (Hget : ∀ w', (os w').2 = (os w).2 → get_rcb cb0 w' = Faults UseAfterFree).
  { intros w' Eo. unfold get_rcb. by rewrite Eo, Hd. }
  destruct r as [[|x bs]|].
  - left. unfold read_turn. apply bind_via. eapply wp_read_handler; [done|by eapply w_fd_ok|].
    apply bind_via, wp_sys. intros r s. rewrite E. intros [= <- <-].
    apply bind_via, wp_this; [done|]. cbn [readCallback_ set_os]. rewrite Hc. cbn [on_cb].
    by apply bind_faults, bind_faults, Hget.
  - left. change (zlength (x :: bs) ≤ read_size) in Hs.
    eapply (turn_available fd mask w bss (x :: bs) s1); [done..|lia|].
    intros L CL. apply bind_via, wp_this; [done|]. cbn [readCallback_ set_readBuffer with_sys set_os].
    rewrite Hc. cbn [on_cb]. by apply bind_faults, bind_faults, Hget.
  - destruct (geterror fd s1) as [e s2] eqn:E2.
    assert (Eturn : rturn tt w = (if isReadRetryable EAGAIN EWOULDBLOCK e then mret (inr tt)
      else c ← this readCallback_; on_cb c (λ c, read_error c "Read failed");; mret (inr tt)) (with_sys s2 w)).
    { unfold read_turn. apply bind_via. eapply wp_read_handler; [done|by eapply w_fd_ok|].
      apply bind_via, wp_sys. intros r s. rewrite E. intros [= <- <-].
      apply bind_via. eapply wp_read_handler; [done|by eapply w_fd_ok|].
      apply bind_via, wp_sys. cbn [os set_os fst]. intros r s. rewrite E2. by intros [= <- <-]. }
    rewrite Eturn. destruct (isReadRetryable EAGAIN EWOULDBLOCK e); [right; by exists s2|left].
    apply bind_via, wp_this; [done|]. cbn [readCallback_ with_sys set_os]. rewrite Hc. cbn [on_cb].
    by apply bind_faults, bind_faults, Hget.
Qed.

Context (Hfuel : (1 < fuel)%nat).

(** [write] with a dangling callback: the request waits, or is sent. *)
Definition stuck fd mask cb cb0 bss w : Prop :=
  dangling cb0 w bss ∧
  ((mask = READ_WRITE ∧ ∃ r rest c, stream_is w fd mask (One r) [(rest, Some cb)] ∧
      wcbs (os w).2 !! cb = Some c) ∨ (mask = READ ∧ stream_is w fd mask Empty [])).

Lemma stuck_alive fd mask cb cb0 bss w : stuck fd mask cb cb0 bss w →
  alive w = true ∧ w_holds (handler_ w) fd mask ∧ mask ≠ NONE.
Proof. by intros (_ & [(-> & ? & ? & ? & ((? & _) & ? & _) & _)|(-> & ((? & _) & ? & _))]). Qed.

Lemma stuck_write fd mask cb cb0 bss w :
  stuck fd mask cb cb0 bss w → isWrite mask = true →
  wp (writeHelper NDEBUG (λ fd x, sys (xwrite fd x)) write_complete write_error fuel) w
    (λ _ w', ∃ mask', stuck fd mask' cb cb0 bss w').
Proof.
  intros (Hd & [(-> & r & rest & c & St & Hc)|[-> _]]) Hm; [|done].
  eapply wp_mono; [by eapply (write_event sent write_law Hfuel)|].
  intros ? w' (n & s' & _ & _ & _ & S1 & Hw). destruct (decide (n = zlength rest)) as [->|].
  - destruct Hw as [Eo St']. exists READ. split; [|right; by split].
    eapply dangling_frame; [exact S1| |exact Hd]. by rewrite Eo.
  - destruct Hw as [Eo St']. exists READ_WRITE. split.
    + eapply dangling_frame; [exact S1| |exact Hd]. rewrite Eo. by case_decide.
    + left. split; [done|]. rewrite Eo. cbn [snd].
      case_decide; eexists r, _, _; (split; [exact St'|]); [apply lookup_insert_eq|exact Hc].
Qed.

Lemma stuck_event fd mask cb cb0 bss w ev :
  stuck fd mask cb cb0 bss w → (isWrite ev = true → isWrite mask = true) →
  ready ev w = Faults UseAfterFree ∨
  ∃ w' mask', ready ev w = Done tt w' ∧ stuck fd mask' cb cb0 bss w'.
Proof.
  intros St Hev. assert (Hw : wp (when (isWrite ev) (c ← this connectCallback_;
      when (bool_decide (c ≠ None)) (connectHelper NDEBUG (λ fd, sys (getsockopt fd)) no_connect (λ c _, no_connect c));;
      this alive;; writeHelper NDEBUG (λ fd x, sys (xwrite fd x)) write_complete write_error fuel)) w
    (λ _ w', ∃ mask', stuck fd mask' cb cb0 bss w')).
  { destruct (stuck_alive _ _ _ _ _ _ St) as (Ha & _ & _). apply wp_when; [intros Hw|by exists mask].
    wp_step. apply wp_this; [done|]. pose proof St as ((_ & _ & -> & _) & _).
    rewrite bool_decide_false by (intros Hx; by apply Hx). unfold when. wp_step. wp_step. wp_step.
    apply wp_this; [done|]. apply (stuck_write _ mask); auto. }
  apply wp_iff in Hw as ([] & w1 & E & mask1 & St1).
  assert (Er : ready ev w = when (isRead ev) (this alive;; readHelper (λ fd n, sys (xread fd n)) (λ fd, sys (geterror fd))
    EAGAIN EWOULDBLOCK available read_error eof fuel) w1) by (unfold ready, SockHandler_ready; exact (bind_done _ _ _ _ _ E)).
  rewrite Er. destruct (stuck_alive _ _ _ _ _ _ St1) as (Ha & Hh & _).
  destruct (isRead ev); cbn [when]; [|right; by exists w1, mask1].
  rewrite (bind_done _ _ _ true w1) by (unfold this, get, mbind, M_bind; by rewrite Ha).
  unfold readHelper. destruct fuel as [|n]; [lia|]. rewrite loop_S.
  destruct (read_dangling cb0 fd mask1 w1 bss ltac:(apply St1) Ha Hh) as [E1|[s E1]].
  - left. by apply bind_faults.
  - right. rewrite (bind_done _ _ _ _ _ E1). eexists _, mask1. split; [done|exact St1].
Qed.

Lemma stuck_for_ever turns fd mask cb cb0 bss b :
  quiet b → stuck fd mask cb cb0 bss (wstate b) →
  Prelude.loop turns (turn UNTIL_EMPTY) tt b = Diverges ∨
  Prelude.loop turns (turn UNTIL_EMPTY) tt b = Faults UseAfterFree.
Proof.
  revert b mask. induction turns as [|turns IH]; intros b mask Hb St; [by left|].
  destruct (stuck_alive _ _ _ _ _ _ St) as (Ha & Hh & Hm).
  destruct (turn_eq UNTIL_EMPTY fd mask b Hb Ha Hh ltac:(done)) as (q & Hq & E).
  rewrite decide_False in E by done. rewrite loop_S.
  destruct (poll fd mask _) as [[ev s]|] eqn:Hp; [|left; by apply bind_diverges].
  destruct (poll_law _ _ _ _ _ Hp) as (_ & _ & Hev).
  destruct (stuck_event fd mask cb cb0 bss (with_sys s (wstate b)) ev St Hev) as [Er|(w' & mask' & Er & St')];
    rewrite Er in E; [right; by apply bind_faults|].
  rewrite (bind_done _ _ _ _ _ E). apply (IH _ mask'); [|done].
  destruct Hb. by split.
Qed.

(** A stream that was read from is not fit for anything but more reading.  A blocking
    [write] on it never returns and never throws: the descriptor stays watched for
    reading, so that the loop is never empty, and what arrives is reported to a callback
    that is gone.  Destroying the stream with [auto_close] calls that callback, too. *)
Theorem after_read_unusable fd turns cb cb0 bss bs b :
  after_read fd cb0 b → contents (readBuffer_ (wstate b)) bss → zlength (concat bss) + read_size < W64 →
  bs ≠ [] → zlength bs ≤ INT_MAX → zlength bs ≤ max_new →
  (write turns cb (Some <$> bs) (zlength bs) b = Diverges ∨
   write turns cb (Some <$> bs) (zlength bs) b = Faults UseAfterFree) ∧
  BlockingStreamImpl_delete fuel xclose true b = Faults UseAfterFree.
Proof.
  intros (Hb & Hq & Hn & Hh & Hc & Hd) C Hbound Hne Hmax Hm. split.
  - set (w0 := set_locals (set_wcbs <[cb := mkWriteCallback None false]>) (wstate b)).
    assert (St0 : stream_is w0 fd READ Empty []) by (split; [exact Hq|split; [exact Hh|constructor]]).
    pose proof (write_wp NDEBUG bs (Some cb) w0 fd READ Empty [] St0 ltac:(by left) Hne Hmax Hm) as Hw.
    apply wp_iff in Hw as ([] & w1 & E1 & qs & [= <-] & S1 & Eo & St1).
    change w0 with (set_locals (set_wcbs <[cb := mkWriteCallback None false]>) (wstate b)) in E1.
    assert (Hs : stuck fd READ_WRITE cb cb0 bss w1).
    { split.
      - eapply (dangling_frame _ w0); [exact S1|by rewrite Eo|]. by split_and!.
      - left. split; [done|]. eexists _, _, _. split; [exact St1|]. rewrite Eo. exact (lookup_insert_eq _ _ _). }
    destruct (stuck_for_ever turns fd READ_WRITE cb cb0 bss (started (set_stream w1 b)) Hb Hs) as [El|El];
      [left|right]; unfold Blocking.write, with_local;
      (rewrite (bind_done _ _ _ tt (set_stream w1 b))
        by (unfold on_stream, zoom; cbn [wstate set_stream]; by rewrite E1));
      unfold mbind at 1, M_bind at 1; rewrite base_loop_unfold by done; by rewrite El.
  - unfold BlockingStreamImpl_delete, when. apply bind_faults. unfold on_stream, zoom.
    assert (Ef : Stream.close (λ fd, sys (xclose fd)) eof (λ c _, no_connect c) (wstate b) = Faults UseAfterFree).
    { unfold Stream.close. apply bind_via, wp_this; [apply Hq|]. rewrite Hc. cbn [on_cb].
      apply bind_faults, bind_faults. unfold get_rcb. by rewrite Hd. }
    by rewrite Ef.
Qed.
End after.
End read.
End props.

(** ** Witnesses *)

Section demo.
#[local] Instance demo_watch : Watch := plain_watch.
#[local] Existing Instance demo_alloc.
#[local] Instance demo_fifo : Fifo (op Empty_set) := list_fifo _.
Abbreviation dbase := (EventLoop.base Empty_set (Stream.world (wire * locals))).

Definition demo_ready (wr : Z → list cell → wire → Z * wire) (ev : What) :
    M (Stream.world (wire * locals)) unit :=
  Blocking.ready false 9 wire_read wr wire_ok wire_getsockopt 11 11 ev.
(** libevent's loop, of a descriptor. *)
Definition demo_loop (closed : bool) (wr : Z → list cell → wire → Z * wire) : M dbase Z := λ b,
  let '(fd, mask) := handler_ (wstate b) in
  if decide (mask = NONE) then Done 1 b
  else match wire_poll closed fd mask (os (wstate b)).1 with
       | None => Diverges
       | Some (ev, s) => (on_stream (demo_ready wr ev);; mret 0) (set_stream (with_sys s (wstate b)) b)
       end.

Lemma demo_dispatches closed wr :
  dispatches false 9 wire_read wr wire_ok wire_getsockopt 11 11 (demo_loop closed wr) (wire_poll closed).
Proof. intros b fd mask _ Hh. unfold demo_loop. by rewrite Hh. Qed.
Lemma demo_polls closed : polls (wire_poll closed).
Proof. intros fd mask s ev s'. unfold wire_poll. destruct mask; simpl; try case_match; by intros [= <- <-]. Qed.

(** A new stream, on which [inb] arrives; and one with [abc] left in its buffer. *)
Definition demo_base (inb : list byte) : dbase :=
  (BlockingStreamImpl_new (F := demo_fifo) [] PIPE (3, 4) ((5, NONE) : hstate) (inb, []) false).1.
Definition demo_left (inb : list byte) : dbase :=
  set_stream (set_readBuffer (mkBuf [filled (bytes "abc")] 3) (wstate (demo_base inb))) (demo_base inb).

Lemma demo_idle inb : idle (F := demo_fifo) 5 (demo_base inb).
Proof.
  split; [done|]. split; [|done]. split; [|split; [done|constructor]].
  split; [done|]. split; [|done]. intros r [? ?]. done.
Qed.
Lemma demo_can_read inb cb : can_read (F := demo_fifo) 5 cb (demo_base inb).
Proof.
  split; [done|]. split; [apply (demo_idle inb)|]. split; [done|]. exists NONE. split; [done|].
  split; [by left|]. done.
Qed.

Definition hello : list byte := bytes "hello".

Lemma write_sends_witness :
  ∃ b', Blocking.write (F := demo_fifo) false 1%N (demo_loop false (wire_write 2)) (mret tt) (mret 0) (mret 0)
      9 7%N (Some <$> hello) 5 (demo_base []) = Done tt b' ∧ (os (wstate b')).1.2 = hello ∧ idle 5 b'.
Proof.
  pose proof (write_sends (F := demo_fifo) false 1%N 9 wire_read (wire_write 2) wire_ok wire_getsockopt 11 11
    (demo_loop false (wire_write 2)) (mret tt) (mret 0) (mret 0) (wire_poll false)
    (demo_dispatches false _) (demo_polls false) wire_sent
    (λ fd bs s n s', wire_write_law 2 fd bs s n s' ltac:(done))
    ltac:(intros fd mask s ev s'; unfold wire_poll; repeat case_match; by intros [= <- <-]) ltac:(lia)
    5 9 7%N hello (demo_base []) (demo_idle []) ltac:(vm_compute; discriminate) ltac:(vm_compute; discriminate)
    ltac:(vm_compute; discriminate)) as T.
  assert (Hw : writable (wire_write 2) (wire_poll false) 5).
  { clear. intros s bs Hbs _. unfold wire_write. simpl. rewrite length_fmap. destruct bs; [done|simpl; lia]. }
  change (zlength hello) with 5 in T.
  destruct (Blocking.write _ _ _ _ _ _ _ _ _ _ _) as [[] b'|e b'|f|].
  - exists b'. destruct T as (Hi & _ & Hs & _). by split_and!.
  - destruct T as (_ & _ & Hn). by destruct Hn.
  - done.
  - specialize (T Hw). simpl in T. lia.
Defined.

Lemma write_failure_hangs_witness :
  Blocking.write (F := demo_fifo) false 1%N (demo_loop false bad_write) (mret tt) (mret 0) (mret 0)
    1000 7%N (Some <$> hello) 5 (demo_base []) = Diverges.
Proof.
  apply (write_failure_hangs (F := demo_fifo) false 1%N 9 wire_read bad_write wire_ok wire_getsockopt 11 11
    (demo_loop false bad_write) (mret tt) (mret 0) (mret 0) (wire_poll false)
    (demo_dispatches false _) (demo_polls false) wire_sent) with (bs := hello) (fd := 5).
  - intros fd bs s n s' _ [= <- <-]. split; [split; lia|]. by rewrite app_nil_r.
  - lia.
  - apply demo_idle.
  - vm_compute. discriminate.
  - vm_compute. discriminate.
  - vm_compute. discriminate.
  - by intros s bs _ _.
Defined.

Lemma blocking_reads_witness :
  ∃ b' out, Blocking.read (F := demo_fifo) false 1%N (demo_loop true (wire_write 2)) (mret tt) (mret 0) (mret 0)
      9 7%N (replicate 4 None) 4 (demo_base hello) = Done (4, out) b' ∧ out = Some <$> bytes "hell".
Proof.
  pose proof (blocking_reads (F := demo_fifo) false 1%N 9 wire_read (wire_write 2) wire_ok wire_getsockopt 11 11
    (demo_loop true (wire_write 2)) (mret tt) (mret 0) (mret 0) (wire_poll true)
    (demo_dispatches true _) (demo_polls true) wire_inbox wire_read_law
    ltac:(by intros ? ? ? ? [= <- <-])
    ltac:(intros fd mask s ev s'; unfold wire_poll; repeat case_match; by intros [= <- <-]) ltac:(vm_compute; discriminate)
    5 9 7%N (replicate 4 None) 4 (demo_base hello) (demo_can_read hello 7%N) contents_empty
    eq_refl eq_refl eq_refl ltac:(simpl; lia)
    ltac:(intros s; simpl; by intros (? & ? & _)) ltac:(done)) as T.
  cbv zeta in T. destruct (Blocking.read _ _ _ _ _ _ _ _ _ _ _) as [[n out] b'|e b'|f|]; [| |done..].
  - destruct T as (got & (_ & Hl & bss & _ & Hbss & Ein) & -> & -> & Hend). exists b'.
    change (hello = got ++ concat bss ++ (os (wstate b')).1.1) in Ein.
    assert (E4 : zlength got = 4).
    { destruct (decide (zlength got < 4)) as [Hlt|]; [|lia]. exfalso.
      destruct (Hend Hlt) as [s Es]. unfold wire_read in Es. injection Es as Es Es'.
      rewrite (Hbss Hlt), <- Es' in Ein. cbn [fst concat app] in Ein.
      apply (f_equal length) in Ein, Es. rewrite length_app, length_drop in Ein. rewrite length_take in Es.
      change (length hello) with 5%nat in Ein. change (length (@nil byte)) with 0%nat in Es. clear -Hlt Ein Es. unfold read_size in *. lia. }
    eexists. split; [by rewrite E4|]. assert (got = bytes "hell") as ->; [|done].
    apply (f_equal (take (length got))) in Ein. rewrite take_app_length in Ein. rewrite <- Ein.
    by replace (length got) with 4%nat by lia.
  - destruct T as (_ & (s & s1 & x & Es & _) & _). done.
Defined.

Lemma demo_left_contents : contents (mkBuf [filled (bytes "abc")] 3) [bytes "abc"].
Proof. by apply (contents_snoc empty_buf [] (bytes "abc") contents_empty). Qed.

Lemma demo_left_can_read inb cb : can_read (F := demo_fifo) 5 cb (demo_left inb).
Proof. exact (demo_can_read inb cb). Qed.

(** Two bytes are asked for, and three are there; five are asked for, and two are missing. *)
Lemma read_leftover_witness :
  Blocking.read (F := demo_fifo) false 1%N (demo_loop false (wire_write 2)) (mret tt) (mret 0) (mret 0)
    9 7%N (replicate 2 None) 2 (demo_left []) = Diverges ∧
  Blocking.read (F := demo_fifo) false 1%N (demo_loop false (wire_write 2)) (mret tt) (mret 0) (mret 0)
    9 7%N (replicate 5 None) 5 (demo_left (bytes "wxyz")) = Faults OutOfBounds.
Proof.
  pose proof (read_leftover (F := demo_fifo) false 1%N 9 wire_read (wire_write 2) wire_ok wire_getsockopt 11 11
    (demo_loop false (wire_write 2)) (mret tt) (mret 0) (mret 0) (wire_poll false)
    (demo_dispatches false _) (demo_polls false) wire_inbox wire_read_law
    ltac:(vm_compute; discriminate) 5 9 7%N) as T.
  split.
  - exact (T (replicate 2 None) 2 (demo_left []) [bytes "abc"] (demo_left_can_read [] 7%N) demo_left_contents
      eq_refl ltac:(by split)).
  - exact (T (replicate 5 None) 5 (demo_left (bytes "wxyz")) [bytes "abc"] (demo_left_can_read _ 7%N)
      demo_left_contents eq_refl ltac:(by split) (bytes "abc") (bytes "wxyz") ([], []) eq_refl eq_refl
      ltac:(by split) eq_refl eq_refl ltac:(lia) ltac:(lia)).
Defined.

(** The stream after a [read]: watched, with a callback that is gone. *)
Definition demo_used : dbase :=
  set_stream (set_handler ((5, READ) : hstate) (set_readCallback (Some 6%N) (wstate (demo_base []))))
    (demo_base []).

Lemma demo_after_read : after_read (F := demo_fifo) 5 6%N demo_used.
Proof.
  split; [done|]. split; [|by split_and!].
  split; [done|]. split; [|done]. intros r [? ?]. done.
Qed.

Lemma after_read_unusable_witness :
  (Blocking.write (F := demo_fifo) false 1%N (demo_loop false (wire_write 2)) (mret tt) (mret 0) (mret 0)
     9 7%N (Some <$> hello) 5 demo_used = Diverges ∨
   Blocking.write (F := demo_fifo) false 1%N (demo_loop false (wire_write 2)) (mret tt) (mret 0) (mret 0)
     9 7%N (Some <$> hello) 5 demo_used = Faults UseAfterFree) ∧
  BlockingStreamImpl_delete (F := demo_fifo) 9 wire_ok true demo_used = Faults UseAfterFree.
Proof.
  apply (after_read_unusable (F := demo_fifo) false 1%N 9 wire_read (wire_write 2) wire_ok wire_ok wire_getsockopt 11 11
    (demo_loop false (wire_write 2)) (mret tt) (mret 0) (mret 0) (wire_poll false)
    (demo_dispatches false _) (demo_polls false) wire_inbox wire_read_law
    ltac:(vm_compute; discriminate) wire_sent
    (λ fd bs s n s', wire_write_law 2 fd bs s n s' ltac:(done)) ltac:(lia) 5 9 7%N 6%N [] hello demo_used).
  - exact demo_after_read.
  - exact contents_empty.
  - done.
  - vm_compute. discriminate.
  - vm_compute. discriminate.
  - vm_compute. discriminate.
Defined.
End demo.
