(* ===== verification/Echo.v ===== *)
(** * The echo server

    [src/example/echo-server.cc] (under [src/example/]): a connection is a stream with
    two callbacks, which writes back what it reads; it destroys itself when the peer
    closes its end, or on an error.  The state is that of the stream, whose client has
    the rest of the connection and [stderr].  The callbacks are members of the
    connection, so that a call through a pointer to one that is gone is undefined.

    [main] is in [EchoMain.v]. *)

From S2P Require Import Prelude What Extent BufferModel Watch Stream.

(** [Connection], but for its stream; and what was printed. *)
Record Connection := mkConnection {
  conn_alive : bool;
  stderr : list string;
}.

(** The addresses of its members [write_cb] and [read_cb]. *)
Definition write_cb : N := 1.
Definition read_cb : N := 2.

Section echo.
Context `{Watch} `{Allocator} {Sys : Type} (NDEBUG : bool) (fuel : nat).
Abbreviation world := (Stream.world (Sys * Connection)).

Context (xread : Z → Z → Sys → option (list byte) * Sys) (xwrite : Z → list cell → Sys → Z * Sys).
Context (xclose geterror : Z → Sys → Z * Sys) (getsockopt : Z → Sys → (Z * Z) * Sys).
Context (EAGAIN EWOULDBLOCK : Z).

Definition set_conn (c : Connection) (w : world) : world := set_os ((os w).1, c) w.

(** The pointer [conn_] of a callback that is alive. *)
Definition conn_ : M world Connection :=
  w ← get; if conn_alive (os w).2 then mret (os w).2 else fail UseAfterFree.
Definition fprintf (s : string) : M world unit :=
  modify (λ w, set_conn (mkConnection (conn_alive (os w).2) (stderr (os w).2 ++ [s])) w).

(** Nothing connects here. *)
Definition no_connect (cb : N) : M world unit := fail UseAfterFree.

(** [~Connection], and the members' destructors.  [close] may call [eof] of the read
    callback, which deletes the connection: [eof] ties that knot. *)
Definition Connection_destroy (eof : N → M world unit) : M world unit :=
  conn_;;
  stopRead NDEBUG;;
  Stream.close (λ fd, sys (xclose fd)) eof (λ c _, no_connect c);;
  modify (λ w, set_conn (mkConnection false (stderr (os w).2)) w);;
  StreamImpl_delete fuel.
Fixpoint Connection_delete (depth : nat) : M world unit :=
  match depth with
  | O => diverge
  | S depth => Connection_destroy (λ _, Connection_delete depth)
  end.

(** One nested call would be enough: [~Connection] takes the callback away first. *)
Definition delete_conn : M world unit := Connection_delete 2.

(** ** The callbacks *)

Definition EchoWriteCallback_complete (cb : N) : M world unit := conn_;; mret tt.
Definition EchoWriteCallback_error (cb : N) (e : string) : M world unit :=
  conn_;; fprintf ("While writing: " ++ e);; delete_conn.
Definition EchoReadCallback_eof (cb : N) : M world unit := conn_;; delete_conn.
(** The stream passes its [readBuffer_]. *)
Definition EchoReadCallback_available (cb : N) : M world unit :=
  conn_;;
  o ← this readBuffer_;
  o' ← write_buffer NDEBUG o (Some write_cb);
  set_this (set_readBuffer o').
Definition EchoReadCallback_error (cb : N) (e : string) : M world unit :=
  conn_;; fprintf ("While reading: " ++ e);; delete_conn.

(** What libevent runs for the events of the connection. *)
Definition ready (event : What) : M world unit :=
  SockHandler_ready NDEBUG (λ fd n, sys (xread fd n)) (λ fd b, sys (xwrite fd b))
    (λ fd, sys (geterror fd)) (λ fd, sys (getsockopt fd)) EAGAIN EWOULDBLOCK
    EchoWriteCallback_complete EchoWriteCallback_error
    EchoReadCallback_available EchoReadCallback_error EchoReadCallback_eof
    no_connect (λ c _, no_connect c) fuel event.

(** [Connection::Connection], over a handler for the descriptor. *)
Definition Connection_new (h : hstate) (s : Sys) : world := wrapFd h (s, mkConnection true []).

(** [acceptCb]: the new connection reads. *)
Definition acceptCb (h : hstate) (s : Sys) : outcome world unit :=
  startRead (Some read_cb) (Connection_new h s).
End echo.
