(* ===== verification/EchoProps.v ===== *)
(** * The echo server: its theorems

    For a system whose calls obey the rules of [write(2)] and [read(2)]: [inbox] is all
    that the peer will ever send and that is not read yet, [sent] what was written
    back.  Nothing is made up, duplicated or reordered while a connection lives, and
    nothing is lost as long as no event reads more than there is [room] for; a third
    message in one call of [readHelper] takes the place of the second ([echo_loses]).
    When the connection ends it gives back what it had.  But it stops for good once a
    second message arrives before the first has been sent back. *)

From S2P Require Import Prelude What Extent BufferModel BufferSpec Watch Stream StreamSpec StreamTurn Wire Echo.

(** ** The states of a connection *)

(** What is watched, and what is queued: idle; one message to send back; two; the second
    of two; and stopped, with nothing watched. *)
Inductive phase : What → qstate → Prop :=
| Idle : phase READ Empty
| Sending r : phase READ_WRITE (One r)
| SendingTwo r s : phase WRITE (Two r s)
| SendingLast r s : phase WRITE (Behind r s)
| Stopped : phase NONE Empty.

Lemma phase_after mask qs i k n :
  phase mask qs → length (linked qs) = n → (i + k = n)%nat →
  phase (if decide (n ≠ 0%nat ∧ k = 0%nat) then removeWrite mask else mask) (Nat.iter i consumed_front qs).
Proof.
  intros P Hn Hk. destruct P; simpl in Hn; subst n.
  - assert (i = 0%nat) as -> by lia. rewrite decide_False by lia. constructor.
  - destruct i as [|[|]]; [rewrite decide_False by lia|rewrite decide_True by lia|lia]; constructor.
  - destruct i as [|[|[|]]]; [rewrite decide_False by lia|rewrite decide_False by lia|rewrite decide_True by lia|lia]; constructor.
  - destruct i as [|[|]]; [rewrite decide_False by lia|rewrite decide_True by lia|lia]; constructor.
  - assert (i = 0%nat) as -> by lia. rewrite decide_False by lia. constructor.
Qed.

(** The requests of [ds'], told apart from those of other clients by their callbacks. *)
Lemma ours (ds : list (list byte)) (ds' : list (list byte * option N)) i :
  ds'.*2 = drop i ((λ bs, (bs, Some write_cb)) <$> ds).*2 →
  ds' = (λ bs, (bs, Some write_cb)) <$> ds'.*1.
Proof.
  intros E. assert (F : Forall (λ c, c = Some write_cb) ds'.*2).
  { rewrite E. apply Forall_drop. rewrite <- list_fmap_compose. apply Forall_fmap. by apply Forall_true. }
  apply Forall_fmap in F. clear E. induction F as [|[bs c] ds' E F IH]; [done|]. simpl in *. subst c. by f_equal.
Qed.
Lemma ours_concat (ds : list (list byte)) :
  concat ((λ bs, (bs, Some write_cb)) <$> ds).*1 = concat ds.
Proof. rewrite <- list_fmap_compose. f_equal. rewrite <- (list_fmap_id ds) at 2. done. Qed.

Section props.
Context `{Watch} `{Allocator} {Sys : Type} (NDEBUG : bool) (fuel : nat).
Abbreviation world := (Stream.world (Sys * Connection)).
Implicit Types w : world.
Context (xread : Z → Z → Sys → option (list byte) * Sys) (xwrite : Z → list cell → Sys → Z * Sys).
Context (xclose geterror : Z → Sys → Z * Sys) (getsockopt : Z → Sys → (Z * Z) * Sys).
Context (EAGAIN EWOULDBLOCK : Z).

Abbreviation ready :=
  (ready NDEBUG fuel xread xwrite xclose geterror getsockopt EAGAIN EWOULDBLOCK).
Abbreviation delete_conn := (delete_conn NDEBUG fuel xclose).
Abbreviation available := (EchoReadCallback_available NDEBUG).
Abbreviation rturn := (read_turn (λ fd n, sys (xread fd n)) (λ fd, sys (geterror fd)) EAGAIN EWOULDBLOCK
  available (EchoReadCallback_error NDEBUG fuel xclose) (EchoReadCallback_eof NDEBUG fuel xclose)).
Abbreviation writes := (writeHelper NDEBUG (λ fd x, sys (xwrite fd x)) EchoWriteCallback_complete
  (EchoWriteCallback_error NDEBUG fuel xclose) fuel).

(** A connection that lives, with the messages [ds] to send back. *)
Record echoing fd mask qs (ds : list (list byte)) w : Prop := {
  ec_phase : phase mask qs;
  ec_stream : stream_is w fd mask qs ((λ bs, (bs, Some write_cb)) <$> ds);
  ec_read : readCallback_ w = Some read_cb;
  ec_connect : connectCallback_ w = None;
  ec_buffer : contents (readBuffer_ w) [];
  ec_alive : conn_alive (os w).2 = true;
}.

(** *** Its end *)

Lemma wp_conn_ w (Q : Connection → world → Prop) :
  conn_alive (os w).2 = true → Q (os w).2 w → wp conn_ w Q.
Proof. intros Ha HQ. unfold conn_, wp, mbind, M_bind, get. by rewrite Ha. Qed.

(** The connection is destroyed: its descriptor is closed and not watched, and its
    requests are freed; [s] is the system before the call of [close]. *)
Definition gone fd qs s out w w' : Prop :=
  alive w' = false ∧ w_holds (handler_ w') fd NONE ∧
  os w' = (if decide (fd = -1) then s else (xclose fd s).2, mkConnection false out) ∧
  ∀ k, heap w' !! k = if decide (k ∈ linked qs) then None else heap w !! k.

Lemma delete_conn_ok fd mask qs w :
  queue_is w qs → w_holds (handler_ w) fd mask → connectCallback_ w = None →
  conn_alive (os w).2 = true → (2 < fuel)%nat →
  wp delete_conn w (λ _ w', gone fd qs (os w).1 (stderr (os w).2) w w').
Proof.
  intros Hq Hh Hn Hc Hf. unfold Echo.delete_conn. cbn [Connection_delete]. unfold Connection_destroy at 1.
  pose proof (queue_alive _ _ Hq) as Ha. wp_step. apply wp_conn_; [done|]. wp_step.
  eapply wp_mono; [by apply (stopRead_wp NDEBUG w fd mask)|]. intros ? w1 (h & -> & Hh1). wp_step.
  unfold Stream.close. wp_step. apply wp_this; [done|]. cbn [readCallback_ set_readCallback set_handler on_cb].
  wp_step. wp_step. wp_step. apply wp_this; [done|]. cbn [connectCallback_ set_readCallback set_handler].
  rewrite Hn. cbn [on_cb]. wp_step. wp_step.
  eapply wp_mono; [by eapply close_tail_wp|]. intros ? w2 (h2 & Hh2 & ->). wp_step. wp_step. cbv beta.
  eapply wp_mono; [eapply (delete_wp fuel _ qs fd NONE); [|done|done]|].
  { by eapply (queue_is_ext w). }
  intros ? w' (Ha' & Hh' & Eo & Hk). split; [done|]. split; [done|]. split; [by rewrite Eo|]. exact Hk.
Qed.

(** ** The system *)

Context (sent inbox : Z → Sys → list byte).
Context (write_law : ∀ fd (bs : list byte) s n s', zlength bs ≤ INT_MAX →
  xwrite fd (Some <$> bs) s = (n, s') →
  - 1 ≤ n ≤ zlength bs ∧ sent fd s' = sent fd s ++ take (Z.to_nat n) bs).
Context (write_inbox : ∀ fd x s n s', xwrite fd x s = (n, s') → inbox fd s' = inbox fd s).
Context (read_law : ∀ fd size s r s', 0 ≤ size → xread fd size s = (r, s') →
  inbox fd s = default [] r ++ inbox fd s' ∧ zlength (default [] r) ≤ size ∧ sent fd s' = sent fd s).
Context (errno_law : ∀ fd s e s', geterror fd s = (e, s') →
  inbox fd s' = inbox fd s ∧ sent fd s' = sent fd s).
Context (Hnew : read_size ≤ max_new) (Hfuel : (2 < fuel)%nat).

(** All that was sent back, will be, and is still to arrive. *)
Definition traffic fd (ds : list (list byte)) (s : Sys) : list byte :=
  sent fd s ++ concat ds ++ inbox fd s.

(** *** Sending back *)

(** The messages [ds] are given to [write(2)]; the last call of it fails, or none. *)
Definition flushed fd s (ds : list (list byte)) s' (failed : bool) : Prop :=
  ∃ ds' i, flushes xwrite fd s ((λ bs, (bs, Some write_cb)) <$> ds) s' ds' i failed.

(** Some write fails. *)
Definition write_fails fd : Prop := ∃ bs s, bs ≠ [] ∧ (xwrite fd (Some <$> bs) s).1 < 0.

Lemma write_part fd mask qs ds w :
  echoing fd mask qs ds w →
  wp writes w (λ _ w', 
    (∃ i ds', echoing fd (if decide (ds ≠ [] ∧ ds' = []) then removeWrite mask else mask)
        (Nat.iter i consumed_front qs) ds' w' ∧
      traffic fd ds' (os w').1 = traffic fd ds (os w).1 ∧ inbox fd (os w').1 = inbox fd (os w).1 ∧
      stderr (os w').2 = stderr (os w).2 ∧
      ((∀ bs s, bs ≠ [] → 1 ≤ (xwrite fd (Some <$> bs) s).1) → ds ≠ [] →
         (length (concat ds') < length (concat ds))%nat) ∧
      (ds ≠ [] → ∃ x s, 0 ≤ (xwrite fd x s).1) ∧
      flushed fd (os w).1 ds (os w').1 false) ∨
    write_fails fd ∧ (∃ s, flushed fd (os w).1 ds s true) ∧ ∃ w1 qs' s, queue_is w1 qs' ∧
      gone fd qs' s (stderr (os w).2 ++ ["While writing: Write failed"]) w1 w').
Proof.
  intros [P St Hr Hn C Ha]. pose proof St as (Hq & Hh & F).
  unfold writeHelper. wp_step. apply wp_this; [by eapply queue_alive|].
  rewrite (queue_head _ _ Hq). wp_step.
  eapply wp_mono; [apply (write_loop_wp NDEBUG xwrite sent write_law EchoWriteCallback_complete
    (λ _ l, l) (λ k, conn_alive k.2 = true ∧ inbox fd k.1 = inbox fd (os w).1)); [| |by split|exact St|]|].
  - intros c w0 [Hc Hi]. unfold EchoWriteCallback_complete.
    rewrite (bind_done _ _ _ (os w0).2 w0) by (unfold conn_, get, mbind, M_bind; by rewrite Hc).
    split; [by destruct w0 as [???????? []]|done].
  - intros x s l n s' [Hc Hi] E. split; [done|]. cbn [fst] in *. rewrite <- Hi. by eapply write_inbox.
  - rewrite <- (Forall2_length _ _ _ F). destruct P; simpl; lia.
  - intros r w1 (S1 & i & s' & qs' & ds' & (out & Es & Eds & Ecb & El & _ & Eout) & Hfs & Eo & [Hc1 Hi1] & -> & St1 & Hr1 & Hfl & Hok).
    rewrite noted_id in Eo by done. rewrite length_fmap in El. rewrite ours_concat in Eds.
    set (dd := ds'.*1) in *. assert (Edd : ds' = (λ bs, (bs, Some write_cb)) <$> dd) by by eapply ours.
    assert (Hdd : ∀ ds0 : list (list byte), ((λ bs, (bs, Some write_cb)) <$> ds0 = []) ↔ ds0 = []) by by intros [].
    assert (Hnil : ds' = [] ↔ dd = []) by (unfold dd; by destruct ds').
    rewrite (decide_ext _ (ds ≠ [] ∧ dd = [])) in St1 by (rewrite Hdd, Hnil; done).
    assert (P1 : phase (if decide (ds ≠ [] ∧ dd = []) then removeWrite mask else mask) (Nat.iter i consumed_front qs)).
    { pose proof (phase_after mask qs i (length ds') (length ds) P) as Pa.
      rewrite (decide_ext _ (length ds ≠ 0 ∧ length ds' = 0)%nat).
      - apply Pa; [|done]. rewrite (Forall2_length _ _ _ F). apply length_fmap.
      - rewrite <- Hnil. rewrite !length_zero_iff_nil. done. }
    destruct r as [req failed]. cbn [fst snd] in *. destruct failed.
    + destruct (Hfl eq_refl) as [Hne Hf]. rewrite Hr1. pose proof St1 as (Hq1 & Hh1 & F1).
      destruct ds' as [|[bs cb] ds']; [done|]. inversion F1 as [|r0 ? rs ? (q & Hrq & Hcb & _) _ Hl0]; subst.
      injection Edd as -> _. cbn [list.head]. wp_step. eapply wp_get_req; [exact Hrq|]. rewrite Hcb. cbn [snd on_cb].
      unfold EchoWriteCallback_error. wp_step. apply wp_conn_; [done|]. wp_step. unfold fprintf. wp_step.
      eapply wp_mono; [eapply (delete_conn_ok fd _ (Nat.iter i consumed_front qs)); [exact Hq1|exact Hh1| |done|done]|].
      { cbn. by rewrite (rd_conncb _ _ S1). }
      intros ? w' Hg. right. split; [done|]. split; [by eexists _, _, _|]. rewrite Eo in Hg. eexists _, _, _. split; [|exact Hg]. exact Hq1.
    + wp_step. left. exists i, dd. split; [|split; [|split; [done|split; [by rewrite Eo|split]]]].
      * split; [done|by rewrite <- Edd|by rewrite (rd_readcb _ _ S1)|by rewrite (rd_conncb _ _ S1)
          |by rewrite (rd_readbuf _ _ S1)|done].
      * unfold traffic. rewrite Hi1, Eo. cbn [fst]. rewrite Es, <- Eds. by rewrite <- !app_assoc.
      * intros Hsure Hne. rewrite <- Eds, length_app. specialize (Eout Hsure).
        assert (out ≠ []) by (apply Eout; by rewrite Hdd). destruct out; [done|]. simpl. lia.
      * split; [intros Hne; apply Hok; [done|]; by rewrite Hdd|]. rewrite Eo. by eexists _, _.
Qed.

(** *** Reading *)

(** What [readHelper] may find when it turns round: at most one message to send back, or
    two that it has just read itself. *)
Definition open_to (mask : What) (qs : qstate) : Prop :=
  phase mask qs ∧ mask ≠ NONE ∧ ∀ r s, qs ≠ Behind r s.
(** Of two messages that wait the second gives way to the next one that is read. *)
Definition take_in (ds pieces : list (list byte)) : list (list byte) :=
  foldl (λ ds bs, take 1 ds ++ [bs]) ds pieces.

Lemma open_read mask qs : phase mask qs → isRead mask = true → open_to mask qs.
Proof. intros P Hm. split; [done|]. destruct P; done. Qed.
Lemma open_appended mask qs n : open_to mask qs →
  ∃ qs', appended n qs = Some qs' ∧ open_to (ensureWrite mask) qs'.
Proof.
  intros (P & Hm & Hb). destruct P as [|r|r s|r s|]; [..|by destruct (Hb r s)|done];
    (eexists; split; [reflexivity|]; split; [constructor|done]).
Qed.

Lemma take_in_room ds pieces : (length ds + length pieces ≤ 2)%nat → take_in ds pieces = ds ++ pieces.
Proof.
  revert ds. induction pieces as [|bs pieces IH]; intros ds Hl; [by rewrite app_nil_r|]. simpl in *.
  rewrite take_ge by lia. rewrite IH by (rewrite length_app; simpl; lia). by rewrite <- app_assoc.
Qed.
Lemma take_in_sublist ds pieces : sublist (concat (take_in ds pieces)) (concat ds ++ concat pieces).
Proof.
  revert ds. induction pieces as [|bs pieces IH]; intros ds; simpl; [by rewrite app_nil_r|].
  etrans; [apply IH|]. rewrite concat_app, <- app_assoc. cbn [concat]. rewrite app_nil_r.
  apply sublist_app; [|done]. rewrite <- (take_drop 1 ds) at 2. rewrite concat_app. by apply sublist_inserts_r.
Qed.

Lemma available_ok fd mask qs ds w L s bs cb :
  echoing fd mask qs ds w → open_to mask qs → contents L [bs] → bs ≠ [] → zlength bs ≤ INT_MAX →
  wp (available cb) (set_readBuffer L (with_sys s w)) (λ _ w', ∃ qs',
    open_to (ensureWrite mask) qs' ∧ echoing fd (ensureWrite mask) qs' (take 1 ds ++ [bs]) w' ∧
    os w' = (s, (os w).2)).
Proof.
  intros [P St Hr Hn C Ha] Ho CL Hbs Hi. pose proof St as (Hq & Hh & F).
  destruct (open_appended mask qs (next_addr w) Ho) as (qs' & Eq & Ho').
  unfold EchoReadCallback_available. wp_step. apply wp_conn_; [done|]. wp_step.
  apply wp_this; [exact (queue_alive _ _ Hq)|]. cbn [readBuffer_ set_readBuffer]. wp_step.
  eapply wp_mono; [apply (write_buffer_wp NDEBUG L bs (Some write_cb) (set_readBuffer L (with_sys s w)) fd mask qs _ qs' St
    Eq CL Hbs Hi)|].
  intros o w1 (Co & S1 & Eo & St1). pose proof St1 as (Hq1 & _ & _).
  apply wp_set_this; [by eapply queue_alive|]. exists qs'. split; [exact Ho'|]. split; [|exact Eo].
  split; [apply Ho'|by rewrite fmap_app, fmap_take|..].
  - cbn. by rewrite (rd_readcb _ _ S1).
  - cbn. by rewrite (rd_conncb _ _ S1).
  - exact Co.
  - cbn. by rewrite Eo.
Qed.

Abbreviation read_calls := (reads xread geterror EAGAIN EWOULDBLOCK).

Definition read_result fd mask qs ds pieces e s' w w' : Prop :=
  match e with
  | Short | Blocked => ∃ qs', echoing fd (Nat.iter (length pieces) ensureWrite mask) qs' (take_in ds pieces) w' ∧
      os w' = (s', (os w).2)
  | AtEof | Failed => ∃ w1 qs1,
      gone fd qs1 s' (stderr (os w).2 ++ match e with Failed => ["While reading: Read failed"] | _ => [] end) w1 w' ∧
      queue_is w1 qs1 ∧ (pieces = [] → qs1 = qs ∧ heap w1 = heap w)
  end.

Lemma read_part n fd mask qs ds w pieces e s' :
  echoing fd mask qs ds w → open_to mask qs → read_calls fd (os w).1 pieces e s' → (length pieces < n)%nat →
  wp (loop n rturn tt) w (λ _, read_result fd mask qs ds pieces e s' w).
Proof.
  revert mask qs ds w pieces e s'. induction n as [|n IH]; intros mask qs ds w pieces e s' E0 Ho R Hlen; [lia|].
  pose proof E0 as [P St Hr Hn C Ha]. pose proof St as (Hq & Hh & F). apply wp_loop_S.
  eapply read_turn_wp; [by eapply queue_alive|done|exact C|done|]. intros r s1 E.
  destruct (read_law fd read_size _ _ _ ltac:(done) E) as (_ & Hs & _). rewrite Hr. cbn [on_cb].
  apply reads_inv in R. rewrite E in R. destruct r as [[|c bs]|].
  - destruct R as (-> & -> & ->).
    unfold EchoReadCallback_eof. wp_step. apply wp_conn_; [done|].
    eapply wp_mono; [by apply (delete_conn_ok fd mask qs)|]. intros ? w' Hg. cbn. rewrite app_nil_r.
    eexists _, qs. split; [exact Hg|]. by split.
  - set (bs' := c :: bs) in *. change (zlength bs' ≤ read_size) in Hs.
    split; [done|]. split; [clear -Hs; cbn [concat length]; unfold W64, read_size in *; lia|]. intros L CL.
    eapply wp_mono; [apply (available_ok fd mask qs ds w L s1 bs' read_cb E0 Ho CL)|].
    { done. } { clear -Hs. unfold INT_MAX, read_size in *. lia. }
    intros ? w' (qs' & Ho' & E1 & Eo). cbn [bs'] in R. fold bs' in R. destruct (zlength bs' <? read_size).
    + destruct R as (-> & -> & ->). exists qs'. by split.
    + destruct R as (pieces' & -> & R'). eapply wp_mono.
      { apply (IH _ _ _ w' pieces' e s' E1 Ho'); [by rewrite Eo|simpl in Hlen; lia]. }
      intros ? w2. unfold read_result. rewrite Eo. cbn [snd length]. rewrite Nat.iter_succ_r. cbn [take_in foldl].
      destruct e; [done..| |]; intros (w1 & qs1 & Hg & Hq1 & _); by exists w1, qs1.
  - intros e1 s2 E2. rewrite E2 in R. destruct R as (-> & -> & ->). cbn [fst snd]. destruct (isReadRetryable EAGAIN EWOULDBLOCK e1) eqn:Er.
    + exists qs. split; [|done]. by destruct E0.
    + unfold EchoReadCallback_error. wp_step. apply wp_conn_; [done|]. wp_step. unfold fprintf. wp_step.
      eapply wp_mono; [eapply (delete_conn_ok fd mask qs); done|]. intros ? w' Hg.
      eexists _, qs. split; [exact Hg|]. by split.
Qed.

(** The reading ends, after fewer calls than there are bytes; what it takes is gone from
    the inbox, and but for the last each piece fills the buffer. *)
Lemma reads_total n fd s : (length (inbox fd s) < n)%nat →
  ∃ pieces e s', read_calls fd s pieces e s' ∧ (length pieces < n)%nat.
Proof.
  revert s. induction n as [|n IH]; intros s Hn; [lia|].
  destruct (xread fd read_size s) as [[[|c bs]|] s1] eqn:E;
    destruct (read_law fd read_size _ _ _ ltac:(done) E) as (Ei & Hs & _).
  - exists [], AtEof, s1. split; [by constructor|simpl; lia].
  - destruct (Z.lt_ge_cases (zlength (c :: bs)) read_size).
    + exists [c :: bs], Short, s1. split; [by constructor|]. rewrite Ei, length_app in Hn. simpl in *. lia.
    + destruct (IH s1) as (pieces & e & s' & R & Hl); [rewrite Ei, length_app in Hn; simpl in Hn; lia|].
      exists ((c :: bs) :: pieces), e, s'. split; [by econstructor|simpl; lia].
  - destruct (geterror fd s1) as [x s2] eqn:E2. eexists [], _, s2. split; [by econstructor|simpl; lia].
Qed.

Lemma reads_account fd s pieces e s' : read_calls fd s pieces e s' →
  inbox fd s = concat pieces ++ inbox fd s' ∧ sent fd s' = sent fd s ∧
  read_size * (zlength pieces - 1) < zlength (concat pieces).
Proof.
  intros R. induction R as [s s1 E|s s1 x s2 E E2|s bs s1 E Hb Hl|s bs s1 bss e s2 E Hb Hl R IH];
    destruct (read_law fd read_size _ _ _ ltac:(done) E) as (Ei & Hs & Es).
  - rewrite Ei. split; [done|]. by split.
  - destruct (errno_law _ _ _ _ E2) as [Ei2 Es2]. rewrite Ei, Ei2, Es2, Es. split; [done|]. by split.
  - rewrite Ei. cbn [default concat]. rewrite !app_nil_r. split; [done|]. split; [done|].
    assert (0 < zlength bs) by (destruct bs; [done|simpl; lia]). change (zlength [bs]) with 1. lia.
  - destruct IH as (Ei' & Es' & Hc). rewrite Ei, Ei', Es', Es. cbn [default concat].
    split; [by rewrite app_assoc|]. split; [done|]. rewrite length_app.
    assert (0 < zlength bs) by (destruct bs; [done|simpl; lia]).
    replace (zlength (bs :: bss)) with (zlength bss + 1) by (simpl; lia). unfold read_size in *. lia.
Qed.

(** *** Events *)

Lemma ready_eq ev w : alive w = true → connectCallback_ w = None →
  ready ev w = (when (isWrite ev) writes;; when (isRead ev) (this alive;; loop fuel rturn tt)) w.
Proof.
  intros Ha Hn. assert (Hb : ∀ (m n : M world unit) (k : unit → M world unit),
    m w = n w → (m ≫= k) w = (n ≫= k) w) by (intros m n k Em; unfold mbind, M_bind; by rewrite Em).
  unfold Echo.ready, SockHandler_ready. destruct (isWrite ev); [|done]. cbn [when]. apply Hb.
  unfold this, get, mbind, M_bind. rewrite Ha. cbn. rewrite Hn. cbn. by rewrite Ha.
Qed.

Lemma ready_write w Q : alive w = true → connectCallback_ w = None → wp writes w Q → wp (ready WRITE) w Q.
Proof.
  intros Ha Hn HQ. unfold wp. rewrite ready_eq by done. change (wp (writes;; mret tt) w Q).
  wp_step. eapply wp_mono; [exact HQ|]. intros [] w' HQ'. by wp_step.
Qed.

Lemma ready_read w Q : alive w = true → connectCallback_ w = None →
  wp (loop fuel rturn tt) w Q → wp (ready READ) w Q.
Proof.
  intros Ha Hn HQ. unfold wp. rewrite ready_eq by done.
  change (wp (mret tt;; (this alive;; loop fuel rturn tt)) w Q).
  wp_step. wp_step. wp_step. by apply wp_this.
Qed.

Lemma echoing_with_sys fd mask qs ds w s :
  echoing fd mask qs ds w → echoing fd mask qs ds (with_sys s w).
Proof. by intros []. Qed.

(** How much a connection can take in without losing anything, when it is watched for
    [mask]. *)
Definition room (mask : What) : Z :=
  match mask with READ => 2 * read_size | READ_WRITE => read_size | _ => 0 end.

Lemma room_messages fd mask qs ds w : echoing fd mask qs ds w → isRead mask = true →
  room mask = read_size * (2 - zlength ds).
Proof.
  intros [P (_ & _ & F) _ _ _ _] Hm. apply Forall2_length in F. rewrite length_fmap in F.
  destruct P; try done; simpl in F; by rewrite <- F.
Qed.

(** What is to be sent back, and what was, after reading. *)
Lemma read_traffic fd mask qs ds w w' pieces e s' :
  read_result fd mask qs ds pieces e s' w w' → read_calls fd (os w).1 pieces e s' →
  echoing fd mask qs ds w → isRead mask = true → alive w' = false ∨
  ∃ mask' qs' ds', echoing fd mask' qs' ds' w' ∧
    sublist (traffic fd ds' (os w').1) (traffic fd ds (os w).1) ∧
    (zlength (inbox fd (os w).1) - zlength (inbox fd (os w').1) ≤ room mask →
       traffic fd ds' (os w').1 = traffic fd ds (os w).1).
Proof.
  intros Hr R E0 Hm. destruct (reads_account _ _ _ _ _ R) as (Ei & Es & Hn).
  assert (Hlive : ∀ qs', echoing fd (Nat.iter (length pieces) ensureWrite mask) qs' (take_in ds pieces) w' →
    os w' = (s', (os w).2) → ∃ mask' qs' ds', echoing fd mask' qs' ds' w' ∧
    sublist (traffic fd ds' (os w').1) (traffic fd ds (os w).1) ∧
    (zlength (inbox fd (os w).1) - zlength (inbox fd (os w').1) ≤ room mask →
       traffic fd ds' (os w').1 = traffic fd ds (os w).1)).
  { intros qs' E1 Eo. eexists _, _, _. split; [exact E1|]. unfold traffic. rewrite Eo. cbn [fst]. rewrite Ei, Es. split.
    - apply sublist_app; [done|]. rewrite app_assoc. apply sublist_app; [|done]. apply take_in_sublist.
    - rewrite (room_messages _ _ _ _ _ E0 Hm), length_app. intros Hroom. unfold read_size in *.
      rewrite take_in_room by lia. by rewrite concat_app, <- app_assoc. }
  destruct e; [destruct Hr as (qs' & E1 & Eo); right; by eapply Hlive..| |];
    destruct Hr as (w1 & qs1 & (Hd & _) & _); by left.
Qed.

(** The kernel may report [ev], of what is watched, with the system in state [s]: what was
    sent and what is to arrive is as the connection left it. *)
Record reported fd w ev s : Prop := {
  rp_alive : alive w = true;
  rp_some : ev ≠ NONE;
  rp_watched : ∃ mask, w_watched (handler_ w) = Done mask (handler_ w) ∧
    (isRead ev = true → isRead mask = true) ∧ (isWrite ev = true → isWrite mask = true);
  rp_sent : sent fd s = sent fd (os w).1;
  rp_inbox : inbox fd s = inbox fd (os w).1;
}.

(** Something happens to the connection: an event is reported, and its handler runs. *)
Inductive event fd : world → world → Prop :=
| Event w ev s w' : reported fd w ev s → ready ev (with_sys s w) = Done tt w' → event fd w w'.
(** The same, when what is read fits. *)
Definition fitting_event fd w w' : Prop :=
  event fd w w' ∧ ∃ mask, w_watched (handler_ w) = Done mask (handler_ w) ∧
    zlength (inbox fd (os w).1) - zlength (inbox fd (os w').1) ≤ room mask.

(** The connection has ended, or what it has and will have is in relation [R] to [D]. *)
Definition faithful (R : list byte → list byte → Prop) fd (D : list byte) w : Prop :=
  alive w = false ∨
  ∃ mask qs ds, echoing fd mask qs ds w ∧ R (traffic fd ds (os w).1) D ∧
    (length (inbox fd (os w).1) < fuel)%nat.

(** Reading ends with the end of the file or an error. *)
Definition read_ends fd s : Prop := ∃ pieces e s', read_calls fd s pieces e s' ∧ (e = AtEof ∨ e = Failed).
(** The handler for [ev] finds one of them, or a write that fails. *)
Definition finds_end fd ev s ds : Prop :=
  if isWrite ev then
    ∃ s1, flushed fd s ds s1 true ∨ isRead ev = true ∧ flushed fd s ds s1 false ∧ read_ends fd s1
  else read_ends fd s.

(** What a handler may do to the traffic [T0] of a connection that was watched for [mask]; it
    ends the connection for [C] only. *)
Definition handled (C : Prop) fd mask (i : Z) (T0 : list byte) w' : Prop := alive w' = false ∧ C ∨
  ∃ mask' qs' ds', echoing fd mask' qs' ds' w' ∧ sublist (traffic fd ds' (os w').1) T0 ∧
    zlength (inbox fd (os w').1) ≤ i ∧
    (i - zlength (inbox fd (os w').1) ≤ room mask → traffic fd ds' (os w').1 = T0).

Lemma read_handled fd mask qs ds w : echoing fd mask qs ds w → isRead mask = true →
  (length (inbox fd (os w).1) < fuel)%nat →
  wp (loop fuel rturn tt) w (λ _, handled (read_ends fd (os w).1) fd mask (zlength (inbox fd (os w).1)) (traffic fd ds (os w).1)).
Proof.
  intros E0 Hm Hf. destruct (reads_total fuel fd _ Hf) as (pieces & e & s' & R & Hlen).
  eapply wp_mono; [apply (read_part fuel fd mask qs ds w pieces e s' E0); [by apply open_read, Hm; apply E0|done|done]|].
  intros ? w' Hr. destruct (read_traffic _ _ _ _ _ _ _ _ _ Hr R E0 Hm) as [Hd|(m & q & d & E1 & Hs & He)]; [left|right].
  { split; [done|]. exists pieces, e, s'. split; [done|].
    destruct e; [destruct Hr as (qs' & E1 & _)..|by right|by left];
      destruct (ec_stream _ _ _ _ _ E1) as ((Ha & _) & _); by rewrite Hd in Ha. }
  exists m, q, d. split; [done|]. split; [done|]. split; [|done].
  destruct (reads_account _ _ _ _ _ R) as (Ei & _ & _). rewrite Ei, length_app.
  assert (os w' = (s', (os w).2)) as ->; [|simpl; lia].
  destruct e; [by destruct Hr as (? & _ & ?)..| |]; destruct Hr as (? & ? & (Hd & _) & _);
    destruct (ec_stream _ _ _ _ _ E1) as ((Ha & _) & _); by rewrite Hd in Ha.
Qed.

Lemma reported_masks fd mask qs ds w ev s : echoing fd mask qs ds w → reported fd w ev s →
  echoing fd mask qs ds (with_sys s w) ∧ traffic fd ds s = traffic fd ds (os w).1 ∧
  (isRead ev = true → isRead mask = true) ∧ (isWrite ev = true → isWrite mask = true).
Proof.
  intros E0 [Ha Hne (m & Hw & Hm) Hs Hi]. destruct (ec_stream _ _ _ _ _ E0) as (_ & Hh & _).
  rewrite (w_watched_ok _ fd mask Hh) in Hw. injection Hw as <-.
  split; [by apply echoing_with_sys|]. by split; [unfold traffic; rewrite Hs, Hi|].
Qed.

(** A handler returns, but when it is told of both and the write fails. *)
Lemma ready_outcome fd mask qs ds w ev : echoing fd mask qs ds w → ev ≠ NONE →
  (isRead ev = true → isRead mask = true) → (isWrite ev = true → isWrite mask = true) →
  (length (inbox fd (os w).1) < fuel)%nat →
  wp (ready ev) w (λ _, handled (finds_end fd ev (os w).1 ds) fd mask
    (zlength (inbox fd (os w).1)) (traffic fd ds (os w).1)) ∨
  ev = READ_WRITE ∧ ready ev w = Faults UseAfterFree ∧ (∃ s1, flushed fd (os w).1 ds s1 true) ∧
    wp (ready WRITE) w (λ _ w1, alive w1 = false).
Proof.
  intros E0 Hne Hre Hwe Hf. pose proof E0 as [P (Hq & _) _ Hn _ _]. pose proof (queue_alive _ _ Hq) as Ha.
  unfold finds_end. destruct (isWrite ev) eqn:Hwr.
  2:{ left. assert (ev = READ) as -> by (by destruct ev). apply ready_read; [done|done|].
      apply (read_handled fd mask qs ds w E0); [by apply Hre|done]. }
  pose proof (write_part fd mask qs ds w E0) as Hp. apply wp_iff in Hp as ([] & w1 & Ew & Hp).
  specialize (Hwe eq_refl).
  destruct Hp as [(i & ds1 & E1 & ET & EI & _ & _ & _ & Hfl)|(_ & [s1 Hfl] & w2 & qs2 & s2 & _ & Hd & _)].
  - left. unfold wp at 1. rewrite ready_eq, Hwr by done. cbn [when]. rewrite (bind_done _ _ _ _ _ Ew).
    rewrite <- ET, <- EI. destruct (isRead ev) eqn:Hrd; cbn [when].
    + specialize (Hre eq_refl). assert (mask = READ_WRITE) as -> by (by destruct mask).
      match goal with |- match _ with Done a w' => ?Q | _ => _ end =>
        change (wp (this alive;; loop fuel rturn tt) w1 (λ a w', Q)) end.
      wp_step. apply wp_this; [eapply queue_alive, (ec_stream _ _ _ _ _ E1)|].
      eapply wp_mono; [eapply (read_handled _ _ _ _ _ E1); [by case_decide|by rewrite EI]|].
      intros ? w2 [[Hd Hc]|(m & q & d & E2 & Hs & Hi & He)]; [left|right].
      { split; [done|]. exists (os w1).1. by right. }
      exists m, q, d. split_and!; [done..|]. intros Hroom. apply He.
      case_decide; simpl in *; unfold read_size in *; lia.
    + right. eexists _, _, _. by split; [exact E1|].
  - destruct (isRead ev) eqn:Hrd.
    + right. split; [by destruct ev|]. split; [|split; [by exists s1|]].
      * rewrite ready_eq, Hwr, Hrd by done. cbn [when]. rewrite (bind_done _ _ _ _ _ Ew). apply bind_faults.
        unfold this, get, mbind, M_bind. by rewrite Hd.
      * apply ready_write; [done|done|]. by eapply wp_done.
    + left. assert (ev = WRITE) as -> by (by destruct ev). apply ready_write; [done|done|].
      eapply wp_done; [exact Ew|]. left. split; [done|]. exists s1. by left.
Qed.

Lemma ready_handled fd mask qs ds w ev s : echoing fd mask qs ds w → reported fd w ev s →
  (length (inbox fd (os w).1) < fuel)%nat →
  wp (ready ev) (with_sys s w) (λ _, handled (finds_end fd ev s ds) fd mask
    (zlength (inbox fd (os w).1)) (traffic fd ds (os w).1)) ∨
  ev = READ_WRITE ∧ ready ev (with_sys s w) = Faults UseAfterFree ∧ (∃ s1, flushed fd s ds s1 true) ∧
    wp (ready WRITE) (with_sys s w) (λ _ w1, alive w1 = false).
Proof.
  intros E0 Hrp Hf. destruct (reported_masks _ _ _ _ _ _ _ E0 Hrp) as (E0' & <- & Hre & Hwe).
  pose proof (ready_outcome fd mask qs ds (with_sys s w) ev E0' (rp_some _ _ _ _ Hrp) Hre Hwe) as Ho.
  rewrite <- (rp_inbox _ _ _ _ Hrp) in Hf |- *. exact (Ho Hf).
Qed.

Lemma event_handled fd mask qs ds w w' : echoing fd mask qs ds w → event fd w w' →
  (length (inbox fd (os w).1) < fuel)%nat →
  handled True fd mask (zlength (inbox fd (os w).1)) (traffic fd ds (os w).1) w'.
Proof.
  intros E0 Hev Hf. destruct Hev as [w ev s w' Hrp E].
  destruct (ready_handled _ _ _ _ _ _ _ E0 Hrp Hf) as [Hh|(_ & Hh & _)]; [|by rewrite E in Hh].
  unfold wp in Hh. rewrite E in Hh. by destruct Hh as [[? _]|]; [left|right].
Qed.

(** Nothing is made up or reordered; and nothing lost when it fits. *)
Lemma event_faithful fd D w w' : faithful sublist fd D w → event fd w w' → faithful sublist fd D w'.
Proof.
  intros [Hd|(mask & qs & ds & E0 & ED & Hf)] Hev.
  { destruct Hev as [w ev s w' Hrp _]. by rewrite (rp_alive _ _ _ _ Hrp) in Hd. }
  destruct (event_handled _ _ _ _ _ _ E0 Hev Hf) as [[? _]|(m & q & d & E1 & Hs & Hi & _)]; [by left|right].
  exists m, q, d. split; [done|]. split; [by etrans|lia].
Qed.
Lemma fitting_faithful fd D w w' : faithful (=) fd D w → fitting_event fd w w' → faithful (=) fd D w'.
Proof.
  intros [Hd|(mask & qs & ds & E0 & ED & Hf)] (Hev & m0 & Hm0 & Hroom).
  { destruct Hev as [w ev s w' Hrp _]. by rewrite (rp_alive _ _ _ _ Hrp) in Hd. }
  destruct (ec_stream _ _ _ _ _ E0) as (_ & Hh & _). rewrite (w_watched_ok _ fd mask Hh) in Hm0. injection Hm0 as <-.
  destruct (event_handled _ _ _ _ _ _ E0 Hev Hf) as [[? _]|(m & q & d & E1 & _ & Hi & He)]; [by left|right].
  exists m, q, d. split; [done|]. split; [by rewrite He|lia].
Qed.

(** C5: what was sent back, followed by what waits in the queue, followed by what is still to
    arrive, is a part of what the peer sends, in its order, whatever events happen in whatever
    order, until the connection ends: nothing is made up, repeated or reordered.  And it is all
    of it as long as each event reads no more than there is room for: two buffers of 4096
    bytes when nothing waits, one when a message waits.  For every event that can be reported
    the handler returns, and it ends the connection only when it finds the end of the file, an
    error of [read(2)] or one of [write(2)]; unless it is told of reading and writing at once
    and the write fails: then the connection is destroyed and used again.  More turns than
    bytes are enough. *)
Theorem echo_faithful fd h s :
  w_holds h fd NONE → (length (inbox fd s) < fuel)%nat →
  match acceptCb h s with
  | Done _ w0 => alive w0 = true ∧
      (∀ w, rtc (event fd) w0 w → alive w = false ∨
        ∃ mask qs ds, echoing fd mask qs ds w ∧
          sublist (sent fd (os w).1 ++ concat ds ++ inbox fd (os w).1) (sent fd s ++ inbox fd s) ∧
          ∀ ev s', reported fd w ev s' →
            (∃ w', ready ev (with_sys s' w) = Done tt w' ∧ (alive w' = false → finds_end fd ev s' ds)) ∨
            ev = READ_WRITE ∧ ready ev (with_sys s' w) = Faults UseAfterFree ∧
              (∃ s1, flushed fd s' ds s1 true) ∧
              ∃ w', ready WRITE (with_sys s' w) = Done tt w' ∧ alive w' = false) ∧
      (∀ w, rtc (fitting_event fd) w0 w → alive w = false ∨
        ∃ mask qs ds, echoing fd mask qs ds w ∧
          sent fd (os w).1 ++ concat ds ++ inbox fd (os w).1 = sent fd s ++ inbox fd s)
  | _ => False
  end.
Proof.
  intros Hh Hf. assert (Hw : wp (startRead (Some read_cb)) (Connection_new h s) (λ _ w0, alive w0 = true ∧
    faithful (=) fd (sent fd s ++ inbox fd s) w0)).
  { eapply wp_mono; [by apply (startRead_wp _ _ fd NONE)|]. intros ? w' (h' & -> & Hh').
    rewrite decide_False in Hh' by done. split; [done|]. right. exists READ, Empty, [].
    split; [|done]. split; [exact Idle| |done|done|apply contents_empty|done].
    split; [|split; [exact Hh'|constructor]]. split; [done|]. split; [|done]. by intros r [? ?]. }
  unfold acceptCb. apply wp_iff in Hw as ([] & w0 & -> & Ha & Hd). split; [done|]. split; intros w Hrtc.
  - assert (faithful sublist fd (sent fd s ++ inbox fd s) w) as [?|(mask & qs & ds & E0 & ED & Hf')].
    { eapply (rtc_invariant (event fd) (faithful sublist fd _)); [intros a b; by apply event_faithful|exact Hrtc|].
      destruct Hd as [?|(mask & qs & ds & E0 & ED & Hf')]; [by left|right]. exists mask, qs, ds. by rewrite ED. }
    { by left. }
    right. exists mask, qs, ds. split; [done|]. split; [done|]. intros ev s' Hrp.
    destruct (ready_handled _ _ _ _ _ _ _ E0 Hrp Hf') as [Hr|(-> & Hr & Hfl & Hr')]; [left|right; split; [done|]].
    + apply wp_iff in Hr as ([] & w' & Ew & Hh'). exists w'. split; [done|]. intros Hd'.
      destruct Hh' as [[_ ?]|(m & q' & d & E1 & _)]; [done|].
      destruct (ec_stream _ _ _ _ _ E1) as ((Ha' & _) & _). by rewrite Hd' in Ha'.
    + split; [done|]. split; [done|]. apply wp_iff in Hr' as ([] & w' & Ew & ?). by exists w'.
  - assert (faithful (=) fd (sent fd s ++ inbox fd s) w) as [?|(mask & qs & ds & E0 & ED & _)].
    { eapply (rtc_invariant (fitting_event fd) (faithful (=) fd _)); [intros a b; by apply fitting_faithful|exact Hrtc|exact Hd]. }
    + by left.
    + right. by exists mask, qs, ds.
Qed.

(** *** One message, and two *)

(** The descriptor takes something whenever it can be written. *)
Definition takes fd : Prop := ∀ bs s, bs ≠ [] → 1 ≤ (xwrite fd (Some <$> bs) s).1.

(** As long as the connection waits to write, it can, [n] times at most. *)
Fixpoint send_back (n : nat) : M world unit :=
  match n with
  | O => mret tt
  | S n =>
      m ← on_handler w_watched;
      if isWrite m then ready WRITE;; send_back n else mret tt
  end.

Lemma echoing_nonempty fd mask qs ds w : echoing fd mask qs ds w → Forall (λ bs, bs ≠ []) ds.
Proof.
  intros [_ (_ & _ & F) _ _ _ _]. revert F. generalize (linked qs).
  induction ds as [|bs ds IH]; intros rs F; [constructor|]. inversion F as [|? ? rs' ? (q & _ & _ & _ & ? & _) F']; subst.
  constructor; [done|by eapply IH].
Qed.

Lemma send_back_ok n fd mask qs ds w :
  echoing fd mask qs ds w → isWrite mask = true → takes fd → (length (concat ds) ≤ n)%nat →
  wp (send_back n) w (λ _ w', echoing fd (removeWrite mask) Empty [] w' ∧
    sent fd (os w').1 = sent fd (os w).1 ++ concat ds ∧ inbox fd (os w').1 = inbox fd (os w).1).
Proof.
  intros E0 Hm Ht. revert qs ds w E0. induction n as [|n IH]; intros qs ds w E0 Hn;
    pose proof E0 as [P (Hq & Hh & F0) _ Hc _ _]; pose proof (echoing_nonempty _ _ _ _ _ E0) as Hne.
  - exfalso. destruct ds as [|bs ds].
    + destruct P; try done; inversion F0.
    + inversion Hne; subst. destruct bs; [done|]. simpl in Hn. lia.
  - cbn [send_back]. wp_step. eapply wp_read_handler; [by eapply queue_alive|by eapply w_watched_ok|].
    rewrite Hm. cbv iota. wp_step. apply ready_write; [by eapply queue_alive|done|].
    assert (Hds : ds ≠ []) by (intros ->; destruct P; try done; inversion F0).
    eapply wp_mono; [by apply (write_part fd mask qs ds)|].
    intros [] w1 [(i & ds' & E1 & ET & Ei & _ & Hl & _)|(Hf & _)].
    2:{ exfalso. destruct Hf as (bs & s & Hbs & Hlt). specialize (Ht bs s Hbs). lia. }
    specialize (Hl Ht Hds). unfold traffic in ET. rewrite Ei, !app_assoc in ET. apply app_inv_tail in ET.
    destruct (decide (ds' = [])) as [->|Hds'].
    + rewrite decide_True in E1 by done. simpl in ET. rewrite app_nil_r in ET.
      assert (Hend : isWrite (removeWrite mask) = false) by (by destruct mask).
      pose proof E1 as [P1 (Hq1 & Hh1 & F1) _ _ _ _].
      assert (Nat.iter i consumed_front qs = Empty) as Eq.
      { inversion F1 as [Hl1|]. destruct (Nat.iter i consumed_front qs); done. }
      rewrite Eq in E1. destruct n; [by apply wp_ret|]. cbn [send_back]. wp_step.
      eapply wp_read_handler; [by eapply queue_alive|by eapply w_watched_ok|]. rewrite Hend. cbv iota. by wp_step.
    + rewrite decide_False in E1 by tauto. eapply wp_mono; [eapply (IH _ ds'); [exact E1|lia]|].
      intros ? w2 (E2 & Es & Ei2). split; [done|]. rewrite Es, Ei2. by rewrite ET.
Qed.

(** A message that does not fill the buffer is read. *)
Lemma read_message fd mask qs ds w bs s1 :
  echoing fd mask qs ds w → isRead mask = true → xread fd read_size (os w).1 = (Some bs, s1) → bs ≠ [] →
  zlength bs < read_size →
  wp (ready READ) w (λ _ w', ∃ qs', echoing fd (ensureWrite mask) qs' (take 1 ds ++ [bs]) w' ∧ os w' = (s1, (os w).2)).
Proof.
  intros E0 Hm Er Hbs Hl. pose proof E0 as [P (Hq & _) _ Hc _ _]. apply ready_read; [by eapply queue_alive|done|].
  eapply wp_mono; [apply (read_part fuel fd mask qs ds w [bs] Short s1 E0)|].
  - by apply open_read.
  - by apply reads_short.
  - simpl. lia.
  - intros ? w' (qs' & E1 & Eo). by exists qs'.
Qed.

(** Three messages in one call of [readHelper], the first two filling its buffer: the second
    one is lost. *)
Theorem echo_loses fd w b1 b2 b3 s1 s2 s3 :
  echoing fd READ Empty [] w → (3 < fuel)%nat →
  xread fd read_size (os w).1 = (Some b1, s1) → zlength b1 = read_size →
  xread fd read_size s1 = (Some b2, s2) → zlength b2 = read_size →
  xread fd read_size s2 = (Some b3, s3) → b3 ≠ [] → zlength b3 < read_size →
  wp (ready READ) w (λ _ w', ∃ qs, echoing fd WRITE qs [b1; b3] w' ∧ os w' = (s3, (os w).2)).
Proof.
  intros E0 Hf E1 H1 E2 H2 E3 Hb3 H3. pose proof E0 as [P (Hq & _) _ Hc _ _].
  assert (Hne : ∀ b : list byte, zlength b = read_size → b ≠ []) by (by intros ? Hb ->).
  apply ready_read; [by eapply queue_alive|done|].
  eapply wp_mono; [apply (read_part fuel fd READ Empty [] w [b1; b2; b3] Short s3 E0)|].
  - by apply open_read.
  - apply (reads_full _ _ _ _ _ _ _ s1); [done|by apply Hne|lia|].
    apply (reads_full _ _ _ _ _ _ _ s2); [done|by apply Hne|lia|]. by apply reads_short.
  - done.
  - intros ? w' (qs' & E' & Eo). by exists qs'.
Qed.

(** C10: one message is echoed: when the peer sends [bs], less than 4096 bytes, and then lets
    the server write, all of [bs] is sent back, and the connection is as it was before,
    ready for the next message. *)
Theorem echo_echoes fd w bs s1 n :
  echoing fd READ Empty [] w → xread fd read_size (os w).1 = (Some bs, s1) → bs ≠ [] →
  zlength bs < read_size → takes fd → (length bs ≤ n)%nat →
  wp (ready READ;; send_back n) w (λ _ w', echoing fd READ Empty [] w' ∧
    sent fd (os w').1 = sent fd (os w).1 ++ bs ∧ inbox fd (os w).1 = bs ++ inbox fd (os w').1).
Proof.
  intros E0 Er Hbs Hl Ht Hn. destruct (read_law fd read_size _ _ _ ltac:(done) Er) as (Ei & _ & Es). wp_step.
  eapply wp_mono; [by eapply (read_message fd READ Empty [])|]. intros ? w1 (qs' & E1 & Eo).
  eapply wp_mono; [apply (send_back_ok n _ _ _ _ _ E1); [done|done|cbn; by rewrite app_nil_r]|].
  intros ? w2 (E2 & Es2 & Ei2). split; [exact E2|]. rewrite Es2, Ei2, Eo. cbn [concat app fst take].
  rewrite app_nil_r, Es. split; [done|exact Ei].
Qed.

(** C39: but when a second message arrives before the first one has been sent back, the
    connection goes deaf: both are sent back, and then nothing is watched any more, so
    that nothing the peer sends, and not even its end, will ever be noticed. *)
Theorem echo_goes_deaf fd w b1 b2 s1 s2 n :
  echoing fd READ Empty [] w → xread fd read_size (os w).1 = (Some b1, s1) → b1 ≠ [] →
  xread fd read_size s1 = (Some b2, s2) → b2 ≠ [] → zlength b1 < read_size → zlength b2 < read_size →
  takes fd → (length b1 + length b2 ≤ n)%nat →
  wp (ready READ;; ready READ;; send_back n) w (λ _ w', echoing fd NONE Empty [] w' ∧
    sent fd (os w').1 = sent fd (os w).1 ++ b1 ++ b2 ∧ ∀ w'', ¬ event fd w' w'').
Proof.
  intros E0 Er Hb1 Er2 Hb2 Hl1 Hl2 Ht Hn.
  destruct (read_law fd read_size _ _ _ ltac:(done) Er) as (_ & _ & Es).
  destruct (read_law fd read_size _ _ _ ltac:(done) Er2) as (_ & _ & Es2). wp_step.
  eapply wp_mono; [by eapply (read_message fd READ Empty [])|]. intros ? w1 (qs1 & E1 & Eo). wp_step.
  eapply wp_mono; [eapply (read_message fd READ_WRITE qs1); [exact E1|done|rewrite Eo; exact Er2|done|done]|].
  intros ? w2 (qs2 & E2 & Eo2).
  assert (Ec : concat (take 1 (take 1 [] ++ [b1]) ++ [b2]) = b1 ++ b2) by (simpl; by rewrite app_nil_r).
  eapply wp_mono; [apply (send_back_ok n _ _ _ _ _ E2); [done|done|by rewrite Ec, length_app]|].
  intros ? w3 (E3 & Es3 & _). split; [exact E3|]. split.
  - rewrite Es3, Eo2, Ec. cbn [fst]. by rewrite Es2, Es.
  - intros w'' Hev. destruct Hev as [w3 ev s w' Hrp _].
    destruct (reported_masks _ _ _ _ _ _ _ E3 Hrp) as (_ & _ & Hre & Hwe). pose proof (rp_some _ _ _ _ Hrp).
    destruct ev; [done|by specialize (Hre eq_refl)|by specialize (Hwe eq_refl)|by specialize (Hre eq_refl)].
Qed.

(** C38: a connection ends at the end of file, on an error of [read(2)], and on one of
    [write(2)]: its requests are freed, its descriptor is closed and not watched, and the
    errors are printed.  But when a [write(2)] fails while the descriptor can also be read,
    the handler goes on with the stream that has just been destroyed. *)
Theorem echo_ends fd mask qs ds w s1 :
  echoing fd mask qs ds w →
  let ends ev s out := wp (ready ev) w (λ _ w', ∃ w1, heap w1 = heap w ∧
    gone fd qs s (stderr (os w).2 ++ out) w1 w') in
  (isRead mask = true → xread fd read_size (os w).1 = (Some [], s1) → ends READ s1 []) ∧
  (isRead mask = true → xread fd read_size (os w).1 = (None, s1) →
     isReadRetryable EAGAIN EWOULDBLOCK (geterror fd s1).1 = false →
     ends READ (geterror fd s1).2 ["While reading: Read failed"]) ∧
  (ds ≠ [] → (∀ x s, (xwrite fd x s).1 < 0) →
     wp (ready WRITE) w (λ _ w', ∃ w1 qs' s, queue_is w1 qs' ∧
       gone fd qs' s (stderr (os w).2 ++ ["While writing: Write failed"]) w1 w') ∧
     ready READ_WRITE w = Faults UseAfterFree).
Proof.
  intros E0 ends. pose proof E0 as [P (Hq & _ & F0) _ Hc _ _]. pose proof (queue_alive _ _ Hq) as Ha.
  split_and!.
  - intros Hm Er. apply ready_read; [done|done|].
    eapply wp_mono; [apply (read_part fuel fd mask qs ds w [] AtEof s1 E0);
      [by apply open_read|by apply reads_eof|simpl; lia]|].
    intros ? w1 (w2 & qs1 & Hg & _ & Hsame). destruct (Hsame eq_refl) as [-> Hw2]. by exists w2.
  - intros Hm Er Hx. destruct (geterror fd s1) as [x s2] eqn:E2. cbn [fst snd] in *. apply ready_read; [done|done|].
    eapply wp_mono; [apply (read_part fuel fd mask qs ds w [] Failed s2 E0);
      [by apply open_read| |simpl; lia]|].
    { pose proof (reads_error xread geterror EAGAIN EWOULDBLOCK fd _ _ _ _ Er E2) as R. by rewrite Hx in R. }
    intros ? w1 (w2 & qs1 & Hg & _ & Hsame). destruct (Hsame eq_refl) as [-> Hw2]. by exists w2.
  - intros Hds Hf. pose proof (write_part fd mask qs ds w E0) as Hp. apply wp_iff in Hp as ([] & w' & Ew & Hp).
    destruct Hp as [(_ & _ & _ & _ & _ & _ & _ & Hok & _)|(_ & _ & w1 & qs' & s & Hq1 & Hg)].
    { exfalso. destruct (Hok Hds) as (x & s & Hx). specialize (Hf x s). lia. }
    split.
    + apply ready_write; [done|done|]. eapply wp_done; [exact Ew|]. by exists w1, qs', s.
    + rewrite ready_eq by done. change (isWrite READ_WRITE) with true. change (isRead READ_WRITE) with true.
      cbn [when]. rewrite (bind_done _ _ _ _ _ Ew). apply bind_faults.
      unfold this, get, mbind, M_bind. destruct Hg as [Hd _]. by rewrite Hd.
Qed.
End props.

(** ** Witnesses *)

Section demo.
#[local] Instance echo_watch : Watch := plain_watch.
#[local] Existing Instance demo_alloc.

(** A connection on which [inb] will arrive, as [acceptCb] leaves it, and one that has
    [hello] to send back. *)
Definition demo_conn (inb : list byte) : Stream.world (wire * Connection) :=
  set_handler ((5, READ) : hstate) (set_readCallback (Some read_cb)
    (Connection_new ((5, NONE) : hstate) (inb, []))).
Definition demo_busy : Stream.world (wire * Connection) :=
  mkWorld true ((5, READ_WRITE) : hstate) (mkRequests (Some 1%N) (Some 1%N)) (Some read_cb) None empty_buf
    {[1%N := mkReq (mkBuf [filled (bytes "hello")] 5) (Some write_cb) None]} 2 (([], []), mkConnection true []).

Lemma demo_conn_idle inb : echoing 5 READ Empty [] (demo_conn inb).
Proof.
  split; [constructor| |done|done|apply contents_empty|done].
  split; [|split; [done|constructor]]. split; [done|]. split; [|done]. by intros r [? ?].
Qed.

Lemma demo_busy_sending : echoing 5 READ_WRITE (One 1%N) [bytes "hello"] demo_busy.
Proof.
  split; [constructor| |done|done|apply contents_empty|done]. split; [|split; [done|]].
  - split; [done|]. split; [|split; [done|by eexists; split; [apply lookup_insert_eq|]]].
    intros r [q Hr]. cbn in Hr. by apply lookup_singleton_Some in Hr as [<- _].
  - constructor; [|constructor]. eexists. split; [apply lookup_insert_eq|]. split; [done|].
    split; [by apply (contents_snoc empty_buf [] (bytes "hello") contents_empty)|].
    split; [done|]. vm_compute. discriminate.
Qed.

Lemma wire_takes : takes (wire_write 2) 5.
Proof. intros bs s Hbs. unfold wire_write. cbn [fst]. rewrite length_fmap. destruct bs; [done|simpl; lia]. Qed.

Abbreviation demo_ready wr := (Echo.ready false 5 slow_read wr wire_ok wire_ok wire_getsockopt 11 11).

Abbreviation demo_event := (event false 10 slow_read (wire_write 2) wire_ok wire_ok wire_getsockopt 11 11
  wire_sent wire_inbox 5).
Abbreviation demo_fitting := (fitting_event false 10 slow_read (wire_write 2) wire_ok wire_ok wire_getsockopt 11 11
  wire_sent wire_inbox 5).

Lemma echo_faithful_witness :
  (∀ w, rtc demo_event (demo_conn (bytes "hello")) w → alive w = false ∨
    ∃ mask qs ds, echoing 5 mask qs ds w ∧ sublist ((os w).1.2 ++ concat ds ++ (os w).1.1) (bytes "hello")) ∧
  (∀ w, rtc demo_fitting (demo_conn (bytes "hello")) w → alive w = false ∨
    ∃ mask qs ds, echoing 5 mask qs ds w ∧ (os w).1.2 ++ concat ds ++ (os w).1.1 = bytes "hello").
Proof.
  pose proof (echo_faithful false 10 slow_read (wire_write 2) wire_ok wire_ok wire_getsockopt 11 11 wire_sent wire_inbox
    (λ fd bs s n s', wire_write_law 2 fd bs s n s' ltac:(done))
    ltac:(by intros fd x s n s' [= _ <-]) slow_read_law ltac:(by intros fd s e s' [= _ <-])
    ltac:(vm_compute; discriminate) ltac:(lia) 5 ((5, NONE) : hstate) (bytes "hello", []) eq_refl
    ltac:(simpl; lia)) as (_ & T1 & T2).
  split; [|exact T2]. intros w Hw. destruct (T1 w Hw) as [?|(mask & qs & ds & ? & ? & _)]; [by left|right].
  by exists mask, qs, ds.
Defined.

Lemma echo_echoes_witness :
  wp (demo_ready (wire_write 2) READ;; send_back false 5 slow_read (wire_write 2) wire_ok wire_ok wire_getsockopt 11 11 3)
    (demo_conn (bytes "hey")) (λ _ w', echoing 5 READ Empty [] w' ∧ (os w').1.2 = bytes "hey").
Proof.
  eapply wp_mono; [apply (echo_echoes false 5 slow_read (wire_write 2) wire_ok wire_ok wire_getsockopt 11 11
    wire_sent wire_inbox (λ fd bs s n s', wire_write_law 2 fd bs s n s' ltac:(done))
    ltac:(by intros fd x s n s' [= _ <-]) slow_read_law ltac:(vm_compute; discriminate) ltac:(lia)
    5 (demo_conn (bytes "hey")) (bytes "hey") ([], []) 3 (demo_conn_idle _) eq_refl ltac:(done)
    ltac:(done) wire_takes
    ltac:(simpl; lia))|].
  by intros ? w' (? & ? & _).
Defined.

Lemma echo_goes_deaf_witness :
  wp (demo_ready (wire_write 2) READ;; demo_ready (wire_write 2) READ;;
      send_back false 5 slow_read (wire_write 2) wire_ok wire_ok wire_getsockopt 11 11 5)
    (demo_conn (bytes "hello")) (λ _ w', echoing 5 NONE Empty [] w' ∧ (os w').1.2 = bytes "hello").
Proof.
  eapply wp_mono; [apply (echo_goes_deaf false 5 slow_read (wire_write 2) wire_ok wire_ok wire_getsockopt 11 11
    wire_sent wire_inbox (λ fd bs s n s', wire_write_law 2 fd bs s n s' ltac:(done))
    ltac:(by intros fd x s n s' [= _ <-]) slow_read_law ltac:(vm_compute; discriminate) ltac:(lia)
    5 (demo_conn (bytes "hello")) (bytes "hel") (bytes "lo") (bytes "lo", []) ([], []) 5 (demo_conn_idle _) eq_refl
    ltac:(done) eq_refl ltac:(done)
    ltac:(done) ltac:(done) wire_takes ltac:(simpl; lia))|].
  by intros ? w' (? & ? & _).
Defined.

Lemma echo_ends_witness :
  wp (demo_ready (wire_write 2) READ) (demo_conn []) (λ _ w', alive w' = false) ∧
  wp (demo_ready bad_write WRITE) demo_busy (λ _ w', alive w' = false ∧
    stderr (os w').2 = ["While writing: Write failed"]) ∧
  demo_ready bad_write READ_WRITE demo_busy = Faults UseAfterFree.
Proof.
  split.
  - pose proof (echo_ends false 5 slow_read (wire_write 2) wire_ok wire_ok wire_getsockopt 11 11
      wire_sent wire_inbox (λ fd bs s n s', wire_write_law 2 fd bs s n s' ltac:(done))
      ltac:(by intros fd x s n s' [= _ <-]) slow_read_law ltac:(vm_compute; discriminate) ltac:(lia)
      5 READ Empty [] (demo_conn []) ([], []) (demo_conn_idle [])) as (T & _ & _).
    eapply wp_mono; [exact (T eq_refl eq_refl)|]. by intros ? w' (w1 & _ & ? & _).
  - pose proof (echo_ends false 5 slow_read bad_write wire_ok wire_ok wire_getsockopt 11 11
      wire_sent wire_inbox
      ltac:(intros fd bs s n s' _ [= <- <-]; split; [lia|by rewrite app_nil_r])
      ltac:(by intros fd x s n s' [= _ <-]) slow_read_law ltac:(vm_compute; discriminate) ltac:(lia)
      5 READ_WRITE (One 1%N) [bytes "hello"] demo_busy ([], []) demo_busy_sending) as (_ & _ & T).
    destruct (T ltac:(done) ltac:(done)) as [T1 T2]. split; [|exact T2].
    eapply wp_mono; [exact T1|]. intros ? w' (w1 & qs & s & _ & ? & _ & Eo & _). split; [done|].
    by rewrite Eo.
Defined.
End demo.
