(* ===== verification/EchoMain.v ===== *)
(** * The echo server: [main]

    [src/example/echo-server.cc], from the making of the event base to the loop: the
    models of [EventBase.v], [Listener.v] and [EventLoop.v] on one state, the listener
    watching through the handlers of [Handlers.v].  What the program prints is a list
    of lines.  The queue of the base is any [Fifo], libevent's loop a parameter, and the
    connections are those of [Echo.v]. *)

From stdpp Require Import pretty.
From S2P Require Import Prelude What Libevent Handlers HandlersSpec Watch Fifo.
From S2P Require EventLoop EventBase Listener EventLoopProps EventBaseProps ListenerProps.

Section main.
Context `{Libevent} (NDEBUG : bool) (self : N) {Sys U : Type} `{F : Fifo (EventLoop.op U)}.
Context (p : EventBase.platform).
(** The addresses of the base, of its notification handler and of the listener's. *)
Context (this h hl : N).
#[local] Instance listener_watch : Watch := handlers_watch NDEBUG self this hl.

Record program := mkProgram {
  ebase : EventBase.world Sys;
  listening : bool;              (** the listener exists *)
  port : Z;
  stdout : list string;
  stderr : list string;
}.

(** The calls of libevent and of the system. *)
Context (WSAStartup : Sys → unit * Sys).
Context (event_base_new : Sys → N * Sys) (event_base_free : N → Sys → unit * Sys).
Context (eventfd : Sys → Z * Sys) (pipe evutil_socketpair : Sys → (Z * (Z * Z)) * Sys).
Context (xclose : Z → Sys → Z * Sys).
Context (socket : Sys → Z * Sys) (make_nonblocking make_reuseable : Z → Sys → Z * Sys).
Context (inet_pton : string → Sys → Z * Sys) (sys_bind : Z → string → Z → Sys → Z * Sys).
Context (getsockname : Z → Sys → (Z * Z) * Sys) (sys_listen : Z → Z → Sys → Z * Sys).

(** ** The parts of the program *)

Definition set_ebase b (w : program) : program := mkProgram b (listening w) (port w) (stdout w) (stderr w).
Definition on_base {A} (m : M (EventBase.world Sys) A) : M program A := zoom ebase set_ebase m.

(** The listener's state: its handler is one of those of the base. *)
Abbreviation lworld := (Listener.world (Sys * list string)).
Definition get_listener (w : program) : lworld :=
  Listener.mkWorld (listening w) (EventBase.objects (ebase w)) (port w) (EventBase.os (ebase w), stderr w).
Definition set_listener (l : lworld) (w : program) : program :=
  mkProgram (EventBase.mkBW (Listener.handler_ l) (EventBase.ebases (ebase w)) (Listener.os l).1)
    (Listener.alive l) (Listener.port_ l) (stdout w) (Listener.os l).2.
Definition on_listener {A} (m : M lworld A) : M program A := zoom get_listener set_listener m.

Definition printf (s : string) : M program unit :=
  modify (λ w, mkProgram (ebase w) (listening w) (port w) (stdout w ++ [s]) (stderr w)).

(** [errorCb]. *)
Definition errorCb (e : string) : M lworld unit :=
  modify (λ l, Listener.set_os ((Listener.os l).1, (Listener.os l).2 ++ ["While listening: " +:+ e]) l).

(** ** [main] *)

Definition is_windows : bool := match p with EventBase.WINDOWS => true | _ => false end.

(** [mkConnectionListener], which makes the handler too. *)
Definition make_listener : M program unit :=
  on_base (EventBase.on_objects (EventHandler_new hl (-1)));;
  on_listener (λ l, Done tt (Listener.mkConnectionListener (Listener.handler_ l) (Listener.os l))).

(** Up to the loop. *)
Definition main_setup : M program unit :=
  when is_windows (on_base (EventBase.call WSAStartup));;
  on_base (EventBase.mkEventBase NDEBUG self p event_base_new eventfd pipe evutil_socketpair this h);;
  make_listener;;
  on_listener (Listener.bind_any (sys socket) (λ fd, sys (make_nonblocking fd)) (λ fd, sys (make_reuseable fd))
    (λ ip, sys (inet_pton ip)) (λ fd ip q, sys (sys_bind fd ip q)) (λ fd, sys (getsockname fd))
    (λ fd, sys (xclose fd)) 0);;
  on_listener (Listener.listen (λ fd n, sys (sys_listen fd n)) 128);;
  on_listener Listener.startAccepting;;
  w ← get;
  printf ("Ready to talk back on " +:+ pretty (port w)).

(** The destructors at the end of it. *)
Definition main_end : M program unit :=
  on_listener (Listener.LibeventConnectionListener_delete (λ fd, sys (xclose fd)));;
  on_base (EventBase.on_objects (EventHandler_delete hl));;
  on_base (EventBase.LibeventEventBase_delete NDEBUG self event_base_free xclose this).

(** The state of the loop: before [mkEventBase], and with the channel that it made. *)
Abbreviation bworld := (EventLoop.base U program).
Definition blank (q : fifo) (w : program) : bworld :=
  EventLoop.mkBase q false 0 false ∅ EventLoop.PIPE (-1, -1) w.
Definition with_channel (b : bworld) : bworld :=
  match EventBase.ebases (ebase (EventLoop.wstate b)) !! this with
  | Some e => EventLoop.mkBase (EventLoop.queue b) (EventLoop.terminate_ b) (EventLoop.loopThread_ b)
      (EventLoop.finished b) (EventLoop.dones b) (EventBase.notify_type e) (EventBase.notify_fds e) (EventLoop.wstate b)
  | None => b
  end.
Definition on_program {A} (m : M program A) : M bworld A :=
  zoom EventLoop.wstate (λ w, EventLoopProps.set_wstate (λ _, w)) m.

Context (user : U → M bworld unit) (event_base_loopexit : M bworld unit).
Context (event_base_loop timer_add timer_del : M bworld Z).
Definition main (turns fuel : nat) : M bworld Z :=
  on_program main_setup;;
  modify with_channel;;
  EventLoop.loop NDEBUG self user event_base_loop event_base_loopexit timer_add timer_del turns fuel
    EventLoop.FOREVER;;
  on_program main_end;;
  mret 0.
End main.

(** ** Computations that return or throw *)

Section wpx.
Context {St : Type}.
Definition wpx {A} (m : M St A) (s : St) (Q : A → St → Prop) (E : exn → St → Prop) : Prop :=
  match m s with Done a s' => Q a s' | Throws e s' => E e s' | _ => False end.

Lemma wpx_wp {A} (m : M St A) s Q E : wp m s Q → wpx m s Q E.
Proof. unfold wp, wpx. by destruct (m s). Qed.
Lemma wpx_bind {A B} (m : M St A) (k : A → M St B) s Q E :
  wpx m s (λ a s', wpx (k a) s' Q E) E → wpx (m ≫= k) s Q E.
Proof. unfold wpx, mbind, M_bind. by destruct (m s). Qed.
Lemma wpx_mono {A} (m : M St A) s (P Q : A → St → Prop) (E E' : exn → St → Prop) :
  wpx m s P E → (∀ a s', P a s' → Q a s') → (∀ e s', E e s' → E' e s') → wpx m s Q E'.
Proof. unfold wpx. destruct (m s); eauto. Qed.
Lemma wpx_when (b : bool) (m : M St unit) s Q E :
  (b = true → wpx m s Q E) → (b = false → Q tt s) → wpx (when b m) s Q E.
Proof. intros H1 H2. destruct b; [by apply H1|by apply H2]. Qed.
End wpx.
Lemma wpx_zoom {S T A} (g : S → T) (f : T → S → S) (m : M T A) s (Q : A → S → Prop) E :
  wpx m (g s) (λ a t, Q a (f t s)) (λ e t, E e (f t s)) → wpx (zoom g f m) s Q E.
Proof. unfold wpx, zoom. by destruct (m (g s)). Qed.

(** ** What [main] does *)

Section props.
Context `{Libevent} (NDEBUG : bool) (self : N) {Sys U : Type} `{F : Fifo (EventLoop.op U)}.
Context (p : EventBase.platform) (this h hl : N) (Hne : h ≠ hl).
#[local] Existing Instance listener_watch.
Abbreviation program := (program (Sys := Sys)).
Implicit Types w : program.

Context (bases : Sys → gset N) (opened : Sys → gset Z).
Context (WSAStartup : Sys → unit * Sys).
Context (event_base_new : Sys → N * Sys) (event_base_free : N → Sys → unit * Sys).
Context (eventfd : Sys → Z * Sys) (pipe evutil_socketpair : Sys → (Z * (Z * Z)) * Sys).
Context (xclose : Z → Sys → Z * Sys).
Context (socket : Sys → Z * Sys) (make_nonblocking make_reuseable : Z → Sys → Z * Sys).
Context (inet_pton : string → Sys → Z * Sys) (sys_bind : Z → string → Z → Sys → Z * Sys).
Context (getsockname : Z → Sys → (Z * Z) * Sys) (sys_listen : Z → Z → Sys → Z * Sys).

(** What the calls do to the descriptors that are open. *)
Record calls : Prop := {
  startup_law : ListenerProps.keeps opened WSAStartup;
  new_law k b k' : event_base_new k = (b, k') →
    (b ∉ bases k) ∧ bases k' = {[b]} ∪ bases k ∧ opened k' = opened k;
  eventfd_law k fd k' : eventfd k = (fd, k') → bases k' = bases k ∧
    if decide (0 ≤ fd) then (fd ∉ opened k) ∧ opened k' = {[fd]} ∪ opened k else opened k' = opened k;
  pipe_law : EventBaseProps.makes_two bases opened pipe;
  socketpair_law : EventBaseProps.makes_two bases opened evutil_socketpair;
  close_law : ListenerProps.closes opened xclose;
  socket_law : ListenerProps.opens opened socket;
  nonblocking_law fd : ListenerProps.keeps opened (make_nonblocking fd);
  reuseable_law fd : ListenerProps.keeps opened (make_reuseable fd);
  pton_law ip : ListenerProps.keeps opened (inet_pton ip);
  bind_law fd ip q : ListenerProps.keeps opened (sys_bind fd ip q);
  name_law fd : ListenerProps.keeps opened (getsockname fd);
  listen_law fd n : ListenerProps.keeps opened (sys_listen fd n);
}.
Context (C : calls).

Abbreviation setup := (main_setup NDEBUG self p this h hl WSAStartup event_base_new eventfd pipe
  evutil_socketpair xclose socket make_nonblocking make_reuseable inet_pton sys_bind getsockname sys_listen).

(** Nothing was printed. *)
Definition silent w w' : Prop := stdout w' = stdout w ∧ stderr w' = stderr w.

(** The base is made; libevent watches its channel. *)
Definition base_made w w' : Prop :=
  silent w w' ∧ world_ok (EventBase.objects (ebase w')) ∧ thread_ok self this (EventBase.objects (ebase w')) ∧
  handlers (EventBase.objects (ebase w')) !! hl = None ∧
  opened (EventBase.os (ebase w)) ⊆ opened (EventBase.os (ebase w')).

Lemma make_base_ok w :
  world_ok (EventBase.objects (ebase w)) → handlers (EventBase.objects (ebase w)) !! h = None →
  handlers (EventBase.objects (ebase w)) !! hl = None →
  wpx (on_base (EventBase.mkEventBase NDEBUG self p event_base_new eventfd pipe evutil_socketpair this h)) w
    (λ _ w', base_made w w') (λ e w', silent w w' ∧ ∃ what, e = runtime_error what).
Proof.
  intros O Hh Hl. apply wpx_zoom. unfold EventBase.mkEventBase.
  pose proof (EventBaseProps.make_ok NDEBUG self p bases opened event_base_new eventfd pipe evutil_socketpair
    (new_law C) (eventfd_law C) (pipe_law C) (socketpair_law C) this h (ebase w) O Hh) as Hm.
  unfold wpx. destruct (EventBase.LibeventEventBase_new _ _ _ _ _ _ _ _ _ (ebase w)) as [[] b|e b| |]; try done.
  - destruct Hm as (eb & x & _ & _ & Ex & _ & _ & _ & O' & Ht & _ & _ & _ & _ & Ho).
    split; [done|]. split; [done|]. split; [done|]. simpl. rewrite Ex, lookup_insert_ne by done. split; [done|].
    rewrite Ho. set_solver.
  - split; [done|]. destruct Hm as [-> _]. by eexists.
Qed.

(** The listener is made, without a socket. *)
Lemma make_listener_ok w : world_ok (EventBase.objects (ebase w)) →
  thread_ok self this (EventBase.objects (ebase w)) → handlers (EventBase.objects (ebase w)) !! hl = None →
  wp (make_listener NDEBUG self this hl) w (λ _ w', silent w w' ∧ listening w' = true ∧
    EventBase.os (ebase w') = EventBase.os (ebase w) ∧
    watching self this hl (EventBase.objects (ebase w')) (-1) NONE).
Proof.
  intros O Ht Hl. unfold make_listener, wp, mbind, M_bind, on_base, EventBase.on_objects, EventHandler_new, modify, zoom.
  simpl. split; [done|]. split; [done|]. split; [done|]. split; [by apply new_handler_ok|]. split; [done|].
  exists (mkHandler (-1) None). split; [apply lookup_insert_eq|done].
Qed.

Abbreviation bind_calls := (ListenerProps.bind_calls make_nonblocking socket make_reuseable inet_pton sys_bind getsockname).

(** The listener has a new socket [fd], bound to a port that the system chose, [k] being the
    system after that and [k'] now; libevent watches it for [what]. *)
Definition has_socket w fd k k' what w' : Prop := silent w w' ∧ listening w' = true ∧
  0 ≤ fd ∧ (fd ∉ opened (EventBase.os (ebase w))) ∧ fd ∈ opened k ∧ opened k' = opened k ∧
  (∃ k0 q, opened (EventBase.os (ebase w)) ⊆ opened k0 ∧ bind_calls "0.0.0.0" 0 fd q k0 k ∧ port w' = ntohs q) ∧
  EventBase.os (ebase w') = k' ∧ watching self this hl (EventBase.objects (ebase w')) fd what.

(** And it listens. *)
Definition listens w what w' : Prop := ∃ fd k rc k',
  sys_listen fd 128 k = (rc, k') ∧ rc ≠ -1 ∧ has_socket w fd k k' what w'.

Lemma main_bind_ok w0 w : silent w0 w →
  opened (EventBase.os (ebase w0)) ⊆ opened (EventBase.os (ebase w)) → listening w = true →
  watching self this hl (EventBase.objects (ebase w)) (-1) NONE →
  wpx (on_listener NDEBUG self this hl (Listener.bind_any (sys socket) (λ fd, sys (make_nonblocking fd))
    (λ fd, sys (make_reuseable fd)) (λ ip, sys (inet_pton ip)) (λ fd ip q, sys (sys_bind fd ip q))
    (λ fd, sys (getsockname fd)) (λ fd, sys (xclose fd)) 0)) w
    (λ _ w', ∃ fd k, has_socket w0 fd k k NONE w') (λ e w', silent w0 w' ∧ ∃ what, e = runtime_error what).
Proof.
  intros Hs Ho Hal Hw. apply wpx_zoom. unfold Listener.bind_any.
  pose proof (ListenerProps.bind_ok opened make_nonblocking xclose (nonblocking_law C) (close_law C) socket
    make_reuseable inet_pton sys_bind getsockname (socket_law C) (reuseable_law C) (pton_law C) (bind_law C)
    (name_law C) "0.0.0.0" 0 (get_listener NDEBUG self this hl w) (-1) Hal Hw) as Hb.
  unfold wpx. destruct (Listener.bind _ _ _ _ _ _ _ "0.0.0.0" 0 _) as [[] l|e l| |]; try done.
  - destruct Hb as (fd & q & s & (Hfd & Hn & Hopen) & Hc & Hos & Ha & Hh & Hp).
    exists fd, s. split; [|split; [done|]].
    + split; simpl; [by apply Hs|]. rewrite Hos. by apply Hs.
    + split; [done|]. split; [set_solver|]. split; [set_solver|]. split; [done|].
      split; [by eexists _, q; split; [exact Ho|]|]. simpl. by rewrite Hos.
  - destruct Hb as (He & _ & _ & Hos & _). split; [|done]. split; simpl; [by apply Hs|]. rewrite Hos. by apply Hs.
Qed.

Lemma main_listen_ok w0 w fd k : has_socket w0 fd k k NONE w →
  wpx (on_listener NDEBUG self this hl (Listener.listen (λ fd n, sys (sys_listen fd n)) 128)) w
    (λ _ w', listens w0 NONE w') (λ e w', silent w0 w' ∧ ∃ what, e = runtime_error what).
Proof.
  intros (Hs & Hal & Hfd & Hn & Hin & _ & Hb & Hk & Hw). apply wpx_zoom. unfold Listener.listen.
  apply wpx_bind, wpx_wp. eapply ListenerProps.wp_fd; [done|exact Hw|].
  apply wpx_bind, wpx_wp, ListenerProps.wp_lsys. intros rc k' E. simpl in E. rewrite Hk in E.
  destruct (Z.eqb_spec rc (-1)); [split; [done|by eexists]|].
  exists fd, k, rc, k'. split; [done|]. split; [done|]. by apply (listen_law C) in E.
Qed.

Lemma main_accepting_ok w0 w : listens w0 NONE w →
  wp (on_listener NDEBUG self this hl Listener.startAccepting) w (λ _ w', listens w0 READ w').
Proof.
  intros (fd & k & rc & k' & El & Hrc & Hs & Hal & Hfd & Hn & Hin & Ho & Hb & Hk & Hw).
  assert (wp Listener.startAccepting (get_listener NDEBUG self this hl w)
    (λ _ l, listens w0 READ (set_listener NDEBUG self this hl l w))) as E.
  { apply ListenerProps.wp_on_lhandler; [done|]. eapply wp_mono; [apply (w_register_ok _ fd NONE READ); exact Hw|].
    intros [] hs Hh. by exists fd, k, rc, k'. }
  unfold wp, on_listener, zoom in *. by destruct (Listener.startAccepting _).
Qed.

(** [main], from the listener up to the loop. *)
Definition ready w w' : Prop := ∃ w1, listens w READ w1 ∧
  w' = mkProgram (ebase w1) true (port w1) (stdout w ++ ["Ready to talk back on " +:+ pretty (port w1)]) (stderr w).
Definition gave_up w (e : exn) w' : Prop := silent w w' ∧ ∃ what, e = runtime_error what.

Lemma main_rest_ok w0 w : base_made w0 w →
  wpx (make_listener NDEBUG self this hl;;
    on_listener NDEBUG self this hl (Listener.bind_any (sys socket) (λ fd, sys (make_nonblocking fd))
      (λ fd, sys (make_reuseable fd)) (λ ip, sys (inet_pton ip)) (λ fd ip q, sys (sys_bind fd ip q))
      (λ fd, sys (getsockname fd)) (λ fd, sys (xclose fd)) 0);;
    on_listener NDEBUG self this hl (Listener.listen (λ fd n, sys (sys_listen fd n)) 128);;
    on_listener NDEBUG self this hl Listener.startAccepting;;
    w ← get;
    printf ("Ready to talk back on " +:+ pretty (port w))) w (λ _ w', ready w0 w') (gave_up w0).
Proof.
  intros (Hs & O & Ht & Hl & Ho).
  apply wpx_bind, wpx_wp. eapply wp_mono; [by apply make_listener_ok|]. intros [] w1 (Es & Hal & Eo & Hw).
  apply wpx_bind. eapply wpx_mono; [apply (main_bind_ok w0); [|by rewrite Eo|done|done]| |done].
  { unfold silent in *. intuition congruence. }
  intros [] w2 (fd & k & Hb). apply wpx_bind. eapply wpx_mono; [by apply (main_listen_ok w0 w2 fd k)| |done].
  intros [] w3 Hb'. apply wpx_bind, wpx_wp. eapply wp_mono; [by apply (main_accepting_ok w0)|].
  intros [] w4 Hr. exists w4. split; [done|].
  destruct Hr as (fd' & k1 & rc & k2 & _ & _ & [<- <-] & <- & _). done.
Qed.

Lemma main_setup_ok w :
  world_ok (EventBase.objects (ebase w)) → handlers (EventBase.objects (ebase w)) !! h = None →
  handlers (EventBase.objects (ebase w)) !! hl = None →
  wpx setup w (λ _ w', ready w w') (gave_up w).
Proof.
  intros O Hh Hl.
  assert (∀ w1, EventBase.objects (ebase w1) = EventBase.objects (ebase w) → silent w w1 →
    opened (EventBase.os (ebase w1)) = opened (EventBase.os (ebase w)) →
    ∀ (m : unit → M program unit), (∀ w2, base_made w w2 → wpx (m tt) w2 (λ _ w', ready w w') (gave_up w)) →
    wpx (on_base (EventBase.mkEventBase NDEBUG self p event_base_new eventfd pipe evutil_socketpair this h) ≫= m) w1
      (λ _ w', ready w w') (gave_up w)) as Hmk.
  { intros w1 Eo Es Ed m Hm. apply wpx_bind. eapply wpx_mono; [apply make_base_ok; by rewrite Eo|..].
    - intros [] w2 (Es2 & Hok & Ht & Hl2 & Hd). apply Hm. split; [|rewrite <- Ed; done].
      unfold silent in *. intuition congruence.
    - intros e w2 [Es2 He]. split; [|done]. unfold silent in *. intuition congruence. }
  unfold main_setup. apply wpx_bind, wpx_when; intros _; [|by apply Hmk; [..|intros w2; apply main_rest_ok]].
  apply wpx_zoom. unfold EventBase.call, wpx, get, mbind, M_bind.
  destruct (WSAStartup (EventBase.os (ebase w))) as [[] k] eqn:Ew. apply (startup_law C) in Ew.
  apply Hmk; [done|done|done|]. intros w2. apply main_rest_ok.
Qed.

(** ** The loop *)

Context (eff : U → program → program).
Context (event_base_loop timer_add timer_del : M (EventLoop.base U program) Z).
Context (add_external : ∀ b, timer_add b = Done 0 b).

Abbreviation the_main := (main NDEBUG self p this h hl WSAStartup event_base_new event_base_free eventfd pipe
  evutil_socketpair xclose socket make_nonblocking make_reuseable inet_pton sys_bind getsockname sys_listen
  (EventLoopProps.user eff) EventLoopProps.loopexit event_base_loop timer_add timer_del).

(** Nothing asks the loop to end, and the operations that are queued fit the fuel. *)
Definition quiet (fuel : nat) (b : EventLoop.base U program) : Prop :=
  EventLoop.terminate_ b = false ∧
  ∃ xs, fifo_holds (EventLoop.queue b) xs ∧ existsb EventLoopProps.terminates xs = false ∧ (length xs < fuel)%nat.

Lemma with_channel_quiet fuel b : quiet fuel b → quiet fuel (with_channel this b).
Proof. unfold quiet, with_channel. by destruct (EventBase.ebases _ !! this). Qed.

(** What a handler does to the program alone stops nothing and queues nothing. *)
Lemma on_program_quiet {A} (m : M program A) fuel b a b' :
  quiet fuel b → on_program m b = Done a b' → quiet fuel b'.
Proof.
  intros Hq. unfold on_program, zoom. destruct (m _); try done. by intros [= <- <-].
Qed.

(** C11: [main] makes the base and the listener, binds, listens and accepts.  If a call of
    the system fails it leaves by an exception, and has printed nothing.  Otherwise the
    listener has a socket that was not open before and is bound to all addresses, at a port
    that the system chose; it listens, and libevent watches it for reading; one line was
    printed, with the port of that socket.  Then the loop serves as long as the handlers that
    libevent runs return and none of them stops it: [main] never returns, whatever number of
    turns the loop is given, and what ends it is only an exception or an undefined operation
    of a handler. *)
Theorem main_serves q w turns fuel :
  fifo_holds q [] → world_ok (EventBase.objects (ebase w)) →
  handlers (EventBase.objects (ebase w)) !! h = None → handlers (EventBase.objects (ebase w)) !! hl = None →
  (0 < fuel)%nat → (∀ b rc b', quiet fuel b → event_base_loop b = Done rc b' → quiet fuel b') →
  match setup w with
  | Done _ w' =>
      (∃ fd k0 q k rc, 0 ≤ fd ∧ (fd ∉ opened (EventBase.os (ebase w))) ∧
        opened (EventBase.os (ebase w)) ⊆ opened k0 ∧
        bind_calls "0.0.0.0" 0 fd q k0 k ∧ port w' = ntohs q ∧
        sys_listen fd 128 k = (rc, EventBase.os (ebase w')) ∧ rc ≠ -1 ∧
        fd ∈ opened (EventBase.os (ebase w')) ∧
        watching self this hl (EventBase.objects (ebase w')) fd READ) ∧
      listening w' = true ∧ stderr w' = stderr w ∧
      stdout w' = stdout w ++ ["Ready to talk back on " +:+ pretty (port w')] ∧
      match the_main turns fuel (blank q w) with
      | Done _ _ => False
      | Throws e b' => ∃ b, quiet fuel b ∧ event_base_loop b = Throws e b'
      | Faults f => ∃ b, quiet fuel b ∧ event_base_loop b = Faults f
      | Diverges => True
      end
  | Throws e w' => silent w w' ∧ (∃ what, e = runtime_error what) ∧
      the_main turns fuel (blank q w) = Throws e (blank q w')
  | _ => False
  end.
Proof.
  intros Hq O Hh Hl Hf Hloop. pose proof (main_setup_ok w O Hh Hl) as Hs. unfold wpx in Hs.
  destruct (setup w) as [[] w'|e w'| |] eqn:E; try done.
  - destruct Hs as (w1 & (fd & k & rc & k' & El & Hrc & _ & _ & Hfd & Hn & Hin & Ho & (k0 & q0 & Hb) & Hk & Hw) & ->).
    split; [exists fd, k0, q0, k, rc; simpl; rewrite Hk, Ho; by destruct Hb as (? & ? & ?)|]. split_and!; [done..|].
    unfold main, on_program. erewrite bind_done; [|unfold zoom; cbn [EventLoop.wstate blank]; rewrite E; reflexivity].
    erewrite bind_done; [|reflexivity].
    set (b0 := with_channel this _).
    assert (quiet fuel b0) as Hb0 by (apply with_channel_quiet; split; [done|]; by exists []).
    pose proof (EventLoopProps.loop_ends_as_libevent NDEBUG self eff event_base_loop timer_add timer_del add_external
      turns fuel b0 Hb0 Hloop) as Hend.
    unfold mbind, M_bind. by destruct (EventLoop.loop _ _ _ _ _ _ _ _ _ _ b0).
  - destruct Hs as [Hs He]. split; [done|]. split; [done|]. unfold main, on_program.
    apply bind_throws. unfold zoom. cbn [EventLoop.wstate blank]. by rewrite E.
Qed.

(** [errorCb] says on [stderr] what went wrong with a connection; the listener goes on. *)
Lemma accept_error_reported accept acceptCb w fd s :
  listening w = true → watching self this hl (EventBase.objects (ebase w)) fd READ →
  accept fd (EventBase.os (ebase w)) = (-1, s) →
  on_listener NDEBUG self this hl (Listener.AcceptHandler_ready (λ fd, sys (make_nonblocking fd))
    (λ fd, sys (xclose fd)) (λ fd, sys (accept fd)) acceptCb (errorCb NDEBUG self this hl) READ) w =
  Done tt (mkProgram (EventBase.mkBW (EventBase.objects (ebase w)) (EventBase.ebases (ebase w)) s) (listening w) (port w)
    (stdout w) (stderr w ++ ["While listening: Failed to accept connection"])).
Proof.
  intros Ha Hw E. unfold on_listener, zoom.
  assert (wp (Listener.AcceptHandler_ready (λ fd, sys (make_nonblocking fd))
    (λ fd, sys (xclose fd)) (λ fd, sys (accept fd)) acceptCb (errorCb NDEBUG self this hl) READ)
    (get_listener NDEBUG self this hl w) (λ _ l, l = Listener.set_os (s, stderr w ++ ["While listening: Failed to accept connection"])
      (get_listener NDEBUG self this hl w))) as Hr.
  { unfold Listener.AcceptHandler_ready. apply wp_bind. eapply ListenerProps.wp_fd; [done|exact Hw|].
    apply wp_bind, ListenerProps.wp_lsys. intros sock s' E'. simpl in E'. rewrite E in E'. injection E' as <- <-.
    apply wp_modify. done. }
  apply wp_iff in Hr as ([] & l & -> & ->). done.
Qed.
End props.

(** ** On a system *)

Section demo.
#[local] Existing Instance table_libevent.
#[local] Instance demo_queue : Fifo (EventLoop.op N) := list_fifo (EventLoop.op N).
Definition stay {A} (a : A) (k : EventBaseProps.demo) : A * EventBaseProps.demo := (a, k).
Lemma stay_keeps {A} (a : A) : ListenerProps.keeps snd (stay a).
Proof. by intros k b k' [= _ <-]. Qed.

Lemma demo_calls : calls fst snd (stay tt) EventBaseProps.demo_base_new EventBaseProps.demo_eventfd
  EventBaseProps.demo_two EventBaseProps.demo_two EventBaseProps.demo_close EventBaseProps.demo_eventfd
  (λ _, stay 0) (λ _, stay 0) (λ _, stay 1) (λ _ _ _, stay 0) (λ _, stay (0, htons 4000)) (λ _ _, stay 0).
Proof.
  split; try (intros; apply stay_keeps).
  - intros k b k' [= <- <-]. split; [apply is_fresh|done].
  - intros k fd k' [= <- <-]. split; [done|]. destruct (EventBaseProps.unused_ok k.2). by rewrite decide_True by done.
  - apply EventBaseProps.demo_two_law.
  - apply EventBaseProps.demo_two_law.
  - by intros fd k r k' [= <- <-].
  - intros k fd k' [= <- <-]. destruct (EventBaseProps.unused_ok k.2). by rewrite decide_True by done.
Qed.

Definition demo_program : program (Sys := EventBaseProps.demo) := mkProgram EventBaseProps.demo_world false 0 [] [].
Abbreviation demo_setup := (main_setup false 1%N EventBase.POSIX 5%N 7%N 8%N (stay tt) EventBaseProps.demo_base_new
  EventBaseProps.demo_eventfd EventBaseProps.demo_two EventBaseProps.demo_two EventBaseProps.demo_close
  EventBaseProps.demo_eventfd (λ _, stay 0) (λ _, stay 0) (λ _, stay 1) (λ _ _ _, stay 0)
  (λ _, stay (0, htons 4000)) (λ _ _, stay 0)).
(** Each turn of libevent a connection cannot be accepted. *)
Definition demo_loop : M (EventLoop.base N (program (Sys := EventBaseProps.demo))) Z :=
  on_program (on_listener false 1%N 5%N 8%N (errorCb false 1%N 5%N 8%N "Failed to accept connection");; mret 1).
Abbreviation demo_main := (main (U := N) false 1%N EventBase.POSIX 5%N 7%N 8%N (stay tt) EventBaseProps.demo_base_new
  EventBaseProps.demo_base_free
  EventBaseProps.demo_eventfd EventBaseProps.demo_two EventBaseProps.demo_two EventBaseProps.demo_close
  EventBaseProps.demo_eventfd (λ _, stay 0) (λ _, stay 0) (λ _, stay 1) (λ _ _ _, stay 0)
  (λ _, stay (0, htons 4000)) (λ _ _, stay 0) (EventLoopProps.user (λ _ w, w)) EventLoopProps.loopexit
  demo_loop (mret 0) (mret 0)).

Lemma main_serves_witness :
  match demo_setup demo_program with
  | Done _ w' => stdout w' = ["Ready to talk back on 4000"] ∧ listening w' = true ∧
      demo_main 100 5 (blank [] demo_program) = Diverges
  | _ => False
  end.
Proof.
  assert (T := main_serves (Sys := EventBaseProps.demo) false 1%N EventBase.POSIX 5%N 7%N 8%N ltac:(done) fst snd (stay tt)
    EventBaseProps.demo_base_new EventBaseProps.demo_base_free
    EventBaseProps.demo_eventfd EventBaseProps.demo_two EventBaseProps.demo_two EventBaseProps.demo_close
    EventBaseProps.demo_eventfd (λ _, stay 0) (λ _, stay 0) (λ _, stay 1) (λ _ _ _, stay 0)
    (λ _, stay (0, htons 4000)) (λ _ _, stay 0) demo_calls (λ (_ : N) w, w) demo_loop (mret 0) (mret 0)
    (λ _, eq_refl) [] demo_program 100 5 eq_refl ltac:(by split) eq_refl eq_refl ltac:(lia)
    (λ b rc b', on_program_quiet _ 5 b rc b')).
  assert (match demo_setup demo_program with Done _ w' => port w' =? 4000 | _ => false end = true) as Hp
    by by vm_compute.
  destruct (demo_setup demo_program) as [[] w'|e w'| |]; [|done|done|done].
  destruct T as (_ & Hl & _ & Ho & Hm). apply Z.eqb_eq in Hp.
  split; [rewrite Ho, Hp; by vm_compute|]. split; [exact Hl|].
  destruct (demo_main 100 5 _) as [| ? ?|?|]; [destruct Hm|..|reflexivity]; by destruct Hm as (b & _ & Hb).
Defined.
End demo.
