(* ===== verification/Tests.v ===== *)
(** * The repository's unit tests, on the model

    Tests of [src/test/] that need no network, as programs over the definitions of
    [Buffer.v], [Optional.v], [Mpsc.v] and [Handlers.v]: they call what the test calls, in
    the same order, and [ASSERT] what it asserts.  That they pass when they are evaluated
    says that the model does what the authors expect of the program there; the findings
    lie where the tests do not look. *)

From S2P Require Import Prelude What.
From S2P Require Extent Dll Buffer BufferProps Optional Mpsc Libevent Handlers HandlersProps.

(** [ASSERT_TRUE], [ASSERT_EQ]: a test that fails ends there. *)
Definition ASSERT {St} (b : bool) : M St unit := require b AssertFailed.
Abbreviation ASSERT_EQ x y := (ASSERT (bool_decide (x = y))).
Definition passes {St} (t : M St unit) (s : St) : bool :=
  match t s with Done _ _ => true | _ => false end.

(** ** [buffer_test.cc] *)

Module BufferTest.
Import Extent Dll Buffer.
#[local] Existing Instance BufferProps.example_alloc.

Definition contents (buffer : ptr) : M mem (list cell) :=
  size ← BufferImpl_size buffer;
  buf ← new_chars size;
  '(nread, buf) ← BufferImpl_peek buffer buf size;
  ASSERT_EQ size nread;;
  mret (take (Z.to_nat nread) buf).
Definition mkBuffer (str : string) : M mem ptr :=
  ret ← Buffer_create;
  BufferImpl_append ret (Some <$> bytes str) (zlength (bytes str));;
  mret ret.
#[local] Instance byte_eq_dec : EqDecision byte := Byte.byte_eq_dec.
(** [std::string(out, n)], compared with a literal. *)
Definition is_string (out : list cell) (n : Z) (s : string) : bool :=
  bool_decide (take (Z.to_nat n) out = Some <$> bytes s).
Definition ext_cells (e : Extent) : M mem (list cell) :=
  n ← load (ext_node e);
  mret (take (Z.to_nat (ext_size e)) (drop (Z.to_nat (ext_off e)) (extent_data (payload n)))).
Definition nth_extent (l : list Extent) (i : nat) : M mem Extent := of_option (l !! i) OutOfBounds.

Definition TestStartsEmpty : M mem unit :=
  buf ← Buffer_create; e ← BufferImpl_empty buf; ASSERT e.
Definition TestStartsWithZeroSize : M mem unit :=
  buf ← Buffer_create; s ← BufferImpl_size buf; ASSERT_EQ s 0.
Definition TestAppend : M mem unit :=
  buf ← Buffer_create;
  BufferImpl_append buf (Some <$> bytes "foo") 3;;
  s ← BufferImpl_size buf; ASSERT_EQ s 3;;
  e ← BufferImpl_empty buf; ASSERT (negb e);;
  c ← contents buf; ASSERT (is_string c s "foo").
Definition TestAppendBuffer : M mem unit :=
  buf ← Buffer_create;
  buf2 ← mkBuffer "foo";
  BufferImpl_append_buffer buf buf2;;
  e ← BufferImpl_empty buf; ASSERT (negb e);;
  e ← BufferImpl_empty buf2; ASSERT e;;
  c ← contents buf; ASSERT (is_string c 3 "foo").
Definition TestAppendString : M mem unit :=
  buf ← Buffer_create;
  BufferImpl_append_string buf (bytes "foo");;
  s ← BufferImpl_size buf; ASSERT_EQ s 3;;
  e ← BufferImpl_empty buf; ASSERT (negb e);;
  c ← contents buf; ASSERT (is_string c s "foo").
Definition TestPrepend : M mem unit :=
  buf ← mkBuffer "bar";
  BufferImpl_prepend buf (Some <$> bytes "foo") 3;;
  s ← BufferImpl_size buf; ASSERT_EQ s 6;;
  c ← contents buf; ASSERT (is_string c s "foobar").
Definition TestPrependBuffer : M mem unit :=
  buf ← mkBuffer "bar";
  buf2 ← mkBuffer "foo";
  BufferImpl_prepend_buffer buf buf2;;
  c ← contents buf; ASSERT (is_string c 6 "foobar").
Definition TestPrependString : M mem unit :=
  buf ← mkBuffer "bar";
  BufferImpl_prepend_string buf (bytes "foo");;
  s ← BufferImpl_size buf; ASSERT_EQ s 6;;
  c ← contents buf; ASSERT (is_string c s "foobar").
Definition TestPeek : M mem unit :=
  buf ← mkBuffer "foobar";
  '(nread, out) ← BufferImpl_peek buf (replicate 3 None) 3;
  ASSERT_EQ nread 3;; ASSERT (is_string out 3 "foo");;
  (* doing it again yields the same results *)
  '(nread, out) ← BufferImpl_peek buf (replicate 3 (Some Byte.x00)) 3;
  ASSERT_EQ nread 3;; ASSERT (is_string out 3 "foo");;
  (* peeking after a drain works as expected *)
  BufferImpl_drain buf 3;;
  '(nread, out) ← BufferImpl_peek buf out 3;
  ASSERT_EQ nread 3;; ASSERT (is_string out 3 "bar").
Definition TestPeekSingleExtent : M mem unit :=
  buf ← mkBuffer "foobar";
  BufferImpl_append buf (Some <$> bytes "raboof") 6;;
  extents ← BufferImpl_peek_extents buf 3 [];
  ASSERT_EQ (length extents) 1%nat;;
  e ← nth_extent extents 0; c ← ext_cells e; ASSERT (is_string c (ext_size e) "foo");;
  extents ← BufferImpl_peek_extents buf 6 [];
  ASSERT_EQ (length extents) 1%nat.
Definition TestPeekMultipleExtents : M mem unit :=
  buf ← mkBuffer "foobar";
  BufferImpl_append buf (Some <$> bytes "raboof") 6;;
  extents ← BufferImpl_peek_extents buf 9 [];
  ASSERT_EQ (length extents) 2%nat;;
  e ← nth_extent extents 0; c ← ext_cells e; ASSERT (is_string c (ext_size e) "foobar");;
  e ← nth_extent extents 1; c ← ext_cells e; ASSERT (is_string c (ext_size e) "rab").
Definition TestDrain : M mem unit :=
  buf ← mkBuffer "foobar";
  s ← BufferImpl_size buf; ASSERT_EQ s 6;;
  BufferImpl_drain buf 0;; s ← BufferImpl_size buf; ASSERT_EQ s 6;;
  BufferImpl_drain buf 1;; s ← BufferImpl_size buf; ASSERT_EQ s 5;;
  BufferImpl_drain buf 1000;; s ← BufferImpl_size buf; ASSERT_EQ s 0.
Definition TestRead : M mem unit :=
  buf ← mkBuffer "foobar";
  '(nread, out) ← BufferImpl_read buf (replicate 3 None) 3;
  ASSERT_EQ nread 3;; ASSERT (is_string out 3 "foo");;
  s ← BufferImpl_size buf; ASSERT_EQ s 3;;
  (* long reads are clamped *)
  '(nread, out) ← BufferImpl_read buf out 100;
  ASSERT_EQ nread 3;; ASSERT (is_string out 3 "bar");;
  (* reads on empty are empty *)
  '(nread, out) ← BufferImpl_read buf out 100;
  ASSERT_EQ nread 0.
Definition TestReserve : M mem unit :=
  buf ← mkBuffer "foo";
  BufferImpl_reserve buf 10;;
  s ← BufferImpl_size buf; ASSERT_EQ s 3;;
  BufferImpl_append buf (Some <$> bytes "0123456789") 10;;
  s ← BufferImpl_size buf; ASSERT_EQ s 13;;
  c ← contents buf; ASSERT (is_string c s "foo0123456789").
Definition TestReserveWithExtents : M mem unit :=
  buf ← mkBuffer "";
  extents ← BufferImpl_reserve_extents buf 10 [];
  ASSERT_EQ (length extents) 1%nat;;
  e ← nth_extent extents 0; ASSERT (bool_decide (ext_node e ≠ nullptr));; ASSERT_EQ (ext_size e) 10;;
  extents ← BufferImpl_reserve_extents buf 15 [];
  ASSERT_EQ (length extents) 2%nat;;
  e ← nth_extent extents 0; ASSERT_EQ (ext_size e) 10;;
  e ← nth_extent extents 1; ASSERT_EQ (ext_size e) 5.

Definition buffer_tests : list (M mem unit) :=
  [TestStartsEmpty; TestStartsWithZeroSize; TestAppend; TestAppendBuffer; TestAppendString; TestPrepend;
   TestPrependBuffer; TestPrependString; TestPeek; TestPeekSingleExtent; TestPeekMultipleExtents; TestDrain;
   TestRead; TestReserve; TestReserveWithExtents].
End BufferTest.

(** ** [optional_test.cc]

    The objects of a test are destroyed when it ends; what is left is what it leaked. *)

Module OptionalTest.
Import Optional.

(** [ASSERT_THROW({m}, e)]. *)
Definition ASSERT_THROW {A} (m : M Z A) (e : exn) : M Z unit := λ n,
  match m n with Throws e' n' => if bool_decide (e' = e) then Done tt n' else Faults AssertFailed | _ => Faults AssertFailed end.

Definition OptionalBasic : M Z unit :=
  opt ← Optional_make 1;
  v ← Optional_value opt; ASSERT_EQ 1 v;;
  Optional_delete opt.
Definition BooleanContext : M Z unit :=
  empty ← Optional_new (T := Z);
  full ← Optional_copy 1;
  ASSERT (Optional_bool full);;
  ASSERT (negb (Optional_bool empty));;
  Optional_delete full;; Optional_delete empty.
Definition ConstantValue : M Z unit := OptionalBasic.
Definition EmptyOptionalThrows : M Z unit :=
  empty ← Optional_new (T := Z);
  ASSERT_THROW (Optional_value empty) (logic_error "Optional has no value");;
  Optional_delete empty.
Definition SourceNotEmptyAfterMoveConstruction : M Z unit :=
  source ← Optional_copy 1;
  target ← Optional_move source;
  ASSERT (Optional_bool source);;
  ASSERT (Optional_bool target);;
  v ← Optional_value target; ASSERT_EQ 1 v;;
  Optional_delete target;; Optional_delete source.
Definition AssignmentOperator : M Z unit :=
  empty_target ← Optional_new;
  source ← Optional_copy 1;
  ASSERT (negb (Optional_bool empty_target));;
  empty_target ← Optional_assign empty_target source;
  ASSERT (Optional_bool empty_target);;
  v ← Optional_value empty_target; ASSERT_EQ 1 v;;
  full_target ← Optional_copy 2;
  full_target ← Optional_assign full_target source;
  v ← Optional_value full_target; ASSERT_EQ 1 v;;
  Optional_delete full_target;; Optional_delete source;; Optional_delete empty_target.
(** [T] is [std::string], which owns memory. *)
Definition CopyFromNonPODValgrindSmokeTest : M Z unit :=
  source ← Optional_copy (String.string_of_list_byte (replicate 1024 Byte.x41));
  target ← Optional_new;
  target ← Optional_assign target source;
  ASSERT (Optional_bool source);;
  ASSERT (Optional_bool target);;
  Optional_delete target;; Optional_delete source.

Definition optional_tests : list (M Z unit) :=
  [OptionalBasic; BooleanContext; ConstantValue; EmptyOptionalThrows; SourceNotEmptyAfterMoveConstruction; AssignmentOperator;
   CopyFromNonPODValgrindSmokeTest].
End OptionalTest.

(** ** [mpsc_queue_test.cc] *)

Module ConcurrentMPSCQueueTest.
Import Mpsc.
Definition QueueBasic : M (queue Z) unit :=
  (* an empty queue *)
  r ← push 2 1; ASSERT r;;
  (* a non-empty one *)
  r ← push 3 2; ASSERT (negb r);;
  (* FIFO *)
  v ← pop 0; ASSERT_EQ v (Some 1);;
  v ← pop 0; ASSERT_EQ v (Some 2);;
  v ← pop 0; ASSERT_EQ v None;;
  delete_queue 0;;
  h ← gets heap; ASSERT_EQ (map_to_list h) [].
End ConcurrentMPSCQueueTest.

(** ** [event_base_test.cc], without a loop *)

Module EventBaseTest.
Import Libevent Handlers.
#[local] Existing Instance table_libevent.
Definition RegistrationStateChanges : M world unit :=
  EventHandler_new 1 5;;
  r ← EventHandler_registered 1; ASSERT (negb r);;
  (* registration *)
  registerHandler false 7 3 1 READ;;
  r ← EventHandler_registered 1; ASSERT r;;
  w ← EventHandler_watched 1; ASSERT_EQ READ w;;
  (* idempotence *)
  registerHandler false 7 3 1 READ;;
  w ← EventHandler_watched 1; ASSERT_EQ READ w;;
  (* re-registration *)
  registerHandler false 7 3 1 WRITE;;
  w ← EventHandler_watched 1; ASSERT_EQ WRITE w;;
  (* unregistration *)
  unregisterHandler false 7 3 1;;
  r ← EventHandler_registered 1; ASSERT (negb r);;
  w ← EventHandler_watched 1; ASSERT_EQ NONE w;;
  (* idempotence *)
  unregisterHandler false 7 3 1;;
  r ← EventHandler_registered 1; ASSERT (negb r);;
  EventHandler_delete 1.
End EventBaseTest.

(** ** They pass *)

(** The one test that leaks assigns to an optional with a value in it, of type [int]. *)
Theorem tests_pass :
  forallb (λ t, passes t BufferProps.mem0) BufferTest.buffer_tests = true ∧
  (λ t : M Z unit, t 0) <$> OptionalTest.optional_tests = Done tt <$> [0; 0; 0; 0; 0; 1; 0] ∧
  passes ConcurrentMPSCQueueTest.QueueBasic (Mpsc.ConcurrentMPSCQueue 0 1%N) = true ∧
  passes EventBaseTest.RegistrationStateChanges HandlersProps.world0 = true.
Proof. by vm_compute. Qed.
